(* ===== verification/_CoqProject ===== *)
-Q . S2P
Prelude.v
GoStd.v
Bitset.v
PorcupineModel.v
Linearize.v
NodeList.v
Checker.v
CheckerProof.v
Parallel.v
ParallelProof.v
History.v
Kv.v
KvProof.v
Visualize.v
PorcupineSpec.v
VisLayout.v
VisLayoutProof.v
VisScanProof.v
VisRange.v
VisLayoutSpec.v
VisCheckSpec.v
VisPage.v
VisPageSpec.v
VisRenderSpec.v
Raft.v
RaftProof.v
RaftNet.v
RaftSafety.v
RaftLog.v
RaftSpec.v
RaftCommit.v
RaftCommitStep.v
RaftCommitSpec.v
RaftFindings.v
RaftLive.v
Mr.v
MrProof.v
MrJob.v
MrWorker.v
MrWorkerProof.v
MrCorrect.v
MrSpec.v
MrApps.v
MrAppsSpec.v
MrTiming.v
MrTimingSpec.v
MrCluster.v
MrClusterProof.v
MrClusterLive.v
MrClusterSpec.v
Labrpc.v
LabrpcSpec.v
RaftRpc.v
RaftRpcProof.v
RaftRpcSpec.v
Harness.v
RaftConfig.v
RaftConfigProof.v
RaftConfigSpec.v
RaftCheck.v
RaftCheckSpec.v
KvConfig.v
KvConfigSpec.v
Labgob.v
LabgobSpec.v
ShardClient.v
ShardSpec.v
SmConfig.v
SmConfigSpec.v
ShardConfig.v
ShardConfigProof.v
ShardConfigSpec.v
