(* ===== verification/Prelude.v ===== *)
(** * A verification development for the MIT 6.824 labs of this repository

    The repository holds Go programs under src/src/: a MapReduce system (mr/), the
    Raft consensus algorithm (raft/) on a simulated network (labrpc/, with the
    encoding checks of labgob/), clerks for a sharded key/value service
    (shardmaster/, shardkv/), the testers' configurations of raft/, kvraft/,
    shardmaster/ and shardkv/, and a linearizability checker (porcupine/, with the key/value model of
    models/) that the testers use.  The key/value and shard servers themselves are empty stubs.
    Raft's servers talk through labrpc; a tester records a history of client
    operations and hands it to porcupine; MapReduce stands on its own.

    ** Conventions

    A Go [int], [int64] or [time.Duration] is an unbounded [Z]: the values the code
    computes with (indexes, terms, counters, clocks) stay far below 2^63.  The words
    of porcupine's bitset and the hashes are [Z] with the wrap-around written out.
    A slice is a list, [l.[i]], [l.[i <- x]], [l.[: i]], [l.[i :]] are indexing,
    assignment and slicing that fail out of range ([go_scope] below).  A map is a
    [gmap]; an iteration over a map gets the order of the keys, either from a
    [GoMapOrder] or as an argument.  [sort.Sort] is any [GoSort] (GoStd.v), because
    it is not stable.  [None] is a run-time panic or [log.Fatalf]; an [outcome]
    (below) also tells a loop that ran out of fuel, and every use of fuel comes with
    a theorem that some fuel is enough.  Concurrency is a transition system whose
    steps are the critical sections of the code, with labels for the choices of the
    scheduler, the timers and the random draws.

    ** Files

    Shared
    - Prelude.v: slices, outcomes, tactics, hints, lemmas on lists.
    - GoStd.v: [GoSort], [GoMapOrder], weak orders.

    porcupine/
    - Bitset.v: bitset.go, word by word, with its meaning as a set of positions.
    - PorcupineModel.v: model.go and the conversions of checker.go ([Operation],
      [Event], [Model], [makeEntries], [renumber], [convertEntries]).
    - Linearize.v: the specification: linearizations of a list of entries, and
      their independence of representation.
    - NodeList.v: the doubly linked list on a heap ([insertBefore],
      [makeLinkedEntries], [lift], [unlift]) and the chain predicate [seg].
    - Checker.v: [checkSingle]; [body] is one iteration of its loop.
      CheckerProof.v: the invariant of the search (the entry list is the history
      without the calls on the stack, the cache holds explored configurations) and
      its measure [search_weight].
    - Parallel.v: [checkParallel] as a transition system of goroutines, channel,
      kill flag and timer, and the exported functions of porcupine.go.
      ParallelProof.v: its invariant, bound on steps, and progress.
    - History.v: what the conversions mean for whole operations.
    - Kv.v, KvProof.v: models/kv.go, and that linearizability is local to a key.
    - Visualize.v: [computeVisualizationData] of visualization.go.
    - PorcupineSpec.v: the theorems: the search decides linearizability, partial
      linearizations are sound, the parallel check is sound under every schedule and
      terminates, partitions are exact, and the data of the visualization exist.
    - VisLayout.v, VisPage.v: the script of the page that visualization.go writes
      (its functions [render], [highlight], [select], ... are JavaScript).
      VisLayout.v has timestamps, boxes and the left-to-right scan that places
      timestamps and linearization points; [None] is a TypeError or a NaN.  VisPage.v
      has what is drawn, and the mouse handlers on a record of the script's
      variables and the classes of the elements.  Numbers are any type with the laws
      of doubles in [JsNumberLaws], where addition rounds; integers are exact up to
      2^53 and middles up to 2^52, which is what [timed] and [exact_times] ask of a
      history.  [GridNumber] has the multiples of a unit, which doubles add without
      rounding up to 2^53 units.  [Qc] is the instance of the witnesses, and the
      browser's text measurement is a parameter.
    - VisLayoutProof.v, VisScanProof.v, VisLayoutSpec.v: the invariant of the scan,
      which meets the constraints listed in the script's comments ([fits]), and no
      assignment that does puts a timestamp further left.
    - VisRange.v: when texts are measured in multiples of the unit, so are all
      positions, as long as the page is not wider than a limit.
    - VisCheckSpec.v: from the checker to the picture: the data of every verbose
      check of a key/value history can be laid out, with every operation in it.
    - VisPageSpec.v, VisRenderSpec.v: the handlers implement a machine with the
      modes idle, hovering and selected; on a page within the limit of VisRange.v
      points lie on the boxes of their operations; errors are where the red strokes
      are, and the link jumps to the leftmost one that is visible.

    raft/
    - Raft.v: the state of a server and every critical section of raft.go.
      RaftProof.v: well-formed servers and requests, and each handler branch by
      branch.
    - RaftNet.v: a cluster: servers, vote rounds, heartbeat goroutines, calls of
      [Start]; messages are lost, delayed and reordered, never duplicated.
    - RaftSafety.v: the invariant behind Election Safety (votes granted, elections
      won).  RaftLog.v: the invariant behind Log Matching (every entry comes, with
      what precedes it, from the leader of its term).
    - RaftSpec.v: Election Safety, Log Matching and the handlers.  The cluster
      theorems have hypotheses on the schedule, because the code relies on them
      without checking: heartbeat goroutines take their snapshot while their server
      still leads ([timely]), no restarts, [nextIndex] in range and [Start] not
      overtaken ([careful]).
    - RaftCommit.v, RaftCommitStep.v, RaftCommitSpec.v: State Machine Safety, Leader
      Completeness, no panics.  A ghost state records the history of every term,
      the logs that won elections, and what each server has acknowledged and voted
      on; a prefix is [chosen] when a majority has acknowledged it.  The proviso is
      [steady]: [careful], and a server that wins an election has an unused
      [matchIndex].  RaftFindings.v: concrete runs that break each proviso.
    - RaftLive.v: progress. From every state a steady run reaches, the server with the
      best log can be elected and can commit a new command.  It is a possibility: the
      code bounds no delay, so nothing says that the scheduler will do it.

    raft/raft.go over labrpc/labrpc.go
    - RaftRpc.v: Raft's goroutines block in [ClientEnd.Call], the network of Labrpc.v
      carries and executes the requests, its dispatcher calls the handlers of Raft.v on
      bytes; labgob by its contract ([Gob]: decoding gives back what was encoded).
      RaftRpcProof.v: each step of the composition is a sequence of steps of
      RaftNet.v, under an invariant that ties every request to the goroutine waiting
      for it.
    - RaftRpcSpec.v: the cluster of RaftNet.v is an abstraction of this one, so its
      safety theorems hold here, whatever the network loses, delays or is
      reconfigured to.  The ends of different pairs and the servers have different
      names, and nothing restarts.

    raft/persister.go and the config.go of raft/, kvraft/, shardmaster/, shardkv/
    (the testers)
    - Harness.v: persisters, loops, random names, and tables of network ends
      ([wired]: what a table of ends means on labrpc's network).
    - RaftConfig.v, RaftConfigProof.v, RaftConfigSpec.v: starting, crashing,
      connecting and disconnecting servers; the theorems say that this implements an
      abstract configuration ([tester]) in which only the running instance of a
      server reaches its disk and only connected servers reach each other.
    - RaftCheck.v, RaftCheckSpec.v: the checks of a test.  On what the cluster of
      RaftNet.v does, they pass when they should and what they return is true.
    - KvConfig.v, KvConfigSpec.v: partitions, clerks, shuffled handles.
    - SmConfig.v (shardmaster/config.go), SmConfigSpec.v: the operations of a tester as
      an interface ([Tester]) that both configurations implement; they do the same,
      so the lemmas of KvConfigSpec.v hold for both, and what [make_partition]
      promises holds in every configuration that proper commands lead to.
    - ShardConfig.v, ShardConfigProof.v, ShardConfigSpec.v (shardkv/config.go): three
      masters and three groups of servers.  The invariants are stated on tables
      indexed by the names of the servers; the theorems say that this implements an
      abstract service ([service]), that a server which was shut down cannot use its
      ends, and where the names that join the shardmaster lead.

    mr/ and main/mrsequential.go
    - Mr.v: master.go, rpc.go and the worker's side of the protocol.  MrProof.v: the
      coordinator's invariant and the branches of [GiveTask].  MrJob.v: a worker that
      does not fail finishes the job.
    - MrWorker.v: the map and reduce tasks on a file system, and mrsequential.go;
      [encoding/json] by its contract ([GoJson]).  MrWorkerProof.v: the reduce loops
      and the groups of sorted pairs.  MrCorrect.v: file names, map tasks executed
      any number of times, what a reduce task reads.
    - MrSpec.v: the theorems, up to the equivalence of a whole job with the
      sequential program.
    - MrCluster.v: any number of workers on one directory, their steps interleaved; a
      worker may be killed between two steps, and one that the coordinator has given
      up may still write and report.  MrClusterProof.v: the invariant (what every
      file holds, what every worker holds, a task that counts as finished has its
      files).  MrClusterLive.v: a worker's steps add up to the task of MrWorker.v, and
      what is left to do decreases.
    - MrClusterSpec.v: whatever the workers do, when [Done] holds the outputs are those
      of the sequential program; and whatever they did, one worker that stays ends the
      job when its clock is five seconds past the last task handed out.  The first needs
      that no output starts with a JSON value: a reduce task that is executed again
      reads its own output, too ([reduce_reads_own_output]).
    - MrApps.v, MrAppsSpec.v: the applications under mrapps/; word count and the
      indexer compute what they should through a whole job.
    - MrTiming.v, MrTimingSpec.v: the applications that count the workers running at
      the same time by files named after processes.  Writing the file, the listing,
      every signal and the removal are steps of their own, between which other workers
      come, go and die; the count lies between the workers of the listing that are
      still alive at the end and those that were inside when it was made.

    labrpc/, labgob/, shardmaster/, shardkv/
    - Labrpc.v, LabrpcSpec.v: the network and the life of a request: at most one
      execution and one reply, no success from a superseded server, routing.  A request
      that has its answer, or whose server is gone, is over after at most six steps of
      its own; on a reliable network that leaves its server alone, nothing is lost
      whatever else happens in between.
    - Labgob.v, LabgobSpec.v: [checkType] on recursive types.
    - ShardClient.v, ShardSpec.v: the clerks' retry loops.

    ** Fuel

    [search_fuel] bounds the iterations of [checkSingle] (each level of the search
    scans at most 2r entries, r operations being left); [step_bound] the steps of
    [checkParallel]; the loops of mrsequential.go get one more than the number of
    pairs; [checkType] one more than the number of types; the clerks' loops are
    endless in the code and are shown to end once the services answer.

    ** Not modelled

    Real time (deadlines are nondeterministic or a number of turns), in
    visualization.go the style sheet, the labels of the clients, the tooltip's place and
    the writing of the file, sockets, plugins, logging, the arguments and plugins of the
    commands under main/, [rpcCount] of raft/config.go on the testers' configuration, and the
    empty handlers of the stub servers.  Raft never stores anything in its
    persister, so a restart in RaftNet.v starts from nothing, while the testers'
    model lets an instance write whatever it likes. *)

From stdpp Require Export prelude list gmap strings sorting.
From Stdlib Require Export ZArith Lia.

#[local] Open Scope Z_scope.
#[export] Set Default Goal Selector "!".

(** * Go slices and ints *)

(** A Go [int] is a [Z]; a Go slice is a [list]; [None] is a Go run-time
    panic (index out of range, nil dereference, failed type assertion). *)

Declare Scope go_scope.
Delimit Scope go_scope with go.

(** [len(l)] as an [int]. *)
Definition zlen {A} (l : list A) : Z := Z.of_nat (length l).

(** [l[i]]: panics out of range. *)
Definition zlookup {A} (l : list A) (i : Z) : option A :=
  if i <? 0 then None else l !! Z.to_nat i.

(** [l[i] = x]: panics out of range. *)
Definition zupdate {A} (l : list A) (i : Z) (x : A) : option (list A) :=
  if (0 <=? i) && (i <? zlen l) then Some (<[Z.to_nat i := x]> l) else None.

(** [l[:i]] within [len(l)]. *)
Definition slice_to {A} (l : list A) (i : Z) : option (list A) :=
  if (0 <=? i) && (i <=? zlen l) then Some (take (Z.to_nat i) l) else None.

(** [l[i:]]. *)
Definition slice_from {A} (l : list A) (i : Z) : option (list A) :=
  if (0 <=? i) && (i <=? zlen l) then Some (drop (Z.to_nat i) l) else None.

Notation "l .[ i ]" := (zlookup l i) (at level 1, left associativity, format "l .[ i ]") : go_scope.
Notation "l .[ i <- x ]" := (zupdate l i x)
  (at level 1, left associativity, format "l .[ i  <-  x ]") : go_scope.
Notation "l .[: i ]" := (slice_to l i) (at level 1, left associativity, format "l .[: i ]") : go_scope.
Notation "l .[ i :]" := (slice_from l i) (at level 1, left associativity, format "l .[ i :]") : go_scope.

(** Result of a loop run with bounded fuel: a value, a Go panic, or not enough
    fuel.  Every use comes with a theorem that some fuel avoids [OutOfFuel]. *)
Inductive outcome (A : Type) : Type :=
| Ret (a : A)
| Panic
| OutOfFuel.
Arguments Ret {A} _.
Arguments Panic {A}.
Arguments OutOfFuel {A}.

Create HintDb go discriminated.
Create Rewrite HintDb go.

(** * Tactics *)

(** Turn boolean integer comparisons in hypotheses and goal into propositions. *)
Ltac zbool :=
  repeat match goal with
  | H : (_ <? _) = true |- _ => apply Z.ltb_lt in H
  | H : (_ <? _) = false |- _ => apply Z.ltb_ge in H
  | H : (_ <=? _) = true |- _ => apply Z.leb_le in H
  | H : (_ <=? _) = false |- _ => apply Z.leb_gt in H
  | H : (_ =? _) = true |- _ => apply Z.eqb_eq in H
  | H : (_ =? _) = false |- _ => apply Z.eqb_neq in H
  | H : (_ >? _) = _ |- _ => rewrite Z.gtb_ltb in H
  | H : (_ >=? _) = _ |- _ => rewrite Z.geb_leb in H
  | H : negb _ = true |- _ => apply negb_true_iff in H
  | H : negb _ = false |- _ => apply negb_false_iff in H
  | H : (_ && _) = true |- _ => apply andb_true_iff in H as [? ?]
  | H : (_ || _) = false |- _ => apply orb_false_iff in H as [? ?]
  | H : (_ && _) = false |- _ => apply andb_false_iff in H
  | H : (_ || _) = true |- _ => apply orb_true_iff in H
  end.

(** Split on the innermost [if]/[match] of the goal, keeping the equation. *)
Ltac case_go :=
  match goal with
  | |- context [match ?x with _ => _ end] =>
      lazymatch x with
      | context [match _ with _ => _ end] => fail
      | _ => let E := fresh "E" in destruct x eqn:E
      end
  end.

(** The same in a hypothesis. *)
Ltac case_go_in H :=
  match type of H with
  | context [match ?x with _ => _ end] =>
      lazymatch x with
      | context [match _ with _ => _ end] => fail
      | _ => let E := fresh "E" in destruct x eqn:E
      end
  end.

(** Invert monadic hypotheses [m ≫= f = Some x]. *)
Ltac bind_inv :=
  repeat match goal with
  | H : _ ≫= _ = Some _ |- _ => apply bind_Some in H as (? & ? & ?)
  | H : Some _ = Some _ |- _ => injection H as H; subst
  | H : mret _ = Some _ |- _ => injection H as H; subst
  | H : guard _ ≫= _ = Some _ |- _ => apply bind_Some in H as (? & ? & ?)
  end.

(** * Lemmas on slices *)

Section slices.
Context {A : Type}.
Implicit Types (l k : list A) (x : A) (i : Z) (n : nat).

Lemma zlen_nonneg l : 0 <= zlen l.
Proof. unfold zlen. lia. Qed.

Lemma zlen_app l k : zlen (l ++ k) = zlen l + zlen k.
Proof. unfold zlen. rewrite length_app. lia. Qed.

Lemma zlen_cons x l : zlen (x :: l) = zlen l + 1.
Proof. unfold zlen. simpl. lia. Qed.

Lemma zlen_0 l : zlen l = 0 ↔ l = [].
Proof. unfold zlen. destruct l; simpl; split; intros H; (done || lia). Qed.

Lemma zlen_pos l : l ≠ [] → 0 < zlen l.
Proof. pose proof (zlen_nonneg l). pose proof (zlen_0 l). intros ?. assert (zlen l ≠ 0) by tauto. lia. Qed.

Lemma zlookup_nat l n : zlookup l (Z.of_nat n) = l !! n.
Proof. unfold zlookup. destruct (Z.ltb_spec (Z.of_nat n) 0); [lia|]. by rewrite Nat2Z.id. Qed.

Lemma zlookup_pos l i : 0 <= i → zlookup l i = l !! Z.to_nat i.
Proof. intros. unfold zlookup. destruct (Z.ltb_spec i 0); [lia|done]. Qed.

Lemma zlookup_lt_Some l i x : zlookup l i = Some x → 0 <= i < zlen l.
Proof.
  unfold zlookup, zlen. destruct (Z.ltb_spec i 0) as [Hi|Hi]; [done|].
  intros H%lookup_lt_Some. lia.
Qed.

Lemma zlookup_is_Some l i : is_Some (zlookup l i) ↔ 0 <= i < zlen l.
Proof.
  split; [intros [x Hx]; by eapply zlookup_lt_Some|]. intros H.
  rewrite zlookup_pos by lia. apply lookup_lt_is_Some. unfold zlen in H. lia.
Qed.

Lemma zlookup_None l i : zlookup l i = None ↔ i < 0 ∨ zlen l <= i.
Proof.
  rewrite eq_None_not_Some, zlookup_is_Some. lia.
Qed.

Lemma zlookup_app_l l k i : i < zlen l → zlookup (l ++ k) i = zlookup l i.
Proof.
  intros. unfold zlookup, zlen in *. destruct (Z.ltb_spec i 0); [done|].
  apply lookup_app_l. lia.
Qed.

Lemma zlookup_app_r l k i : zlen l <= i → zlookup (l ++ k) i = zlookup k (i - zlen l).
Proof.
  intros. pose proof (zlen_nonneg l). rewrite !zlookup_pos by lia. unfold zlen in *.
  rewrite lookup_app_r by lia. f_equal. lia.
Qed.

Lemma zupdate_Some l k i x :
  zupdate l i x = Some k ↔ 0 <= i < zlen l ∧ k = <[Z.to_nat i := x]> l.
Proof.
  unfold zupdate. destruct (Z.leb_spec 0 i), (Z.ltb_spec i (zlen l)); simpl;
    (split; [intros [= <-] || intros [=]; (done || lia) | intros [? ->]; (done || lia)]).
Qed.

Lemma zupdate_total l i x : 0 <= i < zlen l → ∃ k, zupdate l i x = Some k.
Proof. intros Hi. eexists. by apply zupdate_Some. Qed.

Lemma zlen_zupdate l k i x : zupdate l i x = Some k → zlen k = zlen l.
Proof. intros [_ ->]%zupdate_Some. unfold zlen. by rewrite length_insert. Qed.

Lemma zlookup_zupdate l k i j x :
  zupdate l i x = Some k →
  zlookup k j = if decide (i = j) then Some x else zlookup l j.
Proof.
  intros [Hi ->]%zupdate_Some. unfold zlen in Hi. case_decide as E.
  - subst j. rewrite zlookup_pos by lia. apply list_lookup_insert_eq. lia.
  - unfold zlookup. destruct (Z.ltb_spec j 0); [done|].
    apply list_lookup_insert_ne. lia.
Qed.

Lemma slice_to_Some l k i :
  slice_to l i = Some k ↔ 0 <= i <= zlen l ∧ k = take (Z.to_nat i) l.
Proof.
  unfold slice_to. destruct (Z.leb_spec 0 i), (Z.leb_spec i (zlen l)); simpl;
    (split; [intros [= <-] || intros [=]; (done || lia) | intros [? ->]; (done || lia)]).
Qed.

Lemma slice_from_Some l k i :
  slice_from l i = Some k ↔ 0 <= i <= zlen l ∧ k = drop (Z.to_nat i) l.
Proof.
  unfold slice_from. destruct (Z.leb_spec 0 i), (Z.leb_spec i (zlen l)); simpl;
    (split; [intros [= <-] || intros [=]; (done || lia) | intros [? ->]; (done || lia)]).
Qed.

End slices.

(** * Lemmas on lists *)

Section lists.
Context {A : Type}.
Implicit Types (l k : list A) (x : A).

Lemma list_filter_ext_elem (P Q : A → Prop) `{∀ x, Decision (P x), ∀ x, Decision (Q x)} l :
  (∀ x, x ∈ l → P x ↔ Q x) → filter P l = filter Q l.
Proof.
  induction l as [|x l IH]; intros HPQ; [done|].
  assert (P x ↔ Q x) as Hx by (apply HPQ; left).
  rewrite !filter_cons, IH by (intros; apply HPQ; by right).
  repeat case_decide; tauto.
Qed.

Lemma list_filter_fmap {B} (f : B → A) (P : A → Prop) `{∀ x, Decision (P x)} (l : list B) :
  filter P (f <$> l) = f <$> filter (λ y, P (f y)) l.
Proof.
  induction l as [|y l IH]; [done|]. rewrite fmap_cons, !filter_cons, IH.
  by repeat case_decide.
Qed.

Lemma list_filter_all (P : A → Prop) `{∀ x, Decision (P x)} l :
  (∀ x, x ∈ l → P x) → filter P l = l.
Proof.
  induction l as [|x l IH]; intros HP; [done|].
  rewrite filter_cons_True, IH; [done|intros; apply HP; by right|apply HP; left].
Qed.

Lemma list_filter_none (P : A → Prop) `{∀ x, Decision (P x)} l :
  (∀ x, x ∈ l → ¬ P x) → filter P l = [].
Proof.
  induction l as [|x l IH]; intros HP; [done|].
  rewrite filter_cons_False, IH; [done|intros; apply HP; by right|apply HP; left].
Qed.

(** Sortedness as a property of pairs of positions. *)
Lemma StronglySorted_split (R : A → A → Prop) l :
  StronglySorted R l ↔ ∀ k1 a k2 b k3, l = k1 ++ a :: k2 ++ b :: k3 → R a b.
Proof.
  split.
  - intros Hs k1 a k2 b k3 ->. apply StronglySorted_app in Hs as (_ & _ & Hs).
    apply StronglySorted_inv in Hs as [_ Hall]. rewrite Forall_forall in Hall.
    apply Hall, elem_of_app. right. left.
  - induction l as [|x l IH]; intros Hsp; constructor.
    + apply IH. intros k1 a k2 b k3 ->. by apply (Hsp (x :: k1) a k2 b k3).
    + apply Forall_forall. intros y (k2 & k3 & ->)%list_elem_of_split. by apply (Hsp [] x k2 y k3).
Qed.

Lemma StronglySorted_Forall2 {B} (P : A → B → Prop) (R : A → A → Prop) (S : B → B → Prop) l (q : list B) :
  (∀ x y x' y', P x y → P x' y' → R x x' ↔ S y y') →
  Forall2 P l q → StronglySorted R l ↔ StronglySorted S q.
Proof.
  intros HRS. induction 1 as [|x y l q Hxy Hlk IH]; [by split; constructor|].
  assert (Forall (R x) l ↔ Forall (S y) q) as Hall.
  { clear IH. induction Hlk as [|x' y' l q Hxy' Hlk IH]; [by split|].
    rewrite !Forall_cons, IH, (HRS x y x' y') by done. done. }
  split; intros [Hs Hf]%StronglySorted_inv; constructor; tauto.
Qed.

Lemma StronglySorted_filter (R : A → A → Prop) (P : A → Prop) `{∀ x, Decision (P x)} l :
  StronglySorted R l → StronglySorted R (filter P l).
Proof.
  induction 1 as [|x l Hl IH Hx]; [constructor|]. rewrite filter_cons. case_decide; [|done].
  constructor; [done|]. apply Forall_forall. intros y [_ Hy]%list_elem_of_filter.
  rewrite Forall_forall in Hx. auto.
Qed.

Lemma sublist_elem l k x : l `sublist_of` k → x ∈ l → x ∈ k.
Proof. intros ? ?. eapply elem_of_submseteq; [done|by apply sublist_submseteq]. Qed.

Lemma sublist_filter_mono (P : A → Prop) `{∀ x, Decision (P x)} l k :
  l `sublist_of` k → filter P l `sublist_of` filter P k.
Proof.
  induction 1 as [|x l k _ IH|x l k _ IH]; [constructor|..]; rewrite ?filter_cons;
    repeat case_decide; by try constructor.
Qed.

(** A choice for each element of a list. *)
Lemma list_choice `{EqDecision A} {B} `{Inhabited B} (P : A → B → Prop) l :
  (∀ x, x ∈ l → ∃ y, P x y) → ∃ f, ∀ x, x ∈ l → P x (f x).
Proof.
  induction l as [|x l IH]; intros Hex.
  - exists (λ _, inhabitant). by intros x ?%elem_of_nil.
  - destruct (Hex x) as [y Hy]; [left|]. destruct IH as [f Hf]; [intros; apply Hex; by right|].
    exists (λ z, if decide (z = x) then y else f z). intros z Hz. case_decide; subst; [done|].
    apply Hf. by apply elem_of_cons in Hz as [].
Qed.
End lists.

#[export] Hint Rewrite @zlen_app @zlen_cons @zlookup_nat : go.
#[export] Hint Resolve zlen_nonneg : go.
