(* ===== verification/GoStd.v ===== *)
(** The parts of the Go standard library that several components use:
    [sort.Sort] by its contract, [strconv.Itoa], and the characters of strings. *)

From Stdlib Require Import Ascii.
From stdpp Require Import pretty.
From S2P Require Import Prelude.

#[local] Open Scope Z_scope.

(** * [sort]

    [sort.Sort] is not stable, so which of the sorted permutations it returns is
    left open: a [GoSort] is any function with the documented contract.  The
    components are proved for every [GoSort]; [merge_GoSort] is one. *)

Definition weak_order {A} (less : A → A → bool) : Prop :=
  (∀ x, less x x = false) ∧
  (∀ x y z, less x y = true → less y z = true → less x z = true) ∧
  (∀ x y z, less x y = true → less x z = true ∨ less z y = true).

Definition not_greater {A} (less : A → A → bool) (x y : A) : Prop := less y x = false.

#[export] Instance not_greater_dec {A} (less : A → A → bool) : RelDecision (not_greater less).
Proof. intros x y. unfold not_greater. apply _. Defined.

Class GoSort := {
  go_sort : ∀ {A : Type}, (A → A → bool) → list A → list A;
  go_sort_perm : ∀ {A} (less : A → A → bool) l, go_sort less l ≡ₚ l;
  go_sort_sorted : ∀ {A} (less : A → A → bool) l,
    weak_order less → StronglySorted (not_greater less) (go_sort less l);
}.

Definition merge_go_sort {A} (less : A → A → bool) (l : list A) : list A :=
  merge_sort (not_greater less) l.

#[export] Instance merge_GoSort : GoSort.
Proof.
  refine {| go_sort := @merge_go_sort |}; intros A less l.
  - apply merge_sort_Permutation.
  - intros (Hirr & Htr & Hco). apply StronglySorted_merge_sort.
    + unfold not_greater. intros x y z Hxy Hyz. destruct (less z x) eqn:E; [|done].
      destruct (Hco _ _ y E); congruence.
    + unfold not_greater. intros x y. destruct (less y x) eqn:E; [|by left]. right.
      destruct (less x y) eqn:E2; [|done]. pose proof (Htr _ _ _ E E2). by rewrite Hirr in *.
Defined.

(** * [range] over a map

    The iteration order of a Go map is unspecified; [map_order] turns the keys
    into the order of one iteration. *)

Class GoMapOrder := {
  map_order : ∀ {A : Type}, list A → list A;
  map_order_perm : ∀ {A} (l : list A), map_order l ≡ₚ l;
}.

#[export] Instance id_GoMapOrder : GoMapOrder := {| map_order := λ A l, l; map_order_perm := λ A l, reflexivity l |}.

(** A weak order pulled back along a key function. *)
Lemma weak_order_on {A B} (f : A → B) (less : B → B → bool) :
  weak_order less → weak_order (λ x y, less (f x) (f y)).
Proof. intros (H1 & H2 & H3). split_and!; eauto. Qed.

Lemma weak_order_Zlt : weak_order Z.ltb.
Proof.
  split_and!; intros *; [apply Z.ltb_irrefl|..]; rewrite !Z.ltb_lt; lia.
Qed.

Lemma weak_order_String_ltb : weak_order String.ltb.
Proof.
  assert (∀ x y, String.ltb x y = true ↔ String.compare x y = Lt) as Hlt.
  { intros x y. unfold String.ltb. destruct (String.compare x y); naive_solver. }
  assert (∀ x y z, String.compare x y = Lt → String.compare y z = Lt → String.compare x z = Lt)
    as Htr.
  { induction x as [|a x IH]; intros [|b y] [|c z]; simpl; try done.
    intros H1 H2. destruct (Ascii.compare a b) eqn:E1; [|clear H1|done].
    - apply Ascii.compare_eq_iff in E1 as ->. destruct (Ascii.compare b c); [eauto|done..].
    - destruct (Ascii.compare b c) eqn:E2; [|clear H2|done].
      + apply Ascii.compare_eq_iff in E2 as ->. by rewrite E1.
      + unfold Ascii.compare in *. rewrite N.compare_lt_iff in *.
        assert ((Ascii.N_of_ascii a ?= Ascii.N_of_ascii c)%N = Lt) as ->; [|done].
        apply N.compare_lt_iff. lia. }
  split_and!.
  - intros x. unfold String.ltb. assert (String.compare x x = Eq) as ->; [|done].
    pose proof (String.compare_antisym x x) as H. by destruct (String.compare x x).
  - intros x y z. rewrite !Hlt. apply Htr.
  - intros x y z. rewrite !Hlt. intros H.
    destruct (String.compare x z) eqn:E; [|by left|].
    + apply String.compare_eq_iff in E as ->. by right.
    + right. apply Htr with x; [|done]. by rewrite String.compare_antisym, E.
Qed.

(** * Strings *)

#[local] Arguments String.append : simpl nomatch.

Abbreviation chars := String.list_ascii_of_string.

Definition in_range (lo hi : N) (a : ascii) : bool := (lo <=? N_of_ascii a)%N && (N_of_ascii a <=? hi)%N.

Lemma chars_app a b : chars (a +:+ b) = chars a ++ chars b.
Proof. induction a as [|x a IH]; simpl; [done|by rewrite IH]. Qed.

Lemma chars_inj a b : chars a = chars b → a = b.
Proof.
  intros Hab. by rewrite <-(String.string_of_list_ascii_of_string a), Hab, String.string_of_list_ascii_of_string.
Qed.

(** [strconv.Itoa] *)
Definition Itoa (z : Z) : string := pretty z.

Definition digit (a : ascii) : Prop := in_range 48 57 a = true.

Lemma pretty_N_go_digits x s :
  Forall digit (chars s) → Forall digit (chars (pretty_N_go x s)).
Proof.
  revert s. induction (N.lt_wf_0 x) as [x _ IH]; intros s Hs.
  assert (x = 0 ∨ 0 < x)%N as [->|?] by lia; [by rewrite pretty_N_go_0|].
  rewrite pretty_N_go_step by done. apply IH; [by apply N.div_lt|]. constructor; [|done].
  unfold digit, pretty_N_char. by repeat case_match.
Qed.

Lemma pretty_digits (z : Z) : 0 <= z → Forall digit (chars (pretty z)).
Proof.
  intros Hz. destruct z as [|p|p]; [|by apply pretty_N_go_digits; constructor|lia].
  by repeat constructor.
Qed.

Lemma app_last_inj {A} (a : A) X Y l1 l2 :
  X ++ a :: l1 = Y ++ a :: l2 → a ∉ l1 → a ∉ l2 → X = Y ∧ l1 = l2.
Proof.
  revert Y. induction X as [|x X IH]; intros [|y Y] He H1 H2; simplify_eq/=; try done.
  - set_solver.
  - set_solver.
  - destruct (IH Y) as [-> ->]; done.
Qed.

Lemma dash_not_digit l : Forall digit l → "-"%char ∉ l.
Proof. rewrite Forall_forall. intros Hl Hin. by specialize (Hl _ Hin). Qed.

Lemma slash_not_digit l : Forall digit l → "/"%char ∉ l.
Proof. rewrite Forall_forall. intros Hl Hin. by specialize (Hl _ Hin). Qed.
