(* ===== verification/Bitset.v ===== *)
(** Model of porcupine/bitset.go: a set of small unsigned integers stored in a
    slice of [uint64] words, and its refinement of finite sets of integers. *)

From S2P Require Import Prelude.

#[local] Open Scope Z_scope.
#[local] Open Scope go_scope.

Module Bitset.

(** [type bitset []uint64].  The code mutates a bitset in place only through
    the variable that owns it ([clone] is called before a bitset is shared), so
    the operations are modelled as functions from the old slice to the new. *)
Abbreviation bitset := (list Z).

(** [func newBitset(bits uint) bitset] *)
Definition newBitset (bits : Z) : bitset :=
  let extra := if bits mod 64 =? 0 then 0 else 1 in
  let chunks := bits / 64 + extra in
  replicate (Z.to_nat chunks) 0.

(** [func (b bitset) clone() bitset]: [make] then [copy]. *)
Definition clone (b : bitset) : bitset :=
  let dataCopy := replicate (length b) 0 in
  take (length dataCopy) b ++ drop (length b) dataCopy.

Definition bitsetIndex (pos : Z) : Z * Z := (pos / 64, pos mod 64).

(** [b[major] |= (1 << minor)] *)
Definition set (b : bitset) (pos : Z) : option bitset :=
  let '(major, minor) := bitsetIndex pos in
  w ← b.[major];
  b.[major <- Z.lor w (Z.shiftl 1 minor)].

(** [b[major] &^= (1 << minor)] *)
Definition clear (b : bitset) (pos : Z) : option bitset :=
  let '(major, minor) := bitsetIndex pos in
  w ← b.[major];
  b.[major <- Z.ldiff w (Z.shiftl 1 minor)].

(** [return b[major]&(1<<minor) != 0] *)
Definition get (b : bitset) (pos : Z) : option bool :=
  let '(major, minor) := bitsetIndex pos in
  w ← b.[major];
  Some (negb (Z.land w (Z.shiftl 1 minor) =? 0)).

(** [bits.OnesCount64] of the Go standard library. *)
Definition OnesCount64 (w : Z) : Z :=
  zlen (filter (λ i, Z.testbit w i = true) (seqZ 0 64)).

Definition popcnt (b : bitset) : Z :=
  foldl (λ total v, total + OnesCount64 v) 0 b.

(** [uint64(b.popcnt())] xored with every word. *)
Definition hash (b : bitset) : Z :=
  foldl (λ h v, Z.lxor h v) (popcnt b mod 2 ^ 64) b.

Fixpoint equals_from (b b2 : bitset) : bool :=
  match b, b2 with
  | x :: b, y :: b2 => if x =? y then equals_from b b2 else false
  | _, _ => true
  end.

(** Length test, then the loop over the words. *)
Definition equals (b b2 : bitset) : bool :=
  if negb (zlen b =? zlen b2) then false else equals_from b b2.

(** ** Machine words *)

Definition word64 (w : Z) : Prop := 0 <= w < 2 ^ 64.

Lemma word64_testbit w i : word64 w → 64 <= i → Z.testbit w i = false.
Proof.
  intros [? Hw] ?. destruct (decide (w = 0)) as [->|]; [apply Z.testbit_0_l|].
  apply Z.bits_above_log2; [done|]. apply Z.lt_le_trans with 64; [|done].
  apply Z.log2_lt_pow2; lia.
Qed.

Lemma word64_of_bits w :
  0 <= w → (∀ i, 64 <= i → Z.testbit w i = false) → word64 w.
Proof.
  intros ? H. split; [done|]. destruct (decide (w = 0)) as [->|]; [done|].
  apply Z.log2_lt_pow2; [lia|]. apply Z.nle_gt. intros Hle.
  specialize (H _ Hle). rewrite Z.bit_log2 in H by lia. done.
Qed.

Lemma testbit_one m i : 0 <= m → 0 <= i → Z.testbit (Z.shiftl 1 m) i = bool_decide (i = m).
Proof.
  intros. rewrite Z.shiftl_1_l, Z.pow2_bits_eqb by done.
  case_bool_decide; [apply Z.eqb_eq|apply Z.eqb_neq]; lia.
Qed.

Lemma word64_lor w m : word64 w → 0 <= m < 64 → word64 (Z.lor w (Z.shiftl 1 m)).
Proof.
  intros Hw ?. apply word64_of_bits.
  - apply Z.lor_nonneg. split; [apply Hw|]. apply Z.shiftl_nonneg. lia.
  - intros i ?. rewrite Z.lor_spec, testbit_one, word64_testbit by (done || lia).
    case_bool_decide; [lia|done].
Qed.

Lemma word64_ldiff w m : word64 w → 0 <= m < 64 → word64 (Z.ldiff w (Z.shiftl 1 m)).
Proof.
  intros Hw ?. apply word64_of_bits.
  - apply Z.ldiff_nonneg. left. apply Hw.
  - intros i ?. by rewrite Z.ldiff_spec, word64_testbit by done.
Qed.

Lemma land_bit w m : 0 <= m → negb (Z.land w (Z.shiftl 1 m) =? 0) = Z.testbit w m.
Proof.
  intros Hm. destruct (Z.testbit w m) eqn:E.
  - apply negb_true_iff, Z.eqb_neq. intros H0.
    assert (Z.testbit (Z.land w (Z.shiftl 1 m)) m = true) as Ht.
    { rewrite Z.land_spec, E, testbit_one by done. by rewrite bool_decide_true. }
    rewrite H0, Z.testbit_0_l in Ht. done.
  - apply negb_false_iff, Z.eqb_eq. apply Z.bits_inj'. intros i Hi.
    rewrite Z.land_spec, testbit_one, Z.testbit_0_l by done.
    case_bool_decide; [subst; by rewrite E|by rewrite andb_false_r].
Qed.

(** ** Well-formed bitsets and the set they denote *)

Definition wf (b : bitset) : Prop := Forall word64 b.

(** Membership read off the words, with no panic. *)
Definition mem (b : bitset) (i : Z) : Prop := get b i = Some true.

#[export] Instance mem_dec b i : Decision (mem b i).
Proof. unfold mem. apply _. Defined.

(** The capacity in bits. *)
Definition cap (b : bitset) : Z := 64 * zlen b.

(** The set a bitset stands for. *)
Definition denote (b : bitset) : gset Z := list_to_set (filter (mem b) (seqZ 0 (cap b))).

Lemma cap_index b i : 0 <= i < cap b ↔ 0 <= i / 64 < zlen b ∧ 0 <= i mod 64 < 64.
Proof. unfold cap. pose proof (Z.mod_pos_bound i 64). Z.to_euclidean_division_equations. lia. Qed.

Lemma get_testbit b i w : b.[i / 64] = Some w → get b i = Some (Z.testbit w (i mod 64)).
Proof.
  intros H. unfold get, bitsetIndex. rewrite H. simpl. f_equal. apply land_bit.
  apply Z.mod_pos_bound. lia.
Qed.

Lemma get_is_Some b i : 0 <= i < cap b ↔ is_Some (get b i).
Proof.
  rewrite cap_index, <- zlookup_is_Some. split.
  - intros [[w Hw] _]. erewrite get_testbit by done. eauto.
  - intros [v Hv]. split; [|apply Z.mod_pos_bound; lia].
    unfold get, bitsetIndex in Hv. apply bind_Some in Hv as (w & Hw & _). eauto.
Qed.

Lemma elem_of_denote b i : i ∈ denote b ↔ mem b i.
Proof.
  unfold denote. rewrite elem_of_list_to_set, list_elem_of_filter, elem_of_seqZ.
  split; [by intros []|]. intros Hm. split; [done|].
  enough (0 <= i < cap b) by lia. apply get_is_Some. by rewrite Hm.
Qed.

Lemma get_decide b i : 0 <= i < cap b → get b i = Some (bool_decide (i ∈ denote b)).
Proof.
  intros [v Hv]%get_is_Some. rewrite Hv. f_equal. destruct v; symmetry.
  - apply bool_decide_eq_true, elem_of_denote, Hv.
  - apply bool_decide_eq_false. rewrite elem_of_denote. unfold mem. congruence.
Qed.

(** An in-place update of one word by [f]. *)
Lemma word_update b pos f :
  0 <= pos < cap b →
  ∃ w b', b.[pos / 64] = Some w ∧ b.[pos / 64 <- f w] = Some b' ∧ cap b' = cap b ∧
    ∀ i, get b' i = if decide (i / 64 = pos / 64)
                    then Some (Z.testbit (f w) (i mod 64)) else get b i.
Proof.
  intros [Hp ?]%cap_index. destruct (proj2 (zlookup_is_Some b (pos / 64)) Hp) as [w Hw].
  exists w, (<[Z.to_nat (pos / 64) := f w]> b).
  assert (b.[pos / 64 <- f w] = Some (<[Z.to_nat (pos / 64) := f w]> b)) as Hb
    by (by apply zupdate_Some).
  split_and!; [done..| |].
  - unfold cap. by rewrite (zlen_zupdate _ _ _ _ Hb).
  - intros i. pose proof (zlookup_zupdate _ _ _ (i / 64) _ Hb) as Hl.
    case_decide as E1; case_decide as E2; try congruence.
    + by apply get_testbit.
    + unfold get, bitsetIndex. by rewrite Hl.
Qed.

Lemma div_mod_inj i j : i / 64 = j / 64 → i mod 64 = j mod 64 → i = j.
Proof. intros. rewrite (Z.div_mod i 64), (Z.div_mod j 64) by done. congruence. Qed.

Lemma set_spec b pos :
  wf b → 0 <= pos < cap b →
  ∃ b', set b pos = Some b' ∧ wf b' ∧ cap b' = cap b ∧ denote b' = {[pos]} ∪ denote b.
Proof.
  intros Hwf Hp. destruct (word_update b pos (λ w, Z.lor w (Z.shiftl 1 (pos mod 64))) Hp)
    as (w & b' & Hw & Hb' & Hcap & Hget).
  assert (0 <= pos mod 64 < 64) as Hm by (apply Z.mod_pos_bound; lia).
  exists b'. split_and!; [|..|done|].
  - unfold set, bitsetIndex. by rewrite Hw.
  - apply zupdate_Some in Hb' as [_ ->]. apply Forall_insert; [done|].
    apply word64_lor; [|done]. rewrite zlookup_pos in Hw by (apply Z.div_pos; lia).
    by eapply Forall_lookup_1 in Hw.
  - apply set_eq. intros i. rewrite elem_of_union, elem_of_singleton, !elem_of_denote.
    unfold mem. rewrite Hget. case_decide as E.
    + assert (0 <= i mod 64 < 64) by (apply Z.mod_pos_bound; lia).
      rewrite Z.lor_spec, testbit_one by lia. rewrite <- E in Hw.
      erewrite (get_testbit b) by done. case_bool_decide as E2.
      * rewrite orb_true_r. split; [|done]. left. by apply div_mod_inj.
      * rewrite orb_false_r. split; [by right|]. intros [->|?]; [congruence|done].
    + split; [by right|]. intros [->|?]; [congruence|done].
Qed.

Lemma clear_spec b pos :
  wf b → 0 <= pos < cap b →
  ∃ b', clear b pos = Some b' ∧ wf b' ∧ cap b' = cap b ∧ denote b' = denote b ∖ {[pos]}.
Proof.
  intros Hwf Hp. destruct (word_update b pos (λ w, Z.ldiff w (Z.shiftl 1 (pos mod 64))) Hp)
    as (w & b' & Hw & Hb' & Hcap & Hget).
  assert (0 <= pos mod 64 < 64) as Hm by (apply Z.mod_pos_bound; lia).
  exists b'. split_and!; [|..|done|].
  - unfold clear, bitsetIndex. by rewrite Hw.
  - apply zupdate_Some in Hb' as [_ ->]. apply Forall_insert; [done|].
    apply word64_ldiff; [|done]. rewrite zlookup_pos in Hw by (apply Z.div_pos; lia).
    by eapply Forall_lookup_1 in Hw.
  - apply set_eq. intros i. rewrite elem_of_difference, elem_of_singleton, !elem_of_denote.
    unfold mem. rewrite Hget. case_decide as E.
    + assert (0 <= i mod 64 < 64) by (apply Z.mod_pos_bound; lia).
      rewrite Z.ldiff_spec, testbit_one by lia. rewrite <- E in Hw.
      erewrite (get_testbit b) by done. case_bool_decide as E2; simpl.
      * rewrite andb_false_r. split; [done|]. intros [_ []]. by apply div_mod_inj.
      * rewrite andb_true_r. split; [|by intros []]. intros ?. split; [done|]. congruence.
    + split; [|by intros []]. intros ?. split; [done|]. congruence.
Qed.

Lemma clone_id b : clone b = b.
Proof.
  unfold clone. rewrite length_replicate, take_ge by done.
  by rewrite drop_ge, app_nil_r by (by rewrite length_replicate).
Qed.

Lemma newBitset_spec n :
  0 <= n →
  wf (newBitset n) ∧ n <= cap (newBitset n) < n + 64 ∧ denote (newBitset n) = ∅.
Proof.
  intros Hn. unfold newBitset. set (c := n / 64 + _).
  assert (0 <= c ∧ n <= 64 * c < n + 64) as [Hc Hr].
  { subst c. destruct (Z.eqb_spec (n mod 64) 0); Z.to_euclidean_division_equations; lia. }
  split_and!.
  - by apply Forall_replicate.
  - unfold cap, zlen. rewrite length_replicate. lia.
  - unfold cap, zlen. rewrite length_replicate. lia.
  - apply set_eq. intros i. rewrite elem_of_denote. split; [|by intros ?%not_elem_of_empty].
    unfold mem, get, bitsetIndex. intros (w & Hw & Hg)%bind_Some.
    rewrite zlookup_pos in Hw by (by apply zlookup_lt_Some in Hw as []).
    apply lookup_replicate in Hw as [-> _]. by rewrite Z.land_0_l in Hg.
Qed.

Lemma equals_from_spec b b2 : length b = length b2 → equals_from b b2 = true ↔ b = b2.
Proof.
  revert b2. induction b as [|x b IH]; intros [|y b2] [=]; simpl; [done|].
  destruct (Z.eqb_spec x y) as [->|]; [rewrite IH by done|]; [|split; [done|congruence]].
  split; [by intros ->|congruence].
Qed.

Lemma equals_spec b b2 : equals b b2 = true ↔ b = b2.
Proof.
  unfold equals, zlen. destruct (Z.eqb_spec (Z.of_nat (length b)) (Z.of_nat (length b2))); simpl.
  - apply equals_from_spec. lia.
  - split; [done|]. by intros ->.
Qed.

Lemma denote_inj b b2 :
  wf b → wf b2 → cap b = cap b2 → denote b = denote b2 → b = b2.
Proof.
  intros Hb Hb2 Hcap Hd. assert (length b = length b2) as Hl by (unfold cap, zlen in Hcap; lia).
  apply list_eq_same_length with (length b2); [done..|]. intros k x y Hk Hx Hy.
  eapply Forall_lookup_1 in Hb, Hb2; [|done..]. apply Z.bits_inj'. intros m Hm.
  destruct (decide (64 <= m)); [by rewrite !word64_testbit|].
  assert ((64 * Z.of_nat k + m) / 64 = Z.of_nat k) as Hdiv
    by (Z.to_euclidean_division_equations; lia).
  assert ((64 * Z.of_nat k + m) mod 64 = m) as Hmod
    by (Z.to_euclidean_division_equations; lia).
  assert (get b (64 * Z.of_nat k + m) = get b2 (64 * Z.of_nat k + m)) as Hg.
  { rewrite !get_decide, Hd; [done|..]; unfold cap, zlen; lia. }
  rewrite (get_testbit _ _ x), (get_testbit _ _ y) in Hg
    by (by rewrite Hdiv, zlookup_nat).
  rewrite Hmod in Hg. by injection Hg.
Qed.

Lemma equals_denote b b2 :
  wf b → wf b2 → cap b = cap b2 → equals b b2 = true ↔ denote b = denote b2.
Proof. intros. rewrite equals_spec. split; [by intros ->|by apply denote_inj]. Qed.

(** [hash] stays a [uint64]: xor does not leave the word. *)
Lemma word64_lxor x y : word64 x → word64 y → word64 (Z.lxor x y).
Proof.
  intros Hx Hy. apply word64_of_bits.
  - apply Z.lxor_nonneg. unfold word64 in *. lia.
  - intros i ?. by rewrite Z.lxor_spec, !word64_testbit by done.
Qed.

Lemma hash_word64 b : wf b → word64 (hash b).
Proof.
  unfold hash. generalize (popcnt b mod 2 ^ 64), (Z.mod_pos_bound (popcnt b) (2 ^ 64) ltac:(lia)).
  induction b as [|w b IH]; simpl; intros h Hh Hwf; [done|].
  apply Forall_cons in Hwf as [Hw Hwf]. apply IH; [|done]. by apply word64_lxor.
Qed.

(** ** Population count *)

Lemma popcnt_cons w b : popcnt (w :: b) = OnesCount64 w + popcnt b.
Proof.
  assert (∀ t, foldl (λ total v, total + OnesCount64 v) t b = t + popcnt b) as Hf.
  { unfold popcnt. induction b as [|v b IH]; intros t; simpl; [lia|].
    rewrite IH, (IH (0 + OnesCount64 v)). lia. }
  unfold popcnt at 1. simpl. rewrite Hf. lia.
Qed.

(** The members of [w :: b]: the bits of [w], then those of [b] 64 further. *)
Lemma members_cons w b :
  filter (mem (w :: b)) (seqZ 0 (cap (w :: b))) =
  filter (λ i, Z.testbit w i = true) (seqZ 0 64) ++
  (Z.add 64 <$> filter (mem b) (seqZ 0 (cap b))).
Proof.
  assert (0 <= cap b) by (unfold cap; pose proof (zlen_nonneg b); lia).
  assert (cap (w :: b) = 64 + cap b) as -> by (unfold cap; rewrite zlen_cons; lia).
  rewrite seqZ_app, filter_app by lia. f_equal.
  - apply list_filter_ext_elem. intros i Hi%elem_of_seqZ. unfold mem.
    rewrite (get_testbit _ _ w) by (by rewrite Z.div_small by lia).
    rewrite Z.mod_small by lia. split; congruence.
  - rewrite (Z.add_comm 0 64), <- fmap_add_seqZ, (list_filter_fmap _ _). f_equal.
    apply list_filter_ext_elem. intros i Hi%elem_of_seqZ. simpl.
    unfold mem, get, bitsetIndex.
    replace ((64 + i) / 64) with (1 + i / 64) by (Z.to_euclidean_division_equations; lia).
    replace ((64 + i) mod 64) with (i mod 64) by (Z.to_euclidean_division_equations; lia).
    assert (0 <= i / 64) by (apply Z.div_pos; lia).
    rewrite !zlookup_pos by lia.
    replace (Z.to_nat (1 + i / 64)) with (S (Z.to_nat (i / 64))) by lia. done.
Qed.

Lemma popcnt_members b : popcnt b = zlen (filter (mem b) (seqZ 0 (cap b))).
Proof.
  induction b as [|w b IH]; [done|].
  rewrite popcnt_cons, members_cons, zlen_app, IH. unfold OnesCount64, zlen.
  by rewrite length_fmap.
Qed.

Lemma popcnt_size b : popcnt b = Z.of_nat (size (denote b)).
Proof.
  rewrite popcnt_members. unfold denote. rewrite size_list_to_set; [done|].
  apply NoDup_filter, NoDup_seqZ.
Qed.

End Bitset.
