(* ===== verification/PorcupineModel.v ===== *)
(** Model of porcupine/model.go (operations, events, models) and of the entry
    construction of porcupine/checker.go: [makeEntries], [renumber],
    [convertEntries], [fillDefault]. *)

From S2P Require Import Prelude GoStd.

#[local] Open Scope Z_scope.

Module Porcupine.

(** ** Data

    [V] is the dynamic type of the [interface{}] inputs and outputs, [St] of the
    states.  A user function that panics (a failed type assertion) is [None]. *)

Section data.
Context {V St : Type}.

Record Operation := mkOperation {
  op_ClientId : Z;
  op_Input : V;
  op_Call : Z;
  op_Output : V;
  op_Return : Z;
}.

(** [type EventKind bool]; [CallEvent = false], [ReturnEvent = true]. *)
Definition EventKind := bool.
Definition CallEvent : EventKind := false.
Definition ReturnEvent : EventKind := true.

Record Event := mkEvent {
  ev_ClientId : Z;
  ev_Kind : EventKind;
  ev_Value : V;
  ev_Id : Z;
}.

(** A function field may be [nil] ([None]) until [fillDefault] runs. *)
Record Model := mkModel {
  Partition : option (list Operation → option (list (list Operation)));
  PartitionEvent : option (list Event → option (list (list Event)));
  Init : St;
  Step : St → V → V → option (bool * St);
  Equal : option (St → St → bool);
  DescribeOperation : option (V → V → option string);
  DescribeState : option (St → option string);
}.

Definition entryKind := bool.
Definition callEntry : entryKind := false.
Definition returnEntry : entryKind := true.

Record entry := mkEntry {
  kind : entryKind;
  value : V;
  id : Z;
  time : Z;
  clientId : Z;
}.

(** [byTime.Less] *)
Definition byTime_Less (a b : entry) : bool := time a <? time b.

End data.

Arguments Operation : clear implicits.
Arguments Event : clear implicits.
Arguments Model : clear implicits.
Arguments entry : clear implicits.

(** ** Default functions of a model *)

Section defaults.
Context {V St : Type} `{EqDecision St}.
(** [fmt.Sprintf("%v")] on the values and states of the model. *)
Context (sprintV : V → string) (sprintSt : St → string).

Definition NoPartition (history : list (Operation V)) : option (list (list (Operation V))) :=
  Some [history].

Definition NoPartitionEvent (history : list (Event V)) : option (list (list (Event V))) :=
  Some [history].

Definition ShallowEqual (state1 state2 : St) : bool := bool_decide (state1 = state2).

Definition DefaultDescribeOperation (input output : V) : option string :=
  Some (sprintV input +:+ " -> " +:+ sprintV output)%string.

Definition DefaultDescribeState (state : St) : option string := Some (sprintSt state).

(** [if model.F == nil { model.F = Default }] for each field. *)
Definition fillDefault (model : Model V St) : Model V St :=
  {| Partition := Some (default NoPartition (Partition model));
     PartitionEvent := Some (default NoPartitionEvent (PartitionEvent model));
     Init := Init model;
     Step := Step model;
     Equal := Some (default ShallowEqual (Equal model));
     DescribeOperation := Some (default DefaultDescribeOperation (DescribeOperation model));
     DescribeState := Some (default DefaultDescribeState (DescribeState model)) |}.
End defaults.

(** ** From operations and events to entries *)

Section entries.
Context {V : Type} `{GoSort}.

(** The loop of [makeEntries] with its counter [id]. *)
Fixpoint makeEntries_loop (i : Z) (history : list (Operation V)) : list (entry V) :=
  match history with
  | [] => []
  | elem :: rest =>
      mkEntry callEntry (op_Input elem) i (op_Call elem) (op_ClientId elem)
      :: mkEntry returnEntry (op_Output elem) i (op_Return elem) (op_ClientId elem)
      :: makeEntries_loop (i + 1) rest
  end.

Definition makeEntries (history : list (Operation V)) : list (entry V) :=
  go_sort byTime_Less (makeEntries_loop 0 history).

(** The loop of [renumber]: [m] maps the ids seen to their new number. *)
Fixpoint renumber_loop (m : gmap Z Z) (i : Z) (events : list (Event V)) : list (Event V) :=
  match events with
  | [] => []
  | v :: rest =>
      match m !! ev_Id v with
      | Some r => mkEvent (ev_ClientId v) (ev_Kind v) (ev_Value v) r :: renumber_loop m i rest
      | None =>
          mkEvent (ev_ClientId v) (ev_Kind v) (ev_Value v) i
          :: renumber_loop (<[ev_Id v := i]> m) (i + 1) rest
      end
  end.

Definition renumber (events : list (Event V)) : list (Event V) := renumber_loop ∅ 0 events.

(** The index of the event is used as its "time". *)
Fixpoint convertEntries_from (i : Z) (events : list (Event V)) : list (entry V) :=
  match events with
  | [] => []
  | elem :: rest =>
      let k := if Bool.eqb (ev_Kind elem) ReturnEvent then returnEntry else callEntry in
      mkEntry k (ev_Value elem) (ev_Id elem) i (ev_ClientId elem)
      :: convertEntries_from (i + 1) rest
  end.

Definition convertEntries (events : list (Event V)) : list (entry V) :=
  convertEntries_from 0 events.
End entries.

End Porcupine.
