(* ===== verification/Linearize.v ===== *)
(** The specification the checker of porcupine is measured against: what it
    means for a history of call and return entries to be linearizable, with the
    scheduling relation ([path]) that a search explores step by step. *)

From S2P Require Import Prelude GoStd PorcupineModel.

#[local] Open Scope Z_scope.

Module Linearize.
Export Porcupine.

Section spec.
Context {V St : Type}.
Context (step : St → V → V → option (bool * St)).
Implicit Types (h : list (entry V)) (e c r : entry V) (i a b : Z) (s : St) (σ : list Z).

Definition is_call e : Prop := kind e = callEntry.
Definition is_return e : Prop := kind e = returnEntry.

#[global] Instance is_call_dec e : Decision (is_call e).
Proof. unfold is_call. apply _. Defined.
#[global] Instance is_return_dec e : Decision (is_return e).
Proof. unfold is_return. apply _. Defined.

Definition key e : entryKind * Z := (kind e, id e).

(** [x] occurs before [y] in [h]. *)
Definition before h (x y : entry V) : Prop := [x; y] `sublist_of` h.

(** Each id has one call and one return, in that order. *)
Record wf_hist h : Prop := {
  wf_nodup : NoDup (key <$> h);
  wf_pair : ∀ e, e ∈ h → ∃ c r, is_call c ∧ is_return r ∧ id c = id e ∧ id r = id e ∧ before h c r;
}.

(** Real-time order: [a] returned before [b] was called. *)
Definition precedes h a b : Prop :=
  ∃ r c, is_return r ∧ id r = a ∧ is_call c ∧ id c = b ∧ before h r c.

Definition call_of h i : option (entry V) := head (filter (λ e, is_call e ∧ id e = i) h).
Definition return_of h i : option (entry V) := head (filter (λ e, is_return e ∧ id e = i) h).

(** One operation accepted by the model. *)
Definition apply_op h s i : option St :=
  c ← call_of h i; r ← return_of h i;
  '(ok, s') ← step s (value c) (value r);
  if (ok : bool) then Some s' else None.

(** The model accepts the operations of [σ] one after the other. *)
Fixpoint run h s σ : option St :=
  match σ with
  | [] => Some s
  | i :: σ => s' ← apply_op h s i; run h s' σ
  end.

(** [σ] linearizes the operations it contains: distinct operations of [h],
    accepted in this order, no real-time order violated inside [σ], nothing
    that precedes a member left out. *)
Record partial_linearization h s σ s' : Prop := {
  pl_nodup : NoDup σ;
  pl_ids : ∀ i, i ∈ σ → ∃ e, e ∈ h ∧ id e = i;
  pl_order : ∀ k1 a k2 b k3, σ = k1 ++ a :: k2 ++ b :: k3 → ¬ precedes h b a;
  pl_closed : ∀ a b, a ∈ σ → precedes h b a → b ∈ σ;
  pl_legal : run h s σ = Some s';
}.

(** A linearization of the whole history. *)
Definition linearization h s σ : Prop :=
  (∃ s', partial_linearization h s σ s') ∧ ∀ e, e ∈ h → id e ∈ σ.

Definition linearizable h s : Prop := ∃ σ, linearization h s σ.

(** ** The search view *)

(** The history without the operation [i]. *)
Definition remove i h : list (entry V) := filter (λ e, id e ≠ i) h.

(** [i] may be scheduled next: its call comes before any return. *)
Definition sched h s i s1 : Prop :=
  ∃ pre c suf r, h = pre ++ c :: suf ∧ Forall is_call pre ∧ is_call c ∧ id c = i ∧
    r ∈ suf ∧ is_return r ∧ id r = i ∧ step s (value c) (value r) = Some (true, s1).

Inductive path : list (entry V) → St → list Z → list (entry V) → St → Prop :=
| path_nil h s : path h s [] h s
| path_cons h s i s1 σ h' s' :
    sched h s i s1 → path (remove i h) s1 σ h' s' → path h s (i :: σ) h' s'.

Definition schedulable h s : Prop := ∃ σ s', path h s σ [] s'.

(** ** Basic facts *)

Lemma not_call_return e : is_call e → is_return e → False.
Proof. unfold is_call, is_return. intros ->. done. Qed.

Lemma call_or_return e : is_call e ∨ is_return e.
Proof. unfold is_call, is_return. destruct (kind e); auto. Qed.

Lemma elem_of_remove i h e : e ∈ remove i h ↔ e ∈ h ∧ id e ≠ i.
Proof. unfold remove. rewrite list_elem_of_filter. tauto. Qed.

Lemma before_elem h x y : before h x y → x ∈ h ∧ y ∈ h.
Proof. intros Hb. split; (eapply sublist_elem; [done|]); set_solver. Qed.

Lemma before_filter (P : entry V → Prop) `{∀ x, Decision (P x)} h x y :
  P x → P y → before (filter P h) x y ↔ before h x y.
Proof.
  intros Hx Hy. unfold before. split.
  - intros ?. etrans; [done|]. apply sublist_filter.
  - intros Hs%(sublist_filter_mono P).
    by rewrite !filter_cons_True, filter_nil in Hs by done.
Qed.

Lemma before_split h pre c suf x :
  NoDup h → h = pre ++ c :: suf → before h x c ↔ x ∈ pre.
Proof.
  intros Hnd ->. apply NoDup_app in Hnd as (Hpre & Hdis & Hnd).
  apply NoDup_cons in Hnd as [Hc Hsuf]. unfold before. split.
  - intros (l1 & l2 & Heq & H1 & H2)%sublist_app_r.
    destruct l1 as [|y l1]; simplify_eq/=.
    + exfalso. apply Hc. apply sublist_cons_r in H2 as [H2|(l' & ? & H2)]; simplify_eq;
        (eapply sublist_elem; [done|]); set_solver.
    + eapply sublist_elem; [done|]. left.
  - intros (p1 & p2 & ->)%list_elem_of_split. rewrite <- app_assoc. simpl.
    apply sublist_inserts_l, sublist_skip, sublist_inserts_l, sublist_skip, sublist_nil_l.
Qed.

Lemma wf_NoDup h : wf_hist h → NoDup h.
Proof. intros [Hnd _]. by eapply NoDup_fmap_1. Qed.

Lemma key_inj h e e' : wf_hist h → e ∈ h → e' ∈ h → kind e = kind e' → id e = id e' → e = e'.
Proof.
  intros [Hnd _] He He' Hk Hi.
  apply list_elem_of_lookup in He as [k He], He' as [k' He'].
  assert (k = k') as ->; [|congruence].
  eapply (NoDup_lookup (key <$> h)); [done|..]; rewrite list_lookup_fmap.
  - by rewrite He.
  - rewrite He'. unfold key. simpl. by rewrite Hk, Hi.
Qed.

Lemma call_unique h c c' :
  wf_hist h → c ∈ h → c' ∈ h → is_call c → is_call c' → id c = id c' → c = c'.
Proof. unfold is_call. intros. apply (key_inj h); congruence. Qed.

Lemma return_unique h r r' :
  wf_hist h → r ∈ h → r' ∈ h → is_return r → is_return r' → id r = id r' → r = r'.
Proof. unfold is_return. intros. apply (key_inj h); congruence. Qed.

Lemma before_inv h x y : before h x y → ∃ h1 h2, h = h1 ++ y :: h2 ∧ x ∈ h1.
Proof.
  intros (h1 & h2 & -> & Hy)%sublist_cons_l.
  assert (y ∈ h2) as (l1 & l2 & ->)%list_elem_of_split by (eapply sublist_elem; [done|left]).
  exists (h1 ++ x :: l1), l2. rewrite <- app_assoc. split; [done|set_solver].
Qed.

Lemma before_antisym h x y : NoDup h → before h x y → before h y x → False.
Proof.
  intros Hnd (h1 & h2 & -> & Hx)%before_inv Hyx.
  apply list_elem_of_split in Hx as (l1 & l2 & ->).
  rewrite <- app_assoc in Hyx, Hnd. simpl in *.
  eapply before_split in Hyx; [|done..].
  apply NoDup_app in Hnd as (_ & Hdis & _). apply (Hdis y Hyx). set_solver.
Qed.

Lemma precedes_irrefl h a : wf_hist h → ¬ precedes h a a.
Proof.
  intros Hwf (r & c & Hr & Hra & Hc & Hca & Hrc).
  destruct (before_elem _ _ _ Hrc) as [Hrin Hcin].
  destruct (wf_pair _ Hwf _ Hrin) as (c' & r' & Hc' & Hr' & Hc'i & Hr'i & Hcr).
  destruct (before_elem _ _ _ Hcr) as [Hc'in Hr'in].
  assert (c' = c) as -> by (apply (call_unique h); congruence).
  assert (r' = r) as -> by (apply (return_unique h); congruence).
  eapply before_antisym; eauto using wf_NoDup.
Qed.

(** ** Removing an operation *)

Lemma wf_remove i h : wf_hist h → wf_hist (remove i h).
Proof.
  intros [Hnd Hp]. split.
  - eapply sublist_NoDup; [exact Hnd|]. unfold remove. clear.
    induction h as [|x h IH]; [done|]. rewrite filter_cons.
    case_decide; simpl; by constructor.
  - intros e [He Hi]%elem_of_remove. destruct (Hp e He) as (c & r & ? & ? & Hc & Hr & ?).
    exists c, r. split_and!; try done. apply before_filter; congruence.
Qed.

Lemma precedes_remove i h a b :
  a ≠ i → b ≠ i → precedes (remove i h) a b ↔ precedes h a b.
Proof.
  intros Ha Hb. unfold precedes. split.
  - intros (r & c & ? & ? & ? & ? & Hbf). exists r, c. split_and!; try done.
    apply (before_filter (λ e, id e ≠ i) h) in Hbf; [done|simpl; congruence..].
  - intros (r & c & ? & ? & ? & ? & Hbf). exists r, c. split_and!; try done.
    apply before_filter; [simpl; congruence..|done].
Qed.

Lemma call_of_remove i h a : a ≠ i → call_of (remove i h) a = call_of h a.
Proof.
  intros ?. unfold call_of, remove. f_equal. apply list_filter_filter_l. intros x [_ <-]. done.
Qed.

Lemma return_of_remove i h a : a ≠ i → return_of (remove i h) a = return_of h a.
Proof.
  intros ?. unfold return_of, remove. f_equal. apply list_filter_filter_l. intros x [_ <-]. done.
Qed.

Lemma head_filter_elem (P : entry V → Prop) `{∀ x, Decision (P x)} h e :
  head (filter P h) = Some e → P e ∧ e ∈ h.
Proof.
  intros Hh. apply (proj1 (list_elem_of_filter P h e)).
  destruct (filter P h); simplify_eq/=. left.
Qed.

Lemma call_of_inv h i c : call_of h i = Some c → c ∈ h ∧ is_call c ∧ id c = i.
Proof. intros [[? ?] ?]%head_filter_elem. done. Qed.

Lemma return_of_inv h i r : return_of h i = Some r → r ∈ h ∧ is_return r ∧ id r = i.
Proof. intros [[? ?] ?]%head_filter_elem. done. Qed.

Lemma call_of_Some h c : wf_hist h → c ∈ h → is_call c → call_of h (id c) = Some c.
Proof.
  intros Hwf Hc Hk. destruct (call_of h (id c)) as [c'|] eqn:E.
  - apply call_of_inv in E as (? & ? & ?). f_equal. apply (call_unique h); congruence.
  - exfalso. unfold call_of in E. apply head_None in E.
    exact (filter_nil_not_elem_of _ _ c E (conj Hk eq_refl) Hc).
Qed.

Lemma return_of_Some h r : wf_hist h → r ∈ h → is_return r → return_of h (id r) = Some r.
Proof.
  intros Hwf Hr Hk. destruct (return_of h (id r)) as [r'|] eqn:E.
  - apply return_of_inv in E as (? & ? & ?). f_equal. apply (return_unique h); congruence.
  - exfalso. unfold return_of in E. apply head_None in E.
    exact (filter_nil_not_elem_of _ _ r E (conj Hk eq_refl) Hr).
Qed.

Lemma apply_op_remove i h s a : a ≠ i → apply_op (remove i h) s a = apply_op h s a.
Proof. intros. unfold apply_op. by rewrite call_of_remove, return_of_remove. Qed.

Lemma run_remove i h s σ : i ∉ σ → run (remove i h) s σ = run h s σ.
Proof.
  revert s. induction σ as [|a σ IH]; intros s Hi; [done|]. apply not_elem_of_cons in Hi as [? ?].
  simpl. rewrite apply_op_remove by done. destruct (apply_op h s a); simpl; auto.
Qed.

(** ** Scheduling one operation *)

Lemma sched_first h s i s1 b : wf_hist h → sched h s i s1 → ¬ precedes h b i.
Proof.
  intros Hwf (pre & c & suf & r & Heq & Hpre & Hc & Hci & _) (r' & c' & Hr' & _ & Hc' & Hc'i & Hb).
  assert (c' = c) as ->.
  { apply before_elem in Hb as [_ ?]. apply (call_unique h); [done..|set_solver|done|done|congruence]. }
  eapply before_split in Hb; [|by apply wf_NoDup|done].
  rewrite Forall_forall in Hpre. eauto using not_call_return.
Qed.

Lemma sched_apply h s i s1 :
  wf_hist h → sched h s i s1 → apply_op h s i = Some s1 ∧ ∃ e, e ∈ h ∧ id e = i.
Proof.
  intros Hwf (pre & c & suf & r & Heq & _ & Hc & Hci & Hr & Hrr & Hri & Hs).
  assert (c ∈ h) by set_solver. assert (r ∈ h) by set_solver. split; [|eauto].
  unfold apply_op. rewrite <- Hci at 1. rewrite call_of_Some by done. simpl.
  rewrite <- Hri, return_of_Some by done. simpl. by rewrite Hs.
Qed.

Lemma apply_sched h s i s1 :
  wf_hist h → apply_op h s i = Some s1 → (∀ b, ¬ precedes h b i) → sched h s i s1.
Proof.
  intros Hwf Ha Hfirst. unfold apply_op in Ha.
  apply bind_Some in Ha as (c & (Hc & Hcc & Hci)%call_of_inv & Ha).
  apply bind_Some in Ha as (r & (Hr & Hrr & Hri)%return_of_inv & Ha).
  destruct (step s (value c) (value r)) as [[[] s']|] eqn:Hs; simplify_eq/=.
  destruct (list_elem_of_split _ _ Hc) as (pre & suf & Heq).
  exists pre, c, suf, r. split_and!; try done.
  - apply Forall_forall. intros x Hx. destruct (call_or_return x) as [|Hret]; [done|].
    exfalso. apply (Hfirst (id x)). exists x, c. split_and!; try done.
    eapply before_split; eauto using wf_NoDup.
  - rewrite Heq in Hr. apply elem_of_app in Hr as [Hr|Hr].
    + exfalso. apply (precedes_irrefl h (id c)); [done|]. exists r, c. split_and!; try done.
      eapply before_split; eauto using wf_NoDup.
    + apply elem_of_cons in Hr as [->|]; [|done]. exfalso. eauto using not_call_return.
Qed.

(** ** Paths of the search are the partial linearizations *)

Lemma partial_cons h s i s1 σ s' :
  wf_hist h → sched h s i s1 → partial_linearization (remove i h) s1 σ s' →
  partial_linearization h s (i :: σ) s'.
Proof.
  intros Hwf Hs [Hnd Hids Hord Hcl Hrun].
  assert (i ∉ σ) as Hi by (intros (e & [_ ?]%elem_of_remove & ?)%Hids; done).
  pose proof (sched_first _ _ _ _ i Hwf Hs) as Hfi.
  destruct (sched_apply _ _ _ _ Hwf Hs) as [Ha (e & He & Hei)]. split.
  - by constructor.
  - intros a [->|Ha']%elem_of_cons; [eauto|]. apply Hids in Ha' as (e' & [? _]%elem_of_remove & ?). eauto.
  - intros [|x k1] a k2 b k3 Heq; simplify_eq/=; [by eapply sched_first|].
    intros Hpr. eapply (Hord k1 a k2 b k3); [done|]. apply precedes_remove; [..|done]; set_solver.
  - intros a b [->|Ha']%elem_of_cons Hpr; [by eapply sched_first in Hpr|].
    destruct (decide (b = i)) as [->|]; [left|right]. apply (Hcl a); [done|].
    apply precedes_remove; [done|set_solver|done].
  - simpl. rewrite Ha. simpl. by rewrite <- (run_remove i).
Qed.

Lemma partial_uncons h s i σ s' :
  wf_hist h → partial_linearization h s (i :: σ) s' →
  ∃ s1, sched h s i s1 ∧ partial_linearization (remove i h) s1 σ s'.
Proof.
  intros Hwf [[Hi Hnd]%NoDup_cons Hids Hord Hcl Hrun]. simpl in Hrun.
  apply bind_Some in Hrun as (s1 & Ha & Hrun).
  assert (∀ b, ¬ precedes h b i) as Hfirst.
  { intros b Hpr. assert (b ∈ i :: σ) as Hb by (eapply Hcl; [left|done]).
    apply elem_of_cons in Hb as [->|Hb]; [by eapply precedes_irrefl|].
    apply list_elem_of_split in Hb as (k2 & k3 & ->). by eapply (Hord [] i k2 b k3). }
  exists s1. split; [by apply apply_sched|]. split.
  - done.
  - intros a Ha'. destruct (Hids a) as (e & He & Hea); [by right|].
    exists e. split; [|done]. apply elem_of_remove. split; [done|]. set_solver.
  - intros k1 a k2 b k3 -> Hpr. eapply (Hord (i :: k1) a k2 b k3); [done|].
    apply (precedes_remove i h) in Hpr; [done|set_solver..].
  - intros a b Ha' Hpr. assert (a ≠ i) by set_solver.
    destruct (decide (b = i)) as [->|].
    { destruct Hpr as (r & c & _ & ? & _ & _ & Hb). apply before_elem in Hb as [Hb _].
      by apply elem_of_remove in Hb as []. }
    apply (precedes_remove i h) in Hpr; [|done..].
    assert (b ∈ i :: σ) as Hb by (eapply Hcl; [by right|done]). set_solver.
  - by rewrite run_remove.
Qed.

(** What is left of [h] once the operations of [σ] are done. *)
Definition rest h σ : list (entry V) := filter (λ e, id e ∉ σ) h.

Lemma rest_cons i h σ : rest (remove i h) σ = rest h (i :: σ).
Proof.
  unfold rest, remove. rewrite list_filter_filter. apply list_filter_iff.
  intros e. rewrite not_elem_of_cons. tauto.
Qed.

Lemma rest_nil h : rest h [] = h.
Proof.
  unfold rest. induction h as [|e h IH]; [done|]. rewrite filter_cons_True, IH; [done|].
  apply not_elem_of_nil.
Qed.

Lemma path_partial h s σ h' s' :
  wf_hist h → path h s σ h' s' → partial_linearization h s σ s' ∧ h' = rest h σ.
Proof.
  intros Hwf Hp. induction Hp as [h s|h s i s1 σ h' s' Hs _ IH].
  - split; [|by rewrite rest_nil]. split; try set_solver; [constructor|by intros []].
  - destruct IH as [IH ->]; [by apply wf_remove|]. split; [by eapply partial_cons|apply rest_cons].
Qed.

Lemma partial_path h s σ s' :
  wf_hist h → partial_linearization h s σ s' → path h s σ (rest h σ) s'.
Proof.
  revert h s. induction σ as [|i σ IH]; intros h s Hwf Hpl.
  - destruct Hpl as [_ _ _ _ [= ->]]. rewrite rest_nil. constructor.
  - destruct (partial_uncons _ _ _ _ _ Hwf Hpl) as (s1 & Hs & Hpl').
    econstructor; [done|]. rewrite <- rest_cons. apply IH; [by apply wf_remove|done].
Qed.

Lemma rest_empty h σ : rest h σ = [] ↔ ∀ e, e ∈ h → id e ∈ σ.
Proof.
  unfold rest. split.
  - intros Hr e He. destruct (decide (id e ∈ σ)); [done|].
    by destruct (filter_nil_not_elem_of _ _ e Hr).
  - intros Hall. destruct (filter _ h) as [|e l] eqn:E; [done|].
    assert (e ∈ filter (λ e, id e ∉ σ) h) as [? ?]%list_elem_of_filter by (rewrite E; left).
    exfalso. eauto.
Qed.

Lemma path_linearization h s σ s' : wf_hist h → path h s σ [] s' → linearization h s σ.
Proof.
  intros Hwf Hp. destruct (path_partial _ _ _ _ _ Hwf Hp) as [? Hr].
  split; [eauto|]. by apply rest_empty.
Qed.

(** The declarative specification and the search view agree. *)
Lemma linearizable_schedulable h s : wf_hist h → linearizable h s ↔ schedulable h s.
Proof.
  intros Hwf. split.
  - intros (σ & (s' & Hpl) & Hall). exists σ, s'.
    rewrite <- (proj2 (rest_empty h σ)) by done. by apply partial_path.
  - intros (σ & s' & Hp). exists σ. by eapply path_linearization.
Qed.

Lemma path_snoc h s σ h1 s1 i s2 :
  path h s σ h1 s1 → sched h1 s1 i s2 → path h s (σ ++ [i]) (remove i h1) s2.
Proof. induction 1; intros; simpl; econstructor; eauto. constructor. Qed.

End spec.
End Linearize.
