(* ===== verification/NodeList.v ===== *)
(** Model of the doubly linked entry list of porcupine/checker.go ([node],
    [insertBefore], [length], [makeLinkedEntries], [lift], [unlift]) in an
    explicit heap, and the list it represents. *)

From S2P Require Import Prelude GoStd PorcupineModel Linearize.

#[local] Open Scope Z_scope.

Module NodeList.
Export Linearize.

(** ** The heap *)

Abbreviation loc := nat.

Section heap.
Context {V : Type}.

(** [type node struct]; a [nil] pointer or [interface{}] is [None]. *)
Record node := mkNode {
  n_value : option V;
  n_match : option loc;
  n_id : Z;
  n_next : option loc;
  n_prev : option loc;
}.

Definition with_next (x : option loc) (nd : node) : node :=
  mkNode (n_value nd) (n_match nd) (n_id nd) x (n_prev nd).
Definition with_prev (x : option loc) (nd : node) : node :=
  mkNode (n_value nd) (n_match nd) (n_id nd) (n_next nd) x.

Abbreviation mem := (gmap loc node).

(** [&node{...}] *)
Definition alloc (m : mem) (nd : node) : loc * mem := (size m, <[size m := nd]> m).

(** [a.next = x] and [a.prev = x]; writing through [nil] panics. *)
Definition set_next (a : option loc) (x : option loc) (m : mem) : option mem :=
  a ← a; nd ← m !! a; Some (<[a := with_next x nd]> m).
Definition set_prev (a : option loc) (x : option loc) (m : mem) : option mem :=
  a ← a; nd ← m !! a; Some (<[a := with_prev x nd]> m).

(** [a.f] *)
Definition field {F} (f : node → F) (a : option loc) (m : mem) : option F :=
  a ← a; nd ← m !! a; Some (f nd).

#[global] Arguments set_next : simpl never.
#[global] Arguments set_prev : simpl never.
#[global] Arguments field : simpl never.

Definition insertBefore (n : loc) (mark : option loc) (m : mem) : option mem :=
  if mark is Some _ then
    beforeMark ← field n_prev mark m;
    m ← set_prev mark (Some n) m;
    m ← set_next (Some n) mark m;
    if (beforeMark : option loc) is Some _ then
      m ← set_prev (Some n) beforeMark m;
      set_next beforeMark (Some n) m
    else Some m
  else Some m.

(** The loop of [length]; at most [fuel] iterations. *)
Fixpoint length_loop (fuel : nat) (m : mem) (n : option loc) (l : Z) : option Z :=
  match n with
  | None => Some l
  | Some _ =>
      match fuel with
      | O => None
      | S fuel => nx ← field n_next n m; length_loop fuel m nx (l + 1)
      end
  end.

(** An acyclic list visits each node of the heap at most once. *)
Definition length (m : mem) (n : option loc) : option Z := length_loop (size m) m n 0.

(** State of the loop of [makeLinkedEntries]: heap, [root], [match]. *)
Definition mk_state : Type := mem * option loc * gmap Z loc.

Definition makeLinked_step (elem : entry V) (s : mk_state) : option mk_state :=
  let '(m, root, mt) := s in
  if Bool.eqb (kind elem) returnEntry then
    let '(e, m) := alloc m (mkNode (Some (value elem)) None (id elem) None None) in
    m ← insertBefore e root m;
    Some (m, Some e, <[id elem := e]> mt)
  else
    let '(e, m) := alloc m (mkNode (Some (value elem)) (mt !! id elem) (id elem) None None) in
    m ← insertBefore e root m;
    Some (m, Some e, mt).

(** The loop runs from the last entry to the first. *)
Fixpoint makeLinked_loop (entries : list (entry V)) (s : mk_state) : option mk_state :=
  match entries with
  | [] => Some s
  | elem :: rest => s ← makeLinked_loop rest s; makeLinked_step elem s
  end.

Definition makeLinkedEntries (entries : list (entry V)) : option (mem * option loc) :=
  '(m, root, _) ← makeLinked_loop entries (∅, None, ∅);
  Some (m, root).

Definition lift (entry : option loc) (m : mem) : option mem :=
  prev ← field n_prev entry m; next ← field n_next entry m;
  m ← set_next prev next m;
  next ← field n_next entry m; prev ← field n_prev entry m;
  m ← set_prev next prev m;
  match_ ← field n_match entry m;
  prev ← field n_prev match_ m; next ← field n_next match_ m;
  m ← set_next prev next m;
  next ← field n_next match_ m;
  if (next : option loc) is Some _ then
    prev ← field n_prev match_ m; set_prev next prev m
  else Some m.

Definition unlift (entry : option loc) (m : mem) : option mem :=
  match_ ← field n_match entry m;
  prev ← field n_prev match_ m;
  m ← set_next prev match_ m;
  next ← field n_next match_ m;
  m ← (if (next : option loc) is Some _ then set_prev next match_ m else Some m);
  prev ← field n_prev entry m;
  m ← set_next prev entry m;
  next ← field n_next entry m;
  set_prev next entry m.

(** ** List segments

    [seg m p l q]: the nodes [l] are chained by [next] and [prev], the first
    one's [prev] is [p] and the last one's [next] is [q]. *)

Definition first (l : list loc) (q : option loc) : option loc :=
  match l with [] => q | a :: _ => Some a end.

Fixpoint final (l : list loc) (p : option loc) : option loc :=
  match l with [] => p | a :: l => final l (Some a) end.

Fixpoint seg (m : mem) (p : option loc) (l : list loc) (q : option loc) : Prop :=
  match l with
  | [] => True
  | a :: l =>
      (∃ nd, m !! a = Some nd ∧ n_prev nd = p ∧ n_next nd = first l q) ∧ seg m (Some a) l q
  end.

Implicit Types (m : mem) (l : list loc) (a x y : loc) (p q : option loc).

Lemma field_Some {F} (f : node → F) a nd m : m !! a = Some nd → field f (Some a) m = Some (f nd).
Proof. unfold field. simpl. by intros ->. Qed.

Lemma first_app l1 l2 q : first (l1 ++ l2) q = first l1 (first l2 q).
Proof. by destruct l1. Qed.

Lemma final_app l1 l2 p : final (l1 ++ l2) p = final l2 (final l1 p).
Proof. revert p. induction l1; simpl; auto. Qed.

Lemma seg_app m p l1 l2 q :
  seg m p (l1 ++ l2) q ↔ seg m p l1 (first l2 q) ∧ seg m (final l1 p) l2 q.
Proof.
  revert p. induction l1 as [|a l1 IH]; intros p; simpl; [tauto|].
  rewrite IH, first_app. tauto.
Qed.

Lemma seg_frame m p l q a nd : a ∉ l → seg (<[a := nd]> m) p l q ↔ seg m p l q.
Proof.
  revert p. induction l as [|b l IH]; intros p Ha; simpl; [done|].
  apply not_elem_of_cons in Ha as [? ?]. rewrite IH by done.
  by rewrite lookup_insert_ne.
Qed.

(** Changing the ends of a segment. *)
Lemma seg_last m p l a nd q q' :
  seg m p (l ++ [a]) q → a ∉ l → m !! a = Some nd →
  seg (<[a := with_next q' nd]> m) p (l ++ [a]) q'.
Proof.
  rewrite !seg_app. simpl. intros [H1 [(nd' & ? & Hp & Hq) _]] Ha Hnd.
  assert (nd' = nd) as -> by congruence.
  split; [by rewrite seg_frame|]. split; [|done]. exists (with_next q' nd).
  by rewrite lookup_insert_eq.
Qed.

Lemma seg_first m p p' l a nd q :
  seg m p (a :: l) q → a ∉ l → m !! a = Some nd →
  seg (<[a := with_prev p' nd]> m) p' (a :: l) q.
Proof.
  simpl. intros [(nd' & ? & Hp & Hq) H2] Ha Hnd. assert (nd' = nd) as -> by congruence.
  split; [|by rewrite seg_frame]. exists (with_prev p' nd). by rewrite lookup_insert_eq.
Qed.

(** ** Unlinking and relinking one node

    [lift] unlinks the call and then the return; [unlift] relinks them in the
    opposite order.  [unlink]/[relink] are those halves. *)

Definition unlink (a : loc) (m : mem) : option mem :=
  prev ← field n_prev (Some a) m; next ← field n_next (Some a) m;
  m ← set_next prev next m;
  next ← field n_next (Some a) m;
  if (next : option loc) is Some _ then prev ← field n_prev (Some a) m; set_prev next prev m
  else Some m.

Definition relink (a : loc) (m : mem) : option mem :=
  prev ← field n_prev (Some a) m;
  m ← set_next prev (Some a) m;
  next ← field n_next (Some a) m;
  if (next : option loc) is Some _ then set_prev next (Some a) m else Some m.

(** The fields that [lift] and [unlift] leave alone. *)
Definition same_data m m' : Prop :=
  ∀ b, (λ nd, (n_value nd, n_match nd, n_id nd)) <$> m !! b =
       (λ nd, (n_value nd, n_match nd, n_id nd)) <$> m' !! b.

#[global] Instance same_data_equiv : Equivalence same_data.
Proof.
  split; unfold same_data; [done|by intros ???|intros m1 m2 m3 H1 H2 b; by rewrite H1].
Qed.

Lemma same_data_next m a nd q : m !! a = Some nd → same_data m (<[a := with_next q nd]> m).
Proof.
  intros Ha b. destruct (decide (a = b)) as [->|].
  - by rewrite lookup_insert_eq, Ha.
  - by rewrite lookup_insert_ne.
Qed.

Lemma same_data_prev m a nd q : m !! a = Some nd → same_data m (<[a := with_prev q nd]> m).
Proof.
  intros Ha b. destruct (decide (a = b)) as [->|].
  - by rewrite lookup_insert_eq, Ha.
  - by rewrite lookup_insert_ne.
Qed.

Lemma with_next_id nd : with_next (n_next nd) nd = nd.
Proof. by destruct nd. Qed.
Lemma with_prev_id nd : with_prev (n_prev nd) nd = nd.
Proof. by destruct nd. Qed.

Lemma seg_lookup m p l1 a l2 q :
  seg m p (l1 ++ a :: l2) q →
  ∃ nd, m !! a = Some nd ∧ n_prev nd = final l1 p ∧ n_next nd = first l2 q.
Proof. rewrite seg_app. by intros [_ [? _]]. Qed.

Lemma unlink_spec m l1 pp a l2 :
  NoDup (l1 ++ pp :: a :: l2) → seg m None (l1 ++ pp :: a :: l2) None →
  ∃ m', unlink a m = Some m' ∧ relink a m' = Some m ∧ same_data m m' ∧
    seg m' None (l1 ++ pp :: l2) None ∧ ∀ b, b ∉ l1 ++ pp :: l2 → m' !! b = m !! b.
Proof.
  intros Hnd Hs. pose proof (seg_lookup _ _ _ _ _ _ Hs) as (ndp & Hpp & _ & Hpn). simpl in Hpn.
  pose proof (seg_lookup m None (l1 ++ [pp]) a l2 None) as Ha.
  rewrite <- app_assoc, final_app in Ha. destruct (Ha Hs) as (nda & Hna & Hap & Han). simpl in Hap.
  apply NoDup_app in Hnd as (Hnd1 & Hdis & Hnd2). rewrite !NoDup_cons in Hnd2.
  destruct Hnd2 as (Hpp2 & Ha2 & Hnd2). assert (pp ≠ a) by set_solver.
  assert (pp ∉ l1) as Hpl1 by (intros ?; eapply Hdis; [done|left]).
  replace (l1 ++ pp :: a :: l2) with ((l1 ++ [pp]) ++ a :: l2) in Hs by (by rewrite <- app_assoc).
  apply seg_app in Hs as [Hs1 Hs2]. simpl in Hs1, Hs2. destruct Hs2 as [_ Hs2].
  apply (seg_last _ _ _ _ ndp _ (first l2 None)) in Hs1; [|done..].
  destruct l2 as [|b l2]; simpl in *.
  - exists (<[pp := with_next None ndp]> m). split_and!.
    + unfold unlink, set_next, field. simpl. rewrite Hna. simpl. rewrite Hap, Han. simpl.
      rewrite Hpp. simpl. rewrite lookup_insert_ne, Hna by done. simpl. by rewrite Han.
    + unfold relink, set_next, field. simpl. rewrite lookup_insert_ne, Hna by done. simpl.
      rewrite Hap. simpl. rewrite lookup_insert_eq. simpl. rewrite insert_insert_eq.
      rewrite lookup_insert_ne, Hna by done. simpl. rewrite Han. simpl. f_equal.
      apply insert_id. rewrite Hpp, <- Hpn. by destruct ndp.
    + by apply same_data_next.
    + done.
    + intros c Hc. apply lookup_insert_ne. intros <-. apply Hc, elem_of_app. right. left.
  - destruct Hs2 as [(ndb & Hnb & Hbp & Hbn) Hs2].
    assert (pp ≠ b ∧ a ≠ b) as [? ?] by set_solver.
    assert (b ∉ l1 ++ [pp]) as Hbl1.
    { rewrite elem_of_app, list_elem_of_singleton. intros [Hb|Hb]; [|done].
      eapply Hdis; [exact Hb|]. right; right; left. }
    apply NoDup_cons in Hnd2 as [Hbl2 _].
    set (m1 := <[pp := with_next (Some b) ndp]> m) in *.
    assert (m1 !! b = Some ndb) as Hnb1 by (by unfold m1; rewrite lookup_insert_ne).
    exists (<[b := with_prev (Some pp) ndb]> m1).
    assert (m1 !! a = Some nda) as Hna1 by (by unfold m1; rewrite lookup_insert_ne).
    split_and!.
    + unfold unlink, set_next, set_prev, field. simpl. rewrite Hna. simpl. rewrite Hap, Han. simpl.
      rewrite Hpp. simpl. fold m1. rewrite Hna1. simpl. rewrite Han, Hap. simpl. by rewrite Hnb1.
    + unfold relink, set_next, set_prev, field. simpl. rewrite lookup_insert_ne, Hna1 by done. simpl.
      rewrite Hap. simpl. unfold m1. simplify_map_eq. f_equal. apply map_eq. intros c. rewrite !lookup_insert.
      repeat case_decide; subst; try done.
      * rewrite Hnb, <- Hbp. by destruct ndb.
      * rewrite Hpp, <- Hpn. by destruct ndp.
    + etrans; [by apply (same_data_next m pp ndp (Some b))|]. by apply same_data_prev.
    + replace (l1 ++ pp :: b :: l2) with ((l1 ++ [pp]) ++ b :: l2) by (by rewrite <- app_assoc).
      apply seg_app. split; [by rewrite seg_frame|].
      rewrite final_app. cbn [final]. apply (seg_first _ (Some a)); [|done|done].
      split; [by exists ndb|]. unfold m1. rewrite seg_frame; [done|].
      intros ?. apply Hpp2. by right; right.
    + intros c Hc. rewrite elem_of_app, !elem_of_cons in Hc.
      rewrite lookup_insert_ne by (intros <-; tauto). apply lookup_insert_ne. intros <-. tauto.
Qed.

Lemma lift_unlink m x nd nx :
  m !! x = Some nd → n_next nd = Some nx → n_prev nd ≠ Some x →
  lift (Some x) m =
    (m1 ← unlink x m; y ← field n_match (Some x) m1; y ← y; unlink y m1).
Proof.
  intros Hx Hnx Hpx. unfold lift, unlink, field, set_next, set_prev. simpl. rewrite Hx. simpl.
  destruct (n_prev nd) as [p|] eqn:Hp; simpl; [|done].
  destruct (m !! p) as [ndp|] eqn:Hmp; simpl; [|done].
  assert (p ≠ x) by congruence. rewrite !lookup_insert_ne, Hx by done. simpl.
  rewrite Hnx, Hp. simpl. rewrite lookup_insert. case_decide as Hd; subst; simpl.
  - destruct (<[nx:=_]> _ !! x) as [nd'|]; simpl; [|done]. by destruct (n_match nd').
  - destruct (m !! nx) as [ndn|]; simpl; [|done].
    destruct (<[nx:=_]> _ !! x) as [nd'|]; simpl; [|done]. by destruct (n_match nd').
Qed.

Lemma unlift_relink m x y nd :
  m !! x = Some nd → n_match nd = Some y →
  unlift (Some x) m =
    (m1 ← relink y m; next ← field n_next (Some x) m1;
     if (next : option loc) is Some _ then relink x m1 else
       prev ← field n_prev (Some x) m1; m1 ← set_next prev (Some x) m1;
       next ← field n_next (Some x) m1; set_prev next (Some x) m1).
Proof.
  intros Hx Hy. assert (field n_match (Some x) m = Some (Some y)) as Hf.
  { unfold field. simpl. rewrite Hx. simpl. by rewrite Hy. }
  unfold unlift, relink. rewrite Hf. simpl.
  destruct (field n_prev (Some y) m) as [p|]; simpl; [|done].
  destruct (set_next p (Some y) m) as [m1|]; simpl; [|done].
  destruct (field n_next (Some y) m1) as [n|]; simpl; [|done].
  destruct (if n is Some _ then set_prev n (Some y) m1 else Some m1) as [m2|]; simpl; [|done].
  unfold field, set_next. simpl. destruct (m2 !! x) as [ndx|] eqn:Hm2; simpl; [|done].
  destruct (n_next ndx) as [nx|] eqn:Hn; simpl; [|done].
  destruct (n_prev ndx) as [px|] eqn:Hpx; simpl; [|done].
  destruct (m2 !! px) as [ndp|] eqn:Hmp; simpl; [|done].
  rewrite lookup_insert. case_decide as Hd; subst; simpl.
  - done.
  - rewrite Hm2. simpl. by rewrite Hn.
Qed.

(** [lift] takes a call and its return out of the list; [unlift] is its inverse. *)
Lemma lift_spec m l1 pp x l2 y l3 nd :
  NoDup (l1 ++ pp :: x :: l2 ++ y :: l3) →
  seg m None (l1 ++ pp :: x :: l2 ++ y :: l3) None →
  m !! x = Some nd → n_match nd = Some y →
  ∃ m', lift (Some x) m = Some m' ∧ unlift (Some x) m' = Some m ∧ same_data m m' ∧
    m' !! x = m !! x ∧ seg m' None (l1 ++ pp :: l2 ++ l3) None.
Proof.
  intros Hnd Hs Hx Hy.
  destruct (unlink_spec _ _ _ _ _ Hnd Hs) as (m1 & Hu1 & Hr1 & Hd1 & Hs1 & Hf1).
  assert (NoDup (l1 ++ pp :: l2 ++ y :: l3)) as Hnd1.
  { eapply sublist_NoDup; [exact Hnd|]. by apply sublist_app, sublist_skip, sublist_cons. }
  assert (x ∉ l1 ++ pp :: l2 ++ y :: l3) as Hxl.
  { change (l1 ++ pp :: x :: l2 ++ y :: l3) with (l1 ++ [pp] ++ x :: l2 ++ y :: l3) in Hnd.
    rewrite (Permutation_middle (l1 ++ [pp])), app_assoc in Hnd || rewrite app_assoc in Hnd.
    rewrite <- Permutation_middle in Hnd. apply NoDup_cons in Hnd as [Hx' _].
    by rewrite <- app_assoc in Hx'. }
  destruct (exists_last (l := l1 ++ pp :: l2)) as (k1 & q & Hk); [by destruct l1|].
  assert (l1 ++ pp :: l2 ++ y :: l3 = k1 ++ q :: y :: l3) as Heq.
  { change (l1 ++ pp :: l2 ++ y :: l3) with (l1 ++ (pp :: l2) ++ y :: l3).
    by rewrite app_assoc, Hk, <- app_assoc. }
  assert (l1 ++ pp :: l2 ++ l3 = k1 ++ q :: l3) as Heq'.
  { change (l1 ++ pp :: l2 ++ l3) with (l1 ++ (pp :: l2) ++ l3).
    by rewrite app_assoc, Hk, <- app_assoc. }
  rewrite Heq in Hnd1, Hs1, Hf1, Hxl.
  destruct (unlink_spec _ _ _ _ _ Hnd1 Hs1) as (m2 & Hu2 & Hr2 & Hd2 & Hs2 & Hf2).
  rewrite <- Heq' in Hs2.
  assert (m1 !! x = m !! x) as Hm1 by (by apply Hf1).
  assert (m2 !! x = m1 !! x) as Hm2.
  { apply Hf2. rewrite elem_of_app, elem_of_cons in *. rewrite elem_of_cons in Hxl. tauto. }
  destruct (seg_lookup m None (l1 ++ [pp]) x (l2 ++ y :: l3) None) as (nd' & Hx' & Hp' & Hn').
  { by rewrite <- app_assoc. }
  assert (nd' = nd) as -> by congruence. rewrite final_app in Hp'. simpl in Hp'.
  exists m2. split_and!; [|..|by etrans|congruence|done].
  - assert (∃ nx, n_next nd = Some nx) as [nx Hnx] by (rewrite Hn'; destruct l2; simpl; eauto).
    rewrite (lift_unlink _ _ nd nx), Hu1 by (done || (rewrite Hp'; intros [= ->]; apply Hxl;
      rewrite <- Heq; set_solver)).
    simpl. unfold field. simpl. rewrite Hm1, Hx. simpl. by rewrite Hy.
  - assert (field n_next (Some x) m1 = Some (first (l2 ++ y :: l3) None)) as Hf.
    { unfold field. simpl. rewrite Hm1, Hx. simpl. by rewrite Hn'. }
    rewrite (unlift_relink _ _ y nd), Hr2 by congruence. simpl. rewrite Hf. simpl.
    by destruct l2.
Qed.

(** ** Building the list *)

Lemma same_data_is_Some m m' a : same_data m m' → is_Some (m !! a) ↔ is_Some (m' !! a).
Proof.
  intros H. specialize (H a). rewrite <- !not_eq_None_Some.
  destruct (m !! a), (m' !! a); simpl in H; naive_solver.
Qed.

Lemma insertBefore_spec m n nd l :
  m !! n = Some nd → n_next nd = None → n_prev nd = None → n ∉ l → seg m None l None →
  NoDup l →
  ∃ m', insertBefore n (first l None) m = Some m' ∧ same_data m m' ∧ seg m' None (n :: l) None.
Proof.
  intros Hn Hnn Hnp Hnl Hs Hnd. destruct l as [|a l]; simpl in *.
  - exists m. split_and!; [done..| |done]. by exists nd.
  - destruct Hs as [(nda & Ha & Hap & Han) Hs]. apply not_elem_of_cons in Hnl as [Hna Hnl].
    apply NoDup_cons in Hnd as [Hal Hnd].
    exists (<[n := with_next (Some a) nd]> (<[a := with_prev (Some n) nda]> m)). split_and!.
    + unfold field, set_prev, set_next. simpl. rewrite Ha. simpl. rewrite Hap.
      rewrite lookup_insert_ne, Hn by done. done.
    + etrans; [by apply (same_data_prev m a nda (Some n))|].
      apply same_data_next. by rewrite lookup_insert_ne.
    + exists (with_next (Some a) nd). by rewrite lookup_insert_eq.
    + exists (with_prev (Some n) nda). rewrite lookup_insert_ne, lookup_insert_eq by done. done.
    + by rewrite !seg_frame.
Qed.

(** Addresses of a list of [n] nodes, allocated from the last to the first. *)
Fixpoint addrs (n : nat) : list loc :=
  match n with O => [] | S n => n :: addrs n end.

Lemma elem_of_addrs n a : a ∈ addrs n ↔ (a < n)%nat.
Proof. induction n; simpl; [set_solver by lia|]. rewrite elem_of_cons, IHn. lia. Qed.

Lemma NoDup_addrs n : NoDup (addrs n).
Proof. induction n; simpl; constructor; [rewrite elem_of_addrs; lia|done]. Qed.

Lemma length_addrs n : List.length (addrs n) = n.
Proof. induction n; simpl; auto. Qed.

(** The nodes of a history with their addresses. *)
Definition located (h : list (entry V)) : list (loc * entry V) :=
  zip (addrs (List.length h)) h.

Lemma located_fst h : (located h).*1 = addrs (List.length h).
Proof. apply fst_zip. by rewrite length_addrs. Qed.

Lemma located_snd h : (located h).*2 = h.
Proof. apply snd_zip. by rewrite length_addrs. Qed.

(** The node at [a] holds the data of the entry [e] of [lst]. *)
Definition holds (lst : list (loc * entry V)) m a (e : entry V) : Prop :=
  ∃ nd, m !! a = Some nd ∧ n_value nd = Some (value e) ∧ n_id nd = id e ∧
    if decide (is_call e)
    then ∃ b r, n_match nd = Some b ∧ (b, r) ∈ lst ∧ is_return r ∧ id r = id e
    else n_match nd = None.

Lemma holds_same_data lst m m' a e : same_data m m' → holds lst m a e → holds lst m' a e.
Proof.
  intros Hd (nd & Hm & Hv & Hi & Hma). specialize (Hd a). rewrite Hm in Hd.
  destruct (m' !! a) as [nd'|] eqn:E; simplify_eq/=.
  exists nd'. repeat match goal with H : _ = n_value nd' |- _ => rewrite <- H
    | H : _ = n_match nd' |- _ => rewrite <- H | H : _ = n_id nd' |- _ => rewrite <- H end.
  done.
Qed.

Lemma holds_weaken lst lst' m a e : lst ⊆ lst' → holds lst m a e → holds lst' m a e.
Proof.
  intros Hsub (nd & ? & ? & ? & Hma). exists nd. split_and!; try done.
  case_decide; [|done]. destruct Hma as (b & r & ? & ? & ? & ?). exists b, r. eauto.
Qed.

(** Every call is followed by its return. *)
Definition closed_hist (h : list (entry V)) : Prop :=
  ∀ pre c suf, h = pre ++ c :: suf → is_call c → ∃ r, r ∈ suf ∧ is_return r ∧ id r = id c.

Record linked (h : list (entry V)) (s : mk_state) : Prop := {
  lk_dom : ∀ a, is_Some (s.1.1 !! a) ↔ (a < List.length h)%nat;
  lk_size : size s.1.1 = List.length h;
  lk_root : s.1.2 = first (addrs (List.length h)) None;
  lk_seg : seg s.1.1 None (addrs (List.length h)) None;
  lk_data : ∀ a e, (a, e) ∈ located h → holds (located h) s.1.1 a e;
  lk_match : ∀ i b, s.2 !! i = Some b → ∃ r, (b, r) ∈ located h ∧ is_return r ∧ id r = i;
  lk_return : ∀ r, r ∈ h → is_return r → is_Some (s.2 !! id r);
}.

Lemma size_same_dom m m' : same_data m m' → size m = size m'.
Proof.
  intros H. rewrite <- !size_dom. f_equal. apply set_eq. intros a.
  rewrite !elem_of_dom. by apply same_data_is_Some.
Qed.

Lemma located_cons e h : located (e :: h) = (List.length h, e) :: located h.
Proof. done. Qed.

Lemma elem_located h a e : (a, e) ∈ located h → (a < List.length h)%nat ∧ e ∈ h.
Proof.
  intros Hin. split.
  - apply elem_of_addrs. rewrite <- located_fst. by apply (list_elem_of_fmap_2 fst) in Hin.
  - rewrite <- (located_snd h). by apply (list_elem_of_fmap_2 snd) in Hin.
Qed.

(** Allocating the node of [e] in front of a built list. *)
Lemma linked_push h m root mt nd (e : entry V) :
  linked h (m, root, mt) → n_next nd = None → n_prev nd = None →
  n_value nd = Some (value e) → n_id nd = id e →
  (if decide (is_call e)
   then ∃ b r, n_match nd = Some b ∧ (b, r) ∈ located h ∧ is_return r ∧ id r = id e
   else n_match nd = None) →
  ∃ m', insertBefore (size m) root (<[size m := nd]> m) = Some m' ∧
    (∀ a, is_Some (m' !! a) ↔ (a < List.length (e :: h))%nat) ∧
    size m' = List.length (e :: h) ∧
    seg m' None (addrs (List.length (e :: h))) None ∧
    ∀ a e', (a, e') ∈ located (e :: h) → holds (located (e :: h)) m' a e'.
Proof.
  intros [Hdom Hsz Hroot Hseg Hdata _ _] Hnn Hnp Hv Hi Hmt. simpl in *. rewrite Hsz.
  set (n := List.length h) in *. set (m1 := <[n := nd]> m).
  assert (m !! n = None) as Hfresh by (apply eq_None_not_Some; rewrite Hdom; lia).
  assert (n ∉ addrs n) as Hn by (rewrite elem_of_addrs; lia).
  destruct (insertBefore_spec m1 n nd (addrs n)) as (m' & Hins & Hd & Hseg');
    [by apply lookup_insert_eq|done..|by unfold m1; rewrite seg_frame|apply NoDup_addrs|].
  exists m'. rewrite Hroot. split; [done|]. split; [|split; [|split; [done|]]].
  - intros a. rewrite <- (same_data_is_Some m1 m' a Hd). unfold m1. rewrite lookup_insert.
    destruct (decide (n = a)) as [<-|]; [split; [intros; lia|eauto]|]. rewrite Hdom. lia.
  - rewrite <- (size_same_dom _ _ Hd). unfold m1. by rewrite map_size_insert_None, Hsz.
  - intros a e'. rewrite located_cons. intros [[= -> ->]|Hin]%elem_of_cons.
    + apply (holds_same_data _ m1); [done|]. exists nd. unfold m1. rewrite lookup_insert_eq.
      split_and!; try done. case_decide; [|done]. destruct Hmt as (b & r & ? & ? & ? & ?).
      exists b, r. split_and!; try done. by right.
    + apply (holds_same_data _ m1); [done|].
      apply (holds_weaken (located h)); [by intros ??; right|].
      destruct (elem_located _ _ _ Hin) as [Ha _].
      destruct (Hdata _ _ Hin) as (nd' & Hnd' & ?). exists nd'. unfold m1.
      rewrite lookup_insert_ne; [done|]. unfold n. lia.
Qed.

Lemma makeLinked_step_spec h s (e : entry V) :
  linked h s → (is_call e → ∃ r, r ∈ h ∧ is_return r ∧ id r = id e) →
  ∃ s', makeLinked_step e s = Some s' ∧ linked (e :: h) s'.
Proof.
  destruct s as [[m root] mt]. intros Hl Hcl. unfold makeLinked_step, alloc.
  pose proof (lk_match _ _ Hl) as Hmt. pose proof (lk_return _ _ Hl) as Hret.
  pose proof (lk_size _ _ Hl) as Hsz. simpl in *.
  destruct (call_or_return e) as [Hc|Hr].
  - assert (Bool.eqb (kind e) returnEntry = false) as -> by (by rewrite Hc).
    destruct (Hcl Hc) as (r & Hin & Hr & Hri). destruct (Hret r Hin Hr) as [b Hb].
    destruct (Hmt _ _ Hb) as (r' & Hin' & Hr' & Hri').
    edestruct (linked_push h m root mt) as (m' & Hins & H1 & H2 & H3 & H4); [done|..|].
    6: { rewrite Hins. simpl. eexists. split; [done|]. split; simpl; try done.
      - by rewrite Hsz.
      - intros i b' Hib. destruct (Hmt _ _ Hib) as (r2 & ? & ?). exists r2. split; [by right|done].
      - intros r2 [->|?]%elem_of_cons Hr2; [|by apply Hret]. exfalso. by eapply not_call_return. }
    all: try done. simpl. rewrite decide_True by done. rewrite Hri in Hb. exists b, r'.
    split_and!; congruence.
  - assert (Bool.eqb (kind e) returnEntry = true) as -> by (by rewrite Hr).
    edestruct (linked_push h m root mt) as (m' & Hins & H1 & H2 & H3 & H4); [done|..|].
    6: { rewrite Hins. simpl. eexists. split; [done|]. split; simpl; try done.
      - by rewrite Hsz.
      - intros i b'. rewrite lookup_insert. case_decide; [intros [= <-]|].
        + exists e. rewrite Hsz. split_and!; [left|done|done].
        + intros (r2 & ? & ?)%Hmt. exists r2. split; [by right|done].
      - intros r2 Hr2 Hrr. rewrite lookup_insert. case_decide as Hd; [eauto|].
        apply elem_of_cons in Hr2 as [->|?]; [done|by apply Hret]. }
    all: try done. rewrite decide_False; [done|]. intros ?. by eapply not_call_return.
Qed.

Lemma linked_nil : linked [] (∅, None, ∅).
Proof. split; simpl; try done; try set_solver. intros a. rewrite lookup_empty. split; [by intros []|lia]. Qed.

Lemma makeLinkedEntries_spec (h : list (entry V)) :
  closed_hist h →
  ∃ m, makeLinkedEntries h = Some (m, first (addrs (List.length h)) None) ∧
    size m = List.length h ∧ (∀ a, is_Some (m !! a) ↔ (a < List.length h)%nat) ∧
    seg m None (addrs (List.length h)) None ∧
    ∀ a e, (a, e) ∈ located h → holds (located h) m a e.
Proof.
  intros Hcl. assert (∃ s, makeLinked_loop h (∅, None, ∅) = Some s ∧ linked h s) as (s & Hs & Hl).
  { revert Hcl. induction h as [|e h IH]; intros Hcl; [eauto using linked_nil|].
    destruct IH as (s & Hs & Hl).
    { intros pre c suf ->. apply (Hcl (e :: pre)). done. }
    simpl. rewrite Hs. simpl. apply makeLinked_step_spec; [done|]. intros Hc. by apply (Hcl []). }
  destruct s as [[m root] mt]. exists m. destruct Hl; simpl in *. unfold makeLinkedEntries.
  rewrite Hs. simpl. by subst.
Qed.

(** [length] counts the nodes of a list. *)
Lemma length_loop_spec m p l n :
  seg m p l None → (List.length l ≤ n)%nat →
  ∀ k, length_loop n m (first l None) k = Some (k + zlen l).
Proof.
  revert p n. induction l as [|a l IH]; intros p n Hs Hn k; simpl in *.
  - destruct n; simpl; f_equal; unfold zlen; simpl; lia.
  - destruct n as [|n]; [lia|]. destruct Hs as [(nd & Ha & _ & Hnx) Hs]. simpl.
    unfold field. simpl. rewrite Ha. simpl. rewrite Hnx, (IH _ _ Hs) by lia.
    f_equal. rewrite zlen_cons. lia.
Qed.

End heap.
End NodeList.
