(* ===== verification/Checker.v ===== *)
(** Model of the linearizability search of porcupine/checker.go: [cacheContains]
    and [checkSingle], on the node heap of NodeList.v and the bitsets of Bitset.v. *)

From S2P Require Import Prelude GoStd Bitset PorcupineModel Linearize NodeList.

#[local] Open Scope Z_scope.
#[local] Open Scope go_scope.

Module Checker.
Export NodeList.

Section search.
Context {V St : Type}.
Context (model : Model V St).

Record cacheEntry := mkCacheEntry {
  ce_linearized : list Z;
  ce_state : St;
}.

Record callsEntry := mkCallsEntry {
  ca_entry : option loc;
  ca_state : St;
}.

(** The loop over one bucket of the cache. *)
Fixpoint cacheContains_loop (bucket : list cacheEntry) (entry : cacheEntry) : option bool :=
  match bucket with
  | [] => Some false
  | elem :: bucket =>
      if Bitset.equals (ce_linearized entry) (ce_linearized elem) then
        equal ← Equal model;
        if (equal (ce_state entry) (ce_state elem) : bool) then Some true
        else cacheContains_loop bucket entry
      else cacheContains_loop bucket entry
  end.

Definition cacheContains (cache : gmap Z (list cacheEntry)) (entry : cacheEntry) : option bool :=
  cacheContains_loop (default [] (cache !! Bitset.hash (ce_linearized entry))) entry.

(** The local variables of [checkSingle].  A [*[]int] is an index into
    [s_seqs], the slices built so far. *)
Record state := mkState {
  s_mem : gmap loc (node (V:=V));
  s_entry : option loc;
  s_state : St;
  s_linearized : list Z;
  s_cache : gmap Z (list cacheEntry);
  s_calls : list callsEntry;
  s_longest : list (option nat);
  s_seqs : list (list Z);
}.

Definition result : Type := bool * list (option nat) * list (list Z).

(** [seq[i] = v.entry.id] for each of [calls]. *)
Definition call_ids (m : gmap loc (node (V:=V))) (calls : list callsEntry) : option (list Z) :=
  mapM (λ v, field n_id (ca_entry v) m) calls.

(** The loop that updates [longest]; [seq] is built the first time it is needed. *)
Fixpoint longest_loop m (calls todo : list callsEntry) (longest : list (option nat))
    (seqs : list (list Z)) (seq : option (list Z)) :
    option (list (option nat) * option (list Z)) :=
  match todo with
  | [] => Some (longest, seq)
  | v :: todo =>
      i ← field n_id (ca_entry v) m;
      cur ← longest.[i];
      better ← match cur with
               | None => Some true
               | Some p => s ← (seqs ++ [default [] seq]) !! p; Some (zlen s <? zlen calls)
               end;
      if (better : bool) then
        seq ← match seq with None => call_ids m calls | Some s => Some s end;
        longest ← longest.[i <- Some (List.length seqs)];
        longest_loop m calls todo longest seqs (Some seq)
      else longest_loop m calls todo longest seqs seq
  end.

Definition update_longest (computePartial : bool) (s : state) :
    option (list (option nat) * list (list Z)) :=
  if computePartial then
    '(longest, seq) ←
      longest_loop (s_mem s) (s_calls s) (s_calls s) (s_longest s) (s_seqs s) None;
    Some (longest, s_seqs s ++ (if seq is Some q then [q] else []))
  else Some (s_longest s, s_seqs s).

(** What one iteration of the main loop does. *)
Inductive next :=
| Return (r : result)
| Continue (s : state).

(** [entry = entry.next] *)
Definition skip (s : state) : option next :=
  e ← field n_next (s_entry s) (s_mem s);
  Some (Continue (mkState (s_mem s) e (s_state s) (s_linearized s) (s_cache s) (s_calls s)
                          (s_longest s) (s_seqs s))).

(** The branch of a call entry: try to linearize it. *)
Definition try_call (headEntry : loc) (matching : option loc) (s : state) : option next :=
  let m := s_mem s in
  input ← field n_value (s_entry s) m; input ← input;
  output ← field n_value matching m; output ← output;
  '(ok, newState) ← Step model (s_state s) input output;
  if (ok : bool) then
    i ← field n_id (s_entry s) m;
    newLinearized ← Bitset.set (Bitset.clone (s_linearized s)) i;
    let newCacheEntry := mkCacheEntry newLinearized newState in
    found ← cacheContains (s_cache s) newCacheEntry;
    if negb found then
      let hash := Bitset.hash newLinearized in
      let cache := <[hash := default [] (s_cache s !! hash) ++ [newCacheEntry]]> (s_cache s) in
      let calls := s_calls s ++ [mkCallsEntry (s_entry s) (s_state s)] in
      linearized ← Bitset.set (s_linearized s) i;
      m ← lift (s_entry s) m;
      e ← field n_next (Some headEntry) m;
      Some (Continue (mkState m e newState linearized cache calls (s_longest s) (s_seqs s)))
    else skip s
  else skip s.

(** The branch of a return entry: give up on the last call. *)
Definition backtrack (computePartial : bool) (s : state) : option next :=
  if zlen (s_calls s) =? 0 then Some (Return (false, s_longest s, s_seqs s))
  else
    '(longest, seqs) ← update_longest computePartial s;
    callsTop ← (s_calls s).[zlen (s_calls s) - 1];
    let entry := ca_entry callsTop in
    i ← field n_id entry (s_mem s);
    linearized ← Bitset.clear (s_linearized s) i;
    calls ← (s_calls s).[: zlen (s_calls s) - 1];
    m ← unlift entry (s_mem s);
    e ← field n_next entry m;
    Some (Continue (mkState m e (ca_state callsTop) linearized (s_cache s) calls longest seqs)).

(** One iteration; [kill] is the value loaded from the kill flag. *)
Definition iterate (computePartial : bool) (headEntry : loc) (kill : Z) (s : state) : option next :=
  if negb (kill =? 0) then Some (Return (false, s_longest s, s_seqs s))
  else
    matching ← field n_match (s_entry s) (s_mem s);
    if (matching : option loc) is Some _ then try_call headEntry matching s
    else backtrack computePartial s.

(** After the loop: the complete linearization is recorded for every id. *)
Definition finish (s : state) : option result :=
  seq ← call_ids (s_mem s) (s_calls s);
  Some (true, (λ _, Some (List.length (s_seqs s))) <$> s_longest s, s_seqs s ++ [seq]).

(** The loop condition and one iteration: one step of the goroutine that runs
    [checkSingle]. *)
Definition body (computePartial : bool) (headEntry : loc) (kill : Z) (s : state) : option next :=
  next ← field n_next (Some headEntry) (s_mem s);
  if (next : option loc) is Some _ then iterate computePartial headEntry kill s
  else r ← finish s; Some (Return r).

(** [kill t] is the value of the flag that iteration [t] loads. *)
Fixpoint loop (fuel : nat) (computePartial : bool) (headEntry : loc) (kill : nat → Z)
    (s : state) : outcome result :=
  match fuel with
  | O => OutOfFuel
  | S fuel =>
      match body computePartial headEntry (kill O) s with
      | None => Panic
      | Some (Return r) => Ret r
      | Some (Continue s) => loop fuel computePartial headEntry (λ t, kill (S t)) s
      end
  end.

(** The initial state: the linked history behind a sentinel head. *)
Definition start (history : list (entry V)) : option (loc * state) :=
  '(m, entry) ← makeLinkedEntries history;
  len ← NodeList.length m entry;
  let n := Z.quot len 2 in
  let '(headEntry, m) := alloc m (mkNode None None (-1) None None) in
  m ← insertBefore headEntry entry m;
  Some (headEntry, mkState m entry (Init model) (Bitset.newBitset n) ∅ []
                           (replicate (Z.to_nat n) None) []).

Definition checkSingle (fuel : nat) (history : list (entry V)) (computePartial : bool)
    (kill : nat → Z) : outcome result :=
  match start history with
  | None => Panic
  | Some (headEntry, s) => loop fuel computePartial headEntry kill s
  end.

End search.

(** ** Fuel

    Each level of the search scans at most [2 * r] entries, [r] the operations
    not yet linearized, and each of them may open the level below once. *)
Fixpoint search_weight (r : nat) : nat :=
  match r with O => 1 | S r => 2 * r * search_weight r + 1 end.

(** Enough iterations for a history of [n] operations. *)
Definition search_fuel (n : nat) : nat := 2 * n * search_weight n + 1.

End Checker.
