(* ===== verification/CheckerProof.v ===== *)
(** Correctness of the search of Checker.v: it never panics, it terminates
    within [search_fuel], and it answers exactly whether the history is
    linearizable.  The recorded orders are partial linearizations. *)

From S2P Require Import Prelude GoStd Bitset PorcupineModel Linearize NodeList Checker.

#[local] Open Scope Z_scope.
#[local] Open Scope go_scope.

Module CheckerProof.
Export Checker.

(** What the checker needs of a history: ids are numbered from 0, each with a
    call followed by a return. *)
Record hist_ok {V} (h : list (entry V)) : Prop := {
  ho_wf : wf_hist h;
  ho_ids : ∀ e, e ∈ h → 0 <= id e ∧ 2 * id e + 1 < zlen h;
}.

(** What the checker needs of a model on a history: [Equal] is set and only
    identifies states with the same accepted continuations, and [Step] does not
    panic on the operations of the history. *)
Class ModelOk {V St} (model : Model V St) (h : list (entry V)) := {
  mo_equal : St → St → bool;
  mo_Equal : Equal model = Some mo_equal;
  mo_cong : ∀ s1 s2 v w s1', mo_equal s1 s2 = true → Step model s1 v w = Some (true, s1') →
    ∃ s2', Step model s2 v w = Some (true, s2') ∧ mo_equal s1' s2' = true;
  mo_total : ∀ s c r, c ∈ h → r ∈ h → is_call c → is_return r → id c = id r →
    is_Some (Step model s (value c) (value r));
}.

Section proof.
Context {V St : Type} (model : Model V St) (h : list (entry V)).
Context (Hok : hist_ok h) `{!ModelOk model h}.

Abbreviation mem := (gmap loc (node (V:=V))).
Abbreviation stp := (Step model).

Let Hwf : wf_hist h := ho_wf _ Hok.

Implicit Types (σ τ : list Z) (s : St) (m : mem) (e c r : entry V).

(** ** Facts about the scheduling relation *)

Lemma wf_rest σ : wf_hist (rest h σ).
Proof.
  revert σ. assert (∀ h' : list (entry V), wf_hist h' → ∀ σ, wf_hist (rest h' σ)) as H; [|by apply H].
  intros h' Hh' σ. revert h' Hh'. induction σ as [|i σ IH]; intros h' Hh'; [by rewrite rest_nil|].
  rewrite <- rest_cons. by apply IH, wf_remove.
Qed.

Lemma rest_snoc σ i : rest h (σ ++ [i]) = remove i (rest h σ).
Proof.
  unfold rest, remove. rewrite list_filter_filter. apply list_filter_iff.
  intros e. rewrite not_elem_of_app, list_elem_of_singleton. tauto.
Qed.

Lemma elem_of_rest σ e : e ∈ rest h σ ↔ e ∈ h ∧ id e ∉ σ.
Proof. unfold rest. rewrite list_elem_of_filter. tauto. Qed.

Lemma sched_inv (h' : list (entry V)) s i s1 c r :
  wf_hist h' → sched stp h' s i s1 →
  c ∈ h' → r ∈ h' → is_call c → is_return r → id c = i → id r = i →
  stp s (value c) (value r) = Some (true, s1).
Proof.
  intros Hwf' (pre & c' & suf & r' & -> & _ & Hc' & Hci & Hr' & Hrr & Hri & Hs) ? ? ? ? ? ?.
  assert (c' = c) as ->.
  { apply (call_unique (pre ++ c' :: suf)); try done; [set_solver|congruence]. }
  assert (r' = r) as ->; [|done].
  apply (return_unique (pre ++ c :: suf)); try done; [set_solver|congruence].
Qed.

Lemma sched_det (h' : list (entry V)) s i s1 s2 :
  wf_hist h' → sched stp h' s i s1 → sched stp h' s i s2 → s1 = s2.
Proof.
  intros Hwf' H1 H2. pose proof H2 as (pre & c & suf & r & -> & _ & Hc & Hci & Hr & Hrr & Hri & Hs).
  assert (stp s (value c) (value r) = Some (true, s1)) by (eapply sched_inv; eauto; set_solver).
  congruence.
Qed.

(** A path from related states. *)
Lemma schedulable_cong (h' : list (entry V)) s1 s2 :
  mo_equal s1 s2 = true → schedulable stp h' s1 → schedulable stp h' s2.
Proof.
  intros Heq (σ & s' & Hp). remember [] as h2 eqn:E. revert s2 Heq.
  induction Hp as [h' s|h' s i s3 σ h2 s' Hs _ IH]; intros s2 Heq; subst.
  - exists [], s2. constructor.
  - destruct Hs as (pre & c & suf & r & -> & ? & ? & ? & ? & ? & ? & Hs).
    destruct (mo_cong _ _ _ _ _ Heq Hs) as (s4 & Hs4 & Heq4).
    destruct (IH eq_refl s4 Heq4) as (σ2 & s5 & Hp2).
    exists (i :: σ2), s5. econstructor; [|done]. exists pre, c, suf, r. eauto 10.
Qed.

(** Each operation has exactly two entries. *)
Lemma length_remove (h' : list (entry V)) i :
  wf_hist h' → (∃ e, e ∈ h' ∧ id e = i) → List.length h' = (List.length (remove i h') + 2)%nat.
Proof.
  intros Hwf' (e & He & <-).
  destruct (wf_pair _ Hwf' e He) as (c & r & Hc & Hr & Hci & Hri & Hb).
  destruct (before_elem _ _ _ Hb) as [Hcin Hrin].
  unfold remove. rewrite <- (length_app (filter _ h') [c; r]) at 1.
  transitivity (List.length (filter (λ x, id x ≠ id e) h' ++ filter (λ x, ¬ id x ≠ id e) h')).
  { by rewrite filter_app_complement. }
  rewrite !length_app. f_equal. apply Permutation_length, NoDup_Permutation.
  - by apply NoDup_filter, wf_NoDup.
  - rewrite NoDup_cons, list_elem_of_singleton. split; [|apply NoDup_singleton].
    intros ->. by eapply not_call_return.
  - intros x. rewrite list_elem_of_filter, !elem_of_cons. split.
    + intros [Hx Hxin]. destruct (decide (id x = id e)) as [Hxe|]; [|done].
      destruct (call_or_return x); [left|right; left].
      * apply (call_unique h'); congruence.
      * apply (return_unique h'); congruence.
    + intros [->|[->|[]%elem_of_nil]]; (split; [congruence|done]).
Qed.

Lemma rest_snoc_length σ i :
  (∃ e, e ∈ rest h σ ∧ id e = i) → List.length (rest h σ) = (List.length (rest h (σ ++ [i])) + 2)%nat.
Proof. intros. rewrite rest_snoc. apply length_remove; [apply wf_rest|done]. Qed.
End proof.

Lemma wf_even {V} (h : list (entry V)) : wf_hist h → ∃ n, List.length h = (2 * n)%nat.
Proof.
  remember (List.length h) as k eqn:Hk. revert h Hk. induction (lt_wf k) as [k _ IH]. intros h -> Hwf.
  destruct h as [|e h]; [by exists 0%nat|].
  assert (List.length (e :: h) = (List.length (remove (id e) (e :: h)) + 2)%nat) as Hl.
  { apply length_remove; [done|]. exists e. split; [left|done]. }
  destruct (IH (List.length (remove (id e) (e :: h)))) with (h := remove (id e) (e :: h)) as [n Hn];
    [lia|done|by apply wf_remove|]. exists (S n). lia.
Qed.

(** ** The search stack *)

Section search_proof.
Context {V St : Type} (model : Model V St) (h : list (entry V)).
Context (Hok : hist_ok h) `{!ModelOk model h}.

Abbreviation mem := (gmap loc (node (V:=V))).
Abbreviation stp := (Step model).

Implicit Types (σ τ : list Z) (s : St) (m : mem) (e c r : entry V).
Implicit Types (pre suf : list (loc * entry V)).

Let Hwf : wf_hist h := ho_wf _ Hok.

(** The nodes still in the list once [σ] has been lifted. *)
Definition left σ : list (loc * entry V) := filter (λ x, id x.2 ∉ σ) (located h).

Lemma left_snd σ : (left σ).*2 = rest h σ.
Proof.
  unfold left, rest. rewrite <- (located_snd h) at 2.
  by rewrite (list_filter_fmap snd (λ e, id e ∉ σ)).
Qed.

Lemma left_fst_NoDup σ : NoDup (left σ).*1.
Proof.
  eapply sublist_NoDup; [apply (NoDup_addrs (List.length h))|]. rewrite <- located_fst.
  unfold left. generalize (located h). clear. intros l. induction l as [|x l IH]; [done|].
  rewrite filter_cons. case_decide; simpl; by constructor.
Qed.

(** The address of the sentinel head. *)
Definition headEntry : loc := List.length h.

(** [x] cannot be scheduled on the way to a linearization. *)
Definition dead σ s e : Prop :=
  ∀ s', sched stp (rest h σ) s (id e) s' → ¬ schedulable stp (rest h (σ ++ [id e])) s'.

(** Iterations that one entry at the level of [σ] may cost. *)
Definition weight σ : nat := search_weight (List.length (rest h σ) / 2).

Context (m0 : mem).
Context (Hm0_seg : seg m0 None (headEntry :: (located h).*1) None).
Context (Hm0_data : ∀ a e, (a, e) ∈ located h → holds (located h) m0 a e).

(** [stack calls σ s m mu opens]: the calls made so far lifted the operations
    [σ] and led to the state [s] and heap [m]; everything tried before a call
    on its level is dead; [mu] bounds the iterations the suspended levels may
    still take, [opens] lists the configurations entered and not left. *)
Inductive stack : list (callsEntry (St:=St)) → list Z → St → mem → nat →
    list (list Z * St) → Prop :=
| stack_nil : stack [] [] (Init model) m0 0 []
| stack_push calls σ s m mu opens pre x e suf s' m' :
    stack calls σ s m mu opens →
    left σ = pre ++ (x, e) :: suf → Forall is_call pre.*2 → is_call e →
    Forall (dead σ s) pre.*2 →
    sched stp (rest h σ) s (id e) s' →
    lift (Some x) m = Some m' →
    stack (calls ++ [mkCallsEntry (Some x) s]) (σ ++ [id e]) s' m'
          (mu + List.length suf * weight σ) ((σ ++ [id e], s') :: opens).

(** The node of a call still in the list, and of its return. *)
Lemma call_node σ m pre x e suf :
  same_data m0 m → left σ = pre ++ (x, e) :: suf → Forall is_call pre.*2 → is_call e →
  ∃ nd b r mid suf', m !! x = Some nd ∧ n_id nd = id e ∧ n_value nd = Some (value e) ∧
    n_match nd = Some b ∧ suf = mid ++ (b, r) :: suf' ∧ is_return r ∧ id r = id e ∧
    e ∈ h ∧ r ∈ h.
Proof.
  intros Hd Hl Hpre Hc. assert ((x, e) ∈ left σ) as Hin by (rewrite Hl; set_solver).
  unfold left in Hin. apply list_elem_of_filter in Hin as [Hs Hin]. simpl in Hs.
  destruct (holds_same_data _ _ _ _ _ Hd (Hm0_data _ _ Hin)) as (nd & Hx & Hv & Hi & Hma).
  rewrite decide_True in Hma by done. destruct Hma as (b & r & Hb & Hbin & Hr & Hri).
  assert ((b, r) ∈ left σ) as Hbl.
  { apply list_elem_of_filter. simpl. split; [congruence|done]. }
  rewrite Hl in Hbl. apply elem_of_app in Hbl as [Hbl|Hbl].
  { exfalso. apply (list_elem_of_fmap_2 snd) in Hbl. simpl in Hbl.
    rewrite Forall_forall in Hpre. eapply not_call_return; [by apply Hpre|done]. }
  apply elem_of_cons in Hbl as [[= -> ->]|Hbl]; [exfalso; by eapply not_call_return|].
  apply list_elem_of_split in Hbl as (mid & suf' & ->).
  exists nd, b, r, mid, suf'. split_and!; try done.
  - by apply elem_located in Hin as [].
  - by apply elem_located in Hbin as [].
Qed.

(** Linearizing [e] takes its call and its return out of the list. *)
Lemma left_snoc σ pre x e mid b r suf :
  left σ = pre ++ (x, e) :: mid ++ (b, r) :: suf → is_call e → e ∈ h → r ∈ h → is_return r → id r = id e →
  left (σ ++ [id e]) = pre ++ mid ++ suf.
Proof.
  intros Hl Hc He Hrh Hr Hri.
  transitivity (filter (λ x, id x.2 ≠ id e) (left σ)).
  { unfold left. rewrite list_filter_filter. apply list_filter_iff. intros y.
    rewrite not_elem_of_app, list_elem_of_singleton. tauto. }
  pose proof (wf_NoDup _ (wf_rest h Hok σ)) as Hnd. rewrite <- left_snd, Hl in Hnd.
  assert (∀ y, y ∈ pre ++ mid ++ suf → id y.2 ≠ id e) as Hne.
  { intros y Hy Hye. rewrite !fmap_app, !fmap_cons, !fmap_app, !fmap_cons in Hnd. simpl in Hnd.
    assert (y.2 ∈ h) as Hyh.
    { apply (elem_of_rest h σ). rewrite <- left_snd, Hl. apply (list_elem_of_fmap_2 snd). set_solver. }
    assert (y.2 = e ∨ y.2 = r) as Hyer.
    { destruct (call_or_return y.2); [by left; apply (call_unique h)|].
      right. apply (return_unique h); congruence. }
    assert (y.2 ∈ pre.*2 ++ mid.*2 ++ suf.*2) as Hy2.
    { rewrite <- !fmap_app. by apply (list_elem_of_fmap_2 snd). }
    replace (pre.*2 ++ e :: mid.*2 ++ r :: suf.*2)
      with ((pre.*2 ++ [e] ++ mid.*2) ++ r :: suf.*2) in Hnd by (by rewrite <- !app_assoc).
    rewrite <- Permutation_middle, <- app_assoc in Hnd. simpl in Hnd.
    rewrite <- Permutation_middle in Hnd.
    apply NoDup_cons in Hnd as [Hr' Hnd]. apply NoDup_cons in Hnd as [He' _].
    destruct Hyer as [E|E]; rewrite E in Hy2; [by apply He'|apply Hr'; by right]. }
  rewrite Hl, !filter_app, filter_cons_False, filter_app, filter_cons_False by (simpl; congruence).
  f_equal; [|f_equal]; apply list_filter_all; intros y Hy; apply Hne; set_solver.
Qed.

(** Lifting the call at [x]: the heap for [σ ++ [id e]], and the way back. *)
Lemma lift_left σ m pre x e suf :
  same_data m0 m → seg m None (headEntry :: (left σ).*1) None →
  left σ = pre ++ (x, e) :: suf → Forall is_call pre.*2 → is_call e →
  ∃ m', lift (Some x) m = Some m' ∧ unlift (Some x) m' = Some m ∧ same_data m m' ∧
    seg m' None (headEntry :: (left (σ ++ [id e])).*1) None ∧
    field n_id (Some x) m' = Some (id e).
Proof.
  intros Hd Hs Hl Hpre Hc.
  destruct (call_node σ m pre x e suf) as (nd & b & r & mid & suf' & Hx & Hi & _ & Hb & -> & Hr & Hri & He & Hrh);
    try done.
  pose proof (left_snoc _ _ _ _ _ _ _ _ Hl Hc He Hrh Hr Hri) as Hl'.
  rewrite Hl in Hs. rewrite fmap_app, fmap_cons, fmap_app, fmap_cons in Hs. simpl in Hs.
  assert (NoDup (headEntry :: pre.*1 ++ x :: mid.*1 ++ b :: suf'.*1)) as Hnd.
  { pose proof (left_fst_NoDup σ) as Hnd. rewrite Hl, fmap_app, fmap_cons, fmap_app, fmap_cons in Hnd.
    simpl in Hnd. apply NoDup_cons. split; [|done]. intros Hin.
    assert (headEntry ∈ (located h).*1) as Hh.
    { assert (headEntry ∈ (left σ).*1) as Hh by (by rewrite Hl, fmap_app, fmap_cons, fmap_app, fmap_cons).
      apply list_elem_of_fmap in Hh as (y & -> & Hy). apply (list_elem_of_fmap_2 fst).
      by apply list_elem_of_filter in Hy as []. }
    rewrite located_fst, elem_of_addrs in Hh. unfold headEntry in Hh. lia. }
  destruct (exists_last (l := headEntry :: pre.*1)) as (k1 & pp & Hk); [done|].
  assert (∀ t, headEntry :: pre.*1 ++ t = k1 ++ pp :: t) as Hkt.
  { intros t. change (headEntry :: pre.*1 ++ t) with ((headEntry :: pre.*1) ++ t).
    by rewrite Hk, <- app_assoc. }
  change (seg m None (headEntry :: pre.*1 ++ x :: mid.*1 ++ b :: suf'.*1) None) in Hs.
  rewrite Hkt in Hs, Hnd.
  destruct (lift_spec m k1 pp x mid.*1 b suf'.*1 nd) as (m' & Hlift & Hun & Hd' & Hx' & Hs'); try done.
  exists m'. split_and!; try done.
  - by rewrite Hl', !fmap_app, Hkt.
  - unfold field. simpl. rewrite Hx', Hx. simpl. by rewrite Hi.
Qed.

Lemma stack_seg calls σ s m mu opens :
  stack calls σ s m mu opens →
  same_data m0 m ∧ seg m None (headEntry :: (left σ).*1) None.
Proof.
  induction 1 as [|calls σ s m mu opens pre x e suf s' m' _ [Hd Hs] Hl Hpre Hc _ _ Hlift].
  - split; [done|]. replace (left []) with (located h); [done|].
    unfold left. symmetry. apply list_filter_all. intros. apply not_elem_of_nil.
  - destruct (lift_left σ m pre x e suf) as (m2 & Hlift2 & _ & Hd2 & Hs2 & _); try done.
    assert (m2 = m') as -> by congruence. split; [by etrans|done].
Qed.

Lemma stack_path calls σ s m mu opens :
  stack calls σ s m mu opens → path stp h (Init model) σ (rest h σ) s.
Proof.
  induction 1 as [|calls σ s m mu opens pre x e suf s' m' _ IH Hl Hpre Hc _ Hs Hlift].
  - rewrite rest_nil. constructor.
  - rewrite rest_snoc. by eapply path_snoc.
Qed.

Lemma stack_partial calls σ s m mu opens :
  stack calls σ s m mu opens → partial_linearization stp h (Init model) σ s.
Proof. intros Hst%stack_path. by apply path_partial in Hst as []. Qed.

(** The ids read off the calls are the lifted operations. *)
Lemma stack_ids calls σ s m mu opens :
  stack calls σ s m mu opens → call_ids m calls = Some σ.
Proof.
  intros Hst. destruct (stack_seg _ _ _ _ _ _ Hst) as [Hd _]. revert Hd.
  assert (Forall2 (λ ca i, ∃ x e, ca_entry ca = Some x ∧ (x, e) ∈ located h ∧ id e = i) calls σ) as H2.
  { induction Hst as [|calls σ s m mu opens pre x e suf s' m' _ IH Hl _ _ _ _ _]; [done|].
    apply Forall2_app; [done|]. apply Forall2_cons. split; [|done].
    exists x, e. split_and!; try done.
    assert ((x, e) ∈ left σ) as Hin by (rewrite Hl; set_solver).
    by apply list_elem_of_filter in Hin as []. }
  intros Hd. apply mapM_Some_2. eapply Forall2_impl; [exact H2|].
  intros ca i (x & e & Hx & Hin & <-). rewrite Hx.
  destruct (holds_same_data _ _ _ _ _ Hd (Hm0_data _ _ Hin)) as (nd & Hm & _ & Hi & _).
  unfold field. simpl. rewrite Hm. simpl. by rewrite Hi.
Qed.

Lemma stack_opens calls σ s m mu opens τ s' :
  stack calls σ s m mu opens → (τ, s') ∈ opens →
  NoDup τ ∧ (List.length τ <= List.length σ)%nat.
Proof.
  induction 1 as [|calls σ s m mu opens pre x e suf s2 m' Hst IH Hl Hpre Hc Hdd Hs Hlift];
    [by intros ?%elem_of_nil|].
  intros [[= -> ->]|Hin]%elem_of_cons.
  - split; [|done]. eapply pl_nodup, stack_partial. by econstructor.
  - destruct (IH Hin) as [? ?]. split; [done|]. rewrite length_app. lia.
Qed.

Lemma stack_calls calls σ s m mu opens :
  stack calls σ s m mu opens → List.length calls = List.length σ.
Proof. intros H%stack_ids. symmetry. by eapply length_mapM in H. Qed.

(** ** The cache *)

Definition rest_set (D : gset Z) : list (entry V) := filter (λ e, id e ∉ D) h.

Lemma rest_set_list σ : rest_set (list_to_set σ) = rest h σ.
Proof. apply list_filter_iff. intros e. by rewrite elem_of_list_to_set. Qed.

Definition nops : Z := Z.quot (zlen h) 2.

Definition bit_ok (b : list Z) : Prop :=
  Bitset.wf b ∧ Bitset.cap b = Bitset.cap (Bitset.newBitset nops).

Lemma ids_nops e : e ∈ h → 0 <= id e < nops.
Proof.
  intros He. destruct (ho_ids _ Hok e He). unfold nops.
  rewrite Z.quot_div_nonneg by lia. pose proof (Z.div_mod (zlen h) 2 ltac:(lia)).
  pose proof (Z.mod_pos_bound (zlen h) 2 ltac:(lia)). lia.
Qed.

Lemma id_cap e b : e ∈ h → bit_ok b → 0 <= id e < Bitset.cap b.
Proof.
  intros He [_ ->]. pose proof (ids_nops e He).
  destruct (Bitset.newBitset_spec nops) as (_ & ? & _); lia.
Qed.

(** A cached configuration has been explored without success, or is still open. *)
Definition cache_ok (cache : gmap Z (list (cacheEntry (St:=St)))) (opens : list (list Z * St)) : Prop :=
  ∀ k bucket ce, cache !! k = Some bucket → ce ∈ bucket →
    bit_ok (ce_linearized ce) ∧
    (¬ schedulable stp (rest_set (Bitset.denote (ce_linearized ce))) (ce_state ce) ∨
     ∃ τ, (τ, ce_state ce) ∈ opens ∧ Bitset.denote (ce_linearized ce) = list_to_set τ).

Lemma cacheContains_loop_spec bucket ce :
  ∃ b, cacheContains_loop model bucket ce = Some b ∧
    (b = true → ∃ ce', ce' ∈ bucket ∧ ce_linearized ce' = ce_linearized ce ∧
                       mo_equal (ce_state ce) (ce_state ce') = true).
Proof.
  induction bucket as [|ce' bucket (b & Hb & Hspec)]; simpl; [by exists false|].
  assert (b = true → ∃ ce2, ce2 ∈ ce' :: bucket ∧ ce_linearized ce2 = ce_linearized ce ∧
              mo_equal (ce_state ce) (ce_state ce2) = true) as Hspec'.
  { intros (ce2 & ? & ?)%Hspec. exists ce2. split; [by right|done]. }
  destruct (Bitset.equals _ _) eqn:E; [|eauto]. rewrite mo_Equal. simpl.
  destruct (mo_equal (ce_state ce) (ce_state ce')) eqn:E2; [|eauto].
  exists true. split; [done|]. intros _. apply Bitset.equals_spec in E.
  exists ce'. split; [left|done].
Qed.

Lemma cacheContains_spec cache opens b s σ calls st m mu :
  cache_ok cache opens → stack calls σ st m mu opens →
  bit_ok b → ∀ i, i ∉ σ → Bitset.denote b = list_to_set (σ ++ [i]) →
  ∃ found, cacheContains model cache (mkCacheEntry b s) = Some found ∧
    (found = true → ¬ schedulable stp (rest h (σ ++ [i])) s).
Proof.
  intros Hcache Hst Hb i Hi Hden. unfold cacheContains. simpl.
  destruct (cacheContains_loop_spec (default [] (cache !! Bitset.hash b)) (mkCacheEntry b s))
    as (found & Hf & Hspec). exists found. split; [done|]. intros ->.
  destruct (Hspec eq_refl) as (ce & Hin & Hlin & Heq). simpl in *.
  destruct (cache !! Bitset.hash b) as [bucket|] eqn:Hbk; simpl in Hin; [|by apply elem_of_nil in Hin].
  destruct (Hcache _ _ _ Hbk Hin) as [_ [Hno|(τ & Hop & Hτ)]]; rewrite Hlin in *.
  - rewrite Hden, rest_set_list in Hno. intros Hs. apply Hno.
    by eapply (schedulable_cong model h).
  - exfalso. destruct (stack_opens _ _ _ _ _ _ _ _ Hst Hop) as [Hnd Hlen].
    assert (size (list_to_set (C := gset Z) τ) = size (list_to_set (C := gset Z) (σ ++ [i])))
      as Hsz by congruence.
    rewrite !size_list_to_set, length_app in Hsz; simpl in *; [lia| |done].
    apply NoDup_app. split_and!.
    + eapply pl_nodup, stack_partial; eauto.
    + intros y Hy ->%list_elem_of_singleton. done.
    + apply NoDup_singleton.
Qed.

(** ** The recorded partial linearizations *)

Definition good (seq : list Z) (i : Z) : Prop :=
  i ∈ seq ∧ ∃ s', partial_linearization stp h (Init model) seq s'.

Definition longest_ok (longest : list (option nat)) (seqs : list (list Z)) : Prop :=
  zlen longest = nops ∧
  ∀ i p, longest !! i = Some (Some p) → ∃ seq, seqs !! p = Some seq ∧ good seq (Z.of_nat i).

Lemma longest_ok_app longest seqs k : longest_ok longest seqs → longest_ok longest (seqs ++ k).
Proof.
  intros [Hn Hl]. split; [done|]. intros i p Hp. destruct (Hl _ _ Hp) as (seq & ? & ?).
  exists seq. split; [by apply lookup_app_l_Some|done].
Qed.

Definition opt_seq (seq : option (list Z)) : list (list Z) := if seq is Some q then [q] else [].

Lemma longest_ok_insert longest longest' seqs σ i :
  longest_ok longest (seqs ++ [σ]) → zupdate longest i (Some (List.length seqs)) = Some longest' →
  good σ i → longest_ok longest' (seqs ++ [σ]).
Proof.
  intros [Hn Hl] Hu Hg. split; [by rewrite (zlen_zupdate _ _ _ _ Hu)|].
  intros j p Hj. apply zupdate_Some in Hu as [Hi ->].
  apply list_lookup_insert_Some in Hj as [(<- & [= <-] & _)|[_ Hj]]; [|by apply Hl].
  exists σ. rewrite Z2Nat.id by lia. split; [|done]. by apply list_lookup_middle.
Qed.

Lemma longest_loop_spec m (calls todo : list (callsEntry (St:=St))) σ τ longest seqs seq :
  call_ids m calls = Some σ → call_ids m todo = Some τ →
  (∀ i, i ∈ τ → good σ i ∧ 0 <= i < nops) →
  seq = None ∨ seq = Some σ → longest_ok longest (seqs ++ opt_seq seq) →
  ∃ longest' seq', longest_loop m calls todo longest seqs seq = Some (longest', seq') ∧
    longest_ok longest' (seqs ++ opt_seq seq').
Proof.
  intros Hcalls. revert τ longest seq.
  induction todo as [|v todo IH]; intros τ longest seq Hτ Hgood Hseq Hl; simpl; [eauto|].
  apply mapM_Some_1, Forall2_cons_inv_l in Hτ as (i & τ' & Hi & Hτ & ->).
  apply mapM_Some_2 in Hτ. rewrite Hi. simpl. destruct (Hgood i) as [Hgi Hr]; [left|].
  pose proof Hl as [Hn Hlk]. destruct (proj2 (zlookup_is_Some longest i)) as [cur Hcur]; [lia|].
  rewrite Hcur. simpl.
  assert (∃ b, match cur with
               | None => Some true
               | Some p => s ← (seqs ++ [default [] seq]) !! p; Some (zlen s <? zlen calls)
               end = Some b) as [b Hb].
  { destruct cur as [p|]; [|eauto]. rewrite zlookup_pos in Hcur by lia.
    destruct (Hlk _ _ Hcur) as (q & Hq & _).
    assert (is_Some ((seqs ++ [default [] seq]) !! p)) as [q' Hq'].
    { apply lookup_lt_is_Some. apply lookup_lt_Some in Hq.
      rewrite length_app in *. destruct seq; simpl in *; lia. }
    rewrite Hq'. simpl. eauto. }
  rewrite Hb. simpl. destruct b.
  - assert (match seq with None => call_ids m calls | Some s => Some s end = Some σ) as ->
      by (destruct Hseq; subst; done). simpl.
    assert (zupdate longest i (Some (List.length seqs))
            = Some (<[Z.to_nat i := Some (List.length seqs)]> longest)) as Hu
      by (apply zupdate_Some; split; [lia|done]).
    rewrite Hu. simpl.
    apply (IH τ'); [done|intros; apply Hgood; by right|by right|].
    eapply longest_ok_insert; [|done|done].
    destruct Hseq as [-> | ->]; [|done]. simpl in Hl. rewrite app_nil_r in Hl.
    by apply longest_ok_app.
  - apply (IH τ'); [done|intros; apply Hgood; by right|done|done].
Qed.
(** ** The search invariant

    The level of [σ] has tried the calls [pre] without success and looks at
    the first entry of [suf]. *)
Record inv (sd : state (V:=V) (St:=St)) σ pre suf (mu : nat) (opens : list (list Z * St)) : Prop := {
  inv_stack : stack (s_calls sd) σ (s_state sd) (s_mem sd) mu opens;
  inv_left : left σ = pre ++ suf;
  inv_entry : s_entry sd = first suf.*1 None;
  inv_calls : Forall is_call pre.*2;
  inv_dead : Forall (dead σ (s_state sd)) pre.*2;
  inv_bits : bit_ok (s_linearized sd) ∧ Bitset.denote (s_linearized sd) = list_to_set σ;
  inv_cache : cache_ok (s_cache sd) opens;
  inv_longest : longest_ok (s_longest sd) (s_seqs sd);
}.

Definition measure σ suf mu : nat := mu + List.length suf * weight σ.

Lemma weight_pos σ : (1 <= weight σ)%nat.
Proof. unfold weight. destruct (_ / 2)%nat; simpl; lia. Qed.

(** The last entry of a level is a return. *)
Lemma left_call_nonlast σ sd pre x e suf mu opens :
  inv sd σ pre ((x, e) :: suf) mu opens → is_call e → suf ≠ [].
Proof.
  intros Hi Hc ->. destruct (stack_seg _ _ _ _ _ _ (inv_stack _ _ _ _ _ _ Hi)) as [Hd _].
  destruct (call_node σ (s_mem sd) pre x e []) as (? & b & r & mid & suf' & _ & _ & _ & _ & Heq & _);
    [done|apply Hi|apply Hi|done|]. by destruct mid.
Qed.

(** [entry.next] at the cursor. *)
Lemma cursor_next σ sd pre x e suf mu opens :
  inv sd σ pre ((x, e) :: suf) mu opens →
  field n_next (Some x) (s_mem sd) = Some (first suf.*1 None).
Proof.
  intros Hi. destruct (stack_seg _ _ _ _ _ _ (inv_stack _ _ _ _ _ _ Hi)) as [_ Hs].
  rewrite (inv_left _ _ _ _ _ _ Hi), fmap_app, fmap_cons in Hs.
  destruct (seg_lookup (s_mem sd) None (headEntry :: pre.*1) x suf.*1 None) as (nd & Hx & _ & Hn);
    [done|]. by rewrite (field_Some n_next _ _ _ Hx), Hn.
Qed.

Lemma skip_spec sd σ pre x e suf mu opens :
  inv sd σ pre ((x, e) :: suf) mu opens → is_call e → dead σ (s_state sd) e →
  ∃ sd', skip sd = Some (Continue sd') ∧ inv sd' σ (pre ++ [(x, e)]) suf mu opens.
Proof.
  intros Hi Hc Hdd. pose proof (cursor_next _ _ _ _ _ _ _ _ Hi) as Hn. destruct Hi.
  unfold skip. rewrite inv_entry0. simpl. rewrite Hn. simpl. eexists. split; [done|].
  split; simpl; try done.
  - by rewrite <- app_assoc.
  - rewrite fmap_app. apply Forall_app. by split; [|apply Forall_singleton].
  - rewrite fmap_app. apply Forall_app. by split; [|apply Forall_singleton].
Qed.

Lemma sched_at σ s pre x e suf s1 b r :
  left σ = pre ++ (x, e) :: suf → Forall is_call pre.*2 → is_call e →
  (b, r) ∈ suf → is_return r → id r = id e →
  stp s (value e) (value r) = Some (true, s1) → sched stp (rest h σ) s (id e) s1.
Proof.
  intros Hl Hp Hc Hin Hr Hid Hs. exists pre.*2, e, suf.*2, r. split_and!; try done.
  - by rewrite <- left_snd, Hl, fmap_app, fmap_cons.
  - by apply (list_elem_of_fmap_2 snd) in Hin.
Qed.

(** A call whose step is rejected is dead. *)
Lemma dead_step σ s e r s1 :
  e ∈ rest h σ → r ∈ rest h σ → is_call e → is_return r → id r = id e →
  stp s (value e) (value r) = Some (false, s1) → dead σ s e.
Proof.
  intros He Hr Hc Hrr Hid Hs s' Hs' _.
  assert (stp s (value e) (value r) = Some (true, s')); [|congruence].
  by eapply (sched_inv model h Hok (rest h σ)); [apply (wf_rest _ Hok)|..].
Qed.

Lemma cache_ok_push cache opens k ce τ :
  cache_ok cache opens → bit_ok (ce_linearized ce) →
  Bitset.denote (ce_linearized ce) = list_to_set τ →
  cache_ok (<[k := default [] (cache !! k) ++ [ce]]> cache) ((τ, ce_state ce) :: opens).
Proof.
  intros Hc Hb Hτ k' bucket ce' Hk Hin. rewrite lookup_insert in Hk.
  assert (ce' = ce ∨ ∃ bucket', cache !! k' = Some bucket' ∧ ce' ∈ bucket') as [->|(b' & Hk' & Hin')].
  { destruct (decide (k = k')) as [<-|]; [|by eauto]. simplify_eq.
    apply elem_of_app in Hin as [Hin|Hin%list_elem_of_singleton]; [|by left].
    destruct (cache !! k) as [b'|]; simpl in Hin; [by eauto|by apply elem_of_nil in Hin]. }
  - split; [done|]. right. exists τ. split; [left|done].
  - destruct (Hc _ _ _ Hk' Hin') as [? [?|(τ' & ? & ?)]]; (split; [done|]); [by left|].
    right. exists τ'. split; [by right|done].
Qed.

Lemma cache_ok_pop cache opens τ s :
  cache_ok cache ((τ, s) :: opens) → ¬ schedulable stp (rest h τ) s → cache_ok cache opens.
Proof.
  intros Hc Hno k bucket ce Hk Hin. destruct (Hc _ _ _ Hk Hin) as [Hb Hor]. split; [done|].
  destruct Hor as [?|(τ' & Hin' & Hτ)]; [by left|].
  apply elem_of_cons in Hin' as [[= -> Hs]|?]; [left|right; by exists τ'].
  rewrite Hτ, rest_set_list, Hs. done.
Qed.

(** The nodes of a call at the cursor and of its return. *)
Lemma call_at_cursor sd σ pre x e suf mu opens matching :
  inv sd σ pre ((x, e) :: suf) mu opens → is_call e →
  field n_match (Some x) (s_mem sd) = Some matching →
  ∃ nd b ndb r, matching = Some b ∧ s_mem sd !! x = Some nd ∧ n_id nd = id e ∧ n_value nd = Some (value e) ∧
    s_mem sd !! b = Some ndb ∧ n_value ndb = Some (value r) ∧ (b, r) ∈ suf ∧
    is_return r ∧ id r = id e ∧ e ∈ h ∧ r ∈ h ∧ e ∈ rest h σ ∧ r ∈ rest h σ.
Proof.
  intros Hi Hc Hmt. destruct (stack_seg _ _ _ _ _ _ (inv_stack _ _ _ _ _ _ Hi)) as [Hd Hseg].
  pose proof (inv_left _ _ _ _ _ _ Hi) as Hl.
  destruct (call_node σ (s_mem sd) pre x e suf) as
    (nd & b & r & mid & suf2 & Hx & Hid & Hv & Hma & Hsuf & Hr & Hri & He & Hrh);
    [done|done|apply Hi|done|].
  assert (∀ y g, (y, g) ∈ left σ → holds (located h) m0 y g ∧ g ∈ rest h σ) as Hleft.
  { intros y g Hin. split; [apply Hm0_data; by apply list_elem_of_filter in Hin as []|].
    rewrite <- left_snd. by apply (list_elem_of_fmap_2 snd) in Hin. }
  assert ((b, r) ∈ suf) as Hbs by (rewrite Hsuf; apply elem_of_app; right; left).
  destruct (Hleft x e) as [_ Her]; [rewrite Hl; apply elem_of_app; right; left|].
  destruct (Hleft b r) as [Hbr Hrr]; [rewrite Hl; apply elem_of_app; right; by right|].
  destruct (holds_same_data _ _ _ _ _ Hd Hbr) as (ndb & Hb & Hvb & _).
  exists nd, b, ndb, r. rewrite (field_Some n_match _ _ _ Hx) in Hmt. split_and!; try done. congruence.
Qed.

Lemma weight_push σ e :
  e ∈ rest h σ →
  (List.length (left (σ ++ [id e])) * weight (σ ++ [id e]) < weight σ)%nat.
Proof.
  intros He. assert (List.length (left (σ ++ [id e])) = List.length (rest h (σ ++ [id e]))) as ->.
  { by rewrite <- left_snd, length_fmap. }
  unfold weight. rewrite (rest_snoc_length h Hok σ (id e)) by eauto.
  destruct (wf_even (rest h (σ ++ [id e]))) as [n ->]; [by apply (wf_rest _ Hok)|].
  replace (2 * n + 2)%nat with (S n * 2)%nat by lia. rewrite (Nat.mul_comm 2 n), !Nat.div_mul by done.
  simpl. lia.
Qed.
(** The branch of a call: the call is pushed, or it is dead. *)
Lemma try_call_spec sd σ pre x e suf mu opens matching :
  inv sd σ pre ((x, e) :: suf) mu opens → is_call e →
  field n_match (Some x) (s_mem sd) = Some matching →
  ∃ sd' σ' pre' suf' mu' opens', try_call model headEntry matching sd = Some (Continue sd') ∧
    inv sd' σ' pre' suf' mu' opens' ∧ (suf' ≠ [] ∨ left σ' = []) ∧
    (measure σ' suf' mu' < measure σ ((x, e) :: suf) mu)%nat.
Proof.
  intros Hi Hc Hmt. destruct (stack_seg _ _ _ _ _ _ (inv_stack _ _ _ _ _ _ Hi)) as [Hd Hseg].
  destruct (call_at_cursor _ _ _ _ _ _ _ _ _ Hi Hc Hmt) as
    (nd & b & ndb & r & -> & Hx & Hid & Hv & Hb & Hvb & Hbs & Hr & Hri & He & Hrh & Her & Hrr).
  pose proof (left_call_nonlast _ _ _ _ _ _ _ _ Hi Hc) as Hne.
  pose proof (inv_left _ _ _ _ _ _ Hi) as Hl. pose proof (weight_pos σ) as Hw.
  destruct (mo_total (s_state sd) e r) as [[ok newState] Hstep]; try done.
  unfold try_call. rewrite (inv_entry _ _ _ _ _ _ Hi). simpl.
  rewrite (field_Some n_value _ _ _ Hx), (field_Some n_value _ _ _ Hb). simpl.
  rewrite Hv. simpl. rewrite Hvb. simpl. rewrite Hstep. simpl.
  assert (∀ Hdd : dead σ (s_state sd) e, ∃ sd' σ' pre' suf' mu' opens', skip sd = Some (Continue sd') ∧
    inv sd' σ' pre' suf' mu' opens' ∧ (suf' ≠ [] ∨ left σ' = []) ∧
    (measure σ' suf' mu' < measure σ ((x, e) :: suf) mu)%nat) as Hskip.
  { intros Hdd. destruct (skip_spec _ _ _ _ _ _ _ _ Hi Hc Hdd) as (sd' & ? & ?).
    exists sd', σ, (pre ++ [(x, e)]), suf, mu, opens. split_and!; auto.
    unfold measure. simpl. lia. }
  destruct ok; [|apply Hskip; by eapply dead_step].
  assert (sched stp (rest h σ) (s_state sd) (id e) newState) as Hsched.
  { by eapply (sched_at σ (s_state sd) pre x e suf _ b r); try apply Hi. }
  destruct (inv_bits _ _ _ _ _ _ Hi) as [[Hbw Hbc] Hden].
  destruct (Bitset.set_spec (s_linearized sd) (id e)) as (b' & Hset & Hbw' & Hbc' & Hden');
    [done|by apply id_cap|].
  assert (bit_ok b') as Hbok by (split; [done|congruence]).
  assert (Bitset.denote b' = list_to_set (σ ++ [id e])) as Hden2.
  { rewrite Hden', Hden, list_to_set_app_L. simpl. set_solver. }
  rewrite (field_Some n_id _ _ _ Hx). simpl. rewrite Hid, Bitset.clone_id, Hset. simpl.
  destruct (cacheContains_spec (s_cache sd) opens b' newState σ _ _ _ _ (inv_cache _ _ _ _ _ _ Hi)
    (inv_stack _ _ _ _ _ _ Hi) Hbok (id e)) as (found & Hfound & Hno); [|done|].
  { by apply elem_of_rest in Her as []. }
  rewrite Hfound. simpl. destruct found; simpl.
  { apply Hskip. intros s' Hs'. rewrite <- (sched_det model h Hok _ _ _ _ _ (wf_rest h Hok σ) Hsched Hs').
    by apply Hno. }
  destruct (lift_left σ (s_mem sd) pre x e suf) as (m' & Hlift & _ & Hd' & Hs' & _);
    [done|done|done|apply Hi|done|].
  rewrite Hlift. simpl. simpl in Hs'. destruct Hs' as [(ndh & Hh & _ & Hhn) Hs'].
  rewrite (field_Some n_next _ _ _ Hh). simpl. rewrite Hhn.
  exists (mkState m' (first (left (σ ++ [id e])).*1 None) newState b'
    (<[Bitset.hash b' := default [] (s_cache sd !! Bitset.hash b') ++ [mkCacheEntry b' newState]]> (s_cache sd))
    (s_calls sd ++ [mkCallsEntry (Some x) (s_state sd)]) (s_longest sd) (s_seqs sd)),
    (σ ++ [id e]), [], (left (σ ++ [id e])), (mu + List.length suf * weight σ)%nat,
    ((σ ++ [id e], newState) :: opens).
  split; [done|]. split; [|split; [destruct (left (σ ++ [id e])); auto|]].
  - split; simpl; try done; try apply Hi.
    + by eapply stack_push; try apply Hi.
    + apply (cache_ok_push (s_cache sd) opens (Bitset.hash b') (mkCacheEntry b' newState)); [apply Hi|done|done].
  - pose proof (weight_push σ e Her). unfold measure. simpl. lia.
Qed.

(** At a return every schedulable call of the level has been tried. *)
Lemma exhausted sd σ pre x e suf mu opens :
  inv sd σ pre ((x, e) :: suf) mu opens → is_return e →
  ¬ schedulable stp (rest h σ) (s_state sd).
Proof.
  intros Hi Hr (τ & s' & Hp). pose proof (left_snd σ) as Hrest.
  rewrite (inv_left _ _ _ _ _ _ Hi), fmap_app, fmap_cons in Hrest. simpl in Hrest.
  inversion Hp as [? ? Heq|? ? i s1 ? ? ? Hs Hp']; subst; [by destruct pre; simplify_eq/=; congruence|].
  pose proof Hs as (pre2 & c & suf2 & r & Hh & Hpre2 & Hc & Hci & _). subst i.
  assert (c ∈ pre.*2) as Hin.
  { rewrite Hh in Hrest. clear -Hrest Hpre2 Hc Hr. revert pre2 Hrest Hpre2.
    induction pre.*2 as [|y l IH]; intros [|z pre2] Hrest Hpre2; simplify_eq/=.
    - exfalso. by eapply not_call_return.
    - apply Forall_cons in Hpre2 as [? _]. exfalso. by eapply not_call_return.
    - left.
    - apply Forall_cons in Hpre2 as [_ ?]. right. by eapply IH. }
  pose proof (inv_dead _ _ _ _ _ _ Hi) as Hdd. rewrite Forall_forall in Hdd.
  apply (Hdd c Hin s1 Hs). rewrite rest_snoc. by eexists _, _.
Qed.

Lemma update_longest_spec cp sd σ pre suf mu opens :
  inv sd σ pre suf mu opens →
  ∃ longest seqs, update_longest cp sd = Some (longest, seqs) ∧ longest_ok longest seqs.
Proof.
  intros Hi. unfold update_longest. destruct cp; [|eexists _, _; split; [done|apply Hi]].
  pose proof (stack_ids _ _ _ _ _ _ (inv_stack _ _ _ _ _ _ Hi)) as Hids.
  destruct (stack_partial _ _ _ _ _ _ (inv_stack _ _ _ _ _ _ Hi)) as [Hnd Hin Ho Hcl Hrun] eqn:Hpl.
  destruct (longest_loop_spec (s_mem sd) (s_calls sd) (s_calls sd) σ σ (s_longest sd) (s_seqs sd) None)
    as (longest & seq & Hloop & Hl); [done|done| |by left|simpl; rewrite app_nil_r; apply Hi|].
  - intros i Hiσ. split.
    + split; [done|]. eexists. by eapply stack_partial, Hi.
    + destruct (Hin i Hiσ) as (e & He & <-). apply ids_nops. done.
  - rewrite Hloop. simpl. eexists _, _. split; [done|]. by destruct seq.
Qed.
(** The branch of a return: the last call is undone and is dead. *)
Lemma backtrack_spec cp sd σ pre x e suf mu opens :
  inv sd σ pre ((x, e) :: suf) mu opens → is_return e →
  (backtrack cp sd = Some (Return (false, s_longest sd, s_seqs sd)) ∧
    ¬ schedulable stp h (Init model)) ∨
  ∃ sd' σ' pre' suf' mu' opens', backtrack cp sd = Some (Continue sd') ∧
    inv sd' σ' pre' suf' mu' opens' ∧ (suf' ≠ [] ∨ left σ' = []) ∧
    (measure σ' suf' mu' < measure σ ((x, e) :: suf) mu)%nat.
Proof.
  intros Hi Hr. pose proof (exhausted _ _ _ _ _ _ _ _ Hi Hr) as Hno.
  destruct (update_longest_spec cp _ _ _ _ _ _ Hi) as (longest & seqs & Hupd & Hlong).
  pose proof (weight_pos σ) as Hw.
  destruct Hi as [Hst Hl He Hcalls Hdead [[Hbw Hbc] Hden] Hcache Hlongest].
  destruct sd as [m en s lin cache calls lon sqs]. simpl in *. unfold backtrack. simpl.
  inversion Hst as [|calls0 σ0 s0 m1 mu0 opens0 pre0 x0 e0 suf0 s' m' Hst0 Hl0 Hpre0 Hc0 Hdead0 Hsched0 Hlift0];
    subst; [left; by rewrite rest_nil in Hno|right].
  destruct (stack_seg _ _ _ _ _ _ Hst0) as [Hd Hseg].
  destruct (lift_left σ0 m1 pre0 x0 e0 suf0) as (m2 & Hlift & Hun & _ & _ & Hid); try done.
  assert (m2 = m) as -> by congruence.
  assert (zlen (calls0 ++ [mkCallsEntry (Some x0) s0]) = zlen calls0 + 1) as Hz by (by rewrite zlen_app).
  pose proof (zlen_nonneg calls0) as Hz0.
  rewrite Hz. destruct (Z.eqb_spec (zlen calls0 + 1) 0) as [|_]; [lia|]. rewrite Hupd. simpl.
  replace (zlen calls0 + 1 - 1) with (zlen calls0) by lia.
  rewrite zlookup_app_r, Z.sub_diag by lia. simpl. rewrite Hid. simpl.
  assert (e0 ∈ rest h σ0) as He0.
  { rewrite <- left_snd, Hl0, fmap_app. apply elem_of_app. right. left. }
  apply elem_of_rest in He0 as [Heh Heσ].
  destruct (Bitset.clear_spec lin (id e0)) as (b' & Hclr & Hbw' & Hbc' & Hden');
    [done|by apply id_cap|]. rewrite Hclr. simpl.
  assert ((calls0 ++ [mkCallsEntry (Some x0) s0]).[: zlen calls0] = Some calls0) as Hsl.
  { apply slice_to_Some. rewrite zlen_app. split; [unfold zlen; simpl; lia|].
    unfold zlen. by rewrite Nat2Z.id, take_app_length. }
  rewrite Hsl. simpl. rewrite Hun. simpl.
  set (sd' := mkState m1 (first suf0.*1 None) s0 b' cache calls0 longest seqs).
  assert (inv sd' σ0 (pre0 ++ [(x0, e0)]) suf0 mu0 opens0) as Hi'.
  { split; simpl; try done.
    - by rewrite <- app_assoc.
    - rewrite fmap_app. apply Forall_app. by split; [|apply Forall_singleton].
    - rewrite fmap_app. apply Forall_app. split; [done|]. apply Forall_singleton. simpl.
      intros s2 Hs2. by rewrite <- (sched_det model h Hok _ _ _ _ _ (wf_rest h Hok σ0) Hsched0 Hs2).
    - split; [split; [done|congruence]|]. rewrite Hden', Hden, list_to_set_app_L. simpl. set_solver.
    - by eapply cache_ok_pop. }
  assert (inv (mkState m1 (Some x0) s0 b' cache calls0 longest seqs) σ0 pre0 ((x0, e0) :: suf0) mu0 opens0)
    as Hi0.
  { destruct Hi'. split; simpl in *; done. }
  rewrite (cursor_next _ _ _ _ _ _ _ _ Hi0 : field n_next (Some x0) m1 = _). simpl.
  exists sd', σ0, (pre0 ++ [(x0, e0)]), suf0, mu0, opens0.
  split_and!; [done|done|left; by eapply left_call_nonlast|]. unfold measure. simpl. lia.
Qed.

Lemma iterate_spec cp sd σ pre suf mu opens :
  inv sd σ pre suf mu opens → suf ≠ [] →
  (iterate model cp headEntry 0 sd = Some (Return (false, s_longest sd, s_seqs sd)) ∧
    ¬ schedulable stp h (Init model)) ∨
  ∃ sd' σ' pre' suf' mu' opens', iterate model cp headEntry 0 sd = Some (Continue sd') ∧
    inv sd' σ' pre' suf' mu' opens' ∧ (suf' ≠ [] ∨ left σ' = []) ∧
    (measure σ' suf' mu' < measure σ suf mu)%nat.
Proof.
  intros Hi Hne. destruct suf as [|[x e] suf]; [done|]. unfold iterate. simpl.
  rewrite (inv_entry _ _ _ _ _ _ Hi). simpl.
  destruct (stack_seg _ _ _ _ _ _ (inv_stack _ _ _ _ _ _ Hi)) as [Hd _].
  assert ((x, e) ∈ located h) as Hin.
  { assert ((x, e) ∈ left σ) as Hin; [|by apply list_elem_of_filter in Hin as []].
    rewrite (inv_left _ _ _ _ _ _ Hi). apply elem_of_app. right. left. }
  destruct (holds_same_data _ _ _ _ _ Hd (Hm0_data _ _ Hin)) as (nd & Hx & _ & _ & Hma).
  rewrite (field_Some n_match _ _ _ Hx). simpl.
  destruct (decide (is_call e)) as [Hc|Hc].
  - right. destruct Hma as (b & r & Hb & _). rewrite Hb.
    eapply try_call_spec; [done..|]. by rewrite (field_Some n_match _ _ _ Hx), Hb.
  - rewrite Hma. eapply backtrack_spec; [done|]. by destruct (call_or_return e).
Qed.

Lemma finish_spec sd σ pre suf mu opens :
  inv sd σ pre suf mu opens → left σ = [] →
  finish sd = Some (true, (λ _, Some (List.length (s_seqs sd))) <$> s_longest sd, s_seqs sd ++ [σ]) ∧
  linearization stp h (Init model) σ.
Proof.
  intros Hi Hl. unfold finish.
  rewrite (stack_ids _ _ _ _ _ _ (inv_stack _ _ _ _ _ _ Hi)). simpl. split; [done|].
  apply path_linearization with (s' := s_state sd); [done|].
  assert (rest h σ = []) as <- by (by rewrite <- left_snd, Hl). eapply stack_path, Hi.
Qed.

(** What a result says about the history. *)
Definition result_ok (res : result) : Prop :=
  let '(ok, longest, seqs) := res in
  if (ok : bool) then
    ∃ p σ, zlen longest = nops ∧ Forall (λ q, q = Some p) longest ∧ seqs !! p = Some σ ∧
           linearization stp h (Init model) σ
  else longest_ok longest seqs.

Lemma finish_ok sd σ pre suf mu opens :
  inv sd σ pre suf mu opens → left σ = [] →
  ∃ res, finish sd = Some res ∧ result_ok res ∧ res.1.1 = true.
Proof.
  intros Hi Hl. destruct (finish_spec _ _ _ _ _ _ Hi Hl) as [Hf Hlin].
  eexists. split; [done|]. split; [|done].
  exists (List.length (s_seqs sd)), σ. split_and!; [|..|by apply list_lookup_middle|done].
  - destruct (inv_longest _ _ _ _ _ _ Hi) as [Hn _]. unfold zlen in *. by rewrite length_fmap.
  - apply Forall_forall. intros q Hq. apply list_elem_of_fmap in Hq as (? & -> & _). done.
Qed.
(** The state of a running search that can still answer. *)
Definition running (sd : state) (mu : nat) : Prop :=
  ∃ σ pre suf mu' opens, inv sd σ pre suf mu' opens ∧ (suf ≠ [] ∨ left σ = []) ∧
    mu = measure σ suf mu'.

(** One step: an answer, or another running state with a smaller measure. *)
Lemma body_spec cp kill sd mu :
  running sd mu →
  (∃ res, body model cp headEntry kill sd = Some (Return res) ∧ result_ok res ∧
    (res.1.1 = false → kill = 0 → ¬ schedulable stp h (Init model))) ∨
  (∃ sd' mu', body model cp headEntry kill sd = Some (Continue sd') ∧ running sd' mu' ∧ (mu' < mu)%nat).
Proof.
  intros (σ & pre & suf & mu' & opens & Hi & Hsuf & ->). unfold body.
  destruct (stack_seg _ _ _ _ _ _ (inv_stack _ _ _ _ _ _ Hi)) as [_ [(ndh & Hh & _ & Hhn) _]].
  rewrite (field_Some n_next _ _ _ Hh), Hhn.
  destruct (left σ) as [|[y g] lft] eqn:Hleft; simpl.
  { left. destruct (finish_ok _ _ _ _ _ _ Hi Hleft) as (res & -> & ? & Ht).
    exists res. split_and!; [done..|]. by rewrite Ht. }
  destruct (decide (kill = 0)) as [->|Hk].
  - destruct Hsuf as [Hsuf|]; [|done].
    destruct (iterate_spec cp _ _ _ _ _ _ Hi Hsuf)
      as [[-> ?]|(sd' & σ' & pre' & suf' & mu2 & opens' & -> & Hi' & Hs' & Hm)]; [left|right].
    + eexists. split; [done|]. split; [apply Hi|done].
    + eexists _, _. split; [done|]. split; [|done]. by exists σ', pre', suf', mu2, opens'.
  - left. unfold iterate. destruct (Z.eqb_spec kill 0); [done|]. simpl.
    eexists. split; [done|]. split; [apply Hi|done].
Qed.

(** The loop answers within the measure; [kill] can only make it give up. *)
Lemma loop_spec fuel cp kill sd mu :
  running sd mu → (mu < fuel)%nat →
  ∃ res, loop model fuel cp headEntry kill sd = Ret res ∧ result_ok res ∧
    (res.1.1 = false → (∀ t, kill t = 0) → ¬ schedulable stp h (Init model)).
Proof.
  revert kill sd mu. induction fuel as [|fuel IH]; intros kill sd mu Hr Hf; [lia|]. simpl.
  destruct (body_spec cp (kill 0%nat) sd mu Hr) as [(res & -> & ? & Hno)|(sd' & mu' & -> & Hr' & ?)].
  - eauto 10.
  - destruct (IH (λ t, kill (S t)) sd' mu') as (res & ? & ? & Hno); [done|lia|].
    exists res. split_and!; [done..|]. intros ? Hz. apply Hno; [done|]. intros t. apply Hz.
Qed.
End search_proof.

(** ** The whole function *)

Lemma search_fuel_pos n : (1 <= search_fuel n)%nat.
Proof. unfold search_fuel. lia. Qed.

Lemma hist_ok_closed {V} (h : list (entry V)) : wf_hist h → closed_hist h.
Proof.
  intros Hwf pre c suf Heq Hc.
  assert (c ∈ h) as Hin by (rewrite Heq; set_solver).
  destruct (wf_pair _ Hwf c Hin) as (c' & r & Hc' & Hr & Hci & Hri & Hb).
  destruct (before_elem _ _ _ Hb) as [Hc'in Hrin].
  assert (c' = c) as -> by (by apply (call_unique h)).
  exists r. split_and!; [|done|congruence]. rewrite Heq in Hrin.
  apply elem_of_app in Hrin as [Hrin|[->|?]%elem_of_cons]; [|by destruct (not_call_return c)|done].
  exfalso. apply (before_antisym h c r); [by apply wf_NoDup|done|].
  by eapply before_split; [apply wf_NoDup|..].
Qed.

Section whole.
Context {V St : Type} (model : Model V St) (h : list (entry V)).
Context (Hok : hist_ok h) `{!ModelOk model h}.
Abbreviation stp := (Step model).

Lemma start_spec :
  ∃ m sd, start model h = Some (headEntry h, sd) ∧
    seg m None (headEntry h :: (located h).*1) None ∧
    (∀ a e, (a, e) ∈ located h → holds (located h) m a e) ∧
    running model h m sd (search_fuel (List.length h / 2) - 1).
Proof.
  pose proof (ho_wf _ Hok) as Hwf. unfold start.
  destruct (makeLinkedEntries_spec h) as (m & Hmk & Hsz & Hdom & Hseg & Hdata);
    [by apply hist_ok_closed|]. rewrite Hmk. simpl.
  unfold NodeList.length. rewrite (length_loop_spec _ _ _ _ Hseg) by (rewrite length_addrs, Hsz; done).
  simpl. rewrite Hsz.
  assert (zlen (addrs (List.length h)) = zlen h) as -> by (unfold zlen; by rewrite length_addrs).
  set (nd := mkNode None None (-1) None None).
  assert (m !! List.length h = None) as Hfresh by (apply eq_None_not_Some; rewrite Hdom; lia).
  assert (List.length h ∉ addrs (List.length h)) as Hna by (rewrite elem_of_addrs; lia).
  destruct (insertBefore_spec (<[List.length h := nd]> m) (List.length h) nd (addrs (List.length h)))
    as (m' & Hins & Hd & Hseg'); [by apply lookup_insert_eq|done|done|done|by rewrite seg_frame
      |apply NoDup_addrs|]. rewrite Hins. simpl.
  exists m'. eexists. split; [done|]. rewrite located_fst. split; [done|].
  split.
  - intros a e Hin. eapply holds_same_data; [done|].
    destruct (Hdata _ _ Hin) as (nda & Ha & Hrest). exists nda. split; [|done].
    rewrite lookup_insert_ne; [done|]. intros <-. congruence.
  - assert (∀ sd, inv model h m' sd [] [] (located h) 0 [] →
      running model h m' sd (search_fuel (List.length h / 2) - 1)) as Hrun.
    { intros sd Hi. exists [], [], (located h), 0%nat, []. split; [done|]. split.
      - destruct h; [right|left]; done.
      - unfold measure, weight, search_fuel. rewrite rest_nil.
        assert (List.length (located h) = List.length h) as ->.
        { by rewrite <- (length_fmap snd), located_snd. }
        destruct (wf_even h Hwf) as [n ->]. rewrite (Nat.mul_comm 2 n), Nat.div_mul by done. lia. }
    apply Hrun. assert (left h [] = located h) as Hleft.
    { unfold left. apply list_filter_all. intros. apply not_elem_of_nil. }
    assert (0 <= nops h) by (unfold nops; apply Z.quot_pos; unfold zlen; lia).
    destruct (Bitset.newBitset_spec (nops h)) as (? & ? & Hden); [done|].
    change ((0 + zlen h) ÷ 2) with (nops h). split; simpl; try done.
    + constructor.
    + by rewrite located_fst.
    + split.
      * unfold zlen. rewrite length_replicate. lia.
      * intros i p [Hi _]%lookup_replicate. done.
Qed.

Lemma result_ok_true res : result_ok model h res → res.1.1 = true → linearizable stp h (Init model).
Proof.
  destruct res as [[[] lon] seqs]; [|done]. intros (p & σ & _ & _ & _ & Hlin) _. by exists σ.
Qed.

(** Enough iterations: the search ends, and a [true] or an unkilled [false] is right. *)
Lemma checkSingle_spec fuel cp kill :
  (search_fuel (List.length h / 2) ≤ fuel)%nat →
  ∃ res, checkSingle model fuel h cp kill = Ret res ∧ result_ok model h res ∧
    (res.1.1 = true → linearizable stp h (Init model)) ∧
    (res.1.1 = false → (∀ t, kill t = 0) → ¬ linearizable stp h (Init model)).
Proof.
  intros Hfuel. unfold checkSingle.
  destruct start_spec as (m & sd & -> & Hseg & Hdata & Hi).
  destruct (loop_spec model h Hok m Hseg Hdata fuel cp kill _ _ Hi) as (res & Hl & Hr & Hno);
    [unfold search_fuel in *; lia|].
  exists res. split_and!; [done..| |].
  - by apply result_ok_true.
  - intros. rewrite linearizable_schedulable by apply (ho_wf _ Hok). by apply Hno.
Qed.
End whole.

End CheckerProof.
