(* ===== verification/Parallel.v ===== *)
(** Model of [checkParallel], [checkOperations] and [checkEvents] of
    porcupine/checker.go and of the API of porcupine/porcupine.go: one goroutine
    per partition, the result channel, the kill flag and the timeout, as steps of
    a shared state. *)

From S2P Require Import Prelude GoStd Bitset PorcupineModel Linearize NodeList Checker.

#[local] Open Scope Z_scope.
#[local] Open Scope go_scope.

Module Parallel.
Export Checker.

(** [type CheckResult string] *)
Inductive CheckResult := Unknown | Ok | Illegal.

#[export] Instance CheckResult_eq_dec : EqDecision CheckResult.
Proof. solve_decision. Defined.

(** The program counter of the caller: in the [select] loop, waiting for the
    remaining goroutines, returned.  A panic of any goroutine is [Crashed]. *)
Inductive main_pc := Select | Drain | Returned | Crashed.

#[export] Instance main_pc_eq_dec : EqDecision main_pc.
Proof. solve_decision. Defined.

Section parallel.
Context {V St : Type} `{GoMapOrder}.
Context (model : Model V St) (history : list (list (entry V))).
Context (computeInfo : bool) (timeout : Z).

Record linearizationInfo := mkInfo {
  info_history : list (list (entry V));
  info_partialLinearizations : list (list (list Z));
}.

(** The slice of pointers that [checkSingle] returns with what they point to. *)
Definition longest_t : Type := list (option nat) * list (list Z).

(** The program counter of the goroutine of one partition: before
    [checkSingle], in its loop, returned, [longest[i]] written, done. *)
Inductive goroutine :=
| GStart (subhistory : list (entry V))
| GRun (headEntry : loc) (s : state (V:=V) (St:=St))
| GRet (ok : bool) (l : longest_t)
| GSend (ok : bool)
| GExit.

Record sys := mkSys {
  p_gs : list goroutine;
  p_results : list bool;
  p_longest : list longest_t;
  p_kill : Z;
  p_ok : bool;
  p_timedOut : bool;
  p_count : Z;
  p_pc : main_pc;
}.

Definition init_sys : sys :=
  mkSys (GStart <$> history) [] (replicate (List.length history) ([], [])) 0 true false 0 Select.

Definition set_gs gs s :=
  mkSys gs (p_results s) (p_longest s) (p_kill s) (p_ok s) (p_timedOut s) (p_count s) (p_pc s).
Definition set_results rs s :=
  mkSys (p_gs s) rs (p_longest s) (p_kill s) (p_ok s) (p_timedOut s) (p_count s) (p_pc s).
Definition set_longest l s :=
  mkSys (p_gs s) (p_results s) l (p_kill s) (p_ok s) (p_timedOut s) (p_count s) (p_pc s).
Definition set_pc pc s :=
  mkSys (p_gs s) (p_results s) (p_longest s) (p_kill s) (p_ok s) (p_timedOut s) (p_count s) pc.

(** One step of the goroutine [i]; [None] when it is blocked or done. *)
Definition goroutine_step (i : nat) (s : sys) : option sys :=
  g ← p_gs s !! i;
  match g with
  | GStart sub =>
      match start model sub with
      | Some (headEntry, st) => Some (set_gs (<[i := GRun headEntry st]> (p_gs s)) s)
      | None => Some (set_pc Crashed s)
      end
  | GRun headEntry st =>
      match body model computeInfo headEntry (p_kill s) st with
      | Some (Continue st) => Some (set_gs (<[i := GRun headEntry st]> (p_gs s)) s)
      | Some (Return (ok, l, seqs)) => Some (set_gs (<[i := GRet ok (l, seqs)]> (p_gs s)) s)
      | None => Some (set_pc Crashed s)
      end
  | GRet ok l =>
      Some (set_longest (<[i := l]> (p_longest s)) (set_gs (<[i := GSend ok]> (p_gs s)) s))
  | GSend ok =>
      if zlen (p_results s) <? zlen history then
        Some (set_results (p_results s ++ [ok]) (set_gs (<[i := GExit]> (p_gs s)) s))
      else None
  | GExit => None
  end.

(** [break loop] *)
Definition break_pc : main_pc := if computeInfo then Drain else Returned.

(** A step of the caller that is not the timeout. *)
Definition main_step (s : sys) : option sys :=
  match p_pc s with
  | Select =>
      match p_results s with
      | [] => None
      | result :: rs =>
          let count := p_count s + 1 in
          let ok := p_ok s && result in
          if negb ok && negb computeInfo then
            Some (mkSys (p_gs s) rs (p_longest s) 1 ok (p_timedOut s) count break_pc)
          else if count >=? zlen history then
            Some (mkSys (p_gs s) rs (p_longest s) (p_kill s) ok (p_timedOut s) count break_pc)
          else Some (mkSys (p_gs s) rs (p_longest s) (p_kill s) ok (p_timedOut s) count Select)
      end
  | Drain =>
      if p_count s <? zlen history then
        match p_results s with
        | [] => None
        | _ :: rs =>
            Some (mkSys (p_gs s) rs (p_longest s) (p_kill s) (p_ok s) (p_timedOut s)
                        (p_count s + 1) Drain)
        end
      else Some (set_pc Returned s)
  | Returned | Crashed => None
  end.

(** The timer fires; there is one only for a positive [timeout]. *)
Definition timeout_step (s : sys) : option sys :=
  match p_pc s with
  | Select =>
      if timeout >? 0 then
        Some (mkSys (p_gs s) (p_results s) (p_longest s) 1 (p_ok s) true (p_count s) break_pc)
      else None
  | _ => None
  end.

Inductive label := LRun (i : nat) | LMain | LTimeout.

Definition step (l : label) (s : sys) : option sys :=
  match p_pc s with
  | Crashed => None
  | _ => match l with
         | LRun i => goroutine_step i s
         | LMain => main_step s
         | LTimeout => timeout_step s
         end
  end.

(** A schedule, from the state in which all goroutines have been spawned. *)
Fixpoint steps (ls : list label) (s : sys) : option sys :=
  match ls with [] => Some s | l :: ls => s ← step l s; steps ls s end.

(** The set of distinct non-nil pointers of [longest[i]], copied in map order. *)
Definition partials_of (l : longest_t) : option (list (list Z)) :=
  mapM (λ p, snd l !! p) (map_order (remove_dups (omap (λ v, v) (fst l)))).

Definition get_info (s : sys) : option (option linearizationInfo) :=
  if computeInfo then
    partials ← mapM partials_of (p_longest s); Some (Some (mkInfo history partials))
  else Some None.

Definition get_result (s : sys) : CheckResult :=
  if negb (p_ok s) then Illegal else if p_timedOut s then Unknown else Ok.

(** [checkParallel] can return [res] and [info]. *)
Definition checkParallel (res : CheckResult) (info : option linearizationInfo) : Prop :=
  ∃ ls s, steps ls init_sys = Some s ∧ p_pc s = Returned ∧ res = get_result s ∧
    get_info s = Some info.

End parallel.

Arguments linearizationInfo : clear implicits.
Arguments goroutine : clear implicits.
Arguments sys : clear implicits.

(** ** The entry points *)

Section api.
Context {V St : Type} `{EqDecision St} `{GoSort} `{GoMapOrder}.
Context (sprintV : V → string) (sprintSt : St → string).
Context (model : Model V St).

Abbreviation fill := (fillDefault sprintV sprintSt).

(** The entries of the partitions; [None] when the partition function panics. *)
Definition operation_entries (history : list (Operation V)) : option (list (list (entry V))) :=
  match Partition (fill model) with
  | Some partition => partitions ← partition history; Some (map makeEntries partitions)
  | None => None
  end.

Definition event_entries (history : list (Event V)) : option (list (list (entry V))) :=
  match PartitionEvent (fill model) with
  | Some partition =>
      partitions ← partition history; Some (map (λ sub, convertEntries (renumber sub)) partitions)
  | None => None
  end.

(** [checkOperations] and [checkEvents] can return [res] and [info]. *)
Definition checkOperations (history : list (Operation V)) (verbose : bool) (timeout : Z)
    (res : CheckResult) (info : option (linearizationInfo V)) : Prop :=
  ∃ l, operation_entries history = Some l ∧ checkParallel (fill model) l verbose timeout res info.

Definition checkEvents (history : list (Event V)) (verbose : bool) (timeout : Z)
    (res : CheckResult) (info : option (linearizationInfo V)) : Prop :=
  ∃ l, event_entries history = Some l ∧ checkParallel (fill model) l verbose timeout res info.

Definition CheckOperations (history : list (Operation V)) (b : bool) : Prop :=
  ∃ res info, checkOperations history false 0 res info ∧ b = bool_decide (res = Ok).

Definition CheckOperationsTimeout (history : list (Operation V)) (timeout : Z) (res : CheckResult) : Prop :=
  ∃ info, checkOperations history false timeout res info.

Definition CheckOperationsVerbose (history : list (Operation V)) (timeout : Z)
    (res : CheckResult) (info : option (linearizationInfo V)) : Prop :=
  checkOperations history true timeout res info.

Definition CheckEvents (history : list (Event V)) (b : bool) : Prop :=
  ∃ res info, checkEvents history false 0 res info ∧ b = bool_decide (res = Ok).

Definition CheckEventsTimeout (history : list (Event V)) (timeout : Z) (res : CheckResult) : Prop :=
  ∃ info, checkEvents history false timeout res info.

Definition CheckEventsVerbose (history : list (Event V)) (timeout : Z)
    (res : CheckResult) (info : option (linearizationInfo V)) : Prop :=
  checkEvents history true timeout res info.
End api.

End Parallel.
