(* ===== verification/ParallelProof.v ===== *)
(** Correctness of the parallel check of Parallel.v: every schedule ends, no
    goroutine panics, and the verdict is the one the partitions deserve. *)

From S2P Require Import Prelude GoStd Bitset PorcupineModel Linearize NodeList Checker CheckerProof Parallel.

#[local] Open Scope Z_scope.
#[local] Open Scope go_scope.
#[local] Arguments Nat.div : simpl never.

Module ParallelProof.
Export CheckerProof Parallel.

Lemma sum_list_insert (l : list nat) i x y :
  l !! i = Some x → (sum_list (<[i := y]> l) + x = sum_list l + y)%nat.
Proof.
  revert i. induction l as [|z l IH]; intros [|i] Hi; simplify_eq/=; [lia|].
  specialize (IH _ Hi). lia.
Qed.

Section proof.
Context {V St : Type} (model : Model V St) (history : list (list (entry V))).
Context (computeInfo : bool) (timeout : Z).
Context (Hok : ∀ h, h ∈ history → hist_ok h).
Context (Hmodel : ∀ h, h ∈ history → ModelOk model h).

Abbreviation goroutine := (goroutine V St).
Abbreviation sys := (sys V St).
Abbreviation lin h := (linearizable (Step model) h (Init model)).

Implicit Types (s : sys) (g : goroutine) (h : list (entry V)) (i : nat) (mus : list nat).

(** What an answer is worth, given the current value of the kill flag. *)
Definition answer_ok (kill : Z) h (ok : bool) : Prop :=
  (ok = true → lin h) ∧ (ok = false → kill = 0 → ¬ lin h).

(** Everything recorded is a partial linearization, and none is empty. *)
Definition longest_sound h (l : longest_t) : Prop :=
  ∀ i p, fst l !! i = Some (Some p) →
    ∃ σ, snd l !! p = Some σ ∧ σ ≠ [] ∧ ∃ st', partial_linearization (Step model) h (Init model) σ st'.

(** A goroutine working on [h] with at most [mu] steps to go. *)
Definition thread_ok (kill : Z) h g (mu : nat) : Prop :=
  match g with
  | GStart sub => sub = h ∧ mu = (search_fuel (List.length h / 2) + 4)%nat
  | GRun hd sd => hd = headEntry h ∧ ∃ m0 k,
      seg m0 None (headEntry h :: (located h).*1) None ∧
      (∀ a e, (a, e) ∈ located h → holds (located h) m0 a e) ∧
      running model h m0 sd k ∧ mu = (k + 4)%nat
  | GRet ok l => answer_ok kill h ok ∧ longest_sound h l ∧ mu = 3%nat
  | GSend ok => answer_ok kill h ok ∧ mu = 2%nat
  | GExit => mu = 0%nat
  end.

Definition pc_weight (pc : main_pc) : nat :=
  match pc with Select => 2 | Drain => 1 | _ => 0 end.

(** [sent] lists the answers in the order they were sent, with their partition. *)
Record sys_inv s mus (sent : list (nat * bool)) : Prop := {
  si_gs : List.length (p_gs s) = List.length history;
  si_longest : List.length (p_longest s) = List.length history;
  si_mus : List.length mus = List.length history;
  si_thread : ∀ i h g, history !! i = Some h → p_gs s !! i = Some g →
    ∃ mu, mus !! i = Some mu ∧ thread_ok (p_kill s) h g mu;
  si_info : ∀ i h l, history !! i = Some h → p_longest s !! i = Some l → longest_sound h l;
  si_nodup : NoDup sent.*1;
  si_sent : ∀ i b, (i, b) ∈ sent → p_gs s !! i = Some GExit ∧
    ∃ h, history !! i = Some h ∧ answer_ok (p_kill s) h b;
  si_exit : ∀ i, p_gs s !! i = Some GExit → i ∈ sent.*1;
  si_count : 0 <= p_count s <= zlen sent;
  si_results : p_results s = drop (Z.to_nat (p_count s)) sent.*2;
  si_illegal : p_ok s = false → ∃ h, h ∈ history ∧ ¬ lin h;
  si_select : p_pc s = Select → p_kill s = 0 ∧ p_timedOut s = false ∧
    (p_ok s = true → Forall (λ b, b = true) (take (Z.to_nat (p_count s)) sent.*2)) ∧
    (p_ok s = false → computeInfo = true) ∧ (p_count s < zlen history ∨ history = []);
  si_done : p_pc s ≠ Select → p_ok s = true → p_timedOut s = false → Forall (λ h, lin h) history;
  si_timeout : p_timedOut s = true → 0 < timeout;
  si_drain : p_pc s = Drain → computeInfo = true;
  si_returned : p_pc s = Returned → computeInfo = true → zlen history <= p_count s;
  si_safe : p_pc s ≠ Crashed;
}.

(** A bound on the steps to go. *)
Definition steps_left s mus : nat := sum_list mus + List.length (p_results s) + pc_weight (p_pc s).

Lemma answer_ok_kill k k' h ok : (k' = 0 → k = 0) → answer_ok k h ok → answer_ok k' h ok.
Proof. unfold answer_ok. tauto. Qed.

Lemma thread_ok_kill k k' h g mu : (k' = 0 → k = 0) → thread_ok k h g mu → thread_ok k' h g mu.
Proof.
  intros Hk. destruct g; simpl; try done; [intros (? & ? & ?)|intros (? & ?)];
    (split_and?; [by eapply answer_ok_kill|..]; done).
Qed.

(** The answers of a result of [checkSingle]. *)
Lemma result_answers h kill (res : result) :
  h ∈ history → result_ok model h res →
  (res.1.1 = false → kill = 0 → ¬ schedulable (Step model) h (Init model)) →
  answer_ok kill h res.1.1 ∧ longest_sound h (res.1.2, res.2).
Proof.
  intros Hh Hr Hno. pose proof (Hok h Hh) as Hhok. split.
  - split; [by apply result_ok_true|]. intros ? ?.
    rewrite linearizable_schedulable by apply (ho_wf _ Hhok). by apply Hno.
  - intros i p Hp. destruct res as [[[] lon] seqs]; simpl in *.
    + destruct Hr as (q & σ & Hlen & Hall & Hq & (st' & Hs') & Hin).
      rewrite Forall_forall in Hall. apply lookup_lt_Some in Hp as Hlt. apply list_elem_of_lookup_2 in Hp.
      apply Hall in Hp as [= ->]. exists σ. split; [done|]. split; [|eauto]. intros ->.
      destruct h as [|e h]; [change (nops (@nil (entry V))) with 0 in Hlen; unfold zlen in Hlen; lia|].
      specialize (Hin e (list_elem_of_here _ _)). by apply elem_of_nil in Hin.
    + destruct Hr as [_ Hl]. destruct (Hl _ _ Hp) as (σ & ? & Hin & st' & ?). exists σ. split; [done|]. split; [|eauto].
      intros ->. by apply elem_of_nil in Hin.
Qed.

Lemma sent_length s mus sent : sys_inv s mus sent → (List.length sent <= List.length history)%nat.
Proof.
  intros Hi. rewrite <- (length_fmap fst), <- (length_seq (List.length history) 0).
  apply submseteq_length, NoDup_submseteq; [apply Hi|].
  intros i ([i' b] & -> & Hin)%list_elem_of_fmap. apply elem_of_seq. simpl.
  destruct (si_sent _ _ _ Hi _ _ Hin) as [_ (h & Hh & _)]. apply lookup_lt_Some in Hh. lia.
Qed.

(** Once as many answers are in as there are partitions, all of them are. *)
Lemma all_sent s mus sent i :
  sys_inv s mus sent → zlen history <= zlen sent → (i < List.length history)%nat → i ∈ sent.*1.
Proof.
  intros Hi Hl Hlt. assert (sent.*1 ≡ₚ seq 0 (List.length history)) as ->; [|apply elem_of_seq; lia].
  apply submseteq_length_Permutation.
  - apply NoDup_submseteq; [apply Hi|].
    intros j ([j' b] & -> & Hin)%list_elem_of_fmap. apply elem_of_seq. simpl.
    destruct (si_sent _ _ _ Hi _ _ Hin) as [_ (h & Hh & _)]. apply lookup_lt_Some in Hh. lia.
  - rewrite length_fmap, length_seq. unfold zlen in Hl. lia.
Qed.
(** A goroutine moves on without exiting. *)
Lemma update_thread s mus sent i h g g' mu' :
  sys_inv s mus sent → history !! i = Some h → p_gs s !! i = Some g → g ≠ GExit → g' ≠ GExit →
  thread_ok (p_kill s) h g' mu' →
  sys_inv (set_gs (<[i := g']> (p_gs s)) s) (<[i := mu']> mus) sent.
Proof.
  intros Hi Hh Hg Hne Hne' Hth. assert (i < List.length history)%nat as Hlt by (by eapply lookup_lt_Some).
  destruct Hi. split; simpl; try done.
  - by rewrite length_insert.
  - by rewrite length_insert.
  - intros j h2 g2 Hh2 Hg2. destruct (decide (i = j)) as [<-|].
    + rewrite list_lookup_insert_eq in Hg2 by lia. rewrite list_lookup_insert_eq by lia.
      simplify_eq. eauto.
    + rewrite list_lookup_insert_ne in Hg2 by done. rewrite list_lookup_insert_ne by done. eauto.
  - intros j b Hin. destruct (si_sent0 j b Hin) as [Hj ?]. split; [|done].
    rewrite list_lookup_insert_ne; [done|]. intros ->. congruence.
  - intros j Hj. destruct (decide (i = j)) as [<-|].
    + rewrite list_lookup_insert_eq in Hj by lia. congruence.
    + rewrite list_lookup_insert_ne in Hj by done. eauto.
Qed.

Lemma steps_left_thread s s' mus i mu mu' :
  mus !! i = Some mu → (mu' < mu)%nat → p_results s' = p_results s → p_pc s' = p_pc s →
  (steps_left s' (<[i := mu']> mus) < steps_left s mus)%nat.
Proof.
  intros Hmu Hlt Hr Hpc. unfold steps_left. rewrite Hr, Hpc.
  pose proof (sum_list_insert mus i mu mu' Hmu). lia.
Qed.

(** [longest[i]] is written. *)
Lemma update_longest_inv s mus sent i h l :
  sys_inv s mus sent → history !! i = Some h → longest_sound h l →
  sys_inv (set_longest (<[i := l]> (p_longest s)) s) mus sent.
Proof.
  intros Hi Hh Hl. destruct Hi. split; simpl; try done.
  - by rewrite length_insert.
  - intros j h2 l2 Hh2 Hl2. apply list_lookup_insert_Some in Hl2 as [(<- & <- & _)|[_ Hl2]]; [|eauto].
    by simplify_eq.
Qed.

(** The answer is sent and the goroutine exits. *)
Lemma update_send s mus sent i h ok mu :
  sys_inv s mus sent → history !! i = Some h → p_gs s !! i = Some (GSend ok) →
  mus !! i = Some mu → answer_ok (p_kill s) h ok →
  sys_inv (set_results (p_results s ++ [ok]) (set_gs (<[i := GExit]> (p_gs s)) s))
          (<[i := 0%nat]> mus) (sent ++ [(i, ok)]).
Proof.
  intros Hi Hh Hg Hmu Ha. assert (i < List.length history)%nat as Hlt by (by eapply lookup_lt_Some).
  assert (i ∉ sent.*1) as Hfresh.
  { intros ([i' b] & -> & Hin)%list_elem_of_fmap. apply (si_sent _ _ _ Hi) in Hin as [? _].
    simpl in *. congruence. }
  destruct Hi. split; simpl; try done.
  - by rewrite length_insert.
  - by rewrite length_insert.
  - intros j h2 g2 Hh2 Hg2. destruct (decide (i = j)) as [<-|].
    + rewrite list_lookup_insert_eq in Hg2 by lia. rewrite list_lookup_insert_eq by lia.
      simplify_eq. by eexists.
    + rewrite list_lookup_insert_ne in Hg2 by done. rewrite list_lookup_insert_ne by done. eauto.
  - rewrite fmap_app. apply NoDup_app. split_and!; [done| |apply NoDup_singleton].
    intros j Hj ->%list_elem_of_singleton. done.
  - intros j b [Hin|[= -> ->]%list_elem_of_singleton]%elem_of_app.
    + destruct (si_sent0 j b Hin) as [Hj ?]. split; [|done].
      rewrite list_lookup_insert_ne; [done|]. intros ->. congruence.
    + split; [|eauto]. apply list_lookup_insert_eq. lia.
  - intros j Hj. rewrite fmap_app. apply elem_of_app. destruct (decide (i = j)) as [<-|].
    + right. by left.
    + rewrite list_lookup_insert_ne in Hj by done. left. eauto.
  - rewrite zlen_app. unfold zlen in *. simpl. lia.
  - rewrite si_results0, fmap_app, drop_app_le; [done|]. rewrite length_fmap. unfold zlen in *. lia.
  - intros Hpc. destruct (si_select0 Hpc) as (? & ? & Hall & ?). split_and!; [done..| |apply H1|apply H1].
    intros Ht. rewrite fmap_app, take_app_le; [by apply Hall|].
    rewrite length_fmap. unfold zlen in *. lia.
Qed.

Lemma goroutine_step_inv s mus sent i s' :
  sys_inv s mus sent → goroutine_step model history computeInfo i s = Some s' →
  ∃ mus' sent', sys_inv s' mus' sent' ∧ (steps_left s' mus' < steps_left s mus)%nat.
Proof.
  intros Hi Hs. unfold goroutine_step in Hs. apply bind_Some in Hs as (g & Hg & Hs).
  assert (∃ h, history !! i = Some h) as [h Hh].
  { apply lookup_lt_is_Some. rewrite <- (si_gs _ _ _ Hi). by eapply lookup_lt_Some. }
  pose proof (list_elem_of_lookup_2 _ _ _ Hh) as Hin.
  destruct (si_thread _ _ _ Hi _ _ _ Hh Hg) as (mu & Hmu & Hth).
  destruct g as [sub|hd sd|ok l|ok|]; simpl in Hth.
  - destruct Hth as [-> ->]. pose (Hmodel h Hin) as HM.
    destruct (start_spec model h (Hok h Hin)) as (m & sd & Hst & Hseg & Hdata & Hrun).
    rewrite Hst in Hs. injection Hs as <-. eexists _, sent. split.
    + eapply update_thread; try done. split; [done|]. by eexists m, _.
    + apply (steps_left_thread s _ mus i _ _ Hmu); [|done..]. pose proof (search_fuel_pos (List.length h / 2)). lia.
  - destruct Hth as (-> & m0 & k & Hseg & Hdata & Hrun & ->). pose (Hmodel h Hin) as HM.
    destruct (body_spec model h (Hok h Hin) m0 Hseg Hdata computeInfo (p_kill s) sd k Hrun)
      as [(res & Hb & Hr & Hno)|(sd' & k' & Hb & Hrun' & Hk)]; rewrite Hb in Hs.
    + destruct res as [[ok l] seqs]. injection Hs as <-.
      destruct (result_answers h (p_kill s) (ok, l, seqs) Hin Hr Hno) as [Ha Hl].
      exists (<[i := 3%nat]> mus), sent. split.
      * by eapply update_thread.
      * apply (steps_left_thread s _ mus i _ _ Hmu); [lia|done..].
    + injection Hs as <-. exists (<[i := (k' + 4)%nat]> mus), sent. split.
      * eapply update_thread; try done. split; [done|]. by exists m0, k'.
      * apply (steps_left_thread s _ mus i _ _ Hmu); [lia|done..].
  - destruct Hth as (Ha & Hl & ->). injection Hs as <-. exists (<[i := 2%nat]> mus), sent. split.
    + apply (update_longest_inv (set_gs (<[i := GSend ok]> (p_gs s)) s) _ _ i h); [|done..].
      by eapply update_thread.
    + apply (steps_left_thread s _ mus i _ _ Hmu); [lia|done..].
  - destruct Hth as (Ha & ->). destruct (_ <? _); [|done]. injection Hs as <-.
    exists (<[i := 0%nat]> mus), (sent ++ [(i, ok)]). split; [by eapply update_send|].
    unfold steps_left. simpl. rewrite length_app. simpl.
    pose proof (sum_list_insert mus i 2 0 Hmu). lia.
  - done.
Qed.
(** The caller takes one answer out of the channel. *)
Lemma receive_inv s mus sent r rs :
  sys_inv s mus sent → p_results s = r :: rs →
  ∃ i h, (i, r) ∈ sent ∧ history !! i = Some h ∧ answer_ok (p_kill s) h r ∧
    0 <= p_count s + 1 <= zlen sent ∧ rs = drop (Z.to_nat (p_count s + 1)) sent.*2 ∧
    take (Z.to_nat (p_count s + 1)) sent.*2 = take (Z.to_nat (p_count s)) sent.*2 ++ [r].
Proof.
  intros Hi Hr. destruct (si_count _ _ _ Hi) as [Hc1 Hc2].
  pose proof (si_results _ _ _ Hi) as Hdrop. rewrite Hr in Hdrop. symmetry in Hdrop.
  assert (sent.*2 !! Z.to_nat (p_count s) = Some r) as Hlk.
  { rewrite <- (Nat.add_0_r (Z.to_nat _)), <- lookup_drop, Hdrop. done. }
  assert (Z.to_nat (p_count s + 1) = S (Z.to_nat (p_count s))) as Hz by lia.
  rewrite list_lookup_fmap in Hlk. destruct (sent !! Z.to_nat (p_count s)) as [[i b]|] eqn:E; simplify_eq/=.
  pose proof (list_elem_of_lookup_2 _ _ _ E) as Hin.
  destruct (si_sent _ _ _ Hi _ _ Hin) as [_ (h & Hh & Ha)]. exists i, h.
  split_and!; try done; [lia| | |].
  - apply lookup_lt_Some in E. unfold zlen. lia.
  - rewrite Hz, <- drop_drop, Hdrop || rewrite Hz, <- Nat.add_1_r, <- drop_drop, Hdrop. done.
  - rewrite Hz. apply take_S_r. by rewrite list_lookup_fmap, E.
Qed.

Lemma all_true_linearizable s mus sent :
  sys_inv s mus sent → zlen history <= zlen sent →
  Forall (λ b, b = true) sent.*2 → Forall (λ h, lin h) history.
Proof.
  intros Hi Hlen Hall. apply Forall_forall. intros h Hh. apply list_elem_of_lookup in Hh as [i Hh].
  assert (i ∈ sent.*1) as ([i' b] & -> & Hin)%list_elem_of_fmap.
  { eapply all_sent; [done..|]. by eapply lookup_lt_Some. }
  destruct (si_sent _ _ _ Hi _ _ Hin) as [_ (h' & Hh' & Ha & _)]. simpl in *. simplify_eq.
  apply Ha. rewrite Forall_forall in Hall. apply Hall. by apply (list_elem_of_fmap_2 snd) in Hin.
Qed.

Lemma answer_ok_true_kill h b k k' : b = true → answer_ok k h b → answer_ok k' h b.
Proof. unfold answer_ok. intros ->. naive_solver. Qed.

Lemma main_step_inv s mus sent s' :
  sys_inv s mus sent → main_step history computeInfo s = Some s' →
  ∃ mus' sent', sys_inv s' mus' sent' ∧ (steps_left s' mus' < steps_left s mus)%nat.
Proof.
  intros Hi Hs. exists mus, sent. unfold main_step in Hs.
  destruct (p_pc s) eqn:Hpc; [| |done..].
  - destruct (si_select _ _ _ Hi Hpc) as (Hkill & Hto & Htrue & Hfalse & Hcnt).
    destruct (p_results s) as [|r rs] eqn:Hr; [done|].
    destruct (receive_inv _ _ _ _ _ Hi Hr) as (i & h & Hin & Hh & Ha & Hc & Hrs & Htake).
    assert (p_ok s && r = false → ∃ h, h ∈ history ∧ ¬ lin h) as Hill.
    { intros [Hf|Hf]%andb_false_iff; [by apply (si_illegal _ _ _ Hi)|].
      exists h. split; [by eapply list_elem_of_lookup_2|by apply Ha]. }
    assert (p_ok s && r = true → Forall (λ b, b = true) (take (Z.to_nat (p_count s + 1)) sent.*2)) as Hall.
    { intros [Ht ->]%andb_true_iff. rewrite Htake. apply Forall_app.
      split; [by apply Htrue|by apply Forall_singleton]. }
    destruct (negb (p_ok s && r) && negb computeInfo) eqn:Eb; [|destruct (p_count s + 1 >=? zlen history) eqn:Ec].
    + injection Hs as <-. apply andb_true_iff in Eb as [Eok Ecp]. apply negb_true_iff in Eok, Ecp.
      split; [|unfold steps_left; simpl; rewrite Hr, Hpc; unfold break_pc; rewrite Ecp; simpl; lia].
      rewrite Eok. pose proof (Hill Eok). unfold break_pc. rewrite Ecp.
      destruct Hi. split; simpl; try done.
      * intros j h2 g2 Hh2 Hg2. destruct (si_thread0 j h2 g2 Hh2 Hg2) as (mu & ? & ?).
        exists mu. split; [done|]. by eapply (thread_ok_kill (p_kill s)).
      * intros j b Hj. destruct (si_sent0 j b Hj) as (? & h2 & ? & ?). split; [done|].
        exists h2. split; [done|]. by eapply (answer_ok_kill (p_kill s)).
      * congruence.
    + injection Hs as <-. rewrite Z.geb_leb, Z.leb_le in Ec.
      assert (Forall (λ b, b = true) sent.*2 ∨ p_ok s && r = false) as Hor.
      { destruct (p_ok s && r); [left|by right]. rewrite <- (take_ge sent.*2 (Z.to_nat (p_count s + 1))).
        - by apply Hall.
        - rewrite length_fmap. pose proof (sent_length _ _ _ Hi). unfold zlen in *. lia. }
      pose proof (λ H, all_true_linearizable _ _ _ Hi ltac:(lia) H) as Hlin.
      split; [|unfold steps_left; simpl; rewrite Hr, Hpc; unfold break_pc; destruct computeInfo; simpl; lia].
      destruct Hi. unfold break_pc. split; simpl; try done.
      * by destruct computeInfo.
      * intros _ Ht _. apply Hlin. destruct Hor as [|Hor]; [done|congruence].
      * by destruct computeInfo.
      * by destruct computeInfo.
    + injection Hs as <-. rewrite Z.geb_leb, Z.leb_gt in Ec.
      split; [|unfold steps_left; simpl; rewrite Hr, Hpc; simpl; lia].
      destruct Hi. split; simpl; try done. intros _. split_and!; try done; [|by left].
      intros Hf. rewrite Hf in Eb. by apply negb_false_iff in Eb.
  - destruct (Z.ltb_spec (p_count s) (zlen history)).
    + destruct (p_results s) as [|r rs] eqn:Hr; [done|]. injection Hs as <-.
      destruct (receive_inv _ _ _ _ _ Hi Hr) as (i & h & Hin & Hh & Ha & Hc & Hrs & Htake).
      pose proof (si_done _ _ _ Hi) as Hd. rewrite Hpc in Hd.
      split; [|unfold steps_left; simpl; rewrite Hr, Hpc; simpl; lia].
      destruct Hi; split; simpl; try done. intros _. by apply si_drain0.
    + injection Hs as <-. pose proof (si_done _ _ _ Hi) as Hd. rewrite Hpc in Hd.
      split; [|unfold steps_left; simpl; rewrite Hpc; simpl; lia].
      destruct Hi; split; simpl; try done. intros _. by apply Hd.
Qed.
Lemma timeout_step_inv s mus sent s' :
  sys_inv s mus sent → timeout_step computeInfo timeout s = Some s' →
  ∃ mus' sent', sys_inv s' mus' sent' ∧ (steps_left s' mus' < steps_left s mus)%nat.
Proof.
  intros Hi Hs. exists mus, sent. unfold timeout_step in Hs. destruct (p_pc s) eqn:Hpc; try done.
  destruct (timeout >? 0) eqn:Et; [|done]. rewrite Z.gtb_ltb, Z.ltb_lt in Et. injection Hs as <-.
  destruct (si_select _ _ _ Hi Hpc) as (Hkill & Hto & Htrue & Hfalse & Hcnt).
  split; [|unfold steps_left; simpl; rewrite Hpc; unfold break_pc; destruct computeInfo; simpl; lia].
  unfold break_pc. destruct Hi. split; simpl; try done.
  - intros j h2 g2 Hh2 Hg2. destruct (si_thread0 j h2 g2 Hh2 Hg2) as (mu & ? & ?).
    exists mu. split; [done|]. by eapply (thread_ok_kill (p_kill s)).
  - intros j b Hj. destruct (si_sent0 j b Hj) as (? & h2 & ? & ?). split; [done|].
    exists h2. split; [done|]. by eapply (answer_ok_kill (p_kill s)).
  - by destruct computeInfo.
  - by destruct computeInfo.
  - by destruct computeInfo.
  - by destruct computeInfo.
Qed.

Lemma step_inv s mus sent l s' :
  sys_inv s mus sent → step model history computeInfo timeout l s = Some s' →
  ∃ mus' sent', sys_inv s' mus' sent' ∧ (steps_left s' mus' < steps_left s mus)%nat.
Proof.
  intros Hi Hs. unfold step in Hs.
  destruct (p_pc s); [| | |done]; (destruct l as [i| |];
    [by eapply goroutine_step_inv|by eapply main_step_inv|by eapply timeout_step_inv]).
Qed.

Lemma steps_inv ls s mus sent s' :
  sys_inv s mus sent → steps model history computeInfo timeout ls s = Some s' →
  ∃ mus' sent', sys_inv s' mus' sent' ∧ (List.length ls + steps_left s' mus' <= steps_left s mus)%nat.
Proof.
  revert s mus sent. induction ls as [|l ls IH]; intros s mus sent Hi Hs; simpl in *.
  - injection Hs as <-. eauto.
  - apply bind_Some in Hs as (s1 & Hs1 & Hs).
    destruct (step_inv _ _ _ _ _ Hi Hs1) as (mus1 & sent1 & Hi1 & Hlt).
    destruct (IH _ _ _ Hi1 Hs) as (mus' & sent' & Hi' & Hle). exists mus', sent'. split; [done|lia].
Qed.

(** The number of steps of any schedule. *)
Definition step_bound : nat :=
  sum_list ((λ h : list (entry V), search_fuel (List.length h / 2) + 4)%nat <$> history) + 2.

Lemma init_inv :
  ∃ mus, sys_inv (init_sys history) mus [] ∧ steps_left (init_sys history) mus = step_bound.
Proof.
  exists ((λ h : list (entry V), search_fuel (List.length h / 2) + 4)%nat <$> history).
  split; [|unfold steps_left, step_bound; simpl; lia].
  split; simpl; try done.
  - by rewrite length_fmap.
  - by rewrite length_replicate.
  - by rewrite length_fmap.
  - intros i h g Hh Hg. rewrite list_lookup_fmap, Hh in Hg. injection Hg as <-.
    rewrite list_lookup_fmap, Hh. simpl. eexists. done.
  - intros i h l Hh [-> _]%lookup_replicate j p Hp. done.
  - constructor.
  - by intros i b ?%elem_of_nil.
  - intros i Hi. rewrite list_lookup_fmap in Hi. by destruct (history !! i).
  - intros _. split_and!; try done. destruct history; [by right|left]. rewrite zlen_cons.
    pose proof (zlen_nonneg l0). lia.
Qed.

(** Deadlock freedom: without a timeout, as long as there is a partition, some
    goroutine or the caller can move. *)
Lemma progress s mus sent :
  sys_inv s mus sent → history ≠ [] → p_pc s ≠ Returned →
  ∃ l s', l ≠ LTimeout ∧ step model history computeInfo timeout l s = Some s'.
Proof.
  intros Hi Hne Hpc. pose proof (si_safe _ _ _ Hi) as Hsafe.
  assert (∀ l s', step model history computeInfo timeout l s =
    match l with LRun i => goroutine_step model history computeInfo i s
               | LMain => main_step history computeInfo s
               | LTimeout => timeout_step computeInfo timeout s end) as Hstep.
  { intros l _. unfold step. by destruct (p_pc s). }
  destruct (p_results s) as [|r rs] eqn:Hr.
  - destruct (decide (p_count s < zlen history)) as [Hlt|Hge].
    + assert (∃ i g, p_gs s !! i = Some g ∧ g ≠ GExit) as (i & g & Hg & Hgne).
      { assert (∀ g, Decision (g = GExit)) by (intros []; (by left) || (by right)).
        destruct (decide (Forall (λ g, g = GExit) (p_gs s))) as [Hall|Hex].
        - exfalso. assert (List.length history <= List.length sent)%nat.
          { rewrite <- (length_fmap fst sent), <- (length_seq (List.length history) 0).
            apply submseteq_length, NoDup_submseteq; [apply NoDup_seq|].
            intros i Hii%elem_of_seq. apply (si_exit _ _ _ Hi).
            destruct (lookup_lt_is_Some_2 (p_gs s) i) as [g Hg]; [rewrite (si_gs _ _ _ Hi); lia|].
            rewrite Forall_forall in Hall. rewrite Hg. f_equal. apply Hall.
            by eapply list_elem_of_lookup_2. }
          pose proof (si_results _ _ _ Hi) as Hd. rewrite Hr in Hd. symmetry in Hd.
          assert (List.length (drop (Z.to_nat (p_count s)) sent.*2) = 0%nat) as Hl by (by rewrite Hd).
          rewrite length_drop, length_fmap in Hl. unfold zlen in *.
          destruct (si_count _ _ _ Hi). lia.
        - apply not_Forall_Exists in Hex; [|apply _]. apply Exists_exists in Hex as (g & Hin & Hg).
          apply list_elem_of_lookup in Hin as [i ?]. by exists i, g. }
      exists (LRun i). rewrite (Hstep _ s). unfold goroutine_step. rewrite Hg. simpl.
      destruct g as [sub|hd sd|ok l|ok|]; [destruct (start model sub) as [[]|]| |..]; eauto.
      * destruct (body _ _ _ _ _) as [[[[]]|]|]; eauto.
      * rewrite Hr. destruct (Z.ltb_spec (zlen (A:=bool) []) (zlen history)); [eauto|].
        unfold zlen in *. simpl in *. destruct history; [done|simpl in *; lia].
      * done.
    + exists LMain. rewrite (Hstep _ s). unfold main_step. destruct (p_pc s) eqn:E; try done.
      * destruct (si_select _ _ _ Hi E) as (_ & _ & _ & _ & [?|?]); [lia|done].
      * destruct (Z.ltb_spec (p_count s) (zlen history)); [lia|eauto].
  - exists LMain. rewrite (Hstep _ s). unfold main_step. rewrite Hr.
    destruct (p_pc s); try done; repeat case_match; eauto.
Qed.
(** From any state there is a way to the end. *)
Lemma can_return s mus sent :
  sys_inv s mus sent → history ≠ [] →
  ∃ ls s' mus' sent', steps model history computeInfo timeout ls s = Some s' ∧
    sys_inv s' mus' sent' ∧ p_pc s' = Returned.
Proof.
  intros Hi Hne. remember (steps_left s mus) as n eqn:Hn. revert s mus sent Hi Hn.
  induction (lt_wf n) as [n _ IH]. intros s mus sent Hi ->.
  destruct (decide (p_pc s = Returned)) as [|Hpc].
  - by exists [], s, mus, sent.
  - destruct (progress s mus sent Hi Hne Hpc) as (l & s1 & _ & Hs1).
    destruct (step_inv _ _ _ _ _ Hi Hs1) as (mus1 & sent1 & Hi1 & Hlt).
    destruct (IH _ Hlt _ _ _ Hi1 eq_refl) as (ls & s' & mus' & sent' & Hls & ? & ?).
    exists (l :: ls), s', mus', sent'. split; [|done]. simpl. by rewrite Hs1.
Qed.

Lemma verdict s mus sent :
  sys_inv s mus sent → p_pc s = Returned →
  (get_result s = Ok → Forall (λ h, lin h) history) ∧
  (get_result s = Illegal → Exists (λ h, ¬ lin h) history) ∧
  (get_result s = Unknown → 0 < timeout).
Proof.
  intros Hi Hpc. unfold get_result. destruct (p_ok s) eqn:Hk; simpl.
  - destruct (p_timedOut s) eqn:Ht; split_and!; try done; intros _.
    + by apply (si_timeout _ _ _ Hi).
    + apply (si_done _ _ _ Hi); [by rewrite Hpc|done..].
  - split_and!; try done. intros _. apply Exists_exists. by apply (si_illegal _ _ _ Hi).
Qed.
End proof.

Section info.
Context {V St : Type} `{GoMapOrder} (model : Model V St) (history : list (list (entry V))).
Implicit Types (l : longest_t) (h : list (entry V)).

Definition sound_partials h (ps : list (list Z)) : Prop :=
  Forall (λ σ, σ ≠ [] ∧ ∃ st, partial_linearization (Step model) h (Init model) σ st) ps.

Lemma partials_of_spec h l :
  longest_sound model h l → ∃ ps, partials_of l = Some ps ∧ sound_partials h ps.
Proof.
  intros Hl. unfold partials_of.
  assert (∀ p, p ∈ map_order (remove_dups (omap (λ v, v) (fst l))) →
    ∃ σ, snd l !! p = Some σ ∧ σ ≠ [] ∧ ∃ st, partial_linearization (Step model) h (Init model) σ st) as Hp.
  { intros p. rewrite map_order_perm, elem_of_remove_dups, list_elem_of_omap.
    intros (q & Hq & ->). apply list_elem_of_lookup in Hq as [i Hi]. by eapply Hl. }
  revert Hp. generalize (map_order (remove_dups (omap (λ v, v) (fst l)))). intros k Hk.
  induction k as [|p k IH]; [exists []; by split; [|constructor]|].
  destruct (Hk p) as (σ & Hσ & Hne & Hpl); [left|].
  destruct IH as (ps & Hps & Hs); [intros; apply Hk; by right|].
  exists (σ :: ps). simpl. rewrite Hσ. simpl. split; [apply bind_Some; by exists ps|constructor; eauto].
Qed.

Lemma get_info_spec ci timeout (s : sys V St) mus sent :
  sys_inv model history ci timeout s mus sent →
  ∃ info, get_info history ci s = Some info ∧
    ∀ d, info = Some d → info_history d = history ∧
      Forall2 sound_partials history (info_partialLinearizations d).
Proof.
  intros Hi. unfold get_info. destruct ci; [|by exists None].
  assert (∃ ps, mapM partials_of (p_longest s) = Some ps ∧ Forall2 sound_partials history ps)
    as (ps & Hps & H2); [|rewrite Hps; eexists; split; [done|]; by intros d [= <-]].
  pose proof (si_longest _ _ _ _ _ _ _ Hi) as Hlen. pose proof (si_info _ _ _ _ _ _ _ Hi) as Hinfo.
  clear Hi. revert Hlen Hinfo. generalize (p_longest s). clear.
  induction history as [|h hs IH]; intros [|l ls] Hlen Hinfo; simplify_eq/=; [exists []; by split; [|constructor]|].
  destruct (partials_of_spec h l) as (q & Hq & Hs); [by apply (Hinfo 0%nat)|].
  destruct (IH ls) as (ps & Hps & H2); [done|intros i; by apply (Hinfo (S i))|].
  exists (q :: ps). rewrite Hq. simpl. split; [apply bind_Some; by exists ps|by constructor].
Qed.
End info.

End ParallelProof.
