(* ===== verification/History.v ===== *)
(** Operation and event histories: what [makeEntries], [renumber] and
    [convertEntries] of porcupine/checker.go hand to the search, and
    linearizability stated on the operations themselves. *)

From S2P Require Import Prelude GoStd PorcupineModel Linearize NodeList Checker CheckerProof.

#[local] Open Scope Z_scope.

Module History.
Export CheckerProof.

(** ** Linearizability of a list of operations *)

Section op_spec.
Context {V St : Type} (step : St → V → V → option (bool * St)).
Implicit Types (o a b : Operation V) (ops : list (Operation V)).

(** The model accepts the operations one after the other. *)
Fixpoint run_ops (s : St) ops : option St :=
  match ops with
  | [] => Some s
  | o :: ops =>
      '(ok, s') ← step s (op_Input o) (op_Output o);
      if (ok : bool) then run_ops s' ops else None
  end.

(** [b] did not return before [a] was called. *)
Definition may_follow a b : Prop := ¬ op_Return b < op_Call a.

(** Some reordering of the operations that keeps the real-time order is accepted. *)
Definition op_linearizable ops (s : St) : Prop :=
  ∃ ops', ops' ≡ₚ ops ∧ StronglySorted may_follow ops' ∧ is_Some (run_ops s ops').
End op_spec.

(** What the recorded times must satisfy: every operation takes time and none
    returns at the very instant another one is called. *)
Record times_ok {V} (ops : list (Operation V)) : Prop := {
  to_positive : Forall (λ o, op_Call o < op_Return o) ops;
  to_distinct : ∀ a b, a ∈ ops → b ∈ ops → op_Return a ≠ op_Call b;
}.

(** ** [makeEntries] *)

Section make.
Context {V : Type} `{GoSort}.
Implicit Types (o a b : Operation V) (ops : list (Operation V)) (e c r : entry V).

Definition call_entry (i : Z) o : entry V :=
  mkEntry callEntry (op_Input o) i (op_Call o) (op_ClientId o).
Definition return_entry (i : Z) o : entry V :=
  mkEntry returnEntry (op_Output o) i (op_Return o) (op_ClientId o).

(** The entries are those of the operations, numbered by position. *)
Lemma elem_of_loop ops j e :
  e ∈ makeEntries_loop j ops ↔
  ∃ n o, ops !! n = Some o ∧ (e = call_entry (j + Z.of_nat n) o ∨ e = return_entry (j + Z.of_nat n) o).
Proof.
  revert j. induction ops as [|o ops IH]; intros j; simpl.
  - split; [by intros ?%elem_of_nil|by intros (? & ? & ? & _)].
  - rewrite !elem_of_cons, IH. split.
    + intros [->|[->|(n & o' & ? & Heq)]].
      * exists 0%nat, o. rewrite Z.add_0_r. auto.
      * exists 0%nat, o. rewrite Z.add_0_r. auto.
      * exists (S n), o'. replace (j + Z.of_nat (S n)) with (j + 1 + Z.of_nat n) by lia. auto.
    + intros ([|n] & o' & Ho & Heq); simplify_eq/=.
      * rewrite Z.add_0_r in Heq. destruct Heq; auto.
      * right; right. exists n, o'. replace (j + 1 + Z.of_nat n) with (j + Z.of_nat (S n)) by lia. auto.
Qed.

Lemma elem_of_makeEntries ops e :
  e ∈ makeEntries ops ↔
  ∃ n o, ops !! n = Some o ∧ (e = call_entry (Z.of_nat n) o ∨ e = return_entry (Z.of_nat n) o).
Proof. unfold makeEntries. rewrite go_sort_perm, elem_of_loop. done. Qed.

Lemma length_makeEntries ops : List.length (makeEntries ops) = (2 * List.length ops)%nat.
Proof.
  unfold makeEntries. rewrite go_sort_perm. generalize 0.
  induction ops as [|o ops IH]; intros j; simpl; [done|]. rewrite IH. lia.
Qed.

Lemma keys_ge ops j k i : (k, i) ∈ key <$> makeEntries_loop j ops → j <= i.
Proof.
  intros (e & Heq & (n & o & _ & [->| ->])%elem_of_loop)%list_elem_of_fmap;
    unfold key in Heq; simplify_eq/=; lia.
Qed.

Lemma NoDup_keys ops j : NoDup (key <$> makeEntries_loop j ops).
Proof.
  revert j. induction ops as [|o ops IH]; intros j; simpl; [constructor|].
  assert (∀ k, (k, j) ∉ key <$> makeEntries_loop (j + 1) ops) as Hn by (intros k Hk%keys_ge; lia).
  constructor; [|constructor; [apply Hn|apply IH]].
  apply not_elem_of_cons. split; [done|apply Hn].
Qed.

Lemma makeEntries_sorted ops : StronglySorted (λ e1 e2, time e1 <= time e2) (makeEntries ops).
Proof.
  assert (weak_order (byTime_Less (V:=V))) as Hw.
  { unfold byTime_Less. apply (weak_order_on time Z.ltb weak_order_Zlt). }
  pose proof (go_sort_sorted (byTime_Less (V:=V)) (makeEntries_loop 0 ops) Hw) as Hs.
  fold (makeEntries ops) in Hs. induction Hs as [|e l Hl IH Hall]; constructor; [done|].
  eapply Forall_impl; [exact Hall|]. intros e' He'. unfold not_greater, byTime_Less in He'.
  zbool. lia.
Qed.

(** In a list sorted by time, an earlier time comes first. *)
Lemma sorted_before (l : list (entry V)) e1 e2 :
  StronglySorted (λ e1 e2, time e1 <= time e2) l → e1 ∈ l → e2 ∈ l → time e1 < time e2 → before l e1 e2.
Proof.
  intros Hs H1 H2 Hlt. induction Hs as [|e l Hl IH Hall]; [by apply elem_of_nil in H1|].
  rewrite Forall_forall in Hall. unfold before.
  apply elem_of_cons in H1 as [->|H1], H2 as [->|H2].
  - lia.
  - apply sublist_skip. by apply singleton_sublist_l.
  - specialize (Hall _ H1). simpl in Hall. lia.
  - apply sublist_cons. by apply IH.
Qed.

Lemma before_sorted (l : list (entry V)) e1 e2 :
  StronglySorted (λ e1 e2, time e1 <= time e2) l → before l e1 e2 → time e1 <= time e2.
Proof.
  intros Hs (h1 & h2 & -> & Hin)%before_inv.
  apply list_elem_of_split in Hin as (l1 & l2 & ->). rewrite <- app_assoc in Hs.
  apply StronglySorted_app in Hs as (_ & _ & Hs).
  apply StronglySorted_inv in Hs as [_ Hall]. rewrite Forall_forall in Hall.
  apply Hall. set_solver.
Qed.
Lemma makeEntries_hist_ok ops :
  Forall (λ o, op_Call o < op_Return o) ops → hist_ok (makeEntries ops).
Proof.
  intros Hpos. rewrite Forall_forall in Hpos. split; [split|].
  - unfold makeEntries. rewrite go_sort_perm. apply NoDup_keys.
  - intros e (n & o & Ho & He)%elem_of_makeEntries.
    exists (call_entry (Z.of_nat n) o), (return_entry (Z.of_nat n) o).
    split_and!; [done|done|by destruct He; subst|by destruct He; subst|].
    apply sorted_before; [apply makeEntries_sorted|apply elem_of_makeEntries; eauto..|].
    simpl. by apply Hpos, list_elem_of_lookup_2 with n.
  - intros e (n & o & Ho & He)%elem_of_makeEntries. unfold zlen. rewrite length_makeEntries.
    apply lookup_lt_Some in Ho. destruct He; subst; simpl; lia.
Qed.

Lemma precedes_makeEntries ops i j a b :
  times_ok ops → ops !! i = Some a → ops !! j = Some b →
  precedes (makeEntries ops) (Z.of_nat i) (Z.of_nat j) ↔ op_Return a < op_Call b.
Proof.
  intros [Hpos Hdis] Ha Hb. split.
  - intros (r & c & Hr & Hri & Hc & Hci & Hbf).
    destruct (before_elem _ _ _ Hbf) as [Hrin Hcin].
    apply elem_of_makeEntries in Hrin as (i' & a' & Ha' & [->| ->]); [done|].
    apply elem_of_makeEntries in Hcin as (j' & b' & Hb' & [->| ->]); [|done].
    simpl in Hri, Hci. apply Nat2Z.inj in Hri as ->, Hci as ->. simplify_eq.
    apply before_sorted in Hbf; [|apply makeEntries_sorted]. simpl in Hbf.
    assert (op_Return a ≠ op_Call b); [|lia].
    apply Hdis; by eapply list_elem_of_lookup_2.
  - intros Hlt. exists (return_entry (Z.of_nat i) a), (call_entry (Z.of_nat j) b).
    split_and!; try done. apply sorted_before; [apply makeEntries_sorted|..|done];
      apply elem_of_makeEntries; eauto.
Qed.

(** ** Orders of ids and orders of operations *)

Context {St : Type} (step : St → V → V → option (bool * St)).

(** The id [i] is the position of [o]. *)
Definition at_index ops (i : Z) o : Prop := 0 <= i ∧ ops !! Z.to_nat i = Some o.

Definition indexes ops : list Z := Z.of_nat <$> seq 0 (List.length ops).

Lemma indexes_spec ops : Forall2 (at_index ops) (indexes ops) ops.
Proof.
  unfold indexes. apply Forall2_fmap_l. apply Forall2_lookup. intros k.
  destruct (decide (k < List.length ops)%nat) as [Hlt|Hge].
  - rewrite lookup_seq_lt by done. destruct (lookup_lt_is_Some_2 ops k Hlt) as [o Ho].
    rewrite Ho. constructor. split; [lia|]. by rewrite Nat2Z.id.
  - rewrite lookup_seq_ge, lookup_ge_None_2 by lia. constructor.
Qed.

Lemma elem_of_indexes ops i : i ∈ indexes ops ↔ 0 <= i < zlen ops.
Proof.
  unfold indexes, zlen. rewrite list_elem_of_fmap. split.
  - intros (n & -> & Hn%elem_of_seq). lia.
  - intros Hi. exists (Z.to_nat i). rewrite elem_of_seq. lia.
Qed.

Lemma NoDup_indexes ops : NoDup (indexes ops).
Proof. apply NoDup_fmap_2; [apply _|apply NoDup_seq]. Qed.

Lemma apply_op_makeEntries ops s i o :
  hist_ok (makeEntries ops) → at_index ops i o →
  apply_op step (makeEntries ops) s i =
    ('(ok, s') ← step s (op_Input o) (op_Output o); if (ok : bool) then Some s' else None).
Proof.
  intros [Hwf _] [Hi Ho]. rewrite <- (Z2Nat.id i Hi). unfold apply_op.
  set (n := Z.of_nat (Z.to_nat i)).
  assert (call_of (makeEntries ops) n = Some (call_entry n o)) as ->.
  { apply (call_of_Some _ (call_entry n o)); [done| |done]. apply elem_of_makeEntries. eauto. }
  assert (return_of (makeEntries ops) n = Some (return_entry n o)) as ->.
  { apply (return_of_Some _ (return_entry n o)); [done| |done]. apply elem_of_makeEntries. eauto. }
  done.
Qed.

Lemma run_makeEntries ops s σ ops' :
  hist_ok (makeEntries ops) → Forall2 (at_index ops) σ ops' →
  run step (makeEntries ops) s σ = run_ops step s ops'.
Proof.
  intros Hok H2. revert s. induction H2 as [|i o σ ops' Hio _ IH]; intros s; simpl; [done|].
  rewrite (apply_op_makeEntries _ _ _ _ Hok Hio).
  destruct (step s (op_Input o) (op_Output o)) as [[[] s']|]; simpl; auto.
Qed.

(** A permutation of the ids is a linearization exactly when the operations
    in that order are legal and respect real time. *)
Lemma linearization_ops ops s σ ops' :
  times_ok ops → σ ≡ₚ indexes ops → Forall2 (at_index ops) σ ops' →
  linearization step (makeEntries ops) s σ ↔
  StronglySorted may_follow ops' ∧ is_Some (run_ops step s ops').
Proof.
  intros Ht Hperm H2. pose proof (makeEntries_hist_ok ops (to_positive _ Ht)) as Hok.
  assert (StronglySorted (λ i j, ¬ precedes (makeEntries ops) j i) σ ↔ StronglySorted may_follow ops') as Hord.
  { eapply StronglySorted_Forall2; [|exact H2]. intros i a j b [Hi Ha] [Hj Hb]. unfold may_follow.
    rewrite <- (Z2Nat.id i), <- (Z2Nat.id j) by done. by rewrite precedes_makeEntries. }
  rewrite <- Hord, <- (run_makeEntries ops s σ ops') by done. rewrite StronglySorted_split. split.
  - intros [(s' & Hpl) _]. split; [apply Hpl|]. exists s'. apply Hpl.
  - intros [Hsp [s' Hrun]].
    assert (∀ e, e ∈ makeEntries ops → id e ∈ σ) as Hall.
    { intros e (n & o & Ho & He)%elem_of_makeEntries. rewrite Hperm. apply elem_of_indexes.
      apply lookup_lt_Some in Ho. unfold zlen. destruct He; subst; simpl; lia. }
    split; [|done]. exists s'. split; try done.
    + rewrite Hperm. apply NoDup_indexes.
    + intros i Hi. rewrite Hperm, elem_of_indexes in Hi.
      destruct (lookup_lt_is_Some_2 ops (Z.to_nat i)) as [o Ho]; [unfold zlen in Hi; lia|].
      exists (call_entry (Z.of_nat (Z.to_nat i)) o). simpl. split; [|lia].
      apply elem_of_makeEntries. eauto.
    + intros a b _ (r & c & _ & Hr & _ & _ & Hb). apply before_elem in Hb as [Hb _]. subst. by apply Hall.
Qed.

Lemma at_index_fun ops i o o' : at_index ops i o → at_index ops i o' → o = o'.
Proof. intros [_ ?] [_ ?]. congruence. Qed.

Lemma makeEntries_linearizable ops s :
  times_ok ops → linearizable step (makeEntries ops) s ↔ op_linearizable step ops s.
Proof.
  intros Ht. pose proof (makeEntries_hist_ok ops (to_positive _ Ht)) as Hok. split.
  - intros (σ & Hlin). pose proof Hlin as [(s' & Hpl) Hall].
    assert (σ ≡ₚ indexes ops) as Hperm.
    { apply NoDup_Permutation; [apply Hpl|apply NoDup_indexes|]. intros i. rewrite elem_of_indexes. split.
      - intros (e & (n & o & Ho & He)%elem_of_makeEntries & <-)%(pl_ids _ _ _ _ _ Hpl).
        apply lookup_lt_Some in Ho. unfold zlen. destruct He; subst; simpl; lia.
      - intros Hi. destruct (lookup_lt_is_Some_2 ops (Z.to_nat i)) as [o Ho]; [unfold zlen in Hi; lia|].
        rewrite <- (Z2Nat.id i) by lia. apply (Hall (call_entry (Z.of_nat (Z.to_nat i)) o)).
        apply elem_of_makeEntries. eauto. }
    destruct (Permutation_Forall2 (symmetry Hperm) (indexes_spec ops)) as (ops' & Hp & H2).
    exists ops'. split; [by symmetry|]. by apply (linearization_ops ops s σ).
  - intros (ops' & Hp & Hs & Hrun).
    destruct (Permutation_Forall2 (symmetry Hp) (proj2 (Forall2_flip _ _ _) (indexes_spec ops))) as (σ & Hperm & H2).
    exists σ. eapply linearization_ops; [done|by symmetry| |done]. by apply (proj1 (Forall2_flip _ _ _)).
Qed.
End make.

(** ** [renumber] and [convertEntries] *)

Section renumbering.
Context {V St : Type} (step : St → V → V → option (bool * St)).
Implicit Types (v : Event V) (evs : list (Event V)) (m : gmap Z Z) (f : Z → Z)
  (h : list (entry V)) (e : entry V).

Definition rename_event f v : Event V := mkEvent (ev_ClientId v) (ev_Kind v) (ev_Value v) (f (ev_Id v)).
Definition rename f e : entry V := mkEntry (kind e) (value e) (f (id e)) (time e) (clientId e).

(** The numbers given so far are those below [i], each once. *)
Record numbering m (i : Z) : Prop := {
  nb_size : i = Z.of_nat (size m);
  nb_range : ∀ k n, m !! k = Some n → 0 <= n < i;
  nb_inj : ∀ k k' n, m !! k = Some n → m !! k' = Some n → k = k';
}.

Lemma numbering_insert m i k : numbering m i → m !! k = None → numbering (<[k := i]> m) (i + 1).
Proof.
  intros [Hs Hr Hi] Hk. split.
  - rewrite map_size_insert_None by done. lia.
  - intros k' n. rewrite lookup_insert_Some. intros [[<- <-]|[_ Hn]]; [lia|]. apply Hr in Hn. lia.
  - intros k1 k2 n. rewrite !lookup_insert_Some.
    intros [[<- <-]|[? H1]] [[<- E]|[? H2]]; [done| | |by eapply Hi].
    + apply Hr in H2. lia.
    + subst. apply Hr in H1. lia.
Qed.

(** [renumber_loop] extends the numbering to every id and applies it. *)
Lemma renumber_loop_spec m i evs :
  numbering m i →
  ∃ M, m ⊆ M ∧ numbering M (Z.of_nat (size M)) ∧
    (∀ k, is_Some (M !! k) ↔ is_Some (m !! k) ∨ k ∈ ev_Id <$> evs) ∧
    renumber_loop m i evs = map (rename_event (λ k, default 0 (M !! k))) evs.
Proof.
  revert m i. induction evs as [|v evs IH]; intros m i Hm; simpl.
  - exists m. split_and!; [done| | |done].
    + by rewrite <- (nb_size _ _ Hm).
    + intros k. by rewrite elem_of_nil, (right_id False or).
  - destruct (m !! ev_Id v) as [r|] eqn:E.
    + destruct (IH m i Hm) as (M & Hsub & HM & Hdom & ->). exists M. split_and!; [done..| |].
      * intros k. rewrite Hdom, elem_of_cons. split; [tauto|].
        intros [|[->|]]; [tauto|left; eauto|tauto].
      * unfold rename_event at 2. by rewrite (lookup_weaken _ _ _ _ E Hsub).
    + destruct (IH _ _ (numbering_insert _ _ _ Hm E)) as (M & Hsub & HM & Hdom & ->).
      exists M. split_and!; [|done| |].
      * etrans; [by apply insert_subseteq|done].
      * intros k. rewrite Hdom, elem_of_cons, lookup_insert_is_Some'. naive_solver.
      * unfold rename_event at 2. erewrite (lookup_weaken (<[ev_Id v:=i]> m) M); [done| |done].
        apply lookup_insert_eq.
Qed.

Lemma renumber_spec evs :
  ∃ M, numbering M (Z.of_nat (size M)) ∧ (∀ k, is_Some (M !! k) ↔ k ∈ ev_Id <$> evs) ∧
    renumber evs = map (rename_event (λ k, default 0 (M !! k))) evs.
Proof.
  destruct (renumber_loop_spec ∅ 0 evs) as (M & _ & HM & Hdom & Heq).
  - split; [by rewrite map_size_empty|..]; by intros *; rewrite ?lookup_empty.
  - exists M. split_and!; [done| |done]. intros k. rewrite Hdom, lookup_empty.
    split; [intros [[? [=]]|]; done|tauto].
Qed.

Lemma convertEntries_rename f evs :
  convertEntries (map (rename_event f) evs) = map (rename f) (convertEntries evs).
Proof.
  unfold convertEntries. generalize 0.
  induction evs as [|v evs IH]; intros i; simpl; [done|]. by rewrite IH.
Qed.

Lemma convertEntries_ids evs : map id (convertEntries evs) = ev_Id <$> evs.
Proof.
  unfold convertEntries. generalize 0.
  induction evs as [|v evs IH]; intros i; simpl; [done|]. by rewrite IH.
Qed.

(** ** Renaming operations *)

Definition inj_on (f : Z → Z) h : Prop :=
  ∀ e e', e ∈ h → e' ∈ h → f (id e) = f (id e') → id e = id e'.

Lemma before_rename f h e e' : before h e e' → before (map (rename f) h) (rename f e) (rename f e').
Proof.
  unfold before. change [rename f e; rename f e'] with (map (rename f) [e; e']).
  induction 1; simpl; by constructor.
Qed.

Lemma wf_hist_rename f h : inj_on f h → wf_hist h → wf_hist (map (rename f) h).
Proof.
  intros Hinj Hwf. split.
  - rewrite map_map. pose proof (wf_NoDup _ Hwf) as Hnd.
    apply NoDup_fmap_2_strong; [|done]. intros e e' He He' Heq. unfold key, rename in Heq.
    simplify_eq/=. apply (key_inj h); auto.
  - intros e' (e & -> & He)%list_elem_of_fmap.
    destruct (wf_pair _ Hwf e He) as (c & r & Hc & Hr & Hci & Hri & Hb).
    exists (rename f c), (rename f r). unfold is_call, is_return in *. simpl.
    split_and!; try congruence. by apply before_rename.
Qed.

Lemma remove_rename f h e :
  inj_on f h → e ∈ h → remove (f (id e)) (map (rename f) h) = map (rename f) (remove (id e) h).
Proof.
  intros Hinj He. unfold remove. rewrite (list_filter_fmap (rename f)). f_equal.
  apply list_filter_ext_elem. intros e' He'. simpl. split; [congruence|]. intros Hne Heq. by apply Hne, Hinj.
Qed.

Lemma sched_rename f h s e s1 :
  inj_on f h → e ∈ h →
  sched step (map (rename f) h) s (f (id e)) s1 ↔ sched step h s (id e) s1.
Proof.
  intros Hinj He. split.
  - intros (pre & c & suf & r & Heq & Hpre & Hc & Hci & Hr & Hrr & Hri & Hs).
    apply map_eq_app in Heq as (pre' & h2 & -> & <- & Heq).
    apply map_eq_cons in Heq as (c' & suf' & -> & <- & <-).
    apply list_elem_of_fmap in Hr as (r' & -> & Hr'). simpl in *.
    exists pre', c', suf', r'. split_and!; try done.
    + by rewrite Forall_map in Hpre.
    + apply Hinj; [set_solver|done|done].
    + apply Hinj; [set_solver|done|done].
  - intros (pre & c & suf & r & -> & Hpre & Hc & Hci & Hr & Hrr & Hri & Hs).
    exists (map (rename f) pre), (rename f c), (map (rename f) suf), (rename f r).
    split_and!; try done; simpl; try congruence.
    + by rewrite map_app.
    + by rewrite Forall_map.
    + by apply list_elem_of_fmap_2.
Qed.

Lemma inj_on_remove f h i : inj_on f h → inj_on f (remove i h).
Proof. intros Hinj e e' [? _]%elem_of_remove [? _]%elem_of_remove. by apply Hinj. Qed.

Lemma schedulable_rename f h s :
  inj_on f h → wf_hist h → schedulable step (map (rename f) h) s ↔ schedulable step h s.
Proof.
  intros Hinj Hwf. split.
  - intros (σ & s' & Hp). remember (map (rename f) h) as h1 eqn:E1. remember [] as h2 eqn:E2.
    revert h E1 Hinj Hwf. induction Hp as [h1 s|h1 s i s1 σ h2 s' Hs _ IH]; intros h -> Hinj Hwf; subst.
    + destruct h; [|done]. exists [], s. constructor.
    + destruct (sched_apply _ _ _ _ _ (wf_hist_rename _ _ Hinj Hwf) Hs) as [_ (e' & He' & <-)].
      apply list_elem_of_fmap in He' as (e & -> & He). simpl in *. rewrite sched_rename in Hs by done.
      destruct (IH eq_refl (remove (id e) h)) as (σ2 & s2 & Hp2);
        [by apply remove_rename|by apply inj_on_remove|by apply wf_remove|].
      exists (id e :: σ2), s2. by econstructor.
  - intros (σ & s' & Hp). remember [] as h2 eqn:E2. revert Hinj Hwf.
    induction Hp as [h s|h s i s1 σ h2 s' Hs _ IH]; intros Hinj Hwf; subst.
    + exists [], s. constructor.
    + destruct (sched_apply _ _ _ _ _ Hwf Hs) as [_ (e & He & <-)].
      destruct IH as (σ2 & s2 & Hp2); [done|by apply inj_on_remove|by apply wf_remove|].
      exists (f (id e) :: σ2), s2. econstructor; [by apply sched_rename|]. by rewrite remove_rename.
Qed.
(** Each of [D]'s operations takes two entries. *)
Lemma ids_length h (D : list Z) :
  wf_hist h → NoDup D → (∀ i, i ∈ D → ∃ e, e ∈ h ∧ id e = i) → (2 * List.length D <= List.length h)%nat.
Proof.
  intros Hwf Hnd. revert h Hwf. induction Hnd as [|i D Hi Hnd IH]; intros h Hwf HD; simpl; [lia|].
  assert (List.length h = (List.length (remove i h) + 2)%nat) as ->.
  { apply length_remove; [done|]. apply HD. left. }
  assert (2 * List.length D <= List.length (remove i h))%nat; [|lia].
  apply IH; [by apply wf_remove|].
  intros j Hj. destruct (HD j) as (e & He & <-); [by right|]. exists e. split; [|done].
  apply elem_of_remove. split; [done|]. set_solver.
Qed.

Lemma default_inj M k k' :
  numbering M (Z.of_nat (size M)) → is_Some (M !! k) → is_Some (M !! k') →
  default 0 (M !! k) = default 0 (M !! k') → k = k'.
Proof.
  intros HM [n Hn] [n' Hn'] Heq. rewrite Hn, Hn' in Heq. simpl in Heq. subst. by eapply nb_inj.
Qed.

(** Renumbering makes a well-formed event history fit the bitset and keeps
    the question the same. *)
Lemma renumber_hist_ok evs s :
  wf_hist (convertEntries evs) →
  hist_ok (convertEntries (renumber evs)) ∧
  (linearizable step (convertEntries (renumber evs)) s ↔ linearizable step (convertEntries evs) s).
Proof.
  intros Hwf. destruct (renumber_spec evs) as (M & HM & Hdom & ->). rewrite convertEntries_rename.
  set (f := λ k, default 0 (M !! k)).
  assert (∀ e, e ∈ convertEntries evs → is_Some (M !! id e)) as Hin.
  { intros e He. apply Hdom. rewrite <- convertEntries_ids. by apply (list_elem_of_fmap_2 id). }
  assert (inj_on f (convertEntries evs)) as Hinj.
  { intros e e' He He' Heq. by eapply default_inj; eauto. }
  pose proof (wf_hist_rename f _ Hinj Hwf) as Hwf'. split; [split; [done|]|].
  - intros e' (e & -> & He)%list_elem_of_fmap. simpl. unfold f.
    destruct (Hin e He) as [n Hn]. rewrite Hn. simpl.
    assert (2 * size M <= List.length (map (rename f) (convertEntries evs)))%nat as Hlen.
    { rewrite length_map, <- length_map_to_list, <- (length_fmap fst).
      apply ids_length; [done|apply NoDup_fst_map_to_list|].
      intros i ([i' x] & -> & Hi%elem_of_map_to_list)%list_elem_of_fmap. simpl.
      assert (i' ∈ map id (convertEntries evs)) as (e2 & ? & ?)%list_elem_of_fmap; [|by exists e2].
      rewrite convertEntries_ids. apply Hdom. eauto. }
    destruct HM as [_ Hr _]. apply Hr in Hn. unfold zlen. fold f. lia.
  - rewrite !linearizable_schedulable by done. by apply schedulable_rename.
Qed.
End renumbering.

End History.
