(* ===== verification/Kv.v ===== *)
(** Model of models/kv.go: the key/value model the tests give to the checker,
    its partition by key, and why checking each key on its own is enough. *)

From S2P Require Import Prelude GoStd PorcupineModel Linearize NodeList Checker CheckerProof History.

#[local] Open Scope Z_scope.

Module Kv.
Export History.

(** ** Data *)

Record KvInput := mkKvInput {
  Op : Z; (* uint8: 0 => get, 1 => put, 2 => append *)
  Key : string;
  Value : string;
}.

Record KvOutput := mkKvOutput { out_Value : string }.

(** The dynamic types that the [interface{}] values of a history can have. *)
Inductive KvValue := VInput (i : KvInput) | VOutput (o : KvOutput).

(** [v.(KvInput)] and [v.(KvOutput)] *)
Definition as_input (v : KvValue) : option KvInput := if v is VInput i then Some i else None.
Definition as_output (v : KvValue) : option KvOutput := if v is VOutput o then Some o else None.

(** ** The model *)

Section model.
Context `{GoSort} `{GoMapOrder}.

(** The map built by the first loop of [Partition]. *)
Fixpoint kv_group (m : gmap string (list (Operation KvValue))) (history : list (Operation KvValue)) :
    option (gmap string (list (Operation KvValue))) :=
  match history with
  | [] => Some m
  | v :: history =>
      inp ← as_input (op_Input v);
      let key := Key inp in
      kv_group (<[key := default [] (m !! key) ++ [v]]> m) history
  end.

Definition KvPartition (history : list (Operation KvValue)) :
    option (list (list (Operation KvValue))) :=
  m ← kv_group ∅ history;
  let keys := go_sort String.ltb (map_order (map_to_list m).*1) in
  Some (map (λ k, default [] (m !! k)) keys).

Definition KvInit : string := "".

Definition KvStep (state : string) (input output : KvValue) : option (bool * string) :=
  inp ← as_input input; out ← as_output output;
  if Op inp =? 0 then Some (bool_decide (out_Value out = state), state)
  else if Op inp =? 1 then Some (true, Value inp)
  else Some (true, state +:+ Value inp).

Definition KvDescribeOperation (input output : KvValue) : option string :=
  inp ← as_input input; out ← as_output output;
  if Op inp =? 0 then Some ("get('" +:+ Key inp +:+ "') -> '" +:+ out_Value out +:+ "'")
  else if Op inp =? 1 then Some ("put('" +:+ Key inp +:+ "', '" +:+ Value inp +:+ "')")
  else if Op inp =? 2 then Some ("append('" +:+ Key inp +:+ "', '" +:+ Value inp +:+ "')")
  else Some "<invalid>".

Definition KvModel : Model KvValue string := {|
  Partition := Some KvPartition;
  PartitionEvent := None;
  Init := KvInit;
  Step := KvStep;
  Equal := None;
  DescribeOperation := Some KvDescribeOperation;
  DescribeState := None;
|}.
End model.

(** ** The store the model stands for

    A map from keys to values; a missing key reads as the empty string.  The
    specification is stated on the whole map and does not use [KvStep]: a get
    leaves the store as it is and must have returned the key's value, a put
    replaces the value, and any other operation appends to it. *)

Abbreviation store := (gmap string string).

Definition read (m : store) (k : string) : string := default "" (m !! k).

Definition store_step (m : store) (input output : KvValue) : option (bool * store) :=
  match input, output with
  | VInput (mkKvInput 0 k _), VOutput (mkKvOutput v) => Some (String.eqb v (read m k), m)
  | VInput (mkKvInput 1 k v), VOutput _ => Some (true, <[k := v]> m)
  | VInput (mkKvInput _ k v), VOutput _ => Some (true, <[k := String.append (read m k) v]> m)
  | _, _ => None
  end.

(** An operation with a key-value request and reply. *)
Definition typed (o : Operation KvValue) : Prop :=
  is_Some (as_input (op_Input o)) ∧ is_Some (as_output (op_Output o)).

Definition op_key (o : Operation KvValue) : string :=
  if as_input (op_Input o) is Some i then Key i else "".

Definition on_key (k : string) (ops : list (Operation KvValue)) : list (Operation KvValue) :=
  filter (λ o, op_key o = k) ops.

Implicit Types (o a b : Operation KvValue) (ops : list (Operation KvValue)) (k : string).

(** ** [Partition] *)

Lemma typed_key o : typed o → ∃ i, as_input (op_Input o) = Some i ∧ op_key o = Key i.
Proof. intros [[i Hi] _]. exists i. unfold op_key. by rewrite Hi. Qed.

Lemma on_key_absent k ops : k ∉ op_key <$> ops → on_key k ops = [].
Proof.
  intros Hk. unfold on_key. destruct (filter _ ops) as [|o l] eqn:E; [done|]. exfalso. apply Hk.
  assert (o ∈ filter (λ o, op_key o = k) ops) as [<- Ho]%list_elem_of_filter by (rewrite E; left).
  by apply list_elem_of_fmap_2.
Qed.

Lemma kv_group_spec m ops :
  Forall typed ops →
  ∃ M, kv_group m ops = Some M ∧
    ∀ k, (k ∈ op_key <$> ops → M !! k = Some (default [] (m !! k) ++ on_key k ops)) ∧
         (k ∉ op_key <$> ops → M !! k = m !! k).
Proof.
  intros Ht. revert m. induction Ht as [|o ops Ho _ IH]; intros m.
  - exists m. split; [done|]. intros k. split; [by intros ?%elem_of_nil|done].
  - destruct (typed_key o Ho) as (i & Hi & Hk). simpl. rewrite Hi. simpl. rewrite <- Hk.
    destruct (IH (<[op_key o := default [] (m !! op_key o) ++ [o]]> m)) as (M & HM & Hlk).
    exists M. split; [done|]. intros k. destruct (Hlk k) as [Hin Hnin]. rewrite elem_of_cons.
    unfold on_key. destruct (decide (op_key o = k)) as [<-|Hne].
    + rewrite lookup_insert_eq in Hin, Hnin. simpl in Hin. rewrite filter_cons_True by done.
      split; [intros _|tauto]. destruct (decide (op_key o ∈ op_key <$> ops)) as [Hd|Hd].
      * by rewrite Hin, <- app_assoc.
      * rewrite Hnin by done. do 2 f_equal. apply on_key_absent in Hd. unfold on_key in Hd. by rewrite Hd.
    + rewrite lookup_insert_ne in Hin, Hnin by done. rewrite filter_cons_False by done.
      split; [intros [->|]; [done|by apply Hin]|intros; apply Hnin; tauto].
Qed.

Section partition.
Context `{GoSort} `{GoMapOrder}.

Lemma KvPartition_spec ops :
  Forall typed ops →
  ∃ keys, KvPartition ops = Some (map (λ k, on_key k ops) keys) ∧ NoDup keys ∧
    (∀ k, k ∈ keys ↔ k ∈ op_key <$> ops).
Proof.
  intros Ht. destruct (kv_group_spec ∅ ops Ht) as (M & HM & Hlk). unfold KvPartition. rewrite HM. simpl.
  set (keys := go_sort String.ltb (map_order (map_to_list M).*1)).
  assert (keys ≡ₚ (map_to_list M).*1) as Hp by (unfold keys; by rewrite go_sort_perm, map_order_perm).
  assert (∀ k, k ∈ keys ↔ k ∈ op_key <$> ops) as Hk.
  { intros k. destruct (Hlk k) as [Hin Hnin]. rewrite lookup_empty in Hin, Hnin.
    rewrite Hp, list_elem_of_fmap. split.
    - intros ([k' l] & -> & Hl%elem_of_map_to_list). simpl in *.
      destruct (decide (k' ∈ op_key <$> ops)); [done|]. rewrite Hnin in Hl by done. done.
    - intros Hkin. eexists (k, _). split; [done|]. by apply elem_of_map_to_list, Hin. }
  exists keys. split_and!; [|rewrite Hp; apply NoDup_fst_map_to_list|done].
  f_equal. apply map_ext_in. intros k Hin%list_elem_of_In. apply Hk in Hin.
  destruct (Hlk k) as [HM' _]. rewrite HM', lookup_empty by done. done.
Qed.
End partition.

End Kv.
