(* ===== verification/KvProof.v ===== *)
(** Locality of the key/value model of Kv.v: a history of the whole store is
    linearizable exactly when the operations on each key are. *)

From S2P Require Import Prelude GoStd PorcupineModel Linearize NodeList Checker CheckerProof History Kv.

#[local] Open Scope Z_scope.

Module KvProof.
Export Kv.

Implicit Types (o a b : Operation KvValue) (ops : list (Operation KvValue)) (k : string).

(** ** Each key evolves on its own *)

Lemma KvStep_total s o : typed o → is_Some (KvStep s (op_Input o) (op_Output o)).
Proof. intros [[i Hi] [q Hq]]. unfold KvStep. rewrite Hi, Hq. simpl. repeat case_match; eauto. Qed.

Lemma read_insert m k k' v : read (<[k := v]> m) k' = if decide (k = k') then v else read m k'.
Proof. unfold read. rewrite lookup_insert. by case_decide. Qed.

(** A step of the store is a step of the model at the operation's key. *)
Lemma store_step_key m o :
  typed o →
  ∃ ok v m', KvStep (read m (op_key o)) (op_Input o) (op_Output o) = Some (ok, v) ∧
    store_step m (op_Input o) (op_Output o) = Some (ok, m') ∧
    ∀ k, read m' k = if decide (op_key o = k) then v else read m k.
Proof.
  intros Ht. unfold op_key. destruct Ht as [[i Hi] [q Hq]]. rewrite Hi.
  destruct (op_Input o) as [i'|], (op_Output o) as [|[w]]; try done. simpl in Hi. injection Hi as ->.
  assert (∀ k, read m k = if decide (Key i = k) then read m (Key i) else read m k) as Hget.
  { intros k. by case_decide; subst. }
  assert (∀ v k, read (<[Key i := v]> m) k = if decide (Key i = k) then v else read m k) as Hput.
  { intros v k. apply read_insert. }
  destruct i as [op key v]. unfold KvStep, store_step. simpl in *.
  destruct op as [|[]|]; simpl; do 3 eexists; (split; [done|]); (split; [|done || apply Hput]); try done.
  by destruct (String.eqb_spec w (read m key)) as [->|]; [rewrite bool_decide_true|rewrite bool_decide_false].
Qed.

Lemma run_store m ops :
  Forall typed ops →
  is_Some (run_ops store_step m ops) ↔ ∀ k, is_Some (run_ops KvStep (read m k) (on_key k ops)).
Proof.
  intros Ht. revert m. induction Ht as [|o ops Ho _ IH]; intros m.
  - split; [|by eexists]. intros _ k. by eexists.
  - destruct (store_step_key m o Ho) as (ok & v & m' & Hkv & Hst & Hread). simpl. rewrite Hst. simpl.
    unfold on_key. split.
    + destruct ok; [|by intros []]. rewrite IH. intros Hall k. specialize (Hall k).
      rewrite Hread in Hall. rewrite filter_cons. case_decide as Hk; [|done].
      subst k. simpl. rewrite Hkv. done.
    + intros Hall. pose proof (Hall (op_key o)) as Ho'. rewrite filter_cons_True in Ho' by done.
      simpl in Ho'. rewrite Hkv in Ho'. simpl in Ho'. destruct ok; [|by destruct Ho'].
      apply IH. intros k. rewrite Hread. specialize (Hall k). rewrite filter_cons in Hall.
      case_decide as Hk; [by subst k|done].
Qed.

(** ** Merging the orders of the keys

    Each order has non-decreasing points inside the operations' intervals: the
    latest call so far.  Merging the orders by their points respects real time. *)

Fixpoint points (acc : Z) ops : list (Z * Operation KvValue) :=
  match ops with
  | [] => []
  | o :: ops => (acc `max` op_Call o, o) :: points (acc `max` op_Call o) ops
  end.

Definition earlier (x y : Z * Operation KvValue) : Prop := x.1 <= y.1.

#[local] Instance earlier_dec : RelDecision earlier.
Proof. intros x y. unfold earlier. apply _. Defined.
#[local] Instance earlier_trans : Transitive earlier.
Proof. intros x y z. unfold earlier. lia. Qed.
#[local] Instance earlier_total : Total earlier.
Proof. intros x y. unfold earlier. lia. Qed.

Definition inside (x : Z * Operation KvValue) : Prop := op_Call x.2 <= x.1 <= op_Return x.2.

Lemma points_snd acc ops : (points acc ops).*2 = ops.
Proof. revert acc. induction ops as [|o ops IH]; intros acc; [done|]. simpl. f_equal. apply IH. Qed.

Lemma points_ge acc ops : Forall (λ x, acc <= x.1) (points acc ops).
Proof.
  revert acc. induction ops as [|o ops IH]; intros acc; constructor; simpl; [lia|].
  eapply Forall_impl; [apply IH|]. simpl. lia.
Qed.

Lemma points_sorted acc ops : StronglySorted earlier (points acc ops).
Proof.
  revert acc. induction ops as [|o ops IH]; intros acc; simpl; constructor; [done|]. apply points_ge.
Qed.

Lemma points_inside acc ops :
  StronglySorted may_follow ops → Forall (λ o, op_Call o <= op_Return o) ops →
  Forall (λ o, acc <= op_Return o) ops → Forall inside (points acc ops).
Proof.
  intros Hs. revert acc. induction Hs as [|o ops Hs IH Hall]; intros acc Hpos Hacc; simpl; constructor.
  - unfold inside. simpl. apply Forall_cons in Hpos as [? _], Hacc as [? _]. lia.
  - apply Forall_cons in Hpos as [_ Hpos], Hacc as [_ Hacc]. apply IH; [done|].
    rewrite Forall_forall in *. intros o' Ho'. specialize (Hall o' Ho'). unfold may_follow in Hall.
    specialize (Hacc o' Ho'). simpl in Hacc. lia.
Qed.

(** An order of one key with its points. *)
Definition with_points ops : list (Z * Operation KvValue) :=
  match ops with [] => [] | o :: _ => points (op_Call o) ops end.

Lemma with_points_spec ops :
  StronglySorted may_follow ops → Forall (λ o, op_Call o <= op_Return o) ops →
  (with_points ops).*2 = ops ∧ Sorted earlier (with_points ops) ∧ Forall inside (with_points ops).
Proof.
  intros Hs Hpos. destruct ops as [|o ops]; [by split_and!; constructor|]. cbn [with_points]. split_and!.
  - apply points_snd.
  - apply StronglySorted_Sorted, points_sorted.
  - apply points_inside; [done..|]. apply StronglySorted_inv in Hs as [_ Hall].
    apply Forall_cons. split; [by apply Forall_cons in Hpos as [? _]|].
    eapply Forall_impl; [exact Hall|]. unfold may_follow. lia.
Qed.

Lemma filter_list_merge (P : Z * Operation KvValue → Prop) `{∀ x, Decision (P x)} l1 l2 :
  (∀ x, x ∈ l2 → ¬ P x) → filter P (list_merge earlier l1 l2) = filter P l1.
Proof.
  revert l2. induction l1 as [|x l1 IH1].
  - intros l2 Hn. rewrite list_merge_nil_l. rewrite filter_nil. apply list_filter_none. done.
  - induction l2 as [|y l2 IH2]; intros Hn; [done|]. rewrite list_merge_cons. case_decide.
    + rewrite !filter_cons, IH1 by done. done.
    + rewrite filter_cons_False by (apply Hn; left). apply IH2. intros z Hz. apply Hn. by right.
Qed.

Lemma filter_list_merge_r (P : Z * Operation KvValue → Prop) `{∀ x, Decision (P x)} l1 l2 :
  (∀ x, x ∈ l1 → ¬ P x) → filter P (list_merge earlier l1 l2) = filter P l2.
Proof.
  revert l2. induction l1 as [|x l1 IH1].
  - intros l2 Hn. by rewrite list_merge_nil_l.
  - induction l2 as [|y l2 IH2]; intros Hn.
    + rewrite list_merge_nil_r, filter_nil. by apply list_filter_none.
    + rewrite list_merge_cons. case_decide.
      * rewrite filter_cons_False by (apply Hn; left). apply IH1. intros z Hz. apply Hn. by right.
      * rewrite !filter_cons, IH2 by done. done.
Qed.

(** ** Locality *)

Definition in_key k (x : Z * Operation KvValue) : Prop := op_key x.2 = k.

#[local] Instance in_key_dec k x : Decision (in_key k x).
Proof. unfold in_key. apply _. Defined.

(** The orders of [keys] merged. *)
Definition merged (ord : string → list (Operation KvValue)) (keys : list string) :
    list (Z * Operation KvValue) :=
  foldr (λ k l, list_merge earlier (with_points (ord k)) l) [] keys.

Section merge.
Context (ord : string → list (Operation KvValue)) (ops : list (Operation KvValue)).
Context (Hord : ∀ k, ord k ≡ₚ on_key k ops).
Context (Hsorted : ∀ k, StronglySorted may_follow (ord k)).
Context (Hpos : Forall (λ o, op_Call o < op_Return o) ops).

Lemma ord_elem k o : o ∈ ord k → op_key o = k ∧ o ∈ ops.
Proof. rewrite Hord. unfold on_key. by intros []%list_elem_of_filter. Qed.

Lemma ord_points k :
  (with_points (ord k)).*2 = ord k ∧ Sorted earlier (with_points (ord k)) ∧
  Forall inside (with_points (ord k)).
Proof.
  apply with_points_spec; [done|]. apply Forall_forall. intros o [_ Ho]%ord_elem.
  rewrite Forall_forall in Hpos. specialize (Hpos o Ho). lia.
Qed.

Lemma ord_points_key k x : x ∈ with_points (ord k) → in_key k x.
Proof.
  intros Hx. destruct (ord_points k) as [Hsnd _].
  apply (list_elem_of_fmap_2 snd) in Hx. rewrite Hsnd in Hx. by apply ord_elem in Hx as [].
Qed.

Lemma merged_elem keys x : x ∈ merged ord keys → ∃ k, k ∈ keys ∧ in_key k x.
Proof.
  induction keys as [|k keys IH]; simpl; [by intros ?%elem_of_nil|].
  rewrite merge_Permutation, elem_of_app. intros [Hx|Hx].
  - exists k. split; [left|by apply ord_points_key].
  - destruct (IH Hx) as (k' & ? & ?). exists k'. split; [by right|done].
Qed.

Lemma merged_sorted keys : Sorted earlier (merged ord keys).
Proof.
  induction keys as [|k keys IH]; simpl; [constructor|].
  apply Sorted_list_merge; [apply _|apply ord_points|done].
Qed.

Lemma merged_inside keys : Forall inside (merged ord keys).
Proof.
  induction keys as [|k keys IH]; simpl; [constructor|].
  rewrite merge_Permutation. apply Forall_app. split; [apply ord_points|done].
Qed.

Lemma merged_filter keys k :
  NoDup keys → filter (in_key k) (merged ord keys) = if decide (k ∈ keys) then with_points (ord k) else [].
Proof.
  induction 1 as [|k' keys Hk' Hnd IH]; [done|]. cbn [merged foldr]. fold (merged ord keys).
  destruct (decide (k' = k)) as [->|Hne].
  - rewrite (decide_True (P := k ∈ k :: keys)) by left. rewrite filter_list_merge.
    + apply list_filter_all. intros x. apply ord_points_key.
    + intros x (k'' & Hin & Hx)%merged_elem Hx'. unfold in_key in *. congruence.
  - rewrite filter_list_merge_r, IH by (intros x Hx%ord_points_key ?; unfold in_key in *; congruence).
    repeat case_decide; set_solver.
Qed.

Lemma merged_perm keys :
  NoDup keys → (∀ k, k ∈ op_key <$> ops → k ∈ keys) → (merged ord keys).*2 ≡ₚ ops.
Proof.
  intros Hnd Hall. transitivity (concat (map (λ k, on_key k ops) keys)).
  - clear Hnd Hall. induction keys as [|k keys IH]; simpl; [done|].
    rewrite merge_Permutation, fmap_app, IH. f_equiv.
    destruct (ord_points k) as [-> _]. apply Hord.
  - clear Hord Hsorted Hpos. induction ops as [|o ops' IH].
    + clear. induction keys; simpl; auto.
    + assert (op_key o ∈ keys) as Hin by (apply Hall; left).
      transitivity (o :: concat (map (λ k, on_key k ops') keys));
        [|apply perm_skip, IH; intros k Hk; apply Hall; by right]. clear IH Hall.
      apply list_elem_of_split in Hin as (l1 & l2 & ->).
      apply NoDup_app in Hnd as (_ & Hdis & [Hnin _]%NoDup_cons).
      assert (∀ l, op_key o ∉ l → map (λ k, on_key k (o :: ops')) l = map (λ k, on_key k ops') l) as Hmap.
      { intros l Hl. apply map_ext_in. intros k Hk%list_elem_of_In. unfold on_key.
        rewrite filter_cons_False; [done|]. congruence. }
      rewrite !map_app, !concat_app. simpl. unfold on_key at 2. rewrite filter_cons_True by done.
      rewrite (Hmap l1), (Hmap l2) by set_solver. simpl. by rewrite <- Permutation_middle.
Qed.

Lemma merged_may_follow keys : StronglySorted may_follow (merged ord keys).*2.
Proof.
  assert (StronglySorted (λ x y, may_follow x.2 y.2) (merged ord keys)) as Hs.
  { pose proof (Sorted_StronglySorted _ _ (merged_sorted keys)) as Hs.
    pose proof (merged_inside keys) as Hin.
    induction Hs as [|x l Hs IH Hall]; [constructor|]. apply Forall_cons in Hin as [Hx Hin].
    constructor; [by apply IH|]. rewrite Forall_forall in *. intros y Hy.
    specialize (Hall y Hy). specialize (Hin y Hy). unfold may_follow, inside, earlier in *. lia. }
  clear -Hs. induction Hs as [|x l Hs IH Hall]; [constructor|]. simpl. constructor; [done|].
  by apply Forall_map.
Qed.
End merge.

(** The whole history against the store, each key against [KvModel]. *)
Lemma kv_locality ops :
  Forall typed ops → Forall (λ o, op_Call o < op_Return o) ops →
  op_linearizable store_step ops ∅ ↔
  ∀ k, k ∈ op_key <$> ops → op_linearizable KvStep (on_key k ops) KvInit.
Proof.
  intros Ht Hpos. assert (∀ k, read ∅ k = KvInit) as Hread by done. split.
  - intros (ops' & Hp & Hs & Hrun) k _. exists (on_key k ops'). split_and!.
    + unfold on_key. by rewrite Hp.
    + by apply StronglySorted_filter.
    + rewrite <- (Hread k). apply run_store; [by rewrite Hp|done].
  - intros Hall.
    assert (∀ k, ∃ l, l ≡ₚ on_key k ops ∧ StronglySorted may_follow l ∧ is_Some (run_ops KvStep KvInit l))
      as Hex.
    { intros k. destruct (decide (k ∈ op_key <$> ops)) as [Hk|Hk]; [by apply Hall|].
      exists []. rewrite on_key_absent by done. split_and!; [done|constructor|by eexists]. }
    set (keys := remove_dups (op_key <$> ops)).
    assert (∃ ord, ∀ k, k ∈ keys → ord k ≡ₚ on_key k ops ∧ StronglySorted may_follow (ord k) ∧
      is_Some (run_ops KvStep KvInit (ord k))) as (ord0 & Hord0) by (apply (list_choice (λ k l, l ≡ₚ on_key k ops ∧ StronglySorted may_follow l ∧
        is_Some (run_ops KvStep KvInit l))); eauto).
    set (ord := λ k, if decide (k ∈ keys) then ord0 k else []).
    assert (∀ k, ord k ≡ₚ on_key k ops ∧ StronglySorted may_follow (ord k) ∧
      is_Some (run_ops KvStep KvInit (ord k))) as Hord.
    { intros k. unfold ord. case_decide as Hk; [by apply Hord0|]. unfold keys in Hk.
      rewrite elem_of_remove_dups in Hk. rewrite on_key_absent by done.
      split_and!; [done|constructor|by eexists]. }
    assert (NoDup keys) as Hnd by apply NoDup_remove_dups.
    pose proof (merged_perm ord ops (λ k, proj1 (Hord k)) (λ k, proj1 (proj2 (Hord k))) Hpos keys Hnd) as Hp.
    exists (merged ord keys).*2. split_and!.
    + apply Hp. intros k. unfold keys. by rewrite elem_of_remove_dups.
    + eapply merged_may_follow; [intros k; apply Hord..|done].
    + apply run_store.
      { rewrite Hp; [done|]. intros k. unfold keys. by rewrite elem_of_remove_dups. }
      intros k. rewrite Hread. unfold on_key. rewrite list_filter_fmap.
      rewrite (list_filter_iff (λ x, op_key x.2 = k) (in_key k)) by done.
      rewrite (merged_filter ord ops); [|intros; apply Hord..|done|done].
      case_decide; [|by eexists].
      destruct (ord_points ord ops (λ k, proj1 (Hord k)) (λ k, proj1 (proj2 (Hord k))) Hpos k) as [Hsnd _].
      rewrite Hsnd. apply Hord.
Qed.

End KvProof.
