(* ===== verification/Visualize.v ===== *)
(** Model of [computeVisualizationData] of porcupine/visualization.go, and the
    proof that on the information [checkParallel] returns its "valid partial
    linearization returned non-ok result" panic is unreachable. *)

From S2P Require Import Prelude GoStd Bitset PorcupineModel Linearize NodeList Checker CheckerProof Parallel ParallelProof.

#[local] Open Scope Z_scope.
#[local] Open Scope go_scope.

Module Visualize.
Export ParallelProof.

Record historyElement := mkHistoryElement {
  he_ClientId : Z;
  he_Start : Z;
  he_End : Z;
  he_Description : string;
}.

Record linearizationStep := mkLinearizationStep {
  ls_Index : Z;
  ls_StateDescription : string;
}.

Record partitionVisualizationData := mkPartitionVisualizationData {
  pv_History : list historyElement;
  pv_PartialLinearizations : list (list linearizationStep);
  pv_Largest : gmap Z Z;
}.

Section visualization.
Context {V St : Type} `{EqDecision St} `{GoSort}.
Context (sprintV : V → string) (sprintSt : St → string).

Abbreviation fill := (fillDefault sprintV sprintSt).

(** The variables of the first loop: [history], [callValue], [returnValue].  A
    missing map entry is the [nil] interface, on which the user's functions
    panic. *)
Definition history_state : Type := list historyElement * gmap Z V * gmap Z V.

Definition describe_operation (model : Model V St) (input output : V) : option string :=
  if DescribeOperation model is Some f then f input output else None.
Definition describe_state (model : Model V St) (state : St) : option string :=
  if DescribeState model is Some f then f state else None.

Definition history_step (model : Model V St) (s : history_state) (elem : entry V) :
    option history_state :=
  let '(history, callValue, returnValue) := s in
  he ← history.[id elem];
  if Bool.eqb (kind elem) callEntry then
    history ← history.[id elem <-
      mkHistoryElement (clientId elem) (time elem) (he_End he) (he_Description he)];
    Some (history, <[id elem := value elem]> callValue, returnValue)
  else
    cv ← callValue !! id elem;
    desc ← describe_operation model cv (value elem);
    history ← history.[id elem <- mkHistoryElement (he_ClientId he) (he_Start he) (time elem) desc];
    Some (history, callValue, <[id elem := value elem]> returnValue).

Fixpoint history_loop (model : Model V St) (s : history_state) (entries : list (entry V)) :
    option history_state :=
  match entries with
  | [] => Some s
  | elem :: entries => s ← history_step model s elem; history_loop model s entries
  end.

(** The loop over one partial linearization: [state], the steps so far and the
    maps [largestSize] and [largestIndex]; [i] is its index, [n] its length. *)
Fixpoint partial_loop (model : Model V St) (callValue returnValue : gmap Z V) (i n : Z)
    (partial : list Z) (state : St) (largest : gmap Z Z * gmap Z Z) :
    option (list linearizationStep * (gmap Z Z * gmap Z Z)) :=
  match partial with
  | [] => Some ([], largest)
  | histId :: partial =>
      cv ← callValue !! histId; rv ← returnValue !! histId;
      '(ok, state) ← Step model state cv rv;
      if negb ok then None
      else
        stateDesc ← describe_state model state;
        let '(largestSize, largestIndex) := largest in
        let largest :=
          if default 0 (largestSize !! histId) <? n
          then (<[histId := n]> largestSize, <[histId := i]> largestIndex)
          else largest in
        '(steps, largest) ← partial_loop model callValue returnValue i n partial state largest;
        Some (mkLinearizationStep histId stateDesc :: steps, largest)
  end.

Fixpoint partials_loop (model : Model V St) (callValue returnValue : gmap Z V) (i : Z)
    (partials : list (list Z)) (largest : gmap Z Z * gmap Z Z) :
    option (list (list linearizationStep) * (gmap Z Z * gmap Z Z)) :=
  match partials with
  | [] => Some ([], largest)
  | partial :: partials =>
      '(lin, largest) ←
        partial_loop model callValue returnValue i (zlen partial) partial (Init model) largest;
      '(lins, largest) ← partials_loop model callValue returnValue (i + 1) partials largest;
      Some (lin :: lins, largest)
  end.

Definition longer (p q : list Z) : bool := zlen q <? zlen p.

Definition computePartition (model : Model V St) (entries : list (entry V))
    (partials : list (list Z)) : option partitionVisualizationData :=
  let n := Z.quot (zlen entries) 2 in
  let history := replicate (Z.to_nat n) (mkHistoryElement 0 0 0 "") in
  '(history, callValue, returnValue) ← history_loop model (history, ∅, ∅) entries;
  '(lins, (_, largestIndex)) ←
    partials_loop model callValue returnValue 0 (go_sort longer partials) (∅, ∅);
  Some (mkPartitionVisualizationData history lins largestIndex).

Lemma sorted_by_length ps : StronglySorted (λ p q, zlen q <= zlen p) (go_sort longer ps).
Proof.
  assert (weak_order longer) as Hw by (unfold longer; split_and!; intros *; rewrite ?Z.ltb_lt, ?Z.ltb_irrefl; lia).
  pose proof (go_sort_sorted longer ps Hw) as Hsort. revert Hsort. generalize (go_sort longer ps). clear.
  intros l Hl. induction Hl as [|p l Hl IH Hall]; constructor; [done|].
  eapply Forall_impl; [exact Hall|]. intros q. unfold not_greater, longer. intros Hq%Z.ltb_ge. lia.
Qed.

(** The loop over the partitions; [None] is a panic. *)
Fixpoint compute_loop (model : Model V St) (hist : list (list (entry V)))
    (partials : list (list (list Z))) : option (list partitionVisualizationData) :=
  match hist with
  | [] => Some []
  | h :: hist =>
      match partials with
      | [] => None
      | ps :: partials =>
          d ← computePartition model h ps; ds ← compute_loop model hist partials; Some (d :: ds)
      end
  end.

Definition computeVisualizationData (model : Model V St) (info : linearizationInfo V) :
    option (list partitionVisualizationData) :=
  compute_loop (fill model) (info_history info) (info_partialLinearizations info).
End visualization.

(** ** No panic on sound partial linearizations *)

Section proof.
Context {V St : Type} `{GoSort} (model : Model V St) (h : list (entry V)).
Context (Hok : hist_ok h).
Context (Hdesc : ∀ c r, c ∈ h → r ∈ h → is_call c → is_return r → id c = id r →
  is_Some (describe_operation model (value c) (value r))).
Context (Hdesc_state : ∀ s, is_Some (describe_state model s)).

Implicit Types (c r e : entry V) (pre suf : list (entry V)) (cv rv : gmap Z V).

(** The maps after the entries [pre]. *)
Definition call_values pre cv : Prop := ∀ c, c ∈ pre → is_call c → cv !! id c = Some (value c).
Definition return_values pre rv : Prop := ∀ r, r ∈ pre → is_return r → rv !! id r = Some (value r).

Lemma history_loop_spec pre suf hist cv rv :
  h = pre ++ suf → zlen hist = nops h → call_values pre cv → return_values pre rv →
  ∃ hist' cv' rv', history_loop model (hist, cv, rv) suf = Some (hist', cv', rv') ∧
    zlen hist' = nops h ∧ call_values h cv' ∧ return_values h rv'.
Proof.
  pose proof (ho_wf _ Hok) as Hwf.
  revert pre hist cv rv. induction suf as [|e suf IH]; intros pre hist cv rv Heq Hlen Hcv Hrv; simpl.
  - rewrite app_nil_r in Heq. subst pre. eauto 10.
  - assert (e ∈ h) as He by (rewrite Heq; set_solver).
    pose proof (ids_nops h Hok e He) as Hid.
    destruct (proj2 (zlookup_is_Some hist (id e))) as [he Hhe]; [lia|]. unfold history_step.
    rewrite Hhe. simpl.
    assert (∀ x, zupdate hist (id e) x = Some (<[Z.to_nat (id e) := x]> hist)) as Hup.
    { intros x. apply zupdate_Some. split; [lia|done]. }
    assert (∀ x, zlen (<[Z.to_nat (id e) := x]> hist) = nops h) as Hlen'.
    { intros x. unfold zlen in *. by rewrite length_insert. }
    assert (h = (pre ++ [e]) ++ suf) as Heq' by (by rewrite <- app_assoc).
    assert (∀ e', e' ∈ pre ++ [e] → e' ∈ h) as Hsub by (intros e' ?; rewrite Heq'; set_solver).
    destruct (call_or_return e) as [Hc|Hr].
    + rewrite Hc. simpl. rewrite Hup. simpl. apply (IH (pre ++ [e])); [done|apply Hlen'|..].
      * intros c Hin Hcc. rewrite lookup_insert. case_decide as Hi.
        { do 2 f_equal. apply (call_unique h); auto. }
        apply elem_of_app in Hin as [Hin|Hin]; [by apply Hcv|]. apply list_elem_of_singleton in Hin. congruence.
      * intros r Hin Hrr. apply Hrv; [|done]. apply elem_of_app in Hin as [Hin|Hin]; [done|].
        apply list_elem_of_singleton in Hin as ->. exfalso. by eapply not_call_return.
    + rewrite Hr. simpl.
      destruct (wf_pair _ Hwf e He) as (c & r & Hc & Hrr & Hci & Hri & Hb).
      destruct (before_elem _ _ _ Hb) as [Hcin Hrin].
      assert (r = e) as -> by (by apply (return_unique h)).
      assert (c ∈ pre) as Hcpre by (by eapply before_split; [apply wf_NoDup| |]).
      assert (cv !! id e = Some (value c)) as -> by (rewrite <- Hci; by apply Hcv). simpl.
      destruct (Hdesc c e) as [desc Hd]; try done. rewrite Hd. simpl. rewrite Hup. simpl.
      apply (IH (pre ++ [e])); [done|apply Hlen'|..].
      * intros c' Hin Hcc. apply Hcv; [|done]. apply elem_of_app in Hin as [Hin|Hin]; [done|].
        apply list_elem_of_singleton in Hin as ->. exfalso. by eapply not_call_return.
      * intros r Hin Hrr'. rewrite lookup_insert. case_decide as Hi.
        { do 2 f_equal. apply (return_unique h); auto. }
        apply elem_of_app in Hin as [Hin|Hin]; [by apply Hrv|]. apply list_elem_of_singleton in Hin. congruence.
Qed.

Lemma partial_loop_spec cv rv i n σ s s' largest :
  call_values h cv → return_values h rv → run (Step model) h s σ = Some s' →
  ∃ steps largest', partial_loop model cv rv i n σ s largest = Some (steps, largest') ∧
    map ls_Index steps = σ.
Proof.
  intros Hcv Hrv. revert s largest. induction σ as [|j σ IH]; intros s largest Hrun; simpl in *; [by eexists [], _|].
  apply bind_Some in Hrun as (s1 & Ha & Hrun). unfold apply_op in Ha.
  apply bind_Some in Ha as (c & (Hc & Hcc & <-)%call_of_inv & Ha).
  apply bind_Some in Ha as (r & (Hr & Hrr & Hri)%return_of_inv & Ha).
  rewrite (Hcv c Hc Hcc). simpl. rewrite <- Hri, (Hrv r Hr Hrr). simpl.
  destruct (Step model s (value c) (value r)) as [[[] s2]|]; simplify_eq/=.
  destruct (Hdesc_state s1) as [desc Hd]. rewrite Hd. simpl. destruct largest as [sz ix].
  edestruct (IH s1) as (steps & largest' & Hp & Hix); [done|]. rewrite Hp. simpl.
  eexists _, _. split; [done|]. simpl. by rewrite Hix.
Qed.

Lemma partials_loop_spec cv rv i ps largest :
  call_values h cv → return_values h rv → sound_partials model h ps →
  ∃ lins largest', partials_loop model cv rv i ps largest = Some (lins, largest') ∧
    map (map ls_Index) lins = ps.
Proof.
  intros Hcv Hrv Hs. revert i largest. induction Hs as [|σ ps (_ & st & Hpl) _ IH]; intros i largest; simpl.
  - by eexists [], _.
  - destruct (partial_loop_spec cv rv i (zlen σ) σ (Init model) st largest) as (steps & l1 & Hp & Hix);
      [done|done|apply Hpl|]. rewrite Hp. simpl.
    destruct (IH (i + 1) l1) as (lins & l2 & Hl & Hixs). rewrite Hl. simpl.
    eexists _, _. split; [done|]. simpl. by rewrite Hix, Hixs.
Qed.

Lemma computePartition_spec ps :
  sound_partials model h ps →
  ∃ d, computePartition model h ps = Some d ∧ zlen (pv_History d) = nops h ∧
    map (map ls_Index) (pv_PartialLinearizations d) = go_sort longer ps.
Proof.
  intros Hs. unfold computePartition.
  edestruct (history_loop_spec [] h (replicate (Z.to_nat (Z.quot (zlen h) 2)) (mkHistoryElement 0 0 0 "")) ∅ ∅)
    as (hist & cv & rv & Hl & Hlen & Hcv & Hrv); [done| | | |].
  - unfold zlen. rewrite length_replicate. fold (zlen h). fold (nops h).
    assert (0 <= nops h); [apply Z.quot_pos; unfold zlen; lia|lia].
  - by intros c ?%elem_of_nil.
  - by intros r ?%elem_of_nil.
  - rewrite Hl. simpl.
    destruct (partials_loop_spec cv rv 0 (go_sort longer ps) (∅, ∅)) as (lins & [sz ix] & Hp & Hix); [done|done| |].
    + unfold sound_partials. by rewrite go_sort_perm.
    + rewrite Hp. simpl. eexists. split; [done|]. done.
Qed.
End proof.

Section all.
Context {V St : Type} `{EqDecision St} `{GoSort} (model : Model V St).

(** The description functions do not panic on the operations of [h]. *)
Definition describable (h : list (entry V)) : Prop :=
  (∀ c r, c ∈ h → r ∈ h → is_call c → is_return r → id c = id r →
     is_Some (describe_operation model (value c) (value r))) ∧
  ∀ s, is_Some (describe_state model s).

Lemma compute_loop_spec hist parts :
  (∀ h, h ∈ hist → hist_ok h) → (∀ h, h ∈ hist → describable h) →
  Forall2 (sound_partials model) hist parts →
  ∃ ds, compute_loop model hist parts = Some ds ∧
    Forall2 (λ ps d, map (map ls_Index) (pv_PartialLinearizations d) = go_sort longer ps) parts ds.
Proof.
  intros Hok Hd H2. induction H2 as [|h ps hist parts Hps _ IH]; simpl; [by exists []; split; [|constructor]|].
  destruct (Hd h) as [Hd1 Hd2]; [left|].
  destruct (computePartition_spec model h (Hok h (list_elem_of_here _ _)) Hd1 Hd2 ps Hps) as (d & Hc & _ & Hix).
  destruct IH as (ds & Hds & Hixs); [intros; apply Hok; by right|intros; apply Hd; by right|].
  rewrite Hc. simpl. rewrite Hds. simpl. eexists. split; [done|]. by constructor.
Qed.
End all.

End Visualize.
