(* ===== verification/PorcupineSpec.v ===== *)
(** What the checker of porcupine guarantees: the theorems about [checkSingle],
    [checkParallel] and the entry points, with concrete instances. *)

From S2P Require Import Prelude GoStd Bitset PorcupineModel Linearize NodeList Checker CheckerProof.
From S2P Require Import Parallel ParallelProof History Kv KvProof Visualize.

#[local] Open Scope Z_scope.

Module PorcupineSpec.
Export ParallelProof KvProof Visualize.

(** ** Models with the default [Equal] *)

Lemma ShallowEqual_true {St} `{EqDecision St} (s1 s2 : St) : ShallowEqual s1 s2 = true → s1 = s2.
Proof. apply bool_decide_eq_true_1. Qed.

(** The default [Equal] is sound, so [Step] only has to be total. *)
Definition default_ModelOk {V St} `{EqDecision St} (sprintV : V → string) (sprintSt : St → string)
    (model : Model V St) (h : list (entry V)) (Heq : Equal model = None)
    (Htotal : ∀ s c r, c ∈ h → r ∈ h → is_call c → is_return r → id c = id r →
       is_Some (Step model s (value c) (value r))) :
  ModelOk (fillDefault sprintV sprintSt model) h.
Proof.
  refine {| mo_equal := ShallowEqual |}.
  - simpl. by rewrite Heq.
  - intros s1 s2 v w s1' ->%ShallowEqual_true ?. exists s1'. split; [done|]. by apply bool_decide_eq_true_2.
  - exact Htotal.
Defined.

Section kv.
Context `{GoSort} `{GoMapOrder} (sprintV : KvValue → string) (sprintSt : string → string).

Lemma makeEntries_typed ops s c r :
  Forall typed ops → c ∈ makeEntries ops → r ∈ makeEntries ops → is_call c → is_return r →
  id c = id r → is_Some (KvStep s (value c) (value r)).
Proof.
  intros Ht (n & o & Ho & [->| ->])%elem_of_makeEntries (n' & o' & Ho' & [->| ->])%elem_of_makeEntries;
    try done. simpl. intros _ _ <-%Nat2Z.inj. simplify_eq. apply KvStep_total.
  rewrite Forall_forall in Ht. by eapply Ht, list_elem_of_lookup_2.
Qed.

Definition kv_ModelOk ops (Ht : Forall typed ops) :
  ModelOk (fillDefault sprintV sprintSt KvModel) (makeEntries ops) :=
  default_ModelOk sprintV sprintSt KvModel (makeEntries ops) eq_refl
    (λ s c r, makeEntries_typed ops s c r Ht).

(** The partitions of a typed history are typed and keep the times. *)
Lemma kv_entries ops :
  Forall typed ops →
  ∃ keys, operation_entries sprintV sprintSt KvModel ops = Some (map (λ k, makeEntries (on_key k ops)) keys) ∧
    (∀ k, k ∈ keys ↔ k ∈ op_key <$> ops).
Proof.
  intros Ht. destruct (KvPartition_spec ops Ht) as (keys & Hp & _ & Hk).
  exists keys. split; [|done]. unfold operation_entries. simpl. rewrite Hp. simpl. by rewrite map_map.
Qed.

Lemma on_key_Forall (P : Operation KvValue → Prop) k ops : Forall P ops → Forall P (on_key k ops).
Proof.
  rewrite !Forall_forall. intros HP o [_ Ho]%list_elem_of_filter. by apply HP.
Qed.

Lemma on_key_times k ops : times_ok ops → times_ok (on_key k ops).
Proof.
  intros [Hp Hd]. split; [by apply on_key_Forall|].
  intros a b [_ Ha]%list_elem_of_filter [_ Hb]%list_elem_of_filter. by apply Hd.
Qed.

Lemma kv_entries_ok ops keys h :
  Forall typed ops → times_ok ops → h ∈ map (λ k, makeEntries (on_key k ops)) keys →
  hist_ok h.
Proof.
  intros Ht Hto (k & -> & _)%list_elem_of_fmap. by apply makeEntries_hist_ok, on_key_times.
Qed.

Definition kv_entries_ModelOk ops keys h :
  Forall typed ops → h ∈ map (λ k, makeEntries (on_key k ops)) keys →
  ModelOk (fillDefault sprintV sprintSt KvModel) h.
Proof.
  intros Ht Hin. apply default_ModelOk; [done|]. apply list_elem_of_fmap in Hin as (k & -> & _).
  intros s c r. by apply makeEntries_typed, on_key_Forall.
Defined.
End kv.

(** ** Verdicts of [checkParallel] *)

Section verdicts.
Context {V St : Type} `{GoMapOrder} (model : Model V St) (history : list (list (entry V))).
Context (ci : bool) (timeout : Z).
Context (Hok : ∀ h, h ∈ history → hist_ok h).
Context (Hmodel : ∀ h, h ∈ history → ModelOk model h).
Abbreviation lin h := (linearizable (Step model) h (Init model)).

Lemma checkParallel_inv res info :
  checkParallel model history ci timeout res info →
  (res = Ok → Forall (λ h, lin h) history) ∧ (res = Illegal → Exists (λ h, ¬ lin h) history) ∧
  (res = Unknown → 0 < timeout) ∧
  (∀ d, info = Some d → info_history d = history ∧
     Forall2 (sound_partials model) history (info_partialLinearizations d)).
Proof.
  intros (ls & s & Hls & Hpc & -> & Hinfo).
  destruct (init_inv model history ci timeout Hok Hmodel) as (mus & Hi & _).
  destruct (steps_inv model history ci timeout Hok Hmodel _ _ _ _ _ Hi Hls) as (mus' & sent & Hi' & _).
  destruct (verdict _ _ _ _ _ _ _ Hi' Hpc) as (? & ? & ?).
  destruct (get_info_spec _ _ _ _ _ _ _ Hi') as (info' & Hinfo' & Hd).
  rewrite Hinfo in Hinfo'. injection Hinfo' as <-. done.
Qed.

Lemma checkParallel_total : history ≠ [] → ∃ res info, checkParallel model history ci timeout res info.
Proof.
  intros Hne. destruct (init_inv model history ci timeout Hok Hmodel) as (mus & Hi & _).
  destruct (can_return model history ci timeout Hok Hmodel _ _ _ Hi Hne)
    as (ls & s & mus' & sent & Hls & Hi' & Hpc).
  destruct (get_info_spec _ _ _ _ _ _ _ Hi') as (info & Hinfo & _).
  by exists (get_result s), info, ls, s.
Qed.
End verdicts.

(** ** A concrete history

    Two clients use key "x" concurrently, then one uses key "y". *)

Definition put_x : Operation KvValue :=
  mkOperation 0 (VInput (mkKvInput 1 "x" "1")) 0 (VOutput (mkKvOutput "")) 10.
Definition get_x : Operation KvValue :=
  mkOperation 1 (VInput (mkKvInput 0 "x" "")) 5 (VOutput (mkKvOutput "1")) 15.
Definition append_y : Operation KvValue :=
  mkOperation 0 (VInput (mkKvInput 2 "y" "a")) 20 (VOutput (mkKvOutput "")) 30.
Definition sample : list (Operation KvValue) := [put_x; get_x; append_y].

Abbreviation kv_filled := (fillDefault (λ _ : KvValue, "") (λ _ : string, "") KvModel).
Abbreviation entries_x := (makeEntries [put_x; get_x]).

Lemma sample_typed : Forall typed sample.
Proof. repeat constructor; simpl; eauto. Qed.

Lemma sample_times : times_ok sample.
Proof.
  split; [repeat constructor; simpl; lia|].
  intros a b. unfold sample. rewrite !elem_of_cons, !elem_of_nil.
  intros [->|[->|[->|[]]]] [->|[->|[->|[]]]]; simpl; lia.
Qed.

Lemma sample_x_ok : hist_ok entries_x.
Proof. apply makeEntries_hist_ok. repeat constructor; simpl; lia. Qed.

Definition sample_x_ModelOk : ModelOk kv_filled entries_x.
Proof. apply kv_ModelOk. repeat constructor; simpl; eauto. Defined.

(** ** The search *)

(** C1: with the kill flag down, [checkSingle] ends within [search_fuel]
    iterations, does not panic, and answers [true] exactly on the linearizable
    histories: the pruning by the cache and the destructive lifting of the entry
    list lose nothing. *)
Theorem checkSingle_decides {V St} (model : Model V St) (h : list (entry V)) (HM : ModelOk model h)
    (fuel : nat) (computePartial : bool) :
  hist_ok h → (search_fuel (List.length h / 2) ≤ fuel)%nat →
  ∃ ok longest seqs,
    checkSingle model fuel h computePartial (λ _, 0) = Ret (ok, longest, seqs) ∧
    (ok = true ↔ linearizable (Step model) h (Init model)).
Proof.
  intros Hok Hf. destruct (checkSingle_spec model h Hok fuel computePartial (λ _, 0) Hf)
    as ([[ok longest] seqs] & Hr & _ & Ht & Hn). exists ok, longest, seqs. split; [done|].
  simpl in *. destruct ok; split; auto. intros Hl. by destruct Hn.
Qed.

Lemma checkSingle_decides_witness :
  ∃ ok longest seqs, checkSingle kv_filled (search_fuel 2) entries_x true (λ _, 0) = Ret (ok, longest, seqs) ∧
    (ok = true ↔ linearizable KvStep entries_x KvInit).
Proof. apply (checkSingle_decides kv_filled entries_x sample_x_ModelOk); [exact sample_x_ok|vm_compute; lia]. Defined.

(** C30: whatever the kill flag does, [checkSingle] ends without a panic; a [true]
    answer is right and every slot of [longest] then points to one linearization of
    the whole history; after a [false] answer every slot [i] that is set points
    to a partial linearization that contains operation [i]. *)
Theorem checkSingle_partials {V St} (model : Model V St) (h : list (entry V)) (HM : ModelOk model h)
    (fuel : nat) (computePartial : bool) (kill : nat → Z) :
  hist_ok h → (search_fuel (List.length h / 2) ≤ fuel)%nat →
  ∃ ok longest seqs,
    checkSingle model fuel h computePartial kill = Ret (ok, longest, seqs) ∧
    zlen longest = Z.quot (zlen h) 2 ∧
    (if ok then ∃ p σ, Forall (λ q, q = Some p) longest ∧ seqs !! p = Some σ ∧
                       linearization (Step model) h (Init model) σ
     else ∀ i p, longest !! i = Some (Some p) → ∃ σ s', seqs !! p = Some σ ∧ Z.of_nat i ∈ σ ∧
                 partial_linearization (Step model) h (Init model) σ s').
Proof.
  intros Hok Hf. destruct (checkSingle_spec model h Hok fuel computePartial kill Hf)
    as ([[ok longest] seqs] & Hr & Hres & _). exists ok, longest, seqs. split; [exact Hr|].
    destruct ok.
  - destruct Hres as (p & σ & ? & ? & ? & ?). eauto 10.
  - destruct Hres as [Hlen Hl]. split; [done|]. intros i p Hp.
    destruct (Hl _ _ Hp) as (σ & Hσ & Hin & s' & Hpl). eauto.
Qed.

Lemma checkSingle_partials_witness :
  ∃ ok longest seqs, checkSingle kv_filled (search_fuel 2) entries_x true (λ t, if Nat.eqb t 2 then 1 else 0)
      = Ret (ok, longest, seqs) ∧
    zlen longest = Z.quot (zlen entries_x) 2 ∧
    (if ok then ∃ p σ, Forall (λ q, q = Some p) longest ∧ seqs !! p = Some σ ∧
                       linearization KvStep entries_x KvInit σ
     else ∀ i p, longest !! i = Some (Some p) → ∃ σ s', seqs !! p = Some σ ∧ Z.of_nat i ∈ σ ∧
                 partial_linearization KvStep entries_x KvInit σ s').
Proof. apply (checkSingle_partials kv_filled entries_x sample_x_ModelOk); [exact sample_x_ok|vm_compute; lia]. Defined.

(** C37: lifting a call and its return out of the entry list, in any heap where
    the list is well formed, leaves the rest of the list chained in order, and
    [unlift] restores the heap exactly. *)
Theorem lift_unlift {V} (m : gmap loc (node (V:=V))) l1 pp x l2 y l3 nd :
  NoDup (l1 ++ pp :: x :: l2 ++ y :: l3) → seg m None (l1 ++ pp :: x :: l2 ++ y :: l3) None →
  m !! x = Some nd → n_match nd = Some y →
  ∃ m', lift (Some x) m = Some m' ∧ seg m' None (l1 ++ pp :: l2 ++ l3) None ∧
        unlift (Some x) m' = Some m.
Proof.
  intros Hnd Hs Hx Hy. destruct (lift_spec m l1 pp x l2 y l3 nd Hnd Hs Hx Hy) as (m' & ? & ? & _ & _ & ?).
  by exists m'.
Qed.

(** The list of one operation behind a head node. *)
Definition sample_heap : gmap loc (node (V:=Z)) :=
  <[2%nat := mkNode None None (-1) (Some 1%nat) None]>
  (<[1%nat := mkNode (Some 7) (Some 0%nat) 0 (Some 0%nat) (Some 2%nat)]>
  (<[0%nat := mkNode (Some 8) None 0 None (Some 1%nat)]> ∅)).

Lemma lift_unlift_witness :
  ∃ m', lift (Some 1%nat) sample_heap = Some m' ∧ seg m' None [2%nat] None ∧
        unlift (Some 1%nat) m' = Some sample_heap.
Proof.
  apply (lift_unlift sample_heap [] 2%nat 1%nat [] 0%nat [] (mkNode (Some 7) (Some 0%nat) 0 (Some 0%nat) (Some 2%nat))).
  - repeat constructor; set_solver.
  - simpl. split_and!; try done; eexists; split_and!; (reflexivity || done).
  - reflexivity.
  - reflexivity.
Defined.

(** ** The parallel check *)

(** C7: under every interleaving of the goroutines, the caller and the timer, the
    verdict of [checkParallel] is sound: [Ok] only if every partition is
    linearizable, [Illegal] only if some partition is not (even when the timeout
    made other goroutines give up), [Unknown] only with a timeout; and the partial
    linearizations reported for the visualization are nonempty partial
    linearizations of their partitions. *)
Theorem checkParallel_sound {V St} `{GoMapOrder} (model : Model V St) (history : list (list (entry V)))
    (ci : bool) (timeout : Z) (HM : ∀ h, h ∈ history → ModelOk model h) res info :
  (∀ h, h ∈ history → hist_ok h) → checkParallel model history ci timeout res info →
  (res = Ok → Forall (λ h, linearizable (Step model) h (Init model)) history) ∧
  (res = Illegal → Exists (λ h, ¬ linearizable (Step model) h (Init model)) history) ∧
  (res = Unknown → 0 < timeout) ∧
  (∀ d, info = Some d → info_history d = history ∧
     Forall2 (sound_partials model) history (info_partialLinearizations d)).
Proof. intros Hok. by apply checkParallel_inv. Qed.

Lemma elem_of_sample_parts h : h ∈ [entries_x] → h = entries_x.
Proof. apply list_elem_of_singleton. Defined.

Lemma checkParallel_sound_witness :
  (Ok = Ok → Forall (λ h, linearizable KvStep h KvInit) [entries_x]) ∧
  (Ok = Illegal → Exists (λ h, ¬ linearizable KvStep h KvInit) [entries_x]) ∧
  (Ok = Unknown → 0 < 0) ∧
  (∀ d, Some (mkInfo [entries_x] [[[0; 1]]]) = Some d → info_history d = [entries_x] ∧
     Forall2 (sound_partials kv_filled) [entries_x] (info_partialLinearizations d)).
Proof.
  apply (checkParallel_sound kv_filled [entries_x] true 0).
  - intros h ->%elem_of_sample_parts. exact sample_x_ModelOk.
  - intros h ->%elem_of_sample_parts. exact sample_x_ok.
  - exists (repeat (LRun 0%nat) 6 ++ [LMain; LMain]). eexists.
    split; [vm_compute; reflexivity|]. split_and!; reflexivity.
Defined.

(** C29: every schedule of [checkParallel] is finite, with an explicit bound; no
    goroutine panics; and as long as it has not returned some goroutine or the
    caller can move, so with at least one partition it returns even without a
    timeout. *)
Theorem checkParallel_terminates {V St} (model : Model V St) (history : list (list (entry V)))
    (ci : bool) (timeout : Z) (HM : ∀ h, h ∈ history → ModelOk model h) ls s :
  (∀ h, h ∈ history → hist_ok h) → steps model history ci timeout ls (init_sys history) = Some s →
  (List.length ls ≤ step_bound history)%nat ∧ p_pc s ≠ Crashed ∧
  (history ≠ [] → p_pc s ≠ Returned →
   ∃ l s', l ≠ LTimeout ∧ step model history ci timeout l s = Some s').
Proof.
  intros Hok Hls. destruct (init_inv model history ci timeout Hok HM) as (mus & Hi & Hb).
  destruct (steps_inv model history ci timeout Hok HM _ _ _ _ _ Hi Hls) as (mus' & sent & Hi' & Hle).
  split; [lia|]. split; [by apply (si_safe _ _ _ _ _ _ _ Hi')|]. intros Hne Hpc.
  by eapply progress.
Qed.

Lemma checkParallel_terminates_witness :
  ∃ s, steps kv_filled [entries_x] false 0 (repeat (LRun 0%nat) 6) (init_sys [entries_x]) = Some s ∧
    (6 ≤ step_bound [entries_x])%nat ∧ p_pc s ≠ Crashed ∧
    ([entries_x] ≠ [] → p_pc s ≠ Returned →
     ∃ l s', l ≠ LTimeout ∧ step kv_filled [entries_x] false 0 l s = Some s').
Proof.
  eexists. split; [vm_compute; reflexivity|].
  apply (checkParallel_terminates kv_filled [entries_x] false 0) with (ls := repeat (LRun 0%nat) 6).
  - intros h ->%elem_of_sample_parts. exact sample_x_ModelOk.
  - intros h ->%elem_of_sample_parts. exact sample_x_ok.
  - vm_compute; reflexivity.
Defined.

(** with no partition and no timeout [checkParallel] never returns: the
    caller only tests [count >= len(history)] after a receive, and nothing will
    ever be sent. *)
Lemma checkParallel_empty_blocks {V St} (model : Model V St) (ci : bool) (timeout : Z) ls s :
  timeout <= 0 → steps model [] ci timeout ls (init_sys []) = Some s →
  p_pc s = Select ∧ ∀ l, step model [] ci timeout l s = None.
Proof.
  intros Ht Hls.
  assert (∀ l, step model [] ci timeout l (init_sys []) = None) as Hstuck.
  { intros [i| |]; [done..|]. unfold step, timeout_step. cbn [p_pc init_sys]. rewrite Z.gtb_ltb. by destruct (Z.ltb_spec 0 timeout); [lia|]. }
  destruct ls as [|l ls]; simpl in Hls; [by injection Hls as <-|]. by rewrite Hstuck in Hls.
Qed.

Lemma checkParallel_empty_blocks_witness :
  p_pc (V:=KvValue) (St:=string) (init_sys []) = Select ∧
  ∀ l, step kv_filled [] false 0 l (init_sys []) = None.
Proof. apply (checkParallel_empty_blocks kv_filled false 0 [] (init_sys [])); [lia|reflexivity]. Defined.

(** ** From operations and events to entries *)

(** C32: [makeEntries] turns operations with distinct call and return times into a
    well-formed entry list whose linearizability is that of the operations: some
    reordering that keeps real-time order is accepted by the model. *)
Theorem makeEntries_faithful {V St} `{GoSort} (step : St → V → V → option (bool * St))
    (ops : list (Operation V)) (s : St) :
  times_ok ops →
  hist_ok (makeEntries ops) ∧
  (linearizable step (makeEntries ops) s ↔ op_linearizable step ops s).
Proof.
  intros Ht. split; [apply makeEntries_hist_ok, Ht|by apply makeEntries_linearizable].
Qed.

Lemma makeEntries_faithful_witness :
  hist_ok (makeEntries sample) ∧
  (linearizable store_step (makeEntries sample) ∅ ↔ op_linearizable store_step sample ∅).
Proof. apply (makeEntries_faithful store_step). exact sample_times. Defined.

(** [renumber] maps the ids of an event history to [0, n) and changes nothing
    else that matters: the entries are well formed for the bitset, and they are
    linearizable exactly when the original events are. *)
Lemma renumber_faithful {V St} (step : St → V → V → option (bool * St)) (evs : list (Event V)) (s : St) :
  wf_hist (convertEntries evs) →
  hist_ok (convertEntries (renumber evs)) ∧
  (linearizable step (convertEntries (renumber evs)) s ↔ linearizable step (convertEntries evs) s).
Proof. apply renumber_hist_ok. Qed.

Definition sample_events : list (Event KvValue) :=
  [mkEvent 0 CallEvent (VInput (mkKvInput 1 "x" "1")) 7; mkEvent 1 CallEvent (VInput (mkKvInput 0 "x" "")) (-3);
   mkEvent 1 ReturnEvent (VOutput (mkKvOutput "1")) (-3); mkEvent 0 ReturnEvent (VOutput (mkKvOutput "")) 7].

Lemma sample_events_wf : wf_hist (convertEntries sample_events).
Proof.
  split; [apply (bool_decide_unpack _); vm_compute; done|].
  assert (∀ c r (l1 l2 l3 : list (entry KvValue)), before (l1 ++ c :: l2 ++ r :: l3) c r) as Hb.
  { intros c r l1 l2 l3. apply sublist_inserts_l, sublist_skip, sublist_inserts_l, sublist_skip, sublist_nil_l. }
  assert (∀ (h : list (entry KvValue)) c r e, is_call c → is_return r → id c = id r → before h c r →
    e = c ∨ e = r → ∃ c r, is_call c ∧ is_return r ∧ id c = id e ∧ id r = id e ∧ before h c r) as Hpair.
  { intros h c r e Hc Hr Hid Hbf [-> | ->]; by exists c, r. }
  change (convertEntries sample_events) with
    [mkEntry callEntry (VInput (mkKvInput 1 "x" "1")) 7 0 0; mkEntry callEntry (VInput (mkKvInput 0 "x" "")) (-3) 1 1;
     mkEntry returnEntry (VOutput (mkKvOutput "1")) (-3) 2 1; mkEntry returnEntry (VOutput (mkKvOutput "")) 7 3 0].
  intros e. rewrite !elem_of_cons, elem_of_nil. intros [He|[He|[He|[He|[]]]]].
  - eapply Hpair; [| | |apply (Hb _ _ [] [_; _] [])|left; exact He]; done.
  - eapply Hpair; [| | |apply (Hb _ _ [_] [] [_])|left; exact He]; done.
  - eapply Hpair; [| | |apply (Hb _ _ [_] [] [_])|right; exact He]; done.
  - eapply Hpair; [| | |apply (Hb _ _ [] [_; _] [])|right; exact He]; done.
Qed.

Lemma renumber_faithful_witness :
  hist_ok (convertEntries (renumber sample_events)) ∧
  (linearizable KvStep (convertEntries (renumber sample_events)) KvInit ↔
   linearizable KvStep (convertEntries sample_events) KvInit).
Proof. apply (renumber_faithful KvStep). exact sample_events_wf. Defined.

(** ** The key/value model *)

(** partitioning by key is exact: a history of the whole store is
    linearizable if and only if the operations on each key are, against the model
    of a single key. *)
Lemma kv_partition_exact ops :
  Forall typed ops → times_ok ops →
  op_linearizable store_step ops ∅ ↔
  ∀ k, k ∈ op_key <$> ops → op_linearizable KvStep (on_key k ops) KvInit.
Proof. intros Ht [Hp _]. by apply kv_locality. Qed.

Lemma kv_partition_exact_witness :
  op_linearizable store_step sample ∅ ↔
  ∀ k, k ∈ op_key <$> sample → op_linearizable KvStep (on_key k sample) KvInit.
Proof. apply (kv_partition_exact sample); [exact sample_typed|exact sample_times]. Defined.

(** C6: [CheckOperations KvModel] returns on every non-empty history of
    key/value operations, under some schedule, and under every schedule it
    returns [true] exactly when the history is linearizable as a store. *)
Theorem CheckOperations_kv `{GoSort} `{GoMapOrder} sprintV sprintSt ops :
  Forall typed ops → times_ok ops → ops ≠ [] →
  (∃ b, CheckOperations sprintV sprintSt KvModel ops b) ∧
  ∀ b, CheckOperations sprintV sprintSt KvModel ops b → (b = true ↔ op_linearizable store_step ops ∅).
Proof.
  intros Ht Hto Hne. destruct (kv_entries sprintV sprintSt ops Ht) as (keys & Hent & Hkeys).
  set (parts := map (λ k, makeEntries (on_key k ops)) keys) in *.
  assert (∀ h, h ∈ parts → hist_ok h) as Hok by (intros h; by apply kv_entries_ok).
  pose (HM := λ h, kv_entries_ModelOk sprintV sprintSt ops keys h Ht).
  assert (op_linearizable store_step ops ∅ ↔ Forall (λ h, linearizable KvStep h KvInit) parts) as Hspec.
  { rewrite kv_locality by (done || apply Hto). unfold parts. rewrite Forall_map, Forall_forall.
    split; intros Hall k Hk; [apply makeEntries_linearizable; [by apply on_key_times|]|
      apply makeEntries_linearizable; [by apply on_key_times|]]; apply Hall, Hkeys; done. }
  split.
  - destruct (checkParallel_total (fillDefault sprintV sprintSt KvModel) parts false 0 Hok HM) as (res & info & Hres).
    + unfold parts. destruct ops as [|o ops']; [done|]. destruct keys; [|done].
      assert (op_key o ∈ []) as Hin by (apply Hkeys; left). by apply elem_of_nil in Hin.
    + eexists. exists res, info. split; [|done]. by exists parts.
  - intros b (res & info & (l & Hl & Hres) & ->). rewrite Hent in Hl. injection Hl as <-.
    destruct (checkParallel_inv _ _ _ _ Hok HM _ _ Hres) as (H1 & H2 & H3 & _).
    rewrite bool_decide_eq_true, Hspec. split; [done|]. intros Hall. destruct res; [|done|].
    + specialize (H3 eq_refl). lia.
    + destruct (proj1 (Exists_exists _ _) (H2 eq_refl)) as (h & Hh & Hno).
      rewrite Forall_forall in Hall. by apply Hall in Hh.
Qed.

Lemma CheckOperations_kv_witness :
  (∃ b, CheckOperations (λ _, "") (λ _, "") KvModel sample b) ∧
  ∀ b, CheckOperations (λ _, "") (λ _, "") KvModel sample b → (b = true ↔ op_linearizable store_step sample ∅).
Proof. apply (CheckOperations_kv (λ _, "") (λ _, "") sample); [exact sample_typed|exact sample_times|done]. Defined.

(** ** The visualization *)

(** on the information returned by a verbose check, under any schedule,
    [computeVisualizationData] does not panic - in particular the replay of each
    partial linearization is accepted by the model - and it lists each
    partition's partial linearizations from the longest to the shortest. *)
Lemma visualization_total {V St} `{EqDecision St} `{GoSort} `{GoMapOrder} sprintV sprintSt
    (model : Model V St) (history : list (list (entry V))) (timeout : Z)
    (HM : ∀ h, h ∈ history → ModelOk (fillDefault sprintV sprintSt model) h) res d :
  (∀ h, h ∈ history → hist_ok h) →
  (∀ h, h ∈ history → describable (fillDefault sprintV sprintSt model) h) →
  checkParallel (fillDefault sprintV sprintSt model) history true timeout res (Some d) →
  ∃ data, computeVisualizationData sprintV sprintSt model d = Some data ∧
    Forall2 (λ ps pd, map (map ls_Index) (pv_PartialLinearizations pd) ≡ₚ ps ∧
                      StronglySorted (λ p q, zlen q <= zlen p) (map (map ls_Index) (pv_PartialLinearizations pd)))
            (info_partialLinearizations d) data.
Proof.
  intros Hok Hdesc Hc.
  destruct (checkParallel_inv _ _ _ _ Hok HM _ _ Hc) as (_ & _ & _ & Hinfo).
  destruct (Hinfo d eq_refl) as [Hh Hs]. unfold computeVisualizationData. rewrite Hh.
  destruct (compute_loop_spec _ _ _ Hok Hdesc Hs) as (ds & Hds & H2). exists ds. split; [done|].
  eapply Forall2_impl; [exact H2|]. intros ps pd ->. split; [apply go_sort_perm|apply sorted_by_length].
Qed.

Lemma sample_describable : describable kv_filled entries_x.
Proof.
  split; [|by eexists]. intros c r (n & o & Ho & [->| ->])%elem_of_makeEntries
    (n' & o' & Ho' & [->| ->])%elem_of_makeEntries; try done. simpl. intros _ _ <-%Nat2Z.inj. simplify_eq.
  destruct n as [|[|]]; simplify_eq/=; eexists; reflexivity.
Qed.

Lemma visualization_total_witness :
  ∃ data, computeVisualizationData (λ _, "") (λ _, "") KvModel (mkInfo [entries_x] [[[0; 1]]]) = Some data ∧
    Forall2 (λ ps pd, map (map ls_Index) (pv_PartialLinearizations pd) ≡ₚ ps ∧
                      StronglySorted (λ p q, zlen q <= zlen p) (map (map ls_Index) (pv_PartialLinearizations pd)))
            [[[0; 1]]] data.
Proof.
  apply (visualization_total (λ _, "") (λ _, "") KvModel [entries_x] 0) with (res := Ok) (d := mkInfo [entries_x] [[[0; 1]]]).
  - intros h ->%elem_of_sample_parts. exact sample_x_ModelOk.
  - intros h ->%elem_of_sample_parts. exact sample_x_ok.
  - intros h ->%elem_of_sample_parts. exact sample_describable.
  - exists (repeat (LRun 0%nat) 6 ++ [LMain; LMain]). eexists.
    split; [vm_compute; reflexivity|]. split_and!; reflexivity.
Defined.

(** ** Bitsets *)

(** C38: the words of a bitset implement a finite set of positions: [set],
    [clear] and [get] inside the capacity are insertion, removal and membership,
    they never panic there and keep every word in 64 bits. *)
Theorem bitset_refines_set (b : list Z) (pos : Z) :
  Bitset.wf b → 0 <= pos < Bitset.cap b →
  (∃ b', Bitset.set b pos = Some b' ∧ Bitset.wf b' ∧ Bitset.cap b' = Bitset.cap b ∧
         Bitset.denote b' = {[pos]} ∪ Bitset.denote b) ∧
  (∃ b', Bitset.clear b pos = Some b' ∧ Bitset.wf b' ∧ Bitset.cap b' = Bitset.cap b ∧
         Bitset.denote b' = Bitset.denote b ∖ {[pos]}) ∧
  Bitset.get b pos = Some (bool_decide (pos ∈ Bitset.denote b)) ∧
  Bitset.popcnt b = Z.of_nat (size (Bitset.denote b)) ∧
  (∀ b2, Bitset.wf b2 → Bitset.cap b2 = Bitset.cap b →
         Bitset.equals b b2 = true ↔ Bitset.denote b = Bitset.denote b2).
Proof.
  intros Hwf Hp. split_and!; [by apply Bitset.set_spec|by apply Bitset.clear_spec|by apply Bitset.get_decide
    |apply Bitset.popcnt_size|]. intros b2 Hwf2 Hcap. by apply Bitset.equals_denote.
Qed.

Lemma bitset_refines_set_witness :
  (∃ b', Bitset.set [5; 0] 70 = Some b' ∧ Bitset.wf b' ∧ Bitset.cap b' = Bitset.cap [5; 0] ∧
         Bitset.denote b' = {[70]} ∪ Bitset.denote [5; 0]) ∧
  (∃ b', Bitset.clear [5; 0] 70 = Some b' ∧ Bitset.wf b' ∧ Bitset.cap b' = Bitset.cap [5; 0] ∧
         Bitset.denote b' = Bitset.denote [5; 0] ∖ {[70]}) ∧
  Bitset.get [5; 0] 70 = Some (bool_decide (70 ∈ Bitset.denote [5; 0])) ∧
  Bitset.popcnt [5; 0] = Z.of_nat (size (Bitset.denote [5; 0])) ∧
  (∀ b2, Bitset.wf b2 → Bitset.cap b2 = Bitset.cap [5; 0] →
         Bitset.equals [5; 0] b2 = true ↔ Bitset.denote [5; 0] = Bitset.denote b2).
Proof. apply (bitset_refines_set [5; 0] 70); [repeat constructor; vm_compute; done|vm_compute; done]. Defined.

(** ** Instantaneous operations

    [sort.Sort] may put the return of an operation whose two times coincide
    before its call.  The call then has no match, and the search gives up at the
    first entry although the operation alone is legal. *)

Definition tie_go_sort {A} (less : A → A → bool) (l : list A) : list A :=
  merge_sort (not_greater less) (reverse l).

Definition tie_GoSort : GoSort.
Proof.
  refine {| go_sort := @tie_go_sort |}; intros A less l.
  - unfold tie_go_sort. etrans; [apply (go_sort_perm (GoSort:=merge_GoSort))|]. apply reverse_Permutation.
  - apply (go_sort_sorted (GoSort:=merge_GoSort)).
Defined.

Definition instant_put : Operation KvValue :=
  mkOperation 0 (VInput (mkKvInput 1 "x" "1")) 3 (VOutput (mkKvOutput "")) 3.

Lemma instant_operation_rejected :
  op_linearizable KvStep [instant_put] KvInit ∧
  checkSingle kv_filled 10 (makeEntries (H:=tie_GoSort) [instant_put]) false (λ _, 0) = Ret (false, [None], []).
Proof.
  split; [|vm_compute; reflexivity]. exists [instant_put]. split_and!; [done|repeat constructor|by eexists].
Qed.

End PorcupineSpec.
