(* ===== verification/VisLayout.v ===== *)
(** Model of the first half of [render], the script in the page that
    porcupine/visualization.go writes: timestamps, and the left-to-right scan that
    gives every timestamp and every linearization point its x-position. *)

From Stdlib Require Import QArith.Qcanon.
From stdpp Require Import sorting numbers.
From S2P Require Import Prelude GoStd PorcupineModel Visualize.

#[local] Open Scope Z_scope.
#[local] Open Scope go_scope.

(** ** The numbers of the page

    JavaScript computes with doubles.  The model is written for any type with the
    operations the script uses; the laws are those of doubles that matter here:
    comparison is total, addition rounds but is monotone, integers are exact up to
    2^53, and so is the middle of two integers up to 2^52. *)
Class JsNumber (Num : Type) := {
  num_eq_dec :: EqDecision Num;
  nle : Num → Num → Prop;
  nle_dec :: RelDecision nle;
  nadd : Num → Num → Num;
  nsub : Num → Num → Num;
  nhalf : Num → Num;
  of_int : Z → Num;
}.

Definition nlt `{JsNumber Num} (x y : Num) : Prop := ¬ nle y x.
Definition nmax `{JsNumber Num} (x y : Num) : Num := if decide (nle x y) then y else x.
Definition nmin `{JsNumber Num} (x y : Num) : Num := if decide (nle x y) then x else y.

#[export] Instance nlt_dec `{JsNumber Num} (x y : Num) : Decision (nlt x y).
Proof. unfold nlt. apply _. Defined.

Class JsNumberLaws (Num : Type) `{JsNumber Num} := {
  nle_refl : ∀ x : Num, nle x x;
  nle_trans : ∀ x y z : Num, nle x y → nle y z → nle x z;
  nle_antisym : ∀ x y : Num, nle x y → nle y x → x = y;
  nle_total : ∀ x y : Num, nle x y ∨ nle y x;
  nadd_mono : ∀ x y z w : Num, nle x y → nle z w → nle (nadd x z) (nadd y w);
  nadd_int : ∀ (x : Num) k, 0 <= k <= 2^53 → nle x (nadd x (of_int k));
  of_int_lt : ∀ a b, -2^53 <= a → a < b → b <= 2^53 → nlt (of_int a : Num) (of_int b);
  nhalf_between : ∀ a b, -2^52 <= a → a < b → b <= 2^52 →
    nlt (of_int a : Num) (nhalf (nadd (of_int a) (of_int b))) ∧ nlt (nhalf (nadd (of_int a) (of_int b) : Num)) (of_int b);
}.

(** Numbers that are added and subtracted without rounding while the results stay in
    range.  Of doubles these are the multiples of a negative power of two, such as
    1/64, with at most 53 digits: [units a] is the [a]-th multiple, and [per_pixel]
    multiples make a pixel. *)
Class GridNumber (Num : Type) `{JsNumber Num} := {
  per_pixel : Z;
  units : Z → Num;
  per_pixel_pos : 0 < per_pixel;
  grid_int : ∀ k, -2^53 <= k * per_pixel <= 2^53 → of_int k = units (k * per_pixel);
  grid_le : ∀ a b, -2^53 <= a <= 2^53 → -2^53 <= b <= 2^53 → nle (units a) (units b) ↔ a <= b;
  grid_add : ∀ a b, -2^53 <= a <= 2^53 → -2^53 <= b <= 2^53 → -2^53 <= a + b <= 2^53 → nadd (units a) (units b) = units (a + b);
  grid_sub : ∀ a b, -2^53 <= a <= 2^53 → -2^53 <= b <= 2^53 → -2^53 <= a - b <= 2^53 → nsub (units a) (units b) = units (a - b);
}.

#[export] Instance Qc_number : JsNumber Qc := {
  nle := Qcle; nadd := Qcplus; nsub := Qcminus;
  nhalf := λ x, (x / Qc_of_Z 2)%Qc; of_int := Qc_of_Z;
}.

Module VisLayout.
Export Visualize.

(** The constants of [render]. *)
Definition PADDING : Z := 10.
Definition BOX_HEIGHT : Z := 30.
Definition BOX_SPACE : Z := 15.
Definition XOFF : Z := 20.
Definition EPSILON : Z := 20.
Definition LINE_BLEED : Z := 5.
Definition BOX_GAP : Z := 20.
Definition BOX_TEXT_PADDING : Z := 10.

Section page.
Context {Num : Type} `{JsNumber Num}.

(** [None] is [NaN].  A missing property counts as [NaN], too: the script only adds
    to it or takes its maximum. *)
Definition num_add (x : option Num) (y : Num) : option Num := x ← x; Some (nadd x y).
Definition Math_max (x y : option Num) : option Num := x ← x; y ← y; Some (nmax x y).

(** Objects with numbers as keys, the newest property first. *)
Definition object (A : Type) : Type := list (Num * A).
Fixpoint own {A} (o : object A) (k : Num) : option A :=
  match o with
  | [] => None
  | (k', x) :: o => if decide (k' = k) then Some x else own o k
  end.
Definition xget (xPos : object (option Num)) (t : Num) : option Num := x ← own xPos t; x.

(** [Set.add] keeps the order of insertion. *)
Definition Set_add (x : Num) (s : list Num) : list Num := if decide (x ∈ s) then s else s ++ [x].

(** [sort((a, b) => a - b)] *)
Definition sort_numbers (l : list Num) : list Num := merge_sort nle l.

(** ** Timestamps *)

(** A history element with the properties that the script adds to it. *)
Record event := mkEvent {
  ev_el : historyElement;
  ev_Gid : nat;
  ev_Start : Num;
  ev_End : Num;
  ev_OriginalEnd : Num;
}.

Definition max_client (data : list partitionVisualizationData) : Z :=
  foldl (λ m p, foldl (λ m el, m `max` he_ClientId el) m (pv_History p)) (-1) data.

(** [allTimestamps], [startTimestamps] and [gid] *)
Definition stamps : Type := list Num * list Num * nat.

Definition register_el (s : stamps) (el : historyElement) : stamps * event :=
  let '(all, starts, gid) := s in
  let start := of_int (he_Start el) in
  let end_ := of_int (he_End el) in
  ((Set_add end_ (Set_add start all), Set_add start starts, S gid), mkEvent el gid start end_ end_).

Fixpoint register_els (s : stamps) (els : list historyElement) : stamps * list event :=
  match els with
  | [] => (s, [])
  | el :: els =>
      let '(s, ev) := register_el s el in
      let '(s, evs) := register_els s els in (s, ev :: evs)
  end.

Fixpoint register (s : stamps) (data : list partitionVisualizationData) : stamps * list (list event) :=
  match data with
  | [] => (s, [])
  | partition :: data =>
      let '(s, evs) := register_els s (pv_History partition) in
      let '(s, evss) := register s data in (s, evs :: evss)
  end.

(** [nextTs]: each timestamp's successor. *)
Definition next_ts (sorted : list Num) : object Num := zip sorted (tail sorted).

(** An end that is also a start moves half-way to the next timestamp. *)
Definition tweak (starts : list Num) (next : object Num) (all : list Num) (ev : event) : list Num * event :=
  if decide (ev_End ev ∈ starts) then
    match own next (ev_End ev) with
    | Some t =>
        let tweaked := nhalf (nadd (ev_End ev) t) in
        (Set_add tweaked all, mkEvent (ev_el ev) (ev_Gid ev) (ev_Start ev) tweaked (ev_OriginalEnd ev))
    | None => (all, ev)
    end
  else (all, ev).

Fixpoint tweak_els (starts : list Num) (next : object Num) (all : list Num) (evs : list event) : list Num * list event :=
  match evs with
  | [] => (all, [])
  | ev :: evs =>
      let '(all, ev) := tweak starts next all ev in
      let '(all, evs) := tweak_els starts next all evs in (all, ev :: evs)
  end.

Fixpoint tweak_all (starts : list Num) (next : object Num) (all : list Num) (evss : list (list event)) :
    list Num * list (list event) :=
  match evss with
  | [] => (all, [])
  | evs :: evss =>
      let '(all, evs) := tweak_els starts next all evs in
      let '(all, evss) := tweak_all starts next all evss in (all, evs :: evss)
  end.

(** The events of every partition and [sortedTimestamps]. *)
Definition prepare (data : list partitionVisualizationData) : list (list event) * list Num :=
  let '((all, starts, _), evss) := register ([], [], 0%nat) data in
  let '(all, evss) := tweak_all starts (next_ts (sort_numbers all)) all evss in
  (evss, sort_numbers all).

(** ** Boxes and linearizations *)

Record box := mkBox { bx_start : Num; bx_end : Num; bx_width : Num; bx_gid : nat }.

(** [text.getBBox().width], which the browser measures. *)
Context (getBBox_width : string → Num).

Definition box_of (ev : event) : box :=
  mkBox (ev_Start ev) (ev_End ev)
    (nadd (getBBox_width (he_Description (ev_el ev))) (of_int (2 * BOX_TEXT_PADDING))) (ev_Gid ev).

Definition ends_before (a b : box) : Prop := nle (bx_end a) (bx_end b).

#[export] Instance ends_before_dec : RelDecision ends_before.
Proof. intros a b. unfold ends_before. apply _. Defined.

(** [sort((a, b) => a.end - b.end)]; it is stable, and so is [merge_sort]. *)
Definition by_end (evss : list (list event)) : list box :=
  merge_sort ends_before (map box_of (concat evss)).

(** [eventToLinearizations], [eventIllegalLast] and [allLinearizations] *)
Record lins := mkLins {
  ln_points : list (list (nat * Z));
  ln_illegal : list (list nat);
  ln_all : list (list nat);
}.

Definition push {A} (g : nat) (x : A) (arr : list (list A)) : list (list A) := alter (λ l, l ++ [x]) g arr.

(** The loop over the steps of one linearization; [None] is a TypeError. *)
Fixpoint globalize (evs : list event) (lgid : nat) (position : Z) (lin : list linearizationStep)
    (globalized : list nat) (points : list (list (nat * Z))) : option (list nat * list (list (nat * Z))) :=
  match lin with
  | [] => Some (globalized, points)
  | step :: lin =>
      ev ← evs.[ls_Index step];
      globalize evs lgid (position + 1) lin (globalized ++ [ev_Gid ev]) (push (ev_Gid ev) (lgid, position) points)
  end.

(** [minEnd], where [None] is [Infinity]. *)
Fixpoint min_end (included : list Z) (index : Z) (evs : list event) (minEnd : option Num) : option Num :=
  match evs with
  | [] => minEnd
  | ev :: evs =>
      min_end included (index + 1) evs
        (if decide (index ∈ included) then minEnd
         else Some (match minEnd with Some m => nmin m (ev_End ev) | None => ev_End ev end))
  end.

Definition below (x : Num) (minEnd : option Num) : bool :=
  match minEnd with Some m => bool_decide (nlt x m) | None => true end.

(** The elements that may be tried after the linearization: those not included
    that start before any other not included ends. *)
Fixpoint next_tries (included : list Z) (minEnd : option Num) (index : Z) (evs : list event) : list (Z * event) :=
  match evs with
  | [] => []
  | ev :: evs =>
      let rest := next_tries included minEnd (index + 1) evs in
      if bool_decide (index ∉ included) && below (ev_Start ev) minEnd then (index, ev) :: rest else rest
  end.

Definition tries (evs : list event) (lin : list linearizationStep) : list (Z * event) :=
  let included := map ls_Index lin in next_tries included (min_end included 0 evs None) 0 evs.

Definition add_lin (evs : list event) (ln : lins) (lin : list linearizationStep) : option lins :=
  let lgid := List.length (ln_all ln) in
  '(globalized, points) ← globalize evs lgid 0 lin [] (ln_points ln);
  let illegal := foldl (λ arr e, push (ev_Gid e.2) lgid arr) (ln_illegal ln) (tries evs lin) in
  Some (mkLins points illegal (ln_all ln ++ [globalized])).

Fixpoint add_lins (evs : list event) (ln : lins) (ls : list (list linearizationStep)) : option lins :=
  match ls with
  | [] => Some ln
  | lin :: ls => ln ← add_lin evs ln lin; add_lins evs ln ls
  end.

Fixpoint add_partitions (data : list partitionVisualizationData) (evss : list (list event)) (ln : lins) : option lins :=
  match data, evss with
  | partition :: data, evs :: evss =>
      ln ← add_lins evs ln (pv_PartialLinearizations partition); add_partitions data evss ln
  | _, _ => Some ln
  end.

(** ** The scan *)

(** The positions of the linearization points placed so far, by linearization. *)
Abbreviation positions := (list (list (option Num))).

(** Places the next point of a linearization. *)
Definition next_point (byGid : list event) (xPos : object (option Num)) (lin : list nat) (ps : list (option Num)) : option (list (option Num)) :=
  g ← lin !! List.length ps; ev ← byGid !! g;
  let here := xget xPos (ev_Start ev) in
  Some (ps ++ [match last ps with
               | None => here
               | Some prev => Math_max here (num_add prev (of_int EPSILON))
               end]).

Fixpoint next_points (k : nat) (byGid : list event) (xPos : object (option Num)) (lin : list nat) (ps : list (option Num)) :
    option (list (option Num)) :=
  match k with
  | O => Some ps
  | S k => ps ← next_point byGid xPos lin ps; next_points k byGid xPos lin ps
  end.

(** The points up to [position]. *)
Definition place_points (byGid : list event) (xPos : object (option Num)) (all : list (list nat)) (lps : positions)
    (index : nat) (position : Z) : option positions :=
  lin ← all !! index; ps ← lps !! index;
  ps ← next_points (Z.to_nat (position + 1 - zlen ps)) byGid xPos lin ps;
  Some (<[index := ps]> lps).

Fixpoint place_all (byGid : list event) (xPos : object (option Num)) (all : list (list nat)) (lps : positions) (pos : option Num)
    (lis : list (nat * Z)) : option (positions * option Num) :=
  match lis with
  | [] => Some (lps, pos)
  | (index, position) :: lis =>
      lps ← place_points byGid xPos all lps index position;
      ps ← lps !! index;
      place_all byGid xPos all lps (Math_max pos (x ← ps.[position]; x)) lis
  end.

Fixpoint illegal_fit (lps : positions) (pos : option Num) (indexes : list nat) : option (option Num) :=
  match indexes with
  | [] => Some pos
  | index :: indexes =>
      ps ← lps !! index;
      illegal_fit lps (Math_max pos (x ← last ps; num_add x (of_int EPSILON))) indexes
  end.

(** The body of the [while] loop: the end of one box. *)
Definition place_box (byGid : list event) (xPos : object (option Num)) (ln : lins) (lps : positions) (pos : option Num) (b : box) :
    option (positions * option Num) :=
  let pos := Math_max pos (num_add (xget xPos (bx_start b)) (bx_width b)) in
  points ← ln_points ln !! bx_gid b; illegal ← ln_illegal ln !! bx_gid b;
  last_points ← mapM (λ index, lin ← ln_all ln !! index; Some (index, zlen lin - 1)) illegal;
  '(lps, pos) ← place_all byGid xPos (ln_all ln) lps pos (points ++ last_points);
  pos ← illegal_fit lps pos illegal;
  Some (lps, pos).

(** The [while] loop: the boxes that end no later than [ts]; it returns the boxes
    that are left. *)
Fixpoint place_boxes (byGid : list event) (xPos : object (option Num)) (ln : lins) (ts : Num) (lps : positions) (pos : option Num)
    (boxes : list box) : option (positions * option Num * list box) :=
  match boxes with
  | [] => Some (lps, pos, [])
  | b :: boxes' =>
      if decide (nle (bx_end b) ts) then
        '(lps, pos) ← place_box byGid xPos ln lps pos b;
        place_boxes byGid xPos ln ts lps pos boxes'
      else Some (lps, pos, boxes)
  end.

(** The [for] loop over the timestamps after the first; [prev] is the one before. *)
Fixpoint scan (byGid : list event) (ln : lins) (xPos : object (option Num)) (lps : positions) (boxes : list box) (prev : Num)
    (sorted : list Num) : option (object (option Num) * positions) :=
  match sorted with
  | [] => Some (xPos, lps)
  | ts :: sorted =>
      let pos := num_add (xget xPos prev) (of_int BOX_GAP) in
      '(lps, pos, boxes) ← place_boxes byGid xPos ln ts lps pos boxes;
      scan byGid ln ((ts, pos) :: xPos) lps boxes ts sorted
  end.

Record layout := mkLayout {
  lo_events : list (list event);
  lo_sorted : list Num;
  lo_lins : lins;
  lo_xPos : object (option Num);
  lo_positions : positions;
}.

Definition compute_layout (data : list partitionVisualizationData) : option layout :=
  let '(evss, sorted) := prepare data in
  let byGid := concat evss in
  let gid := List.length byGid in
  ln ← add_partitions data evss (mkLins (replicate gid []) (replicate gid []) []);
  let lps := replicate (List.length (ln_all ln)) [] in
  match sorted with
  | [] => Some (mkLayout evss sorted ln [] lps)
  | t0 :: ts =>
      '(xPos, lps) ← scan byGid ln [(t0, Some (of_int 0))] lps (by_end evss) t0 ts;
      Some (mkLayout evss sorted ln xPos lps)
  end.
End page.

Arguments object : clear implicits.
Arguments event : clear implicits.
Arguments box : clear implicits.
Arguments layout : clear implicits.
End VisLayout.
