(* ===== verification/VisLayoutProof.v ===== *)
(** Lemmas about the layout of VisLayout.v: the timestamps after [prepare], the
    tables of linearizations, and the invariant of the scan. *)

From stdpp Require Import sorting.
From S2P Require Import Prelude GoStd PorcupineModel Visualize VisLayout.

#[local] Open Scope Z_scope.
#[local] Open Scope go_scope.

Module VisLayoutProof.
Export VisLayout.

(** ** Order *)

Section order.
Context {Num : Type} `{JsNumberLaws Num}.
Implicit Types x y z : Num.

Lemma nlt_nle x y : nlt x y → nle x y.
Proof. unfold nlt. destruct (nle_total x y); [done|tauto]. Qed.

Lemma nlt_irrefl x : ¬ nlt x x.
Proof. intros Hx. apply Hx, nle_refl. Qed.

Lemma nlt_ne x y : nlt x y → x ≠ y.
Proof. intros Hx ->. by apply nlt_irrefl in Hx. Qed.

Lemma nle_nlt_trans x y z : nle x y → nlt y z → nlt x z.
Proof. intros Hxy Hyz Hzx. apply Hyz. by eapply nle_trans. Qed.

Lemma nlt_nle_trans x y z : nlt x y → nle y z → nlt x z.
Proof. intros Hxy Hyz Hzx. apply Hxy. by eapply nle_trans. Qed.

Lemma nlt_trans x y z : nlt x y → nlt y z → nlt x z.
Proof. intros Hxy Hyz. eapply nlt_nle_trans; [exact Hxy|by apply nlt_nle]. Qed.

Lemma nle_ne_nlt x y : nle x y → x ≠ y → nlt x y.
Proof. intros Hle Hne Hyx. by apply Hne, nle_antisym. Qed.

Lemma nmax_l x y : nle x (nmax x y).
Proof. unfold nmax. case_decide; [done|apply nle_refl]. Qed.

Lemma nmax_r x y : nle y (nmax x y).
Proof. unfold nmax. case_decide; [apply nle_refl|]. by apply nlt_nle. Qed.

Lemma nmax_lub x y z : nle x z → nle y z → nle (nmax x y) z.
Proof. unfold nmax. by case_decide. Qed.

Lemma nmin_glb x y z : nlt x (nmin y z) ↔ nlt x y ∧ nlt x z.
Proof.
  unfold nmin. case_decide as Hyz.
  - split; [|tauto]. intros Hxy. split; [done|by eapply nlt_nle_trans].
  - split; [|tauto]. intros Hxz. split; [|done]. eapply nlt_nle_trans; [exact Hxz|by apply nlt_nle].
Qed.

(** Integers in range. *)
Definition exact (k : Z) : Prop := -2^52 <= k <= 2^52.

Lemma of_int_lt_iff a b : exact a → exact b → nlt (of_int a : Num) (of_int b) ↔ a < b.
Proof.
  unfold exact. intros Ha Hb. split; [|intros; apply of_int_lt; lia]. intros Hlt.
  destruct (Z.lt_total a b) as [|[->|Hba]]; [done|by apply nlt_irrefl in Hlt|]. exfalso.
  apply (nlt_irrefl (of_int a : Num)). eapply nlt_trans; [exact Hlt|apply of_int_lt; lia].
Qed.

Lemma of_int_le_iff a b : exact a → exact b → nle (of_int a : Num) (of_int b) ↔ a <= b.
Proof.
  intros Ha Hb. rewrite <- Z.nlt_ge, <- (of_int_lt_iff b a Hb Ha). unfold nlt. split; [tauto|apply dec_stable].
Qed.

Lemma of_int_inj a b : exact a → exact b → (of_int a : Num) = of_int b → a = b.
Proof.
  intros Ha Hb Hab. pose proof (nle_refl (of_int a : Num)) as H1.
  enough (a <= b ∧ b <= a) by lia. split; apply of_int_le_iff; try done; rewrite ?Hab; apply nle_refl.
Qed.

(** ** Sorted sets *)

Lemma elem_of_Set_add x y (s : list Num) : x ∈ Set_add y s ↔ x = y ∨ x ∈ s.
Proof. unfold Set_add. case_decide; set_solver. Qed.

Lemma NoDup_Set_add y (s : list Num) : NoDup s → NoDup (Set_add y s).
Proof.
  intros Hs. unfold Set_add. case_decide; [done|]. apply NoDup_app. split; [done|]. split; [set_solver|].
  apply NoDup_singleton.
Qed.

#[export] Instance nle_Transitive : Transitive (nle (Num:=Num)).
Proof. intros x y z. apply nle_trans. Qed.
#[export] Instance nle_Total : Total (nle (Num:=Num)).
Proof. intros x y. apply nle_total. Qed.

Lemma elem_of_sort_numbers x (l : list Num) : x ∈ sort_numbers l ↔ x ∈ l.
Proof. unfold sort_numbers. by rewrite merge_sort_Permutation. Qed.

Lemma sort_numbers_sorted (l : list Num) : NoDup l → StronglySorted nlt (sort_numbers l).
Proof.
  intros Hnd. assert (NoDup (sort_numbers l)) as Hn by (unfold sort_numbers; by rewrite merge_sort_Permutation).
  assert (StronglySorted nle (sort_numbers l)) as Hs by (apply StronglySorted_merge_sort; apply _).
  induction Hs as [|x k _ IH Hx]; [constructor|]. apply NoDup_cons in Hn as [Hnin Hn]. constructor; [by apply IH|].
  apply Forall_forall. intros y Hy. rewrite Forall_forall in Hx. apply nle_ne_nlt; [by apply Hx|by intros ->].
Qed.

(** The successor of a timestamp. *)
Lemma next_ts_spec (sorted : list Num) x :
  StronglySorted nlt sorted → x ∈ sorted →
  match own (next_ts sorted) x with
  | Some y => y ∈ sorted ∧ nlt x y ∧ ∀ z, z ∈ sorted → nlt x z → nle y z
  | None => ∀ z, z ∈ sorted → nle z x
  end.
Proof.
  intros Hs. induction Hs as [|a l Hs IH Ha]; intros Hx; [by apply elem_of_nil in Hx|]. rewrite Forall_forall in Ha.
  destruct l as [|b l].
  { simpl. apply elem_of_cons in Hx as [->|Hx]; [|by apply elem_of_nil in Hx].
    intros z [->|Hz]%elem_of_cons; [apply nle_refl|by apply elem_of_nil in Hz]. }
  change (own (next_ts (a :: b :: l)) x) with (if decide (a = x) then Some b else own (next_ts (b :: l)) x).
  case_decide as Hax.
  - subst x. split; [set_solver|]. split; [apply Ha; by left|]. apply StronglySorted_inv in Hs as [_ Hb].
    rewrite Forall_forall in Hb.
    intros z [->|[->|Hz]%elem_of_cons]%elem_of_cons Hlt; [by apply nlt_irrefl in Hlt|apply nle_refl|].
    by apply nlt_nle, Hb.
  - apply elem_of_cons in Hx as [->|Hx]; [done|]. specialize (IH Hx). specialize (Ha x Hx).
    destruct (own (next_ts (b :: l)) x) as [y|].
    + destruct IH as (Hy & Hlt & Hmin). split; [by right|]. split; [done|].
      intros z [->|Hz]%elem_of_cons Hxz; [|by apply Hmin]. exfalso. apply (nlt_irrefl x). by eapply nlt_trans.
    + intros z [->|Hz]%elem_of_cons; [by apply nlt_nle|by apply IH].
Qed.
End order.

Lemma elem_of_concat {A} (x : A) (ls : list (list A)) : x ∈ concat ls ↔ ∃ l, x ∈ l ∧ l ∈ ls.
Proof. rewrite list_elem_of_In, in_concat. setoid_rewrite list_elem_of_In. naive_solver. Qed.

(** ** The timestamps *)

Section prepare.
Context {Num : Type} `{JsNumberLaws Num}.
Implicit Types (ev : event Num) (evs : list (event Num)) (s : stamps (Num:=Num)) (all starts : list Num).

(** An element with its own times. *)
Definition raw ev : Prop :=
  ev_Start ev = of_int (he_Start (ev_el ev)) ∧ ev_End ev = of_int (he_End (ev_el ev)) ∧ ev_OriginalEnd ev = ev_End ev.

(** What the first pass adds to its three variables. *)
Record registered s s' evs : Prop := mkRegistered {
  rg_gid : s'.2 = (s.2 + List.length evs)%nat;
  rg_gids : ∀ k ev, evs !! k = Some ev → ev_Gid ev = (s.2 + k)%nat;
  rg_raw : ∀ ev, ev ∈ evs → raw ev;
  rg_all : ∀ x, x ∈ s'.1.1 ↔ x ∈ s.1.1 ∨ ∃ ev, ev ∈ evs ∧ (x = ev_Start ev ∨ x = ev_End ev);
  rg_starts : ∀ x, x ∈ s'.1.2 ↔ x ∈ s.1.2 ∨ ∃ ev, ev ∈ evs ∧ x = ev_Start ev;
  rg_nodup : NoDup s.1.1 → NoDup s'.1.1;
}.

Lemma registered_nil s : registered s s [].
Proof. split; simpl; [lia|done|set_solver|set_solver|set_solver|done]. Qed.

Lemma registered_el s el s' ev : register_el s el = (s', ev) → registered s s' [ev] ∧ ev_el ev = el.
Proof.
  destruct s as [[all starts] gid]. intros [= <- <-]. split; [|done]. split; simpl; [lia| | | | |].
  - intros [|k] ev Hev; simplify_eq/=. lia.
  - intros ev ->%list_elem_of_singleton. done.
  - intros x. rewrite !elem_of_Set_add. setoid_rewrite list_elem_of_singleton. naive_solver.
  - intros x. rewrite !elem_of_Set_add. setoid_rewrite list_elem_of_singleton. naive_solver.
  - intros Hnd. by do 2 apply NoDup_Set_add.
Qed.

Lemma registered_app s1 s2 s3 evs1 evs2 :
  registered s1 s2 evs1 → registered s2 s3 evs2 → registered s1 s3 (evs1 ++ evs2).
Proof.
  intros [G1 K1 R1 A1 S1 D1] [G2 K2 R2 A2 S2 D2]. split.
  - rewrite length_app. lia.
  - intros k ev [Hk|[Hk Hev]]%lookup_app_Some; [by apply K1|]. rewrite (K2 _ _ Hev). lia.
  - intros ev [?|?]%elem_of_app; auto.
  - intros x. rewrite A2, A1. setoid_rewrite elem_of_app. naive_solver.
  - intros x. rewrite S2, S1. setoid_rewrite elem_of_app. naive_solver.
  - auto.
Qed.

Lemma register_els_spec s els s' evs :
  register_els s els = (s', evs) → registered s s' evs ∧ map ev_el evs = els.
Proof.
  revert s evs. induction els as [|el els IH]; intros s evs Hr; simpl in Hr.
  { simplify_eq. split; [apply registered_nil|done]. }
  destruct (register_el s el) as [s1 ev] eqn:H1. destruct (register_els s1 els) as [s2 evs'] eqn:H2. simplify_eq.
  destruct (registered_el _ _ _ _ H1) as [Hr1 <-]. destruct (IH _ _ H2) as [Hr2 <-]. split; [|done].
  by apply (registered_app s s1 s' [ev] evs').
Qed.

Lemma register_spec s data s' evss :
  register s data = (s', evss) → registered s s' (concat evss) ∧ map (map ev_el) evss = map pv_History data.
Proof.
  revert s evss. induction data as [|p data IH]; intros s evss Hr; simpl in Hr.
  { simplify_eq. split; [apply registered_nil|done]. }
  destruct (register_els s (pv_History p)) as [s1 evs] eqn:H1. destruct (register s1 data) as [s2 evss'] eqn:H2. simplify_eq.
  destruct (register_els_spec _ _ _ _ H1) as [Hr1 He]. destruct (IH _ _ H2) as [Hr2 Hes]. simpl. rewrite He, Hes.
  split; [by eapply registered_app|done].
Qed.

(** What the second pass makes of an element and of the set of timestamps. *)
Definition tweaked starts next ev : event Num := (tweak starts next [] ev).2.

Record retimed starts next all all' evs evs' : Prop := mkRetimed {
  rt_evs : evs' = map (tweaked starts next) evs;
  rt_all : ∀ x, x ∈ all' ↔ x ∈ all ∨ ∃ ev, ev ∈ evs' ∧ x = ev_End ev;
  rt_nodup : NoDup all → NoDup all';
}.

Lemma tweak_spec starts next all ev all' ev' :
  ev_End ev ∈ all → tweak starts next all ev = (all', ev') → retimed starts next all all' [ev] [ev'].
Proof.
  unfold tweak. intros Hin Ht. split.
  - simpl. f_equal. unfold tweaked, tweak. case_decide; [destruct (own next (ev_End ev))|]; by simplify_eq/=.
  - intros x. setoid_rewrite list_elem_of_singleton.
    case_decide; [destruct (own next (ev_End ev))|]; simplify_eq/=; rewrite ?elem_of_Set_add; naive_solver.
  - intros Hnd. case_decide; [destruct (own next (ev_End ev))|]; simplify_eq/=; auto using NoDup_Set_add.
Qed.

Lemma retimed_app starts next all1 all2 all3 evs1 evs1' evs2 evs2' :
  retimed starts next all1 all2 evs1 evs1' → retimed starts next all2 all3 evs2 evs2' →
  retimed starts next all1 all3 (evs1 ++ evs2) (evs1' ++ evs2').
Proof.
  intros [-> A1 D1] [-> A2 D2]. split.
  - by rewrite map_app.
  - intros x. rewrite A2, A1. setoid_rewrite elem_of_app. naive_solver.
  - auto.
Qed.

Lemma retimed_ends starts next all all' evs evs' x : retimed starts next all all' evs evs' → x ∈ all → x ∈ all'.
Proof. intros Hr Hx. apply (rt_all _ _ _ _ _ _ Hr). by left. Qed.

Lemma tweak_els_spec starts next all evs all' evs' :
  (∀ ev, ev ∈ evs → ev_End ev ∈ all) → tweak_els starts next all evs = (all', evs') → retimed starts next all all' evs evs'.
Proof.
  revert all evs'. induction evs as [|ev evs IH]; intros all evs' Hin Ht; simpl in Ht.
  { simplify_eq. split; [done|set_solver|done]. }
  destruct (tweak starts next all ev) as [all1 ev1] eqn:H1. destruct (tweak_els starts next all1 evs) as [all2 evs1] eqn:H2.
  simplify_eq. assert (retimed starts next all all1 [ev] [ev1]) as Hr1 by (apply tweak_spec; [apply Hin; by left|done]).
  apply (retimed_app _ _ _ _ _ [ev] [ev1] evs evs1 Hr1). apply IH; [|done].
  intros ev' Hev'. eapply retimed_ends; [done|]. apply Hin. by right.
Qed.

Lemma tweak_all_spec starts next all evss all' evss' :
  (∀ ev, ev ∈ concat evss → ev_End ev ∈ all) → tweak_all starts next all evss = (all', evss') →
  retimed starts next all all' (concat evss) (concat evss') ∧ evss' = map (map (tweaked starts next)) evss.
Proof.
  revert all evss'. induction evss as [|evs evss IH]; intros all evss' Hin Ht; simpl in *.
  { simplify_eq. split; [split; [done|set_solver|done]|done]. }
  destruct (tweak_els starts next all evs) as [all1 evs1] eqn:H1. destruct (tweak_all starts next all1 evss) as [all2 evss1] eqn:H2.
  simplify_eq. assert (retimed starts next all all1 evs evs1) as Hr1.
  { apply tweak_els_spec; [|done]. intros ev Hev. apply Hin, elem_of_app. by left. }
  destruct (IH all1 evss1) as [Hr2 ->]; [|done|].
  { intros ev Hev. eapply retimed_ends; [done|]. apply Hin, elem_of_app. by right. }
  split; [by eapply retimed_app|]. by rewrite (rt_evs _ _ _ _ _ _ Hr1).
Qed.

(** Times that the page can tell apart, and operations that take time. *)
Definition timed (el : historyElement) : Prop :=
  exact (he_Start el) ∧ exact (he_End el) ∧ he_Start el < he_End el.

(** The timestamps that [prepare] hands to the rest of the script.  Elements
    overlap as recorded, and no end is a start any more. *)
Record prepared (data : list partitionVisualizationData) (evss : list (list (event Num))) (sorted : list Num) : Prop :=
  mkPrepared {
  pp_els : map (map ev_el) evss = map pv_History data;
  pp_gid : ∀ g ev, concat evss !! g = Some ev → ev_Gid ev = g;
  pp_start : ∀ ev, ev ∈ concat evss → ev_Start ev = of_int (he_Start (ev_el ev));
  pp_orig : ∀ ev, ev ∈ concat evss → ev_OriginalEnd ev = of_int (he_End (ev_el ev));
  pp_order : ∀ ev ev', ev ∈ concat evss → ev' ∈ concat evss →
    nlt (ev_Start ev') (ev_End ev) ↔ he_Start (ev_el ev') <= he_End (ev_el ev);
  pp_sorted : StronglySorted nlt sorted;
  pp_elem : ∀ x, x ∈ sorted ↔ ∃ ev, ev ∈ concat evss ∧ (x = ev_Start ev ∨ x = ev_End ev ∨ x = ev_OriginalEnd ev);
}.

Section tweaking.
Context (all starts : list Num) (evs : list (event Num)).
Context (Hraw : ∀ ev, ev ∈ evs → raw ev) (Htimed : ∀ ev, ev ∈ evs → timed (ev_el ev)).
Context (Hall : ∀ x, x ∈ all ↔ ∃ ev, ev ∈ evs ∧ (x = ev_Start ev ∨ x = ev_End ev)).
Context (Hstarts : ∀ x, x ∈ starts ↔ ∃ ev, ev ∈ evs ∧ x = ev_Start ev).
Context (Hnd : NoDup all).

Abbreviation next := (next_ts (sort_numbers all)).

Lemma all_exact x : x ∈ all → ∃ k, exact k ∧ x = of_int k.
Proof. intros (ev & Hin & [->| ->])%Hall; destruct (Hraw _ Hin) as (Hs & He & _), (Htimed _ Hin) as (? & ? & _); eauto. Qed.

Lemma next_spec x :
  x ∈ all →
  match own next x with
  | Some y => ∃ k, exact k ∧ y = of_int k ∧ nlt x y ∧ ∀ z, z ∈ all → nlt x z → nle y z
  | None => ∀ z, z ∈ all → nle z x
  end.
Proof.
  intros Hx. pose proof (next_ts_spec (sort_numbers all) x (sort_numbers_sorted all Hnd)) as Hn.
  rewrite elem_of_sort_numbers in Hn. specialize (Hn Hx). destruct (own next x) as [y|].
  - destruct Hn as (Hy & Hlt & Hmin). rewrite elem_of_sort_numbers in Hy. destruct (all_exact y Hy) as (k & Hk & ->).
    exists k. split_and!; try done. intros z Hz. apply Hmin. by apply elem_of_sort_numbers.
  - intros z Hz. apply Hn. by apply elem_of_sort_numbers.
Qed.

Lemma tweaked_keeps ev :
  ev_el (tweaked starts next ev) = ev_el ev ∧ ev_Gid (tweaked starts next ev) = ev_Gid ev ∧
  ev_Start (tweaked starts next ev) = ev_Start ev ∧ ev_OriginalEnd (tweaked starts next ev) = ev_OriginalEnd ev.
Proof. unfold tweaked, tweak. case_decide; [destruct (own next (ev_End ev))|]; done. Qed.

(** The new end lies between the old one and the next timestamp. *)
Lemma tweaked_end ev :
  ev ∈ evs →
  ((ev_End ev ∉ starts) ∧ ev_End (tweaked starts next ev) = ev_End ev) ∨
  (nlt (ev_End ev) (ev_End (tweaked starts next ev)) ∧
   ∀ z, z ∈ all → nlt (ev_End ev) z → nlt (ev_End (tweaked starts next ev)) z).
Proof.
  intros Hin. destruct (Hraw _ Hin) as (Hs & He & _). destruct (Htimed _ Hin) as (Hxs & Hxe & Hlt).
  assert (ev_End ev ∈ all) as Hall1 by (apply Hall; eauto). pose proof (next_spec _ Hall1) as Hn.
  unfold tweaked, tweak. case_decide as Hst; [|by left]. right. apply Hstarts in Hst as (ev' & Hin' & Heq).
  destruct (Hraw _ Hin') as (Hs' & He' & _). destruct (Htimed _ Hin') as (Hxs' & Hxe' & Hlt').
  destruct (own next (ev_End ev)) as [y|]; simpl.
  - destruct Hn as (k & Hk & -> & Hy & Hmin). rewrite He in *. unfold exact in *.
    apply of_int_lt_iff in Hy; [|done..]. destruct (nhalf_between (he_End (ev_el ev)) k) as [H1 H2]; [lia..|].
    split; [done|]. intros z Hz Hxz. eapply nlt_nle_trans; [exact H2|]. by apply Hmin.
  - exfalso. assert (ev_End ev' ∈ all) as Hz by (apply Hall; eauto). specialize (Hn _ Hz).
    rewrite Heq, Hs', He' in Hn. apply of_int_le_iff in Hn; [lia|done..].
Qed.

Lemma tweaked_order ev ev' :
  ev ∈ evs → ev' ∈ evs →
  nlt (ev_Start ev') (ev_End (tweaked starts next ev)) ↔ he_Start (ev_el ev') <= he_End (ev_el ev).
Proof.
  intros Hin Hin'. destruct (Hraw _ Hin) as (Hs & He & _), (Hraw _ Hin') as (Hs' & He' & _).
  destruct (Htimed _ Hin) as (Hxs & Hxe & _), (Htimed _ Hin') as (Hxs' & Hxe' & _).
  assert (ev_Start ev' ∈ all) as Ha' by (apply Hall; eauto).
  destruct (tweaked_end ev Hin) as [[Hno ->]|[Hlt Hmin]].
  - rewrite Hs', He, of_int_lt_iff by done. split; [lia|]. intros Hle.
    destruct (decide (he_Start (ev_el ev') = he_End (ev_el ev))) as [Heq|]; [|lia].
    exfalso. apply Hno, Hstarts. exists ev'. split; [done|]. by rewrite He, Hs', Heq.
  - split.
    + intros Hx. destruct (Z.le_gt_cases (he_Start (ev_el ev')) (he_End (ev_el ev))) as [|Hgt]; [done|]. exfalso.
      apply (nlt_irrefl (ev_Start ev')). eapply nlt_trans; [exact Hx|]. apply Hmin; [done|].
      rewrite He, Hs'. apply of_int_lt_iff; [done..|lia].
    + intros Hle. eapply nle_nlt_trans; [|exact Hlt]. rewrite He, Hs'. by apply of_int_le_iff.
Qed.
End tweaking.

Lemma prepare_spec data :
  (∀ p el, p ∈ data → el ∈ pv_History p → timed el) → prepared data (prepare data).1 (prepare data).2.
Proof.
  intros Htimed. unfold prepare. destruct (register ([], [], 0%nat) data) as [[[all starts] gid] evss] eqn:Hr.
  destruct (register_spec _ _ _ _ Hr) as [[_ Hgid Hraw Hall Hst Hnd] Hels]. simpl in *.
  destruct (tweak_all starts (next_ts (sort_numbers all)) all evss) as [all' evss'] eqn:Ht. simpl.
  assert (∀ x, x ∈ all ↔ ∃ ev, ev ∈ concat evss ∧ (x = ev_Start ev ∨ x = ev_End ev)) as Hall' by (intros x; rewrite Hall; set_solver).
  assert (∀ x, x ∈ starts ↔ ∃ ev, ev ∈ concat evss ∧ x = ev_Start ev) as Hst' by (intros x; rewrite Hst; set_solver).
  destruct (tweak_all_spec _ _ _ _ _ _ (λ ev Hev, proj2 (Hall' _) ltac:(eauto)) Ht) as [[Hevs Hall2 Hnd2] Hevss].
  assert (∀ ev, ev ∈ concat evss → timed (ev_el ev)) as Htm.
  { intros ev (evs & Hev & Hin)%elem_of_concat. assert (map ev_el evs ∈ map pv_History data) as Hm.
    { rewrite <- Hels. by apply list_elem_of_fmap_2. }
    apply list_elem_of_fmap in Hm as (p & Hp & Hpin). apply (Htimed p); [done|]. rewrite <- Hp. by apply list_elem_of_fmap_2. }
  pose proof (tweaked_keeps all starts) as Hk. split.
  - rewrite <- Hels, Hevss. rewrite map_map. apply map_ext. intros evs. rewrite map_map. apply map_ext. intros ev. apply Hk.
  - rewrite Hevs. intros g ev. rewrite list_lookup_fmap. intros (ev0 & Hg & ->)%fmap_Some.
    destruct (Hk ev0) as (_ & -> & _). by apply Hgid.
  - rewrite Hevs. intros ev (ev0 & -> & Hin)%list_elem_of_fmap. destruct (Hk ev0) as (-> & _ & -> & _). apply (Hraw _ Hin).
  - rewrite Hevs. intros ev (ev0 & -> & Hin)%list_elem_of_fmap. destruct (Hk ev0) as (-> & _ & _ & ->).
    destruct (Hraw _ Hin) as (_ & <- & ->). done.
  - rewrite Hevs. intros ev ev' (ev0 & -> & Hin)%list_elem_of_fmap (ev1 & -> & Hin')%list_elem_of_fmap.
    destruct (Hk ev0) as (-> & _), (Hk ev1) as (-> & _ & -> & _). apply (tweaked_order all starts (concat evss)); auto. apply Hnd. constructor.
  - apply sort_numbers_sorted, Hnd2, Hnd. constructor.
  - intros x. rewrite elem_of_sort_numbers, Hall2, Hall', Hevs. setoid_rewrite list_elem_of_fmap. split.
    + intros [(ev & Hin & Hx)|(ev & (ev0 & -> & Hin) & ->)]; [|naive_solver].
      exists (tweaked starts (next_ts (sort_numbers all)) ev). split; [eauto|]. destruct (Hk ev) as (_ & _ & -> & ->).
      destruct (Hraw _ Hin) as (_ & _ & ->). naive_solver.
    + intros (ev & (ev0 & -> & Hin) & Hx). destruct (Hk ev0) as (_ & _ & Hs & Ho). rewrite Hs, Ho in Hx.
      destruct (Hraw _ Hin) as (_ & _ & Hoo). rewrite Hoo in Hx. naive_solver.
Qed.
End prepare.
End VisLayoutProof.
