(* ===== verification/VisScanProof.v ===== *)
(** Lemmas about the layout of VisLayout.v, continued: the tables of
    linearizations, and the invariant of the scan with the constraints that it
    solves. *)

From stdpp Require Import sorting.
From S2P Require Import Prelude GoStd PorcupineModel Visualize VisLayout VisLayoutProof.

#[local] Open Scope Z_scope.
#[local] Open Scope go_scope.

Module VisScanProof.
Export VisLayoutProof.

(** ** The tables of linearizations *)

Section tables.
Context {Num : Type} `{JsNumber Num}.
Implicit Types (ev : event Num) (evs : list (event Num)) (lin : list linearizationStep) (ln : lins) (g l : nat) (gs : list nat).

(** [x] is in row [g]. *)
Definition at_row {A} (arr : list (list A)) g (x : A) : Prop := ∃ row, arr !! g = Some row ∧ x ∈ row.

Lemma at_push {A} (arr : list (list A)) g g' (x y : A) :
  (g < List.length arr)%nat → at_row (push g x arr) g' y ↔ at_row arr g' y ∨ g' = g ∧ y = x.
Proof.
  intros Hg. unfold at_row, push. destruct (decide (g' = g)) as [->|Hne].
  - rewrite list_lookup_alter_eq. destruct (lookup_lt_is_Some_2 arr g Hg) as [row Hrow]. rewrite Hrow. simpl. split.
    + intros (r & [= <-] & [Hy|Hy%list_elem_of_singleton]%elem_of_app); eauto.
    + intros [(r & [= <-] & Hy)|[_ ->]]; eexists; (split; [done|]); set_solver.
  - rewrite list_lookup_alter_ne by done. naive_solver.
Qed.

Lemma length_push {A} (arr : list (list A)) g (x : A) : List.length (push g x arr) = List.length arr.
Proof. apply length_alter. Qed.

(** The gids of a linearization. *)
Definition global evs lin gs : Prop :=
  Forall2 (λ step g, ∃ ev, evs.[ls_Index step] = Some ev ∧ ev_Gid ev = g) lin gs.

Lemma globalize_spec evs n l lin k glob points :
  (∀ ev, ev ∈ evs → (ev_Gid ev < n)%nat) → List.length points = n →
  (∀ step, step ∈ lin → is_Some (evs.[ls_Index step])) →
  ∃ gs points', globalize evs l k lin glob points = Some (glob ++ gs, points') ∧ global evs lin gs ∧
    List.length points' = n ∧
    ∀ g y, at_row points' g y ↔ at_row points g y ∨ ∃ i, gs !! i = Some g ∧ y = (l, k + Z.of_nat i).
Proof.
  intros Hn. revert k glob points. induction lin as [|step lin IH]; intros k glob points Hlen Hv; simpl.
  { exists [], points. rewrite app_nil_r. split_and!; try done; [constructor|]. intros g y. split; [by left|].
    intros [?|(i & Hi & _)]; [done|]. by rewrite lookup_nil in Hi. }
  destruct (Hv step) as [ev Hev]; [by left|]. rewrite Hev. simpl.
  assert (ev_Gid ev < n)%nat as Hg.
  { apply Hn. apply zlookup_lt_Some in Hev as Hr. rewrite zlookup_pos in Hev by lia. by eapply list_elem_of_lookup_2. }
  destruct (IH (k + 1) (glob ++ [ev_Gid ev]) (push (ev_Gid ev) (l, k) points)) as (gs & points' & Hgl & Hgs & Hl & Hat).
  { by rewrite length_push. }
  { intros step' Hin. apply Hv. by right. }
  exists (ev_Gid ev :: gs), points'. rewrite Hgl, <- app_assoc. split_and!; try done.
  { constructor; [eauto|done]. }
  intros g y. rewrite Hat, at_push by (by rewrite Hlen). split.
  - intros [[Ha|[-> ->]]|(i & Hi & ->)]; [by left|right; exists 0%nat; split; [done|f_equal; lia]|].
    right. exists (S i). split; [done|]. f_equal. lia.
  - intros [Ha|([|i] & Hi & ->)]; [by do 2 left| |].
    + left. right. simpl in Hi. injection Hi as ->. split; [done|]. f_equal. lia.
    + right. exists i. split; [done|]. f_equal. lia.
Qed.

Lemma push_all n l (es : list (Z * event Num)) arr :
  (∀ e, e ∈ es → (ev_Gid e.2 < n)%nat) → List.length arr = n →
  let arr' := foldl (λ arr e, push (ev_Gid e.2) l arr) arr es in
  List.length arr' = n ∧ ∀ g y, at_row arr' g y ↔ at_row arr g y ∨ y = l ∧ ∃ e, e ∈ es ∧ ev_Gid e.2 = g.
Proof.
  revert arr. induction es as [|e es IH]; intros arr Hn Hlen; simpl.
  { split; [done|]. set_solver. }
  destruct (IH (push (ev_Gid e.2) l arr)) as [Hl Hat].
  { intros e' He'. apply Hn. by right. }
  { by rewrite length_push. }
  split; [done|]. intros g y. rewrite Hat, at_push by (rewrite Hlen; apply Hn; by left). setoid_rewrite elem_of_cons. naive_solver.
Qed.

Lemma elem_of_next_tries included minEnd k evs i ev :
  (i, ev) ∈ next_tries included minEnd k evs ↔
  k <= i ∧ evs !! Z.to_nat (i - k) = Some ev ∧ (i ∉ included) ∧ below (ev_Start ev) minEnd = true.
Proof.
  revert k. induction evs as [|ev' evs IH]; intros k; simpl.
  { rewrite lookup_nil. split; [by intros ?%elem_of_nil|naive_solver]. }
  assert ((i, ev) ∈ next_tries included minEnd (k + 1) evs ↔
    k < i ∧ (ev' :: evs) !! Z.to_nat (i - k) = Some ev ∧ (i ∉ included) ∧ below (ev_Start ev) minEnd = true) as IH'.
  { rewrite IH. split; intros (? & Hl & ?); (split; [lia|]); (split; [|done]).
    - replace (Z.to_nat (i - k)) with (S (Z.to_nat (i - (k + 1)))) by lia. done.
    - by replace (Z.to_nat (i - k)) with (S (Z.to_nat (i - (k + 1)))) in Hl by lia. }
  destruct (bool_decide_reflect (k ∉ included)) as [Hk|Hk]; simpl.
  - destruct (below (ev_Start ev') minEnd) eqn:Hb; rewrite ?elem_of_cons, IH'.
    + split; [|destruct (decide (i = k)) as [->|]].
      * intros [[= -> ->]|(? & ?)]; [|split; [lia|done]]. rewrite Z.sub_diag. split; [lia|done].
      * rewrite Z.sub_diag. intros (_ & [= ->] & _). by left.
      * intros (? & ?). right. split; [lia|done].
    + split; [intros (? & ?); split; [lia|done]|]. intros (Hle & Hl & Hi & Hbi).
      destruct (decide (i = k)) as [->|]; [|split; [lia|done]]. rewrite Z.sub_diag in Hl. simpl in Hl. congruence.
  - rewrite IH'. split; [intros (? & ?); split; [lia|done]|]. intros (Hle & Hl & Hi & Hbi).
    destruct (decide (i = k)) as [->|]; [done|split; [lia|done]].
Qed.

Lemma elem_of_tries evs lin i ev :
  (i, ev) ∈ tries evs lin →
  evs.[i] = Some ev ∧ (i ∉ map ls_Index lin) ∧ below (ev_Start ev) (min_end (map ls_Index lin) 0 evs None) = true.
Proof.
  unfold tries. intros (Hi & Hev & Hb)%elem_of_next_tries. rewrite Z.sub_0_r in Hev. by rewrite zlookup_pos.
Qed.

(** The tables hold the linearizations [lns] over [n] events. *)
Record tables (n : nat) (lns : list (list (event Num) * list linearizationStep)) ln : Prop := mkTables {
  tb_points_len : List.length (ln_points ln) = n;
  tb_illegal_len : List.length (ln_illegal ln) = n;
  tb_all : Forall2 (λ el gs, global el.1 el.2 gs) lns (ln_all ln);
  tb_points : ∀ g y, at_row (ln_points ln) g y ↔
    ∃ l gs i, y = (l, Z.of_nat i) ∧ ln_all ln !! l = Some gs ∧ gs !! i = Some g;
  tb_illegal : ∀ g l, at_row (ln_illegal ln) g l ↔
    ∃ el e, lns !! l = Some el ∧ e ∈ tries el.1 el.2 ∧ ev_Gid e.2 = g;
}.

(** A linearization of existing elements. *)
Definition indexed evs lin : Prop := ∀ step, step ∈ lin → is_Some (evs.[ls_Index step]).

Lemma add_lin_spec n lns ln evs lin :
  tables n lns ln → (∀ ev, ev ∈ evs → (ev_Gid ev < n)%nat) → indexed evs lin →
  ∃ ln', add_lin evs ln lin = Some ln' ∧ tables n (lns ++ [(evs, lin)]) ln'.
Proof.
  intros [Hpl Hil Hall Hpts Hill] Hn Hv. unfold add_lin. set (l := List.length (ln_all ln)).
  destruct (globalize_spec evs n l lin 0 [] (ln_points ln) Hn Hpl Hv) as (gs & points & -> & Hgs & Hlen & Hat). simpl.
  destruct (push_all n l (tries evs lin) (ln_illegal ln)) as [Hlen2 Hat2]; [|done|].
  { intros [i ev] (He & _)%elem_of_tries. apply Hn. apply zlookup_lt_Some in He as Hr.
    rewrite zlookup_pos in He by lia. by eapply list_elem_of_lookup_2. }
  eexists. split; [done|]. pose proof (Forall2_length _ _ _ Hall) as Hll. split; simpl; [done|done| | |].
  - apply Forall2_app; [done|]. by constructor.
  - intros g y. rewrite Hat, Hpts. split.
    + intros [(l' & gs' & i & -> & Hl' & Hi)|(i & Hi & ->)].
      * exists l', gs', i. split; [done|]. split; [|done]. by apply lookup_app_l_Some.
      * exists l, gs, i. split; [f_equal; lia|]. split; [|done]. by apply list_lookup_middle.
    + intros (l' & gs' & i & -> & [Hl'|[Hge Hl']]%lookup_app_Some & Hi); [left; eauto 10|].
      apply list_lookup_singleton_Some in Hl' as [H0 ->]. right. exists i. split; [done|]. f_equal. unfold l. lia.
  - intros g l'. rewrite Hat2, Hill. split.
    + intros [(el & e & Hl' & ?)|(-> & e & He & Hge)].
      * exists el, e. split; [|done]. by apply lookup_app_l_Some.
      * exists (evs, lin), e. split; [|done]. apply list_lookup_middle. by rewrite Hll.
    + intros (el & e & [Hl'|[Hge Hl']]%lookup_app_Some & He & Hg); [left; eauto|].
      apply list_lookup_singleton_Some in Hl' as [H0 <-]. right. split; [unfold l; lia|eauto].
Qed.

Lemma add_lins_spec n evs ls lns ln :
  tables n lns ln → (∀ ev, ev ∈ evs → (ev_Gid ev < n)%nat) → (∀ lin, lin ∈ ls → indexed evs lin) →
  ∃ ln', add_lins evs ln ls = Some ln' ∧ tables n (lns ++ map (pair evs) ls) ln'.
Proof.
  revert lns ln. induction ls as [|lin ls IH]; intros lns ln Ht Hn Hv; simpl.
  { exists ln. by rewrite app_nil_r. }
  destruct (add_lin_spec n lns ln evs lin Ht Hn) as (ln1 & -> & Ht1); [apply Hv; by left|]. simpl.
  destruct (IH _ _ Ht1 Hn) as (ln' & -> & Ht'); [intros; apply Hv; by right|].
  exists ln'. split; [done|]. by rewrite <- app_assoc in Ht'.
Qed.

(** The linearizations of all partitions, each with the events of its partition. *)
Fixpoint all_lins (data : list partitionVisualizationData) (evss : list (list (event Num))) :
    list (list (event Num) * list linearizationStep) :=
  match data, evss with
  | p :: data, evs :: evss => map (pair evs) (pv_PartialLinearizations p) ++ all_lins data evss
  | _, _ => []
  end.

Lemma add_partitions_spec n data evss lns ln :
  tables n lns ln → (∀ ev, ev ∈ concat evss → (ev_Gid ev < n)%nat) →
  (∀ el, el ∈ all_lins data evss → indexed el.1 el.2) →
  ∃ ln', add_partitions data evss ln = Some ln' ∧ tables n (lns ++ all_lins data evss) ln'.
Proof.
  revert evss lns ln. induction data as [|p data IH]; intros [|evs evss] lns ln Ht Hn Hv; simpl in *;
    try (exists ln; by rewrite app_nil_r).
  destruct (add_lins_spec n evs (pv_PartialLinearizations p) lns ln Ht) as (ln1 & -> & Ht1).
  { intros ev Hev. apply Hn, elem_of_app. by left. }
  { intros lin Hlin. apply (Hv (evs, lin)), elem_of_app. left. by apply list_elem_of_fmap_2. }
  simpl. destruct (IH evss _ _ Ht1) as (ln' & -> & Ht').
  { intros ev Hev. apply Hn, elem_of_app. by right. }
  { intros el Hel. apply Hv, elem_of_app. by right. }
  exists ln'. split; [done|]. by rewrite <- app_assoc in Ht'.
Qed.

Lemma tables_init n : tables n [] (mkLins (replicate n []) (replicate n []) []).
Proof.
  assert (∀ A g (y : A), ¬ at_row (replicate n []) g y) as Hno.
  { intros A g y (row & Hr & Hy). apply lookup_replicate in Hr as [-> _]. by apply elem_of_nil in Hy. }
  split; simpl; rewrite ?length_replicate; try done.
  - intros g y. split; [by intros ?%Hno|]. intros (l & gs & i & _ & Hl & _). by rewrite lookup_nil in Hl.
  - intros g l. split; [by intros ?%Hno|]. intros (el & e & Hl & _). by rewrite lookup_nil in Hl.
Qed.
End tables.

(** ** Placing points *)

Section scan.
Context {Num : Type} `{JsNumberLaws Num} (getBBox_width : string → Num).
Context (byGid : list (event Num)) (ln : lins).
Implicit Types (xs : object Num (option Num)) (ps : list (option Num)) (lps : list (list (option Num))).
Implicit Types (t v w z : Num) (ev : event Num) (g l i k : nat) (gs : list nat) (b : box Num).

Abbreviation gap := (of_int BOX_GAP).
Abbreviation eps := (of_int EPSILON).

Lemma xget_cons ts p xs t : xget ((ts, p) :: xs) t = if decide (ts = t) then p else xget xs t.
Proof. unfold xget. simpl. by case_decide. Qed.

(** [xs'] keeps every position of [xs]. *)
Definition extends xs xs' : Prop := ∀ t v, xget xs t = Some v → xget xs' t = Some v.

(** The start of event [g] has a position. *)
Definition started xs g : Prop := ∃ ev v, byGid !! g = Some ev ∧ xget xs (ev_Start ev) = Some v.

(** The points [ps] of the linearization [gs] are where they should be. *)
Definition points_ok xs gs ps : Prop :=
  (List.length ps <= List.length gs)%nat ∧
  ∀ i p, ps !! i = Some p → ∃ g ev v, gs !! i = Some g ∧ byGid !! g = Some ev ∧ xget xs (ev_Start ev) = Some v ∧
    match i with
    | O => p = Some v
    | S j => ∃ w, ps !! j = Some (Some w) ∧ p = Some (nmax v (nadd w eps))
    end.

Lemma points_ok_extends xs xs' gs ps : extends xs xs' → points_ok xs gs ps → points_ok xs' gs ps.
Proof. intros Hx [Hl Hp]. split; [done|]. intros i p Hi. destruct (Hp i p Hi) as (g & ev & v & ? & ? & ? & ?). eauto 10. Qed.

Lemma points_ok_number xs gs ps i p : points_ok xs gs ps → ps !! i = Some p → ∃ w, p = Some w.
Proof. intros [_ Hp] Hi. destruct (Hp i p Hi) as (g & ev & v & _ & _ & _ & Hi'). destruct i; naive_solver. Qed.

Lemma next_point_spec xs gs ps g :
  points_ok xs gs ps → gs !! List.length ps = Some g → started xs g →
  ∃ w, next_point byGid xs gs ps = Some (ps ++ [Some w]) ∧ points_ok xs gs (ps ++ [Some w]).
Proof.
  intros Hok Hg (ev & v & Hev & Hv). unfold next_point. rewrite Hg. simpl. rewrite Hev. simpl. rewrite Hv.
  assert (∃ w, (match last ps with None => Some v | Some prev => Math_max (Some v) (num_add prev eps) end) = Some w ∧
    match List.length ps with
    | O => Some w = Some v
    | S j => ∃ w', ps !! j = Some (Some w') ∧ Some w = Some (nmax v (nadd w' eps))
    end) as (w & -> & Hw).
  { destruct (last ps) as [p|] eqn:Hl; [|apply last_None in Hl as ->; by exists v].
    rewrite last_lookup in Hl. destruct ps as [|p0 ps]; [done|]. simpl in Hl.
    destruct (points_ok_number _ _ _ _ _ Hok Hl) as [w ->]. simpl. eauto. }
  exists w. split; [done|]. destruct Hok as [Hlen Hp]. split.
  { rewrite length_app. simpl. apply lookup_lt_Some in Hg. lia. }
  intros i p [Hi|[Hge Hi]]%lookup_app_Some.
  - destruct (Hp i p Hi) as (g' & ev' & v' & H1 & H2 & H3 & H4). exists g', ev', v'. split_and!; try done.
    destruct i; [done|]. destruct H4 as (w' & Hw' & ->). exists w'. split; [|done]. by apply lookup_app_l_Some.
  - apply list_lookup_singleton_Some in Hi as [Hi <-]. assert (i = List.length ps) as -> by lia.
    exists g, ev, v. split_and!; try done. destruct (List.length ps) as [|j]; [done|].
    destruct Hw as (w' & Hw' & ?). exists w'. split; [|done]. by apply lookup_app_l_Some.
Qed.

Lemma next_points_spec k xs gs ps :
  points_ok xs gs ps → (List.length ps + k <= List.length gs)%nat →
  (∀ i g, (i < List.length ps + k)%nat → gs !! i = Some g → started xs g) →
  ∃ ps', next_points k byGid xs gs ps = Some ps' ∧ points_ok xs gs ps' ∧ ps `prefix_of` ps' ∧
    List.length ps' = (List.length ps + k)%nat.
Proof.
  revert ps. induction k as [|k IH]; intros ps Hok Hlen Hst; simpl; [exists ps; split_and!; [done..|lia]|].
  destruct (lookup_lt_is_Some_2 gs (List.length ps)) as [g Hg]; [lia|].
  destruct (next_point_spec xs gs ps g Hok Hg) as (w & -> & Hok'); [eapply Hst; [|done]; lia|]. simpl.
  destruct (IH (ps ++ [Some w]) Hok') as (ps' & -> & Hok2 & Hpre & Hl).
  { rewrite length_app. simpl. lia. }
  { intros i g'. rewrite length_app. simpl. intros Hi. apply Hst. lia. }
  exists ps'. split_and!; [done|done| |].
  - etrans; [|exact Hpre]. by apply prefix_app_r.
  - rewrite Hl, length_app. simpl. lia.
Qed.

(** All linearizations together. *)
Definition lps_ok xs lps : Prop :=
  List.length lps = List.length (ln_all ln) ∧
  ∀ l gs ps, ln_all ln !! l = Some gs → lps !! l = Some ps → points_ok xs gs ps.

Definition grows lps lps' : Prop := Forall2 prefix lps lps'.

Lemma lps_lookup xs lps l gs : lps_ok xs lps → ln_all ln !! l = Some gs → ∃ ps, lps !! l = Some ps ∧ points_ok xs gs ps.
Proof.
  intros [Hlen Hok] Hgs. destruct (lookup_lt_is_Some_2 lps l) as [ps Hps].
  { rewrite Hlen. by eapply lookup_lt_Some. }
  exists ps. split; [done|]. by eapply Hok.
Qed.

Lemma grows_lookup lps lps' l ps : grows lps lps' → lps !! l = Some ps → ∃ ps', lps' !! l = Some ps' ∧ ps `prefix_of` ps'.
Proof. intros Hg Hps. by apply (Forall2_lookup_l _ _ _ _ _ Hg). Qed.

(** The starts of the points up to [k] of linearization [l] have positions. *)
Definition ready xs l k : Prop :=
  ∃ gs, ln_all ln !! l = Some gs ∧ (k < List.length gs)%nat ∧ ∀ i g, (i <= k)%nat → gs !! i = Some g → started xs g.

Lemma place_points_spec xs lps l k :
  lps_ok xs lps → ready xs l k →
  ∃ lps' ps w, place_points byGid xs (ln_all ln) lps l (Z.of_nat k) = Some lps' ∧ lps_ok xs lps' ∧ grows lps lps' ∧
    lps' !! l = Some ps ∧ ps !! k = Some (Some w).
Proof.
  intros Hok (gs & Hgs & Hk & Hst). destruct (lps_lookup _ _ _ _ Hok Hgs) as (ps & Hps & Hpok).
  unfold place_points. rewrite Hgs. simpl. rewrite Hps. simpl. pose proof (proj1 Hpok) as Hle.
  destruct (next_points_spec (Z.to_nat (Z.of_nat k + 1 - zlen ps)) xs gs ps Hpok) as (ps' & -> & Hpok' & Hpre & Hlen).
  { unfold zlen. lia. }
  { intros i g Hi Hg. unfold zlen in Hi. destruct (decide (i <= k)%nat); [by eapply Hst|].
    destruct Hpok as [_ Hp]. destruct (lookup_lt_is_Some_2 ps i) as [p Hpi]; [lia|].
    destruct (Hp i p Hpi) as (g' & ev & v & Hg' & Hev & Hv & _). rewrite Hg in Hg'. injection Hg' as <-. by exists ev, v. }
  simpl. destruct (lookup_lt_is_Some_2 ps' k) as [p Hp]; [unfold zlen in Hlen; lia|].
  destruct (points_ok_number _ _ _ _ _ Hpok' Hp) as [w ->].
  exists (<[l := ps']> lps), ps', w. split; [done|]. split; [|split; [|split; [|done]]].
  - destruct Hok as [Hl Hall]. split; [by rewrite length_insert|].
    intros l' gs' ps2 Hgs' [(<- & -> & _)|[_ Hps2]]%list_lookup_insert_Some; [congruence|by eapply Hall].
  - unfold grows. rewrite <- (list_insert_id lps l ps Hps) at 1. apply Forall2_insert; [by apply Forall_Forall2_diag, Forall_true|done].
  - apply list_lookup_insert_eq. by eapply lookup_lt_Some.
Qed.

Lemma grows_trans lps1 lps2 lps3 : grows lps1 lps2 → grows lps2 lps3 → grows lps1 lps3.
Proof. unfold grows. intros. by etrans. Qed.

Lemma lps_grows_refl lps : grows lps lps.
Proof. by apply Forall_Forall2_diag, Forall_true. Qed.

Lemma grows_number lps lps' l k w :
  grows lps lps' → (∃ ps, lps !! l = Some ps ∧ ps !! k = Some (Some w)) → ∃ ps, lps' !! l = Some ps ∧ ps !! k = Some (Some w).
Proof.
  intros Hg (ps & Hps & Hw). destruct (grows_lookup _ _ _ _ Hg Hps) as (ps' & Hps' & x & ->). exists (ps ++ x).
  split; [done|]. by apply lookup_app_l_Some.
Qed.

(** [z] is where point [k] of linearization [l] is. *)
Definition point_at lps l k z : Prop := ∃ ps, lps !! l = Some ps ∧ ps !! k = Some (Some z).

Lemma place_all_spec xs lis lps v :
  lps_ok xs lps → (∀ l k, (l, Z.of_nat k) ∈ lis → ready xs l k) → (∀ y, y ∈ lis → 0 <= y.2) →
  ∃ lps' v', place_all byGid xs (ln_all ln) lps (Some v) lis = Some (lps', Some v') ∧ lps_ok xs lps' ∧ grows lps lps' ∧
    nle v v' ∧ (∀ l k, (l, Z.of_nat k) ∈ lis → ∃ w, point_at lps' l k w ∧ nle w v') ∧
    (∀ z, nle v z → (∀ l k w, (l, Z.of_nat k) ∈ lis → point_at lps' l k w → nle w z) → nle v' z).
Proof.
  revert lps v. induction lis as [|[l position] lis IH]; intros lps v Hok Hr Hpos; simpl.
  { exists lps, v. split_and!; try done; [apply lps_grows_refl|apply nle_refl|]. by intros l k ?%elem_of_nil. }
  specialize (Hpos (l, position) (list_elem_of_here _ _)) as Hp0. simpl in Hp0.
  assert (∃ k, position = Z.of_nat k) as [k ->] by (exists (Z.to_nat position); lia).
  destruct (place_points_spec xs lps l k Hok) as (lps1 & ps & w & -> & Hok1 & Hg1 & Hps & Hw); [apply Hr; by left|]. simpl.
  rewrite Hps. simpl. rewrite zlookup_nat, Hw. simpl.
  destruct (IH lps1 (nmax v w) Hok1) as (lps' & v' & -> & Hok' & Hg' & Hle & Hin & Hmin).
  { intros l' k' Hin. apply Hr. by right. }
  { intros y Hy. apply Hpos. by right. }
  assert (point_at lps' l k w) as Hat by (by eapply grows_number; eauto).
  exists lps', v'. split; [done|]. split; [done|]. split; [by eapply grows_trans|]. split; [|split].
  - eapply nle_trans; [apply nmax_l|done].
  - intros l' k' [[= -> ->%Nat2Z.inj]|Hin']%elem_of_cons; [|by apply Hin]. exists w. split; [done|].
    eapply nle_trans; [apply nmax_r|done].
  - intros z Hz Hall. apply Hmin.
    + apply nmax_lub; [done|]. apply (Hall l k); [by left|done].
    + intros l' k' w' Hin'. apply Hall. by right.
Qed.

Lemma illegal_fit_spec ls lps v :
  (∀ l, l ∈ ls → ∃ ps w, lps !! l = Some ps ∧ last ps = Some (Some w)) →
  ∃ v', illegal_fit lps (Some v) ls = Some (Some v') ∧ nle v v' ∧
    (∀ l ps w, l ∈ ls → lps !! l = Some ps → last ps = Some (Some w) → nle (nadd w eps) v') ∧
    (∀ z, nle v z → (∀ l ps w, l ∈ ls → lps !! l = Some ps → last ps = Some (Some w) → nle (nadd w eps) z) → nle v' z).
Proof.
  revert v. induction ls as [|l ls IH]; intros v Hl; simpl.
  { exists v. split_and!; try done; [apply nle_refl|]. by intros l ps w ?%elem_of_nil. }
  destruct (Hl l) as (ps & w & Hps & Hw); [by left|]. rewrite Hps. simpl. rewrite Hw. simpl.
  destruct (IH (nmax v (nadd w eps))) as (v' & -> & Hle & Hin & Hmin); [intros; apply Hl; by right|].
  exists v'. split; [done|]. split; [|split].
  - eapply nle_trans; [apply nmax_l|done].
  - intros l' ps' w' [->|Hl']%elem_of_cons Hps' Hw'; [|by eapply Hin]. simplify_eq. eapply nle_trans; [apply nmax_r|done].
  - intros z Hz Hall. apply Hmin.
    + apply nmax_lub; [done|]. apply (Hall l ps w); [by left|done..].
    + intros l' ps' w' Hin'. apply Hall. by right.
Qed.
(** ** Placing boxes *)

(** What the scan relies on: the tables are about existing events, and the points of
    a box, and those before them, start before the box ends. *)
Record scannable : Prop := mkScannable {
  sc_gid : ∀ g ev, byGid !! g = Some ev → ev_Gid ev = g;
  sc_start : ∀ g ev, byGid !! g = Some ev → nlt (ev_Start ev) (ev_End ev);
  sc_points_len : List.length (ln_points ln) = List.length byGid;
  sc_illegal_len : List.length (ln_illegal ln) = List.length byGid;
  sc_gids : ∀ l gs i g, ln_all ln !! l = Some gs → gs !! i = Some g → is_Some (byGid !! g);
  sc_points : ∀ g y, at_row (ln_points ln) g y ↔
    ∃ l gs i, y = (l, Z.of_nat i) ∧ ln_all ln !! l = Some gs ∧ gs !! i = Some g;
  sc_illegal : ∀ g l, at_row (ln_illegal ln) g l → ∃ gs, ln_all ln !! l = Some gs ∧ gs ≠ [];
  sc_order : ∀ l gs i k g g' ev ev', ln_all ln !! l = Some gs → gs !! i = Some g → gs !! k = Some g' → (k <= i)%nat →
    byGid !! g = Some ev → byGid !! g' = Some ev' → nlt (ev_Start ev') (ev_End ev);
  sc_after : ∀ l gs k g g' ev ev', at_row (ln_illegal ln) g l → ln_all ln !! l = Some gs → gs !! k = Some g' →
    byGid !! g = Some ev → byGid !! g' = Some ev' → nlt (ev_Start ev') (ev_End ev);
}.

Record box_ready xs b : Prop := mkBoxReady {
  br_gid : (bx_gid b < List.length byGid)%nat;
  br_start : ∃ v, xget xs (bx_start b) = Some v;
  br_points : ∀ l k, at_row (ln_points ln) (bx_gid b) (l, Z.of_nat k) → ready xs l k;
  br_illegal : ∀ l gs, at_row (ln_illegal ln) (bx_gid b) l → ln_all ln !! l = Some gs → ready xs l (List.length gs - 1);
}.

(** The points that box [b] has to hold are placed. *)
Definition box_placed lps b : Prop :=
  (∀ l k, at_row (ln_points ln) (bx_gid b) (l, Z.of_nat k) → ∃ w, point_at lps l k w) ∧
  (∀ l gs, at_row (ln_illegal ln) (bx_gid b) l → ln_all ln !! l = Some gs → ∃ w, point_at lps l (List.length gs - 1) w).

(** Box [b] holds its text and its points if it ends at [z]. *)
Record box_fits xs lps b z : Prop := mkBoxFits {
  bf_text : ∀ v, xget xs (bx_start b) = Some v → nle (nadd v (bx_width b)) z;
  bf_points : ∀ l k w, at_row (ln_points ln) (bx_gid b) (l, Z.of_nat k) → point_at lps l k w → nle w z;
  bf_illegal : ∀ l gs w, at_row (ln_illegal ln) (bx_gid b) l → ln_all ln !! l = Some gs →
    point_at lps l (List.length gs - 1) w → nle (nadd w eps) z;
}.

Lemma point_at_grows lps lps' l k w : grows lps lps' → point_at lps l k w → point_at lps' l k w.
Proof. apply grows_number. Qed.

Lemma point_at_fun lps l k w w' : point_at lps l k w → point_at lps l k w' → w = w'.
Proof. intros (ps & ? & ?) (ps' & ? & ?). congruence. Qed.

Lemma box_placed_grows lps lps' b : grows lps lps' → box_placed lps b → box_placed lps' b.
Proof.
  intros Hg [Hp Hi]. split; intros.
  - edestruct Hp as [w Hw]; [done|]. exists w. by eapply point_at_grows.
  - edestruct Hi as [w Hw]; [done..|]. exists w. by eapply point_at_grows.
Qed.

Lemma box_fits_stable xs xs' lps lps' b z :
  extends xs xs' → grows lps lps' → box_ready xs b → box_placed lps b → box_fits xs lps b z ↔ box_fits xs' lps' b z.
Proof.
  intros Hx Hg [_ [v0 Hv0] _ _] [Hp Hi]. assert (∀ v, xget xs (bx_start b) = Some v ↔ xget xs' (bx_start b) = Some v) as Hst.
  { intros v. rewrite Hv0, (Hx _ _ Hv0). done. }
  split; intros [Ht Hpt Hil]; (split; [intros v Hv; apply Ht, Hst, Hv| |]).
  - intros l k w Hat Hw. destruct (Hp l k Hat) as [w0 Hw0].
    rewrite (point_at_fun _ _ _ _ _ Hw (point_at_grows _ _ _ _ _ Hg Hw0)). by eapply Hpt.
  - intros l gs w Hat Hgs Hw. destruct (Hi l gs Hat Hgs) as [w0 Hw0].
    rewrite (point_at_fun _ _ _ _ _ Hw (point_at_grows _ _ _ _ _ Hg Hw0)). by eapply Hil.
  - intros l k w Hat Hw. eapply Hpt; [done|by eapply point_at_grows].
  - intros l gs w Hat Hgs Hw. eapply Hil; [done..|by eapply point_at_grows].
Qed.

Lemma box_fits_mono xs lps b z z' : box_fits xs lps b z → nle z z' → box_fits xs lps b z'.
Proof. intros [Ht Hp Hi] Hz. split; intros; (eapply nle_trans; [|exact Hz]); eauto. Qed.

(** The last points of the linearizations of which [b] is a next try. *)
Lemma last_points_spec (ls : list nat) :
  (∀ l, l ∈ ls → ∃ gs, ln_all ln !! l = Some gs) →
  ∃ ys, mapM (λ index, lin ← ln_all ln !! index; Some (index, zlen lin - 1)) ls = Some ys ∧
    ∀ y, y ∈ ys ↔ ∃ l gs, l ∈ ls ∧ ln_all ln !! l = Some gs ∧ y = (l, zlen gs - 1).
Proof.
  induction ls as [|l ls IH]; intros Hl; [exists []; split; [done|]; intros y; split; [by intros ?%elem_of_nil|];
    by intros (? & ? & ?%elem_of_nil & _)|].
  destruct (Hl l) as [gs Hgs]; [by left|]. destruct IH as (ys & Hys & Hin); [intros; apply Hl; by right|].
  exists ((l, zlen gs - 1) :: ys). simpl. rewrite Hgs. simpl. split.
  { apply bind_Some. exists ys. split; [exact Hys|done]. }
  intros y. rewrite elem_of_cons, Hin. setoid_rewrite elem_of_cons. split.
  - intros [->|(l' & gs' & ? & ? & ->)]; eauto 10.
  - intros (l' & gs' & [->|?] & Hgs' & ->); [left; congruence|right; eauto 10].
Qed.

Lemma last_point xs lps l gs w :
  lps_ok xs lps → ln_all ln !! l = Some gs → point_at lps l (List.length gs - 1) w →
  ∃ ps, lps !! l = Some ps ∧ last ps = Some (Some w).
Proof.
  intros [_ Hok] Hgs (ps & Hps & Hw). exists ps. split; [done|]. rewrite last_lookup.
  pose proof (proj1 (Hok _ _ _ Hgs Hps)) as Hle. apply lookup_lt_Some in Hw as Hlt.
  by replace (pred (List.length ps)) with (List.length gs - 1)%nat by lia.
Qed.

Lemma place_box_spec xs lps v b :
  scannable → lps_ok xs lps → box_ready xs b →
  ∃ lps' v', place_box byGid xs ln lps (Some v) b = Some (lps', Some v') ∧ lps_ok xs lps' ∧ grows lps lps' ∧
    nle v v' ∧ box_placed lps' b ∧ box_fits xs lps' b v' ∧ (∀ z, nle v z → box_fits xs lps' b z → nle v' z).
Proof.
  intros Hsc Hok [Hgid [v0 Hv0] Hrp Hri]. unfold place_box. rewrite Hv0. simpl.
  destruct (lookup_lt_is_Some_2 (ln_points ln) (bx_gid b)) as [pts Hpts]; [by rewrite (sc_points_len Hsc)|].
  destruct (lookup_lt_is_Some_2 (ln_illegal ln) (bx_gid b)) as [ils Hils]; [by rewrite (sc_illegal_len Hsc)|].
  assert (∀ y, y ∈ pts ↔ at_row (ln_points ln) (bx_gid b) y) as Hatp by (unfold at_row; rewrite Hpts; naive_solver).
  assert (∀ l, l ∈ ils ↔ at_row (ln_illegal ln) (bx_gid b) l) as Hati by (unfold at_row; rewrite Hils; naive_solver).
  assert (∀ l, l ∈ ils → ∃ gs, ln_all ln !! l = Some gs ∧ gs ≠ []) as Hil by (intros l Hl; by eapply (sc_illegal Hsc), Hati).
  rewrite Hpts. simpl. rewrite Hils. simpl.
  destruct (last_points_spec ils) as (ys & -> & Hys); [intros l Hl; destruct (Hil l Hl) as (gs & ? & _); eauto|]. simpl.
  assert (∀ l gs, gs ≠ [] → (l, zlen gs - 1) = (l, Z.of_nat (List.length gs - 1))) as Hlast.
  { intros l gs Hne. f_equal. unfold zlen. destruct gs; [done|]. simpl. lia. }
  assert (∀ l k, (l, Z.of_nat k) ∈ pts ++ ys ↔ at_row (ln_points ln) (bx_gid b) (l, Z.of_nat k) ∨
    ∃ gs, at_row (ln_illegal ln) (bx_gid b) l ∧ ln_all ln !! l = Some gs ∧ k = (List.length gs - 1)%nat) as Hlis.
  { intros l k. rewrite elem_of_app, Hatp, Hys. split; (intros [?|Hx]; [by left|right]).
    - destruct Hx as (l' & gs & Hl' & Hgs & Heq). destruct (Hil l' Hl') as (gs' & Hgs' & Hne).
      assert (gs' = gs) as -> by congruence. rewrite (Hlast l' gs Hne) in Heq. simplify_eq. exists gs. split_and!; [by apply Hati|done|lia].
    - destruct Hx as (gs & Hat & Hgs & ->). exists l, gs. apply Hati in Hat as Hl. destruct (Hil l Hl) as (gs' & Hgs' & Hne).
      simplify_eq. by rewrite Hlast. }
  destruct (place_all_spec xs (pts ++ ys) lps (nmax v (nadd v0 (bx_width b))) Hok) as (lps' & v1 & -> & Hok' & Hg & Hle1 & Hin1 & Hmin1).
  { intros l k [Hat|(gs & Hat & Hgs & ->)]%Hlis; [by apply Hrp|by apply Hri]. }
  { intros y [Hy|Hy]%elem_of_app.
    - apply Hatp, (sc_points Hsc) in Hy as (l & gs & i & -> & _). simpl. lia.
    - apply Hys in Hy as (l & gs & Hl & Hgs & ->). destruct (Hil l Hl) as (gs' & Hgs' & Hne). simplify_eq. rewrite Hlast by done.
      simpl. lia. }
  simpl. assert (∀ l gs, at_row (ln_illegal ln) (bx_gid b) l → ln_all ln !! l = Some gs →
    ∃ w, point_at lps' l (List.length gs - 1) w) as Hpl.
  { intros l gs Hat Hgs. destruct (Hin1 l (List.length gs - 1)%nat) as (w & Hw & _); [|eauto]. apply Hlis. right. eauto. }
  destruct (illegal_fit_spec ils lps' v1) as (v' & -> & Hle2 & Hin2 & Hmin2).
  { intros l Hl. destruct (Hil l Hl) as (gs & Hgs & _). destruct (Hpl l gs) as [w Hw]; [by apply Hati|done|].
    destruct (last_point _ _ _ _ _ Hok' Hgs Hw) as (ps & ? & ?). eauto. }
  simpl. exists lps', v'. split; [done|]. split; [done|]. split; [done|]. split; [|split; [|split]].
  - eapply nle_trans; [apply nmax_l|]. eapply nle_trans; [exact Hle1|exact Hle2].
  - split; [|done]. intros l k Hat. destruct (Hin1 l k) as (w & Hw & _); [apply Hlis; by left|eauto].
  - split.
    + intros v2 Hv2. rewrite Hv0 in Hv2. injection Hv2 as <-. eapply nle_trans; [apply nmax_r|]. eapply nle_trans; [exact Hle1|exact Hle2].
    + intros l k w Hat Hw. destruct (Hin1 l k) as (w0 & Hw0 & Hle); [apply Hlis; by left|].
      rewrite (point_at_fun _ _ _ _ _ Hw Hw0). by eapply nle_trans.
    + intros l gs w Hat Hgs Hw. destruct (last_point _ _ _ _ _ Hok' Hgs Hw) as (ps & Hps & Hl). by eapply Hin2; [apply Hati| |].
  - intros z Hz [Ht Hp Hi]. apply Hmin2; [apply Hmin1; [by apply nmax_lub; [|apply Ht]|]|].
    + intros l k w [Hat|(gs & Hat & Hgs & ->)]%Hlis Hw; [by eapply Hp|]. eapply nle_trans; [|by eapply Hi].
      apply nadd_int. unfold EPSILON. lia.
    + intros l ps w Hl Hps Hw. destruct (Hil l Hl) as (gs & Hgs & _). eapply (Hi l gs w); [by apply Hati|done|].
      destruct (Hpl l gs) as [w0 Hw0]; [by apply Hati|done|]. destruct (last_point _ _ _ _ _ Hok' Hgs Hw0) as (ps' & ? & ?). congruence.
Qed.
Lemma place_boxes_spec xs ts boxes lps v :
  scannable → StronglySorted ends_before boxes → lps_ok xs lps →
  (∀ b, b ∈ boxes → nle (bx_end b) ts → box_ready xs b) →
  ∃ done rest lps' v', place_boxes byGid xs ln ts lps (Some v) boxes = Some (lps', Some v', rest) ∧
    boxes = done ++ rest ∧ (∀ b, b ∈ done → nle (bx_end b) ts) ∧ (∀ b, b ∈ rest → nlt ts (bx_end b)) ∧
    lps_ok xs lps' ∧ grows lps lps' ∧ nle v v' ∧ (∀ b, b ∈ done → box_placed lps' b ∧ box_fits xs lps' b v') ∧
    (∀ z, nle v z → (∀ b, b ∈ done → box_fits xs lps' b z) → nle v' z).
Proof.
  intros Hsc Hs. revert lps v. induction Hs as [|b boxes Hs IH Hb]; intros lps v Hok Hr; simpl.
  { exists [], [], lps, v. split_and!; try done; try (by intros ? ?%elem_of_nil); [apply lps_grows_refl|apply nle_refl]. }
  case_decide as Hle.
  2: { exists [], (b :: boxes), lps, v. split_and!; try done; try (by intros ? ?%elem_of_nil); [|apply lps_grows_refl|apply nle_refl].
       intros b' [->|Hb']%elem_of_cons; [done|]. rewrite Forall_forall in Hb. eapply nlt_nle_trans; [exact Hle|by apply Hb]. }
  assert (box_ready xs b) as Hrb by (apply Hr; [by left|done]).
  destruct (place_box_spec xs lps v b Hsc Hok Hrb) as (lps1 & v1 & -> & Hok1 & Hg1 & Hv1 & Hp1 & Hf1 & Hm1). simpl.
  destruct (IH lps1 v1 Hok1) as (done & rest & lps' & v' & -> & -> & Hd & Hrest & Hok' & Hg' & Hv' & Hall & Hmin).
  { intros b' Hb'. apply Hr. by right. }
  assert (∀ z, box_fits xs lps1 b z ↔ box_fits xs lps' b z) as Hst.
  { intros z. apply box_fits_stable; try done. by intros t u. }
  exists (b :: done), rest, lps', v'. split_and!; try done.
  - by intros b' [->|Hb']%elem_of_cons; [|apply Hd].
  - by eapply grows_trans.
  - by eapply nle_trans.
  - intros b' [->|Hb']%elem_of_cons; [|by apply Hall]. split; [by eapply box_placed_grows|].
    eapply box_fits_mono; [by apply Hst|done].
  - intros z Hz Hfz. apply Hmin; [apply Hm1; [done|apply Hst, Hfz; by left]|]. intros b' Hb'. apply Hfz. by right.
Qed.

(** ** The constraints *)

(** An assignment [y] of positions to timestamps and [q] to the points of the
    linearizations respects the constraints on the layout. *)
Record admissible (sorted : list Num) (y : Num → Num) (q : nat → nat → Num) : Prop := mkAdmissible {
  ad_first : ∀ t, sorted !! 0%nat = Some t → nle (of_int 0) (y t);
  ad_gap : ∀ i t t', sorted !! i = Some t → sorted !! S i = Some t' → nle (nadd (y t) gap) (y t');
  ad_text : ∀ g ev, byGid !! g = Some ev →
    nle (nadd (y (ev_Start ev)) (bx_width (box_of getBBox_width ev))) (y (ev_End ev));
  ad_point : ∀ l gs i g ev, ln_all ln !! l = Some gs → gs !! i = Some g → byGid !! g = Some ev →
    nle (y (ev_Start ev)) (q l i) ∧ nle (q l i) (y (ev_End ev));
  ad_next : ∀ l gs i, ln_all ln !! l = Some gs → (S i < List.length gs)%nat → nle (nadd (q l i) eps) (q l (S i));
  ad_try : ∀ l gs g ev, at_row (ln_illegal ln) g l → ln_all ln !! l = Some gs → byGid !! g = Some ev →
    nle (nadd (q l (List.length gs - 1)%nat) eps) (y (ev_End ev));
}.

(** [y] and [q] are nowhere left of what is placed. *)
Definition right_of xs (y : Num → Num) : Prop := ∀ t v, xget xs t = Some v → nle v (y t).

Lemma points_right_of xs gs ps l sorted y q i w :
  admissible sorted y q → right_of xs y → ln_all ln !! l = Some gs → points_ok xs gs ps → ps !! i = Some (Some w) →
  nle w (q l i).
Proof.
  intros Ha Hr Hgs [Hlen Hp]. revert w. induction i as [|i IH]; intros w Hw;
    destruct (Hp _ _ Hw) as (g & ev & v & Hg & Hev & Hv & Hcase);
    destruct (ad_point _ _ _ Ha l gs _ g ev Hgs Hg Hev) as [Hlo _]; pose proof (nle_trans _ _ _ (Hr _ _ Hv) Hlo) as Hvq.
  - by injection Hcase as ->.
  - destruct Hcase as (w' & Hw' & [= ->]). apply nmax_lub; [done|].
    eapply nle_trans; [|apply (ad_next _ _ _ Ha l gs i Hgs)]; [apply nadd_mono; [by apply IH|apply nle_refl]|].
    apply lookup_lt_Some in Hw. lia.
Qed.

Lemma box_fits_right_of xs lps sorted y q g ev :
  admissible sorted y q → right_of xs y → lps_ok xs lps → scannable → byGid !! g = Some ev →
  box_fits xs lps (box_of getBBox_width ev) (y (ev_End ev)).
Proof.
  intros Ha Hr [_ Hok] Hsc Hev. pose proof (sc_gid Hsc _ _ Hev) as Hg. split; simpl; rewrite ?Hg.
  - intros v Hv. eapply nle_trans; [|apply (ad_text _ _ _ Ha g ev Hev)]. apply nadd_mono; [by apply Hr|apply nle_refl].
  - intros l k w (l' & gs & i & [= <- <-%Nat2Z.inj] & Hgs & Hi)%(sc_points Hsc) (ps & Hps & Hw).
    eapply nle_trans; [by eapply points_right_of; eauto|]. by eapply (ad_point _ _ _ Ha).
  - intros l gs w Hat Hgs (ps & Hps & Hw). eapply nle_trans; [|by eapply (ad_try _ _ _ Ha)].
    apply nadd_mono; [|apply nle_refl]. by eapply points_right_of; eauto.
Qed.
(** ** The scan *)

Context (sorted : list Num).
Context (Hsc : scannable) (Hsorted : StronglySorted nlt sorted).
Context (Hstamps : ∀ g ev, byGid !! g = Some ev → ev_Start ev ∈ sorted ∧ ev_End ev ∈ sorted).

(** The boxes of events that end after [t]. *)
Definition left_after (t : Num) (boxes : list (box Num)) : Prop :=
  StronglySorted ends_before boxes ∧
  ∀ b, b ∈ boxes → nlt t (bx_end b) ∧ ∃ g ev, byGid !! g = Some ev ∧ b = box_of getBBox_width ev.

(** Exactly the timestamps [done] have positions. *)
Definition placed xs (done : list Num) : Prop :=
  (∀ t, t ∈ done → ∃ v, xget xs t = Some v) ∧ ∀ t, t ∉ done → xget xs t = None.

Lemma sorted_split done ts rest t :
  sorted = done ++ ts :: rest → t ∈ sorted → nlt t ts → t ∈ done.
Proof.
  intros Heq Ht Hlt. pose proof Hsorted as Hs. rewrite Heq in Ht, Hs.
  apply elem_of_app in Ht as [?|[->|Ht]%elem_of_cons]; [done|by apply nlt_irrefl in Hlt|exfalso].
  apply StronglySorted_app_1_r in Hs. apply StronglySorted_inv in Hs as [_ Hs]. rewrite Forall_forall in Hs.
  apply (nlt_irrefl t). eapply nlt_trans; [exact Hlt|by apply Hs].
Qed.

Lemma stamps_before done prev ts rest t : sorted = (done ++ [prev]) ++ ts :: rest → t ∈ done ++ [prev] → nle t prev.
Proof.
  intros Heq [Ht|Ht%list_elem_of_singleton]%elem_of_app; [|subst t; apply nle_refl]. pose proof Hsorted as Hs. rewrite Heq in Hs.
  apply StronglySorted_app_1_l in Hs. apply nlt_nle. eapply (StronglySorted_app_1_elem_of _ done [prev]); [exact Hs|done|by left].
Qed.

(** Between two timestamps nothing ends. *)
Lemma ends_at done prev ts rest g ev :
  sorted = (done ++ [prev]) ++ ts :: rest → byGid !! g = Some ev → nlt prev (ev_End ev) → nle (ev_End ev) ts →
  ev_End ev = ts.
Proof.
  intros Heq Hev Hlt Hle. apply nle_antisym; [done|]. apply dec_stable. intros Hlt2. apply (nlt_irrefl prev).
  eapply nlt_nle_trans; [exact Hlt|]. eapply stamps_before; [exact Heq|]. eapply sorted_split; [exact Heq| |exact Hlt2].
  apply (Hstamps _ _ Hev).
Qed.

(** A box that ends at [ts] needs only what has been placed before. *)
Lemma box_ready_at xs done ts rest g ev :
  sorted = done ++ ts :: rest → placed xs done → byGid !! g = Some ev → nle (ev_End ev) ts →
  box_ready xs (box_of getBBox_width ev).
Proof.
  intros Heq [Hp _] Hev Hle. pose proof (sc_gid Hsc _ _ Hev) as Hg.
  assert (∀ g' ev', byGid !! g' = Some ev' → nlt (ev_Start ev') (ev_End ev) → started xs g') as Hst.
  { intros g' ev' Hev' Hlt. destruct (Hp (ev_Start ev')) as [v Hv]; [|by exists ev', v].
    eapply sorted_split; [done|apply (Hstamps _ _ Hev')|]. by eapply nlt_nle_trans. }
  split; simpl; rewrite ?Hg.
  - by eapply lookup_lt_Some.
  - destruct (Hst g ev Hev (sc_start Hsc _ _ Hev)) as (ev' & v & Hev' & Hv). simplify_eq. by exists v.
  - intros l k (l' & gs & i & [= <- <-%Nat2Z.inj] & Hgs & Hi)%(sc_points Hsc). exists gs. split; [done|].
    split; [by eapply lookup_lt_Some|]. intros i' g' Hi' Hg'. destruct (sc_gids Hsc _ _ _ _ Hgs Hg') as [ev' Hev'].
    apply (Hst g' ev' Hev'). exact (sc_order Hsc l gs k i' g g' ev ev' Hgs Hi Hg' Hi' Hev Hev').
  - intros l gs Hat Hgs. exists gs. split; [done|]. destruct (sc_illegal Hsc _ _ Hat) as (gs' & Hgs' & Hne).
    assert (gs' = gs) as -> by congruence. split; [destruct gs; [done|simpl; lia]|]. intros i' g' _ Hg'. destruct (sc_gids Hsc _ _ _ _ Hgs Hg') as [ev' Hev'].
    apply (Hst g' ev' Hev'). exact (sc_after Hsc l gs i' g g' ev ev' Hat Hgs Hg' Hev Hev').
Qed.

(** What the scan leaves behind for the boxes and the timestamps after [prev]. *)
Record scanned (prev : Num) (rest : list Num) (boxes : list (box Num)) xs lps xs' lps' : Prop := mkScanned {
  sn_extends : extends xs xs';
  sn_placed : placed xs' sorted;
  sn_ok : lps_ok xs' lps';
  sn_grows : grows lps lps';
  sn_gap : ∀ i t t', (prev :: rest) !! i = Some t → rest !! i = Some t' →
    ∃ v v', xget xs' t = Some v ∧ xget xs' t' = Some v' ∧ nle (nadd v gap) v';
  sn_boxes : ∀ b, b ∈ boxes → ∃ v, xget xs' (bx_end b) = Some v ∧ box_placed lps' b ∧ box_fits xs' lps' b v;
  sn_least : ∀ y q, admissible sorted y q → right_of xs y → right_of xs' y;
}.

Lemma placed_snoc xs done ts v : placed xs done → ts ∉ done → placed ((ts, Some v) :: xs) (done ++ [ts]).
Proof.
  intros [Hp Hn] Hts. split; intros t; rewrite xget_cons, elem_of_app, list_elem_of_singleton; case_decide as Ht.
  - eauto.
  - intros [?|Ht2]; [by apply Hp|done].
  - intros Hno. exfalso. apply Hno. by right.
  - intros Hno. apply Hn. tauto.
Qed.

Lemma scan_spec rest xs lps boxes done prev :
  sorted = (done ++ [prev]) ++ rest → placed xs (done ++ [prev]) → lps_ok xs lps → left_after prev boxes →
  ∃ xs' lps', scan byGid ln xs lps boxes prev rest = Some (xs', lps') ∧ scanned prev rest boxes xs lps xs' lps'.
Proof.
  revert xs lps boxes done prev. induction rest as [|ts rest IH]; intros xs lps boxes done prev Heq Hp Hok [Hbs Hbx]; simpl.
  { exists xs, lps. split; [done|]. assert (sorted = done ++ [prev]) as Heq' by (by rewrite app_nil_r in Heq).
    split; try done; [by intros t u|by rewrite Heq'|apply lps_grows_refl|].
    intros b Hb. exfalso. destruct (Hbx b Hb) as (Hlt & g & ev & Hev & ->). simpl in Hlt.
    destruct (Hstamps _ _ Hev) as [_ Hin]. rewrite Heq' in Hin. pose proof Hsorted as Hs. rewrite Heq' in Hs.
    apply elem_of_app in Hin as [Hin|Hin%list_elem_of_singleton]; [|rewrite Hin in Hlt; by apply nlt_irrefl in Hlt].
    apply (nlt_irrefl prev). eapply nlt_trans; [exact Hlt|]. eapply (StronglySorted_app_1_elem_of _ done [prev]); [exact Hs|done|by left]. }
  destruct (proj1 Hp prev) as [v0 Hv0]; [set_solver|]. rewrite Hv0. simpl.
  assert (ts ∉ done ++ [prev]) as Hts.
  { intros Hin. pose proof Hsorted as Hs. rewrite Heq in Hs. apply (nlt_irrefl ts).
    eapply (StronglySorted_app_1_elem_of _ _ (ts :: rest)); [exact Hs|done|by left]. }
  destruct (place_boxes_spec xs ts boxes lps (nadd v0 gap) Hsc Hbs Hok) as (bd & br & lps1 & v & -> & -> & Hd & Hr & Hok1 & Hg1 & Hv & Hfit & Hmin).
  { intros b Hb Hle. destruct (Hbx b Hb) as (_ & g & ev & Hev & ->). by eapply box_ready_at. }
  simpl. set (xs1 := (ts, Some v) :: xs).
  assert (extends xs xs1) as Hext.
  { intros t u Ht. unfold xs1. rewrite xget_cons. case_decide; [subst t|done]. rewrite (proj2 Hp ts Hts) in Ht. done. }
  destruct (IH xs1 lps1 br (done ++ [prev]) ts) as (xs' & lps' & -> & [He Hpl Hok' Hg Hgap Hb Hl]).
  { by rewrite <- app_assoc. }
  { by apply placed_snoc. }
  { split; [apply Hok1|]. intros l gs ps Hgs Hps. eapply points_ok_extends; [exact Hext|]. by eapply Hok1. }
  { split; [by apply StronglySorted_app_1_r in Hbs|]. intros b Hb. split; [by apply Hr|]. apply (Hbx b). set_solver. }
  exists xs', lps'. split; [done|].
  assert (xget xs1 ts = Some v) as Hvts by (unfold xs1; rewrite xget_cons; by rewrite decide_True). split; try done.
  - intros t u Ht. by apply He, Hext.
  - by eapply grows_trans.
  - intros [|i] t t' Ht Ht'; simpl in *; [|by eapply Hgap]. simplify_eq. exists v0, v. split_and!; [by apply He, Hext|by apply He|done].
  - intros b [Hbd|Hbr]%elem_of_app; [|by apply Hb]. destruct (Hbx b) as (Hlt & g & ev & Hev & Hbe); [set_solver|].
    assert (bx_end b = ts) as -> by (subst b; apply (ends_at done prev ts rest g ev Heq Hev Hlt), (Hd _ Hbd)).
    exists v. split; [by apply He|]. destruct (Hfit b Hbd) as [Hbp Hbf]. split; [by eapply box_placed_grows|].
    apply (box_fits_stable xs xs' lps1 lps' b v); try done; [intros t u Ht; by apply He, Hext|]. subst b. by apply (box_ready_at xs (done ++ [prev]) ts rest g ev Heq Hp Hev), (Hd _ Hbd).
  - intros y q Ha Hro. apply (Hl y q Ha). intros t u. unfold xs1. rewrite xget_cons. case_decide; [subst t|by apply Hro].
    intros [= <-]. apply Hmin.
    + eapply nle_trans; [|apply (ad_gap _ _ _ Ha (List.length done) prev ts)].
      * apply nadd_mono; [by apply Hro|apply nle_refl].
      * rewrite Heq, <- app_assoc. by apply list_lookup_middle.
      * rewrite Heq. apply list_lookup_middle. rewrite length_app. simpl. lia.
    + intros b Hbd. destruct (Hbx b) as (Hlt & g & ev & Hev & Hbe); [set_solver|].
      assert (ev_End ev = ts) as <-; [|subst b; by eapply box_fits_right_of].
      subst b. apply (ends_at done prev ts rest g ev Heq Hev Hlt), (Hd _ Hbd).
Qed.
End scan.
End VisScanProof.
