(* ===== verification/VisRange.v ===== *)
(** Positions without rounding: every number that the layout of VisLayout.v computes
    from text widths on the grid is on the grid itself, or beyond a limit that the
    page is not supposed to reach. *)

From S2P Require Import Prelude GoStd PorcupineModel Visualize VisLayout VisLayoutProof.

#[local] Open Scope Z_scope.
#[local] Open Scope go_scope.

Module VisRange.
Export VisLayoutProof.

Section range.
Context {Num : Type} `{JsNumberLaws Num} `{!GridNumber Num}.
Implicit Types (v w : Num) (a b : Z).

(** [limit] is in pixels. *)
Definition limit_ok (limit : Z) : Prop := 0 <= limit ∧ (limit + 100) * per_pixel (Num:=Num) <= 2^53.

Context (limit : Z) (Hlimit : limit_ok limit).

Abbreviation px := (per_pixel (Num:=Num)).

Definition on_grid v : Prop := ∃ a, 0 <= a <= limit * px ∧ v = units a.

(** On the grid, or beyond the limit. *)
Definition tracked v : Prop := on_grid v ∨ nlt (units (limit * px)) v.

Lemma in_range a : 0 <= a <= (limit + 100) * px → -2^53 <= a <= 2^53.
Proof. destruct Hlimit. lia. Qed.

Lemma pixels k : 0 <= k <= 100 → of_int k = (units (k * px) : Num).
Proof. intros Hk. apply grid_int. destruct Hlimit. pose proof (per_pixel_pos (Num:=Num)). nia. Qed.

Lemma grid_plus a k : 0 <= a <= limit * px → 0 <= k <= 100 → nadd (units a) (of_int k) = (units (a + k * px) : Num).
Proof.
  intros Ha Hk. rewrite (pixels k Hk). pose proof (per_pixel_pos (Num:=Num)). apply grid_add; apply in_range; nia.
Qed.

Lemma plus_grid a k : 0 <= a <= limit * px → 0 <= k <= 100 → nadd (of_int k) (units a) = (units (k * px + a) : Num).
Proof.
  intros Ha Hk. rewrite (pixels k Hk). pose proof (per_pixel_pos (Num:=Num)). apply grid_add; apply in_range; nia.
Qed.

Lemma tracked_int k : 0 <= k <= limit → k <= 100 → tracked (of_int k).
Proof. intros Hk Hk'. left. exists (k * px). rewrite pixels by lia. pose proof (per_pixel_pos (Num:=Num)). split; [nia|done]. Qed.

Lemma grid_lt a b : -2^53 <= a <= 2^53 → -2^53 <= b <= 2^53 → nlt (units a : Num) (units b) ↔ a < b.
Proof. intros Ha Hb. unfold nlt. rewrite grid_le by done. lia. Qed.

(** Sums are tracked. *)
Lemma tracked_add v b : tracked v → 0 <= b <= 2^53 → tracked (nadd v (units b)).
Proof.
  pose proof (per_pixel_pos (Num:=Num)) as Hpos. destruct Hlimit as [Hl0 Hl]. intros [(a & Ha & ->)|Hv] Hb.
  - destruct (Z.le_gt_cases (a + b) (limit * px)) as [Hle|Hgt].
    + left. exists (a + b). split; [lia|]. apply grid_add; [apply in_range; lia|lia|apply in_range; lia].
    + right. set (c := limit * px + 1 - a). apply (nlt_nle_trans _ (nadd (units a) (units c))).
      * rewrite grid_add by (subst c; lia). apply grid_lt; subst c; lia.
      * apply nadd_mono; [apply nle_refl|]. apply grid_le; subst c; lia.
  - right. apply (nlt_nle_trans _ v); [done|]. apply (nle_trans _ (nadd v (of_int 0))); [apply nadd_int; lia|].
    apply nadd_mono; [apply nle_refl|]. rewrite (grid_int 0) by lia. apply grid_le; lia.
Qed.

Lemma tracked_max v w : tracked v → tracked w → tracked (nmax v w).
Proof. unfold nmax. by case_decide. Qed.

(** What is not beyond the limit is on the grid. *)
Lemma tracked_on_grid v : tracked v → nle v (of_int limit) → on_grid v.
Proof.
  intros [?|Hv] Hle; [done|]. exfalso. destruct Hlimit. pose proof (per_pixel_pos (Num:=Num)).
  rewrite grid_int in Hle by nia. by apply Hv.
Qed.

(** The same of what is within the limit with a margin to its left. *)
Lemma margin_on_grid v k : 0 < k <= 100 → tracked v → nle (nadd (of_int k) v) (of_int limit) → on_grid v.
Proof.
  intros Hk [?|Hv] Hle; [done|]. exfalso. destruct Hlimit as [Hl0 Hl]. pose proof (per_pixel_pos (Num:=Num)) as Hpos.
  rewrite (grid_int limit) in Hle by nia. assert (nle (units (k * px + limit * px)) (units (limit * px) : Num)) as Hle'.
  { apply (nle_trans _ (nadd (of_int k) v)); [|done]. rewrite <- plus_grid by nia. apply nadd_mono; [apply nle_refl|by apply nlt_nle]. }
  rewrite grid_le in Hle' by (apply in_range; nia). nia.
Qed.

(** ** The scan *)

Abbreviation tracked_opt := (from_option tracked True).

(** All that the scan has placed. *)
Definition all_tracked (lps : list (list (option Num))) : Prop := Forall (Forall tracked_opt) lps.
Definition x_tracked (xPos : object Num (option Num)) : Prop := Forall (tracked_opt ∘ snd) xPos.

Lemma xget_tracked xPos t : x_tracked xPos → tracked_opt (xget xPos t).
Proof.
  unfold xget. induction 1 as [|[k o] xPos Ho _ IH]; simpl; [done|]. case_decide; [|done]. by destruct o.
Qed.

Lemma max_tracked o o' : tracked_opt o → tracked_opt o' → tracked_opt (Math_max o o').
Proof. destruct o, o'; try done. apply tracked_max. Qed.

Lemma plus_tracked o k : tracked_opt o → 0 <= k <= 100 → tracked_opt (num_add o (of_int k)).
Proof.
  destruct o as [v|]; [|done]. simpl. intros Hv Hk. rewrite pixels by done. apply tracked_add; [done|].
  destruct Hlimit. pose proof (per_pixel_pos (Num:=Num)). nia.
Qed.

Lemma last_tracked ps : Forall tracked_opt ps → tracked_opt (x ← last ps; x).
Proof. intros Hps. destruct (last ps) as [o|] eqn:Hl; [|done]. apply last_Some_elem_of in Hl. rewrite Forall_forall in Hps. by apply (Hps o). Qed.

Lemma next_point_tracked byGid xPos lin ps ps' :
  x_tracked xPos → Forall tracked_opt ps → next_point byGid xPos lin ps = Some ps' → Forall tracked_opt ps'.
Proof.
  unfold next_point. intros Hx Hps (g & _ & (ev & _ & [= <-])%bind_Some)%bind_Some. apply Forall_app. split; [done|].
  constructor; [|done]. pose proof (last_tracked ps Hps) as Hl. destruct (last ps) as [prev|]; [|by apply xget_tracked].
  apply max_tracked; [by apply xget_tracked|]. apply plus_tracked; [done|unfold EPSILON; lia].
Qed.

Lemma next_points_tracked k byGid xPos lin ps ps' :
  x_tracked xPos → Forall tracked_opt ps → next_points k byGid xPos lin ps = Some ps' → Forall tracked_opt ps'.
Proof.
  intros Hx. revert ps. induction k as [|k IH]; intros ps Hps; simpl; [by intros [= <-]|].
  intros (ps1 & Hp & Hn)%bind_Some. eapply IH; [|exact Hn]. by eapply next_point_tracked.
Qed.

Lemma place_points_tracked byGid xPos all lps index position lps' :
  x_tracked xPos → all_tracked lps → place_points byGid xPos all lps index position = Some lps' → all_tracked lps'.
Proof.
  unfold place_points. intros Hx Hl (lin & _ & (ps & Hps & (ps' & Hn & [= <-])%bind_Some)%bind_Some)%bind_Some.
  apply Forall_insert; [done|]. eapply next_points_tracked; [done| |exact Hn]. by eapply Forall_lookup_1.
Qed.

Lemma point_tracked (ps : list (option Num)) i : Forall tracked_opt ps → tracked_opt (x ← ps.[i]; x).
Proof.
  intros Hps. destruct (ps.[i]) as [o|] eqn:Hi; [|done]. pose proof (zlookup_lt_Some _ _ _ Hi).
  rewrite zlookup_pos in Hi by lia. exact (Forall_lookup_1 _ _ _ _ Hps Hi).
Qed.

Lemma place_all_tracked byGid xPos all lps pos lis lps' pos' :
  x_tracked xPos → all_tracked lps → tracked_opt pos → place_all byGid xPos all lps pos lis = Some (lps', pos') →
  all_tracked lps' ∧ tracked_opt pos'.
Proof.
  intros Hx. revert lps pos. induction lis as [|[index position] lis IH]; intros lps pos Hl Hp; simpl; [by intros [= <- <-]|].
  intros (lps1 & Hpl & (ps & Hps & Ha)%bind_Some)%bind_Some. assert (all_tracked lps1) as Hl1 by by eapply place_points_tracked.
  eapply IH; [done| |exact Ha]. apply max_tracked; [done|]. apply point_tracked. by eapply Forall_lookup_1.
Qed.

Lemma illegal_fit_tracked lps pos indexes pos' :
  all_tracked lps → tracked_opt pos → illegal_fit lps pos indexes = Some pos' → tracked_opt pos'.
Proof.
  intros Hl. revert pos. induction indexes as [|index indexes IH]; intros pos Hp; simpl; [by intros [= <-]|].
  intros (ps & Hps & Hi)%bind_Some. eapply IH; [|exact Hi]. apply max_tracked; [done|].
  pose proof (last_tracked ps (Forall_lookup_1 _ _ _ _ Hl Hps)) as Hla. destruct (last ps) as [o|]; [|done]. simpl in *.
  apply plus_tracked; [done|unfold EPSILON; lia].
Qed.

(** A box whose width is on the grid. *)
Definition on_grid_box (b : box Num) : Prop := ∃ a, 0 <= a <= 2^53 ∧ bx_width b = units a.

Lemma place_boxes_tracked byGid xPos ln ts lps pos boxes lps' pos' boxes' :
  x_tracked xPos → all_tracked lps → tracked_opt pos → Forall on_grid_box boxes →
  place_boxes byGid xPos ln ts lps pos boxes = Some (lps', pos', boxes') →
  all_tracked lps' ∧ tracked_opt pos' ∧ Forall on_grid_box boxes'.
Proof.
  intros Hx. revert lps pos. induction boxes as [|b boxes IH]; intros lps pos Hl Hp Hb; simpl; [by intros [= <- <- <-]|].
  case_decide; [|by intros [= <- <- <-]]. intros ([lps1 pos1] & Hpl & Hr)%bind_Some.
  apply Forall_cons in Hb as [(a & Ha & Hw) Hb]. unfold place_box in Hpl.
  apply bind_Some in Hpl as (points & _ & Hpl). apply bind_Some in Hpl as (illegal & _ & Hpl).
  apply bind_Some in Hpl as (lasts & _ & Hpl). apply bind_Some in Hpl as ([lps2 pos2] & Ha2 & Hpl).
  apply bind_Some in Hpl as (pos3 & Hi & [= <- <-]). eapply place_all_tracked in Ha2 as [Hl2 Hp2]; [|done..|].
  - eapply IH; [exact Hl2| |exact Hb|exact Hr]. by eapply illegal_fit_tracked.
  - apply max_tracked; [done|]. rewrite Hw. pose proof (xget_tracked xPos (bx_start b) Hx) as Hs.
    destruct (xget xPos (bx_start b)) as [v|]; [|done]. simpl in *. by apply tracked_add.
Qed.

Lemma scan_tracked byGid ln xPos lps boxes prev sorted xPos' lps' :
  x_tracked xPos → all_tracked lps → Forall on_grid_box boxes →
  scan byGid ln xPos lps boxes prev sorted = Some (xPos', lps') → x_tracked xPos' ∧ all_tracked lps'.
Proof.
  revert xPos lps boxes prev. induction sorted as [|t sorted IH]; intros xPos lps boxes prev Hx Hl Hb; simpl; [by intros [= <- <-]|].
  intros ([[lps1 pos] boxes1] & Hp & Hs)%bind_Some. apply place_boxes_tracked in Hp as (Hl1 & Hpos & Hb1); try done.
  - eapply IH; [|exact Hl1|exact Hb1|exact Hs]. by constructor.
  - apply plus_tracked; [by apply xget_tracked|unfold BOX_GAP; lia].
Qed.

(** ** The layout *)

(** Texts are measured in multiples of the unit, and none is wider than the limit. *)
Definition texts_on_grid (getBBox_width : string → Num) : Prop := ∀ text, on_grid (getBBox_width text).

Lemma by_end_on_grid getBBox_width (evss : list (list (event Num))) :
  texts_on_grid getBBox_width → Forall on_grid_box (by_end getBBox_width evss).
Proof.
  intros Ht. unfold by_end. rewrite merge_sort_Permutation. apply Forall_map, Forall_forall. intros ev _.
  destruct (Ht (he_Description (ev_el ev))) as (a & Ha & Hw). destruct Hlimit. pose proof (per_pixel_pos (Num:=Num)).
  exists (a + 2 * BOX_TEXT_PADDING * px). split; [unfold BOX_TEXT_PADDING; nia|]. simpl. rewrite Hw.
  rewrite grid_plus; [done|lia|unfold BOX_TEXT_PADDING; lia].
Qed.

Lemma layout_tracked getBBox_width data L :
  texts_on_grid getBBox_width → compute_layout getBBox_width data = Some L →
  x_tracked (lo_xPos L) ∧ all_tracked (lo_positions L).
Proof.
  intros Ht. unfold compute_layout. destruct (prepare data) as [evss sorted]. intros (ln & _ & HL)%bind_Some.
  assert (all_tracked (replicate (List.length (ln_all ln)) [])) as Hr by (apply Forall_replicate; constructor).
  destruct sorted as [|t0 ts]; [injection HL as <-; split; [constructor|done]|].
  apply bind_Some in HL as ([xPos lps] & Hs & [= <-]). simpl. eapply scan_tracked; [|exact Hr|by apply by_end_on_grid|exact Hs].
  constructor; [|done]. simpl. apply tracked_int; destruct Hlimit; lia.
Qed.
End range.
End VisRange.
