(* ===== verification/VisLayoutSpec.v ===== *)
(** What the layout of VisLayout.v promises: on the data of a real check the page
    computes a position for every timestamp and every linearization point, all
    constraints on boxes and points hold, and no layout is narrower. *)

From Stdlib Require Import QArith.Qcanon.
From stdpp Require Import sorting numbers.
From S2P Require Import Prelude GoStd PorcupineModel Visualize VisLayout VisLayoutProof VisScanProof.

#[local] Open Scope Z_scope.
#[local] Open Scope go_scope.

Module VisLayoutSpec.
Export VisScanProof.

(** ** The data the page can draw *)

(** Operations take time; a linearization is a nonempty list of distinct
    operations, and no operation in it starts after one that is not yet
    linearized has ended. *)
Record drawable (p : partitionVisualizationData) : Prop := mkDrawable {
  dr_timed : ∀ el, el ∈ pv_History p → timed el;
  dr_nonempty : ∀ lin, lin ∈ pv_PartialLinearizations p → lin ≠ [];
  dr_nodup : ∀ lin, lin ∈ pv_PartialLinearizations p → NoDup (map ls_Index lin);
  dr_index : ∀ lin step, lin ∈ pv_PartialLinearizations p → step ∈ lin → is_Some ((pv_History p).[ls_Index step]);
  dr_order : ∀ lin σ1 step σ2 el i el', lin ∈ pv_PartialLinearizations p → lin = σ1 ++ step :: σ2 →
    (pv_History p).[ls_Index step] = Some el → (pv_History p).[i] = Some el' → i ∉ map ls_Index σ1 →
    he_Start el <= he_End el';
}.

(** [Largest] names existing linearizations, and the first one, which is a longest
    one, for all its operations. *)
Record largest_ok (p : partitionVisualizationData) : Prop := mkLargestOk {
  lg_range : ∀ i (l : Z), pv_Largest p !! i = Some l → 0 <= l < zlen (pv_PartialLinearizations p);
  lg_first : ∀ lin step, head (pv_PartialLinearizations p) = Some lin → step ∈ lin → pv_Largest p !! ls_Index step = Some 0;
}.

(** No linearization is longer than the first one. *)
Definition longest_first (p : partitionVisualizationData) : Prop :=
  ∀ lin lin', head (pv_PartialLinearizations p) = Some lin → lin' ∈ pv_PartialLinearizations p → zlen lin' <= zlen lin.

Section spec.
Context {Num : Type} `{JsNumberLaws Num} (getBBox_width : string → Num).
Implicit Types (ev : event Num) (evs : list (event Num)) (lin : list linearizationStep) (l k : nat).

(** ** The constraints *)

(** The constraints that the script's comments list, for positions [x] of the
    timestamps and [q] of the points of the linearizations [lns]: timestamps are
    apart, boxes hold their text, points lie on their operation's box, apart and in
    order, and there is room for the next point that would be illegal. *)
Record fits (evss : list (list (event Num))) (sorted : list Num) (lns : list (list (event Num) * list linearizationStep))
    (x : Num → Num) (q : nat → nat → Num) : Prop := mkFits {
  ft_first : ∀ t, sorted !! 0%nat = Some t → nle (of_int 0) (x t);
  ft_gap : ∀ i t t', sorted !! i = Some t → sorted !! S i = Some t' → nle (nadd (x t) (of_int BOX_GAP)) (x t');
  ft_text : ∀ ev, ev ∈ concat evss →
    nle (nadd (x (ev_Start ev)) (nadd (getBBox_width (he_Description (ev_el ev))) (of_int (2 * BOX_TEXT_PADDING)))) (x (ev_End ev));
  ft_point : ∀ l evs lin k step ev, lns !! l = Some (evs, lin) → lin !! k = Some step → evs.[ls_Index step] = Some ev →
    nle (x (ev_Start ev)) (q l k) ∧ nle (q l k) (x (ev_End ev));
  ft_next : ∀ l evs lin k, lns !! l = Some (evs, lin) → (S k < List.length lin)%nat →
    nle (nadd (q l k) (of_int EPSILON)) (q l (S k));
  ft_try : ∀ l evs lin i ev, lns !! l = Some (evs, lin) → (i, ev) ∈ tries evs lin →
    nle (nadd (q l (List.length lin - 1)%nat) (of_int EPSILON)) (x (ev_End ev));
}.

Section data.
Context (data : list partitionVisualizationData) (evss : list (list (event Num))) (sorted : list Num).
Context (Hpp : prepared data evss sorted) (Hdr : ∀ p, p ∈ data → drawable p).

Abbreviation byGid := (concat evss).
Abbreviation lns := (all_lins data evss).

Lemma elem_of_all_lins evs lin :
  (evs, lin) ∈ lns → evs ∈ evss ∧ ∃ p, p ∈ data ∧ lin ∈ pv_PartialLinearizations p ∧ map ev_el evs = pv_History p.
Proof.
  pose proof (pp_els _ _ _ Hpp) as Hels. clear -Hels. revert Hels. generalize evss. induction data as [|p ps IH]; intros [|es ess] Hels;
    simpl; try by intros ?%elem_of_nil. injection Hels as He Hels.
  intros [(lin' & [= -> ->] & Hin)%list_elem_of_fmap|Hin]%elem_of_app.
  - split; [by left|]. exists p. split; [by left|done].
  - destruct (IH ess Hels Hin) as (? & p' & ? & ?). split; [by right|]. exists p'. split; [by right|done].
Qed.

Lemma event_timed ev : ev ∈ byGid → timed (ev_el ev).
Proof.
  intros (evs & Hev & Hin)%elem_of_concat. assert (map ev_el evs ∈ map pv_History data) as Hm.
  { rewrite <- (pp_els _ _ _ Hpp). by apply list_elem_of_fmap_2. }
  apply list_elem_of_fmap in Hm as (p & Hp & Hpin). apply (dr_timed p (Hdr p Hpin)). rewrite <- Hp. by apply list_elem_of_fmap_2.
Qed.

Lemma by_gid ev : ev ∈ byGid → byGid !! ev_Gid ev = Some ev.
Proof. intros [g Hg]%list_elem_of_lookup. by rewrite (pp_gid _ _ _ Hpp _ _ Hg). Qed.

Lemma zlookup_elem {A} (xs : list A) i y : xs.[i] = Some y → y ∈ xs.
Proof. intros Hi. pose proof (zlookup_lt_Some _ _ _ Hi). rewrite zlookup_pos in Hi by lia. by eapply list_elem_of_lookup_2. Qed.

Lemma lin_event l evs lin i ev : lns !! l = Some (evs, lin) → evs.[i] = Some ev → byGid !! ev_Gid ev = Some ev.
Proof.
  intros Hl Hi. apply by_gid, elem_of_concat. exists evs. split; [by eapply zlookup_elem|].
  by apply (elem_of_all_lins evs lin), (list_elem_of_lookup_2 _ l).
Qed.

Lemma zlookup_fmap {A B} (f : A → B) xs i : (map f xs).[i] = f <$> xs.[i].
Proof. unfold zlookup. case_match; [done|]. apply list_lookup_fmap. Qed.

(** What is linearized starts before what is not linearized yet ends. *)
Lemma lin_order l evs lin k step i ev ev' :
  lns !! l = Some (evs, lin) → lin !! k = Some step → evs.[ls_Index step] = Some ev → evs.[i] = Some ev' →
  i ∉ map ls_Index (take k lin) → nlt (ev_Start ev) (ev_End ev').
Proof.
  intros Hl Hk Hev Hev' Hi. destruct (elem_of_all_lins evs lin) as (Hin & p & Hp & Hlin & Hels).
  { by eapply list_elem_of_lookup_2. }
  apply (pp_order _ _ _ Hpp); [by eapply list_elem_of_lookup_2, lin_event..|].
  apply (dr_order p (Hdr p Hp) lin (take k lin) step (drop (S k) lin) _ i); try done.
  - symmetry. by apply take_drop_middle.
  - by rewrite <- Hels, zlookup_fmap, Hev.
  - by rewrite <- Hels, zlookup_fmap, Hev'.
Qed.

Lemma nodup_before l evs lin k i step :
  lns !! l = Some (evs, lin) → (k <= i)%nat → lin !! i = Some step → ls_Index step ∉ map ls_Index (take k lin).
Proof.
  intros Hl Hki Hi Hin. destruct (elem_of_all_lins evs lin) as (_ & p & Hp & Hlin & _); [by eapply list_elem_of_lookup_2|].
  pose proof (dr_nodup p (Hdr p Hp) lin Hlin) as Hnd. apply list_elem_of_fmap in Hin as (step' & Heq & Hin).
  apply list_elem_of_lookup in Hin as [j Hj]. rewrite lookup_take_Some in Hj. destruct Hj as [Hj Hjk].
  assert (j = i); [|lia]. eapply (NoDup_lookup (map ls_Index lin)); [done|by rewrite list_lookup_fmap, Hj|].
  rewrite list_lookup_fmap, Hi. simpl. by rewrite Heq.
Qed.

Lemma indexed_lins el : el ∈ lns → indexed el.1 el.2.
Proof.
  destruct el as [evs lin]. intros Hin step Hs. destruct (elem_of_all_lins _ _ Hin) as (_ & p & Hp & Hlin & Hels).
  pose proof (dr_index p (Hdr p Hp) lin step Hlin Hs) as Hi. rewrite <- Hels, zlookup_fmap in Hi. by apply fmap_is_Some in Hi.
Qed.

(** ** The gids *)

Context (ln : lins) (Htb : tables (List.length byGid) lns ln).

Lemma table_lin l gs : ln_all ln !! l = Some gs → ∃ evs lin, lns !! l = Some (evs, lin) ∧ global evs lin gs.
Proof. intros Hgs. destruct (Forall2_lookup_r _ _ _ _ _ (tb_all _ _ _ Htb) Hgs) as ([evs lin] & Hl & Hg). eauto. Qed.

Lemma table_gids l evs lin : lns !! l = Some (evs, lin) → ∃ gs, ln_all ln !! l = Some gs ∧ global evs lin gs.
Proof. intros Hl. apply (Forall2_lookup_l _ _ _ _ _ (tb_all _ _ _ Htb) Hl). Qed.

(** The [i]-th point of a linearization in the two views. *)
Lemma point_event l evs lin gs i g :
  lns !! l = Some (evs, lin) → global evs lin gs → gs !! i = Some g →
  ∃ step ev, lin !! i = Some step ∧ evs.[ls_Index step] = Some ev ∧ byGid !! g = Some ev.
Proof.
  intros Hl Hgl Hg. destruct (Forall2_lookup_r _ _ _ _ _ Hgl Hg) as (step & Hstep & ev & Hev & <-).
  exists step, ev. split_and!; [done..|by eapply lin_event].
Qed.

Lemma try_event l g :
  at_row (ln_illegal ln) g l →
  ∃ evs lin i ev, lns !! l = Some (evs, lin) ∧ (i, ev) ∈ tries evs lin ∧ byGid !! g = Some ev ∧ evs.[i] = Some ev ∧
    i ∉ map ls_Index lin.
Proof.
  intros ([evs lin] & [i ev] & Hl & He & <-)%(tb_illegal _ _ _ Htb). exists evs, lin, i, ev.
  destruct (elem_of_tries _ _ _ _ He) as (Hev & Hi & _). split_and!; try done. by eapply lin_event.
Qed.

Lemma data_scannable : scannable byGid ln.
Proof.
  split.
  - apply (pp_gid _ _ _ Hpp).
  - intros g ev Hev. apply list_elem_of_lookup_2 in Hev. apply (pp_order _ _ _ Hpp); [done..|].
    destruct (event_timed ev Hev) as (_ & _ & ?). lia.
  - apply (tb_points_len _ _ _ Htb).
  - apply (tb_illegal_len _ _ _ Htb).
  - intros l gs i g Hgs Hg. destruct (table_lin l gs Hgs) as (evs & lin & Hl & Hgl).
    destruct (point_event _ _ _ _ _ _ Hl Hgl Hg) as (_ & ev & _ & _ & ->). by eexists.
  - apply (tb_points _ _ _ Htb).
  - intros g l (evs & lin & i & ev & Hl & _)%try_event. destruct (table_gids l evs lin Hl) as (gs & Hgs & Hgl).
    exists gs. split; [done|]. intros ->. apply Forall2_nil_inv_r in Hgl.
    destruct (elem_of_all_lins evs lin) as (_ & p & Hp & Hlin & _); [by eapply list_elem_of_lookup_2|].
    by apply (dr_nonempty p (Hdr p Hp) lin Hlin).
  - intros l gs i k g g' ev ev' Hgs Hg Hg' Hki Hev Hev'. destruct (table_lin l gs Hgs) as (evs & lin & Hl & Hgl).
    destruct (point_event _ _ _ _ _ _ Hl Hgl Hg) as (step & ev1 & Hs & He & ?).
    destruct (point_event _ _ _ _ _ _ Hl Hgl Hg') as (step' & ev1' & Hs' & He' & ?). simplify_eq.
    eapply (lin_order l evs lin k step'); try done. by eapply nodup_before.
  - intros l gs k g g' ev ev' (evs & lin & i & ev1 & Hl & _ & Hb & Hev & Hi)%try_event Hgs Hg' Hev1 Hev'. simplify_eq.
    destruct (table_gids l evs lin Hl) as (gs' & Hgs' & Hgl). simplify_eq.
    destruct (point_event _ _ _ _ _ _ Hl Hgl Hg') as (step' & ev1' & Hs' & He' & ?). simplify_eq.
    eapply (lin_order l evs lin k step'); try done. intros Hin. apply Hi.
    apply list_elem_of_fmap in Hin as (s & -> & Hs). apply list_elem_of_fmap_2. eapply sublist_elem; [apply sublist_take|done].
Qed.
Lemma fits_admissible x q :
  fits evss sorted lns x q ↔ admissible getBBox_width byGid ln sorted x q.
Proof.
  split; intros [Hf Hg Ht Hp Hn Hi].
  - split; try done.
    + intros g ev Hev. by apply Ht, (list_elem_of_lookup_2 _ g).
    + intros l gs i g ev Hgs Hg' Hev. destruct (table_lin l gs Hgs) as (evs & lin & Hl & Hgl).
      destruct (point_event _ _ _ _ _ _ Hl Hgl Hg') as (step & ev1 & Hs & He & ?). simplify_eq. by eapply Hp.
    + intros l gs i Hgs Hlen. destruct (table_lin l gs Hgs) as (evs & lin & Hl & Hgl).
      apply (Hn l evs lin i Hl). by rewrite (Forall2_length _ _ _ Hgl).
    + intros l gs g ev (evs & lin & i & ev1 & Hl & Htr & Hev1 & _)%try_event Hgs Hev. simplify_eq.
      destruct (table_gids l evs lin Hl) as (gs' & Hgs' & Hgl). simplify_eq.
      rewrite <- (Forall2_length _ _ _ Hgl). by eapply Hi.
  - split; try done.
    + intros ev Hev. apply (Ht (ev_Gid ev)). by apply by_gid.
    + intros l evs lin k step ev Hl Hk Hev. destruct (table_gids l evs lin Hl) as (gs & Hgs & Hgl).
      destruct (Forall2_lookup_l _ _ _ _ _ Hgl Hk) as (g & Hg' & ev' & Hev' & <-). simplify_eq.
      eapply (Hp l gs k); [done..|by eapply lin_event].
    + intros l evs lin k Hl Hlen. destruct (table_gids l evs lin Hl) as (gs & Hgs & Hgl).
      apply (Hn l gs k Hgs). by rewrite <- (Forall2_length _ _ _ Hgl).
    + intros l evs lin i ev Hl Htr. destruct (table_gids l evs lin Hl) as (gs & Hgs & Hgl).
      rewrite (Forall2_length _ _ _ Hgl). eapply (Hi l gs (ev_Gid ev)); [|done|].
      * apply (tb_illegal _ _ _ Htb). by exists (evs, lin), (i, ev).
      * by eapply lin_event, elem_of_tries.
Qed.

(** ** The result of the scan *)

Definition x_of (xs : object Num (option Num)) (t : Num) : Num := default (of_int 0) (xget xs t).
Definition q_of (lps : list (list (option Num))) (l k : nat) : Num := default (of_int 0) (ps ← lps !! l; p ← ps !! k; p).

Lemma q_of_at lps l k w : point_at lps l k w → q_of lps l k = w.
Proof. intros (ps & Hps & Hw). unfold q_of. rewrite Hps. simpl. by rewrite Hw. Qed.

Lemma by_end_left t :
  (∀ ev, ev ∈ byGid → nlt t (ev_End ev)) → left_after getBBox_width byGid t (by_end getBBox_width evss).
Proof.
  intros Ht. unfold by_end. split.
  - apply StronglySorted_merge_sort; [intros a b c; apply nle_trans|intros a b; apply nle_total].
  - intros b. rewrite merge_sort_Permutation. intros (ev & -> & Hev)%list_elem_of_fmap. split; [by apply Ht|].
    exists (ev_Gid ev), ev. split; [by apply by_gid|done].
Qed.

Lemma scanned_fits t0 ts xs lps :
  sorted = t0 :: ts →
  scanned getBBox_width byGid ln sorted t0 ts (by_end getBBox_width evss) [(t0, Some (of_int 0))]
    (replicate (List.length (ln_all ln)) []) xs lps →
  (∀ t, t ∈ sorted → xget xs t = Some (x_of xs t)) ∧
  (∀ l evs lin, lns !! l = Some (evs, lin) → lps !! l = Some (map (λ k, Some (q_of lps l k)) (seq 0 (List.length lin)))) ∧
  admissible getBBox_width byGid ln sorted (x_of xs) (q_of lps) ∧
  ∀ y q, admissible getBBox_width byGid ln sorted y q → ∀ t, t ∈ sorted → nle (x_of xs t) (y t).
Proof.
  intros Hs [Hext [Hpl _] Hok _ Hgap Hbx Hleast]. pose proof data_scannable as Hsc.
  assert (∀ t, t ∈ sorted → xget xs t = Some (x_of xs t)) as Hx.
  { intros t Ht. destruct (Hpl t Ht) as [v Hv]. unfold x_of. by rewrite Hv. }
  assert (∀ ev, ev ∈ byGid → ev_Start ev ∈ sorted ∧ ev_End ev ∈ sorted) as Hst.
  { intros ev Hev. split; apply (pp_elem _ _ _ Hpp); eauto. }
  assert (∀ g ev, byGid !! g = Some ev → box_placed ln lps (box_of getBBox_width ev) ∧
    box_fits ln xs lps (box_of getBBox_width ev) (x_of xs (ev_End ev))) as Hbox.
  { intros g ev Hev. destruct (Hbx (box_of getBBox_width ev)) as (v & Hv & Hbp & Hbf).
    - unfold by_end. rewrite merge_sort_Permutation. by apply list_elem_of_fmap_2, (list_elem_of_lookup_2 _ g).
    - simpl in Hv. unfold x_of. by rewrite Hv. }
  assert (∀ l gs i, ln_all ln !! l = Some gs → (i < List.length gs)%nat → point_at lps l i (q_of lps l i)) as Hpt.
  { intros l gs i Hgs Hi. destruct (lookup_lt_is_Some_2 gs i Hi) as [g Hg]. destruct (sc_gids _ _ Hsc _ _ _ _ Hgs Hg) as [ev Hev].
    destruct (Hbox g ev Hev) as [[Hp _] _]. destruct (Hp l i) as [w Hw].
    - simpl. rewrite (sc_gid _ _ Hsc _ _ Hev). apply (sc_points _ _ Hsc). eauto 10.
    - by rewrite (q_of_at _ _ _ _ Hw). }
  split; [done|]. split; [|split].
  - intros l evs lin Hl. destruct (table_gids l evs lin Hl) as (gs & Hgs & Hgl). rewrite (Forall2_length _ _ _ Hgl).
    destruct (lps_lookup _ _ _ _ _ _ Hok Hgs) as (ps & Hps & Hpo). rewrite Hps. f_equal. apply list_eq. intros i.
    destruct (decide (i < List.length gs)%nat) as [Hi|Hi].
    + destruct (Hpt l gs i Hgs Hi) as (ps' & Hps' & Hw). simplify_eq. rewrite Hw. symmetry.
      rewrite list_lookup_fmap, lookup_seq_lt by done. done.
    + rewrite lookup_ge_None_2 by (pose proof (proj1 Hpo); lia). symmetry. apply lookup_ge_None_2.
      rewrite length_map, length_seq. lia.
  - split.
    + intros t. rewrite Hs. intros [= <-]. unfold x_of. rewrite (Hext t0 (of_int 0)); [apply nle_refl|].
      rewrite xget_cons. by rewrite decide_True.
    + rewrite Hs. intros i t t' Ht Ht'. destruct (Hgap i t t' Ht Ht') as (v & v' & Hv & Hv' & Hle). unfold x_of. by rewrite Hv, Hv'.
    + intros g ev Hev. destruct (Hbox g ev Hev) as [_ [Htx _ _]]. apply Htx. simpl. apply Hx, Hst. by eapply list_elem_of_lookup_2.
    + intros l gs i g ev Hgs Hg Hev. assert (i < List.length gs)%nat as Hi by by eapply lookup_lt_Some. destruct (Hpt l gs i Hgs Hi) as (ps & Hps & Hw). split.
      * destruct (proj2 Hok l gs ps Hgs Hps) as [_ Hp]. destruct (Hp i _ Hw) as (g' & ev' & v & Hg' & Hev' & Hv & Hcase). simplify_eq.
        unfold x_of. rewrite Hv. simpl. destruct i; [injection Hcase as ->; apply nle_refl|].
        destruct Hcase as (w' & _ & [= ->]). apply nmax_l.
      * destruct (Hbox g ev Hev) as [_ [_ Hp _]]. apply (Hp l i); [|by exists ps].
        simpl. rewrite (sc_gid _ _ Hsc _ _ Hev). apply (sc_points _ _ Hsc). eauto 10.
    + intros l gs i Hgs Hi. destruct (Hpt l gs (S i) Hgs Hi) as (ps & Hps & Hw).
      destruct (proj2 Hok l gs ps Hgs Hps) as [_ Hp]. destruct (Hp _ _ Hw) as (g & ev & v & _ & _ & _ & w' & Hw' & [= ->]).
      assert (q_of lps l i = w') as -> by (apply q_of_at; by exists ps). apply nmax_r.
    + intros l gs g ev Hat Hgs Hev. destruct (Hbox g ev Hev) as [_ [_ _ Hi]]. apply (Hi l gs); simpl.
      * by rewrite (sc_gid _ _ Hsc _ _ Hev).
      * done.
      * apply (Hpt l gs); [done|]. destruct (sc_illegal _ _ Hsc _ _ Hat) as (gs' & Hgs' & Hne). simplify_eq. destruct gs; [done|simpl; lia].
  - intros y q Ha t Ht. eapply (Hleast y q Ha); [|by apply Hx]. intros t' v. rewrite xget_cons. case_decide; [subst t'|done].
    intros [= <-]. apply (ad_first _ _ _ _ _ _ Ha). by rewrite Hs.
Qed.
Lemma stamps_sorted g ev : byGid !! g = Some ev → ev_Start ev ∈ sorted ∧ ev_End ev ∈ sorted.
Proof. intros Hev%list_elem_of_lookup_2. split; apply (pp_elem _ _ _ Hpp); eauto. Qed.

Lemma first_stamp t0 ts ev : sorted = t0 :: ts → ev ∈ byGid → nlt t0 (ev_End ev).
Proof.
  intros Hs Hev. pose proof (by_gid ev Hev) as Hg. destruct (stamps_sorted _ _ Hg) as [Hin _].
  apply (nle_nlt_trans _ (ev_Start ev)); [|by apply (sc_start _ _ data_scannable (ev_Gid ev))].
  pose proof (pp_sorted _ _ _ Hpp) as Hso. rewrite Hs in Hin, Hso. apply StronglySorted_inv in Hso as [_ Hso].
  rewrite Forall_forall in Hso. apply elem_of_cons in Hin as [->|Hin]; [apply nle_refl|by apply nlt_nle, Hso].
Qed.

(** Without timestamps there is nothing to draw. *)
Lemma fits_nothing x q : sorted = [] → lns = [] ∧ fits evss sorted lns x q.
Proof.
  intros Hs. assert (∀ g ev, byGid !! g = Some ev → False) as Hno.
  { intros g ev Hev. destruct (stamps_sorted g ev Hev) as [Hin _]. rewrite Hs in Hin. by apply elem_of_nil in Hin. }
  assert (lns = []) as Hl.
  { destruct (nil_or_length_pos lns) as [|Hlen]; [done|exfalso].
    destruct (lookup_lt_is_Some_2 lns 0%nat) as [[evs lin] Hl0]; [lia|].
    destruct (table_gids 0 evs lin Hl0) as (gs & Hgs & Hgl). destruct lin as [|step lin].
    - destruct (elem_of_all_lins evs []) as (_ & p & Hp & Hlin & _); [by eapply list_elem_of_lookup_2|].
      by apply (dr_nonempty p (Hdr p Hp) [] Hlin).
    - destruct (Forall2_lookup_l _ _ _ 0%nat step Hgl eq_refl) as (g & _ & ev & Hev & _). eapply Hno. by eapply lin_event. }
  split; [done|]. rewrite Hs, Hl. split; try done. intros ev [g Hg]%list_elem_of_lookup. by destruct (Hno g ev Hg).
Qed.
End data.

(** The layout is right and optimal.  On drawable data the script computes,
    without a TypeError and without a NaN, one position for every timestamp and one
    for every point of every linearization; they satisfy all the constraints
    ([fits]), and every other assignment that does puts no timestamp further left:
    the greedy scan solves the optimization problem its comments describe. *)
Lemma layout_optimal data :
  (∀ p, p ∈ data → drawable p) →
  ∃ L x q, compute_layout getBBox_width data = Some L ∧ prepared data (lo_events L) (lo_sorted L) ∧
    (∀ t, t ∈ lo_sorted L → xget (lo_xPos L) t = Some (x t)) ∧
    (∀ l evs lin, all_lins data (lo_events L) !! l = Some (evs, lin) →
       lo_positions L !! l = Some (map (λ k, Some (q l k)) (seq 0 (List.length lin)))) ∧
    fits (lo_events L) (lo_sorted L) (all_lins data (lo_events L)) x q ∧
    ∀ y q', fits (lo_events L) (lo_sorted L) (all_lins data (lo_events L)) y q' →
      ∀ t, t ∈ lo_sorted L → nle (x t) (y t).
Proof.
  intros Hdr. assert (prepared data (prepare data).1 (prepare (Num:=Num) data).2) as Hpp.
  { apply prepare_spec. intros p el Hp. by apply dr_timed, Hdr. }
  unfold compute_layout. destruct (prepare data) as [evss sorted]. simpl in Hpp. pose proof (pp_sorted _ _ _ Hpp) as Hsorted.
  set (n := List.length (concat evss)).
  destruct (add_partitions_spec n data evss [] _ (tables_init n)) as (ln & -> & Htb).
  { intros ev Hev. eapply lookup_lt_Some. by apply (by_gid data evss sorted). }
  { by apply (indexed_lins data evss sorted). }
  simpl in *. pose proof (data_scannable data evss sorted Hpp Hdr ln Htb) as Hsc.
  destruct sorted as [|t0 ts].
  - eexists _, (λ _, of_int 0), (λ _ _, of_int 0).
    destruct (fits_nothing data evss [] Hpp Hdr ln Htb (λ _, of_int 0) (λ _ _, of_int 0) eq_refl) as [Hl Hf].
    split; [done|]. simpl. split; [done|]. split; [by intros t ?%elem_of_nil|]. split; [by rewrite Hl|].
    split; [done|by intros y q' _ t ?%elem_of_nil].
  - destruct (scan_spec getBBox_width (concat evss) ln (t0 :: ts) Hsc Hsorted
      (stamps_sorted data evss _ Hpp) ts [(t0, Some (of_int 0))]
      (replicate (List.length (ln_all ln)) []) (by_end getBBox_width evss) [] t0) as (xs & lps & Hscan & Hres).
    { done. }
    { apply (placed_snoc [] [] t0 (of_int 0)); [|by intros ?%elem_of_nil]. split; [by intros t ?%elem_of_nil|done]. }
    { split; [by rewrite length_replicate|]. intros l gs ps _ [-> _]%lookup_replicate. split; [simpl; lia|done]. }
    { apply (by_end_left data evss (t0 :: ts) Hpp). intros ev. by eapply (first_stamp data evss (t0 :: ts) Hpp Hdr ln Htb). }
    rewrite Hscan. simpl. destruct (scanned_fits data evss (t0 :: ts) Hpp Hdr ln Htb t0 ts xs lps eq_refl Hres) as (Hx & Hq & Ha & Hmin).
    eexists _, (x_of xs), (q_of lps). split; [done|]. simpl. split; [done|]. split; [done|]. split; [done|].
    split; [by apply (fits_admissible data evss (t0 :: ts) Hpp ln Htb)|].
    intros y q' Hf t Ht. apply (Hmin y q'); [by apply (fits_admissible data evss (t0 :: ts) Hpp ln Htb)|done].
Qed.
End spec.

(** ** Exact numbers *)

Lemma half_double (x : Qc) : (x / Qc_of_Z 2 + x / Qc_of_Z 2 = x)%Qc.
Proof. rewrite Z2Qc_inj_2. unfold Qcdiv. rewrite <- Qcmult_plus_distr_r. assert (/ 2 + / 2 = 1)%Qc as -> by (by apply Qc_is_canon). apply Qcmult_1_r. Qed.

Lemma half_between (x y : Qc) : (x < y → x < (x + y) / Qc_of_Z 2 < y)%Qc.
Proof.
  intros Hxy. set (h := ((x + y) / Qc_of_Z 2)%Qc). assert (h + h = x + y)%Qc as Hh by apply half_double.
  split; apply Qclt_nge; intros Hle.
  - assert (h + h < x + y)%Qc as Hlt; [|rewrite Hh in Hlt; by apply Qclt_not_eq in Hlt].
    apply (Qcle_lt_trans _ (x + x)); [by apply Qcplus_le_compat|by apply Qcplus_lt_mono_l].
  - assert (x + y < h + h)%Qc as Hlt; [|rewrite Hh in Hlt; by apply Qclt_not_eq in Hlt].
    apply (Qclt_le_trans _ (y + y)); [by apply Qcplus_lt_mono_r|by apply Qcplus_le_compat].
Qed.

#[export] Instance Qc_laws : JsNumberLaws Qc.
Proof.
  assert (∀ x y : Qc, nlt x y ↔ (x < y)%Qc) as Hlt by (intros x y; by rewrite Qclt_nge). split; simpl.
  - apply Qcle_refl.
  - intros x y z. apply Qcle_trans.
  - intros x y. apply Qcle_antisym.
  - intros x y. apply (total Qcle).
  - intros x y z w. apply Qcplus_le_compat.
  - intros x k Hk. rewrite <- (Qcplus_0_r x) at 1. apply Qcplus_le_mono_l. rewrite <- Z2Qc_inj_0. apply (Z2Qc_inj_le 0 k). lia.
  - intros a b _ Hab _. apply Hlt. by apply (Z2Qc_inj_lt a b).
  - intros a b _ Hab _. rewrite !Hlt. apply half_between. by apply (Z2Qc_inj_lt a b).
Qed.

(** The multiples of 1/64. *)
#[export] Instance Qc_grid : GridNumber Qc.
Proof.
  refine {| per_pixel := 64; units := λ a, (Qc_of_Z a / Qc_of_Z 64)%Qc |}; simpl.
  - lia.
  - intros k _. rewrite Z2Qc_inj_mul. symmetry. apply Qcdiv_mult_l. by vm_compute.
  - intros a b _ _. rewrite (Z2Qc_inj_le a b). unfold Qcdiv. symmetry. apply Qcmult_le_mono_pos_r. by vm_compute.
  - intros a b _ _ _. rewrite Z2Qc_inj_add. unfold Qcdiv. ring.
  - intros a b _ _ _. rewrite Z2Qc_inj_sub. unfold Qcdiv. ring.
Defined.

(** Two clients, the second starting when the first is done. *)
Definition two_puts : list partitionVisualizationData :=
  [mkPartitionVisualizationData [mkHistoryElement 0 0 5 "put(a)"; mkHistoryElement 1 5 9 "put(b)"]
     [[mkLinearizationStep 0 "a"; mkLinearizationStep 1 "b"]] {[0 := 0; 1 := 0]}].

Lemma two_puts_drawable p : p ∈ two_puts → drawable p.
Proof.
  intros ->%list_elem_of_singleton. split; simpl.
  - intros el Hel. repeat (apply elem_of_cons in Hel as [->|Hel]; [unfold timed, exact; simpl; lia|]). by apply elem_of_nil in Hel.
  - by intros lin ->%list_elem_of_singleton.
  - intros lin ->%list_elem_of_singleton. by apply (bool_decide_unpack _).
  - intros lin step ->%list_elem_of_singleton Hs. repeat (apply elem_of_cons in Hs as [->|Hs]; [by eexists|]). by apply elem_of_nil in Hs.
  - intros lin σ1 step σ2 el i el' ->%list_elem_of_singleton Hlin Hel Hel' Hi.
    assert (i = 0 ∨ i = 1) as Hi01 by (apply zlookup_lt_Some in Hel'; unfold zlen in Hel'; simpl in Hel'; lia).
    destruct σ1 as [|s1 [|s2 σ1]]; simplify_eq/=; [| |by destruct σ1]; destruct Hi01 as [->| ->]; vm_compute in Hel, Hel'; simplify_eq/=; try lia.
Qed.

Example two_puts_laid_out :
  ∃ L, compute_layout (λ _, of_int 50 : Qc) two_puts = Some L ∧ ∀ t, t ∈ lo_sorted L → is_Some (xget (lo_xPos L) t).
Proof.
  destruct (layout_optimal (λ _, of_int 50 : Qc) two_puts two_puts_drawable) as (L & x & q & HL & _ & Hx & _).
  exists L. split; [exact HL|]. intros t Ht. exists (x t). exact (Hx t Ht).
Qed.

(** An operation without duration at the last timestamp: there is no later timestamp
    to move its end to, its box is placed before its start has a position, and the
    position is NaN. *)
Definition instant_last : list partitionVisualizationData :=
  [mkPartitionVisualizationData [mkHistoryElement 0 0 5 "put(a)"; mkHistoryElement 1 5 5 "put(b)"]
     [[mkLinearizationStep 0 "a"; mkLinearizationStep 1 "b"]] {[0 := 0; 1 := 0]}].

Example instant_last_nan :
  (L ← compute_layout (λ _, of_int 50 : Qc) instant_last; Some (xget (lo_xPos L) (of_int 5))) = Some None.
Proof. vm_compute. reflexivity. Qed.
End VisLayoutSpec.
