(* ===== verification/VisCheckSpec.v ===== *)
(** From the checker to the page: the data that [computeVisualizationData] makes of
    the information of a verbose check can be drawn (VisLayoutSpec.v). *)

From Stdlib Require Import QArith.Qcanon.
From S2P Require Import Prelude GoStd Bitset PorcupineModel Linearize NodeList Checker CheckerProof Parallel ParallelProof History Kv KvProof Visualize PorcupineSpec VisLayout VisLayoutProof VisScanProof VisLayoutSpec.

#[local] Open Scope Z_scope.
#[local] Open Scope go_scope.

Module VisCheckSpec.
Import PorcupineSpec.
Export VisLayoutSpec.

(** ** Histories with times *)

Section times.
Context {V : Type}.
Implicit Types (h : list (entry V)) (e c r : entry V) (i j : Z).

(** Entries in the order of their times, which are exact, and operations that take
    time. *)
Record timed_history h : Prop := mkTimedHistory {
  th_sorted : StronglySorted (λ e1 e2, time e1 <= time e2) h;
  th_exact : ∀ e, e ∈ h → exact (time e);
  th_positive : ∀ c r, c ∈ h → r ∈ h → is_call c → is_return r → id c = id r → time c < time r;
}.

(** Every id below the number of operations is used. *)
Lemma every_id h i : hist_ok h → 0 <= i < nops h → ∃ e, e ∈ h ∧ id e = i.
Proof.
  intros Hok Hi. destruct (decide (Exists (λ e, id e = i) h)) as [Hex|Hno].
  { apply Exists_exists in Hex as (e & ? & ?). eauto. }
  exfalso. pose proof (ho_wf _ Hok) as Hwf. destruct (wf_even h Hwf) as [m Hm].
  assert (nops h = Z.of_nat m) as Hn by (unfold nops, zlen; rewrite Hm, Nat2Z.inj_mul, Z.mul_comm; by apply Z.quot_mul).
  set (ids := filter (λ j, j ≠ i) (seqZ 0 (nops h))).
  assert (key <$> h ⊆+ map (pair callEntry) ids ++ map (pair returnEntry) ids) as Hsub.
  { apply NoDup_submseteq; [apply Hwf|]. intros k (e & -> & He)%list_elem_of_fmap.
    assert (id e ∈ ids) as Hin.
    { apply list_elem_of_filter. split; [|apply elem_of_seqZ; pose proof (ids_nops h Hok e He); lia].
      intros Heq. apply Hno, Exists_exists. eauto. }
    apply elem_of_app. unfold key. destruct (call_or_return e) as [->| ->]; [left|right]; by apply list_elem_of_fmap_2. }
  apply submseteq_length in Hsub. rewrite length_app, !length_map, ?length_fmap, Hm in Hsub.
  assert (i :: ids ⊆+ seqZ 0 (nops h)) as Hids.
  { apply NoDup_submseteq.
    - constructor; [by intros [? _]%list_elem_of_filter|]. apply NoDup_filter, NoDup_seqZ.
    - intros j [->|[_ ?]%list_elem_of_filter]%elem_of_cons; [|done]. apply elem_of_seqZ. lia. }
  apply submseteq_length in Hids. rewrite length_seqZ in Hids. simpl in Hids. lia.
Qed.

Lemma call_and_return h i : hist_ok h → 0 <= i < nops h →
  ∃ c r, c ∈ h ∧ r ∈ h ∧ is_call c ∧ is_return r ∧ id c = i ∧ id r = i.
Proof.
  intros Hok Hi. destruct (every_id h i Hok Hi) as (e & He & <-).
  destruct (wf_pair _ (ho_wf _ Hok) e He) as (c & r & Hc & Hr & Hci & Hri & [??]%before_elem). eauto 10.
Qed.

Lemma not_precedes h c r :
  timed_history h → c ∈ h → r ∈ h → is_call c → is_return r → ¬ precedes h (id r) (id c) → time c <= time r.
Proof.
  intros Ht Hc Hr Hcc Hrr Hno. destruct (Z.le_gt_cases (time c) (time r)) as [|Hlt]; [done|]. exfalso. apply Hno.
  exists r, c. split_and!; try done. apply sorted_before; [apply Ht|done..|lia].
Qed.
End times.

(** ** The drawn history *)

Section drawn.
Context {V St : Type} `{GoSort} (model : Model V St) (h : list (entry V)).
Context (Hok : hist_ok h).

(** The elements hold the times of the entries [pre]. *)
Definition elements (pre : list (entry V)) (hist : list historyElement) : Prop :=
  ∀ e, e ∈ pre → ∃ he, hist.[id e] = Some he ∧ (is_call e → he_Start he = time e) ∧ (is_return e → he_End he = time e).

Lemma elements_step pre e suf hist hist' cv cv' rv rv' :
  h = pre ++ e :: suf → elements pre hist → history_step model (hist, cv, rv) e = Some (hist', cv', rv') →
  elements (pre ++ [e]) hist'.
Proof.
  intros Heq Hel Hs. unfold history_step in Hs. apply bind_Some in Hs as (he & Hhe & Hs).
  assert (∃ he', zupdate hist (id e) he' = Some hist' ∧ (is_call e → he_Start he' = time e ∧ he_End he' = he_End he) ∧
    (is_return e → he_End he' = time e ∧ he_Start he' = he_Start he)) as (he' & Hup & Hc & Hr).
  { destruct (call_or_return e) as [Hc|Hr].
    - assert (Bool.eqb (kind e) callEntry = true) as Hk by (rewrite Hc; done). rewrite Hk in Hs.
      apply bind_Some in Hs as (l & Hl & [= -> _ _]). eexists. split; [exact Hl|].
      split; [done|]. intros Hr. exfalso. by eapply not_call_return.
    - assert (Bool.eqb (kind e) callEntry = false) as Hk by (rewrite Hr; done). rewrite Hk in Hs.
      apply bind_Some in Hs as (v & _ & Hs). apply bind_Some in Hs as (d & _ & Hs).
      apply bind_Some in Hs as (l & Hl & [= -> _ _]). eexists. split; [exact Hl|].
      split; [|done]. intros Hc. exfalso. by eapply not_call_return. }
  intros e' [He'|He'%list_elem_of_singleton]%elem_of_app; rewrite (zlookup_zupdate _ _ _ _ _ Hup).
  - destruct (Hel e' He') as (he2 & Hhe2 & Hc2 & Hr2). destruct (decide (id e = id e')) as [Hid|Hid]; [|eauto].
    rewrite <- Hid, Hhe in Hhe2. injection Hhe2 as <-. exists he'. split; [done|].
    assert (e' ≠ e ∧ e ∈ h ∧ e' ∈ h) as (Hne & Hin & Hin').
    { pose proof (wf_NoDup h (ho_wf _ Hok)) as Hnd. rewrite Heq in *. apply NoDup_app in Hnd as (_ & Hnd & _).
      split; [|set_solver]. intros ->. apply (Hnd e He'). by left. }
    split; intros Hk; destruct (call_or_return e) as [Hk'|Hk'].
    + exfalso. apply Hne. apply (key_inj h); try done; [apply Hok|by rewrite Hk, Hk'].
    + destruct (Hr Hk') as [_ ->]. auto.
    + destruct (Hc Hk') as [_ ->]. auto.
    + exfalso. apply Hne. apply (key_inj h); try done; [apply Hok|by rewrite Hk, Hk'].
  - subst e'. rewrite decide_True by done. exists he'. split; [done|]. naive_solver.
Qed.

Lemma elements_loop pre suf hist cv rv hist' cv' rv' :
  h = pre ++ suf → elements pre hist → history_loop model (hist, cv, rv) suf = Some (hist', cv', rv') → elements h hist'.
Proof.
  revert pre hist cv rv. induction suf as [|e suf IH]; intros pre hist cv rv Heq Hel Hl; simpl in Hl.
  { rewrite app_nil_r in Heq. by simplify_eq. }
  apply bind_Some in Hl as ([[hist1 cv1] rv1] & Hs & Hl). apply (IH (pre ++ [e]) hist1 cv1 rv1); [by rewrite <- app_assoc| |done].
  by eapply elements_step.
Qed.

(** One partition of the data, and what it comes from. *)
Definition drawn_from (p : partitionVisualizationData) (ps : list (list Z)) : Prop :=
  zlen (pv_History p) = nops h ∧ elements h (pv_History p) ∧ map (map ls_Index) (pv_PartialLinearizations p) ≡ₚ ps.

Lemma computePartition_drawn ps d :
  computePartition model h ps = Some d → zlen (pv_History d) = nops h →
  map (map ls_Index) (pv_PartialLinearizations d) = go_sort longer ps → drawn_from d ps.
Proof.
  intros Hc Hlen Hix. unfold computePartition in Hc. apply bind_Some in Hc as ([[hist cv] rv] & Hl & Hc).
  apply bind_Some in Hc as ([lins [sz ix]] & _ & [= <-]). split; [done|]. split; [|rewrite Hix; apply go_sort_perm].
  apply (elements_loop [] h _ _ _ _ _ _ eq_refl) in Hl; [done|]. by intros e ?%elem_of_nil.
Qed.

Lemma element_times p ps i el :
  drawn_from p ps → (pv_History p).[i] = Some el →
  ∃ c r, c ∈ h ∧ r ∈ h ∧ is_call c ∧ is_return r ∧ id c = i ∧ id r = i ∧ he_Start el = time c ∧ he_End el = time r.
Proof.
  intros (Hlen & Hel & _) Hi. pose proof (zlookup_lt_Some _ _ _ Hi) as Hr. rewrite Hlen in Hr.
  destruct (call_and_return h i Hok Hr) as (c & r & Hc & Hrr & Hcc & Hrk & Hci & Hri). exists c, r.
  destruct (Hel c Hc) as (he & Hhe & Hs & _), (Hel r Hrr) as (he' & Hhe' & _ & He). rewrite Hci, Hi in Hhe. rewrite Hri, Hi in Hhe'.
  simplify_eq. split_and!; auto.
Qed.

(** ** [largestIndex] *)

Implicit Types (sz ix : gmap Z Z) (σ : list Z).

(** One linearization of length [n] becomes the largest of the operations in it for
    which none as long has been seen. *)
Lemma partial_loop_largest cv rv i n σ s sz ix steps sz' ix' j :
  partial_loop model cv rv i n σ s (sz, ix) = Some (steps, (sz', ix')) →
  if decide (j ∈ σ ∧ default 0 (sz !! j) < n) then sz' !! j = Some n ∧ ix' !! j = Some i
  else sz' !! j = sz !! j ∧ ix' !! j = ix !! j.
Proof.
  revert s sz ix steps. induction σ as [|k σ IH]; intros s sz ix steps Hl; simpl in Hl.
  { simplify_eq. rewrite decide_False; [done|]. by intros [?%elem_of_nil _]. }
  apply bind_Some in Hl as (v & _ & Hl). apply bind_Some in Hl as (w & _ & Hl).
  apply bind_Some in Hl as ([ok s1] & _ & Hl). destruct (negb ok); [done|]. apply bind_Some in Hl as (d & _ & Hl).
  apply bind_Some in Hl as ([steps1 [sz1 ix1]] & Hl & [= <- <- <-]). destruct (Z.ltb_spec (default 0 (sz !! k)) n) as [Hlt|Hge].
  - apply IH in Hl. destruct (decide (j = k)) as [->|Hne].
    + rewrite !lookup_insert_eq in Hl. simpl in Hl. rewrite decide_False in Hl by lia. rewrite decide_True; [done|]. split; [by left|done].
    + rewrite !lookup_insert_ne in Hl by done. rewrite (decide_ext _ (j ∈ σ ∧ default 0 (sz !! j) < n)); [done|].
      rewrite elem_of_cons. tauto.
  - apply IH in Hl. rewrite (decide_ext _ (j ∈ σ ∧ default 0 (sz !! j) < n)); [done|]. rewrite elem_of_cons.
    split; [intros [[->|?] ?]; [lia|done]|tauto].
Qed.

Lemma partials_loop_largest cv rv i ps sz ix lins sz' ix' j :
  partials_loop model cv rv i ps (sz, ix) = Some (lins, (sz', ix')) →
  (ix' !! j = ix !! j ∨ ∃ l, ix' !! j = Some l ∧ i <= l < i + zlen ps) ∧
  ((∀ σ, σ ∈ ps → zlen σ <= default 0 (sz !! j)) → ix' !! j = ix !! j).
Proof.
  revert i sz ix lins. induction ps as [|σ ps IH]; intros i sz ix lins Hl; simpl in Hl; [simplify_eq; auto|].
  apply bind_Some in Hl as ([lin [sz1 ix1]] & H1 & Hl). apply bind_Some in Hl as ([lins1 [sz2 ix2]] & H2 & [= <- <- <-]).
  apply (partial_loop_largest _ _ _ _ _ _ _ _ _ _ _ j) in H1. destruct (IH _ _ _ _ H2) as [Hor Hkeep]. rewrite zlen_cons. split.
  - destruct Hor as [Hix|(l & Hix & Hr)]; [|right; exists l; split; [done|lia]]. rewrite Hix. case_decide.
    + right. exists i. split; [apply H1|]. pose proof (zlen_nonneg ps). lia.
    + left. apply H1.
  - intros Hall. rewrite decide_False in H1 by (intros [_ Hlt]; specialize (Hall σ (list_elem_of_here _ _)); lia).
    destruct H1 as [Hs Hx]. rewrite Hkeep; [done|]. intros σ' Hσ'. rewrite Hs. apply Hall. by right.
Qed.

Lemma computePartition_largest ps d :
  computePartition model h ps = Some d → map (map ls_Index) (pv_PartialLinearizations d) = go_sort longer ps →
  (∀ σ, σ ∈ ps → σ ≠ []) → largest_ok d.
Proof.
  intros Hc Hix Hne. assert (∀ σ, σ ∈ go_sort longer ps → σ ≠ []) as Hne' by (intros σ; rewrite go_sort_perm; apply Hne).
  pose proof (sorted_by_length ps) as Hsort.
  unfold computePartition in Hc. apply bind_Some in Hc as ([[hist cv] rv] & _ & Hc).
  apply bind_Some in Hc as ([lins [sz ix]] & Hl & [= <-]). simpl in *. split; simpl.
  - intros i l Hi. destruct (partials_loop_largest _ _ _ _ _ _ _ _ _ i Hl) as [[Hn|(l' & Hl' & Hr)] _].
    + rewrite Hn in Hi. by rewrite lookup_empty in Hi.
    + rewrite Hi in Hl'. injection Hl' as <-. rewrite <- Hix in Hr. unfold zlen in *. rewrite length_map in Hr. lia.
  - intros lin step Hhd Hstep. destruct lins as [|lin' lins]; [done|]. injection Hhd as ->. simpl in Hix. rewrite <- Hix in *.
    simpl in Hl. apply bind_Some in Hl as ([lin1 [sz1 ix1]] & H1 & Hl). apply bind_Some in Hl as ([lins1 [sz2 ix2]] & H2 & [= <- <- <- <-]).
    apply (partial_loop_largest _ _ _ _ _ _ _ _ _ _ _ (ls_Index step)) in H1.
    rewrite decide_True in H1.
    + destruct H1 as [Hs Hx]. destruct (partials_loop_largest _ _ _ _ _ _ _ _ _ (ls_Index step) H2) as [_ Hkeep].
      rewrite Hkeep; [done|]. rewrite Hs. simpl. apply StronglySorted_inv in Hsort as [_ Hsort]. rewrite Forall_forall in Hsort. done.
    + split; [by apply list_elem_of_fmap_2|]. rewrite lookup_empty. simpl. unfold zlen. destruct lin1; [by apply elem_of_nil in Hstep|simpl; lia].
Qed.

Lemma drawn_longest_first (ps : list (list Z)) d :
  map (map ls_Index) (pv_PartialLinearizations d) = go_sort longer ps → longest_first d.
Proof.
  intros Hix lin lin' Hhd Hin. pose proof (sorted_by_length ps) as Hsort. rewrite <- Hix in Hsort.
  destruct (pv_PartialLinearizations d) as [|lin0 lins]; [done|]. injection Hhd as ->. simpl in Hsort.
  apply StronglySorted_inv in Hsort as [_ Hall]. apply elem_of_cons in Hin as [->|Hin]; [lia|].
  rewrite Forall_forall in Hall. specialize (Hall _ (list_elem_of_fmap_2 (map ls_Index) _ _ Hin)).
  unfold zlen in *. by rewrite !length_map in Hall.
Qed.

(** Data drawn from sound partial linearizations can be laid out. *)
Lemma drawn_drawable p ps :
  timed_history h → sound_partials model h ps → drawn_from p ps → drawable p.
Proof.
  intros Ht Hs Hd. pose proof Hd as (Hlen & Hel & Hperm).
  assert (∀ lin, lin ∈ pv_PartialLinearizations p →
    map ls_Index lin ≠ [] ∧ ∃ st, partial_linearization (Step model) h (Init model) (map ls_Index lin) st) as Hlin.
  { intros lin Hin. unfold sound_partials in Hs. rewrite Forall_forall in Hs. apply Hs. rewrite <- Hperm.
    by apply list_elem_of_fmap_2. }
  split.
  - intros el [k Hk]%list_elem_of_lookup. rewrite <- zlookup_nat in Hk.
    destruct (element_times p ps _ _ Hd Hk) as (c & r & Hc & Hr & Hcc & Hrr & Hci & Hri & Hs1 & He1).
    unfold timed. rewrite Hs1, He1. split; [by apply (th_exact _ Ht)|]. split; [by apply (th_exact _ Ht)|]. apply (th_positive _ Ht); [done..|congruence].
  - intros lin Hin ->. by destruct (Hlin [] Hin).
  - intros lin Hin. destruct (Hlin lin Hin) as (_ & st & Hpl). apply Hpl.
  - intros lin step Hin Hstep. destruct (Hlin lin Hin) as (_ & st & Hpl). apply zlookup_is_Some. rewrite Hlen.
    destruct (pl_ids _ _ _ _ _ Hpl (ls_Index step)) as (e & He & <-); [by apply list_elem_of_fmap_2|]. by apply ids_nops.
  - intros lin σ1 step σ2 el i el' Hin -> Hel1 Hel2 Hi. destruct (Hlin _ Hin) as (_ & st & Hpl).
    destruct (element_times p ps _ _ Hd Hel1) as (c & r0 & Hc & _ & Hcc & _ & Hci & _ & -> & _).
    destruct (element_times p ps _ _ Hd Hel2) as (c0 & r & _ & Hr & _ & Hrr & _ & Hri & _ & ->).
    apply (not_precedes h); try done. rewrite Hci, Hri. rewrite map_app in Hpl. simpl in Hpl. intros Hpr.
    pose proof (pl_closed _ _ _ _ _ Hpl (ls_Index step) i) as Hcl.
    destruct (elem_of_app (map ls_Index σ1) (ls_Index step :: map ls_Index σ2) i) as [Happ _].
    destruct Happ as [?|[->|Hi2]%elem_of_cons]; [apply Hcl; [set_solver|done]|done| |].
    + by apply (precedes_irrefl h (ls_Index step)); [apply Hok|].
    + apply list_elem_of_split in Hi2 as (k2 & k3 & Hi2). rewrite Hi2 in Hpl. by eapply (pl_order _ _ _ _ _ Hpl).
Qed.
End drawn.

(** All partitions: the data exist and can be laid out. *)
Lemma compute_loop_drawable {V St} `{GoSort} (model : Model V St) hist parts :
  (∀ h, h ∈ hist → hist_ok h) → (∀ h, h ∈ hist → describable model h) → (∀ h, h ∈ hist → timed_history h) →
  Forall2 (sound_partials model) hist parts →
  ∃ ds, compute_loop model hist parts = Some ds ∧ ∀ p, p ∈ ds → drawable p ∧ largest_ok p ∧ longest_first p.
Proof.
  intros Hok Hd Ht H2. induction H2 as [|h ps hist parts Hps _ IH]; simpl.
  { exists []. split; [done|]. by intros p ?%elem_of_nil. }
  pose proof (Hok h (list_elem_of_here _ _)) as Hokh. destruct (Hd h (list_elem_of_here _ _)) as [Hd1 Hd2].
  destruct (computePartition_spec model h Hokh Hd1 Hd2 ps Hps) as (d & Hc & Hlen & Hix).
  destruct IH as (ds & Hds & Hall); [intros; apply Hok; by right|intros; apply Hd; by right|intros; apply Ht; by right|].
  rewrite Hc. simpl. rewrite Hds. simpl. eexists. split; [done|]. intros p [->|Hp]%elem_of_cons; [|by apply Hall].
  split; [|split; [|by eapply drawn_longest_first]].
  - eapply (drawn_drawable model h Hokh); [apply Ht; by left|exact Hps|]. by eapply computePartition_drawn.
  - eapply computePartition_largest; [done..|]. intros σ Hσ. unfold sound_partials in Hps. rewrite Forall_forall in Hps. by apply Hps.
Qed.

Lemma verbose_drawable {V St} `{EqDecision St} `{GoSort} `{GoMapOrder} sprintV sprintSt (model : Model V St)
    (history : list (list (entry V))) (timeout : Z)
    (HM : ∀ h, h ∈ history → ModelOk (fillDefault sprintV sprintSt model) h) res d :
  (∀ h, h ∈ history → hist_ok h) → (∀ h, h ∈ history → describable (fillDefault sprintV sprintSt model) h) →
  (∀ h, h ∈ history → timed_history h) → checkParallel (fillDefault sprintV sprintSt model) history true timeout res (Some d) →
  ∃ data, computeVisualizationData sprintV sprintSt model d = Some data ∧ ∀ p, p ∈ data → drawable p ∧ largest_ok p ∧ longest_first p.
Proof.
  intros Hok Hdesc Ht Hc. destruct (checkParallel_inv _ _ _ _ Hok HM _ _ Hc) as (_ & _ & _ & Hinfo).
  destruct (Hinfo d eq_refl) as [Hh Hs]. unfold computeVisualizationData. rewrite Hh. by apply compute_loop_drawable.
Qed.

(** ** Key/value histories *)

Section kv.
Context `{GoSort} `{GoMapOrder} (sprintV : KvValue → string) (sprintSt : string → string).
Implicit Types (ops : list (Operation KvValue)).

(** The recorded times fit the numbers of the page. *)
Definition exact_times ops : Prop := Forall (λ o, exact (op_Call o) ∧ exact (op_Return o)) ops.

(** Every operation takes time.  One may start at the very instant another ends. *)
Definition lasting ops : Prop := Forall (λ o, op_Call o < op_Return o) ops.

Lemma makeEntries_timed ops : lasting ops → exact_times ops → timed_history (makeEntries ops).
Proof.
  unfold lasting, exact_times. rewrite !Forall_forall. intros Hp Hx. split.
  - apply makeEntries_sorted.
  - intros e (n & o & Ho%list_elem_of_lookup_2 & [->| ->])%elem_of_makeEntries; by destruct (Hx o Ho).
  - intros c r (n & o & Ho & [->| ->])%elem_of_makeEntries (n' & o' & Ho' & [->| ->])%elem_of_makeEntries; try done.
    simpl. intros _ _ <-%Nat2Z.inj. simplify_eq. by apply Hp, (list_elem_of_lookup_2 _ n).
Qed.

Lemma makeEntries_describable ops : Forall typed ops → describable (fillDefault sprintV sprintSt KvModel) (makeEntries ops).
Proof.
  intros Ht. rewrite Forall_forall in Ht. split; [|by eexists].
  intros c r (n & o & Ho & [->| ->])%elem_of_makeEntries (n' & o' & Ho' & [->| ->])%elem_of_makeEntries; try done.
  simpl. intros _ _ <-%Nat2Z.inj. simplify_eq. destruct (Ht o) as [[i Hi] [v Hv]]; [by eapply list_elem_of_lookup_2|].
  unfold describe_operation. simpl. unfold KvDescribeOperation. rewrite Hi, Hv. simpl. repeat case_match; eauto.
Qed.

(** C17: From a recorded key/value history to its picture.  Operations take time; one
    may start at the very instant another ends, and then the two overlap in the
    picture.  Whatever schedule the verbose check ran under and whatever its verdict,
    the data for the page exist, the script makes of every operation of every
    partition one element with its times, and lays them all out without a TypeError
    or a NaN; the layout satisfies all constraints on boxes and points, and no layout
    that does is narrower. *)
Theorem kv_check_drawn `{JsNumberLaws Num} (getBBox_width : string → Num) ops timeout res d :
  Forall typed ops → lasting ops → exact_times ops →
  CheckOperationsVerbose sprintV sprintSt KvModel ops timeout res (Some d) →
  ∃ data L x q, computeVisualizationData sprintV sprintSt KvModel d = Some data ∧
    (∀ p, p ∈ data → drawable p ∧ largest_ok p ∧ longest_first p) ∧ compute_layout getBBox_width data = Some L ∧
    prepared data (lo_events L) (lo_sorted L) ∧
    (∀ t, t ∈ lo_sorted L → xget (lo_xPos L) t = Some (x t)) ∧
    (∀ l evs lin, all_lins data (lo_events L) !! l = Some (evs, lin) →
       lo_positions L !! l = Some (map (λ k, Some (q l k)) (seq 0 (List.length lin)))) ∧
    fits getBBox_width (lo_events L) (lo_sorted L) (all_lins data (lo_events L)) x q ∧
    ∀ y q', fits getBBox_width (lo_events L) (lo_sorted L) (all_lins data (lo_events L)) y q' →
      ∀ t, t ∈ lo_sorted L → nle (x t) (y t).
Proof.
  intros Ht Hto Hx (l & Hl & Hres). destruct (kv_entries sprintV sprintSt ops Ht) as (keys & Hent & _).
  rewrite Hent in Hl. injection Hl as <-.
  destruct (verbose_drawable sprintV sprintSt KvModel _ timeout (λ h, kv_entries_ModelOk sprintV sprintSt ops keys h Ht) res d)
    as (data & Hdata & Hdr); [| | |done|].
  - intros h (k & -> & _)%list_elem_of_fmap. by apply makeEntries_hist_ok, on_key_Forall.
  - intros h (k & -> & _)%list_elem_of_fmap. by apply makeEntries_describable, on_key_Forall.
  - intros h (k & -> & _)%list_elem_of_fmap. apply makeEntries_timed; by apply on_key_Forall.
  - destruct (layout_optimal getBBox_width data (λ p Hp, proj1 (Hdr p Hp))) as (L & x & q & HL & Hpp & Hxp & Hqp & Hf & Hmin).
    by exists data, L, x, q.
Qed.
End kv.

(** A put, and a get that starts when the put returns. *)
Definition get_x_then : Operation KvValue :=
  mkOperation 1 (VInput (mkKvInput 0 "x" "")) 10 (VOutput (mkKvOutput "1")) 15.

Lemma kv_check_drawn_witness :
  ∃ data L evs, computeVisualizationData (λ _, "") (λ _, "") KvModel (mkInfo [makeEntries [put_x; get_x_then]] [[[0; 1]]]) = Some data ∧
    compute_layout (λ _, of_int 50 : Qc) data = Some L ∧ prepared data (lo_events L) (lo_sorted L) ∧
    (∀ t, t ∈ lo_sorted L → is_Some (xget (lo_xPos L) t)) ∧
    (* the end of the put has moved half-way to the end of the get *)
    lo_events L = [evs] ∧ ev_End <$> evs = [nhalf (nadd (of_int 10) (of_int 15)); of_int 15].
Proof.
  destruct (kv_check_drawn (λ _, "") (λ _, "") (λ _, of_int 50 : Qc) [put_x; get_x_then] 0 Ok
    (mkInfo [makeEntries [put_x; get_x_then]] [[[0; 1]]]))
    as (data & L & x & q & Hd & _ & HL & Hpp & Hx & _).
  - repeat constructor; simpl; eauto.
  - by repeat constructor.
  - by repeat constructor.
  - exists [makeEntries [put_x; get_x_then]]. split; [vm_compute; reflexivity|]. exists (repeat (LRun 0%nat) 6 ++ [LMain; LMain]). eexists.
    split; [vm_compute; reflexivity|]. split_and!; reflexivity.
  - assert (match computeVisualizationData (λ _, "") (λ _, "") KvModel (mkInfo [makeEntries [put_x; get_x_then]] [[[0; 1]]]) with
      | Some d => match compute_layout (λ _, of_int 50 : Qc) d with Some L => map (map ev_End) (lo_events L) | None => [] end
      | None => []
      end = [[nhalf (nadd (of_int 10) (of_int 15)); of_int 15]]) as He by (vm_compute; reflexivity).
    rewrite Hd, HL in He.
    destruct (lo_events L) as [|evs [|]] eqn:Hevs; [done| |done]. injection He as He.
    exists data, L, evs. rewrite Hevs. split_and!; [exact Hd|exact HL|exact Hpp| |reflexivity|exact He].
    intros t Ht. exists (x t). exact (Hx t Ht).
Defined.
End VisCheckSpec.
