(* ===== verification/VisPage.v ===== *)
(** Model of the second half of [render], the script in the page that
    porcupine/visualization.go writes: what is drawn, and how the page reacts to the
    mouse. *)

From stdpp Require Import sorting gmap.
From S2P Require Import Prelude GoStd PorcupineModel Visualize VisLayout.

#[local] Open Scope Z_scope.
#[local] Open Scope go_scope.

Module VisPage.
Export VisLayout.

(** ** Drawing *)

Section drawing.
Context {Num : Type} `{JsNumber Num}.
Implicit Types (ev : event Num) (evs : list (event Num)) (lin : list linearizationStep).

(** A history rectangle of height [BOX_HEIGHT]; vertical coordinates are integers. *)
Record rect := mkRect { rc_x : option Num; rc_y : Z; rc_width : option Num }.

Definition client_y (c : Z) : Z := PADDING + c * (BOX_HEIGHT + BOX_SPACE).

Definition draw_box (xPos : object Num (option Num)) ev : rect :=
  let rx := xget xPos (ev_Start ev) in
  let width := e ← xget xPos (ev_End ev); s ← rx; Some (nsub e s) in
  let x := num_add (num_add rx (of_int XOFF)) (of_int PADDING) in
  mkRect x (client_y (he_ClientId (ev_el ev))) width.

(** A line of a linearization: a point or the link from the previous point. *)
Record line := mkLine {
  li_x1 : option Num; li_x2 : option Num; li_y1 : Z; li_y2 : Z;
  li_invalid : bool;
  li_point : bool;
}.

(** [prevX], [prevY] and the client of [prevEl]; all are set together. *)
Record pen := mkPen { pen_x : option Num; pen_y : Z; pen_client : Z }.

Definition point_x (xPos : object Num (option Num)) (prev : option pen) ev : option Num :=
  let hereX := x ← xget xPos (ev_Start ev); Some (nadd (of_int (PADDING + XOFF)) x) in
  match prev with
  | Some p => Math_max hereX (num_add (pen_x p) (of_int EPSILON))
  | None => hereX
  end.

Definition point_y ev : Z := client_y (he_ClientId (ev_el ev)) - LINE_BLEED.

Definition link (p : pen) (x : option Num) (ev : event Num) (invalid : bool) : line :=
  let c := he_ClientId (ev_el ev) in
  let y := point_y ev in
  mkLine (pen_x p) x
    (if pen_client p >=? c then pen_y p else pen_y p + BOX_HEIGHT + 2 * LINE_BLEED)
    (if pen_client p <=? c then y else y + BOX_HEIGHT + 2 * LINE_BLEED) invalid false.

Definition stroke (x : option Num) (ev : event Num) (invalid : bool) : line :=
  let y := point_y ev in mkLine x x y (y + BOX_HEIGHT + 2 * LINE_BLEED) invalid true.

(** The points of a linearization, each with its link; [None] is a TypeError. *)
Fixpoint draw_points (evs : list (event Num)) (xPos : object Num (option Num)) (lin : list linearizationStep)
    (prev : option pen) : option (list line * option pen) :=
  match lin with
  | [] => Some ([], prev)
  | step :: lin =>
      ev ← evs.[ls_Index step];
      let x := point_x xPos prev ev in
      '(lines, last_pen) ← draw_points evs xPos lin (Some (mkPen x (point_y ev) (he_ClientId (ev_el ev))));
      Some (match prev with Some p => [link p x ev false] | None => [] end ++ stroke x ev false :: lines, last_pen)
  end.

(** [errorPoints]: where it is, the linearization (of a partition) it is drawn with,
    and the last operation before it. *)
Record error_point := mkErrorPoint {
  er_x : option Num;
  er_partition : nat;
  er_lin : nat;
  er_index : Z;
}.

(** [illegalLast], [largestIllegal] and [largestIllegalLength] of one partition. *)
Record illegal := mkIllegal {
  il_last : list (list Z);
  il_largest : gmap Z nat;
  il_length : gmap Z Z;
}.

Definition note_illegal (linIndex : nat) (n : Z) (il : gmap Z nat * gmap Z Z) (index : Z) : gmap Z nat * gmap Z Z :=
  let '(largest, len) := il in
  if decide (len !! index = None ∨ default 0 (len !! index) < n) then (<[index := linIndex]> largest, <[index := n]> len)
  else il.

(** One illegal next operation: [prevEl['ClientId']] is a TypeError when nothing has
    been drawn yet. *)
Definition draw_try (xPos : object Num (option Num)) (partition linIndex : nat) (lin : list linearizationStep)
    (prev : option pen) (e : Z * event Num) : option (list line * error_point) :=
  let x := point_x xPos prev e.2 in
  p ← prev; l ← last lin;
  Some ([link p x e.2 true; stroke x e.2 true], mkErrorPoint x partition linIndex (ls_Index l)).

Definition draw_lin (evs : list (event Num)) (xPos : object Num (option Num)) (partition linIndex : nat)
    (lin : list linearizationStep) : option (list line * list error_point * list Z) :=
  '(lines, prev) ← draw_points evs xPos lin None;
  let ts := tries evs lin in
  drawn ← mapM (draw_try xPos partition linIndex lin prev) ts;
  Some (lines ++ concat drawn.*1, drawn.*2, ts.*1).

Fixpoint draw_lins (evs : list (event Num)) (xPos : object Num (option Num)) (partition linIndex : nat)
    (ls : list (list linearizationStep)) (il : illegal) : option (list (list line) * list error_point * illegal) :=
  match ls with
  | [] => Some ([], [], il)
  | lin :: ls =>
      '(lines, errors, indexes) ← draw_lin evs xPos partition linIndex lin;
      let '(largest, len) := foldl (note_illegal linIndex (zlen lin)) (il_largest il, il_length il) indexes in
      '(groups, errors', il) ←
        draw_lins evs xPos partition (S linIndex) ls (mkIllegal (il_last il ++ [indexes]) largest len);
      Some (lines :: groups, errors ++ errors', il)
  end.

Fixpoint draw_partitions (xPos : object Num (option Num)) (partition : nat) (data : list partitionVisualizationData)
    (evss : list (list (event Num))) : option (list (list (list line)) * list error_point * list illegal) :=
  match data, evss with
  | p :: data, evs :: evss =>
      '(groups, errors, il) ← draw_lins evs xPos partition 0 (pv_PartialLinearizations p) (mkIllegal [] ∅ ∅);
      '(groupss, errors', ils) ← draw_partitions xPos (S partition) data evss;
      Some (groups :: groupss, errors ++ errors', il :: ils)
  | _, _ => Some ([], [], [])
  end.

(** [errorPoints.sort((a, b) => a.x - b.x)]; a difference that is NaN counts as 0. *)
Definition err_le (a b : error_point) : Prop :=
  match er_x a, er_x b with Some x, Some y => nle x y | _, _ => True end.

#[export] Instance err_le_dec : RelDecision err_le.
Proof. intros a b. unfold err_le. destruct (er_x a), (er_x b); apply _. Defined.

(** The page: its data and what is drawn. *)
Record page := mkPage {
  pg_data : list partitionVisualizationData;
  pg_events : list (list (event Num));
  pg_boxes : list (list rect);
  pg_groups : list (list (list line));
  pg_errors : list error_point;
  pg_illegal : list illegal;
  pg_height : Z;
  pg_width : option Num;
}.

Context (getBBox_width : string → Num).

Definition page_height (data : list partitionVisualizationData) : Z :=
  let nClient := max_client data + 1 in
  2 * PADDING + BOX_HEIGHT * nClient + BOX_SPACE * (nClient - 1).

(** Without timestamps the script has stored 0 under the key [undefined]. *)
Definition page_width (L : layout Num) : option Num :=
  let right := match last (lo_sorted L) with Some t => xget (lo_xPos L) t | None => Some (of_int 0) end in
  x ← right; Some (nadd (of_int (2 * PADDING + XOFF)) x).

Definition render (data : list partitionVisualizationData) : option page :=
  L ← compute_layout getBBox_width data;
  '(groups, errors, ils) ← draw_partitions (lo_xPos L) 0 data (lo_events L);
  Some (mkPage data (lo_events L) (map (map (draw_box (lo_xPos L))) (lo_events L)) groups (merge_sort err_le errors) ils
    (page_height data) (page_width L)).
End drawing.

Arguments rect : clear implicits.
Arguments line : clear implicits.
Arguments pen : clear implicits.
Arguments error_point : clear implicits.
Arguments page : clear implicits.

(** ** The page and the mouse *)

Section ui.
Context {Num : Type} `{JsNumber Num} (pg : page Num).

(** What the tooltip says: states before and after, times of call and return. *)
Inductive tooltip :=
| NoTooltip
| OtherPartition
| NotInAny
| SelectedNotInAny
| NewState (previous : option string) (state : string) (call ret : Num)
| InvalidOp (previous : string) (call ret : Num)
| NotInSelected.

(** The variables of the script and the classes of the elements it changes. *)
Record ui := mkUi {
  ui_selected : bool;
  ui_selectedIndex : Z * Z;
  ui_historyHidden : list bool;
  ui_partialHidden : list (list bool);
  ui_rectSelected : list (list bool);
  ui_inactive : bool;
  ui_onclick : option (error_point Num);
  ui_opacity : bool;
  ui_lastTooltip : option (Z * Z * bool * Z * Z);
  ui_tooltip : tooltip;
}.

Definition set_selected b ix u := mkUi b ix (ui_historyHidden u) (ui_partialHidden u) (ui_rectSelected u) (ui_inactive u) (ui_onclick u) (ui_opacity u) (ui_lastTooltip u) (ui_tooltip u).
Definition set_hidden hh ph u := mkUi (ui_selected u) (ui_selectedIndex u) hh ph (ui_rectSelected u) (ui_inactive u) (ui_onclick u) (ui_opacity u) (ui_lastTooltip u) (ui_tooltip u).
Definition set_rects rs u := mkUi (ui_selected u) (ui_selectedIndex u) (ui_historyHidden u) (ui_partialHidden u) rs (ui_inactive u) (ui_onclick u) (ui_opacity u) (ui_lastTooltip u) (ui_tooltip u).
Definition set_jump ina oc u := mkUi (ui_selected u) (ui_selectedIndex u) (ui_historyHidden u) (ui_partialHidden u) (ui_rectSelected u) ina oc (ui_opacity u) (ui_lastTooltip u) (ui_tooltip u).
Definition set_opacity b u := mkUi (ui_selected u) (ui_selectedIndex u) (ui_historyHidden u) (ui_partialHidden u) (ui_rectSelected u) (ui_inactive u) (ui_onclick u) b (ui_lastTooltip u) (ui_tooltip u).
Definition set_tooltip lt tt u := mkUi (ui_selected u) (ui_selectedIndex u) (ui_historyHidden u) (ui_partialHidden u) (ui_rectSelected u) (ui_inactive u) (ui_onclick u) (ui_opacity u) lt tt.

(** [layers[partition][index].classList] gets or loses a class; [None] is a TypeError. *)
Definition set_class (b : bool) (p i : Z) (rows : list (list bool)) : option (list (list bool)) :=
  row ← rows.[p]; row ← row.[i <- b]; rows.[p <- row].

Definition linearizationIndex (partition index : Z) : option (option Z) :=
  p ← (pg_data pg).[partition];
  match pv_Largest p !! index with
  | Some l => Some (Some l)
  | None => il ← (pg_illegal pg).[partition]; Some (Z.of_nat <$> il_largest il !! index)
  end.

(** The group that a point is drawn in is not hidden. *)
Definition shown (ph : list (list bool)) (e : error_point Num) : bool :=
  negb (default true (row ← ph !! er_partition e; row !! er_lin e)).

Definition updateJump (u : ui) : ui :=
  match head (filter (λ e, shown (ui_partialHidden u) e = true) (pg_errors pg)) with
  | Some e => set_jump false (Some e) u
  | None => set_jump true (ui_onclick u) u
  end.

Definition highlight (partition index : Z) (u : ui) : option ui :=
  let hh := imap (λ i _, bool_decide (Z.of_nat i ≠ partition)) (ui_historyHidden u) in
  let ph := map (map (λ _, true)) (ui_partialHidden u) in
  maxIndex ← linearizationIndex partition index;
  ph ← match maxIndex with Some l => set_class false partition l ph | None => Some ph end;
  Some (updateJump (set_hidden hh ph u)).

Definition resetHighlight (u : ui) : ui :=
  let hh := map (λ _, false) (ui_historyHidden u) in
  let ph := map (imap (λ i _, bool_decide (i ≠ 0%nat))) (ui_partialHidden u) in
  updateJump (set_hidden hh ph u).

Definition select (partition index : Z) (u : ui) : option ui :=
  u ← highlight partition index (set_selected true (partition, index) u);
  rs ← set_class true partition index (ui_rectSelected u);
  Some (set_rects rs u).

Definition deselect (u : ui) : option ui :=
  if negb (ui_selected u) then Some u
  else
    let u := resetHighlight (set_selected false (ui_selectedIndex u) u) in
    rs ← set_class false (ui_selectedIndex u).1 (ui_selectedIndex u).2 (ui_rectSelected u);
    Some (set_rects rs u).

Definition handleMouseOver (partition index : Z) (u : ui) : option ui :=
  u ← (if negb (ui_selected u) then highlight partition index u else Some u);
  Some (set_opacity true u).

(** The search for [index] in a linearization: the step before it and its own. *)
Fixpoint find_step (prev : option linearizationStep) (lin : list linearizationStep) (index : Z) :
    option (option linearizationStep * linearizationStep) :=
  match lin with
  | [] => None
  | curr :: lin => if ls_Index curr =? index then Some (prev, curr) else find_step (Some curr) lin index
  end.

Definition message (partition index : Z) (u : ui) : option tooltip :=
  let '(sPartition, sIndex) := ui_selectedIndex u in
  maxIndex ← (if negb (ui_selected u) then linearizationIndex partition index else linearizationIndex sPartition sIndex);
  if ui_selected u && negb (sPartition =? partition) then Some OtherPartition
  else
    match maxIndex with
    | None => Some (if negb (ui_selected u) then NotInAny else SelectedNotInAny)
    | Some m =>
        p ← (pg_data pg).[partition]; lin ← (pv_PartialLinearizations p).[m];
        evs ← (pg_events pg).[partition]; ev ← evs.[index];
        let call := ev_Start ev in
        let ret := ev_OriginalEnd ev in
        match find_step None lin index with
        | Some (prev, curr) => Some (NewState (ls_StateDescription <$> prev) (ls_StateDescription curr) call ret)
        | None =>
            il ← (pg_illegal pg).[partition]; indexes ← (il_last il).[m];
            if decide (index ∈ indexes) then l ← last lin; Some (InvalidOp (ls_StateDescription l) call ret)
            else Some NotInSelected
        end
    end.

Definition handleMouseMove (partition index : Z) (u : ui) : option ui :=
  let thisTooltip := (partition, index, ui_selected u, (ui_selectedIndex u).1, (ui_selectedIndex u).2) in
  if decide (ui_lastTooltip u = Some thisTooltip) then Some u
  else m ← message partition index u; Some (set_tooltip (Some thisTooltip) m u).

Definition handleMouseOut (u : ui) : ui :=
  let u := if negb (ui_selected u) then resetHighlight u else u in
  set_tooltip None (ui_tooltip u) (set_opacity false u).

Definition handleClick (partition index : Z) (u : ui) : option ui :=
  if ui_selected u then
    let '(sPartition, sIndex) := ui_selectedIndex u in
    if (partition =? sPartition) && (index =? sIndex) then deselect u
    else
      rs ← set_class false sPartition sIndex (ui_rectSelected u);
      select partition index (set_rects rs u)
  else select partition index u.

(** A click on the link, which is not displayed while it is inactive. *)
Definition jump (u : ui) : option ui :=
  if ui_inactive u then Some u
  else
    match ui_onclick u with
    | Some e => if negb (ui_selected u) then select (Z.of_nat (er_partition e)) (er_index e) u else Some u
    | None => Some u
    end.

Inductive mouse :=
| Over (partition index : Z)
| Move (partition index : Z)
| Out
| Click (partition index : Z)
| BgClick
| Jump.

Definition handle (m : mouse) (u : ui) : option ui :=
  match m with
  | Over p i => handleMouseOver p i u
  | Move p i => handleMouseMove p i u
  | Out => Some (handleMouseOut u)
  | Click p i => handleClick p i u
  | BgClick => deselect u
  | Jump => jump u
  end.

Fixpoint handle_all (ms : list mouse) (u : ui) : option ui :=
  match ms with
  | [] => Some u
  | m :: ms => u ← handle m u; handle_all ms u
  end.

(** The page as [render] leaves it. *)
Definition start_ui : ui :=
  handleMouseOut (mkUi false (-1, -1) (map (λ _, false) (pg_data pg)) (map (map (λ _, false)) (pg_groups pg))
                       (map (map (λ _, false)) (pg_boxes pg)) false None true None NoTooltip).
End ui.
End VisPage.
