(* ===== verification/VisPageSpec.v ===== *)
(** What the page of VisPage.v promises: its reactions to the mouse implement a state
    machine with three kinds of states, and what is drawn is where it belongs. *)

From Stdlib Require Import QArith.Qcanon.
From stdpp Require Import sorting gmap.
From S2P Require Import Prelude GoStd Bitset PorcupineModel Linearize NodeList Checker CheckerProof Parallel ParallelProof History Kv KvProof Visualize PorcupineSpec VisLayout VisLayoutProof VisScanProof VisLayoutSpec VisCheckSpec VisPage.

#[local] Open Scope Z_scope.
#[local] Open Scope go_scope.

Module VisPageSpec.
Export VisCheckSpec VisPage.

(** ** Tables of classes *)

(** A table with the shape of [g] and [f k l] in row [k], column [l]. *)
Definition grid {A B} (f : nat → nat → B) (g : list (list A)) : list (list B) :=
  imap (λ k row, imap (λ l _, f k l) row) g.

Lemma grid_lookup {A B} (f : nat → nat → B) (g : list (list A)) k l :
  (row ← grid f g !! k; row !! l) = (row ← g !! k; (λ _, f k l) <$> row !! l).
Proof. unfold grid. rewrite list_lookup_imap. destruct (g !! k); simpl; [by rewrite list_lookup_imap|done]. Qed.

Lemma grid_ext {A B} (f f' : nat → nat → B) (g : list (list A)) : (∀ k l, f k l = f' k l) → grid f g = grid f' g.
Proof. intros Hf. apply imap_ext. intros k row _. apply imap_ext. intros l x _. apply Hf. Qed.

Lemma grid_map {A B} (f : nat → nat → B) (b : B) (g : list (list A)) : map (map (λ _, b)) (grid f g) = grid (λ _ _, b) g.
Proof.
  unfold grid. change (map (map (λ _, b))) with (fmap (M:=list) (fmap (M:=list) (λ _ : B, b))). rewrite fmap_imap.
  apply imap_ext. intros k row _. simpl. by rewrite fmap_imap.
Qed.

Lemma grid_imap {A B} (f : nat → nat → B) (h : nat → B) (g : list (list A)) :
  map (imap (λ l _, h l)) (grid f g) = grid (λ _ l, h l) g.
Proof.
  unfold grid. change (map (imap (λ l _, h l))) with (fmap (M:=list) (imap (λ l (_ : B), h l))). rewrite fmap_imap.
  apply imap_ext. intros k row _. simpl. apply list_eq. intros l. rewrite !list_lookup_imap. by destruct (row !! l).
Qed.

Lemma grid_const {A B} (b : B) (g : list (list A)) : map (map (λ _, b)) g = grid (λ _ _, b) g.
Proof.
  unfold grid. apply list_eq. intros k. rewrite list_lookup_imap. change (map (map (λ _ : A, b)) g) with (map (λ _ : A, b) <$> g).
  rewrite list_lookup_fmap. destruct (g !! k) as [row|]; simpl; [|done]. f_equal. apply list_eq. intros l.
  rewrite list_lookup_imap. change (map (λ _ : A, b) row) with ((λ _ : A, b) <$> row). by rewrite list_lookup_fmap.
Qed.

(** A cell that exists. *)
Definition cell {A} (g : list (list A)) (p i : Z) : Prop := ∃ row, g.[p] = Some row ∧ 0 <= i < zlen row.

Lemma set_class_grid {A} b p i (f : nat → nat → bool) (g : list (list A)) :
  cell g p i →
  set_class b p i (grid f g) = Some (grid (λ k l, if decide (Z.of_nat k = p ∧ Z.of_nat l = i) then b else f k l) g).
Proof.
  intros (row & Hrow & Hi). pose proof (zlookup_lt_Some _ _ _ Hrow) as Hp. rewrite zlookup_pos in Hrow by lia.
  assert ((grid f g).[p] = Some (imap (λ l _, f (Z.to_nat p) l) row)) as Hg.
  { unfold grid. rewrite zlookup_pos, list_lookup_imap by lia. by rewrite Hrow. }
  unfold set_class. rewrite Hg. simpl.
  assert (zlen (imap (λ l (_ : A), f (Z.to_nat p) l) row) = zlen row) as Hlen by (unfold zlen; by rewrite length_imap).
  rewrite (proj2 (zupdate_Some _ _ _ _)) by (split; [by rewrite Hlen|done]). simpl.
  apply zupdate_Some. split; [unfold zlen, grid in *; by rewrite length_imap|]. apply list_eq. intros k. unfold grid.
  destruct (decide (k = Z.to_nat p)) as [->|Hk].
  - rewrite list_lookup_insert_eq by (rewrite length_imap; unfold zlen in Hp; lia). rewrite list_lookup_imap, Hrow. simpl. f_equal.
    apply list_eq. intros l. rewrite list_lookup_imap. destruct (decide (l = Z.to_nat i)) as [->|Hl].
    + rewrite list_lookup_insert_eq by (rewrite length_imap; unfold zlen in Hi; lia).
      destruct (lookup_lt_is_Some_2 row (Z.to_nat i)) as [x ->]; [unfold zlen in Hi; lia|]. simpl. by rewrite decide_True by lia.
    + rewrite list_lookup_insert_ne, list_lookup_imap by done. destruct (row !! l); simpl; [|done]. by rewrite decide_False by lia.
  - rewrite list_lookup_insert_ne by done. rewrite !list_lookup_imap. destruct (g !! k) as [row'|]; simpl; [|done]. f_equal.
    apply imap_ext. intros l x _. by rewrite decide_False by lia.
Qed.

(** ** The state machine *)

(** Nothing is picked, the mouse is over an operation, or one is selected. *)
Inductive mode :=
| Idle
| Hover (partition index : Z)
| Selected (partition index : Z).

#[export] Instance mode_eq_dec : EqDecision mode.
Proof. solve_decision. Defined.

Definition focus (md : mode) : option (Z * Z) :=
  match md with Idle => None | Hover p i | Selected p i => Some (p, i) end.

Section machine.
Context {Num : Type} `{JsNumber Num} (pg : page Num).
Implicit Types (u : ui (Num:=Num)) (md : mode) (fo : option (Z * Z)) (p i : Z) (k l : nat) (m : mouse).

(** With an operation picked, only its partition and the linearization it belongs to
    are shown; without, every partition and its first linearization. *)
Definition history_hidden fo k : bool :=
  match fo with None => false | Some (p, _) => bool_decide (Z.of_nat k ≠ p) end.
Definition visible fo k l : bool :=
  match fo with
  | None => bool_decide (l = 0%nat)
  | Some (p, i) => bool_decide (Z.of_nat k = p ∧ linearizationIndex pg p i = Some (Some (Z.of_nat l)))
  end.

Definition history_view fo : list bool := imap (λ k _, history_hidden fo k) (pg_data pg).
Definition partial_view fo : list (list bool) := grid (λ k l, negb (visible fo k l)) (pg_groups pg).
Definition rect_view md : list (list bool) :=
  grid (λ k l, bool_decide (md = Selected (Z.of_nat k) (Z.of_nat l))) (pg_boxes pg).
Definition first_error fo : option (error_point Num) :=
  head (filter (λ e, shown (partial_view fo) e = true) (pg_errors pg)).

Record shows md u : Prop := mkShows {
  sh_selected : match md with
                | Selected p i => ui_selected u = true ∧ ui_selectedIndex u = (p, i)
                | _ => ui_selected u = false
                end;
  sh_history : ui_historyHidden u = history_view (focus md);
  sh_partial : ui_partialHidden u = partial_view (focus md);
  sh_rects : ui_rectSelected u = rect_view md;
  sh_inactive : ui_inactive u = bool_decide (first_error (focus md) = None);
  sh_onclick : ∀ e, first_error (focus md) = Some e → ui_onclick u = Some e;
}.

Definition next_mode md m : mode :=
  match m, md with
  | Over _ _, Selected _ _ => md
  | Over p i, _ => Hover p i
  | Move _ _, _ => md
  | Out, Selected _ _ => md
  | Out, _ => Idle
  | Click p i, _ => if decide (md = Selected p i) then Idle else Selected p i
  | BgClick, Selected _ _ => Idle
  | BgClick, _ => md
  | Jump, Selected _ _ => md
  | Jump, _ => match first_error (focus md) with
               | Some e => Selected (Z.of_nat (er_partition e)) (er_index e)
               | None => md
               end
  end.

(** An operation that is drawn. *)
Definition target p i : Prop := ∃ d, (pg_data pg).[p] = Some d ∧ 0 <= i < zlen (pv_History d).

Definition aims m : Prop :=
  match m with Over p i | Move p i | Click p i => target p i | _ => True end.

(** The tables of the page fit together. *)
Record partition_ok p (d : partitionVisualizationData) : Prop := mkPartitionOk {
  pk_events : ∃ evs, (pg_events pg).[p] = Some evs ∧ zlen evs = zlen (pv_History d);
  pk_boxes : ∃ boxes, (pg_boxes pg).[p] = Some boxes ∧ zlen boxes = zlen (pv_History d);
  pk_groups : ∃ groups, (pg_groups pg).[p] = Some groups ∧ zlen groups = zlen (pv_PartialLinearizations d);
  pk_illegal : ∃ il, (pg_illegal pg).[p] = Some il ∧ zlen (il_last il) = zlen (pv_PartialLinearizations d) ∧
    ∀ i l, il_largest il !! i = Some l → Z.of_nat l < zlen (pv_PartialLinearizations d);
  pk_largest : ∀ i (l : Z), pv_Largest d !! i = Some l → 0 <= l < zlen (pv_PartialLinearizations d);
  pk_nonempty : ∀ lin, lin ∈ pv_PartialLinearizations d → lin ≠ [];
}.

Record page_ok : Prop := mkPageOk {
  po_partition : ∀ p d, (pg_data pg).[p] = Some d → partition_ok p d;
  po_errors : ∀ e, e ∈ pg_errors pg → target (Z.of_nat (er_partition e)) (er_index e);
}.

Context (Hpg : page_ok).

Lemma index_total p i :
  target p i → ∃ r, linearizationIndex pg p i = Some r ∧
    ∀ l : Z, r = Some l → cell (pg_groups pg) p l ∧ ∃ d, (pg_data pg).[p] = Some d ∧ 0 <= l < zlen (pv_PartialLinearizations d).
Proof.
  intros (d & Hd & _). destruct (po_partition Hpg p d Hd) as [_ _ (gs & Hgs & Hlen) (il & Hil & _ & Hla) Hlg _].
  unfold linearizationIndex. rewrite Hd. simpl.
  assert (∀ l : Z, 0 <= l < zlen (pv_PartialLinearizations d) →
    cell (pg_groups pg) p l ∧ ∃ d', Some d = Some d' ∧ 0 <= l < zlen (pv_PartialLinearizations d')) as Hc.
  { intros l Hl. split; [exists gs; split; [done|lia]|by exists d]. }
  destruct (pv_Largest d !! i) as [l|] eqn:Hl; [exists (Some l); split; [done|]; intros ? [= <-]; by eapply Hc, Hlg|].
  rewrite Hil. simpl. eexists. split; [done|]. intros l (l' & Hl' & ->)%fmap_Some. apply Hc. specialize (Hla _ _ Hl'). lia.
Qed.

Lemma box_cell p i : target p i → cell (pg_boxes pg) p i.
Proof. intros (d & Hd & Hi). destruct (pk_boxes _ _ (po_partition Hpg p d Hd)) as (bs & Hbs & Hlen). exists bs. split; [done|lia]. Qed.

(** [updateJump] finds the first error that is shown. *)
Lemma updateJump_shows fo u :
  ui_partialHidden u = partial_view fo →
  let u' := updateJump pg u in
  ui_inactive u' = bool_decide (first_error fo = None) ∧ (∀ e, first_error fo = Some e → ui_onclick u' = Some e) ∧
  ui_selected u' = ui_selected u ∧ ui_selectedIndex u' = ui_selectedIndex u ∧ ui_historyHidden u' = ui_historyHidden u ∧
  ui_partialHidden u' = ui_partialHidden u ∧ ui_rectSelected u' = ui_rectSelected u.
Proof.
  intros Hp. unfold updateJump, first_error. rewrite Hp. destruct (head (filter _ (pg_errors pg))) as [e|]; simpl; split_and!; try done.
Qed.

(** The layers are those of [fo]. *)
Record layers fo u : Prop := mkLayers {
  ly_history : ui_historyHidden u = history_view fo;
  ly_partial : ui_partialHidden u = partial_view fo;
}.

Lemma resetHighlight_shows fo u :
  layers fo u → resetHighlight pg u = updateJump pg (set_hidden (history_view None) (partial_view None) u).
Proof.
  intros [Hh Hp]. unfold resetHighlight. do 2 f_equal.
  - rewrite Hh. unfold history_view. change (map (λ _, false)) with (fmap (M:=list) (λ _ : bool, false)). by rewrite fmap_imap.
  - rewrite Hp. unfold partial_view. rewrite (grid_imap _ (λ l, bool_decide (l ≠ 0%nat))). apply grid_ext. intros k l. simpl.
    by rewrite bool_decide_not.
Qed.

Lemma highlight_shows fo u p i :
  layers fo u → target p i →
  highlight pg p i u = Some (updateJump pg (set_hidden (history_view (Some (p, i))) (partial_view (Some (p, i))) u)).
Proof.
  intros [Hh Hp] Ht. unfold highlight. destruct (index_total p i Ht) as (r & Hr & Hcell). rewrite Hr. simpl.
  assert (imap (λ k (_ : bool), bool_decide (Z.of_nat k ≠ p)) (ui_historyHidden u) = history_view (Some (p, i))) as ->.
  { rewrite Hh. unfold history_view. apply list_eq. intros k. rewrite !list_lookup_imap. by destruct (pg_data pg !! k). }
  assert (map (map (λ _, true)) (ui_partialHidden u) = grid (λ _ _, true) (pg_groups pg)) as -> by (rewrite Hp; apply grid_map).
  assert ((match r with
    | Some l => set_class false p l (grid (λ _ _, true) (pg_groups pg))
    | None => Some (grid (λ _ _, true) (pg_groups pg))
    end) = Some (partial_view (Some (p, i)))) as ->; [|done].
  destruct r as [l|]; [rewrite set_class_grid by (by apply Hcell)|]; f_equal; apply grid_ext; intros k j; simpl; rewrite Hr.
  - case_decide as Hd; case_bool_decide as Hb; try done.
    + exfalso. apply Hb. destruct Hd as [? <-]. done.
    + exfalso. apply Hd. destruct Hb as [? [= <-]]. done.
  - by case_bool_decide as Hb; [destruct Hb|].
Qed.

Lemma shows_layers md u : shows md u → layers (focus md) u.
Proof. by intros [_ ? ? _ _ _]. Qed.

Lemma rect_set b md md' p i :
  target p i →
  (∀ k l, (if decide (Z.of_nat k = p ∧ Z.of_nat l = i) then b else bool_decide (md = Selected (Z.of_nat k) (Z.of_nat l))) =
     bool_decide (md' = Selected (Z.of_nat k) (Z.of_nat l))) →
  set_class b p i (rect_view md) = Some (rect_view md').
Proof.
  intros Ht Hf. unfold rect_view. rewrite set_class_grid by (by apply box_cell). f_equal. by apply grid_ext.
Qed.

(** No rectangle is marked unless an operation is selected. *)
Lemma rect_none md md' : (∀ p i, md ≠ Selected p i) → (∀ p i, md' ≠ Selected p i) → rect_view md = rect_view md'.
Proof. intros Hm Hm'. apply grid_ext. intros k l. by rewrite !bool_decide_eq_false_2. Qed.

Lemma select_shows fo md u p i :
  layers fo u → (∀ p i, md ≠ Selected p i) → ui_rectSelected u = rect_view md → target p i →
  ∃ u', select pg p i u = Some u' ∧ shows (Selected p i) u'.
Proof.
  intros Hl Hmd Hr Ht. unfold select.
  rewrite (highlight_shows fo (set_selected true (p, i) u) p i) by (by destruct Hl). simpl.
  edestruct (updateJump_shows (Some (p, i)) (set_hidden (history_view (Some (p, i))) (partial_view (Some (p, i))) (set_selected true (p, i) u)))
    as (Hj1 & Hj2 & Hs1 & Hs2 & Hs3 & Hs4 & Hs5); [done|]. rewrite Hs5. simpl. rewrite Hr.
  rewrite (rect_set true md (Selected p i) p i Ht).
  - simpl. eexists. split; [done|]. by split; simpl; rewrite ?Hs1, ?Hs2, ?Hs3, ?Hs4.
  - intros k l. rewrite (bool_decide_eq_false_2 (md = _)) by done. case_decide as Hd.
    + symmetry. apply bool_decide_eq_true_2. by destruct Hd as [-> ->].
    + symmetry. apply bool_decide_eq_false_2. intros [= -> ->]. by apply Hd.
Qed.

Lemma hover_shows u md p i :
  shows md u → (∀ p i, md ≠ Selected p i) → target p i →
  ∃ u', highlight pg p i u = Some u' ∧ shows (Hover p i) u'.
Proof.
  intros Hs Hmd Ht. rewrite (highlight_shows _ _ _ _ (shows_layers _ _ Hs) Ht). eexists. split; [done|].
  edestruct (updateJump_shows (Some (p, i)) (set_hidden (history_view (Some (p, i))) (partial_view (Some (p, i))) u))
    as (Hj1 & Hj2 & Hs1 & Hs2 & Hs3 & Hs4 & Hs5); [done|]. split; try done.
  - rewrite Hs1. simpl. destruct Hs as [Hsel _ _ _ _ _]. by destruct md; [| |by destruct (Hmd partition index)].
  - rewrite Hs5. simpl. rewrite (sh_rects _ _ Hs). by apply rect_none.
Qed.

Lemma idle_shows u fo md :
  layers fo u → ui_selected u = false → ui_rectSelected u = rect_view md → (∀ p i, md ≠ Selected p i) →
  shows Idle (resetHighlight pg u).
Proof.
  intros Hl Hsel Hr Hmd. rewrite (resetHighlight_shows fo u Hl).
  edestruct (updateJump_shows None (set_hidden (history_view None) (partial_view None) u))
    as (Hj1 & Hj2 & Hs1 & Hs2 & Hs3 & Hs4 & Hs5); [done|]. split; try done; [by rewrite Hs1|].
  rewrite Hs5. simpl. rewrite Hr. by apply rect_none.
Qed.

Lemma deselect_shows u p i :
  shows (Selected p i) u → target p i → ∃ u', deselect pg u = Some u' ∧ shows Idle u'.
Proof.
  intros Hs Ht. destruct (sh_selected _ _ Hs) as [Hsel Hix]. unfold deselect. rewrite Hsel. simpl. rewrite Hix.
  set (u1 := set_selected false (p, i) u). assert (layers (Some (p, i)) u1) as Hl by (destruct (shows_layers _ _ Hs); done).
  rewrite (resetHighlight_shows _ _ Hl).
  edestruct (updateJump_shows None (set_hidden (history_view None) (partial_view None) u1))
    as (Hj1 & Hj2 & Hs1 & Hs2 & Hs3 & Hs4 & Hs5); [done|]. rewrite Hs2, Hs5. simpl. rewrite (sh_rects _ _ Hs).
  rewrite (rect_set false (Selected p i) Idle p i Ht).
  - simpl. eexists. split; [done|]. by split; simpl; rewrite ?Hs1, ?Hs3, ?Hs4.
  - intros k l. rewrite (bool_decide_eq_false_2 (Idle = _)) by done. case_decide as Hd; [done|].
    apply bool_decide_eq_false_2. intros [= -> ->]. by apply Hd.
Qed.
(** The operation of a mode is one that is drawn. *)
Definition mode_ok md : Prop := ∀ p i, focus md = Some (p, i) → target p i.

Lemma first_error_target fo e : first_error fo = Some e → target (Z.of_nat (er_partition e)) (er_index e).
Proof.
  intros He. apply (po_errors Hpg). unfold first_error in He. apply head_Some_elem_of in He. by apply list_elem_of_filter in He as [_ ?].
Qed.

Lemma next_mode_ok md m : mode_ok md → aims m → mode_ok (next_mode md m).
Proof.
  intros Hok Ha p i. destruct m as [p' i'|p' i'| |p' i'| |], md; simpl in *; try done; try (by intros [= <- <-]); try (by apply Hok).
  all: try (case_decide; [done|by intros [= <- <-]]).
  all: destruct (first_error _) as [e|] eqn:He; try (by apply Hok); intros [= <- <-]; by eapply first_error_target.
Qed.

Lemma zlookup_total {A} (l : list A) i : 0 <= i < zlen l → ∃ x, l.[i] = Some x.
Proof. intros Hi. by apply zlookup_is_Some. Qed.

Lemma message_index p i (r : Z) u :
  target p i → (∃ d, (pg_data pg).[p] = Some d ∧ 0 <= r < zlen (pv_PartialLinearizations d)) →
  is_Some (d ← (pg_data pg).[p]; lin ← (pv_PartialLinearizations d).[r];
    evs ← (pg_events pg).[p]; ev ← evs.[i];
    match find_step None lin i with
    | Some (prev, curr) =>
        Some (NewState (ls_StateDescription <$> prev) (ls_StateDescription curr) (ev_Start ev) (ev_OriginalEnd ev))
    | None =>
        il ← (pg_illegal pg).[p]; indexes ← (il_last il).[r];
        if decide (i ∈ indexes) then l ← last lin; Some (InvalidOp (ls_StateDescription l) (ev_Start ev) (ev_OriginalEnd ev))
        else Some NotInSelected
    end).
Proof.
  intros (d & Hd & Hi) (d' & Hd' & Hr). rewrite Hd in Hd'. injection Hd' as <-.
  destruct (po_partition Hpg p d Hd) as [(evs & Hevs & Hle) _ _ (il & Hil & Hll & _) _ Hne]. rewrite Hd. simpl.
  destruct (zlookup_total (pv_PartialLinearizations d) r) as [lin Hlin]; [done|]. rewrite Hlin. simpl. rewrite Hevs. simpl.
  destruct (zlookup_total evs i) as [ev Hev]; [lia|]. rewrite Hev. simpl. destruct (find_step None lin i) as [[prev curr]|]; [by eexists|].
  rewrite Hil. simpl. destruct (zlookup_total (il_last il) r) as [ix Hix]; [lia|]. rewrite Hix. simpl. case_decide; [|by eexists].
  destruct (last lin) as [l|] eqn:Hl; [by eexists|]. apply last_None in Hl as ->. exfalso. apply (Hne []); [|done]. by eapply zlookup_elem.
Qed.

Lemma message_total md u p i : shows md u → mode_ok md → target p i → is_Some (message pg p i u).
Proof.
  intros Hs Hok Ht. unfold message. destruct (ui_selectedIndex u) as [sp si] eqn:Hix.
  destruct (index_total p i Ht) as (r & Hr & Hrc). destruct (ui_selected u) eqn:Hsel; simpl.
  - destruct md as [| |p' i']; pose proof (sh_selected _ _ Hs) as Hm; simpl in Hm; try congruence. destruct Hm as [_ Hm].
    rewrite Hix in Hm. injection Hm as -> ->. assert (target p' i') as Ht' by (by apply Hok).
    destruct (index_total p' i' Ht') as (r' & Hr' & Hrc'). rewrite Hr'. simpl.
    destruct (Z.eqb_spec p' p) as [->|]; simpl; [|by eexists]. destruct r' as [l|]; [|by eexists].
    apply (message_index p i l u Ht). by apply Hrc'.
  - rewrite Hr. simpl. destruct r as [l|]; [|by eexists]. apply (message_index p i l u Ht). by apply Hrc.
Qed.

Lemma shows_tooltip md u lt tt : shows md u → shows md (set_tooltip lt tt u).
Proof. intros []. by split. Qed.

Lemma shows_opacity md u b : shows md u → shows md (set_opacity b u).
Proof. intros []. by split. Qed.

Lemma not_selected md u : shows md u → ui_selected u = false → ∀ p i, md ≠ Selected p i.
Proof. intros Hs Hf p i ->. destruct (sh_selected _ _ Hs). congruence. Qed.

Lemma selected_cases md u :
  shows md u → (∃ p i, md = Selected p i ∧ ui_selected u = true ∧ ui_selectedIndex u = (p, i)) ∨
    ((∀ p i, md ≠ Selected p i) ∧ ui_selected u = false).
Proof. intros Hs. pose proof (sh_selected _ _ Hs) as Hm. destruct md as [| |p i]; [by right|by right|left]. destruct Hm. eauto 10. Qed.

(** Every handler returns, and does what the state machine says. *)
Lemma handle_shows md u m :
  shows md u → mode_ok md → aims m → ∃ u', handle pg m u = Some u' ∧ shows (next_mode md m) u'.
Proof.
  intros Hs Hok Ha. pose proof (shows_layers md u Hs) as Hl. destruct m as [p i|p i| |p i| |]; simpl in *.
  - unfold handleMouseOver. destruct (selected_cases md u Hs) as [(p' & i' & -> & Hsel & _)|[Hmd Hsel]]; rewrite Hsel; simpl.
    + eexists. split; [done|]. by apply shows_opacity.
    + destruct (hover_shows u md p i Hs Hmd Ha) as (u' & -> & Hs'). simpl. eexists. split; [done|].
      apply shows_opacity. by destruct md as [| |p' i']; [..|by destruct (Hmd p' i')].
  - unfold handleMouseMove. case_decide; [by exists u|]. destruct (message_total md u p i Hs Hok Ha) as [tt Htt]. rewrite Htt. simpl.
    eexists. split; [done|]. by apply shows_tooltip.
  - eexists. split; [done|]. unfold handleMouseOut.
    destruct (selected_cases md u Hs) as [(p' & i' & -> & Hsel & _)|[Hmd Hsel]]; rewrite Hsel; simpl; apply shows_tooltip, shows_opacity; [done|].
    assert (shows Idle (resetHighlight pg u)) as Hi by (eapply idle_shows; [done|done|apply (sh_rects _ _ Hs)|done]).
    by destruct md as [| |p' i']; [..|by destruct (Hmd p' i')].
  - unfold handleClick. destruct (selected_cases md u Hs) as [(p' & i' & -> & Hsel & Hix)|[Hmd Hsel]]; rewrite Hsel; simpl.
    + rewrite Hix. assert (target p' i') as Ht' by (by apply Hok). case_decide as Hd.
      * injection Hd as -> ->. rewrite !Z.eqb_refl. simpl. by apply (deselect_shows u p i).
      * assert ((p =? p') && (i =? i') = false) as ->.
        { destruct (Z.eqb_spec p p') as [->|]; [|done]. destruct (Z.eqb_spec i i') as [->|]; done. }
        rewrite (sh_rects _ _ Hs). rewrite (rect_set false (Selected p' i') Idle p' i' Ht').
        -- simpl. apply (select_shows (Some (p', i')) Idle); try done. by destruct Hl.
        -- intros k l. rewrite (bool_decide_eq_false_2 (Idle = _)) by done. case_decide as Hd2; [done|].
           apply bool_decide_eq_false_2. intros [= -> ->]. by apply Hd2.
    + rewrite decide_False by apply Hmd. apply (select_shows (focus md) md); try done. apply (sh_rects _ _ Hs).
  - destruct (selected_cases md u Hs) as [(p' & i' & -> & Hsel & _)|[Hmd Hsel]].
    + apply (deselect_shows u p' i'); [done|by apply Hok].
    + unfold deselect. rewrite Hsel. simpl. exists u. split; [done|]. by destruct md as [| |p' i']; [..|by destruct (Hmd p' i')].
  - unfold jump. rewrite (sh_inactive _ _ Hs). destruct (selected_cases md u Hs) as [(p' & i' & -> & Hsel & _)|[Hmd Hsel]].
    + exists u. split; [|done]. case_bool_decide; [done|]. destruct (ui_onclick u); [|done]. by rewrite Hsel.
    + assert (next_mode md Jump = match first_error (focus md) with
        | Some e => Selected (Z.of_nat (er_partition e)) (er_index e) | None => md end) as Hn.
      { destruct md as [| |p' i']; [done..|by destruct (Hmd p' i')]. }
      unfold next_mode in Hn. rewrite Hn. destruct (first_error (focus md)) as [e|] eqn:He; simpl; [|by exists u].
      rewrite (sh_onclick _ _ Hs e He), Hsel. simpl. apply (select_shows (focus md) md); try done; [apply (sh_rects _ _ Hs)|].
      by eapply first_error_target.
Qed.

(** The mode after a sequence of events. *)
Definition modes (ms : list mouse) md : mode := foldl next_mode md ms.

Lemma handle_all_shows ms md u :
  shows md u → mode_ok md → Forall aims ms → ∃ u', handle_all pg ms u = Some u' ∧ shows (modes ms md) u'.
Proof.
  revert md u. induction ms as [|m ms IH]; intros md u Hs Hok Ha; simpl; [by exists u|].
  apply Forall_cons in Ha as [Ha Has]. destruct (handle_shows md u m Hs Hok Ha) as (u1 & -> & Hs1). simpl.
  apply IH; [done|by apply next_mode_ok|done].
Qed.

Lemma start_shows : shows Idle (start_ui pg).
Proof.
  unfold start_ui, handleMouseOut. simpl. apply shows_tooltip, shows_opacity. set (u := mkUi _ _ _ _ _ _ _ _ _ _).
  unfold resetHighlight.
  assert (map (λ _ : bool, false) (ui_historyHidden u) = history_view None) as ->.
  { simpl. unfold history_view. rewrite map_map. apply list_eq. intros k. rewrite list_lookup_imap.
    change (map ?f ?l) with (f <$> l). by rewrite list_lookup_fmap. }
  assert (map (imap (λ l (_ : bool), bool_decide (l ≠ 0%nat))) (ui_partialHidden u) = partial_view None) as ->.
  { simpl. rewrite grid_const, grid_imap. apply grid_ext. intros k l. simpl. by rewrite bool_decide_not. }
  edestruct (updateJump_shows None (set_hidden (history_view None) (partial_view None) u))
    as (Hj1 & Hj2 & Hs1 & Hs2 & Hs3 & Hs4 & Hs5); [done|]. split; try done.
  rewrite Hs5. simpl. rewrite grid_const. apply grid_ext. intros k l. by rewrite bool_decide_eq_false_2.
Qed.
End machine.
End VisPageSpec.
