(* ===== verification/VisRenderSpec.v ===== *)
(** What [render] of VisPage.v draws: on the data of a real check the page exists,
    its points lie on the boxes of their operations, its reactions to the mouse are
    those of the state machine of VisPageSpec.v, and the link jumps to an error. *)

From Stdlib Require Import QArith.Qcanon.
From stdpp Require Import sorting gmap.
From S2P Require Import Prelude GoStd PorcupineModel Visualize VisLayout VisLayoutProof VisScanProof VisRange VisLayoutSpec VisCheckSpec VisPage VisPageSpec.

#[local] Open Scope Z_scope.
#[local] Open Scope go_scope.

Module VisRenderSpec.
Export VisPageSpec VisRange.

(** ** One linearization *)

Section drawing.
Context {Num : Type} `{JsNumberLaws Num}.
Implicit Types (ev : event Num) (evs : list (event Num)) (lin : list linearizationStep) (ln : line Num) (k : nat).

Abbreviation eps := (of_int EPSILON).
Abbreviation left_edge := (of_int (PADDING + XOFF)).

(** The points among the lines. *)
Definition strokes (lines : list (line Num)) : list (line Num) := filter (λ ln, li_point ln = true) lines.

(** The red ones: operations that would be illegal next. *)
Definition red_strokes (lines : list (line Num)) : list (line Num) := filter (λ ln, li_invalid ln = true) (strokes lines).

Lemma red_none lines : Forall (λ ln, li_invalid ln = false) (strokes lines) → red_strokes lines = [].
Proof.
  unfold red_strokes. induction 1 as [|ln ls Hln _ IH]; [done|]. rewrite filter_cons_False; [done|]. by rewrite Hln.
Qed.

Lemma red_all lines : Forall (λ ln, li_invalid ln = true) (strokes lines) → red_strokes lines = strokes lines.
Proof. unfold red_strokes. induction 1 as [|ln ls Hln _ IH]; [done|]. by rewrite filter_cons_True, IH. Qed.

(** At least [EPSILON] apart. *)
Definition apart (a b : line Num) : Prop := ∃ v w, li_x1 a = Some v ∧ li_x1 b = Some w ∧ nle (nadd v eps) w.

(** A stroke through the box of the operation. *)
Definition crosses (r : rect Num) ln : Prop :=
  ∃ a w v, rc_x r = Some a ∧ rc_width r = Some w ∧ li_x1 ln = Some v ∧ li_x2 ln = Some v ∧ nle a v ∧ nle v (nadd a w) ∧
    li_y1 ln = rc_y r - LINE_BLEED ∧ li_y2 ln = rc_y r + BOX_HEIGHT + LINE_BLEED.

(** Adding the left edge, then [EPSILON], is not more than adding them the other way
    round; the right edge of a box is where its end is. *)
Definition point_exact (v : Num) : Prop := nle (nadd (nadd left_edge v) eps) (nadd left_edge (nadd v eps)).
Definition box_exact (s e : Num) : Prop :=
  nadd (nadd s (of_int XOFF)) (of_int PADDING) = nadd left_edge s ∧ nadd (nadd left_edge s) (nsub e s) = nadd left_edge e.

(** [fine] is a condition under which sums are exact. *)
Context (fine : Prop) (xPos : object Num (option Num)) (x : Num → Num).

(** Positions [qs] that a linearization can be drawn at. *)
Record spaced evs lin (qs : nat → Num) : Prop := mkSpaced {
  sp_nonempty : lin ≠ [];
  sp_index : indexed evs lin;
  sp_x : ∀ ev, ev ∈ evs → xget xPos (ev_Start ev) = Some (x (ev_Start ev)) ∧
    xget xPos (ev_End ev) = Some (x (ev_End ev)) ∧ nle (x (ev_Start ev)) (x (ev_End ev));
  sp_point : ∀ k step ev, lin !! k = Some step → evs.[ls_Index step] = Some ev →
    nle (x (ev_Start ev)) (qs k) ∧ nle (qs k) (x (ev_End ev));
  sp_next : ∀ k, (S k < List.length lin)%nat → nle (nadd (qs k) eps) (qs (S k));
  sp_try : ∀ i ev, (i, ev) ∈ tries evs lin → nle (nadd (qs (List.length lin - 1)%nat) eps) (x (ev_End ev));
  sp_exact : fine → ∀ k, (k < List.length lin)%nat → point_exact (qs k);
}.

(** The stroke of an operation lies between its start and its end, up to rounding. *)
Definition at_event (invalid : bool) ev ln : Prop :=
  ∃ v, ln = stroke (Some v) ev invalid ∧ nle (nadd left_edge (x (ev_Start ev))) v ∧
    (fine → nle v (nadd left_edge (x (ev_End ev)))).

Lemma at_event_crosses invalid ev ln :
  fine → box_exact (x (ev_Start ev)) (x (ev_End ev)) →
  xget xPos (ev_Start ev) = Some (x (ev_Start ev)) → xget xPos (ev_End ev) = Some (x (ev_End ev)) →
  at_event invalid ev ln → crosses (draw_box xPos ev) ln ∧ li_invalid ln = invalid ∧ li_point ln = true.
Proof.
  intros Hf [Hl Hr] Hs He (v & -> & Hlo & Hhi). split; [|done]. unfold crosses, draw_box. rewrite Hs, He. simpl.
  rewrite Hl. eexists _, _, v. split_and!; [done..| |unfold point_y; lia|unfold point_y; lia].
  rewrite Hr. by apply Hhi.
Qed.

(** The pen after [k] points. *)
Definition pen_ok (qs : nat → Num) k (prev : option (pen Num)) : Prop :=
  match k with
  | O => prev = None
  | S k => ∃ p v, prev = Some p ∧ pen_x p = Some v ∧ (fine → nle v (nadd left_edge (qs k)))
  end.

Definition after (prev : option (pen Num)) ln : Prop :=
  match prev with None => True | Some p => ∃ v w, pen_x p = Some v ∧ li_x1 ln = Some w ∧ nle (nadd v eps) w end.

Definition up_to (prev : option (pen Num)) ln : Prop :=
  ∃ p v w, prev = Some p ∧ li_x1 ln = Some v ∧ pen_x p = Some w ∧ nle v w.

Lemma up_to_apart prev a b : up_to prev a → after prev b → apart a b.
Proof.
  intros (p & v & w & -> & Ha & Hp & Hle) (w' & z & Hp' & Hb & Hle'). simplify_eq. exists v, z. split_and!; [done..|].
  eapply nle_trans; [|exact Hle']. apply nadd_mono; [done|apply nle_refl].
Qed.

Section lin.
Context evs lin (qs : nat → Num) (Hsp : spaced evs lin qs).

Lemma point_x_spec k prev ev z :
  (k ≤ List.length lin)%nat → pen_ok qs k prev → ev ∈ evs →
  (match k with O => nle (x (ev_Start ev)) z | S k => nle (x (ev_Start ev)) z ∧ nle (nadd (qs k) eps) z end) →
  ∃ v, point_x xPos prev ev = Some v ∧ nle (nadd left_edge (x (ev_Start ev))) v ∧
    (fine → nle v (nadd left_edge z)) ∧ ∀ inv, after prev (stroke (Some v) ev inv).
Proof.
  intros Hk Hp Hev Hz. unfold point_x. destruct (sp_x _ _ _ Hsp ev Hev) as [-> _]. simpl. destruct k as [|k]; simpl in Hp.
  - subst prev. eexists. split; [done|]. split; [apply nle_refl|]. split; [|done]. intros _. apply nadd_mono; [apply nle_refl|done].
  - destruct Hp as (p & v & -> & Hpx & Hv). destruct Hz as [Hz1 Hz2]. rewrite Hpx. simpl. eexists. split; [done|].
    split; [apply nmax_l|]. split.
    + intros Hex. apply nmax_lub; [apply nadd_mono; [apply nle_refl|done]|].
      eapply nle_trans; [apply nadd_mono; [by apply Hv|apply nle_refl]|]. eapply nle_trans; [by apply (sp_exact _ _ _ Hsp)|].
      apply nadd_mono; [apply nle_refl|done].
    + intros inv. eexists _, _. split_and!; [done..|]. apply nmax_r.
Qed.

Lemma draw_points_spec k prev lin' :
  drop k lin = lin' → pen_ok qs k prev →
  ∃ lines last_pen, draw_points evs xPos lin' prev = Some (lines, last_pen) ∧ pen_ok qs (k + List.length lin') last_pen ∧
    Forall2 (λ step ln, ∃ ev, evs.[ls_Index step] = Some ev ∧ at_event false ev ln) lin' (strokes lines) ∧
    StronglySorted apart (strokes lines) ∧ Forall (after prev) (strokes lines) ∧ Forall (up_to last_pen) (strokes lines) ∧
    (lin' = [] → last_pen = prev).
Proof.
  revert k prev. induction lin' as [|step lin' IH]; intros k prev Hd Hp; simpl.
  { exists [], prev. rewrite Nat.add_0_r. split_and!; try done; constructor. }
  assert (lin !! k = Some step) as Hk by (rewrite <- (Nat.add_0_r k), <- lookup_drop, Hd; done).
  destruct (sp_index _ _ _ Hsp step) as [ev Hev]; [by eapply list_elem_of_lookup_2|]. rewrite Hev. simpl.
  assert (ev ∈ evs) as Hin by by eapply zlookup_elem.
  destruct (sp_point _ _ _ Hsp k step ev Hk Hev) as [Hlo Hhi].
  destruct (point_x_spec k prev ev (qs k) (Nat.lt_le_incl _ _ (lookup_lt_Some _ _ _ Hk)) Hp Hin) as (v & -> & Hv1 & Hv2 & Hv3).
  { destruct k; [done|]. split; [done|]. apply (sp_next _ _ _ Hsp). by eapply lookup_lt_Some. }
  set (p := mkPen (Some v) (point_y ev) (he_ClientId (ev_el ev))).
  destruct (IH (S k) (Some p)) as (lines & lp & -> & Hlp & Hf & Hs & Ha & Hu & Hnil).
  { rewrite <- Nat.add_1_r, <- drop_drop, Hd. done. }
  { exists p, v. split_and!; try done. }
  simpl. eexists _, lp. split; [done|]. split; [by rewrite Nat.add_succ_r|].
  assert (strokes (match prev with Some p0 => [link p0 (Some v) ev false] | None => [] end ++ stroke (Some v) ev false :: lines)
    = stroke (Some v) ev false :: strokes lines) as -> by (by destruct prev).
  assert (∀ ln, ln ∈ strokes lines → apart (stroke (Some v) ev false) ln) as Hap.
  { intros ln Hln. rewrite Forall_forall in Ha. apply Ha in Hln as (v' & w & [= <-] & Hw & Hle). by exists v, w. }
  split_and!; [| | | |done].
  - constructor; [|done]. exists ev. split; [done|]. exists v. split_and!; [done..|]. intros Hex.
    eapply nle_trans; [by apply Hv2|]. apply nadd_mono; [apply nle_refl|done].
  - constructor; [done|by apply Forall_forall].
  - constructor; [done|]. rewrite Forall_forall in Ha |- *. intros ln Hln. specialize (Hv3 false). destruct prev as [p0|]; [|done].
    destruct Hv3 as (v0 & w & Hp0 & [= <-] & Hle). destruct (Ha ln Hln) as (v' & w' & [= <-] & Hw & Hle').
    exists v0, w'. split_and!; [done..|]. eapply nle_trans; [exact Hle|]. eapply nle_trans; [|exact Hle']. apply nadd_int. unfold EPSILON. lia.
  - constructor; [|done]. destruct lin' as [|step' lin'].
    + rewrite (Hnil eq_refl). exists p, v, v. split_and!; [done..|apply nle_refl].
    + destruct (strokes lines) as [|ln ls] eqn:Hls; [by inversion Hf|].
      apply Forall_cons in Hu as [(p1 & v1 & w1 & -> & Hv1' & Hw1 & Hle1) _].
      destruct (Hap ln) as (v2 & w2 & [= <-] & Hw2 & Hle2); [by left|]. simplify_eq.
      exists p1, v, w1. split_and!; [done..|]. eapply nle_trans; [|exact Hle1]. eapply nle_trans; [|exact Hle2].
      apply nadd_int. unfold EPSILON. lia.
Qed.

Lemma draw_tries_spec partition linIndex prev l ts :
  last lin = Some l → pen_ok qs (List.length lin) prev → (∀ t, t ∈ ts → t ∈ tries evs lin) →
  ∃ drawn, mapM (draw_try xPos partition linIndex lin prev) ts = Some drawn ∧
    Forall2 (λ t ln, at_event true t.2 ln) ts (strokes (concat drawn.*1)) ∧ Forall (after prev) (strokes (concat drawn.*1)) ∧
    map li_x1 (strokes (concat drawn.*1)) = map er_x drawn.*2 ∧
    ∀ e, e ∈ drawn.*2 → ∃ v, e = mkErrorPoint (Some v) partition linIndex (ls_Index l).
Proof.
  intros Hl Hp. induction ts as [|[i ev] ts IH]; intros Hts; simpl.
  { exists []. split_and!; try done; [constructor..|]. by intros e ?%elem_of_nil. }
  destruct IH as (drawn & -> & Hf & Ha & Hx1 & He); [intros t Ht; apply Hts; by right|].
  assert ((i, ev) ∈ tries evs lin) as Ht by (apply Hts; by left). destruct (elem_of_tries _ _ _ _ Ht) as (Hev & _ & _).
  apply zlookup_elem in Hev. destruct (sp_x _ _ _ Hsp ev Hev) as (_ & _ & Hle).
  destruct (point_x_spec (List.length lin) prev ev (x (ev_End ev)) (le_n _) Hp Hev) as (v & Hx & Hv1 & Hv2 & Hv3).
  { pose proof (sp_try _ _ _ Hsp i ev Ht) as Hr. destruct (List.length lin); [done|]. split; [done|]. simpl in Hr. by rewrite Nat.sub_0_r in Hr. }
  unfold draw_try at 1. simpl. rewrite Hx.
  destruct (List.length lin) as [|n] eqn:Hn; [by destruct lin|]. simpl in Hp. destruct Hp as (p & w & -> & _ & _). simpl. rewrite Hl. simpl.
  eexists. split; [done|]. simpl. split; [|split; [|split]].
  - constructor; [by exists v|done].
  - constructor; [apply Hv3|done].
  - f_equal. exact Hx1.
  - intros e [->|Hin]%elem_of_cons; [by exists v|by apply He].
Qed.

(** The strokes of a linearization: its operations in order, then the operations
    that would be illegal next. *)
Record group_drawn (lines : list (line Num)) : Prop := mkGroupDrawn {
  gd_strokes : ∃ pts errs, strokes lines = pts ++ errs ∧
    Forall2 (λ step ln, ∃ ev, evs.[ls_Index step] = Some ev ∧ at_event false ev ln) lin pts ∧
    Forall2 (λ t ln, at_event true t.2 ln) (tries evs lin) errs ∧
    StronglySorted apart pts ∧ ∀ a b, a ∈ pts → b ∈ errs → apart a b;
  gd_red : Forall2 (λ t ln, ∃ v, ln = stroke (Some v) t.2 true) (tries evs lin) (red_strokes lines);
}.

Definition error_of (partition linIndex : nat) (e : error_point Num) : Prop :=
  ∃ v l, last lin = Some l ∧ e = mkErrorPoint (Some v) partition linIndex (ls_Index l).

Lemma draw_lin_spec partition linIndex :
  ∃ lines errors, draw_lin evs xPos partition linIndex lin = Some (lines, errors, (tries evs lin).*1) ∧
    group_drawn lines ∧ map li_x1 (red_strokes lines) = map er_x errors ∧ ∀ e, e ∈ errors → error_of partition linIndex e.
Proof.
  destruct (draw_points_spec 0 None lin eq_refl eq_refl) as (lines & lp & Hd & Hp & Hf & Hs & _ & Hu & _). simpl in Hp.
  destruct (last lin) as [l|] eqn:Hl; [|apply last_None in Hl; by destruct (sp_nonempty _ _ _ Hsp)].
  destruct (draw_tries_spec partition linIndex lp l (tries evs lin) Hl Hp) as (drawn & Hm & Hft & Ha & Hx & He); [done|].
  assert (red_strokes (lines ++ concat drawn.*1) = strokes (concat drawn.*1)) as Hred.
  { unfold red_strokes, strokes. rewrite !filter_app. change (red_strokes lines ++ red_strokes (concat drawn.*1) = strokes (concat drawn.*1)).
    rewrite red_none, red_all; [done| |].
    - eapply Forall2_Forall_r; [exact Hft|]. apply Forall_forall. by intros t _ ln (v & -> & _).
    - eapply Forall2_Forall_r; [exact Hf|]. apply Forall_forall. by intros t _ ln (ev & _ & v & -> & _). }
  unfold draw_lin. rewrite Hd. simpl. rewrite Hm. simpl. eexists _, _. split; [done|]. split; [|split].
  - split.
    + exists (strokes lines), (strokes (concat drawn.*1)). split_and!; try done; [apply filter_app|].
      intros a b Hina Hinb. rewrite Forall_forall in Hu, Ha. eapply up_to_apart; [by apply Hu|by apply Ha].
    + rewrite Hred. eapply Forall2_impl; [exact Hft|]. intros t ln (v & -> & _). by exists v.
  - by rewrite Hred.
  - intros e [v ->]%He. by exists v, l.
Qed.
End lin.

(** ** All linearizations *)

(** What is drawn of the linearizations [ls] of a partition, the first of which has
    index [n]. *)
Record lins_drawn evs (partition n : nat) (ls : list (list linearizationStep)) (groups : list (list (line Num)))
    (errors : list (error_point Num)) (il il' : illegal) : Prop := mkLinsDrawn {
  ld_groups : Forall2 (group_drawn evs) ls groups;
  ld_errors : ∀ e, e ∈ errors → ∃ k lin, ls !! k = Some lin ∧ error_of lin partition (n + k) e;
  ld_red : ∀ k lines v, groups !! k = Some lines →
    v ∈ map li_x1 (red_strokes lines) ↔ ∃ e, e ∈ errors ∧ er_lin e = (n + k)%nat ∧ er_x e = v;
  ld_last : il_last il' = il_last il ++ map (λ lin, (tries evs lin).*1) ls;
  ld_largest : ∀ i l, il_largest il' !! i = Some l → il_largest il !! i = Some l ∨ (n <= l < n + List.length ls)%nat;
}.

Lemma note_illegal_largest n len js la le i l :
  (foldl (note_illegal n len) (la, le) js).1 !! i = Some l → la !! i = Some l ∨ l = n.
Proof.
  revert la le. induction js as [|j js IH]; intros la le Hl; simpl in Hl; [by left|]. case_decide; [|by eapply IH].
  apply IH in Hl as [Hl|]; [|by right]. destruct (decide (j = i)) as [->|Hne].
  - rewrite lookup_insert_eq in Hl. right. congruence.
  - rewrite lookup_insert_ne in Hl by done. by left.
Qed.

Lemma draw_lins_spec evs partition n ls il :
  (∀ lin, lin ∈ ls → ∃ qs, spaced evs lin qs) →
  ∃ groups errors il', draw_lins evs xPos partition n ls il = Some (groups, errors, il') ∧
    lins_drawn evs partition n ls groups errors il il'.
Proof.
  revert n il. induction ls as [|lin ls IH]; intros n il Hsp; simpl.
  { exists [], [], il. split; [done|]. split; [constructor|by intros e ?%elem_of_nil|done|by rewrite app_nil_r|by left]. }
  destruct (Hsp lin) as [qs Hqs]; [by left|].
  destruct (draw_lin_spec evs lin qs Hqs partition n) as (lines & errors & -> & Hg & Hx & He). simpl.
  destruct (foldl _ _ _) as [la le] eqn:Hfold.
  destruct (IH (S n) (mkIllegal (il_last il ++ [(tries evs lin).*1]) la le)) as (groups & errors' & il' & -> & [Hgs Hes Hrd Hla Hlg]).
  { intros lin' Hlin'. apply Hsp. by right. }
  simpl in *. eexists _, _, _. split; [done|]. split.
  - by constructor.
  - intros e [Hin|Hin]%elem_of_app.
    + exists 0%nat, lin. split; [done|]. rewrite Nat.add_0_r. by apply He.
    + destruct (Hes e Hin) as (k & lin' & Hk & Hek). exists (S k), lin'. split; [done|]. by rewrite Nat.add_succ_r.
  - intros [|k] lines' v Hk; simpl in Hk.
    + injection Hk as <-. rewrite Hx, list_elem_of_fmap. setoid_rewrite elem_of_app. rewrite Nat.add_0_r. split.
      * intros (e & -> & Hin). exists e. split; [by left|]. split; [|done]. by destruct (He e Hin) as (? & ? & _ & ->).
      * intros (e & [Hin|Hin] & Hl & <-); [by exists e|]. exfalso. destruct (Hes e Hin) as (j & lin' & _ & w & l & _ & ->). simpl in Hl. lia.
    + rewrite (Hrd k lines' v Hk). setoid_rewrite elem_of_app. rewrite Nat.add_succ_r. split; [naive_solver|].
      intros (e & [Hin|Hin] & Hl & Hv); [|by exists e]. exfalso. destruct (He e Hin) as (w & l & _ & ->). simpl in Hl. lia.
  - rewrite Hla, <- app_assoc. done.
  - intros i l Hl. destruct (Hlg i l Hl) as [Hl'|]; [|right; simpl; lia].
    assert ((foldl (note_illegal n (zlen lin)) (il_largest il, il_length il) (tries evs lin).*1).1 !! i = Some l) as Hl2 by (by rewrite Hfold).
    apply note_illegal_largest in Hl2 as [?|Hn]; [by left|right; subst l; simpl; lia].
Qed.

Lemma draw_partitions_spec n data evss :
  List.length evss = List.length data →
  (∀ k d evs lin, data !! k = Some d → evss !! k = Some evs → lin ∈ pv_PartialLinearizations d → ∃ qs, spaced evs lin qs) →
  ∃ groupss errors ils, draw_partitions xPos n data evss = Some (groupss, errors, ils) ∧ List.length groupss = List.length data ∧
    (∀ k d evs, data !! k = Some d → evss !! k = Some evs → ∃ groups es il, groupss !! k = Some groups ∧ ils !! k = Some il ∧
       lins_drawn evs (n + k) 0 (pv_PartialLinearizations d) groups es (mkIllegal [] ∅ ∅) il ∧
       ∀ e, e ∈ errors ∧ er_partition e = (n + k)%nat ↔ e ∈ es) ∧
    ∀ e, e ∈ errors → ∃ k d j lin, data !! k = Some d ∧ pv_PartialLinearizations d !! j = Some lin ∧ error_of lin (n + k) j e.
Proof.
  revert n evss. induction data as [|d data IH]; intros n [|evs evss] Hlen Hsp; simpl in *; try done.
  { exists [], [], []. split_and!; try done. by intros e ?%elem_of_nil. }
  destruct (draw_lins_spec evs n 0 (pv_PartialLinearizations d) (mkIllegal [] ∅ ∅)) as (groups & es & il & -> & Hd).
  { intros lin. by apply (Hsp 0%nat d evs lin). }
  destruct (IH (S n) evss) as (groupss & errors & ils & -> & Hlg & Hall & Herr); [lia|intros k; by apply (Hsp (S k))|].
  simpl. eexists _, _, _. split; [done|]. split; [simpl; by rewrite Hlg|]. split.
  - assert (∀ e, e ∈ es → er_partition e = n) as Hes.
    { intros e He. by destruct (ld_errors _ _ _ _ _ _ _ _ Hd e He) as (j & lin & _ & v & l & _ & ->). }
    intros [|k] d' evs' Hk Hk'; simpl in *.
    + simplify_eq. rewrite Nat.add_0_r. exists groups, es, il. split_and!; try done. intros e. rewrite elem_of_app. split; [|naive_solver].
      intros [[He|He] Hp]; [done|]. exfalso. destruct (Herr e He) as (k & d & j & lin & _ & _ & v & l & _ & ->). simpl in Hp. lia.
    + destruct (Hall k d' evs' Hk Hk') as (gs & es' & il' & Hg & Hil & Hld & Hee). rewrite Nat.add_succ_r in *.
      exists gs, es', il'. split_and!; try done. intros e. rewrite <- Hee, elem_of_app. split; [|naive_solver].
      intros [[He|He] Hp]; [|done]. exfalso. specialize (Hes e He). lia.
  - intros e [Hin|Hin]%elem_of_app.
    + destruct (ld_errors _ _ _ _ _ _ _ _ Hd e Hin) as (j & lin & Hj & He). exists 0%nat, d, j, lin. rewrite Nat.add_0_r. done.
    + destruct (Herr e Hin) as (k & d' & j & lin & ? & ? & He). exists (S k), d', j, lin. rewrite Nat.add_succ_r. done.
Qed.
End drawing.

(** ** The page *)

Section page.
Context {Num : Type} `{JsNumberLaws Num} (getBBox_width : string → Num).
Implicit Types (ev : event Num) (evs : list (event Num)) (lin : list linearizationStep) (k j : nat).

(** What a drawn page looks like. *)
Record page_drawn (fine : Prop) (data : list partitionVisualizationData) (pg : page Num) (xPos : object Num (option Num)) (x : Num → Num) : Prop :=
  mkPageDrawn {
  pd_data : pg_data pg = data;
  pd_len : List.length (pg_groups pg) = List.length data;
  pd_els : map (map ev_el) (pg_events pg) = map pv_History data;
  pd_x : ∀ ev, ev ∈ concat (pg_events pg) →
    xget xPos (ev_Start ev) = Some (x (ev_Start ev)) ∧ xget xPos (ev_End ev) = Some (x (ev_End ev));
  pd_boxes : pg_boxes pg = map (map (draw_box xPos)) (pg_events pg);
  pd_partition : ∀ k d evs, data !! k = Some d → pg_events pg !! k = Some evs →
    ∃ groups es il, pg_groups pg !! k = Some groups ∧ pg_illegal pg !! k = Some il ∧
      lins_drawn fine x evs k 0 (pv_PartialLinearizations d) groups es (mkIllegal [] ∅ ∅) il ∧
      ∀ e, e ∈ pg_errors pg ∧ er_partition e = k ↔ e ∈ es;
  pd_errors : ∀ e, e ∈ pg_errors pg → ∃ k d j lin, data !! k = Some d ∧ pv_PartialLinearizations d !! j = Some lin ∧ error_of lin k j e;
  pd_sorted : Sorted err_le (pg_errors pg);
  pd_fine : fine → ∀ ev, ev ∈ concat (pg_events pg) → box_exact (x (ev_Start ev)) (x (ev_End ev));
  pd_width : ∃ L w, compute_layout getBBox_width data = Some L ∧ page_width L = Some w ∧ pg_width pg = Some w;
}.

Lemma elem_all_lins data evss k d evs lin :
  data !! k = Some d → evss !! k = Some evs → lin ∈ pv_PartialLinearizations d → (evs, lin) ∈ all_lins data evss.
Proof.
  revert evss k. induction data as [|p data IH]; intros [|es evss] [|k] Hd Hes Hlin; simplify_eq/=; apply elem_of_app.
  - left. by apply list_elem_of_fmap_2.
  - right. by eapply IH.
Qed.

(** Later timestamps are further right. *)
Lemma fits_le evss sorted lns x q t t' :
  fits getBBox_width evss sorted lns x q → StronglySorted nlt sorted → t ∈ sorted → t' ∈ sorted → nlt t t' → nle (x t) (x t').
Proof.
  intros Hf Hs [i Hi]%list_elem_of_lookup [j Hj]%list_elem_of_lookup Hlt.
  assert (∀ n u v, sorted !! i = Some u → sorted !! (i + n)%nat = Some v → nle (x u) (x v)) as Hn.
  { intros n. induction n as [|n IH]; intros u v Hu Hv; [rewrite Nat.add_0_r in Hv; simplify_eq; apply nle_refl|].
    destruct (lookup_lt_is_Some_2 sorted (i + n)%nat) as [w Hw]; [apply lookup_lt_Some in Hv; lia|].
    eapply nle_trans; [by apply (IH u w)|]. rewrite Nat.add_succ_r in Hv.
    eapply nle_trans; [|by apply (ft_gap _ _ _ _ _ _ Hf (i + n)%nat)]. apply nadd_int. unfold BOX_GAP. lia. }
  destruct (decide (i <= j)%nat) as [Hij|Hij].
  - apply (Hn (j - i)%nat); [done|]. by replace (i + (j - i))%nat with j by lia.
  - exfalso. apply (nlt_irrefl t). eapply nlt_trans; [exact Hlt|]. rewrite <- (take_drop i sorted) in Hs.
    eapply StronglySorted_app_1_elem_of; [exact Hs| |].
    + apply (list_elem_of_lookup_2 _ j). rewrite lookup_take_lt by lia. exact Hj.
    + apply (list_elem_of_lookup_2 _ 0%nat). by rewrite lookup_drop, Nat.add_0_r.
Qed.

(** A layout as VisLayoutSpec.v has it. *)
Record laid_out (data : list partitionVisualizationData) (L : layout Num) (x : Num → Num) (q : nat → nat → Num) : Prop := mkLaidOut {
  lt_layout : compute_layout getBBox_width data = Some L;
  lt_prepared : prepared data (lo_events L) (lo_sorted L);
  lt_x : ∀ t, t ∈ lo_sorted L → xget (lo_xPos L) t = Some (x t);
  lt_q : ∀ l evs lin, all_lins data (lo_events L) !! l = Some (evs, lin) →
    lo_positions L !! l = Some (map (λ k, Some (q l k)) (seq 0 (List.length lin)));
  lt_fits : fits getBBox_width (lo_events L) (lo_sorted L) (all_lins data (lo_events L)) x q;
}.

Record exact_layout (data : list partitionVisualizationData) (L : layout Num) (x : Num → Num) (q : nat → nat → Num) : Prop := mkExactLayout {
  el_box : ∀ ev, ev ∈ concat (lo_events L) → box_exact (x (ev_Start ev)) (x (ev_End ev));
  el_point : ∀ l evs lin k, all_lins data (lo_events L) !! l = Some (evs, lin) → (k < List.length lin)%nat → point_exact (q l k);
}.

Lemma fits_spaced (fine : Prop) data L (x : Num → Num) q k d evs lin :
  (∀ p, p ∈ data → drawable p) → laid_out data L x q → (fine → exact_layout data L x q) →
  data !! k = Some d → lo_events L !! k = Some evs → lin ∈ pv_PartialLinearizations d →
  ∃ qs, spaced fine (lo_xPos L) x evs lin qs.
Proof.
  intros Hdr [_ Hpp Hx _ Hf] Hex Hd Hevs Hlin. pose proof (elem_all_lins _ _ _ _ _ _ Hd Hevs Hlin) as Hin.
  pose proof (indexed_lins _ _ _ Hpp Hdr _ Hin) as Hix. apply list_elem_of_lookup in Hin as [l Hl]. exists (q l). split.
  - apply (dr_nonempty d); [|done]. apply Hdr. by eapply list_elem_of_lookup_2.
  - exact Hix.
  - intros ev Hev. assert (ev ∈ concat (lo_events L)) as Hc.
    { apply elem_of_concat. exists evs. split; [done|by eapply list_elem_of_lookup_2]. }
    assert (ev_Start ev ∈ lo_sorted L ∧ ev_End ev ∈ lo_sorted L) as [Hs He] by (split; apply (pp_elem _ _ _ Hpp); eauto).
    split_and!; [by apply Hx..|]. eapply fits_le; [exact Hf|apply (pp_sorted _ _ _ Hpp)|done..|].
    apply (pp_order _ _ _ Hpp); [done..|]. destruct (event_timed _ _ _ Hpp Hdr ev Hc) as (_ & _ & ?). lia.
  - intros i step ev Hi Hev. by eapply (ft_point _ _ _ _ _ _ Hf).
  - intros i Hi. by eapply (ft_next _ _ _ _ _ _ Hf).
  - intros i ev Ht. by eapply (ft_try _ _ _ _ _ _ Hf).
  - intros Hfi i Hi. by eapply (el_point _ _ _ _ (Hex Hfi)).
Qed.

Lemma width_of_layout data L x q : laid_out data L x q → is_Some (page_width L).
Proof.
  intros Hlo. unfold page_width. destruct (last (lo_sorted L)) as [t|] eqn:Hl; [|by eexists].
  rewrite (lt_x _ _ _ _ Hlo t); [by eexists|by apply last_Some_elem_of].
Qed.

Lemma render_drawn (fine : Prop) data :
  (∀ p, p ∈ data → drawable p) → (∀ L x q, laid_out data L x q → fine → exact_layout data L x q) →
  ∃ pg xPos x, render getBBox_width data = Some pg ∧ page_drawn fine data pg xPos x.
Proof.
  intros Hdr Hex. destruct (layout_optimal getBBox_width data Hdr) as (L & x & q & HL & Hpp & Hx & Hq & Hf & _).
  assert (laid_out data L x q) as Hlo by done. specialize (Hex L x q Hlo).
  unfold render. rewrite HL. simpl.
  destruct (draw_partitions_spec fine (lo_xPos L) x 0 data (lo_events L)) as (groups & errors & ils & -> & Hlg & Hp & He).
  { pose proof (f_equal List.length (pp_els _ _ _ Hpp)) as Hlen. by rewrite !length_map in Hlen. }
  { intros k d evs lin. by apply (fits_spaced fine data L x q). }
  simpl. eexists _, (lo_xPos L), x. split; [done|]. split; simpl; try done.
  - apply (pp_els _ _ _ Hpp).
  - intros ev Hev. split; apply Hx, (pp_elem _ _ _ Hpp); eauto.
  - intros k d evs Hd Hevs. destruct (Hp k d evs Hd Hevs) as (gs & es & il & Hgs & Hil & Hld & Hes). exists gs, es, il.
    split_and!; [done..|]. intros e. by rewrite merge_sort_Permutation.
  - intros e. rewrite merge_sort_Permutation. apply He.
  - apply Sorted_merge_sort. intros a b. unfold err_le. destruct (er_x a), (er_x b); auto. apply nle_total.
  - intros Hfi. apply (el_box _ _ _ _ (Hex Hfi)).
  - destruct (width_of_layout data L x q Hlo) as [w Hw]. by exists L, w.
Qed.

(** The last timestamp is the latest. *)
Lemma last_largest (ts : list Num) t tl : StronglySorted nlt ts → last ts = Some tl → t ∈ ts → t ≠ tl → nlt t tl.
Proof.
  intros Hs. induction Hs as [|a ts Hs IH Ha]; [done|]. intros Hl Ht Hne. destruct ts as [|b ts].
  { injection Hl as ->. by apply list_elem_of_singleton in Ht. }
  change (last (a :: b :: ts)) with (last (b :: ts)) in Hl. apply elem_of_cons in Ht as [->|Ht]; [|by apply IH].
  rewrite Forall_forall in Ha. by apply Ha, last_Some_elem_of.
Qed.

(** ** A page in range *)

Section exact.
Context `{!GridNumber Num} (limit : Z) (Hlimit : limit_ok (Num:=Num) limit) (Htexts : texts_on_grid limit getBBox_width).
Context (data : list partitionVisualizationData) (Hdr : ∀ p, p ∈ data → drawable p).
Context L x q (Hlo : laid_out data L x q) (Hw : ∀ w, page_width L = Some w → nle w (of_int limit)).

Lemma limit_range a : 0 <= a <= limit * per_pixel (Num:=Num) → nle (units a : Num) (of_int limit).
Proof.
  intros Ha. destruct Hlimit. pose proof (per_pixel_pos (Num:=Num)). rewrite (grid_int limit) by nia. apply grid_le; nia.
Qed.

Lemma x_on_grid t : t ∈ lo_sorted L → on_grid limit (x t).
Proof.
  intros Ht. pose proof (proj1 (layout_tracked limit Hlimit _ _ _ Htexts (lt_layout _ _ _ _ Hlo))) as Hx.
  assert (∀ t, t ∈ lo_sorted L → tracked limit (x t)) as Htr.
  { intros t' Ht'. pose proof (xget_tracked limit _ t' Hx) as Hg. by rewrite (lt_x _ _ _ _ Hlo t' Ht') in Hg. }
  destruct (last (lo_sorted L)) as [tl|] eqn:Hl; [|apply last_None in Hl; rewrite Hl in Ht; by apply elem_of_nil in Ht].
  assert (tl ∈ lo_sorted L) as Htl by by apply last_Some_elem_of. assert (on_grid limit (x tl)) as (a & Ha & Hxa).
  { apply (margin_on_grid limit Hlimit _ (2 * PADDING + XOFF)); [unfold PADDING, XOFF; lia|by apply Htr|].
    apply Hw. unfold page_width. by rewrite Hl, (lt_x _ _ _ _ Hlo tl Htl). }
  apply (tracked_on_grid limit Hlimit); [by apply Htr|]. apply (nle_trans _ (x tl)); [|rewrite Hxa; by apply limit_range].
  destruct (decide (t = tl)) as [->|Hne]; [apply nle_refl|]. eapply fits_le; [apply Hlo|apply (lt_prepared _ _ _ _ Hlo)|done..|].
  apply (last_largest _ _ _ (pp_sorted _ _ _ (lt_prepared _ _ _ _ Hlo)) Hl); done.
Qed.

Lemma q_on_grid l evs lin k :
  all_lins data (lo_events L) !! l = Some (evs, lin) → (k < List.length lin)%nat → on_grid limit (q l k).
Proof.
  intros Hl Hk. destruct (lookup_lt_is_Some_2 lin k Hk) as [step Hs]. pose proof (lt_prepared _ _ _ _ Hlo) as Hpp.
  destruct (indexed_lins _ _ _ Hpp Hdr (evs, lin) (list_elem_of_lookup_2 _ _ _ Hl) step) as [ev Hev]; [by eapply list_elem_of_lookup_2|].
  destruct (ft_point _ _ _ _ _ _ (lt_fits _ _ _ _ Hlo) l evs lin k step ev Hl Hs Hev) as [_ Hle].
  assert (ev_End ev ∈ lo_sorted L) as He.
  { apply (pp_elem _ _ _ Hpp). exists ev. split; [|tauto]. eapply list_elem_of_lookup_2, (lin_event _ _ _ Hpp); [exact Hl|exact Hev]. }
  destruct (x_on_grid _ He) as (a & Ha & Hx). apply (tracked_on_grid limit Hlimit).
  - pose proof (proj2 (layout_tracked limit Hlimit _ _ _ Htexts (lt_layout _ _ _ _ Hlo))) as Hps.
    pose proof (Forall_lookup_1 _ _ _ _ Hps (lt_q _ _ _ _ Hlo l evs lin Hl)) as Hq.
    apply (Forall_lookup_1 _ _ k (Some (q l k)) Hq). change (map ?f ?l) with (f <$> l). by rewrite list_lookup_fmap, lookup_seq_lt by done.
  - apply (nle_trans _ (x (ev_End ev))); [done|]. rewrite Hx. by apply limit_range.
Qed.

Lemma page_exact : exact_layout data L x q.
Proof.
  pose proof (per_pixel_pos (Num:=Num)) as Hpos. pose proof Hlimit as [Hl0 Hl]. split.
  - intros ev Hev. pose proof (lt_prepared _ _ _ _ Hlo) as Hpp.
    destruct (x_on_grid (ev_Start ev)) as (a & Ha & ->); [apply (pp_elem _ _ _ Hpp); eauto|].
    destruct (x_on_grid (ev_End ev)) as (b & Hb & ->); [apply (pp_elem _ _ _ Hpp); eauto|]. unfold box_exact, PADDING, XOFF.
    rewrite (grid_plus limit Hlimit), (pixels limit Hlimit 10), !(plus_grid limit Hlimit) by lia.
    rewrite grid_add, grid_sub, grid_add by nia. split; f_equal; lia.
  - intros l evs lin k Hll Hk. destruct (q_on_grid l evs lin k Hll Hk) as (a & Ha & ->). unfold point_exact, PADDING, XOFF, EPSILON.
    rewrite (grid_plus limit Hlimit), (plus_grid limit Hlimit), !(pixels limit Hlimit) by lia. rewrite !grid_add by nia.
    apply grid_le; nia.
Qed.
End exact.

Section drawn.
Context fine data pg xPos x (Hpd : page_drawn fine data pg xPos x).

Lemma drawn_events k d : data !! k = Some d → ∃ evs, pg_events pg !! k = Some evs ∧ map ev_el evs = pv_History d.
Proof.
  intros Hd. pose proof (f_equal (lookup k) (pd_els _ _ _ _ _ Hpd)) as Hk. change (map ?f ?l) with (f <$> l) in Hk.
  rewrite !list_lookup_fmap, Hd in Hk. simpl in Hk. destruct (pg_events pg !! k) as [evs|]; [|done]. exists evs. split; [done|].
  by injection Hk.
Qed.

Lemma drawn_page_ok : (∀ p, p ∈ data → drawable p ∧ largest_ok p) → page_ok pg.
Proof.
  intros Hdr. split.
  - intros p d. rewrite (pd_data _ _ _ _ _ Hpd). intros Hd. pose proof (zlookup_lt_Some _ _ _ Hd) as Hr.
    pose proof (Hdr d (zlookup_elem _ _ _ Hd)) as [Hdd Hld]. rewrite zlookup_pos in Hd by lia. destruct (drawn_events _ _ Hd) as (evs & Hevs & Hels).
    assert (zlen evs = zlen (pv_History d)) as Hlen by (rewrite <- Hels; unfold zlen; by rewrite length_map).
    destruct (pd_partition _ _ _ _ _ Hpd _ _ _ Hd Hevs) as (groups & es & il & Hgs & Hil & [Hg _ _ Hla Hlg] & _). split.
    + exists evs. by rewrite zlookup_pos by lia.
    + exists (map (draw_box xPos) evs). rewrite zlookup_pos by lia. rewrite (pd_boxes _ _ _ _ _ Hpd). split.
      * change (map (map (draw_box xPos)) (pg_events pg)) with (map (draw_box xPos) <$> pg_events pg). by rewrite list_lookup_fmap, Hevs.
      * unfold zlen in *. by rewrite length_map.
    + exists groups. rewrite zlookup_pos by lia. split; [done|]. unfold zlen. by rewrite <- (Forall2_length _ _ _ Hg).
    + exists il. rewrite zlookup_pos by lia. split; [done|]. split; [rewrite Hla; unfold zlen; simpl; by rewrite length_map|].
      intros i l Hl. destruct (Hlg i l Hl) as [Hl'|]; [simpl in Hl'; by rewrite lookup_empty in Hl'|unfold zlen; lia].
    + apply Hld.
    + apply Hdd.
  - intros e He. destruct (pd_errors _ _ _ _ _ Hpd e He) as (k & d & j & lin & Hd & Hj & v & l & Hl & ->). simpl. exists d.
    rewrite (pd_data _ _ _ _ _ Hpd), zlookup_nat. split; [done|]. apply zlookup_is_Some.
    apply (dr_index d (proj1 (Hdr d (list_elem_of_lookup_2 _ _ _ Hd))) lin); [by eapply list_elem_of_lookup_2|by apply last_Some_elem_of].
Qed.

(** ** The link to the first error *)

Definition left_of (a b : error_point Num) : Prop := ∃ v w, er_x a = Some v ∧ er_x b = Some w ∧ nle v w.

Lemma errors_left_of (es : list (error_point Num)) :
  Sorted err_le es → (∀ e, e ∈ es → is_Some (er_x e)) → StronglySorted left_of es.
Proof.
  intros Hs Hx. apply Sorted_StronglySorted.
  { intros a b c (v & w & ? & ? & ?) (w' & z & ? & ? & ?). simplify_eq. exists v, z. split_and!; [done..|by eapply nle_trans]. }
  induction Hs as [|a es Hs IH Hd]; constructor; [apply IH; intros e He; apply Hx; by right|].
  destruct Hd as [|b es Hab]; constructor. destruct (Hx a) as [v Hv]; [by left|]. destruct (Hx b) as [w Hw]; [by right; left|].
  unfold err_le in Hab. rewrite Hv, Hw in Hab. by exists v, w.
Qed.

Lemma head_filter_first {A} (R : relation A) (P : A → Prop) `{∀ a, Decision (P a)} (es : list A) a b :
  StronglySorted R es → head (filter P es) = Some a → b ∈ es → P b → a = b ∨ R a b.
Proof.
  intros Hs Ha Hb HP. induction Hs as [|c es Hs IH Hc]; [by apply elem_of_nil in Hb|]. rewrite filter_cons in Ha. rewrite Forall_forall in Hc.
  case_decide as Hc'; [injection Ha as ->|].
  - apply elem_of_cons in Hb as [->|Hb]; [by left|right; by apply Hc].
  - apply elem_of_cons in Hb as [->|Hb]; [done|by apply IH].
Qed.

Lemma drawn_error_x e : e ∈ pg_errors pg → is_Some (er_x e).
Proof. intros He. destruct (pd_errors _ _ _ _ _ Hpd e He) as (k & d & j & lin & _ & _ & v & l & _ & ->). by exists v. Qed.

Lemma first_error_leftmost fo e e' :
  first_error pg fo = Some e → e' ∈ pg_errors pg → shown (partial_view pg fo) e' = true → left_of e e'.
Proof.
  intros He Hin Hs. unfold first_error in He.
  destruct (head_filter_first left_of _ _ e e' (errors_left_of _ (pd_sorted _ _ _ _ _ Hpd) drawn_error_x) He Hin Hs) as [->|]; [|done].
  destruct (drawn_error_x e' Hin) as [v Hv]. exists v, v. split_and!; [done..|apply nle_refl].
Qed.

Lemma shown_visible fo e : e ∈ pg_errors pg → shown (partial_view pg fo) e = visible pg fo (er_partition e) (er_lin e).
Proof.
  intros He. destruct (pd_errors _ _ _ _ _ Hpd e He) as (k & d & j & lin & Hd & Hj & v & l & Hl & ->). simpl.
  destruct (drawn_events k d Hd) as (evs & Hevs & _). destruct (pd_partition _ _ _ _ _ Hpd _ _ _ Hd Hevs) as (gs & es & il & Hgs & _ & [Hg _ _ _ _] & _).
  destruct (Forall2_lookup_l _ _ _ _ _ Hg Hj) as (g & Hgj & _).
  unfold shown, partial_view. simpl. rewrite grid_lookup, Hgs. simpl. rewrite Hgj. simpl. apply negb_involutive.
Qed.

(** Without a pick the first linearizations are shown; the last operation of such a
    linearization stands for it. *)
Lemma first_error_idle e :
  (∀ p, p ∈ data → largest_ok p) → first_error pg None = Some e →
  ∃ d lin l, data !! er_partition e = Some d ∧ head (pv_PartialLinearizations d) = Some lin ∧ last lin = Some l ∧
    er_lin e = 0%nat ∧ er_index e = ls_Index l ∧ e ∈ pg_errors pg ∧
    shown (partial_view pg (Some (Z.of_nat (er_partition e), er_index e))) e = true.
Proof.
  intros Hlg He. pose proof He as He'. unfold first_error in He. apply head_Some_elem_of, list_elem_of_filter in He as [Hs Hin].
  rewrite shown_visible in Hs by done. simpl in Hs. apply bool_decide_eq_true in Hs.
  destruct (pd_errors _ _ _ _ _ Hpd e Hin) as (k & d & j & lin & Hd & Hj & v & l & Hl & Hek).
  assert (er_partition e = k ∧ er_lin e = j ∧ er_index e = ls_Index l) as (Hk & Hj' & Hix) by (by rewrite Hek).
  rewrite Hs in Hj'. subst j. exists d, lin, l. split; [by rewrite Hk|]. split; [by rewrite head_lookup|]. split_and!; try done.
  rewrite shown_visible by done. simpl. apply bool_decide_eq_true_2. split; [done|]. unfold linearizationIndex.
  rewrite (pd_data _ _ _ _ _ Hpd), (zlookup_nat data), Hk, Hd. simpl.
  rewrite Hix, (lg_first d (Hlg d (list_elem_of_lookup_2 _ _ _ Hd)) lin l); [by rewrite Hs|by rewrite head_lookup|by apply last_Some_elem_of].
Qed.

(** *** What is seen *)

(** The strokes drawn of linearization [j] of partition [k]. *)
Definition drawn_group k j (lines : list (line Num)) : Prop := ∃ groups, pg_groups pg !! k = Some groups ∧ groups !! j = Some lines.

(** Its layer is not hidden. *)
Definition seen (u : ui (Num:=Num)) k j : Prop := (row ← ui_partialHidden u !! k; row !! j) = Some false.

Definition seen_red (u : ui (Num:=Num)) k j (ln : line Num) : Prop :=
  ∃ lines, drawn_group k j lines ∧ ln ∈ red_strokes lines ∧ seen u k j.

Definition leftwards (a b : line Num) : Prop := ∃ v w, li_x1 a = Some v ∧ li_x1 b = Some w ∧ nle v w.

Lemma seen_shown u (e : error_point Num) : seen u (er_partition e) (er_lin e) ↔ shown (ui_partialHidden u) e = true.
Proof. unfold seen, shown. destruct (row ← ui_partialHidden u !! er_partition e; row !! er_lin e) as [[]|]; naive_solver. Qed.

(** Errors are where the red strokes are. *)
Lemma red_errors k j lines v :
  drawn_group k j lines →
  v ∈ map li_x1 (red_strokes lines) ↔ ∃ e, e ∈ pg_errors pg ∧ er_partition e = k ∧ er_lin e = j ∧ er_x e = v.
Proof.
  intros (gs & Hgs & Hj). destruct (lookup_lt_is_Some_2 data k) as [d Hd].
  { apply lookup_lt_Some in Hgs. by rewrite <- (pd_len _ _ _ _ _ Hpd). }
  destruct (drawn_events k d Hd) as (evs & Hevs & _).
  destruct (pd_partition _ _ _ _ _ Hpd _ _ _ Hd Hevs) as (groups & es & il & Hgs' & _ & [_ _ Hred _ _] & Hes). simplify_eq.
  rewrite (Hred j lines v Hj). setoid_rewrite <- Hes. naive_solver.
Qed.

Lemma error_red u (e : error_point Num) :
  e ∈ pg_errors pg → shown (ui_partialHidden u) e = true → ∃ ln, seen_red u (er_partition e) (er_lin e) ln ∧ li_x1 ln = er_x e.
Proof.
  intros He Hs. destruct (pd_errors _ _ _ _ _ Hpd e He) as (k & d & j & lin & Hd & Hj & v & l & Hl & Hek).
  assert (er_partition e = k ∧ er_lin e = j) as [Hk Hj'] by (by rewrite Hek).
  destruct (drawn_events k d Hd) as (evs & Hevs & _). destruct (pd_partition _ _ _ _ _ Hpd _ _ _ Hd Hevs) as (gs & es & il & Hgs & _ & [Hg _ _ _ _] & _).
  destruct (Forall2_lookup_l _ _ _ _ _ Hg Hj) as (lines & Hln & _). rewrite <- Hk in Hgs. rewrite <- Hj' in Hln.
  destruct (red_errors (er_partition e) (er_lin e) lines (er_x e)) as [_ Hr]; [by exists gs|].
  pose proof (Hr ltac:(eauto)) as (ln & Hx & Hin)%list_elem_of_fmap. exists ln. split; [|done]. exists lines. split_and!; [by exists gs|done|].
  by apply seen_shown.
Qed.

Lemma red_error u k j ln :
  seen_red u k j ln →
  ∃ e, e ∈ pg_errors pg ∧ shown (ui_partialHidden u) e = true ∧ er_partition e = k ∧ er_lin e = j ∧ er_x e = li_x1 ln.
Proof.
  intros (lines & Hg & Hin & Hs). destruct (red_errors k j lines (li_x1 ln) Hg) as [Hr _].
  destruct Hr as (e & He & <- & <- & Hx); [by apply list_elem_of_fmap_2|]. exists e. split_and!; try done. by apply seen_shown.
Qed.

(** One red stroke for each operation that would be illegal next. *)
Lemma reds_drawn k d j lin :
  data !! k = Some d → pv_PartialLinearizations d !! j = Some lin →
  ∃ evs lines, pg_events pg !! k = Some evs ∧ map ev_el evs = pv_History d ∧ drawn_group k j lines ∧
    Forall2 (λ t ln, ∃ v, ln = stroke (Some v) t.2 true) (tries evs lin) (red_strokes lines).
Proof.
  intros Hd Hj. destruct (drawn_events k d Hd) as (evs & Hevs & Hels).
  destruct (pd_partition _ _ _ _ _ Hpd _ _ _ Hd Hevs) as (gs & es & il & Hgs & _ & [Hg _ _ _ _] & _).
  destruct (Forall2_lookup_l _ _ _ _ _ Hg Hj) as (lines & Hln & [_ Hr]). exists evs, lines. split_and!; try done. by exists gs.
Qed.

Lemma idle_inactive u :
  shows pg Idle u → ui_inactive u = true ↔ ∀ k j ln, ¬ seen_red u k j ln.
Proof.
  intros Hs. pose proof (sh_partial _ _ _ Hs) as Hp. simpl in Hp.
  rewrite (sh_inactive _ _ _ Hs), bool_decide_eq_true. simpl. unfold first_error. rewrite <- Hp.
  rewrite head_None. split.
  - intros Hnil k j ln (e & He & Hsh & _)%red_error. apply (not_elem_of_nil e). rewrite <- Hnil. by apply list_elem_of_filter.
  - intros Hall. destruct (filter _ _) as [|e es] eqn:Hf; [done|]. exfalso.
    assert (e ∈ e :: es) as He by left. rewrite <- Hf in He. apply list_elem_of_filter in He as [Hsh He].
    destruct (error_red u e He Hsh) as (ln & Hr & _). by eapply Hall.
Qed.

Lemma idle_jump u :
  (∀ p, p ∈ data → drawable p ∧ largest_ok p ∧ longest_first p) → shows pg Idle u → ui_inactive u = false →
  ∃ u' k ln d lin l, handle pg Jump u = Some u' ∧
    seen_red u k 0 ln ∧ (∀ k' j' ln', seen_red u k' j' ln' → leftwards ln ln') ∧
    data !! k = Some d ∧ head (pv_PartialLinearizations d) = Some lin ∧
    (∀ lin', lin' ∈ pv_PartialLinearizations d → zlen lin' <= zlen lin) ∧ last lin = Some l ∧
    ui_selected u' = true ∧ ui_selectedIndex u' = (Z.of_nat k, ls_Index l) ∧ seen_red u' k 0 ln.
Proof.
  intros Hdr Hs. rewrite (sh_inactive _ _ _ Hs), bool_decide_eq_false. simpl. intros Hne.
  destruct (first_error pg None) as [e|] eqn:He; [|done].
  destruct (first_error_idle e (λ p Hp, proj1 (proj2 (Hdr p Hp))) He) as (d & lin & l & Hd & Hhd & Hl & Hz & Hix & Hin & Hsh).
  assert (∀ p, p ∈ data → drawable p ∧ largest_ok p) as Hdr' by (intros p Hp; by destruct (Hdr p Hp) as (? & ? & _)).
  destruct (handle_shows pg (drawn_page_ok Hdr') Idle u Jump Hs) as (u' & Hu' & Hs'); [done|done|].
  unfold next_mode in Hs'. simpl in Hs'. rewrite He in Hs'.
  pose proof (sh_partial _ _ _ Hs) as Hp. pose proof (sh_partial _ _ _ Hs') as Hp'. simpl in Hp, Hp'. rewrite <- Hp' in Hsh.
  assert (shown (ui_partialHidden u) e = true) as Hsh0.
  { rewrite Hp. unfold first_error in He. by apply head_Some_elem_of, list_elem_of_filter in He as [? _]. }
  destruct (error_red u e Hin Hsh0) as (ln & Hr & Hx). rewrite Hz in Hr.
  destruct (sh_selected _ _ _ Hs') as [Hsel Hsi]. exists u', (er_partition e), ln, d, lin, l. split_and!; try done.
  - intros k' j' ln' (e' & He' & Hsh' & _ & _ & Hx')%red_error. rewrite Hp in Hsh'.
    destruct (first_error_leftmost None e e' He He' Hsh') as (v & w & Hv & Hw & Hle). exists v, w. by rewrite Hx, <- Hx'.
  - intros lin' Hlin'. destruct (Hdr d (list_elem_of_lookup_2 _ _ _ Hd)) as (_ & _ & Hlf). by apply Hlf.
  - by rewrite Hsi, Hix.
  - destruct Hr as (lines & Hg & Hlin & _). exists lines. split_and!; [done..|]. rewrite <- Hz. by apply seen_shown.
Qed.
End drawn.

(** C18: The page implements its state machine.  On the data of a check it is drawn
    without a TypeError, and whatever the user does with the mouse - over the
    operations that are drawn, the background and the link - no handler fails, and
    the layers that are hidden, the mark of the selected operation and the link to
    an error are those of the mode the page is in: idle, hovering over an operation
    or one selected. *)
Theorem page_reacts data :
  (∀ p, p ∈ data → drawable p ∧ largest_ok p) →
  ∃ pg, render getBBox_width data = Some pg ∧ pg_data pg = data ∧
    ∀ ms, Forall (aims pg) ms → ∃ u, handle_all pg ms (start_ui pg) = Some u ∧ shows pg (modes pg ms Idle) u.
Proof.
  intros Hdr. destruct (render_drawn False data (λ p Hp, proj1 (Hdr p Hp)) (λ _ _ _ _ (Hno : False), match Hno with end)) as (pg & xPos & x & Hr & Hpd).
  exists pg. split; [done|]. split; [apply Hpd|]. intros ms Ha. pose proof (drawn_page_ok _ _ _ _ _ Hpd Hdr) as Hpg.
  apply (handle_all_shows pg Hpg); [by apply start_shows|done|done].
Qed.

(** C19: Points lie on boxes.  Texts are measured in multiples of a unit (such as 1/64
    pixel) and the page is at most [limit] pixels wide, where [limit] and a margin of
    100 pixels are within 2^53 units, so that no sum is rounded.  Then the page draws of
    every linearization one stroke for each operation, in order, and one for each
    operation that would be illegal next; each crosses the box of its operation, from
    [LINE_BLEED] above to [LINE_BLEED] below; successive ones are [EPSILON] apart, and
    so are the illegal ones from all the others. *)
Theorem points_on_boxes `{!GridNumber Num} (limit : Z) data :
  limit_ok (Num:=Num) limit → texts_on_grid limit getBBox_width → (∀ p, p ∈ data → drawable p) →
  ∃ pg w, render getBBox_width data = Some pg ∧ pg_width pg = Some w ∧ (nle w (of_int limit) →
    ∀ k d j lin, data !! k = Some d → pv_PartialLinearizations d !! j = Some lin →
    ∃ evs boxes groups lines pts errs, pg_events pg !! k = Some evs ∧ map ev_el evs = pv_History d ∧
      pg_boxes pg !! k = Some boxes ∧ pg_groups pg !! k = Some groups ∧ groups !! j = Some lines ∧ strokes lines = pts ++ errs ∧
      Forall2 (λ step ln, ∃ r, boxes.[ls_Index step] = Some r ∧ crosses r ln ∧ li_invalid ln = false) lin pts ∧
      Forall2 (λ t ln, ∃ r, boxes.[t.1] = Some r ∧ crosses r ln ∧ li_invalid ln = true) (tries evs lin) errs ∧
      StronglySorted apart pts ∧ ∀ a b, a ∈ pts → b ∈ errs → apart a b).
Proof.
  intros Hlim Htx Hdr.
  set (fine := ∀ L w, compute_layout getBBox_width data = Some L → page_width L = Some w → nle w (of_int limit)).
  destruct (render_drawn fine data Hdr) as (pg & xPos & x & Hr & Hpd).
  { intros L x q Hlo Hf. apply (page_exact limit Hlim Htx data Hdr L x q Hlo). intros w. apply Hf, Hlo. }
  destruct (pd_width _ _ _ _ _ Hpd) as (L & w & HL & Hw & Hpw). exists pg, w. split; [done|]. split; [done|]. intros Hle k d j lin Hd Hj.
  assert fine as Hf by (intros L' w' HL' Hw'; congruence).
  destruct (drawn_events _ _ _ _ _ Hpd k d Hd) as (evs & Hevs & Hels).
  destruct (pd_partition _ _ _ _ _ Hpd _ _ _ Hd Hevs) as (groups & es & il & Hgs & _ & [Hg _ _ _ _] & _).
  destruct (Forall2_lookup_l _ _ _ _ _ Hg Hj) as (lines & Hln & [(pts & errs & Hst & Hp & He & Hso & Hap) _]).
  assert (∀ inv i ev ln, evs.[i] = Some ev → at_event fine x inv ev ln →
    ∃ r, (map (draw_box xPos) evs).[i] = Some r ∧ crosses r ln ∧ li_invalid ln = inv) as Hbox.
  { intros inv i ev ln Hi Hat. exists (draw_box xPos ev). split; [by rewrite zlookup_fmap, Hi|].
    assert (ev ∈ concat (pg_events pg)) as Hc by (apply elem_of_concat; exists evs; split; [by eapply zlookup_elem|by eapply list_elem_of_lookup_2]).
    destruct (pd_x _ _ _ _ _ Hpd ev Hc) as [Hs He'].
    by destruct (at_event_crosses fine xPos x inv ev ln Hf (pd_fine _ _ _ _ _ Hpd Hf ev Hc) Hs He' Hat) as (? & ? & _). }
  exists evs, (map (draw_box xPos) evs), groups, lines, pts, errs. split_and!; try done.
  - rewrite (pd_boxes _ _ _ _ _ Hpd). change (map (map (draw_box xPos)) (pg_events pg)) with (map (draw_box xPos) <$> pg_events pg).
    by rewrite list_lookup_fmap, Hevs.
  - eapply Forall2_impl; [exact Hp|]. intros step ln (ev & Hev & Hat). by eapply Hbox.
  - apply Forall2_same_length_lookup_2; [by eapply Forall2_length|]. intros i [t ev] ln Ht Hl.
    eapply (Hbox true t ev); [|exact (Forall2_lookup_lr _ _ _ _ _ _ He Ht Hl)]. by eapply elem_of_tries, list_elem_of_lookup_2.
Qed.

(** C20: The link to the first error.  An error is a red stroke: the page draws one
    for every operation that would be illegal after a linearization.  While nothing
    is picked, the link is inactive just when no red stroke is visible; otherwise a
    click selects the last operation of a linearization that ends in the leftmost
    visible error, no linearization of its partition is longer, and this error stays
    visible. *)
Theorem jump_shows_error data :
  (∀ p, p ∈ data → drawable p ∧ largest_ok p ∧ longest_first p) →
  ∃ pg, render getBBox_width data = Some pg ∧
    (∀ k d j lin, data !! k = Some d → pv_PartialLinearizations d !! j = Some lin →
     ∃ evs lines, pg_events pg !! k = Some evs ∧ map ev_el evs = pv_History d ∧ drawn_group pg k j lines ∧
       Forall2 (λ t ln, ∃ v, ln = stroke (Some v) t.2 true) (tries evs lin) (red_strokes lines)) ∧
    ∀ ms u, Forall (aims pg) ms → modes pg ms Idle = Idle → handle_all pg ms (start_ui pg) = Some u →
    (ui_inactive u = true ↔ ∀ k j ln, ¬ seen_red pg u k j ln) ∧
    (ui_inactive u = false → ∃ u' k ln d lin l, handle pg Jump u = Some u' ∧
      seen_red pg u k 0 ln ∧ (∀ k' j' ln', seen_red pg u k' j' ln' → leftwards ln ln') ∧
      data !! k = Some d ∧ head (pv_PartialLinearizations d) = Some lin ∧
      (∀ lin', lin' ∈ pv_PartialLinearizations d → zlen lin' <= zlen lin) ∧ last lin = Some l ∧
      ui_selected u' = true ∧ ui_selectedIndex u' = (Z.of_nat k, ls_Index l) ∧ seen_red pg u' k 0 ln).
Proof.
  intros Hdr. destruct (render_drawn False data (λ p Hp, proj1 (Hdr p Hp)) (λ _ _ _ _ (Hno : False), match Hno with end)) as (pg & xPos & x & Hr & Hpd).
  exists pg. split; [done|]. split; [by apply (reds_drawn False data pg xPos x Hpd)|]. intros ms u Ha Hm Hu.
  assert (page_ok pg) as Hpg by (apply (drawn_page_ok _ _ _ _ _ Hpd); intros p Hp; by destruct (Hdr p Hp) as (? & ? & _)).
  destruct (handle_all_shows pg Hpg ms Idle (start_ui pg)) as (u1 & Hu1 & Hs); [by apply start_shows|done|done|].
  rewrite Hm in Hs. rewrite Hu in Hu1. injection Hu1 as <-. split; [by eapply idle_inactive|by eapply idle_jump].
Qed.
End page.

(** ** A history with an error *)

(** A put, and a get that returns something else. *)
Definition bad_get : list partitionVisualizationData :=
  [mkPartitionVisualizationData [mkHistoryElement 0 0 5 "put(a)"; mkHistoryElement 1 6 9 "get() -> b"]
     [[mkLinearizationStep 0 "a"]] {[0 := 0]}].

Lemma bad_get_ok p : p ∈ bad_get → drawable p ∧ largest_ok p.
Proof.
  intros ->%list_elem_of_singleton. split; split; simpl.
  - intros el Hel. repeat (apply elem_of_cons in Hel as [->|Hel]; [unfold timed, exact; simpl; lia|]). by apply elem_of_nil in Hel.
  - by intros lin ->%list_elem_of_singleton.
  - intros lin ->%list_elem_of_singleton. by apply (bool_decide_unpack _).
  - intros lin step ->%list_elem_of_singleton ->%list_elem_of_singleton. by eexists.
  - intros lin σ1 step σ2 el i el' ->%list_elem_of_singleton Hlin Hel Hel' Hi.
    assert (i = 0 ∨ i = 1) as Hi01 by (apply zlookup_lt_Some in Hel'; unfold zlen in Hel'; simpl in Hel'; lia).
    destruct σ1 as [|s1 σ1]; simplify_eq/=; [|by destruct σ1].
    destruct Hi01 as [->| ->]; vm_compute in Hel, Hel'; simplify_eq/=; lia.
  - intros i l [<- <-]%lookup_singleton_Some. unfold zlen. simpl. lia.
  - intros lin step [= <-] ->%list_elem_of_singleton. done.
Qed.

Lemma page_reacts_witness :
  ∃ pg u, render (λ _, of_int 50 : Qc) bad_get = Some pg ∧ handle_all pg [Over 0 1; Out; Click 0 0] (start_ui pg) = Some u ∧
    ui_selected u = true.
Proof.
  destruct (page_reacts (λ _, of_int 50 : Qc) bad_get bad_get_ok) as (pg & Hr & Hd & Hall).
  destruct (Hall [Over 0 1; Out; Click 0 0]) as (u & Hu & Hs).
  - constructor; [|constructor; [exact I|constructor; [|constructor]]]; unfold aims, target; rewrite Hd; eexists; (split; [reflexivity|]);
      vm_compute; split; congruence.
  - exists pg, u. split; [exact Hr|]. split; [exact Hu|]. by destruct (sh_selected _ _ _ Hs).
Defined.

(** All texts are 50 pixels wide, and the page is narrower than 1000. *)
Lemma points_on_boxes_witness :
  ∃ pg evs pts, render (λ _, of_int 50 : Qc) bad_get = Some pg ∧ pg_events pg !! 0%nat = Some evs ∧
    Forall2 (λ t (ln : line Qc), li_invalid ln = true) (tries evs [mkLinearizationStep 0 "a"]) pts.
Proof.
  destruct (points_on_boxes (λ _, of_int 50 : Qc) 1000 bad_get) as (pg & w & Hr & Hw & Hall).
  - by vm_compute.
  - intros text. exists (50 * 64). split; [simpl; lia|]. by apply (bool_decide_unpack _).
  - intros p Hp. exact (proj1 (bad_get_ok p Hp)).
  - assert (match render (λ _, of_int 50 : Qc) bad_get with
      | Some pg => match pg_width pg with Some w => bool_decide (nle w (of_int 1000)) | None => false end
      | None => false
      end = true) as Hn by (vm_compute; reflexivity).
    rewrite Hr, Hw in Hn. apply bool_decide_eq_true in Hn.
    destruct (Hall Hn 0%nat _ 0%nat _ eq_refl eq_refl) as (evs & boxes & groups & lines & pts & errs & He & _ & _ & _ & _ & _ & _ & Hf & _).
    exists pg, evs, errs. split; [exact Hr|]. split; [exact He|]. eapply Forall2_impl; [exact Hf|]. by intros t ln (r & _ & _ & ?).
Defined.

Lemma bad_get_longest p : p ∈ bad_get → drawable p ∧ largest_ok p ∧ longest_first p.
Proof.
  intros Hp. destruct (bad_get_ok p Hp) as [Hd Hl]. split_and!; [done..|]. apply list_elem_of_singleton in Hp as ->.
  intros lin lin' [= <-] ->%list_elem_of_singleton. done.
Qed.

Lemma jump_shows_error_witness :
  ∃ pg u' ln, render (λ _, of_int 50 : Qc) bad_get = Some pg ∧ handle pg Jump (start_ui pg) = Some u' ∧ ui_selectedIndex u' = (0, 0) ∧
    seen_red pg u' 0 0 ln.
Proof.
  destruct (jump_shows_error (λ _, of_int 50 : Qc) bad_get bad_get_longest) as (pg & Hr & _ & Hall).
  destruct (Hall [] (start_ui pg)) as [_ Hj]; [constructor|reflexivity|reflexivity|].
  destruct Hj as (u' & k & ln & d & lin & l & Hu & _ & _ & Hd & Hhd & _ & Hl & _ & Hix & Hred).
  - assert ((match render (λ _, of_int 50 : Qc) bad_get with Some pg => ui_inactive (start_ui pg) | None => true end) = false) as Hi
      by (vm_compute; reflexivity).
    rewrite Hr in Hi. exact Hi.
  - destruct k as [|k]; [|by destruct k]. injection Hd as <-. injection Hhd as <-. injection Hl as <-.
    exists pg, u', ln. split_and!; [exact Hr|exact Hu|exact Hix|exact Hred].
Defined.
End VisRenderSpec.
