(* ===== verification/Raft.v ===== *)
(** Model of raft/raft.go: the state of one server and each critical section of
    its handlers and goroutines as a function on that state.

    A Go [int] is a [Z].  [None] is a panic (an index out of range). *)

From S2P Require Import Prelude GoStd.

#[local] Open Scope Z_scope.
#[local] Open Scope go_scope.

Module Raft.

Section raft.
(** The type of the commands, [interface{}] in the code; [None] is [nil]. *)
Context {C : Type}.

(** ** Data *)

Record Log := mkLog {
  Entry : option C;
  Term : Z;
}.

Record ApplyMsg := mkApplyMsg {
  CommandValid : bool;
  Command : option C;
  CommandIndex : Z;
}.

(** [type Raft struct] without the lock, the RPC ends and the random source;
    [n_peers] is [len(rf.peers)], [electionResetCh] the number of tokens in the
    channel of capacity 1, [state] is 0 for a leader, 1 for a candidate and 2
    for a follower. *)
Record raft := mkRaft {
  n_peers : Z;
  me : Z;
  dead : Z;
  currentTerm : Z;
  voteFor : Z;
  log : list Log;
  LastLogIndex : Z;
  commitIndex : Z;
  lastApplied : Z;
  nextIndex : list Z;
  matchIndex : list Z;
  state : Z;
  electionResetCh : nat;
}.

Record AppendEntriesArgs := mkAppendEntriesArgs {
  ae_Term : Z;
  ae_LeaderId : Z;
  ae_PrevLogIndex : Z;
  ae_PrevLogTerm : Z;
  ae_Entries : list Log; (* [] is nil *)
  ae_LeaderCommit : Z;
}.

Record AppendEntriesReply := mkAppendEntriesReply {
  aer_Term : Z;
  aer_Success : bool;
}.

Record VoteArgs := mkVoteArgs {
  rv_Term : Z;
  rv_CandidateId : Z;
  rv_LastLogIndex : Z;
  rv_LastLogTerm : Z;
}.

Record VoteReply := mkVoteReply {
  rvr_Term : Z;
  rvr_VoteGranted : bool;
}.

(** ** Assignments *)

Definition set_term (t : Z) (rf : raft) : raft :=
  mkRaft (n_peers rf) (me rf) (dead rf) t (voteFor rf) (log rf) (LastLogIndex rf) (commitIndex rf)
    (lastApplied rf) (nextIndex rf) (matchIndex rf) (state rf) (electionResetCh rf).
Definition set_vote (v : Z) (rf : raft) : raft :=
  mkRaft (n_peers rf) (me rf) (dead rf) (currentTerm rf) v (log rf) (LastLogIndex rf) (commitIndex rf)
    (lastApplied rf) (nextIndex rf) (matchIndex rf) (state rf) (electionResetCh rf).
Definition set_log (l : list Log) (rf : raft) : raft :=
  mkRaft (n_peers rf) (me rf) (dead rf) (currentTerm rf) (voteFor rf) l (LastLogIndex rf) (commitIndex rf)
    (lastApplied rf) (nextIndex rf) (matchIndex rf) (state rf) (electionResetCh rf).
Definition set_commit (c : Z) (rf : raft) : raft :=
  mkRaft (n_peers rf) (me rf) (dead rf) (currentTerm rf) (voteFor rf) (log rf) (LastLogIndex rf) c
    (lastApplied rf) (nextIndex rf) (matchIndex rf) (state rf) (electionResetCh rf).
Definition set_applied (a : Z) (rf : raft) : raft :=
  mkRaft (n_peers rf) (me rf) (dead rf) (currentTerm rf) (voteFor rf) (log rf) (LastLogIndex rf)
    (commitIndex rf) a (nextIndex rf) (matchIndex rf) (state rf) (electionResetCh rf).
Definition set_nextIndex (l : list Z) (rf : raft) : raft :=
  mkRaft (n_peers rf) (me rf) (dead rf) (currentTerm rf) (voteFor rf) (log rf) (LastLogIndex rf)
    (commitIndex rf) (lastApplied rf) l (matchIndex rf) (state rf) (electionResetCh rf).
Definition set_matchIndex (l : list Z) (rf : raft) : raft :=
  mkRaft (n_peers rf) (me rf) (dead rf) (currentTerm rf) (voteFor rf) (log rf) (LastLogIndex rf)
    (commitIndex rf) (lastApplied rf) (nextIndex rf) l (state rf) (electionResetCh rf).
Definition set_state (s : Z) (rf : raft) : raft :=
  mkRaft (n_peers rf) (me rf) (dead rf) (currentTerm rf) (voteFor rf) (log rf) (LastLogIndex rf)
    (commitIndex rf) (lastApplied rf) (nextIndex rf) (matchIndex rf) s (electionResetCh rf).
Definition set_dead (d : Z) (rf : raft) : raft :=
  mkRaft (n_peers rf) (me rf) d (currentTerm rf) (voteFor rf) (log rf) (LastLogIndex rf)
    (commitIndex rf) (lastApplied rf) (nextIndex rf) (matchIndex rf) (state rf) (electionResetCh rf).
Definition set_resetCh (n : nat) (rf : raft) : raft :=
  mkRaft (n_peers rf) (me rf) (dead rf) (currentTerm rf) (voteFor rf) (log rf) (LastLogIndex rf)
    (commitIndex rf) (lastApplied rf) (nextIndex rf) (matchIndex rf) (state rf) n.

(** ** Creation and queries *)

Definition readPersist (data : list Byte.byte) (rf : raft) : raft := rf.

Definition persist (rf : raft) (persisted : list Byte.byte) : list Byte.byte := persisted.

Definition Make (npeers : nat) (me : Z) (persisted : list Byte.byte) : raft :=
  readPersist persisted
    (mkRaft (Z.of_nat npeers) me 0 0 (-1) [mkLog None 0] 0 0 0 (replicate npeers 1) (replicate npeers 0) 2 0).

Definition GetState (rf : raft) : Z * bool := (currentTerm rf, state rf =? 0).

Definition Kill (rf : raft) : raft := set_dead 1 rf.
Definition killed (rf : raft) : bool := dead rf =? 1.

(** A send on a full channel takes the [default] branch. *)
Definition resetElectionTimer (rf : raft) : raft :=
  if Nat.ltb (electionResetCh rf) 1 then set_resetCh (S (electionResetCh rf)) rf else rf.

Definition last_index (rf : raft) : Z := zlen (log rf) - 1.

(** ** Sending AppendEntries: [RequestHeartBeat] *)

(** The arguments one goroutine builds under the lock. *)
Definition heartbeat_args (server : Z) (rf : raft) : option AppendEntriesArgs :=
  next ← (nextIndex rf).[server];
  if zlen (log rf) - 1 <? next then
    e ← (log rf).[next - 1];
    Some (mkAppendEntriesArgs (currentTerm rf) (me rf) (next - 1) (Term e) [] (commitIndex rf))
  else if next >? 1 then
    e ← (log rf).[next - 1];
    entries ← (log rf).[next :];
    Some (mkAppendEntriesArgs (currentTerm rf) (me rf) (next - 1) (Term e) entries (commitIndex rf))
  else
    entries ← (log rf).[next :];
    Some (mkAppendEntriesArgs (currentTerm rf) (me rf) 0 (-1) entries (commitIndex rf)).

(** The loop over [matchIndex] that may advance [commitIndex] to [cmt]. *)
Fixpoint commit_loop (rf : raft) (cmt : Z) (i : Z) (match_ : list Z) (cnt : Z) : option raft :=
  match match_ with
  | [] => Some rf
  | m :: match_ =>
      if negb (i =? me rf) && (m >=? cmt) then
        let cnt := cnt + 1 in
        if cnt >? Z.quot (n_peers rf) 2 then
          e ← (log rf).[cmt];
          if Term e =? currentTerm rf then Some (set_commit cmt rf)
          else commit_loop rf cmt (i + 1) match_ cnt
        else commit_loop rf cmt (i + 1) match_ cnt
      else commit_loop rf cmt (i + 1) match_ cnt
  end.

(** [rf.nextIndex[server]--] *)
Definition decrement_next (server : Z) (rf : raft) : option raft :=
  next ← (nextIndex rf).[server];
  l ← (nextIndex rf).[server <- next - 1];
  Some (set_nextIndex l rf).

(** What the goroutine does with the reply. *)
Definition heartbeat_reply (server : Z) (args : AppendEntriesArgs) (reply : AppendEntriesReply)
    (rf : raft) : option raft :=
  if negb (ae_Term args =? currentTerm rf) then Some rf
  else if aer_Term reply >? currentTerm rf then
    Some (set_state 2 (set_vote (-1) (set_term (aer_Term reply) rf)))
  else if negb (zlen (ae_Entries args) =? 0) then
    if aer_Success reply then
      nl ← (nextIndex rf).[server <- ae_PrevLogIndex args + zlen (ae_Entries args) + 1];
      ml ← (matchIndex rf).[server <- ae_PrevLogIndex args + zlen (ae_Entries args)];
      let rf := set_matchIndex ml (set_nextIndex nl rf) in
      cmt ← (matchIndex rf).[server];
      if commitIndex rf <? cmt then commit_loop rf cmt 0 (matchIndex rf) 1 else Some rf
    else decrement_next server rf
  else if negb (aer_Success reply) then decrement_next server rf
  else Some rf.

(** ** Receiving AppendEntries: [RequestAppendEntriesReply] *)

(** The loop that skips the entries already in the log: the entries left and
    [logIdx]. *)
Fixpoint match_loop (entries : list Log) (logIdx : Z) (lg : list Log) : option (list Log * Z) :=
  match entries with
  | [] => Some ([], logIdx)
  | e :: rest =>
      if logIdx >=? zlen lg then Some (e :: rest, logIdx)
      else
        x ← lg.[logIdx];
        if Term e =? Term x then match_loop rest (logIdx + 1) lg else Some (e :: rest, logIdx)
  end.

(** Truncate at a conflict and append what is missing. *)
Definition merge_log (prev : Z) (entries lg : list Log) : option (list Log) :=
  '(entries, logIdx) ← match_loop entries (prev + 1) lg;
  if (logIdx <=? zlen lg - 1) && negb (zlen entries =? 0) then
    l ← lg.[: logIdx]; Some (l ++ entries)
  else if (logIdx >=? zlen lg) && negb (zlen entries =? 0) then Some (lg ++ entries)
  else Some lg.

(** A new term or leader is adopted. *)
Definition adopt_leader (args : AppendEntriesArgs) (rf : raft) : raft :=
  let rf := if ae_Term args >? currentTerm rf
            then set_term (ae_Term args) (set_vote (-1) rf) else rf in
  resetElectionTimer (set_state 2 (set_vote (ae_LeaderId args) rf)).

Definition RequestAppendEntriesReply (args : AppendEntriesArgs) (rf : raft) :
    option (raft * AppendEntriesReply) :=
  if (zlen (ae_Entries args) =? 0) && (ae_Term args >=? currentTerm rf) then
    let rf := adopt_leader args rf in
    ok ← (if zlen (log rf) - 1 <? ae_PrevLogIndex args then Some false
          else e ← (log rf).[ae_PrevLogIndex args]; Some (Term e =? ae_PrevLogTerm args));
    if negb ok then Some (rf, mkAppendEntriesReply (currentTerm rf) false)
    else
      let rf :=
        if ae_LeaderCommit args >? commitIndex rf then
          if zlen (log rf) - 1 >=? ae_LeaderCommit args
          then set_commit (ae_LeaderCommit args) rf else set_commit (zlen (log rf) - 1) rf
        else rf in
      Some (rf, mkAppendEntriesReply (currentTerm rf) true)
  else if ae_Term args >=? currentTerm rf then
    let rf := adopt_leader args rf in
    ok ← (if ae_PrevLogIndex args =? 0 then Some true
          else if zlen (log rf) >=? ae_PrevLogIndex args + 1
               then e ← (log rf).[ae_PrevLogIndex args]; Some (Term e =? ae_PrevLogTerm args)
               else Some false);
    if (ok : bool) then
      l ← merge_log (ae_PrevLogIndex args) (ae_Entries args) (log rf);
      let rf := set_log l rf in
      let rf := if zlen (log rf) - 1 >=? ae_LeaderCommit args
                then set_commit (ae_LeaderCommit args) rf else set_commit (zlen (log rf) - 1) rf in
      Some (rf, mkAppendEntriesReply (currentTerm rf) true)
    else Some (rf, mkAppendEntriesReply (currentTerm rf) false)
  else Some (rf, mkAppendEntriesReply (currentTerm rf) false).

(** ** Elections *)

(** The boolean tells whether the round goes on to [RequestVote]. *)
Definition startElection (rf : raft) : raft * bool :=
  if state rf =? 0 then (rf, false)
  else (set_vote (me rf) (set_term (currentTerm rf + 1) (set_state 1 rf)), true).

(** The index and term of the last entry, -1 for the term of an empty log. *)
Definition last_log_term (rf : raft) : option Z :=
  if zlen (log rf) >? 1 then e ← (log rf).[zlen (log rf) - 1]; Some (Term e) else Some (-1).

(** The arguments [RequestVote] builds under the lock. *)
Definition vote_args (rf : raft) : option VoteArgs :=
  t ← last_log_term rf;
  Some (mkVoteArgs (currentTerm rf) (me rf) (zlen (log rf) - 1) t).

(** The test on the candidate's log. *)
Definition log_ok (args : VoteArgs) (rf : raft) (lastTerm : Z) : bool :=
  (zlen (log rf) =? 1) || (rv_LastLogTerm args >? lastTerm) ||
  ((rv_LastLogTerm args =? lastTerm) && (rv_LastLogIndex args >=? zlen (log rf) - 1)).

(** The handler of a vote request. *)
Definition RequestVoteReply (args : VoteArgs) (rf : raft) : option (raft * VoteReply) :=
  lastTerm ← last_log_term rf;
  let rf := if rv_Term args >? currentTerm rf
            then set_state 2 (set_vote (-1) (set_term (rv_Term args) rf)) else rf in
  if (rv_Term args >=? currentTerm rf) && log_ok args rf lastTerm then
    if (voteFor rf =? -1) || (voteFor rf =? rv_CandidateId args) then
      Some (resetElectionTimer (set_vote (rv_CandidateId args) rf), mkVoteReply (currentTerm rf) true)
    else Some (rf, mkVoteReply (currentTerm rf) false)
  else Some (rf, mkVoteReply (currentTerm rf) false).

(** The goroutine of [RequestVote] with its reply; [voteNum] is shared by the
    goroutines of the round.  The boolean tells whether this goroutine made the
    server leader and started [leaderBeatLoop]. *)
Definition vote_reply (args : VoteArgs) (reply : VoteReply) (rf : raft) (voteNum : Z) : raft * Z * bool :=
  if negb (currentTerm rf =? rv_Term args) || negb (state rf =? 1) then (rf, voteNum, false)
  else if rvr_VoteGranted reply then
    let voteNum := voteNum + 1 in
    if (voteNum >? Z.quot (n_peers rf) 2) && (state rf =? 1) then
      let rf := set_state 0 rf in
      (set_nextIndex (map (λ _, zlen (log rf)) (nextIndex rf)) rf, voteNum, true)
    else (rf, voteNum, false)
  else if currentTerm rf <? rvr_Term reply then
    (set_state 2 (set_vote (-1) (set_term (rvr_Term reply) rf)), voteNum, false)
  else (rf, voteNum, false).

(** ** [Start] and the applier *)

(** The second critical section of [Start], with the [term] that [GetState]
    returned in the first. *)
Definition Start_append (command : C) (term : Z) (rf : raft) : raft * Z :=
  (set_log (log rf ++ [mkLog (Some command) term]) rf, zlen (log rf)).

(** [Start] when nothing else takes the lock in between. *)
Definition Start (command : C) (rf : raft) : raft * (Z * Z * bool) :=
  let '(term, isLeader) := GetState rf in
  if isLeader then
    let '(rf, index) := Start_append command term rf in (rf, (index, term, isLeader))
  else (rf, (0, term, isLeader)).

(** One pass of [applier] under the lock; the message is sent afterwards. *)
Definition applier_step (rf : raft) : option (raft * option ApplyMsg) :=
  if commitIndex rf >? lastApplied rf then
    let rf := set_applied (lastApplied rf + 1) rf in
    e ← (log rf).[lastApplied rf];
    Some (rf, Some (mkApplyMsg true (Entry e) (lastApplied rf)))
  else Some (rf, None).

(** ** The loops: what one pass does, given whether the deadline has passed *)

Inductive loop_action := Exit | Sleep | Elect | Beat.

(** [electionLoop]: the reset token, if any, postpones the deadline. *)
Definition electionLoop_step (after_deadline : bool) (rf : raft) : raft * loop_action :=
  if killed rf then (rf, Exit)
  else if (GetState rf).2 then (rf, Exit)
  else
    let '(rf, expired) :=
      match electionResetCh rf with
      | S n => (set_resetCh n rf, false)
      | O => (rf, after_deadline)
      end in
    (rf, if expired then Elect else Sleep).

(** [leaderBeatLoop] *)
Definition leaderBeatLoop_step (after_deadline : bool) (rf : raft) : loop_action :=
  if killed rf then Exit
  else if negb (GetState rf).2 then Exit
  else if after_deadline then Beat else Sleep.

(** Its end: whether the election loop is started again. *)
Definition leaderBeatLoop_end (rf : raft) : bool := negb (GetState rf).2 && negb (killed rf).

End raft.

Arguments Log : clear implicits.
Arguments ApplyMsg : clear implicits.
Arguments raft : clear implicits.
Arguments AppendEntriesArgs : clear implicits.

End Raft.
