(* ===== verification/RaftProof.v ===== *)
(** Properties of one Raft server (Raft.v): every handler is total on
    well-formed states and keeps them well formed, the log merge is the one of
    the protocol, votes and commits obey their rules. *)

From S2P Require Import Prelude GoStd Raft.

#[local] Open Scope Z_scope.
#[local] Open Scope go_scope.

Module RaftProof.
Export Raft.

Section proof.
Context {C : Type}.
Implicit Types (rf : raft C) (l lg L M : list (Log C)) (args : AppendEntriesArgs C) (vargs : VoteArgs) (e x : Log C).

(** ** Well-formed servers *)

Record wf rf : Prop := {
  wf_me : 0 <= me rf < n_peers rf;
  wf_next : zlen (nextIndex rf) = n_peers rf;
  wf_match : zlen (matchIndex rf) = n_peers rf;
  wf_log : log rf ≠ [];
  wf_commit : 0 <= commitIndex rf <= last_index rf;
  wf_applied : 0 <= lastApplied rf;
  wf_term : 0 <= currentTerm rf;
  wf_terms : ∀ e, e ∈ log rf → 0 <= Term e <= currentTerm rf;
  wf_state : state rf = 0 ∨ state rf = 1 ∨ state rf = 2;
}.

(** Well-formed arguments of AppendEntries. *)
Record ae_wf args : Prop := {
  aw_prev : 0 <= ae_PrevLogIndex args;
  aw_commit : 0 <= ae_LeaderCommit args;
  aw_terms : ∀ e, e ∈ ae_Entries args → 0 <= Term e <= ae_Term args;
}.

Lemma wf_zlen rf : wf rf → 0 < zlen (log rf).
Proof. intros Hwf. apply zlen_pos, Hwf. Qed.

Lemma Make_wf npeers i persisted :
  0 <= i < Z.of_nat npeers → wf (Make npeers i persisted).
Proof.
  intros Hi. unfold Make, readPersist. split; simpl; try done; try lia.
  - unfold zlen. by rewrite length_replicate.
  - unfold zlen. by rewrite length_replicate.
  - intros e ->%list_elem_of_singleton. simpl. lia.
Qed.

(** ** The log merge *)

(** The log matching property between two logs. *)
Definition log_matching l1 l2 : Prop :=
  ∀ i e1 e2, l1 !! i = Some e1 → l2 !! i = Some e2 → Term e1 = Term e2 → take (S i) l1 = take (S i) l2.

(** [match_loop] stops after the longest run of entries whose terms agree. *)
Lemma match_loop_spec entries k lg :
  ∃ n : nat, match_loop entries (Z.of_nat k) lg = Some (drop n entries, Z.of_nat (k + n)) ∧
    (n ≤ List.length entries)%nat ∧
    (∀ i, (i < n)%nat → ∃ e x, entries !! i = Some e ∧ lg !! (k + i)%nat = Some x ∧ Term e = Term x) ∧
    (∀ e x, entries !! n = Some e → lg !! (k + n)%nat = Some x → Term e ≠ Term x).
Proof.
  revert k. induction entries as [|e entries IH]; intros k; simpl.
  - exists 0%nat. rewrite Nat.add_0_r. split_and!; [done|lia|intros; lia|done].
  - rewrite Z.geb_leb. destruct (Z.leb_spec (zlen lg) (Z.of_nat k)) as [Hk|Hk].
    + exists 0%nat. rewrite Nat.add_0_r. split_and!; [done|lia|intros; lia|].
      intros e' x _ Hx%lookup_lt_Some. unfold zlen in Hk. lia.
    + rewrite zlookup_nat. destruct (lookup_lt_is_Some_2 lg k) as [x Hx]; [unfold zlen in Hk; lia|].
      rewrite Hx. simpl. destruct (Z.eqb_spec (Term e) (Term x)) as [Ht|Ht].
      * replace (Z.of_nat k + 1) with (Z.of_nat (S k)) by lia.
        destruct (IH (S k)) as (n & -> & Hn & Hall & Hne). exists (S n). split_and!; [|simpl; lia| |].
        -- simpl. do 2 f_equal. lia.
        -- intros [|i] Hi; [exists e, x; by rewrite Nat.add_0_r|].
           destruct (Hall i) as (e' & x' & ? & ? & ?); [lia|]. exists e', x'.
           by replace (k + S i)%nat with (S k + i)%nat by lia.
        -- intros e' x' He' Hx'. apply (Hne e' x'); [done|]. by replace (S k + n)%nat with (k + S n)%nat by lia.
      * exists 0%nat. rewrite Nat.add_0_r. split_and!; [done|lia|intros; lia|]. intros e' x' [= <-] Hx'. congruence.
Qed.

(** The result, whatever the logs: what agrees is kept, the rest replaced. *)
Lemma merge_log_spec (prev : nat) entries lg :
  (prev < List.length lg)%nat →
  ∃ n : nat, (n ≤ List.length entries)%nat ∧
    (∀ i, (i < n)%nat → ∃ e x, entries !! i = Some e ∧ lg !! (S prev + i)%nat = Some x ∧ Term e = Term x) ∧
    (∀ e x, entries !! n = Some e → lg !! (S prev + n)%nat = Some x → Term e ≠ Term x) ∧
    merge_log (Z.of_nat prev) entries lg =
      Some (if decide (n = List.length entries) then lg else take (S prev + n) lg ++ drop n entries).
Proof.
  intros Hprev. unfold merge_log. replace (Z.of_nat prev + 1) with (Z.of_nat (S prev)) by lia.
  destruct (match_loop_spec entries (S prev) lg) as (n & -> & Hn & Hall & Hne). exists n.
  split_and!; [done..|]. simpl.
  assert (S prev + n ≤ List.length lg)%nat as Hle.
  { destruct n as [|n]; [lia|]. destruct (Hall n) as (_ & x & _ & Hx%lookup_lt_Some & _); lia. }
  case_decide as Hnl.
  - assert (drop n entries = []) as -> by (apply drop_ge; lia).
    unfold zlen at 2 4. simpl. by rewrite !andb_false_r.
  - assert ((zlen (drop n entries) =? 0) = false) as ->.
    { apply Z.eqb_neq. unfold zlen. rewrite length_drop. lia. }
    simpl. rewrite !andb_true_r, Z.geb_leb.
    destruct (Z.leb_spec (Z.of_nat (S (prev + n))) (zlen lg - 1)) as [Hlt|Hge].
    + assert ((lg.[: Z.of_nat (S (prev + n))]) = Some (take (S prev + n) lg)) as ->; [|done].
      apply slice_to_Some. split; [lia|]. by rewrite Nat2Z.id.
    + destruct (Z.leb_spec (zlen lg) (Z.of_nat (S (prev + n)))); [|lia].
      rewrite take_ge; [done|]. unfold zlen in *. lia.
Qed.

(** Entries taken from a log [L] that matches the receiver's: the receiver ends
    up with [L], or already had it. *)
Lemma merge_log_matching (prev : nat) L lg :
  log_matching L lg → (prev < List.length L)%nat → (prev < List.length lg)%nat →
  take (S prev) L = take (S prev) lg →
  ∃ l, merge_log (Z.of_nat prev) (drop (S prev) L) lg = Some l ∧
    (l = L ∧ ¬ L `prefix_of` lg ∨ l = lg ∧ take (List.length L) lg = L).
Proof.
  intros Hlm HL Hlg Heq. destruct (merge_log_spec prev (drop (S prev) L) lg Hlg) as (n & Hn & Hall & Hne & ->).
  eexists. split; [done|]. rewrite length_drop in *.
  assert (take (S prev + n) L = take (S prev + n) lg) as Htake.
  { destruct n as [|n]; [by rewrite Nat.add_0_r|]. destruct (Hall n) as (e & x & He & Hx & Ht); [lia|].
    rewrite lookup_drop in He. replace (S prev + S n)%nat with (S (S prev + n)) by lia. by eapply Hlm. }
  case_decide as Hd.
  - right. split; [done|]. rewrite <- (take_ge L (List.length L)) at 2 by done.
    replace (List.length L) with (S prev + n)%nat by lia. done.
  - left. split; [rewrite <- Htake, drop_drop; apply take_drop|]. intros [x Hx].
    destruct (lookup_lt_is_Some_2 (drop (S prev) L) n) as [e He]; [rewrite length_drop; lia|].
    apply (Hne e e); [done| |done]. rewrite lookup_drop in He. subst lg. by apply lookup_app_l_Some.
Qed.
(** ** Receiving AppendEntries *)

(** The fields no incoming request touches. *)
Definition same_server rf rf' : Prop :=
  n_peers rf' = n_peers rf ∧ me rf' = me rf ∧ dead rf' = dead rf ∧ lastApplied rf' = lastApplied rf ∧
  nextIndex rf' = nextIndex rf ∧ matchIndex rf' = matchIndex rf ∧ LastLogIndex rf' = LastLogIndex rf.

Lemma reset_same rf : same_server rf (resetElectionTimer rf).
Proof. unfold resetElectionTimer. by case_match. Qed.

Lemma reset_fields rf :
  currentTerm (resetElectionTimer rf) = currentTerm rf ∧ voteFor (resetElectionTimer rf) = voteFor rf ∧
  log (resetElectionTimer rf) = log rf ∧ commitIndex (resetElectionTimer rf) = commitIndex rf ∧
  state (resetElectionTimer rf) = state rf.
Proof. unfold resetElectionTimer. by case_match. Qed.

Lemma adopt_leader_spec args rf :
  currentTerm rf <= ae_Term args →
  same_server rf (adopt_leader args rf) ∧ currentTerm (adopt_leader args rf) = ae_Term args ∧
  voteFor (adopt_leader args rf) = ae_LeaderId args ∧ state (adopt_leader args rf) = 2 ∧
  log (adopt_leader args rf) = log rf ∧ commitIndex (adopt_leader args rf) = commitIndex rf.
Proof.
  intros Ht. unfold adopt_leader.
  set (rf1 := if ae_Term args >? currentTerm rf then set_term (ae_Term args) (set_vote (-1) rf) else rf).
  assert (currentTerm rf1 = ae_Term args ∧ same_server rf rf1 ∧ log rf1 = log rf ∧
          commitIndex rf1 = commitIndex rf) as (H1 & H2 & H3 & H4).
  { unfold rf1. rewrite Z.gtb_ltb. destruct (Z.ltb_spec (currentTerm rf) (ae_Term args)); split_and!; try done. lia. }
  destruct (reset_fields (set_state 2 (set_vote (ae_LeaderId args) rf1))) as (-> & -> & -> & -> & ->).
  split_and!; try done. unfold same_server in *.
  pose proof (reset_same (set_state 2 (set_vote (ae_LeaderId args) rf1))) as Hr. unfold same_server in Hr.
  simpl in *. intuition congruence.
Qed.

(** The receiver's log contains the entry the request builds on. *)
Definition consistent args lg : Prop :=
  (ae_PrevLogIndex args = 0 ∧ ae_Entries args ≠ []) ∨
  ∃ e, lg.[ae_PrevLogIndex args] = Some e ∧ Term e = ae_PrevLogTerm args.

(** The commit index after a successful request, on the new log. *)
Definition new_commit args rf lg : Z :=
  if decide (ae_Entries args = [] ∧ ae_LeaderCommit args <= commitIndex rf) then commitIndex rf
  else ae_LeaderCommit args `min` (zlen lg - 1).

Record accepted args rf rf' : Prop := {
  ac_same : same_server rf rf';
  ac_term : currentTerm rf' = ae_Term args;
  ac_vote : voteFor rf' = ae_LeaderId args;
  ac_state : state rf' = 2;
}.

(** The handler, branch by branch. *)
Inductive append_entries_result args rf : raft C → AppendEntriesReply → Prop :=
| ae_stale :
    ae_Term args < currentTerm rf →
    append_entries_result args rf rf (mkAppendEntriesReply (currentTerm rf) false)
| ae_inconsistent rf' :
    currentTerm rf <= ae_Term args → accepted args rf rf' → ¬ consistent args (log rf) →
    log rf' = log rf → commitIndex rf' = commitIndex rf →
    append_entries_result args rf rf' (mkAppendEntriesReply (ae_Term args) false)
| ae_success rf' :
    currentTerm rf <= ae_Term args → accepted args rf rf' → consistent args (log rf) →
    merge_log (ae_PrevLogIndex args) (ae_Entries args) (log rf) = Some (log rf') →
    commitIndex rf' = new_commit args rf (log rf') →
    append_entries_result args rf rf' (mkAppendEntriesReply (ae_Term args) true).

Lemma set_commit_accepted args rf rf' c : accepted args rf rf' → accepted args rf (set_commit c rf').
Proof. intros []. by split. Qed.

Lemma set_log_accepted args rf rf' l : accepted args rf rf' → accepted args rf (set_log l rf').
Proof. intros []. by split. Qed.

Lemma merge_log_total (prev : Z) entries lg :
  0 <= prev < zlen lg → ∃ l, merge_log prev entries lg = Some l.
Proof.
  intros Hp. rewrite <- (Z2Nat.id prev) by lia.
  destruct (merge_log_spec (Z.to_nat prev) entries lg) as (n & _ & _ & _ & ->); [unfold zlen in Hp; lia|eauto].
Qed.

Lemma merge_log_nil (prev : Z) lg : 0 <= prev < zlen lg → merge_log prev [] lg = Some lg.
Proof.
  intros Hp. rewrite <- (Z2Nat.id prev) by lia.
  destruct (merge_log_spec (Z.to_nat prev) [] lg) as (n & Hn & _ & _ & ->); [unfold zlen in Hp; lia|].
  simpl in Hn. by rewrite decide_True by (simpl; lia).
Qed.

Lemma zlen_nil_iff (l : list (Log C)) : (zlen l =? 0) = bool_decide (l = []).
Proof.
  destruct (bool_decide_reflect (l = [])) as [->|Hl]; [done|]. apply Z.eqb_neq. by rewrite zlen_0.
Qed.

(** The consistency check of a request with entries. *)
Lemma prev_check args rf :
  ae_Entries args ≠ [] → 0 <= ae_PrevLogIndex args → 0 < zlen (log rf) →
  ∃ b, (if ae_PrevLogIndex args =? 0 then Some true
        else if zlen (log rf) >=? ae_PrevLogIndex args + 1
             then e ← (log rf).[ae_PrevLogIndex args]; Some (Term e =? ae_PrevLogTerm args)
             else Some false) = Some b ∧
    (b = true ↔ consistent args (log rf)) ∧ (b = true → ae_PrevLogIndex args < zlen (log rf)).
Proof.
  intros He Hprev Hlen. unfold consistent. destruct (Z.eqb_spec (ae_PrevLogIndex args) 0) as [H0|H0].
  { exists true. split; [done|]. split; [split; [intros _; by left|done]|lia]. }
  rewrite Z.geb_leb. destruct (Z.leb_spec (ae_PrevLogIndex args + 1) (zlen (log rf))).
  - destruct (proj2 (zlookup_is_Some (log rf) (ae_PrevLogIndex args))) as [e Hz]; [lia|].
    rewrite Hz. simpl. eexists. split; [done|]. rewrite Z.eqb_eq. split; [|lia].
    split; [intros ?; right; eauto|]. intros [[? _]|(e' & [= <-] & ?)]; done.
  - exists false. split; [done|]. split; [|done]. split; [done|].
    intros [[? _]|(e & Hz%zlookup_lt_Some & _)]; [done|lia].
Qed.

Lemma AppendEntries_spec args rf :
  log rf ≠ [] → 0 <= ae_PrevLogIndex args →
  ∃ rf' reply, RequestAppendEntriesReply args rf = Some (rf', reply) ∧
    append_entries_result args rf rf' reply.
Proof.
  intros Hne Hprev. pose proof (zlen_pos _ Hne) as Hlen. unfold RequestAppendEntriesReply.
  rewrite zlen_nil_iff, Z.geb_leb. destruct (Z.leb_spec (currentTerm rf) (ae_Term args)) as [Ht|Ht]; simpl.
  2: { rewrite andb_false_r. do 2 eexists. split; [done|]. by constructor. }
  rewrite andb_true_r. destruct (adopt_leader_spec args rf Ht) as (Hs & Hterm & Hvote & Hst & Hlog & Hcom).
  set (rf1 := adopt_leader args rf) in *.
  assert (accepted args rf rf1) as Hacc by done. rewrite Hlog, Hcom, Hterm.
  destruct (bool_decide_reflect (ae_Entries args = [])) as [He|He].
  - destruct (Z.ltb_spec (zlen (log rf) - 1) (ae_PrevLogIndex args)) as [Hlt|Hge]; simpl.
    { do 2 eexists. split; [done|]. apply ae_inconsistent; try done.
      intros [[_ ?]|(e & Hz%zlookup_lt_Some & _)]; [done|lia]. }
    destruct (proj2 (zlookup_is_Some (log rf) (ae_PrevLogIndex args))) as [e Hz]; [lia|]. rewrite Hz. simpl.
    destruct (Z.eqb_spec (Term e) (ae_PrevLogTerm args)) as [Het|Het]; simpl.
    + match goal with |- context [Some (?X, mkAppendEntriesReply (currentTerm ?X) true)] => set (rf2 := X) end.
      assert (accepted args rf rf2 ∧ log rf2 = log rf) as [Hacc2 Hlog2].
      { unfold rf2. repeat case_match; (split; [by try apply set_commit_accepted|done]). }
      rewrite (ac_term _ _ _ Hacc2). do 2 eexists. split; [done|]. apply ae_success; try done.
      * right. eauto.
      * by rewrite He, merge_log_nil, Hlog2 by lia.
      * rewrite Hlog2. unfold rf2, new_commit. rewrite Z.gtb_ltb, Z.geb_leb.
        destruct (Z.ltb_spec (commitIndex rf) (ae_LeaderCommit args)).
        -- rewrite decide_False by (intros [_ ?]; lia).
           destruct (Z.leb_spec (ae_LeaderCommit args) (zlen (log rf) - 1)); simpl; lia.
        -- by rewrite decide_True by (split; [done|lia]).
    + do 2 eexists. split; [done|]. apply ae_inconsistent; try done.
      intros [[_ ?]|(e' & Hz' & ?)]; [done|congruence].
  - destruct (prev_check args rf He Hprev Hlen) as (b & -> & Hb & Hbl).
    simpl. destruct b.
    + destruct (merge_log_total (ae_PrevLogIndex args) (ae_Entries args) (log rf)) as [l Hl];
        [split; [done|by apply Hbl]|]. rewrite Hl. simpl.
      match goal with |- context [Some (?X, mkAppendEntriesReply (currentTerm ?X) true)] => set (rf2 := X) end.
      assert (accepted args rf rf2 ∧ log rf2 = l) as [Hacc2 Hlog2].
      { unfold rf2. repeat case_match; (split; [by apply set_commit_accepted, set_log_accepted|done]). }
      rewrite (ac_term _ _ _ Hacc2). do 2 eexists. split; [done|]. apply ae_success; try done.
      * by apply Hb.
      * by rewrite Hl, Hlog2.
      * rewrite Hlog2. unfold rf2, new_commit. rewrite decide_False by tauto. rewrite Z.geb_leb.
        destruct (Z.leb_spec (ae_LeaderCommit args) (zlen l - 1)); simpl; lia.
    + do 2 eexists. split; [done|]. apply ae_inconsistent; try done. by rewrite <- Hb.
Qed.
Lemma merge_log_elem (prev : Z) entries lg l e :
  0 <= prev < zlen lg → merge_log prev entries lg = Some l → e ∈ l → e ∈ lg ∨ e ∈ entries.
Proof.
  intros Hp. rewrite <- (Z2Nat.id prev) by lia.
  destruct (merge_log_spec (Z.to_nat prev) entries lg) as (n & _ & _ & _ & ->); [unfold zlen in Hp; lia|].
  intros [= <-]. case_decide; [by left|]. intros [Hin|Hin]%elem_of_app.
  - left. by eapply sublist_elem, Hin; apply sublist_take.
  - right. by eapply sublist_elem, Hin; apply sublist_drop.
Qed.

Lemma merge_log_length (prev : Z) entries lg l :
  0 <= prev < zlen lg → merge_log prev entries lg = Some l → prev < zlen l.
Proof.
  intros Hp. rewrite <- (Z2Nat.id prev) by lia.
  destruct (merge_log_spec (Z.to_nat prev) entries lg) as (n & _ & _ & _ & ->); [unfold zlen in Hp; lia|].
  intros [= <-]. unfold zlen in *. case_decide; [lia|]. rewrite length_app, length_take. lia.
Qed.

Lemma consistent_bound args lg : 0 < zlen lg → consistent args lg → ae_PrevLogIndex args < zlen lg.
Proof. intros ? [[-> _]|(e & Hz%zlookup_lt_Some & _)]; lia. Qed.

Lemma AppendEntries_wf args rf rf' reply :
  wf rf → ae_wf args → append_entries_result args rf rf' reply → wf rf'.
Proof.
  intros Hwf [Hprev Hcom Hents] Hr. pose proof (wf_zlen _ Hwf) as Hlen.
  destruct Hr as [Ht|rf' Ht [Hs Hterm Hvote Hst] Hnc Hlog Hc|rf' Ht [Hs Hterm Hvote Hst] Hcons Hlog Hc]; [done| |].
  - destruct Hs as (Hn & Hm & Hd & Ha & Hnx & Hmx & _). destruct Hwf.
    split; rewrite ?Hn, ?Hm, ?Ha, ?Hnx, ?Hmx, ?Hterm, ?Hlog, ?Hc, ?Hst; auto; try lia.
    + unfold last_index in *. by rewrite Hlog.
    + intros e He. specialize (wf_terms0 e He). lia.
  - pose proof (consistent_bound _ _ Hlen Hcons) as Hb.
    pose proof (merge_log_length _ _ _ _ (conj Hprev Hb) Hlog) as Hl.
    pose proof (λ e, merge_log_elem _ _ _ _ e (conj Hprev Hb) Hlog) as Hel.
    destruct Hs as (Hn & Hm & Hd & Ha & Hnx & Hmx & _). destruct Hwf.
    split; rewrite ?Hn, ?Hm, ?Ha, ?Hnx, ?Hmx, ?Hterm, ?Hc, ?Hst; auto; try lia.
    + intros Hnil. rewrite Hnil in Hl. unfold zlen in Hl. simpl in Hl. lia.
    + unfold last_index in *. unfold new_commit. case_decide as Hd'; [|lia].
      destruct Hd' as [He _]. rewrite He, merge_log_nil in Hlog by lia. injection Hlog as <-. done.
    + intros e [He|He]%Hel; [specialize (wf_terms0 e He)|specialize (Hents e He)]; lia.
Qed.

(** ** Sending AppendEntries *)

(** What a request says about the log it was built from. *)
Record ae_from args lg : Prop := {
  af_prev : 0 <= ae_PrevLogIndex args < zlen lg;
  af_prevterm : ae_PrevLogIndex args = 0 ∧ ae_Entries args ≠ [] ∨
                ∃ e, lg.[ae_PrevLogIndex args] = Some e ∧ Term e = ae_PrevLogTerm args;
  af_entries : ae_Entries args = [] ∧ ae_PrevLogIndex args + 1 = zlen lg ∨
               ae_Entries args = drop (Z.to_nat (ae_PrevLogIndex args + 1)) lg;
}.

Lemma heartbeat_args_spec server rf next :
  (nextIndex rf).[server] = Some next → 1 <= next <= zlen (log rf) →
  ∃ args, heartbeat_args server rf = Some args ∧ ae_from args (log rf) ∧
    ae_Term args = currentTerm rf ∧ ae_LeaderId args = me rf ∧ ae_LeaderCommit args = commitIndex rf ∧
    ae_PrevLogIndex args = next - 1.
Proof.
  intros Hnx Hr. unfold heartbeat_args. rewrite Hnx. simpl.
  destruct (proj2 (zlookup_is_Some (log rf) (next - 1))) as [e He]; [lia|]. rewrite He. simpl.
  assert (slice_from (log rf) next = Some (drop (Z.to_nat next) (log rf))) as Hsl.
  { apply slice_from_Some. split; [lia|done]. }
  destruct (Z.ltb_spec (zlen (log rf) - 1) next) as [Hlt|Hge].
  { eexists. split; [done|]. split_and!; simpl; try done.
    split; simpl; [lia|right; eauto|left; split; [done|lia]]. }
  rewrite Z.gtb_ltb, Hsl. simpl. destruct (Z.ltb_spec 1 next) as [Hlt1|Hge1].
  { eexists. split; [done|]. split_and!; simpl; try done.
    split; simpl; [lia|right; eauto|right]. do 2 f_equal. lia. }
  assert (next = 1) as -> by lia. eexists. split; [done|]. split_and!; simpl; try done.
  split; simpl; [lia| |by right]. left. split; [done|]. intros Hnil.
  apply (f_equal List.length) in Hnil. rewrite length_drop in Hnil. unfold zlen in *. simpl in Hnil. lia.
Qed.

Lemma ae_from_wf args rf :
  wf rf → ae_from args (log rf) → ae_Term args = currentTerm rf → ae_LeaderCommit args = commitIndex rf → ae_wf args.
Proof.
  intros Hwf [Hp _ He] Ht Hc. split; [lia|rewrite Hc; by apply Hwf|]. intros e Hin. rewrite Ht.
  destruct He as [[He _]|He]; rewrite He in Hin; [by apply elem_of_nil in Hin|].
  eapply wf_terms; [done|]. by eapply sublist_elem, Hin; apply sublist_drop.
Qed.

(** A request built from [L]: the receiver keeps its log or ends up with [L],
    the latter only if it did not have [L] already; after a success its log contains [L]. *)
Lemma append_entries_log args rf rf' reply L :
  log rf ≠ [] → ae_from args L → log_matching L (log rf) → take 1 L = take 1 (log rf) →
  append_entries_result args rf rf' reply →
  (log rf' = log rf ∨ log rf' = L ∧ ¬ L `prefix_of` log rf) ∧
  (aer_Success reply = true → L `prefix_of` log rf').
Proof.
  intros Hne [Hp Hpt He] Hlm H1 Hr. pose proof (zlen_pos _ Hne) as Hlen.
  destruct Hr as [Ht|rf' Ht _ _ Hlog _|rf' Ht _ Hc Hlog _]; [by split; [left|]|by split; [left|]|].
  pose proof (consistent_bound _ _ Hlen Hc) as Hpl.
  set (k := Z.to_nat (ae_PrevLogIndex args)).
  assert (Z.of_nat k = ae_PrevLogIndex args) as Hk by lia.
  assert (take (S k) L = take (S k) (log rf)) as Htake.
  { destruct Hc as [[H0 _]|(x & Hx & Hxt)]; [by replace k with 0%nat by lia|].
    destruct Hpt as [[H0 _]|(y & Hy & Hyt)]; [by replace k with 0%nat by lia|].
    rewrite zlookup_pos in Hx, Hy by lia. eapply Hlm; [done|done|congruence]. }
  destruct He as [[He Hl]|He].
  - rewrite He, merge_log_nil in Hlog by lia. injection Hlog as Hlog. rewrite <- Hlog. split; [by left|].
    intros _. exists (drop (S k) (log rf)). rewrite <- (take_drop (S k) (log rf)) at 1. f_equal.
    rewrite <- Htake. apply take_ge. unfold zlen in Hl. lia.
  - rewrite He, <- Hk in Hlog. replace (Z.to_nat (Z.of_nat k + 1)) with (S k) in Hlog by lia.
    destruct (merge_log_matching k L (log rf) Hlm) as (l & Hm & Hl); [unfold zlen in *; lia..|done|].
    rewrite Hlog in Hm. injection Hm as ->. destruct Hl as [[-> ?]|[-> Htl]]; [by split; [right|]|].
    split; [by left|]. intros _. rewrite <- Htl. apply prefix_take.
Qed.

(** The other servers known to hold the entry [cmt]. *)
Definition acked cmt rf : list Z :=
  filter (λ i, i ≠ me rf ∧ cmt <= default 0 ((matchIndex rf).[i])) (seqZ 0 (zlen (matchIndex rf))).

Definition majority (n k : Z) : Prop := Z.quot n 2 < k.

#[global] Instance majority_dec n k : Decision (majority n k).
Proof. unfold majority. apply _. Defined.
(** ** The commit rule *)

Lemma commit_loop_spec rf cmt e pre match_ :
  (log rf).[cmt] = Some e → matchIndex rf = pre ++ match_ →
  let acks i := filter (λ i, i ≠ me rf ∧ cmt <= default 0 ((matchIndex rf).[i])) (seqZ 0 i) in
  (¬ majority (n_peers rf) (1 + zlen (acks (zlen pre))) ∨ Term e ≠ currentTerm rf) →
  commit_loop rf cmt (zlen pre) match_ (1 + zlen (acks (zlen pre))) =
    Some (if decide (majority (n_peers rf) (1 + zlen (acked cmt rf)) ∧ Term e = currentTerm rf)
          then set_commit cmt rf else rf).
Proof.
  intros He. revert pre. induction match_ as [|m match_ IH]; intros pre Hm acks Hno; simpl.
  - rewrite app_nil_r in Hm. unfold acked. rewrite Hm. rewrite decide_False; [done|].
    unfold acks in Hno. rewrite Hm in Hno. tauto.
  - assert (seqZ 0 (zlen pre + 1) = seqZ 0 (zlen pre) ++ [zlen pre]) as Hseq.
    { rewrite seqZ_app by (unfold zlen; lia). f_equal. }
    assert ((matchIndex rf).[zlen pre] = Some m) as Hmi.
    { rewrite Hm, zlookup_app_r, Z.sub_diag by lia. done. }
    assert (zlen (pre ++ [m]) = zlen pre + 1) as Hz by (by rewrite zlen_app).
    assert (matchIndex rf = (pre ++ [m]) ++ match_) as Hm' by (by rewrite <- app_assoc).
    specialize (IH (pre ++ [m]) Hm'). cbv zeta in IH. rewrite Hz, Hseq, filter_app in IH.
    rewrite filter_cons, filter_nil, Hmi in IH. simpl in IH. rewrite Z.geb_leb.
    destruct (Z.eqb_spec (zlen pre) (me rf)) as [Hme|Hme]; simpl.
    { rewrite decide_False, app_nil_r in IH by tauto. by apply IH. }
    destruct (Z.leb_spec cmt m) as [Hcm|Hcm].
    2: { rewrite decide_False, app_nil_r in IH by lia. by apply IH. }
    assert (zlen [zlen pre] = 1) as Hz1 by done.
    rewrite decide_True in IH by done. rewrite zlen_app, Hz1 in IH. fold (acks (zlen pre)) in IH.
    replace (1 + zlen (acks (zlen pre)) + 1) with (1 + (zlen (acks (zlen pre)) + 1)) by lia.
    rewrite Z.gtb_ltb. destruct (Z.ltb_spec (Z.quot (n_peers rf) 2) (1 + (zlen (acks (zlen pre)) + 1)))
      as [Hmaj|Hmaj].
    + rewrite He. simpl. destruct (Z.eqb_spec (Term e) (currentTerm rf)) as [Ht|Ht].
      * rewrite decide_True; [done|]. split; [|done]. unfold majority.
        assert (zlen (acks (zlen pre)) + 1 <= zlen (acked cmt rf)); [|lia]. unfold acked.
        assert (zlen (matchIndex rf) = zlen pre + 1 + zlen match_) as -> by (by rewrite Hm', zlen_app, Hz).
        rewrite seqZ_app, filter_app, zlen_app by (unfold zlen; lia).
        rewrite Hseq, filter_app, filter_cons, filter_nil, Hmi. simpl. rewrite decide_True by done.
        rewrite zlen_app, Hz1. fold (acks (zlen pre)). pose proof (zlen_nonneg (filter (λ i, i ≠ me rf ∧ cmt <= default 0 ((matchIndex rf).[i]))
          (seqZ (0 + (zlen pre + 1)) (zlen match_)))). lia.
      * apply IH. by right.
    + apply IH. left. unfold majority. lia.
Qed.

(** [commitIndex] moves to [cmt] exactly when a majority holds the entry and it
    is of the current term. *)
Lemma commit_loop_start rf cmt e :
  (log rf).[cmt] = Some e → 1 <= Z.quot (n_peers rf) 2 →
  commit_loop rf cmt 0 (matchIndex rf) 1 =
    Some (if decide (majority (n_peers rf) (1 + zlen (acked cmt rf)) ∧ Term e = currentTerm rf)
          then set_commit cmt rf else rf).
Proof.
  intros He Hn. apply (commit_loop_spec rf cmt e [] (matchIndex rf) He eq_refl). left.
  unfold majority. simpl. unfold zlen. simpl. lia.
Qed.
(** ** The reply to AppendEntries *)

Inductive heartbeat_reply_result (server : Z) args (reply : AppendEntriesReply) rf : raft C → Prop :=
| hr_old_term :
    ae_Term args ≠ currentTerm rf → heartbeat_reply_result server args reply rf rf
| hr_step_down :
    ae_Term args = currentTerm rf → currentTerm rf < aer_Term reply →
    heartbeat_reply_result server args reply rf
      (set_state 2 (set_vote (-1) (set_term (aer_Term reply) rf)))
| hr_matched nl ml rf1 cmt e :
    ae_Term args = currentTerm rf → aer_Term reply <= currentTerm rf →
    ae_Entries args ≠ [] → aer_Success reply = true →
    cmt = ae_PrevLogIndex args + zlen (ae_Entries args) → (log rf).[cmt] = Some e →
    zupdate (nextIndex rf) server (cmt + 1) = Some nl → zupdate (matchIndex rf) server cmt = Some ml →
    rf1 = set_matchIndex ml (set_nextIndex nl rf) →
    heartbeat_reply_result server args reply rf
      (if decide (commitIndex rf < cmt ∧ majority (n_peers rf) (1 + zlen (acked cmt rf1)) ∧ Term e = currentTerm rf)
       then set_commit cmt rf1 else rf1)
| hr_rejected next nl :
    ae_Term args = currentTerm rf → aer_Term reply <= currentTerm rf → aer_Success reply = false →
    (nextIndex rf).[server] = Some next → zupdate (nextIndex rf) server (next - 1) = Some nl →
    heartbeat_reply_result server args reply rf (set_nextIndex nl rf)
| hr_heartbeat :
    ae_Term args = currentTerm rf → aer_Term reply <= currentTerm rf → aer_Success reply = true →
    ae_Entries args = [] → heartbeat_reply_result server args reply rf rf.

Lemma heartbeat_reply_spec server args reply rf :
  wf rf → 0 <= server < n_peers rf → server ≠ me rf → 0 <= ae_PrevLogIndex args →
  (ae_Term args = currentTerm rf → ae_PrevLogIndex args + zlen (ae_Entries args) < zlen (log rf)) →
  ∃ rf', heartbeat_reply server args reply rf = Some rf' ∧ heartbeat_reply_result server args reply rf rf'.
Proof.
  intros Hwf Hs Hme Hprev Hlen. unfold heartbeat_reply.
  destruct (Z.eqb_spec (ae_Term args) (currentTerm rf)) as [Ht|Ht]; simpl; [|eexists; split; [done|by constructor]].
  specialize (Hlen Ht). rewrite Z.gtb_ltb.
  destruct (Z.ltb_spec (currentTerm rf) (aer_Term reply)) as [Hlt|Hge]; [eexists; split; [done|by constructor]|].
  assert (0 <= server < zlen (nextIndex rf)) as Hsn by (rewrite (wf_next _ Hwf); lia).
  assert (0 <= server < zlen (matchIndex rf)) as Hsm by (rewrite (wf_match _ Hwf); lia).
  assert (aer_Success reply = false → ∃ rf', decrement_next server rf = Some rf' ∧
    heartbeat_reply_result server args reply rf rf') as Hrej.
  { intros Hf. unfold decrement_next. destruct (proj2 (zlookup_is_Some (nextIndex rf) server) Hsn) as [next Hn].
    destruct (zupdate_total (nextIndex rf) server (next - 1) Hsn) as [nl Hnl].
    rewrite Hn. simpl. rewrite Hnl. simpl. eexists. split; [done|]. by eapply hr_rejected. }
  rewrite zlen_nil_iff. destruct (bool_decide_reflect (ae_Entries args = [])) as [He|He]; simpl.
  { destruct (aer_Success reply) eqn:Es; simpl; [eexists; split; [done|by apply hr_heartbeat]|by apply Hrej]. }
  destruct (aer_Success reply) eqn:Es; [|by apply Hrej].
  set (cmt := ae_PrevLogIndex args + zlen (ae_Entries args)).
  destruct (zupdate_total (nextIndex rf) server (cmt + 1) Hsn) as [nl Hnl].
  destruct (zupdate_total (matchIndex rf) server cmt Hsm) as [ml Hml].
  fold cmt. rewrite Hnl. simpl. rewrite Hml. simpl.
  assert (ml.[server] = Some cmt) as Hls by (rewrite (zlookup_zupdate _ _ _ _ _ Hml); by rewrite decide_True).
  rewrite Hls. simpl. pose proof (zlen_nonneg (ae_Entries args)) as Hz0.
  destruct (proj2 (zlookup_is_Some (log rf) cmt)) as [e Hz]; [unfold cmt; lia|].
  set (rf1 := set_matchIndex ml (set_nextIndex nl rf)).
  eexists. split; [|by eapply (hr_matched _ _ _ _ nl ml rf1 cmt e)].
  destruct (Z.ltb_spec (commitIndex rf) cmt) as [Hc|Hc]; [|by rewrite decide_False by lia].
  assert (1 <= Z.quot (n_peers rf1) 2) as Hn2.
  { simpl. pose proof (wf_me _ Hwf). rewrite Z.quot_div_nonneg by lia.
    apply Z.div_le_lower_bound; [lia|]. lia. }
  rewrite (commit_loop_start rf1 cmt e Hz Hn2 : commit_loop rf1 cmt 0 ml 1 = _). f_equal.
  simpl. apply decide_ext. tauto.
Qed.

Lemma heartbeat_reply_wf server args reply rf rf' :
  wf rf → 0 <= ae_PrevLogIndex args → heartbeat_reply_result server args reply rf rf' → wf rf'.
Proof.
  intros Hwf Hprev Hr. destruct Hr as [|Ht Hlt|nl ml rf1 cmt e Ht Hge He Hs Hcmt Hz Hnl Hml ->|next nl Ht Hge Hs Hn Hnl|];
    try done.
  - destruct Hwf. split; simpl; auto; [lia|]. intros x Hx. specialize (wf_terms0 x Hx). lia.
  - assert (wf (set_matchIndex ml (set_nextIndex nl rf))) as Hwf1.
    { destruct Hwf. split; simpl; auto; [by rewrite (zlen_zupdate _ _ _ _ Hnl)|by rewrite (zlen_zupdate _ _ _ _ Hml)]. }
    case_decide; [|done]. destruct Hwf1. split; simpl in *; auto. unfold last_index. simpl.
    apply zlookup_lt_Some in Hz. lia.
  - destruct Hwf. split; simpl; auto. by rewrite (zlen_zupdate _ _ _ _ Hnl).
Qed.

(** ** Votes *)

(** The candidate's log is at least as up to date (section 5.4.1 of the Raft
    paper); a log without entries accepts every candidate. *)
Definition up_to_date (vargs : VoteArgs) lg : Prop :=
  zlen lg = 1 ∨
  ∃ e, last lg = Some e ∧
    (Term e < rv_LastLogTerm vargs ∨ Term e = rv_LastLogTerm vargs ∧ zlen lg - 1 <= rv_LastLogIndex vargs).

Lemma last_zlookup lg : lg ≠ [] → lg.[zlen lg - 1] = last lg.
Proof.
  intros Hne. destruct (exists_last Hne) as (l & e & ->). rewrite last_snoc, zlen_app.
  replace (zlen l + zlen [e] - 1) with (zlen l) by (unfold zlen; simpl; lia).
  rewrite zlookup_app_r, Z.sub_diag by lia. done.
Qed.

Lemma last_log_term_spec rf :
  wf rf → ∃ t, last_log_term rf = Some t ∧ ∀ vargs, log_ok vargs rf t = true ↔ up_to_date vargs (log rf).
Proof.
  intros Hwf. pose proof (wf_zlen _ Hwf) as Hl. unfold last_log_term, log_ok, up_to_date. rewrite Z.gtb_ltb.
  destruct (Z.ltb_spec 1 (zlen (log rf))) as [H1|H1].
  - rewrite last_zlookup by apply Hwf. destruct (last (log rf)) as [e|] eqn:Hla.
    2: { apply last_None in Hla. by destruct (wf_log _ Hwf). }
    simpl. eexists. split; [done|]. intros vargs.
    rewrite !orb_true_iff, andb_true_iff, Z.gtb_ltb, Z.geb_leb, Z.ltb_lt, Z.leb_le, !Z.eqb_eq. split.
    + intros [[?|?]|[? ?]]; [lia|right; eauto|right; exists e; split; [done|right; lia]].
    + intros [?|(e' & [= <-] & [?|[? ?]])]; [lia|left; by right|right; lia].
  - eexists. split; [done|]. intros vargs. assert (zlen (log rf) = 1) as -> by lia. simpl. split; [by left|done].
Qed.

Definition same_log rf rf' : Prop := log rf' = log rf ∧ commitIndex rf' = commitIndex rf.

Inductive vote_result vargs rf : raft C → VoteReply → Prop :=
| vr_stale :
    rv_Term vargs < currentTerm rf → vote_result vargs rf rf (mkVoteReply (currentTerm rf) false)
| vr_granted rf' :
    currentTerm rf <= rv_Term vargs → up_to_date vargs (log rf) →
    currentTerm rf < rv_Term vargs ∨ voteFor rf = -1 ∨ voteFor rf = rv_CandidateId vargs →
    same_server rf rf' → same_log rf rf' → currentTerm rf' = rv_Term vargs →
    voteFor rf' = rv_CandidateId vargs →
    state rf' = (if decide (currentTerm rf < rv_Term vargs) then 2 else state rf) →
    vote_result vargs rf rf' (mkVoteReply (rv_Term vargs) true)
| vr_refused rf' :
    currentTerm rf <= rv_Term vargs →
    ¬ up_to_date vargs (log rf) ∨
      currentTerm rf = rv_Term vargs ∧ voteFor rf ≠ -1 ∧ voteFor rf ≠ rv_CandidateId vargs →
    same_server rf rf' → same_log rf rf' → currentTerm rf' = rv_Term vargs →
    voteFor rf' = (if decide (currentTerm rf < rv_Term vargs) then -1 else voteFor rf) →
    state rf' = (if decide (currentTerm rf < rv_Term vargs) then 2 else state rf) →
    vote_result vargs rf rf' (mkVoteReply (rv_Term vargs) false).

Lemma RequestVoteReply_spec vargs rf :
  wf rf → ∃ rf' reply, RequestVoteReply vargs rf = Some (rf', reply) ∧ vote_result vargs rf rf' reply.
Proof.
  intros Hwf. unfold RequestVoteReply. destruct (last_log_term_spec rf Hwf) as (t & -> & Hok). simpl.
  rewrite Z.gtb_ltb, Z.geb_leb.
  set (rf1 := if currentTerm rf <? rv_Term vargs
              then set_state 2 (set_vote (-1) (set_term (rv_Term vargs) rf)) else rf).
  assert (same_server rf rf1 ∧ same_log rf rf1 ∧ currentTerm rf1 = currentTerm rf `max` rv_Term vargs ∧
    voteFor rf1 = (if decide (currentTerm rf < rv_Term vargs) then -1 else voteFor rf) ∧
    state rf1 = (if decide (currentTerm rf < rv_Term vargs) then 2 else state rf)) as (Hs & Hsl & Ht & Hv & Hst).
  { unfold rf1. destruct (Z.ltb_spec (currentTerm rf) (rv_Term vargs)); simpl.
    - rewrite !decide_True by done. split_and!; try done. lia.
    - rewrite !decide_False by lia. split_and!; try done. lia. }
  assert (∀ v, log_ok v rf1 t = log_ok v rf t) as Hok1 by (intros v; unfold log_ok; by rewrite (proj1 Hsl)).
  rewrite Hok1, Ht. destruct (Z.leb_spec (currentTerm rf `max` rv_Term vargs) (rv_Term vargs)) as [Hle|Hgt]; simpl.
  2: { assert (rf1 = rf) as -> by (unfold rf1; destruct (Z.ltb_spec (currentTerm rf) (rv_Term vargs)); [lia|done]).
       replace (currentTerm rf `max` rv_Term vargs) with (currentTerm rf) by lia.
       do 2 eexists. split; [done|]. apply vr_stale. lia. }
  assert (currentTerm rf `max` rv_Term vargs = rv_Term vargs) as Hmax by lia. rewrite Hmax in Ht |- *.
  destruct (log_ok vargs rf t) eqn:Eok.
  - apply Hok in Eok. destruct ((voteFor rf1 =? -1) || (voteFor rf1 =? rv_CandidateId vargs)) eqn:Ev.
    + do 2 eexists. split; [done|]. apply orb_true_iff in Ev. rewrite !Z.eqb_eq, Hv in Ev.
      destruct (reset_fields (set_vote (rv_CandidateId vargs) rf1)) as (R1 & R2 & R3 & R4 & R5).
      pose proof (reset_same (set_vote (rv_CandidateId vargs) rf1)) as R6.
      apply vr_granted; [lia|done| | | | | |].
      * case_decide; [by left|]. by right.
      * unfold same_server in *. simpl in R6. intuition congruence.
      * unfold same_log in *. simpl in R3, R4. intuition congruence.
      * by rewrite R1.
      * by rewrite R2.
      * by rewrite R5.
    + do 2 eexists. split; [done|]. apply orb_false_iff in Ev as [E1 E2].
      rewrite Z.eqb_neq, Hv in E1. rewrite Z.eqb_neq, Hv in E2.
      apply vr_refused; try done; [lia|]. right. case_decide; [done|]. split; [lia|done].
  - do 2 eexists. split; [done|]. apply vr_refused; try done; [lia|]. left.
    rewrite <- Hok, Eok. done.
Qed.

Lemma vote_wf vargs rf rf' reply :
  wf rf → vote_result vargs rf rf' reply → wf rf'.
Proof.
  intros Hwf Hr.
  assert (∀ t v, currentTerm rf <= t → same_server rf rf' → same_log rf rf' → currentTerm rf' = t →
    state rf' = (if decide (currentTerm rf < rv_Term vargs) then 2 else state rf) → voteFor rf' = v → wf rf') as H.
  { intros t v Hle (Hn & Hm & Hd & Ha & Hnx & Hmx & _) [Hlog Hc] Ht Hst _. destruct Hwf.
    split; rewrite ?Hn, ?Hm, ?Ha, ?Hnx, ?Hmx, ?Ht, ?Hlog, ?Hc, ?Hst; auto; try lia.
    - unfold last_index in *. by rewrite Hlog.
    - intros e He. specialize (wf_terms0 e He). lia.
    - case_decide; auto. }
  destruct Hr; eauto.
Qed.
Inductive vote_reply_result vargs (reply : VoteReply) rf (voteNum : Z) : raft C → Z → bool → Prop :=
| vrr_ignored :
    currentTerm rf ≠ rv_Term vargs ∨ state rf ≠ 1 → vote_reply_result vargs reply rf voteNum rf voteNum false
| vrr_elected :
    currentTerm rf = rv_Term vargs → state rf = 1 → rvr_VoteGranted reply = true →
    majority (n_peers rf) (voteNum + 1) →
    vote_reply_result vargs reply rf voteNum
      (set_nextIndex (map (λ _, zlen (log rf)) (nextIndex rf)) (set_state 0 rf)) (voteNum + 1) true
| vrr_counted :
    currentTerm rf = rv_Term vargs → state rf = 1 → rvr_VoteGranted reply = true →
    ¬ majority (n_peers rf) (voteNum + 1) →
    vote_reply_result vargs reply rf voteNum rf (voteNum + 1) false
| vrr_step_down :
    currentTerm rf = rv_Term vargs → state rf = 1 → rvr_VoteGranted reply = false →
    currentTerm rf < rvr_Term reply →
    vote_reply_result vargs reply rf voteNum
      (set_state 2 (set_vote (-1) (set_term (rvr_Term reply) rf))) voteNum false
| vrr_refused :
    currentTerm rf = rv_Term vargs → state rf = 1 → rvr_VoteGranted reply = false →
    rvr_Term reply <= currentTerm rf →
    vote_reply_result vargs reply rf voteNum rf voteNum false.

Lemma vote_reply_spec vargs reply rf voteNum :
  vote_reply_result vargs reply rf voteNum (vote_reply vargs reply rf voteNum).1.1
    (vote_reply vargs reply rf voteNum).1.2 (vote_reply vargs reply rf voteNum).2.
Proof.
  unfold vote_reply. destruct (Z.eqb_spec (currentTerm rf) (rv_Term vargs)) as [Ht|Ht]; simpl;
    [|constructor; by left].
  destruct (Z.eqb_spec (state rf) 1) as [Hs|Hs]; simpl; [|constructor; by right].
  destruct (rvr_VoteGranted reply) eqn:Eg; simpl.
  - rewrite Z.gtb_ltb, andb_true_r. destruct (Z.ltb_spec (Z.quot (n_peers rf) 2) (voteNum + 1)); simpl.
    + by apply vrr_elected.
    + apply vrr_counted; try done. unfold majority. lia.
  - destruct (Z.ltb_spec (currentTerm rf) (rvr_Term reply)); simpl; [by apply vrr_step_down|by apply vrr_refused].
Qed.

Lemma vote_reply_wf vargs reply rf voteNum rf' voteNum' b :
  wf rf → vote_reply_result vargs reply rf voteNum rf' voteNum' b → wf rf'.
Proof.
  intros Hwf Hr. destruct Hr; try done; destruct Hwf; split; simpl; auto.
  - unfold zlen in *. by rewrite length_map.
  - lia.
  - intros e He. specialize (wf_terms0 e He). lia.
Qed.

(** ** The other operations *)

Lemma vote_args_spec rf :
  wf rf → ∃ vargs, vote_args rf = Some vargs ∧ rv_Term vargs = currentTerm rf ∧ rv_CandidateId vargs = me rf ∧
    rv_LastLogIndex vargs = last_index rf ∧
    (if decide (zlen (log rf) = 1) then rv_LastLogTerm vargs = -1
     else ∃ e, last (log rf) = Some e ∧ rv_LastLogTerm vargs = Term e).
Proof.
  intros Hwf. pose proof (wf_zlen _ Hwf) as Hl. unfold vote_args, last_log_term. rewrite Z.gtb_ltb.
  destruct (Z.ltb_spec 1 (zlen (log rf))) as [H1|H1].
  - rewrite last_zlookup by apply Hwf. destruct (last (log rf)) as [e|] eqn:Hla.
    2: { apply last_None in Hla. by destruct (wf_log _ Hwf). }
    simpl. eexists. split_and!; [done..|]. rewrite decide_False by lia. eauto.
  - simpl. eexists. split_and!; [done..|]. rewrite decide_True by lia. done.
Qed.

Lemma startElection_wf rf : wf rf → wf (startElection rf).1.
Proof.
  intros Hwf. unfold startElection. case_match; [done|]. destruct Hwf. split; simpl; auto; [lia|].
  intros e He. specialize (wf_terms0 e He). lia.
Qed.

(** [Start_append] with a term that is not ahead keeps the log well formed. *)
Lemma Start_append_wf command t rf :
  wf rf → 0 <= t <= currentTerm rf → wf (Start_append command t rf).1.
Proof.
  intros Hwf Ht. destruct Hwf. split; simpl; auto.
  - by destruct (log rf).
  - unfold last_index in *. simpl. rewrite zlen_app. unfold zlen at 2. simpl. lia.
  - intros e [He|He]%elem_of_app; [by apply wf_terms0|]. apply list_elem_of_singleton in He as ->. simpl. lia.
Qed.

Lemma applier_step_spec rf :
  wf rf →
  ∃ rf' msg, applier_step rf = Some (rf', msg) ∧ wf rf' ∧
    (commitIndex rf <= lastApplied rf → rf' = rf ∧ msg = None) ∧
    (lastApplied rf < commitIndex rf → rf' = set_applied (lastApplied rf + 1) rf ∧
       ∃ e, (log rf).[lastApplied rf + 1] = Some e ∧
            msg = Some (mkApplyMsg true (Entry e) (lastApplied rf + 1))).
Proof.
  intros Hwf. unfold applier_step. rewrite Z.gtb_ltb.
  destruct (Z.ltb_spec (lastApplied rf) (commitIndex rf)) as [Hlt|Hge].
  - simpl. pose proof (wf_commit _ Hwf) as Hc. pose proof (wf_applied _ Hwf) as Ha. unfold last_index in Hc.
    destruct (proj2 (zlookup_is_Some (log rf) (lastApplied rf + 1))) as [e He]; [lia|]. rewrite He. simpl.
    do 2 eexists. split; [done|]. split; [|split; [lia|eauto]].
    destruct Hwf. split; simpl; auto. lia.
  - do 2 eexists. split; [done|]. split_and!; [done..|lia].
Qed.

Lemma Kill_wf rf : wf rf → wf (Kill rf).
Proof. intros []. by split. Qed.

Lemma electionLoop_wf b rf : wf rf → wf (electionLoop_step b rf).1.
Proof.
  intros Hwf. unfold electionLoop_step. repeat case_match; simpl in *; simplify_eq; try done.
  destruct Hwf. by split.
Qed.
End proof.

End RaftProof.
