(* ===== verification/RaftNet.v ===== *)
(** Model of a cluster running raft/raft.go: the servers, the goroutines waiting
    for the lock or for an RPC, and one step per critical section.

    A message may be delayed for ever (its step is never taken), which covers
    losses, and messages overtake each other freely.  A request is handled at
    most once and its reply processed at most once, as package labrpc
    guarantees. *)

From S2P Require Import Prelude GoStd Raft RaftProof.

#[local] Open Scope Z_scope.

Module RaftNet.
Export RaftProof.

Section net.
Context {C : Type}.

(** One peer's goroutine of a vote round: request not handled yet, reply under
    way, vote counted, reply ignored. *)
Inductive vote_call := VWaiting | VAnswered (reply : VoteReply) | VCounted | VIgnored.

(** A call of [RequestVote]; [r_args] is [None] until its critical section has
    run. *)
Record round := mkRound {
  r_server : nat;
  r_args : option VoteArgs;
  r_voteNum : Z;
  r_calls : list vote_call;
}.

Inductive beat_call := BPending | BSent (args : AppendEntriesArgs C)
  | BAnswered (args : AppendEntriesArgs C) (reply : AppendEntriesReply) | BDone.

(** One peer's goroutine of [RequestHeartBeat]. *)
Record beat := mkBeat {
  b_server : nat;
  b_peer : nat;
  b_call : beat_call;
}.

(** A call of [Start] that saw a leader and has not appended yet. *)
Record start := mkStart {
  s_server : nat;
  s_command : C;
  s_term : Z;
}.

Record net := mkNet {
  nodes : list (raft C);
  rounds : list round;
  beats : list beat;
  starts : list (option start);
}.

Definition set_node (i : nat) (rf : raft C) (s : net) : net :=
  mkNet (<[i := rf]> (nodes s)) (rounds s) (beats s) (starts s).
Definition set_rounds (r : list round) (s : net) : net := mkNet (nodes s) r (beats s) (starts s).
Definition set_beats (b : list beat) (s : net) : net := mkNet (nodes s) (rounds s) b (starts s).
Definition set_starts (l : list (option start)) (s : net) : net := mkNet (nodes s) (rounds s) (beats s) l.

(** [RequestHeartBeat]: a goroutine for each other peer. *)
Definition spawn_beats (i : nat) (s : net) : net :=
  set_beats (beats s ++
    (map (λ j, mkBeat i j BPending) (filter (λ j, j ≠ i) (seq 0 (List.length (nodes s)))))) s.

Inductive label :=
| LElect (i : nat)              (* [startElection] *)
| LVoteArgs (k : nat)           (* the critical section of [RequestVote] *)
| LVoteHandle (k j : nat)       (* peer [j] handles the request of round [k] *)
| LVoteReply (k j : nat)        (* the reply of [j] is processed *)
| LBeat (i : nat)               (* a leader calls [RequestHeartBeat] *)
| LBeatArgs (k : nat)           (* goroutine [k] builds its arguments *)
| LBeatHandle (k : nat)         (* the peer handles them *)
| LBeatReply (k : nat)          (* the reply is processed *)
| LStartCheck (i : nat) (c : C) (* [Start]: [GetState] *)
| LStartAppend (k : nat)        (* [Start]: the append *)
| LApply (i : nat)              (* one pass of [applier] *)
| LRestart (i : nat).           (* crash and [Make] *)

Definition exec (l : label) (s : net) : option net :=
  match l with
  | LElect i =>
      rf ← nodes s !! i;
      let '(rf, go) := startElection rf in
      let s := set_node i rf s in
      if (go : bool) then Some (set_rounds (rounds s ++ [mkRound i None 1 []]) s) else Some s
  | LVoteArgs k =>
      r ← rounds s !! k; rf ← nodes s !! r_server r;
      match r_args r with
      | Some _ => None
      | None =>
          args ← vote_args rf;
          Some (set_rounds (<[k := mkRound (r_server r) (Some args) (r_voteNum r)
                                           (replicate (List.length (nodes s)) VWaiting)]> (rounds s)) s)
      end
  | LVoteHandle k j =>
      r ← rounds s !! k; args ← r_args r; call ← r_calls r !! j; rf ← nodes s !! j;
      match call with
      | VWaiting =>
          if decide (j = r_server r) then None
          else
            '(rf, reply) ← RequestVoteReply args rf;
            Some (set_rounds (<[k := mkRound (r_server r) (r_args r) (r_voteNum r)
                                             (<[j := VAnswered reply]> (r_calls r))]> (rounds s)) (set_node j rf s))
      | _ => None
      end
  | LVoteReply k j =>
      r ← rounds s !! k; args ← r_args r; call ← r_calls r !! j; rf ← nodes s !! r_server r;
      match call with
      | VAnswered reply =>
          let '(rf, voteNum, leader) := vote_reply args reply rf (r_voteNum r) in
          let call := if decide (voteNum = r_voteNum r) then VIgnored else VCounted in
          let s := set_rounds (<[k := mkRound (r_server r) (r_args r) voteNum
                                             (<[j := call]> (r_calls r))]> (rounds s))
                              (set_node (r_server r) rf s) in
          Some (if (leader : bool) then spawn_beats (r_server r) s else s)
      | _ => None
      end
  | LBeat i =>
      rf ← nodes s !! i;
      if (GetState rf).2 then Some (spawn_beats i s) else None
  | LBeatArgs k =>
      b ← beats s !! k; rf ← nodes s !! b_server b;
      match b_call b with
      | BPending =>
          args ← heartbeat_args (Z.of_nat (b_peer b)) rf;
          Some (set_beats (<[k := mkBeat (b_server b) (b_peer b) (BSent args)]> (beats s)) s)
      | _ => None
      end
  | LBeatHandle k =>
      b ← beats s !! k; rf ← nodes s !! b_peer b;
      match b_call b with
      | BSent args =>
          '(rf, reply) ← RequestAppendEntriesReply args rf;
          Some (set_beats (<[k := mkBeat (b_server b) (b_peer b) (BAnswered args reply)]> (beats s))
                          (set_node (b_peer b) rf s))
      | _ => None
      end
  | LBeatReply k =>
      b ← beats s !! k; rf ← nodes s !! b_server b;
      match b_call b with
      | BAnswered args reply =>
          rf ← heartbeat_reply (Z.of_nat (b_peer b)) args reply rf;
          Some (set_beats (<[k := mkBeat (b_server b) (b_peer b) BDone]> (beats s))
                          (set_node (b_server b) rf s))
      | _ => None
      end
  | LStartCheck i c =>
      rf ← nodes s !! i;
      let '(term, isLeader) := GetState rf in
      if (isLeader : bool) then Some (set_starts (starts s ++ [Some (mkStart i c term)]) s) else Some s
  | LStartAppend k =>
      p ← starts s !! k; p ← p; rf ← nodes s !! s_server p;
      let '(rf, _) := Start_append (s_command p) (s_term p) rf in
      Some (spawn_beats (s_server p) (set_starts (<[k := None]> (starts s)) (set_node (s_server p) rf s)))
  | LApply i =>
      rf ← nodes s !! i; '(rf, _) ← applier_step rf; Some (set_node i rf s)
  | LRestart i =>
      rf ← nodes s !! i;
      Some (set_node i (Make (List.length (nodes s)) (Z.of_nat i) (persist rf [])) s)
  end.

Fixpoint run (ls : list label) (s : net) : option net :=
  match ls with [] => Some s | l :: ls => s ← exec l s; run ls s end.

(** A cluster of [n] fresh servers. *)
Definition init_net (n : nat) : net :=
  mkNet (map (λ i, Make n (Z.of_nat i) []) (seq 0 n)) [] [] [].

(** What the code relies on without checking it: a heartbeat goroutine takes
    its snapshot while its server is still leader, and no server restarts. *)
Definition timely (l : label) (s : net) : Prop :=
  match l with
  | LBeatArgs k => ∀ b rf, beats s !! k = Some b → nodes s !! b_server b = Some rf → state rf = 0
  | LRestart _ => False
  | _ => True
  end.

Fixpoint timely_run (ls : list label) (s : net) : Prop :=
  match ls with
  | [] => True
  | l :: ls => timely l s ∧ match exec l s with Some s => timely_run ls s | None => True end
  end.

(** Server [i] leads term [t]. *)
Definition leads (s : net) (i : nat) (t : Z) : Prop :=
  ∃ rf, nodes s !! i = Some rf ∧ state rf = 0 ∧ currentTerm rf = t.
End net.

Arguments net : clear implicits.
Arguments label : clear implicits.
Arguments beat : clear implicits.
Arguments start : clear implicits.

End RaftNet.
