(* ===== verification/RaftSafety.v ===== *)
(** Election Safety of the cluster of RaftNet.v: at most one server is elected
    per term, provided heartbeat goroutines are timely and servers do not
    restart; and both provisos are needed. *)

From S2P Require Import Prelude GoStd Raft RaftProof RaftNet.

#[local] Open Scope Z_scope.

Module RaftSafety.
Export RaftNet.

(** ** What the critical sections do to term, vote and role *)

Section effects.
Context {C : Type}.
Implicit Types (rf : raft C) (args : AppendEntriesArgs C) (vargs : VoteArgs).

Lemma adopt_leader_effect args rf :
  currentTerm rf <= ae_Term args →
  me (adopt_leader args rf) = me rf ∧ n_peers (adopt_leader args rf) = n_peers rf ∧
  currentTerm (adopt_leader args rf) = ae_Term args ∧ voteFor (adopt_leader args rf) = ae_LeaderId args ∧
  state (adopt_leader args rf) = 2.
Proof. intros Ht. destruct (adopt_leader_spec args rf Ht) as ((? & ? & _) & ? & ? & ? & _). done. Qed.

Lemma append_entries_effect args rf rf' reply :
  RequestAppendEntriesReply args rf = Some (rf', reply) →
  me rf' = me rf ∧ n_peers rf' = n_peers rf ∧
  (rf' = rf ∨ currentTerm rf <= ae_Term args ∧ currentTerm rf' = ae_Term args ∧
              voteFor rf' = ae_LeaderId args ∧ state rf' = 2).
Proof.
  unfold RequestAppendEntriesReply. rewrite Z.geb_leb.
  destruct (Z.leb_spec (currentTerm rf) (ae_Term args)) as [Ht|Ht].
  2: { rewrite andb_false_r. intros [= <- _]. auto. }
  destruct (adopt_leader_effect args rf Ht) as (Hm & Hn & Hc & Hv & Hs). rewrite andb_true_r.
  destruct (_ =? 0).
  - intros (ok & _ & Hr)%bind_Some. revert Hr. repeat case_match; intros [= <- _]; simpl; auto 10.
  - intros (ok & _ & Hr)%bind_Some. destruct ok.
    + apply bind_Some in Hr as (l & _ & Hr). revert Hr. repeat case_match; intros [= <- _]; simpl; auto 10.
    + injection Hr as <- _. auto 10.
Qed.

Lemma commit_loop_effect rf cmt i l cnt rf' :
  commit_loop rf cmt i l cnt = Some rf' → rf' = rf ∨ rf' = set_commit cmt rf.
Proof.
  revert i cnt. induction l as [|m l IH]; intros i cnt; simpl; [intros [= ->]; by left|].
  destruct (_ && _); [|apply IH]. destruct (_ >? _); [|apply IH].
  intros (e & _ & He)%bind_Some. destruct (_ =? _); [|by eapply IH]. injection He as <-. by right.
Qed.

Lemma heartbeat_reply_effect server args reply rf rf' :
  heartbeat_reply server args reply rf = Some rf' →
  me rf' = me rf ∧ n_peers rf' = n_peers rf ∧
  (currentTerm rf' = currentTerm rf ∧ voteFor rf' = voteFor rf ∧ state rf' = state rf ∨
   currentTerm rf < currentTerm rf' ∧ voteFor rf' = -1 ∧ state rf' = 2).
Proof.
  unfold heartbeat_reply, decrement_next. rewrite Z.gtb_ltb.
  destruct (negb _); [intros [= <-]; auto 10|].
  destruct (Z.ltb_spec (currentTerm rf) (aer_Term reply)); [intros [= <-]; simpl; auto 10|].
  assert (∀ rf1, (next ← zlookup (nextIndex rf) server; l ← zupdate (nextIndex rf) server (next - 1);
                  Some (set_nextIndex l rf)) = Some rf1 →
    me rf1 = me rf ∧ n_peers rf1 = n_peers rf ∧ currentTerm rf1 = currentTerm rf ∧
    voteFor rf1 = voteFor rf ∧ state rf1 = state rf) as Hdec.
  { intros rf1 (next & _ & (l & _ & [= <-])%bind_Some)%bind_Some. done. }
  destruct (negb _).
  - destruct (aer_Success reply).
    + intros (nl & _ & (ml & _ & (cmt & _ & Hc)%bind_Some)%bind_Some)%bind_Some.
      destruct (_ <? _); [|injection Hc as <-; simpl; auto 10].
      apply commit_loop_effect in Hc as [-> | ->]; simpl; auto 10.
    + intros Hd%Hdec. destruct Hd as (? & ? & ? & ? & ?). auto 10.
  - destruct (negb _); [|intros [= <-]; auto 10].
    intros Hd%Hdec. destruct Hd as (? & ? & ? & ? & ?). auto 10.
Qed.

Lemma vote_handler_effect vargs rf rf' reply :
  RequestVoteReply vargs rf = Some (rf', reply) →
  me rf' = me rf ∧ n_peers rf' = n_peers rf ∧
  ((currentTerm rf' = currentTerm rf ∧ voteFor rf' = voteFor rf ∧ state rf' = state rf ∧
      rvr_VoteGranted reply = false) ∨
   (currentTerm rf < currentTerm rf' ∧ voteFor rf' = -1 ∧ state rf' = 2 ∧ rvr_VoteGranted reply = false) ∨
   (currentTerm rf < currentTerm rf' ∧ currentTerm rf' = rv_Term vargs ∧ voteFor rf' = rv_CandidateId vargs ∧
      state rf' = 2 ∧ rvr_VoteGranted reply = true) ∨
   (currentTerm rf' = currentTerm rf ∧ currentTerm rf = rv_Term vargs ∧ state rf' = state rf ∧
      (voteFor rf = -1 ∨ voteFor rf = rv_CandidateId vargs) ∧
      voteFor rf' = rv_CandidateId vargs ∧ rvr_VoteGranted reply = true)).
Proof.
  unfold RequestVoteReply. intros (t & _ & H)%bind_Some. revert H. rewrite Z.gtb_ltb, Z.geb_leb.
  destruct (Z.ltb_spec (currentTerm rf) (rv_Term vargs)) as [Hlt|Hge]; simpl.
  - rewrite Z.leb_refl. simpl. destruct (log_ok _ _ _); intros [= <- <-]; simpl; [|auto 10].
    destruct (reset_fields (set_vote (rv_CandidateId vargs) (set_state 2 (set_vote (-1) (set_term (rv_Term vargs) rf)))))
      as (-> & -> & _ & _ & ->).
    destruct (reset_same (set_vote (rv_CandidateId vargs) (set_state 2 (set_vote (-1) (set_term (rv_Term vargs) rf)))))
      as (-> & -> & _). simpl. auto 10.
  - destruct (Z.leb_spec (currentTerm rf) (rv_Term vargs)); simpl; [|intros [= <- <-]; simpl; auto 10].
    destruct (log_ok _ _ _); [|intros [= <- <-]; simpl; auto 10].
    destruct (_ || _) eqn:Ev; intros [= <- <-]; simpl; [|auto 10].
    apply orb_true_iff in Ev. rewrite !Z.eqb_eq in Ev.
    destruct (reset_fields (set_vote (rv_CandidateId vargs) rf)) as (-> & -> & _ & _ & ->).
    destruct (reset_same (set_vote (rv_CandidateId vargs) rf)) as (-> & -> & _). simpl.
    assert (currentTerm rf = rv_Term vargs) by lia. auto 15.
Qed.
End effects.

(** Two majorities of [0..n-1] intersect. *)
Lemma quorum_intersection n (Q Q' : list nat) :
  NoDup Q → NoDup Q' → (∀ v, v ∈ Q → (v < n)%nat) → (∀ v, v ∈ Q' → (v < n)%nat) →
  majority (Z.of_nat n) (zlen Q) → majority (Z.of_nat n) (zlen Q') → ∃ v, v ∈ Q ∧ v ∈ Q'.
Proof.
  intros H1 H2 Hb1 Hb2 Hm1 Hm2.
  destruct (decide (Exists (λ v, v ∈ Q') Q)) as [Hex|Hno].
  { apply Exists_exists in Hex as (v & ? & ?). eauto. }
  exfalso. assert (NoDup (Q ++ Q')) as Hnd.
  { apply NoDup_app. split_and!; [done| |done]. intros v Hv Hv'. apply Hno, Exists_exists. eauto. }
  assert (List.length (Q ++ Q') <= List.length (seq 0 n))%nat as Hle.
  { apply submseteq_length, NoDup_submseteq; [done|]. intros v [Hv|Hv]%elem_of_app; apply elem_of_seq.
    - specialize (Hb1 v Hv). lia.
    - specialize (Hb2 v Hv). lia. }
  rewrite length_app, length_seq in Hle. unfold majority, zlen in *.
  rewrite Z.quot_div_nonneg in * by lia. Z.to_euclidean_division_equations. lia.
Qed.

(** ** The invariant

    [G] lists the votes granted so far, as (term, voter, candidate), a
    candidate's own vote included; [E] the elections won, as (term, leader). *)

Section inv.
Context {C : Type} (n : nat).
Implicit Types (rf : raft C) (ns : list (raft C)) (G : list (Z * nat * nat)) (E : list (Z * nat)).

Record core ns G E : Prop := {
  co_len : List.length ns = n;
  co_id : ∀ i rf, ns !! i = Some rf → me rf = Z.of_nat i ∧ n_peers rf = Z.of_nat n;
  co_bound : ∀ T v c, (T, v, c) ∈ G → ∃ rf, ns !! v = Some rf ∧ T <= currentTerm rf;
  co_vote : ∀ v c rf, ns !! v = Some rf → (currentTerm rf, v, c) ∈ G →
    voteFor rf = Z.of_nat c ∨ ∃ L, (currentTerm rf, L) ∈ E ∧ voteFor rf = Z.of_nat L;
  co_unique : ∀ T v c c', (T, v, c) ∈ G → (T, v, c') ∈ G → c = c' ∨ ∃ L, (T, L) ∈ E;
  co_elected : ∀ T L L', (T, L) ∈ E → (T, L') ∈ E → L = L';
  co_quorum : ∀ T L, (T, L) ∈ E → ∃ Q, NoDup Q ∧ majority (Z.of_nat n) (zlen Q) ∧
    ∀ v, v ∈ Q → (v < n)%nat ∧ (T, v, L) ∈ G ∧ ∀ c, (T, v, c) ∈ G → c = L;
  co_leader : ∀ i rf, ns !! i = Some rf → state rf = 0 → (currentTerm rf, i) ∈ E;
  co_candidate : ∀ i rf, ns !! i = Some rf → state rf = 1 → (currentTerm rf, i, i) ∈ G;
}.

(** A vote that the candidate may count. *)
Definition granted_call (call : vote_call) : Prop :=
  call = VCounted ∨ ∃ reply, call = VAnswered reply ∧ rvr_VoteGranted reply = true.

Definition is_counted (call : vote_call) : Prop := call = VCounted.

#[global] Instance is_counted_dec call : Decision (is_counted call).
Proof. unfold is_counted. destruct call; (by left) || by right. Defined.

Definition counted (calls : list vote_call) : Z := zlen (filter is_counted calls).

Record round_ok G (r : round) : Prop := {
  ro_num : r_voteNum r = 1 + counted (r_calls r);
  ro_fresh : r_args r = None → r_calls r = [];
  ro_args : ∀ a, r_args r = Some a → rv_CandidateId a = Z.of_nat (r_server r) ∧
    ∀ j call, r_calls r !! j = Some call → granted_call call →
      j ≠ r_server r ∧ (j < n)%nat ∧ (rv_Term a, j, r_server r) ∈ G;
}.

Definition beat_ok E (b : beat C) : Prop :=
  ∀ a, b_call b = BSent a → ∃ L, ae_LeaderId a = Z.of_nat L ∧ (ae_Term a, L) ∈ E.

Record safe (s : net C) G E : Prop := {
  sf_core : core (nodes s) G E;
  sf_rounds : ∀ k r, rounds s !! k = Some r → round_ok G r;
  sf_beats : ∀ k b, beats s !! k = Some b → beat_ok E b;
}.

(** ** Steps of one server *)

Lemma lookup_update {A} (l : list A) i x j y :
  <[i := x]> l !! j = Some y → (i = j ∧ y = x) ∨ (i ≠ j ∧ l !! j = Some y).
Proof. intros [(-> & -> & _)|[? ?]]%list_lookup_insert_Some; auto. Qed.

Lemma core_bound_update ns G E i rf rf' :
  core ns G E → ns !! i = Some rf → currentTerm rf <= currentTerm rf' →
  ∀ T v c, (T, v, c) ∈ G → ∃ rf2, <[i := rf']> ns !! v = Some rf2 ∧ T <= currentTerm rf2.
Proof.
  intros Hc Hi Hle T v c Hg. destruct (co_bound _ _ _ Hc _ _ _ Hg) as (rf2 & Hv & ?).
  destruct (decide (i = v)) as [->|].
  - simplify_eq. exists rf'. rewrite list_lookup_insert_eq by (by eapply lookup_lt_Some). split; [done|lia].
  - exists rf2. by rewrite list_lookup_insert_ne.
Qed.

(** Nothing about elections changes. *)
Lemma core_same ns G E i rf rf' :
  core ns G E → ns !! i = Some rf → me rf' = me rf → n_peers rf' = n_peers rf →
  currentTerm rf' = currentTerm rf → voteFor rf' = voteFor rf → state rf' = state rf →
  core (<[i := rf']> ns) G E.
Proof.
  intros Hc Hi Hm Hn Ht Hv Hs.
  pose proof (core_bound_update ns G E i rf rf' Hc Hi ltac:(lia)) as Hb.
  destruct Hc. split; try done.
  - by rewrite length_insert.
  - intros j rf2 [[<- ->]|[? ?]]%lookup_update; [rewrite Hm, Hn|]; eauto.
  - intros v c rf2 [[<- ->]|[? ?]]%lookup_update; [rewrite Ht, Hv|]; eauto.
  - intros j rf2 [[<- ->]|[? ?]]%lookup_update; [rewrite Hs, Ht|]; eauto.
  - intros j rf2 [[<- ->]|[? ?]]%lookup_update; [rewrite Hs, Ht|]; eauto.
Qed.

(** A newer term as a follower. *)
Lemma core_newer ns G E i rf rf' :
  core ns G E → ns !! i = Some rf → me rf' = me rf → n_peers rf' = n_peers rf →
  currentTerm rf < currentTerm rf' → state rf' = 2 →
  core (<[i := rf']> ns) G E.
Proof.
  intros Hc Hi Hm Hn Ht Hs.
  pose proof (core_bound_update ns G E i rf rf' Hc Hi ltac:(lia)) as Hb.
  destruct Hc. split; try done.
  - by rewrite length_insert.
  - intros j rf2 [[<- ->]|[? ?]]%lookup_update; [rewrite Hm, Hn|]; eauto.
  - intros v c rf2 [[<- ->]|[? ?]]%lookup_update Hg; [|eauto].
    apply co_bound0 in Hg as (rf3 & ? & ?). simplify_eq. lia.
  - intros j rf2 [[<- ->]|[? ?]]%lookup_update ?; [congruence|eauto].
  - intros j rf2 [[<- ->]|[? ?]]%lookup_update ?; [congruence|eauto].
Qed.

(** The leader of the term is followed. *)
Lemma core_follow ns G E i rf rf' L :
  core ns G E → ns !! i = Some rf → me rf' = me rf → n_peers rf' = n_peers rf →
  currentTerm rf <= currentTerm rf' → voteFor rf' = Z.of_nat L → (currentTerm rf', L) ∈ E → state rf' = 2 →
  core (<[i := rf']> ns) G E.
Proof.
  intros Hc Hi Hm Hn Ht Hv HL Hs.
  pose proof (core_bound_update ns G E i rf rf' Hc Hi ltac:(lia)) as Hb.
  destruct Hc. split; try done.
  - by rewrite length_insert.
  - intros j rf2 [[<- ->]|[? ?]]%lookup_update; [rewrite Hm, Hn|]; eauto.
  - intros v c rf2 [[<- ->]|[? ?]]%lookup_update Hg; [right; eauto|eauto].
  - intros j rf2 [[<- ->]|[? ?]]%lookup_update ?; [congruence|eauto].
  - intros j rf2 [[<- ->]|[? ?]]%lookup_update ?; [congruence|eauto].
Qed.

(** What a voter's current vote says about a new grant. *)
Lemma grant_consistent ns G E i rf c :
  core ns G E → ns !! i = Some rf → voteFor rf = -1 ∨ voteFor rf = Z.of_nat c →
  ∀ c', (currentTerm rf, i, c') ∈ G → c' = c ∨ (currentTerm rf, c) ∈ E.
Proof.
  intros Hc Hi Hv c' Hg. destruct (co_vote _ _ _ Hc _ _ _ Hi Hg) as [Hv'|(L & HL & Hv')].
  - destruct Hv; [lia|]. left. lia.
  - destruct Hv; [lia|]. right. assert (L = c) as -> by lia. done.
Qed.

(** A vote is granted (or renewed) in the voter's new current term. *)
Lemma core_grant ns G E i rf rf' c :
  core ns G E → ns !! i = Some rf → me rf' = me rf → n_peers rf' = n_peers rf →
  (currentTerm rf < currentTerm rf' ∧ (state rf' = 2 ∨ state rf' = 1 ∧ c = i) ∨
   currentTerm rf' = currentTerm rf ∧ state rf' = state rf ∧ (voteFor rf = -1 ∨ voteFor rf = Z.of_nat c)) →
  voteFor rf' = Z.of_nat c →
  core (<[i := rf']> ns) ((currentTerm rf', i, c) :: G) E.
Proof.
  intros Hc Hi Hm Hn Hcase Hv.
  pose proof (core_bound_update ns G E i rf rf' Hc Hi ltac:(lia)) as Hb.
  assert (∀ c', (currentTerm rf', i, c') ∈ G → c' = c ∨ (currentTerm rf', c) ∈ E) as Hgc.
  { intros c' Hg. destruct Hcase as [[Hlt _]|(Heq & _ & Hvf)].
    - destruct (co_bound _ _ _ Hc _ _ _ Hg) as (rf3 & ? & ?). simplify_eq. lia.
    - rewrite Heq in *. by eapply grant_consistent. }
  destruct Hc. split; try done.
  - by rewrite length_insert.
  - intros j rf2 [[<- ->]|[? ?]]%lookup_update; [rewrite Hm, Hn|]; eauto.
  - intros T v c' [[= -> -> ->]|Hg]%elem_of_cons; [|eauto]. exists rf'.
    rewrite list_lookup_insert_eq by (by eapply lookup_lt_Some). split; [done|lia].
  - intros v c' rf2 [[<- ->]|[? ?]]%lookup_update.
    + intros [[= ->]|Hg]%elem_of_cons; [by left|]. destruct (Hgc c' Hg) as [->|HE]; [by left|].
      right. eauto.
    + intros [[= ? ? ?]|Hg]%elem_of_cons; [done|eauto].
  - intros T v c1 c2 [[= -> -> ->]|H1]%elem_of_cons [[= ]|H2]%elem_of_cons; subst; [by left| | |by eapply co_unique0].
    + destruct (Hgc _ H2) as [->|]; eauto.
    + destruct (Hgc _ H1) as [->|]; eauto.
  - intros T L HE. destruct (co_quorum0 T L HE) as (Q & HQ & Hmaj & HQv). exists Q. split_and!; [done..|].
    intros v Hvq. destruct (HQv v Hvq) as (? & HvL & Hall). split_and!; [done|by right|].
    intros c' [[= -> -> ->]|Hg]%elem_of_cons; [|by apply Hall].
    destruct (Hgc L HvL) as [->|HE']; [done|]. by eapply co_elected0.
  - intros j rf2 [[<- ->]|[? ?]]%lookup_update Hs; [|eauto].
    destruct Hcase as [[_ [?|[? _]]]|(Heq & Hst & _)]; [congruence..|]. rewrite Heq.
    apply co_leader0; [done|congruence].
  - intros j rf2 [[<- ->]|[? ?]]%lookup_update Hs; [|right; eauto].
    destruct Hcase as [[_ [?|[? ->]]]|(Heq & Hst & _)]; [congruence|left|]. right. rewrite Heq.
    apply co_candidate0; [done|congruence].
Qed.

(** A candidate with a majority becomes leader. *)
Lemma core_elect ns G E i rf rf' Q :
  core ns G E → ns !! i = Some rf → me rf' = me rf → n_peers rf' = n_peers rf →
  currentTerm rf' = currentTerm rf → voteFor rf' = voteFor rf → state rf' = 0 →
  NoDup Q → majority (Z.of_nat n) (zlen Q) →
  (∀ v, v ∈ Q → (v < n)%nat ∧ (currentTerm rf, v, i) ∈ G) →
  core (<[i := rf']> ns) G ((currentTerm rf, i) :: E).
Proof.
  intros Hc Hi Hm Hn Ht Hv Hs HQ Hmaj HQv.
  pose proof (core_bound_update ns G E i rf rf' Hc Hi ltac:(lia)) as Hb.
  assert (∀ L, (currentTerm rf, L) ∈ E → L = i) as Huniq.
  { intros L HL. destruct (co_quorum _ _ _ Hc _ _ HL) as (Q' & HQ' & Hmaj' & HQv').
    destruct (quorum_intersection n Q Q') as (v & Hv1 & Hv2); try done.
    - intros v Hvq. by apply HQv.
    - intros v Hvq. by apply HQv'.
    - destruct (HQv v Hv1) as [_ Hg]. destruct (HQv' v Hv2) as (_ & _ & Hall). symmetry. by apply Hall. }
  destruct Hc. split; try done.
  - by rewrite length_insert.
  - intros j rf2 [[<- ->]|[? ?]]%lookup_update; [rewrite Hm, Hn|]; eauto.
  - intros v c rf2 [[<- ->]|[? Hv2]]%lookup_update Hg.
    + rewrite Ht, Hv in *. destruct (co_vote0 _ _ _ Hi Hg) as [?|(L & ? & ?)]; [by left|].
      right. exists L. split; [by right|done].
    + destruct (co_vote0 _ _ _ Hv2 Hg) as [?|(L & ? & ?)]; [by left|]. right. exists L. split; [by right|done].
  - intros T v c c' H1 H2. destruct (co_unique0 _ _ _ _ H1 H2) as [?|(L & ?)]; [by left|].
    right. exists L. by right.
  - intros T L L' [[= -> ->]|HL]%elem_of_cons [[= ]|HL']%elem_of_cons; subst; eauto.
    + symmetry. by apply Huniq.
  - intros T L [[= -> ->]|HL]%elem_of_cons; [|by apply co_quorum0].
    destruct (decide (Exists (λ x, x.1 = currentTerm rf) E)) as [Hex|Hno].
    + apply Exists_exists in Hex as ([T L] & HL & [= ->]). rewrite <- (Huniq L HL). by apply co_quorum0.
    + exists Q. split_and!; [done..|]. intros v Hvq. destruct (HQv v Hvq) as [? Hg]. split_and!; [done..|].
      intros c Hg'. destruct (co_unique0 _ _ _ _ Hg' Hg) as [->|(L & HL)]; [done|].
      exfalso. apply Hno, Exists_exists. by exists (currentTerm rf, L).
  - intros j rf2 [[<- ->]|[? ?]]%lookup_update ?; [rewrite Ht; left|right; eauto].
  - intros j rf2 [[<- ->]|[? ?]]%lookup_update ?; [congruence|eauto].
Qed.
(** ** The goroutines *)

Lemma round_ok_mono G G' r : G ⊆ G' → round_ok G r → round_ok G' r.
Proof.
  intros Hsub [Hn Hf Ha]. split; [done..|]. intros a Hr. destruct (Ha a Hr) as [? Hc]. split; [done|].
  intros j call Hj Hg. destruct (Hc j call Hj Hg) as (? & ? & ?). auto.
Qed.

Lemma beat_ok_mono E E' b : E ⊆ E' → beat_ok E b → beat_ok E' b.
Proof. intros Hsub Hb a Ha. destruct (Hb a Ha) as (L & ? & ?). eauto. Qed.

(** A step that updates the server [i], and no goroutine. *)
Lemma safe_node (s : net C) G E i rf' G' E' :
  safe s G E → core (<[i := rf']> (nodes s)) G' E' → G ⊆ G' → E ⊆ E' → safe (set_node i rf' s) G' E'.
Proof.
  intros [_ Hr Hb] Hc HG HE. split; simpl; [done| |].
  - intros k r Hk. eapply round_ok_mono; eauto.
  - intros k b Hk. eapply beat_ok_mono; eauto.
Qed.

Lemma safe_round (s : net C) G E k r :
  safe s G E → round_ok G r → safe (set_rounds (<[k := r]> (rounds s)) s) G E.
Proof.
  intros [Hc Hr Hb] Hok. split; simpl; try done.
  intros k' r' [[<- ->]|[? ?]]%lookup_update; eauto.
Qed.

Lemma safe_round_app (s : net C) G E r :
  safe s G E → round_ok G r → safe (set_rounds (rounds s ++ [r]) s) G E.
Proof.
  intros [Hc Hr Hb] Hok. split; simpl; try done.
  intros k' r' Hk. apply lookup_app_Some in Hk as [Hk|[_ Hk]]; [eauto|].
  apply list_lookup_singleton_Some in Hk as [_ <-]. done.
Qed.

Lemma safe_beat (s : net C) G E k b :
  safe s G E → beat_ok E b → safe (set_beats (<[k := b]> (beats s)) s) G E.
Proof.
  intros [Hc Hr Hb] Hok. split; simpl; try done.
  intros k' b' [[<- ->]|[? ?]]%lookup_update; eauto.
Qed.

Lemma safe_spawn (s : net C) G E i : safe s G E → safe (spawn_beats i s) G E.
Proof.
  intros [Hc Hr Hb]. split; simpl; try done.
  intros k b Hk. apply lookup_app_Some in Hk as [Hk|[_ Hk]]; [eauto|].
  apply list_elem_of_lookup_2, list_elem_of_fmap in Hk as (j & -> & _). intros a. done.
Qed.

Lemma counted_replicate m : counted (replicate m VWaiting) = 0.
Proof. unfold counted. induction m as [|m IH]; [done|]. simpl. by rewrite filter_cons_False. Qed.

Lemma counted_insert calls j call call' :
  calls !! j = Some call → ¬ is_counted call →
  counted (<[j := call']> calls) = counted calls + (if decide (is_counted call') then 1 else 0).
Proof.
  unfold counted. revert j. induction calls as [|c calls IH]; intros [|j] Hj Hno; simplify_eq/=.
  - rewrite !filter_cons, (decide_False (P := is_counted call)) by done. case_decide; [rewrite zlen_cons|]; lia.
  - rewrite !filter_cons. specialize (IH j Hj Hno). repeat case_decide; rewrite ?zlen_cons; lia.
Qed.

(** The voters whose votes were counted. *)
Definition counted_ids (calls : list vote_call) : list nat :=
  omap (λ '(j, call), if decide (is_counted call) then Some j else None)
       (zip (seq 0 (List.length calls)) calls).

Lemma elem_of_counted_ids calls j : j ∈ counted_ids calls ↔ ∃ call, calls !! j = Some call ∧ is_counted call.
Proof.
  unfold counted_ids. rewrite list_elem_of_omap. split.
  - intros ([j' call] & Hin & Hc). case_decide; simplify_eq. exists call. split; [|done].
    apply list_elem_of_lookup in Hin as [i Hi]. apply lookup_zip_with_Some in Hi as (x & y & Hxy & Hx & Hy).
    apply lookup_seq in Hx as [-> _]. by simplify_eq.
  - intros (call & Hj & Hc). exists (j, call). rewrite decide_True by done. split; [|done].
    apply list_elem_of_lookup. exists j. apply lookup_zip_with_Some. exists j, call. split_and!; [done| |done].
    apply lookup_seq. split; [done|by eapply lookup_lt_Some].
Qed.

Lemma counted_ids_zip k (calls : list vote_call) :
  let l := omap (λ '(j, call), if decide (is_counted call) then Some j else None)
                (zip (seq k (List.length calls)) calls) in
  NoDup l ∧ zlen l = counted calls ∧ ∀ j, j ∈ l → (k <= j)%nat.
Proof.
  revert k. induction calls as [|c calls IH]; intros k; simpl.
  - split_and!; [constructor|done|by intros j ?%elem_of_nil].
  - destruct (IH (S k)) as (Hnd & Hlen & Hge). unfold counted in *. rewrite filter_cons.
    destruct (decide (is_counted c)); simpl.
    + split_and!.
      * constructor; [|done]. intros Hin%Hge. lia.
      * rewrite !zlen_cons. f_equal. exact Hlen.
      * intros j [->|Hj%Hge]%elem_of_cons; lia.
    + split_and!; [done|exact Hlen|]. intros j Hj%Hge. lia.
Qed.

Lemma counted_ids_spec calls : NoDup (counted_ids calls) ∧ zlen (counted_ids calls) = counted calls.
Proof. destruct (counted_ids_zip 0 calls) as (? & ? & _). done. Qed.
(** ** Every step keeps the invariant *)

Definition extends G E (s' : net C) : Prop := ∃ G' E', safe s' G' E' ∧ G ⊆ G' ∧ E ⊆ E'.

Lemma extends_same (s' : net C) G E : safe s' G E → extends G E s'.
Proof. intros ?. by exists G, E. Qed.

Lemma elect_step (s s' : net C) G E i :
  safe s G E → exec (LElect i) s = Some s' → extends G E s'.
Proof.
  intros Hs Hx. simpl in Hx. apply bind_Some in Hx as (rf & Hi & Hx). unfold startElection in Hx.
  destruct (Z.eqb_spec (state rf) 0) as [|Hst].
  - injection Hx as <-. apply extends_same. eapply safe_node; eauto; [|done..].
    eapply core_same; eauto. apply Hs.
  - injection Hx as <-. destruct (co_id _ _ _ (sf_core _ _ _ Hs) _ _ Hi) as [Hme _].
    set (rf' := set_vote (me rf) (set_term (currentTerm rf + 1) (set_state 1 rf))).
    exists ((currentTerm rf + 1, i, i) :: G), E. split; [|split; [by right|done]].
    apply (safe_round_app (set_node i rf' s)).
    + eapply safe_node; [done| |by right|done].
      apply (core_grant _ _ _ _ rf rf'); try done; [apply Hs|].
      left. simpl. split; [lia|]. right. by split.
    + split; simpl; done.
Qed.

Lemma vote_args_step (s s' : net C) G E k :
  safe s G E → exec (LVoteArgs k) s = Some s' → extends G E s'.
Proof.
  intros Hs Hx. simpl in Hx. apply bind_Some in Hx as (r & Hk & Hx).
  apply bind_Some in Hx as (rf & Hi & Hx). destruct (r_args r) eqn:Ha; [done|].
  apply bind_Some in Hx as (a & Hva & Hx). injection Hx as <-.
  apply extends_same, safe_round; [done|]. destruct (sf_rounds _ _ _ Hs _ _ Hk) as [Hn Hf _].
  unfold vote_args in Hva. apply bind_Some in Hva as (t & _ & [= <-]).
  destruct (co_id _ _ _ (sf_core _ _ _ Hs) _ _ Hi) as [Hme _]. split; simpl; [|done|].
  - by rewrite counted_replicate, Hn, Hf.
  - intros a [= <-]. split; [done|]. intros j call [-> _]%lookup_replicate [|(? & ? & _)]; done.
Qed.

Lemma vote_handle_step (s s' : net C) G E k j :
  safe s G E → exec (LVoteHandle k j) s = Some s' → extends G E s'.
Proof.
  intros Hs Hx. simpl in Hx. apply bind_Some in Hx as (r & Hk & Hx).
  apply bind_Some in Hx as (a & Ha & Hx). apply bind_Some in Hx as (call & Hj & Hx).
  apply bind_Some in Hx as (rf & Hi & Hx). destruct call; try done. case_decide as Hne; [done|].
  apply bind_Some in Hx as ([rf' reply] & Hh & Hx). injection Hx as <-.
  destruct (sf_rounds _ _ _ Hs _ _ Hk) as [Hn Hf Hok]. destruct (Hok a Ha) as [Hcand Hcalls].
  assert (j < n)%nat as Hjn.
  { rewrite <- (co_len _ _ _ (sf_core _ _ _ Hs)). by eapply lookup_lt_Some. }
  destruct (vote_handler_effect _ _ _ _ Hh) as (Hm & Hp & Heff).
  assert (∃ G', core (<[j := rf']> (nodes s)) G' E ∧ G ⊆ G' ∧
    (rvr_VoteGranted reply = true → (rv_Term a, j, r_server r) ∈ G')) as (G' & Hc' & HG & Hgr).
  { destruct Heff as [(Ht & Hv & Hst & Hr)|[(Ht & Hv & Hst & Hr)|[(Ht & Hta & Hv & Hst & Hr)|(Ht & Hta & Hst & Hold & Hv & Hr)]]].
    - exists G. rewrite Hr. split_and!; [|done..]. eapply core_same; eauto. apply Hs.
    - exists G. rewrite Hr. split_and!; [|done..]. eapply core_newer; eauto. apply Hs.
    - exists ((currentTerm rf', j, r_server r) :: G). split_and!; [|by right|rewrite Hta; by left].
      apply (core_grant _ _ _ _ rf rf'); try done; [apply Hs|auto|congruence].
    - exists ((currentTerm rf', j, r_server r) :: G). split_and!; [|by right|rewrite Ht, Hta; by left].
      apply (core_grant _ _ _ _ rf rf'); try done; [apply Hs| |congruence].
      right. rewrite <- Hcand. auto. }
  exists G', E. split; [|done]. apply (safe_round (set_node j rf' s)); [by eapply safe_node|].
  split; simpl.
  - rewrite (counted_insert _ _ VWaiting) by done. rewrite decide_False by done. lia.
  - rewrite Ha. done.
  - intros a' Ha'. simplify_eq. split; [done|]. intros j' call [[<- ->]|[? Hj']]%lookup_update Hg.
    + destruct Hg as [?|(reply' & [= <-] & Hg)]; [done|]. auto.
    + destruct (Hcalls j' call Hj' Hg) as (? & ? & ?). auto.
Qed.

(** The goroutine's record after the answer of peer [j] was looked at. *)
Lemma round_reply G (r : round) a reply num' j :
  round_ok G r → r_args r = Some a → r_calls r !! j = Some (VAnswered reply) →
  num' = r_voteNum r ∨ num' = r_voteNum r + 1 ∧ rvr_VoteGranted reply = true →
  round_ok G (mkRound (r_server r) (r_args r) num'
    (<[j := if decide (num' = r_voteNum r) then VIgnored else VCounted]> (r_calls r))).
Proof.
  intros [Hn Hf Hok] Ha Hj Hnum. destruct (Hok a Ha) as [Hcand Hcalls]. split; simpl.
  - rewrite (counted_insert _ _ _ _ Hj) by done.
    destruct Hnum as [->|[-> _]];
      [rewrite (decide_True (P := r_voteNum r = _)) by done|rewrite (decide_False (P := r_voteNum r + 1 = _)) by lia].
    + rewrite decide_False by done. lia.
    + rewrite decide_True by done. lia.
  - rewrite Ha. done.
  - intros a' Ha'. simplify_eq. split; [done|]. intros j' call' [[<- ->]|[? Hj']]%lookup_update Hg; [|eauto].
    destruct Hnum as [->|[-> Hgr]]; [|by apply (Hcalls j _ Hj); right; eauto].
    rewrite decide_True in Hg by done. destruct Hg as [|(? & ? & _)]; done.
Qed.

(** The candidate, the peer that just granted and the votes counted before
    form a majority of voters. *)
Lemma election_voters G (r : round) a reply j :
  round_ok G r → r_args r = Some a → r_calls r !! j = Some (VAnswered reply) → (r_server r < n)%nat →
  rvr_VoteGranted reply = true → majority (Z.of_nat n) (r_voteNum r + 1) →
  ∃ Q, NoDup Q ∧ majority (Z.of_nat n) (zlen Q) ∧
    ∀ v, v ∈ Q → (v < n)%nat ∧
      (v = r_server r ∨ ∃ call, r_calls r !! v = Some call ∧ granted_call call ∧ (rv_Term a, v, r_server r) ∈ G).
Proof.
  intros [Hn _ Hok] Ha Hj Hi Hg Hmaj. destruct (Hok a Ha) as [_ Hcalls].
  destruct (counted_ids_spec (r_calls r)) as [HQ1 HQ2].
  assert (granted_call (VAnswered reply)) as Hgr by (right; eauto).
  destruct (Hcalls j _ Hj Hgr) as (Hj1 & Hj2 & Hj3).
  assert (∀ v, v ∈ counted_ids (r_calls r) → v ≠ r_server r ∧ v ≠ j ∧ (v < n)%nat ∧
    ∃ call, r_calls r !! v = Some call ∧ granted_call call ∧ (rv_Term a, v, r_server r) ∈ G) as HQ3.
  { intros v (call & Hv & ->)%elem_of_counted_ids.
    destruct (Hcalls v _ Hv (or_introl eq_refl)) as (? & ? & ?). split_and!; try done.
    - intros ->. congruence.
    - exists VCounted. split_and!; [done|by left|done]. }
  exists (r_server r :: j :: counted_ids (r_calls r)). split_and!.
  - repeat constructor; [| |done].
    + intros [?|[? _]%HQ3]%elem_of_cons; done.
    + intros (_ & ? & _)%HQ3. done.
  - rewrite !zlen_cons, HQ2. rewrite Hn in Hmaj.
    by replace (counted (r_calls r) + 1 + 1) with (1 + counted (r_calls r) + 1) by lia.
  - intros v [->|[->|Hv]%elem_of_cons]%elem_of_cons; [by auto| |].
    + split; [done|]. right. by exists (VAnswered reply).
    + destruct (HQ3 v Hv) as (_ & _ & ? & ?). auto.
Qed.

(** All of them voted for the candidate. *)
Lemma election_quorum ns G E (r : round) a rf reply j :
  core ns G E → round_ok G r → r_args r = Some a → r_calls r !! j = Some (VAnswered reply) →
  ns !! r_server r = Some rf → state rf = 1 → rv_Term a = currentTerm rf →
  rvr_VoteGranted reply = true → majority (Z.of_nat n) (r_voteNum r + 1) →
  ∃ Q, NoDup Q ∧ majority (Z.of_nat n) (zlen Q) ∧
    ∀ v, v ∈ Q → (v < n)%nat ∧ (currentTerm rf, v, r_server r) ∈ G.
Proof.
  intros Hc Hr Ha Hj Hi Hst Ht Hg Hmaj.
  assert (r_server r < n)%nat as Hlt by (rewrite <- (co_len _ _ _ Hc); by eapply lookup_lt_Some).
  destruct (election_voters G r a reply j) as (Q & HQ & HQm & Hall); try done. exists Q. split_and!; [done..|].
  intros v Hv. destruct (Hall v Hv) as [? [->|(call & _ & _ & ?)]]; (split; [done|]); [|by rewrite <- Ht].
  by apply (co_candidate _ _ _ Hc).
Qed.

Lemma vote_reply_step (s s' : net C) G E k j :
  safe s G E → exec (LVoteReply k j) s = Some s' → extends G E s'.
Proof.
  intros Hs Hx. simpl in Hx. apply bind_Some in Hx as (r & Hk & Hx).
  apply bind_Some in Hx as (a & Ha & Hx). apply bind_Some in Hx as (call & Hj & Hx).
  apply bind_Some in Hx as (rf & Hi & Hx). destruct call as [|reply| |]; try done.
  pose proof (sf_rounds _ _ _ Hs _ _ Hk) as Hrk. pose proof (sf_core _ _ _ Hs) as Hc.
  destruct (co_id _ _ _ Hc _ _ Hi) as [Hme Hp].
  pose proof (vote_reply_spec a reply rf (r_voteNum r)) as Hr.
  destruct (vote_reply a reply rf (r_voteNum r)) as [[rf' num'] b]. simpl in Hr. injection Hx as <-.
  pose proof (λ G, round_reply G r a reply num' j) as Hround.
  set (r' := mkRound _ _ _ _) in *.
  assert (∀ E', core (<[r_server r := rf']> (nodes s)) G E' → E ⊆ E' →
    num' = r_voteNum r ∨ num' = r_voteNum r + 1 ∧ rvr_VoteGranted reply = true →
    extends G E (if b then spawn_beats (r_server r) (set_rounds (<[k := r']> (rounds s)) (set_node (r_server r) rf' s))
                 else set_rounds (<[k := r']> (rounds s)) (set_node (r_server r) rf' s))) as Hfin.
  { intros E' Hc' HE Hnum. exists G, E'. split; [|done].
    assert (safe (set_rounds (<[k := r']> (rounds s)) (set_node (r_server r) rf' s)) G E') as Hs2.
    { apply (safe_round (set_node (r_server r) rf' s)); [by eapply safe_node|by apply Hround]. }
    destruct b; [by apply safe_spawn|done]. }
  destruct Hr as [?|Ht Hst Hg Hmaj|Ht Hst Hg Hmaj|Ht Hst Hg Hlt|Ht Hst Hg Hge].
  - apply (Hfin E); [|done|by left]. by eapply core_same.
  - rewrite Hp in Hmaj.
    destruct (election_quorum (nodes s) G E r a rf reply j) as (Q & HQ & HQmaj & HQv); try done.
    apply (Hfin ((currentTerm rf, r_server r) :: E)); [|by right|by right].
    by apply (core_elect _ _ _ _ rf _ Q).
  - apply (Hfin E); [|done|by right]. by eapply core_same.
  - apply (Hfin E); [|done|by left]. by eapply core_newer.
  - apply (Hfin E); [|done|by left]. by eapply core_same.
Qed.
Lemma beat_args_step (s s' : net C) G E k :
  safe s G E → timely (LBeatArgs k) s → exec (LBeatArgs k) s = Some s' → extends G E s'.
Proof.
  intros Hs Htime Hx. simpl in Hx. apply bind_Some in Hx as (b & Hk & Hx).
  apply bind_Some in Hx as (rf & Hi & Hx). destruct (b_call b); try done.
  apply bind_Some in Hx as (a & Ha & Hx). injection Hx as <-.
  apply extends_same, safe_beat; [done|]. intros a' [= <-].
  destruct (co_id _ _ _ (sf_core _ _ _ Hs) _ _ Hi) as [Hme _].
  assert (ae_Term a = currentTerm rf ∧ ae_LeaderId a = me rf) as [-> ->].
  { unfold heartbeat_args in Ha. apply bind_Some in Ha as (next & _ & Ha).
    destruct (_ <? _); [|destruct (_ >? _)].
    - by apply bind_Some in Ha as (e & _ & [= <-]).
    - by apply bind_Some in Ha as (e & _ & (es & _ & [= <-])%bind_Some).
    - by apply bind_Some in Ha as (es & _ & [= <-]). }
  exists (b_server b). split; [done|]. eapply co_leader; [apply Hs|done|]. by eapply Htime.
Qed.

Lemma beat_handle_step (s s' : net C) G E k :
  safe s G E → exec (LBeatHandle k) s = Some s' → extends G E s'.
Proof.
  intros Hs Hx. simpl in Hx. apply bind_Some in Hx as (b & Hk & Hx).
  apply bind_Some in Hx as (rf & Hi & Hx). destruct (b_call b) as [|a|a reply|] eqn:Hb; try done.
  apply bind_Some in Hx as ([rf' reply] & Hh & Hx). injection Hx as <-.
  destruct (sf_beats _ _ _ Hs _ _ Hk a Hb) as (L & HL & HE).
  apply extends_same. apply (safe_beat (set_node (b_peer b) rf' s)); [|by intros a'].
  apply append_entries_effect in Hh as (Hm & Hp & [->|(Hle & Ht & Hv & Hst)]).
  - eapply safe_node; [done| |done..]. eapply core_same; eauto. apply Hs.
  - eapply safe_node; [done| |done..].
    eapply (core_follow _ _ _ _ _ _ L); try done; [apply Hs|lia|congruence|congruence].
Qed.

Lemma beat_reply_step (s s' : net C) G E k :
  safe s G E → exec (LBeatReply k) s = Some s' → extends G E s'.
Proof.
  intros Hs Hx. simpl in Hx. apply bind_Some in Hx as (b & Hk & Hx).
  apply bind_Some in Hx as (rf & Hi & Hx). destruct (b_call b) as [|a|a reply|]; try done.
  apply bind_Some in Hx as (rf' & Hh & Hx). injection Hx as <-.
  apply extends_same. apply (safe_beat (set_node (b_server b) rf' s)); [|by intros a'].
  apply heartbeat_reply_effect in Hh as (Hm & Hp & [(Ht & Hv & Hst)|(Hlt & Hv & Hst)]);
    (eapply safe_node; [done| |done..]).
  - eapply core_same; eauto. apply Hs.
  - eapply core_newer; eauto. apply Hs.
Qed.

(** A step that touches neither votes nor goroutines that matter. *)
Lemma quiet_node (s : net C) G E i rf rf' :
  safe s G E → nodes s !! i = Some rf → me rf' = me rf → n_peers rf' = n_peers rf →
  currentTerm rf' = currentTerm rf → voteFor rf' = voteFor rf → state rf' = state rf →
  safe (set_node i rf' s) G E.
Proof. intros Hs Hi ?????. eapply safe_node; [done| |done..]. eapply core_same; eauto. apply Hs. Qed.

Lemma safe_starts (s : net C) G E l : safe s G E → safe (set_starts l s) G E.
Proof. intros []. by split. Qed.

Lemma step_safe l (s s' : net C) G E :
  safe s G E → timely l s → exec l s = Some s' → extends G E s'.
Proof.
  intros Hs Ht Hx. destruct l.
  - by eapply elect_step.
  - by eapply vote_args_step.
  - by eapply vote_handle_step.
  - by eapply vote_reply_step.
  - simpl in Hx. apply bind_Some in Hx as (rf & _ & Hx). destruct (_ =? 0); [|done]. injection Hx as <-.
    by apply extends_same, safe_spawn.
  - by eapply beat_args_step.
  - by eapply beat_handle_step.
  - by eapply beat_reply_step.
  - simpl in Hx. apply bind_Some in Hx as (rf & _ & Hx).
    destruct (_ =? 0); injection Hx as <-; by apply extends_same; try apply safe_starts.
  - simpl in Hx. apply bind_Some in Hx as (p & _ & Hx). apply bind_Some in Hx as (q & _ & Hx).
    apply bind_Some in Hx as (rf & Hi & Hx). injection Hx as <-.
    apply extends_same, safe_spawn, safe_starts. by eapply quiet_node.
  - simpl in Hx. apply bind_Some in Hx as (rf & Hi & Hx). apply bind_Some in Hx as ([rf' msg] & Ha & Hx).
    injection Hx as <-. apply extends_same. unfold applier_step in Ha. destruct (_ >? _).
    + apply bind_Some in Ha as (e & _ & [= <- _]). by eapply quiet_node.
    + injection Ha as <- _. by eapply quiet_node.
  - done.
Qed.

Lemma run_safe ls (s s' : net C) G E :
  safe s G E → timely_run ls s → run ls s = Some s' → extends G E s'.
Proof.
  revert s G E. induction ls as [|l ls IH]; intros s G E Hs Ht Hr; simpl in *.
  - injection Hr as <-. by apply extends_same.
  - apply bind_Some in Hr as (s1 & Hx & Hr). destruct Ht as [Ht Hts]. rewrite Hx in Hts.
    destruct (step_safe _ _ _ _ _ Hs Ht Hx) as (G1 & E1 & Hs1 & HG & HE).
    destruct (IH _ _ _ Hs1 Hts Hr) as (G2 & E2 & Hs2 & HG2 & HE2).
    exists G2, E2. split; [done|]. split; by etrans.
Qed.

Lemma init_safe : safe (init_net (C:=C) n) [] [].
Proof.
  split; simpl; [|done..]. split.
  - by rewrite length_map, length_seq.
  - intros i rf Hi. rewrite list_lookup_fmap in Hi. apply fmap_Some in Hi as (j & Hj & ->).
    apply lookup_seq in Hj as [-> _]. done.
  - by intros T v c ?%elem_of_nil.
  - by intros v c rf _ ?%elem_of_nil.
  - by intros T v c c' ?%elem_of_nil.
  - by intros T L L' ?%elem_of_nil.
  - by intros T L ?%elem_of_nil.
  - intros i rf Hi. rewrite list_lookup_fmap in Hi. apply fmap_Some in Hi as (j & _ & ->). done.
  - intros i rf Hi. rewrite list_lookup_fmap in Hi. apply fmap_Some in Hi as (j & _ & ->). done.
Qed.
End inv.

End RaftSafety.
