(* ===== verification/RaftLog.v ===== *)
(** Log Matching for the cluster of RaftNet.v: in runs that respect the code's
    unchecked assumptions, two logs that agree on the term of an entry agree on
    everything up to it. *)

From S2P Require Import Prelude GoStd Raft RaftProof RaftNet RaftSafety.

#[local] Open Scope Z_scope.
#[local] Open Scope go_scope.

Module RaftLog.
Export RaftSafety.

Section log.
Context {C : Type} (n : nat).
Implicit Types (rf : raft C) (l L H M : list (Log C)) (e : Log C) (s : net C).

(** On top of [timely]: a heartbeat goroutine finds [nextIndex] between 1 and
    the length of the log, and [Start] appends while its server still leads the
    term it read. *)
Definition careful (lb : label C) s : Prop :=
  timely lb s ∧
  match lb with
  | LBeatArgs k => ∀ b rf next, beats s !! k = Some b → nodes s !! b_server b = Some rf →
      (nextIndex rf).[Z.of_nat (b_peer b)] = Some next → 1 <= next <= zlen (log rf)
  | LStartAppend k => ∀ p rf, starts s !! k = Some (Some p) → nodes s !! s_server p = Some rf →
      state rf = 0 ∧ currentTerm rf = s_term p
  | _ => True
  end.

Fixpoint careful_run (ls : list (label C)) s : Prop :=
  match ls with
  | [] => True
  | lb :: ls => careful lb s ∧ match exec lb s with Some s => careful_run ls s | None => True end
  end.

Lemma careful_timely ls s : careful_run ls s → timely_run ls s.
Proof.
  revert s. induction ls as [|lb ls IH]; intros s; simpl; [done|]. intros [[Ht _] Hr]. split; [done|].
  destruct (exec lb s); auto.
Qed.

(** ** The history of a term: its leader and the longest log it had *)

Abbreviation history := (gmap Z (nat * list (Log C))).

Definition dummy : Log C := mkLog None 0.

(** Every entry came, with everything before it, from the leader of its term. *)
Definition good_log (hist : history) l : Prop :=
  l !! 0%nat = Some dummy ∧
  ∀ k e, l !! k = Some e → k = 0%nat ∨ ∃ i H, hist !! Term e = Some (i, H) ∧ take (S k) l = take (S k) H.

Lemma good_log_matching hist l1 l2 : good_log hist l1 → good_log hist l2 → log_matching l1 l2.
Proof.
  intros [H0 H1] [H0' H2] k e1 e2 He1 He2 Ht.
  destruct (H1 k e1 He1) as [->|(i & H & Hh & Hk)].
  { destruct l1, l2; simplify_eq/=. done. }
  destruct (H2 k e2 He2) as [->|(i' & H' & Hh' & Hk')].
  { destruct l1, l2; simplify_eq/=. done. }
  rewrite Ht in Hh. simplify_eq. congruence.
Qed.

Lemma take_prefix k L H : L `prefix_of` H → (k <= List.length L)%nat → take k L = take k H.
Proof. intros [x ->] Hk. by rewrite take_app_le. Qed.

Lemma good_log_prefix hist L H : good_log hist H → L `prefix_of` H → L ≠ [] → good_log hist L.
Proof.
  intros [H0 Hall] HL Hne. split.
  - destruct HL as [x ->]. by destruct L.
  - intros k e He. pose proof (lookup_lt_Some _ _ _ He) as Hlt.
    destruct (Hall k e) as [?|(i & H' & ? & Heq)]; [by eapply prefix_lookup_Some|by left|].
    right. exists i, H'. split; [done|]. rewrite <- Heq. apply take_prefix; [done|lia].
Qed.

(** Histories only grow. *)
Definition grows (hist hist' : history) : Prop :=
  ∀ T i H, hist !! T = Some (i, H) → ∃ H', hist' !! T = Some (i, H') ∧ H `prefix_of` H'.

Lemma grows_refl hist : grows hist hist.
Proof. intros T i H ?. by exists H. Qed.

Lemma good_log_grows hist hist' l : grows hist hist' → good_log hist l → good_log hist' l.
Proof.
  intros Hg [H0 Hall]. split; [done|]. intros k e He.
  destruct (Hall k e He) as [?|(i & H & Hh & Heq)]; [by left|right].
  destruct (Hg _ _ _ Hh) as (H' & ? & Hp). exists i, H'. split; [done|]. rewrite Heq.
  apply take_prefix; [done|]. apply lookup_lt_Some in He.
  apply (f_equal List.length) in Heq. rewrite !length_take in Heq. lia.
Qed.

(** A request built from a log [L] that its leader had. *)
Definition request_ok (hist : history) (b : beat C) : Prop :=
  b_peer b ≠ b_server b ∧
  ∀ a, b_call b = BSent a → ∃ H L, hist !! ae_Term a = Some (b_server b, H) ∧ L `prefix_of` H ∧ L ≠ [] ∧ ae_from a L.

Record linv s (hist : history) (E : list (Z * nat)) : Prop := {
  li_node : ∀ i rf, nodes s !! i = Some rf → good_log hist (log rf);
  li_hist : ∀ T i H, hist !! T = Some (i, H) → good_log hist H ∧ (T, i) ∈ E ∧
    ∃ rf, nodes s !! i = Some rf ∧ (T < currentTerm rf ∨ T = currentTerm rf ∧ state rf = 0);
  li_leader : ∀ i rf, nodes s !! i = Some rf → state rf = 0 → hist !! currentTerm rf = Some (i, log rf);
  li_beat : ∀ k b, beats s !! k = Some b → request_ok hist b;
}.

Lemma linv_E s hist E E' : E ⊆ E' → linv s hist E → linv s hist E'.
Proof.
  intros Hsub [H1 H2 H3 H4]. split; try done. intros T i H Hh.
  destruct (H2 T i H Hh) as (? & ? & ?). auto.
Qed.

Lemma request_ok_grows hist hist' b : grows hist hist' → request_ok hist b → request_ok hist' b.
Proof.
  intros Hg [Hne Ha]. split; [done|]. intros a Hb. destruct (Ha a Hb) as (H & L & Hh & Hp & ? & ?).
  destruct (Hg _ _ _ Hh) as (H' & ? & ?). exists H', L. split_and!; try done. by etrans.
Qed.

(** One server changes, its log stays, and it does not become leader. *)
Lemma linv_node s hist E i rf rf' :
  linv s hist E → nodes s !! i = Some rf → log rf' = log rf →
  currentTerm rf < currentTerm rf' ∧ state rf' ≠ 0 ∨
    currentTerm rf' = currentTerm rf ∧ (state rf' = 0 ↔ state rf = 0) →
  linv (set_node i rf' s) hist E.
Proof.
  intros [Hn Hh Hl Hb] Hi Hlog Hcase. split; simpl; [| | |done].
  - intros j rf2 [[<- ->]|[? ?]]%lookup_update; [rewrite Hlog|]; eauto.
  - intros T j H HT. destruct (Hh T j H HT) as (Hg & HE & rf2 & Hj & Hown). split_and!; [done..|].
    destruct (decide (i = j)) as [->|].
    + simplify_eq. exists rf'. rewrite list_lookup_insert_eq by (by eapply lookup_lt_Some).
      split; [done|]. destruct Hcase as [[? ?]|[-> ?]]; [left; lia|]. destruct Hown as [?|[? ?]]; [by left|].
      right. tauto.
    + exists rf2. by rewrite list_lookup_insert_ne.
  - intros j rf2 [[<- ->]|[? ?]]%lookup_update Hst; [|eauto].
    destruct Hcase as [[_ ?]|[-> Hiff]]; [done|]. rewrite Hlog. apply Hl; tauto.
Qed.

(** A follower's log is replaced. *)
Lemma linv_follow s hist E i rf rf' :
  linv s hist E → nodes s !! i = Some rf → good_log hist (log rf') →
  currentTerm rf <= currentTerm rf' → state rf' = 2 →
  (state rf = 0 → currentTerm rf < currentTerm rf') →
  linv (set_node i rf' s) hist E.
Proof.
  intros [Hn Hh Hl Hb] Hi Hlog Hle Hst Hlead. split; simpl; [| | |done].
  - intros j rf2 [[<- ->]|[? ?]]%lookup_update; eauto.
  - intros T j H HT. destruct (Hh T j H HT) as (Hg & HE & rf2 & Hj & Hown). split_and!; [done..|].
    destruct (decide (i = j)) as [->|].
    + simplify_eq. exists rf'. rewrite list_lookup_insert_eq by (by eapply lookup_lt_Some).
      split; [done|]. destruct Hown as [?|[-> ?]]; left; [lia|by apply Hlead].
    + exists rf2. by rewrite list_lookup_insert_ne.
  - intros j rf2 [[<- ->]|[? ?]]%lookup_update Hs0; [congruence|eauto].
Qed.
Lemma linv_rounds s hist E r : linv s hist E → linv (set_rounds r s) hist E.
Proof. intros []. by split. Qed.

Lemma linv_starts s hist E q : linv s hist E → linv (set_starts q s) hist E.
Proof. intros []. by split. Qed.

Lemma linv_beat s hist E k b : linv s hist E → request_ok hist b → linv (set_beats (<[k := b]> (beats s)) s) hist E.
Proof. intros [Hn Hh Hl Hb] Hok. split; try done. intros k' b' [[<- ->]|[? ?]]%lookup_update; eauto. Qed.

Lemma linv_spawn s hist E i : linv s hist E → linv (spawn_beats i s) hist E.
Proof.
  intros [Hn Hh Hl Hb]. split; try done. simpl. intros k b Hk.
  apply lookup_app_Some in Hk as [Hk|[_ Hk]]; [eauto|].
  apply list_elem_of_lookup_2, list_elem_of_fmap in Hk as (j & -> & Hj).
  apply list_elem_of_filter in Hj as [Hj _]. by split.
Qed.

(** Nobody led the term of a candidate that is about to win. *)
Lemma linv_fresh s hist G E E' (ns : list (raft C)) i rf :
  linv s hist E → core n ns G E' → E ⊆ E' → nodes s !! i = Some rf → state rf = 1 →
  (currentTerm rf, i) ∈ E' → hist !! currentTerm rf = None.
Proof.
  intros Hl Hs HE Hi Hst HiE. destruct (hist !! currentTerm rf) as [[j H]|] eqn:Hj; [|done]. exfalso.
  destruct (li_hist _ _ _ Hl _ _ _ Hj) as (_ & HjE & rf2 & Hj2 & Hown).
  assert (j = i) as -> by (eapply (co_elected _ _ _ _ Hs); eauto).
  simplify_eq. destruct Hown as [?|[_ ?]]; [lia|congruence].
Qed.

(** A new leader starts the history of its term with its log. *)
Lemma linv_elect s hist G E E' i rf rf' :
  linv s hist E → core n (<[i := rf']> (nodes s)) G E' → E ⊆ E' → nodes s !! i = Some rf →
  log rf' = log rf → currentTerm rf' = currentTerm rf → state rf = 1 → state rf' = 0 →
  linv (set_node i rf' s) (<[currentTerm rf := (i, log rf)]> hist) E'.
Proof.
  intros [Hn Hh Hl Hb] Hs HE Hi Hlog Ht Hst Hst'.
  assert ((currentTerm rf, i) ∈ E') as HiE.
  { rewrite <- Ht. eapply (co_leader _ _ _ _ Hs); [|done].
    apply list_lookup_insert_eq. by eapply lookup_lt_Some. }
  pose proof (linv_fresh _ _ _ _ _ _ _ _ (Build_linv _ _ _ Hn Hh Hl Hb) Hs HE Hi Hst HiE) as Hfresh.
  assert (grows hist (<[currentTerm rf := (i, log rf)]> hist)) as Hg.
  { intros T j H HT. exists H. split; [|done]. rewrite lookup_insert_ne; [done|]. intros <-. congruence. }
  split; simpl.
  - intros j rf2 [[<- ->]|[? ?]]%lookup_update; eapply good_log_grows; [done| |done|]; [rewrite Hlog|]; eauto.
  - intros T j H. rewrite lookup_insert. case_decide as HT; [intros [= <- <-]; subst T|intros HT'].
    + split_and!; [eapply good_log_grows; eauto|done|]. exists rf'.
      rewrite list_lookup_insert_eq by (by eapply lookup_lt_Some). split; [done|]. right. by split.
    + destruct (Hh T j H HT') as (Hgl & HjE & rf2 & Hj & Hown). split_and!; [by eapply good_log_grows|auto|].
      destruct (decide (i = j)) as [->|].
      * simplify_eq. exists rf'. rewrite list_lookup_insert_eq by (by eapply lookup_lt_Some).
        split; [done|]. destruct Hown as [?|[-> ?]]; [left; lia|congruence].
      * exists rf2. by rewrite list_lookup_insert_ne.
  - intros j rf2 [[<- ->]|[Hne Hj]]%lookup_update Hs0; [rewrite Ht, Hlog; apply lookup_insert_eq|].
    pose proof (Hl j rf2 Hj Hs0) as Hj'. rewrite lookup_insert_ne; [done|]. intros Heq. congruence.
  - intros k b Hk. eapply request_ok_grows; eauto.
Qed.

(** A leader appends an entry of its term. *)
Lemma linv_append s hist E i rf c :
  linv s hist E → nodes s !! i = Some rf → state rf = 0 →
  let l := log rf ++ [mkLog (Some c) (currentTerm rf)] in
  linv (set_node i (set_log l rf) s) (<[currentTerm rf := (i, l)]> hist) E.
Proof.
  intros [Hn Hh Hl Hb] Hi Hst l. pose proof (Hl i rf Hi Hst) as Hcur.
  assert (grows hist (<[currentTerm rf := (i, l)]> hist)) as Hg.
  { intros T j H HT. rewrite lookup_insert. case_decide as Heq.
    - subst T. simplify_eq. exists l. split; [done|]. by exists [mkLog (Some c) (currentTerm rf)].
    - by exists H. }
  assert (good_log (<[currentTerm rf := (i, l)]> hist) l) as Hgl.
  { destruct (good_log_grows _ _ _ Hg (Hn i rf Hi)) as [H0 Hall]. split.
    - unfold l. by apply lookup_app_l_Some.
    - intros k e Hk. unfold l in Hk. apply lookup_app_Some in Hk as [Hk|[Hge Hk]].
      + destruct (Hall k e Hk) as [?|(j & H & HT & Heq)]; [by left|]. right. exists j, H. split; [done|].
        rewrite <- Heq. unfold l. apply take_app_le. apply lookup_lt_Some in Hk. lia.
      + apply list_lookup_singleton_Some in Hk as [_ <-]. right. exists i, l. simpl.
        by rewrite lookup_insert_eq. }
  split; simpl.
  - intros j rf2 [[<- ->]|[? ?]]%lookup_update; [done|]. eapply good_log_grows; eauto.
  - intros T j H. rewrite lookup_insert. case_decide as HT; [intros [= <- <-]; subst T|intros HT'].
    + destruct (Hh _ _ _ Hcur) as (_ & HE & _). split_and!; [done..|]. eexists.
      rewrite list_lookup_insert_eq by (by eapply lookup_lt_Some). split; [done|]. right. by split.
    + destruct (Hh T j H HT') as (Hgl' & HjE & rf2 & Hj & Hown). split_and!; [by eapply good_log_grows|done|].
      destruct (decide (i = j)) as [->|].
      * simplify_eq. eexists. rewrite list_lookup_insert_eq by (by eapply lookup_lt_Some). by split.
      * exists rf2. by rewrite list_lookup_insert_ne.
  - intros j rf2 [[<- ->]|[Hne Hj]]%lookup_update Hs0; [apply lookup_insert_eq|].
    pose proof (Hl j rf2 Hj Hs0) as Hj'. rewrite lookup_insert_ne; [done|]. intros Heq. congruence.
  - intros k b Hk. eapply request_ok_grows; eauto.
Qed.
(** ** Steps *)

Lemma heartbeat_args_log server rf a :
  heartbeat_args server rf = Some a →
  (∀ next, (nextIndex rf).[server] = Some next → 1 <= next <= zlen (log rf)) →
  ae_from a (log rf) ∧ ae_Term a = currentTerm rf.
Proof.
  intros Ha Hr. destruct ((nextIndex rf).[server]) as [next|] eqn:Hn.
  - destruct (heartbeat_args_spec server rf next Hn (Hr next eq_refl)) as (a' & Ha' & ? & ? & _). by simplify_eq.
  - exfalso. unfold heartbeat_args in Ha. by rewrite Hn in Ha.
Qed.

Lemma heartbeat_reply_log server args reply rf rf' :
  heartbeat_reply server args reply rf = Some rf' → log rf' = log rf.
Proof.
  unfold heartbeat_reply, decrement_next. destruct (negb _); [by intros [= <-]|].
  destruct (_ >? _); [by intros [= <-]|]. destruct (negb _); [destruct (aer_Success reply)|destruct (negb _)].
  - intros (nl & _ & (ml & _ & (cmt & _ & Hc)%bind_Some)%bind_Some)%bind_Some.
    destruct (_ <? _); [|by injection Hc as <-]. by apply commit_loop_effect in Hc as [-> | ->].
  - by intros (next & _ & (l & _ & [= <-])%bind_Some)%bind_Some.
  - by intros (next & _ & (l & _ & [= <-])%bind_Some)%bind_Some.
  - by intros [= <-].
Qed.

(** Fresh goroutines and other bookkeeping do not matter. *)
Lemma linv_ext s s2 hist E :
  nodes s2 = nodes s →
  (∀ k b, beats s2 !! k = Some b → beats s !! k = Some b ∨ b_peer b ≠ b_server b ∧ b_call b = BPending) →
  linv s hist E → linv s2 hist E.
Proof.
  intros Hn Hb [H1 H2 H3 H4]. split; rewrite ?Hn; try done.
  intros k b Hk. destruct (Hb k b Hk) as [?|[? Hp]]; [eauto|]. split; [done|]. rewrite Hp. done.
Qed.

Lemma spawn_beats_fresh i s k b :
  beats (spawn_beats i s) !! k = Some b → beats s !! k = Some b ∨ b_peer b ≠ b_server b ∧ b_call b = BPending.
Proof.
  simpl. intros Hk. apply lookup_app_Some in Hk as [Hk|[_ Hk]]; [by left|right].
  apply list_elem_of_lookup_2, list_elem_of_fmap in Hk as (j & -> & Hj).
  by apply list_elem_of_filter in Hj as [Hj _].
Qed.

Lemma vote_reply_linv s s' hist (G : list (Z * nat * nat)) E E' k j :
  linv s hist E → safe n s' G E' → E ⊆ E' → exec (LVoteReply k j) s = Some s' →
  ∃ hist', linv s' hist' E'.
Proof.
  intros Hl [Hs' _ _] HE Hx. simpl in Hx. apply bind_Some in Hx as (r & Hk & Hx).
  apply bind_Some in Hx as (a & Ha & Hx). apply bind_Some in Hx as (call & Hj & Hx).
  apply bind_Some in Hx as (rf & Hi & Hx). destruct call as [|reply| |]; try done.
  pose proof (vote_reply_spec a reply rf (r_voteNum r)) as Hr.
  destruct (vote_reply a reply rf (r_voteNum r)) as [[rf' num'] b]. simpl in Hr. injection Hx as Hx.
  assert (nodes s' = <[r_server r := rf']> (nodes s)) as Hnodes by (subst s'; by destruct b).
  assert (∀ hist', linv (set_node (r_server r) rf' s) hist' E' → linv s' hist' E') as Hfin.
  { intros hist'. apply linv_ext; [done|]. subst s'. destruct b; intros k' b' Hk'; [|by left].
    by apply spawn_beats_fresh in Hk'. }
  rewrite Hnodes in Hs'. apply (linv_E _ _ _ _ HE) in Hl as Hl'.
  destruct Hr as [?|Ht Hst Hg Hmaj|Ht Hst Hg Hmaj|Ht Hst Hg Hlt|Ht Hst Hg Hge].
  2: { eexists. by apply Hfin, (linv_elect s hist G E E' _ rf). }
  all: exists hist; apply Hfin; eapply linv_node; [done..|]; simpl; (by right) || (by left).
Qed.

Lemma beat_handle_linv s s' hist E k :
  linv s hist E → exec (LBeatHandle k) s = Some s' → linv s' hist E.
Proof.
  intros Hl Hx. simpl in Hx. apply bind_Some in Hx as (b & Hk & Hx).
  apply bind_Some in Hx as (rf & Hi & Hx). destruct (b_call b) as [|a|a reply|] eqn:Hb; try done.
  apply bind_Some in Hx as ([rf' reply] & Hh & Hx). injection Hx as <-.
  destruct (li_beat _ _ _ Hl _ _ Hk) as [Hne Hreq]. destruct (Hreq a Hb) as (H & L & HT & HL & HLne & Hfrom).
  destruct (li_hist _ _ _ Hl _ _ _ HT) as (HgH & _ & _).
  pose proof (good_log_prefix _ _ _ HgH HL HLne) as HgL. pose proof (li_node _ _ _ Hl _ _ Hi) as Hgl.
  apply (linv_beat (set_node (b_peer b) rf' s)); [|by split].
  assert (log rf ≠ []) as Hlne by (destruct Hgl as [? _]; intros Heq; by rewrite Heq in *).
  destruct (AppendEntries_spec a rf Hlne) as (rf2 & reply2 & Hh2 & Hres); [by apply Hfrom|].
  rewrite Hh in Hh2. injection Hh2 as <- <-.
  assert (log rf' = log rf ∨ log rf' = L) as Hlog.
  { assert (take 1 L = take 1 (log rf)) as H1.
    { destruct HgL as [HL0 _], Hgl as [Hl0 _]. destruct L, (log rf); simplify_eq/=. done. }
    destruct (append_entries_log a rf rf' reply L) as [[?|[? _]] _]; auto. by eapply good_log_matching. }
  assert (good_log hist (log rf')) as Hgl' by (destruct Hlog as [-> | ->]; done).
  assert (state rf = 0 → ae_Term a ≠ currentTerm rf) as Hlead.
  { intros Hst Heq. pose proof (li_leader _ _ _ Hl _ _ Hi Hst) as HT2. rewrite Heq in HT. congruence. }
  destruct Hres as [Ht|rf' Ht Hacc|rf' Ht Hacc].
  - by eapply linv_node; [..|right].
  - destruct Hacc as [_ Hterm _ Hst]. eapply linv_follow; try done; [lia|].
    intros Hs0. specialize (Hlead Hs0). lia.
  - destruct Hacc as [_ Hterm _ Hst]. eapply linv_follow; try done; [lia|].
    intros Hs0. specialize (Hlead Hs0). lia.
Qed.
Lemma elect_linv s s' hist E i :
  linv s hist E → exec (LElect i) s = Some s' → linv s' hist E.
Proof.
  intros Hl Hx. simpl in Hx. apply bind_Some in Hx as (rf & Hi & Hx). unfold startElection in Hx.
  destruct (Z.eqb_spec (state rf) 0) as [|Hst]; injection Hx as <-.
  - by eapply linv_node; [..|right].
  - apply (linv_rounds (set_node i (set_vote (me rf) (set_term (currentTerm rf + 1) (set_state 1 rf))) s)).
    eapply linv_node; [done..|]. left. simpl. split; [lia|done].
Qed.

Lemma RequestVoteReply_log vargs rf rf' reply : RequestVoteReply vargs rf = Some (rf', reply) → log rf' = log rf.
Proof.
  unfold RequestVoteReply. intros (t & _ & Hh)%bind_Some. revert Hh.
  destruct (_ >? _), (_ && _); try destruct (_ || _); intros [= <- _]; try done;
    by rewrite (proj1 (proj2 (proj2 (reset_fields _)))).
Qed.

Lemma vote_handle_linv s s' hist E k j :
  linv s hist E → exec (LVoteHandle k j) s = Some s' → linv s' hist E.
Proof.
  intros Hl Hx. simpl in Hx. apply bind_Some in Hx as (r & _ & Hx). apply bind_Some in Hx as (a & _ & Hx).
  apply bind_Some in Hx as (call & _ & Hx). apply bind_Some in Hx as (rf & Hi & Hx).
  destruct call; try done. case_decide; [done|].
  apply bind_Some in Hx as ([rf' reply] & Hh & Hx). injection Hx as <-.
  apply (linv_rounds (set_node j rf' s)). pose proof (RequestVoteReply_log _ _ _ _ Hh) as Hlog.
  apply vote_handler_effect in Hh as (_ & _ & [(? & _ & Hst & _)|[(? & _ & Hst & _)|[(? & _ & _ & Hst & _)|(? & _ & Hst & _)]]]);
    (eapply linv_node; [done..|]); rewrite Hst; (by right) || (by left).
Qed.

(** A careful leader's request carries its own log. *)
Lemma beat_args_linv s s' hist E k :
  linv s hist E → careful (LBeatArgs k) s → exec (LBeatArgs k) s = Some s' → linv s' hist E.
Proof.
  intros Hl [Ht Hcare] Hx. simpl in Hx. apply bind_Some in Hx as (b & Hk & Hx).
  apply bind_Some in Hx as (rf & Hi & Hx). destruct (b_call b) eqn:Hb; try done.
  apply bind_Some in Hx as (a & Ha & Hx). injection Hx as <-.
  apply linv_beat; [done|]. destruct (li_beat _ _ _ Hl _ _ Hk) as [Hne _]. split; [done|].
  intros a' [= <-]. simpl.
  destruct (heartbeat_args_log _ _ _ Ha) as [Hfrom Hterm]; [intros next; by apply (Hcare b)|].
  pose proof (li_leader _ _ _ Hl _ _ Hi (Ht b rf Hk Hi)) as HT. rewrite Hterm.
  exists (log rf), (log rf). split_and!; try done.
  destruct (li_node _ _ _ Hl _ _ Hi) as [H0 _]. intros Heq. by rewrite Heq in H0.
Qed.

Lemma beat_reply_linv s s' hist E k :
  linv s hist E → exec (LBeatReply k) s = Some s' → linv s' hist E.
Proof.
  intros Hl Hx. simpl in Hx. apply bind_Some in Hx as (b & Hk & Hx). apply bind_Some in Hx as (rf & Hi & Hx).
  destruct (b_call b) as [|a|a reply|]; try done. apply bind_Some in Hx as (rf' & Hh & Hx). injection Hx as <-.
  apply (linv_beat (set_node (b_server b) rf' s)).
  - pose proof (heartbeat_reply_log _ _ _ _ _ Hh) as Hlog.
    apply heartbeat_reply_effect in Hh as (_ & _ & [(? & _ & Hst)|(? & _ & Hst)]); (eapply linv_node; [done..|]);
      rewrite Hst; (by right) || (by left).
  - split; [|done]. by destruct (li_beat _ _ _ Hl _ _ Hk).
Qed.

Lemma applier_linv s s' hist E i :
  linv s hist E → exec (LApply i) s = Some s' → linv s' hist E.
Proof.
  intros Hl Hx. simpl in Hx. apply bind_Some in Hx as (rf & Hi & Hx).
  apply bind_Some in Hx as ([rf' msg] & Ha & Hx). injection Hx as <-.
  unfold applier_step in Ha. destruct (_ >? _).
  - apply bind_Some in Ha as (e & _ & [= <- _]). by eapply linv_node; [..|right].
  - injection Ha as <- _. by eapply linv_node; [..|right].
Qed.

Lemma step_linv lb s s' hist G G' E E' :
  safe n s G E → linv s hist E → careful lb s → exec lb s = Some s' → safe n s' G' E' → E ⊆ E' →
  ∃ hist', linv s' hist' E'.
Proof.
  intros Hs Hl Hc Hx Hs' HE. pose proof (linv_E _ _ _ _ HE Hl) as Hl'. destruct lb.
  - exists hist. by eapply elect_linv.
  - exists hist. simpl in Hx. apply bind_Some in Hx as (r & _ & Hx). apply bind_Some in Hx as (rf & _ & Hx).
    destruct (r_args r); [done|]. apply bind_Some in Hx as (a & _ & Hx). injection Hx as <-.
    by apply linv_rounds.
  - exists hist. by eapply vote_handle_linv.
  - by eapply vote_reply_linv.
  - exists hist. simpl in Hx. apply bind_Some in Hx as (rf & _ & Hx). destruct (_ =? 0); [|done].
    injection Hx as <-. by apply linv_spawn.
  - exists hist. by eapply beat_args_linv.
  - exists hist. by eapply beat_handle_linv.
  - exists hist. by eapply beat_reply_linv.
  - exists hist. simpl in Hx. apply bind_Some in Hx as (rf & _ & Hx).
    destruct (_ =? 0); injection Hx as <-; [by apply linv_starts|done].
  - destruct Hc as [_ Hcare]. simpl in Hx. apply bind_Some in Hx as (p & Hk & Hx).
    apply bind_Some in Hx as (q & Hq & Hx). subst p.
    apply bind_Some in Hx as (rf & Hi & Hx). injection Hx as <-.
    destruct (Hcare q rf Hk Hi) as [Hst Hterm]. rewrite <- Hterm.
    eexists. apply linv_spawn, linv_starts. by eapply linv_append.
  - exists hist. by eapply applier_linv.
  - by destruct Hc.
Qed.

Lemma run_linv ls s s' hist G E :
  safe n s G E → linv s hist E → careful_run ls s → run ls s = Some s' → ∃ hist' E', linv s' hist' E'.
Proof.
  revert s hist G E. induction ls as [|lb ls IH]; intros s hist G E Hs Hl Hc Hr; simpl in *.
  - injection Hr as <-. eauto.
  - apply bind_Some in Hr as (s1 & Hx & Hr). destruct Hc as [Hc Hcs]. rewrite Hx in Hcs.
    destruct (step_safe n _ _ _ _ _ Hs (proj1 Hc) Hx) as (G1 & E1 & Hs1 & HG & HE).
    destruct (step_linv _ _ _ _ _ _ _ _ Hs Hl Hc Hx Hs1 HE) as (hist1 & Hl1). eauto.
Qed.

Lemma init_linv : linv (init_net n) ∅ [].
Proof.
  assert (∀ i rf, nodes (init_net n) !! i = Some rf → log rf = [dummy] ∧ state rf = 2) as Hi.
  { intros i rf Hi. simpl in Hi. rewrite list_lookup_fmap in Hi. by apply fmap_Some in Hi as (j & _ & ->). }
  split; [| | |done].
  - intros i rf Hrf. destruct (Hi i rf Hrf) as [-> _]. split; [done|].
    intros k e Hk. left. by apply list_lookup_singleton_Some in Hk as [-> _].
  - intros T i H. by rewrite lookup_empty.
  - intros i rf Hrf Hst. destruct (Hi i rf Hrf) as [_ ?]. congruence.
Qed.

Lemma run_log_matching ls s i j rf1 rf2 :
  careful_run ls (init_net n) → run ls (init_net n) = Some s →
  nodes s !! i = Some rf1 → nodes s !! j = Some rf2 → log_matching (log rf1) (log rf2).
Proof.
  intros Hc Hr H1 H2. destruct (run_linv _ _ _ _ _ _ (init_safe n) init_linv Hc Hr) as (hist & E & Hl).
  eapply good_log_matching; by eapply li_node.
Qed.
(** ** Deciding [careful] on concrete runs *)

Definition carefulb (lb : label C) s : bool :=
  match lb with
  | LBeatArgs k =>
      match beats s !! k with
      | Some b =>
          match nodes s !! b_server b with
          | Some rf =>
              (state rf =? 0) &&
              match (nextIndex rf).[Z.of_nat (b_peer b)] with
              | Some next => (1 <=? next) && (next <=? zlen (log rf))
              | None => true
              end
          | None => true
          end
      | None => true
      end
  | LStartAppend k =>
      match starts s !! k with
      | Some (Some p) =>
          match nodes s !! s_server p with
          | Some rf => (state rf =? 0) && (currentTerm rf =? s_term p)
          | None => true
          end
      | _ => true
      end
  | LRestart _ => false
  | _ => true
  end.

Fixpoint careful_runb (ls : list (label C)) s : bool :=
  match ls with
  | [] => true
  | lb :: ls => carefulb lb s && match exec lb s with Some s => careful_runb ls s | None => true end
  end.

Lemma carefulb_careful lb s : carefulb lb s = true → careful lb s.
Proof.
  intros Hb. destruct lb; try done; simpl in Hb.
  - split.
    + intros b rf Hk Hi. rewrite Hk, Hi in Hb. by apply andb_true_iff in Hb as [?%Z.eqb_eq _].
    + intros b rf next Hk Hi Hn. rewrite Hk, Hi, Hn in Hb. zbool. lia.
  - split; [done|]. intros p rf Hk Hi. rewrite Hk, Hi in Hb. zbool. done.
Qed.

Lemma careful_runb_run ls s : careful_runb ls s = true → careful_run ls s.
Proof.
  revert s. induction ls as [|lb ls IH]; intros s Hb; simpl in *; [done|].
  apply andb_true_iff in Hb as [H1 H2]. split; [by apply carefulb_careful|].
  destruct (exec lb s); auto.
Qed.
End log.

End RaftLog.
