(* ===== verification/RaftSpec.v ===== *)
(** What raft/raft.go guarantees: the theorems about one server's handlers and
    about the cluster, with concrete instances. *)

From S2P Require Import Prelude GoStd Raft RaftProof RaftNet RaftSafety RaftLog.

#[local] Open Scope Z_scope.
#[local] Open Scope go_scope.

Module RaftSpec.
Export RaftLog.

(** ** What a step does to a server

    Every step of the cluster changes at most one server, by one of these, by the
    applier or by a restart. *)

Section server.
Context {C : Type}.
Implicit Types (rf : raft C) (s : net C).

Inductive server_step rf : raft C → Prop :=
| ss_elect : server_step rf (startElection rf).1
| ss_vote vargs rf' reply : RequestVoteReply vargs rf = Some (rf', reply) → server_step rf rf'
| ss_vote_reply vargs reply num : server_step rf (vote_reply vargs reply rf num).1.1
| ss_append args rf' reply : RequestAppendEntriesReply args rf = Some (rf', reply) → server_step rf rf'
| ss_append_reply server args reply rf' : heartbeat_reply server args reply rf = Some rf' → server_step rf rf'
| ss_start command t : server_step rf (Start_append command t rf).1.


Lemma set_node_lookup i j rf rf' (s : net C) :
  nodes (set_node i rf s) !! j = Some rf' → (i = j ∧ rf' = rf) ∨ nodes s !! j = Some rf'.
Proof. intros [[? ?]|[? ?]]%lookup_update; auto. Qed.

Lemma exec_server lb s s' i rf rf' :
  exec lb s = Some s' → nodes s !! i = Some rf → nodes s' !! i = Some rf' →
  rf' = rf ∨ server_step rf rf' ∨ (lb = LApply i ∧ ∃ msg, applier_step rf = Some (rf', msg)) ∨
  lb = LRestart i ∧ rf' = Make (List.length (nodes s)) (Z.of_nat i) [].
Proof.
  intros Hx Hi Hi'. destruct lb as [j|k|k j|k j|j|k|k|k|j c|k|j|j]; simpl in Hx.
  - apply bind_Some in Hx as (rj & Hj & Hx). pose proof (ss_elect rj) as Hs.
    destruct (startElection rj) as [r2 []]; injection Hx as <-;
      apply set_node_lookup in Hi' as [[-> ->]|?]; simplify_eq; auto.
  - apply bind_Some in Hx as (r & _ & (rj & _ & Hx)%bind_Some). destruct (r_args r); [done|].
    apply bind_Some in Hx as (a & _ & [= <-]). simpl in Hi'. simplify_eq. auto.
  - apply bind_Some in Hx as (r & _ & (a & _ & (c & _ & (rj & Hj & Hx)%bind_Some)%bind_Some)%bind_Some).
    destruct c; try done. destruct (decide _); [done|]. apply bind_Some in Hx as ((r2 & reply) & Hr & [= <-]).
    apply set_node_lookup in Hi' as [[-> ->]|?]; simplify_eq; eauto using ss_vote.
  - apply bind_Some in Hx as (r & _ & (a & _ & (c & _ & (rj & Hj & Hx)%bind_Some)%bind_Some)%bind_Some).
    destruct c as [|reply| |]; try done. pose proof (ss_vote_reply rj a reply (r_voteNum r)) as Hs.
    destruct (vote_reply _ _ _ _) as [[r2 num] b]. injection Hx as <-.
    assert (nodes (set_node (r_server r) r2 s) !! i = Some rf') as Hi2 by by destruct b.
    apply set_node_lookup in Hi2 as [[<- ->]|?]; simplify_eq; auto.
  - apply bind_Some in Hx as (rj & _ & Hx). revert Hx; case_match; [|done]; intros Hx. injection Hx as <-.
    simpl in Hi'. simplify_eq. auto.
  - apply bind_Some in Hx as (b & _ & (rj & _ & Hx)%bind_Some). destruct (b_call b); try done.
    apply bind_Some in Hx as (a & _ & [= <-]). simpl in Hi'. simplify_eq. auto.
  - apply bind_Some in Hx as (b & _ & (rj & Hj & Hx)%bind_Some). destruct (b_call b); try done.
    apply bind_Some in Hx as ((r2 & reply) & Hr & [= <-]).
    apply set_node_lookup in Hi' as [[<- ->]|?]; simplify_eq; eauto using ss_append.
  - apply bind_Some in Hx as (b & _ & (rj & Hj & Hx)%bind_Some). destruct (b_call b); try done.
    apply bind_Some in Hx as (r2 & Hr & [= <-]).
    apply set_node_lookup in Hi' as [[<- ->]|?]; simplify_eq; eauto using ss_append_reply.
  - apply bind_Some in Hx as (rj & _ & Hx). revert Hx; case_match; intros [= <-];
      simpl in Hi'; simplify_eq; auto.
  - apply bind_Some in Hx as (p & _ & (q & _ & (rj & Hj & [= <-])%bind_Some)%bind_Some).
    apply set_node_lookup in Hi' as [[<- ->]|?]; simplify_eq; [|by auto].
    right. left. apply (ss_start _ (s_command q) (s_term q)).
  - apply bind_Some in Hx as (rj & Hj & ((r2 & msg) & Hr & [= <-])%bind_Some).
    apply set_node_lookup in Hi' as [[<- ->]|?]; simplify_eq; eauto 10.
  - apply bind_Some in Hx as (rj & Hj & [= <-]).
    apply set_node_lookup in Hi' as [[<- ->]|?]; simplify_eq; auto 10.
Qed.

Lemma applier_effect rf rf' msg :
  applier_step rf = Some (rf', msg) → currentTerm rf' = currentTerm rf ∧ log rf' = log rf ∧ state rf' = state rf.
Proof.
  unfold applier_step. destruct (_ >? _); [|by intros [= <- _]].
  intros (e & _ & [= <- _])%bind_Some. done.
Qed.

Lemma vote_handler_log vargs rf rf' reply : RequestVoteReply vargs rf = Some (rf', reply) → log rf' = log rf.
Proof.
  unfold RequestVoteReply. intros (t & _ & H)%bind_Some. revert H.
  repeat case_match; intros [= <- _]; rewrite ?(proj1 (proj2 (proj2 (reset_fields _)))); done.
Qed.

Lemma server_step_spec rf rf' :
  server_step rf rf' →
  currentTerm rf <= currentTerm rf' ∧ (state rf = 0 → state rf' = 0 → log rf `prefix_of` log rf').
Proof.
  intros Hs. destruct Hs as [|vargs rf' reply Hr|vargs reply num|args rf' reply Hr|server args reply rf' Hr|c t].
  - unfold startElection. destruct (_ =? _); simpl; [done|]. split; [lia|done].
  - rewrite (vote_handler_log _ _ _ _ Hr). split; [|done].
    destruct (vote_handler_effect _ _ _ _ Hr) as (_ & _ & [?|[?|[?|?]]]); lia.
  - destruct (vote_reply_spec vargs reply rf num); simpl; split; try done; lia.
  - destruct (append_entries_effect _ _ _ _ Hr) as (_ & _ & [->|(? & ? & _ & ?)]); [done|]. split; lia.
  - rewrite (heartbeat_reply_log _ _ _ _ _ Hr). split; [|done].
    destruct (heartbeat_reply_effect _ _ _ _ _ Hr) as (_ & _ & [?|?]); lia.
  - simpl. split; [done|]. intros _ _. by apply prefix_app_r.
Qed.
End server.

(** ** Delivering committed entries *)

(** [k] passes of [applier] with nothing in between. *)
Fixpoint applier_run {C} (k : nat) (rf : raft C) : option (raft C * list (ApplyMsg C)) :=
  match k with
  | O => Some (rf, [])
  | S k =>
      '(rf, msg) ← applier_step rf; '(rf, msgs) ← applier_run k rf;
      Some (rf, option_list msg ++ msgs)
  end.

(** The messages for the committed entries from index [a] on. *)
Definition messages_from {C} (a : Z) (l : list (Log C)) : list (ApplyMsg C) :=
  imap (λ i e, mkApplyMsg true (Entry e) (a + Z.of_nat i)) l.

Lemma applier_run_spec {C} k (rf : raft C) :
  wf rf → lastApplied rf + Z.of_nat k = commitIndex rf →
  applier_run k rf =
    Some (set_applied (commitIndex rf) rf,
          messages_from (lastApplied rf + 1) (take k (drop (Z.to_nat (lastApplied rf + 1)) (log rf)))).
Proof.
  revert rf. induction k as [|k IH]; intros rf Hwf Hk; simpl.
  { f_equal. f_equal. destruct rf; simpl in *. unfold set_applied. simpl. f_equal. lia. }
  destruct (applier_step_spec rf Hwf) as (rf1 & msg & -> & Hwf1 & _ & Hstep).
  destruct Hstep as (-> & e & He & ->); [lia|]. simpl in *.
  rewrite IH by (simpl; lia || done). simpl. f_equal. f_equal.
  pose proof (wf_applied _ Hwf). rewrite zlookup_pos in He by lia.
  replace (Z.to_nat (lastApplied rf + 1 + 1)) with (S (Z.to_nat (lastApplied rf + 1))) by lia.
  rewrite (drop_S (log rf) e (Z.to_nat (lastApplied rf + 1))) by done. simpl. unfold messages_from. simpl.
  replace (lastApplied rf + 1 + Z.of_nat 0) with (lastApplied rf + 1) by lia. f_equal.
  apply imap_ext. intros i x _. simpl. f_equal. lia.
Qed.

(** ** Concrete runs and servers *)

(** Server 0 of three is elected by server 1, accepts a command and replicates
    it to server 1. *)
Definition elect0 : list (label string) := [LElect 0; LVoteArgs 0; LVoteHandle 0 1; LVoteReply 0 1].
Definition replicate_a : list (label string) :=
  [LStartCheck 0 "a"; LStartAppend 0; LBeatArgs 2; LBeatHandle 2; LBeatReply 2].

Definition after (ls : list (label string)) : net string := default (init_net 3) (run ls (init_net 3)).
Definition server_after (ls : list (label string)) (i : nat) : raft string :=
  default (Make 3 0 []) (nodes (after ls) !! i).

(** A follower with one entry of term 1, and a request that extends it. *)
Definition follower : raft string :=
  set_log [mkLog None 0; mkLog (Some "a") 1] (set_term 1 (Make 3 1 [])).
Definition leader_log : list (Log string) :=
  [mkLog None 0; mkLog (Some "a") 1; mkLog (Some "b") 2].
Definition request : AppendEntriesArgs string :=
  mkAppendEntriesArgs 2 0 1 1 [mkLog (Some "b") 2] 1.

Lemma follower_wf : wf follower.
Proof.
  constructor; try (vm_compute; intuition congruence).
  intros e. unfold follower; simpl. rewrite !elem_of_cons, elem_of_nil. intros [->|[->|[]]]; simpl; lia.
Qed.

Lemma request_wf : ae_wf request.
Proof.
  constructor; simpl; [lia..|]. intros e. rewrite elem_of_cons, elem_of_nil. intros [->|[]]; simpl; lia.
Qed.

Lemma request_from : ae_from request leader_log.
Proof.
  constructor.
  - vm_compute. intuition congruence.
  - right. by exists (mkLog (Some "a") 1).
  - by right.
Qed.

(** ** The cluster *)

Lemma leaders_agree {C} n ls1 ls2 (s s' : net C) i j t :
  timely_run ls1 (init_net n) → run ls1 (init_net n) = Some s →
  timely_run ls2 s → run ls2 s = Some s' →
  leads s i t → leads s' j t → i = j.
Proof.
  intros Ht1 Hr1 Ht2 Hr2 (rf & Hi & Hl & <-) (rf' & Hj & Hl' & Ht).
  destruct (run_safe n _ _ _ _ _ (init_safe n) Ht1 Hr1) as (G & E & Hs & _).
  destruct (run_safe n _ _ _ _ _ Hs Ht2 Hr2) as (G' & E' & Hs' & _ & HE).
  pose proof (co_leader _ _ _ _ (sf_core _ _ _ _ Hs) i rf Hi Hl) as H1.
  pose proof (co_leader _ _ _ _ (sf_core _ _ _ _ Hs') j rf' Hj Hl') as H2. rewrite Ht in H2.
  eapply co_elected; [apply Hs'|by apply HE|done].
Qed.

(** At one time. *)
Lemma same_leader {C} n ls (s : net C) i j t :
  timely_run ls (init_net n) → run ls (init_net n) = Some s → leads s i t → leads s j t → i = j.
Proof. intros Ht Hr. by apply (leaders_agree n ls [] s s). Qed.

(** C3: Election Safety: in a run of the cluster in which heartbeat goroutines
    take their snapshot while their server still leads and no server restarts,
    a term has at most one leader, also when the two lead at different times. *)
Theorem election_safety {C} n ls1 ls2 (s s' : net C) i j t :
  timely_run ls1 (init_net n) → run ls1 (init_net n) = Some s →
  timely_run ls2 s → run ls2 s = Some s' →
  leads s i t → leads s' j t → i = j.
Proof. apply leaders_agree. Qed.

Lemma election_safety_witness :
  leads (after elect0) 0 1 ∧ leads (after (elect0 ++ replicate_a)) 0 1 ∧ 0%nat = 0%nat.
Proof.
  assert (leads (after elect0) 0 1) as H0.
  { exists (server_after elect0 0). split_and!; by vm_compute. }
  assert (leads (after (elect0 ++ replicate_a)) 0 1) as H1.
  { exists (server_after (elect0 ++ replicate_a) 0). split_and!; by vm_compute. }
  split_and!; [exact H0|exact H1|].
  apply (election_safety 3 elect0 replicate_a (after elect0) (after (elect0 ++ replicate_a)) 0 0 1);
    [| | | |exact H0|exact H1].
  - by apply careful_timely, careful_runb_run; vm_compute.
  - by vm_compute.
  - by apply careful_timely, careful_runb_run; vm_compute.
  - by vm_compute.
Defined.

(** C12: Log Matching: if moreover a heartbeat goroutine finds [nextIndex]
    between 1 and the length of the log, and [Start] appends while its server
    still leads the term it read, then two logs of the cluster that have entries
    of the same term at an index are equal up to that index. *)
Theorem cluster_log_matching {C} n ls (s : net C) i j rf1 rf2 k e1 e2 :
  careful_run ls (init_net n) → run ls (init_net n) = Some s →
  nodes s !! i = Some rf1 → nodes s !! j = Some rf2 →
  log rf1 !! k = Some e1 → log rf2 !! k = Some e2 → Term e1 = Term e2 →
  take (S k) (log rf1) = take (S k) (log rf2).
Proof. intros Hc Hr Hi Hj. by apply (run_log_matching n ls s i j). Qed.

Lemma cluster_log_matching_witness :
  log (server_after (elect0 ++ replicate_a) 0) = [mkLog None 0; mkLog (Some "a") 1] ∧
  take 2 (log (server_after (elect0 ++ replicate_a) 0)) = take 2 (log (server_after (elect0 ++ replicate_a) 1)).
Proof.
  split; [by vm_compute|].
  apply (cluster_log_matching 3 (elect0 ++ replicate_a) (after (elect0 ++ replicate_a)) 0 1
    _ _ 1 (mkLog (Some "a") 1) (mkLog (Some "a") 1)); [|by vm_compute..].
  by apply careful_runb_run; vm_compute.
Defined.

(** In every run, whatever the messages and without any proviso, a step
    other than a restart never lowers a server's term, and a leader only ever
    appends to its log. *)
Lemma leader_append_only {C} lb (s s' : net C) i rf rf' :
  exec lb s = Some s' → nodes s !! i = Some rf → nodes s' !! i = Some rf' →
  (lb ≠ LRestart i → currentTerm rf <= currentTerm rf') ∧
  (state rf = 0 → state rf' = 0 → log rf `prefix_of` log rf').
Proof.
  intros Hx Hi Hi'. destruct (exec_server _ _ _ _ _ _ Hx Hi Hi') as [->|[Hs|[(_ & msg & Hr)|[-> ->]]]].
  - done.
  - destruct (server_step_spec _ _ Hs) as [? ?]. by split.
  - by destruct (applier_effect _ _ _ Hr) as (-> & -> & _).
  - done.
Qed.

Lemma leader_append_only_witness :
  exec (LStartAppend 0) (after (elect0 ++ [LStartCheck 0 "a"])) =
    Some (after (elect0 ++ [LStartCheck 0 "a"; LStartAppend 0])) ∧
  log (server_after elect0 0) `prefix_of` log (server_after (elect0 ++ [LStartCheck 0 "a"; LStartAppend 0]) 0).
Proof.
  split; [by vm_compute|].
  refine (proj2 (leader_append_only (LStartAppend 0) (after (elect0 ++ [LStartCheck 0 "a"]))
    (after (elect0 ++ [LStartCheck 0 "a"; LStartAppend 0])) 0 _ _ _ _ _) _ _); by vm_compute.
Defined.

(** ** The handlers *)

(** [RequestAppendEntriesReply] returns on every well-formed state and
    request, takes exactly one of its branches (stale term, inconsistent log,
    success with the merged log and the new commit index), and keeps the server
    well formed. *)
Lemma append_entries_correct {C} (args : AppendEntriesArgs C) rf :
  wf rf → ae_wf args →
  ∃ rf' reply, RequestAppendEntriesReply args rf = Some (rf', reply) ∧
    append_entries_result args rf rf' reply ∧ wf rf'.
Proof.
  intros Hwf Ha. destruct (AppendEntries_spec args rf (wf_log _ Hwf) (aw_prev _ Ha)) as (rf' & reply & Hr & Hres).
  exists rf', reply. split_and!; [done..|]. by eapply AppendEntries_wf.
Qed.

Lemma append_entries_correct_witness :
  ∃ rf' reply, RequestAppendEntriesReply request follower = Some (rf', reply) ∧
    append_entries_result request follower rf' reply ∧ wf rf'.
Proof. apply (append_entries_correct request follower); [exact follower_wf|exact request_wf]. Defined.

(** C28: A request built from a leader's log [L] that matches the follower's log
    leaves the follower with its own log or with [L]; when the reply reports
    success the follower's log starts with [L], which is what the leader's
    [matchIndex] records. *)
Theorem append_entries_replicates {C} (args : AppendEntriesArgs C) rf rf' reply L :
  wf rf → ae_from args L → log_matching L (log rf) → take 1 L = take 1 (log rf) →
  RequestAppendEntriesReply args rf = Some (rf', reply) →
  (log rf' = log rf ∨ log rf' = L) ∧ (aer_Success reply = true → L `prefix_of` log rf').
Proof.
  intros Hwf Hfrom Hm H1 Hr. pose proof (af_prev _ _ Hfrom).
  destruct (AppendEntries_spec args rf (wf_log _ Hwf)) as (rf2 & reply2 & Hr2 & Hres); [lia|].
  rewrite Hr in Hr2. injection Hr2 as <- <-. destruct (append_entries_log args rf rf' reply L) as [Hl Hp]; try done; [apply Hwf|]. tauto.
Qed.

Lemma append_entries_replicates_witness :
  ∃ rf' reply, RequestAppendEntriesReply request follower = Some (rf', reply) ∧
    ((log rf' = log follower ∨ log rf' = leader_log) ∧ (aer_Success reply = true → leader_log `prefix_of` log rf')).
Proof.
  eexists _, _. split; [by vm_compute|].
  apply (append_entries_replicates request follower); [exact follower_wf|exact request_from| |done|by vm_compute].
  intros [|[|k]] e1 e2 H1 H2 He; [done|done|]. by destruct k.
Defined.

(** The log merge keeps the entries that agree with the request, replaces
    everything from the first conflict on, and never shortens the log unless
    there is a conflict. *)
Lemma merge_log_correct {C} (prev : nat) (entries lg : list (Log C)) :
  (prev < List.length lg)%nat →
  ∃ n : nat, (n ≤ List.length entries)%nat ∧
    (∀ i, (i < n)%nat → ∃ e x, entries !! i = Some e ∧ lg !! (S prev + i)%nat = Some x ∧ Term e = Term x) ∧
    (∀ e x, entries !! n = Some e → lg !! (S prev + n)%nat = Some x → Term e ≠ Term x) ∧
    merge_log (Z.of_nat prev) entries lg =
      Some (if decide (n = List.length entries) then lg else take (S prev + n) lg ++ drop n entries).
Proof. apply merge_log_spec. Qed.

Lemma merge_log_correct_witness :
  ∃ n : nat, (n ≤ 1)%nat ∧
    (∀ i, (i < n)%nat → ∃ e x, [mkLog (Some "b") 2] !! i = Some e ∧ log follower !! (1 + i)%nat = Some x ∧ Term e = Term x) ∧
    (∀ e x, [mkLog (Some "b") 2] !! n = Some e → log follower !! (1 + n)%nat = Some x → Term e ≠ Term x) ∧
    merge_log 0 [mkLog (Some "b") 2] (log follower) =
      Some (if decide (n = 1%nat) then log follower else take (1 + n) (log follower) ++ drop n [mkLog (Some "b") 2]).
Proof. apply (merge_log_correct 0 [mkLog (Some "b") 2] (log follower)). simpl. lia. Defined.

(** The arguments [RequestHeartBeat] builds when [nextIndex] is in range
    describe the leader's log truthfully (the entry before, and everything from
    [nextIndex] on), carry its term, id and commit index, and are well formed. *)
Lemma heartbeat_args_correct {C} server (rf : raft C) next :
  wf rf → (nextIndex rf).[server] = Some next → 1 <= next <= zlen (log rf) →
  ∃ args, heartbeat_args server rf = Some args ∧ ae_from args (log rf) ∧ ae_wf args ∧
    ae_Term args = currentTerm rf ∧ ae_LeaderId args = me rf ∧ ae_LeaderCommit args = commitIndex rf ∧
    ae_PrevLogIndex args = next - 1.
Proof.
  intros Hwf Hn Hr. destruct (heartbeat_args_spec server rf next Hn Hr) as (a & Ha & Hf & Ht & Hl & Hc & Hp).
  exists a. split_and!; try done. by eapply ae_from_wf.
Qed.

Lemma heartbeat_args_correct_witness :
  ∃ args, heartbeat_args 0 follower = Some args ∧ ae_from args (log follower) ∧ ae_wf args ∧
    ae_Term args = 1 ∧ ae_LeaderId args = 1 ∧ ae_LeaderCommit args = 0 ∧ ae_PrevLogIndex args = 1 - 1.
Proof.
  apply (heartbeat_args_correct 0 follower 1); [exact follower_wf|by vm_compute|vm_compute; intuition congruence].
Defined.

(** A reply to AppendEntries is processed without a panic when the request
    lies within the leader's log; [commitIndex] advances exactly when a majority
    acknowledged the index and its entry is of the current term; and the server
    stays well formed. *)
Lemma heartbeat_reply_correct {C} server (args : AppendEntriesArgs C) reply rf :
  wf rf → 0 <= server < n_peers rf → server ≠ me rf → 0 <= ae_PrevLogIndex args →
  (ae_Term args = currentTerm rf → ae_PrevLogIndex args + zlen (ae_Entries args) < zlen (log rf)) →
  ∃ rf', heartbeat_reply server args reply rf = Some rf' ∧
    heartbeat_reply_result server args reply rf rf' ∧ wf rf'.
Proof.
  intros Hwf Hs Hne Hp Hl. destruct (heartbeat_reply_spec server args reply rf Hwf Hs Hne Hp Hl) as (rf' & Hr & Hres).
  exists rf'. split_and!; [done..|]. by eapply heartbeat_reply_wf.
Qed.

Lemma heartbeat_reply_correct_witness :
  ∃ rf', heartbeat_reply 2 (mkAppendEntriesArgs 1 1 0 0 [mkLog (Some "a") 1] 0) (mkAppendEntriesReply 1 true) follower = Some rf' ∧
    heartbeat_reply_result 2 (mkAppendEntriesArgs 1 1 0 0 [mkLog (Some "a") 1] 0) (mkAppendEntriesReply 1 true) follower rf' ∧ wf rf'.
Proof.
  apply (heartbeat_reply_correct 2 (mkAppendEntriesArgs 1 1 0 0 [mkLog (Some "a") 1] 0)
    (mkAppendEntriesReply 1 true) follower); [exact follower_wf|vm_compute; intuition congruence..].
Defined.

(** The vote handler returns on every well-formed state; it grants the vote
    exactly when the candidate's term is current, its log is at least as up to
    date (or the voter's log is empty) and the voter has not voted for another,
    and it keeps the server well formed. *)
Lemma vote_correct {C} (vargs : VoteArgs) (rf : raft C) :
  wf rf → ∃ rf' reply, RequestVoteReply vargs rf = Some (rf', reply) ∧ vote_result vargs rf rf' reply ∧ wf rf'.
Proof.
  intros Hwf. destruct (RequestVoteReply_spec vargs rf Hwf) as (rf' & reply & Hr & Hres).
  exists rf', reply. split_and!; [done..|]. by eapply vote_wf.
Qed.

Lemma vote_correct_witness :
  ∃ rf' reply, RequestVoteReply (mkVoteArgs 2 0 1 1) follower = Some (rf', reply) ∧
    vote_result (mkVoteArgs 2 0 1 1) follower rf' reply ∧ wf rf'.
Proof. apply (vote_correct (mkVoteArgs 2 0 1 1) follower). exact follower_wf. Defined.

(** A candidate becomes leader exactly when a granted vote of its current
    term completes a majority, it then resets [nextIndex] to the end of its log;
    a larger term in a refusal makes it a follower; stale replies change nothing. *)
Lemma vote_reply_correct {C} (vargs : VoteArgs) reply (rf : raft C) voteNum rf' voteNum' leader :
  vote_reply vargs reply rf voteNum = (rf', voteNum', leader) →
  vote_reply_result vargs reply rf voteNum rf' voteNum' leader ∧ (wf rf → wf rf').
Proof.
  intros Hr. pose proof (vote_reply_spec vargs reply rf voteNum) as Hs. rewrite Hr in Hs. simpl in Hs.
  split; [done|]. intros Hwf. by eapply vote_reply_wf.
Qed.

Lemma vote_reply_correct_witness :
  let rf := (startElection follower).1 in
  vote_reply_result (mkVoteArgs 2 1 1 1) (mkVoteReply 2 true) rf 1
    (set_nextIndex [2; 2; 2] (set_state 0 rf)) 2 true ∧ (wf rf → wf (set_nextIndex [2; 2; 2] (set_state 0 rf))).
Proof.
  apply (vote_reply_correct (mkVoteArgs 2 1 1 1) (mkVoteReply 2 true) ((startElection follower).1) 1).
  by vm_compute.
Defined.

(** The applier delivers every committed entry once, in the order of the
    log, with its index, and stops at [commitIndex]. *)
Lemma applier_in_order {C} (rf : raft C) :
  wf rf → lastApplied rf <= commitIndex rf →
  applier_run (Z.to_nat (commitIndex rf - lastApplied rf)) rf =
    Some (set_applied (commitIndex rf) rf,
          messages_from (lastApplied rf + 1)
            (take (Z.to_nat (commitIndex rf - lastApplied rf)) (drop (Z.to_nat (lastApplied rf + 1)) (log rf)))) ∧
  applier_step (set_applied (commitIndex rf) rf) = Some (set_applied (commitIndex rf) rf, None).
Proof.
  intros Hwf Hle. split.
  - apply applier_run_spec; [done|lia].
  - unfold applier_step. simpl. rewrite Z.gtb_ltb, Z.ltb_irrefl. done.
Qed.

Lemma applier_in_order_witness :
  applier_run 1 (set_commit 1 follower) =
    Some (set_applied 1 (set_commit 1 follower), [mkApplyMsg true (Some "a") 1]) ∧
  applier_step (set_applied 1 (set_commit 1 follower)) = Some (set_applied 1 (set_commit 1 follower), None).
Proof.
  apply (applier_in_order (set_commit 1 follower)); [|simpl; lia].
  destruct follower_wf. constructor; try done.
Defined.

End RaftSpec.
