(* ===== verification/RaftCommit.v ===== *)
(** Leader Completeness for the cluster of RaftNet.v: the ghost state that
    records acknowledged entries and granted votes, the invariant about it, and
    why an entry that a majority acknowledged is in the log of every later
    leader.  RaftCommitStep.v shows that every step keeps the invariant. *)

From S2P Require Import Prelude GoStd Raft RaftProof RaftNet RaftSafety RaftLog.

#[local] Open Scope Z_scope.
#[local] Open Scope go_scope.

Module RaftCommit.
Export RaftLog.

Abbreviation history C := (gmap Z (nat * list (Log C))).

(** ** Logs *)

Section logs.
Context {C : Type}.
Implicit Types (l L H P : list (Log C)) (hist : history C) (T : Z) (p : nat).

(** The entry at index [p] is of term [T]. *)
Definition holds l T p : Prop := (1 <= p)%nat ∧ Term <$> l !! p = Some T.

#[global] Instance holds_dec l T p : Decision (holds l T p).
Proof. unfold holds. apply _. Defined.

(** Terms never decrease along a log. *)
Definition sorted_terms l : Prop :=
  ∀ i j e1 e2, (i <= j)%nat → l !! i = Some e1 → l !! j = Some e2 → Term e1 <= Term e2.

Lemma holds_prefix l L T p : l `prefix_of` L → holds l T p → holds L T p.
Proof.
  intros Hp [H1 (e & He & ->)%fmap_Some]. split; [done|].
  by rewrite (prefix_lookup_Some _ _ _ _ He Hp).
Qed.

Lemma sorted_prefix l L : l `prefix_of` L → sorted_terms L → sorted_terms l.
Proof.
  intros Hp Hs i j e1 e2 Hij Hi Hj.
  apply (Hs i j); [done|by eapply prefix_lookup_Some..].
Qed.

Lemma sorted_snoc l e : sorted_terms l → (∀ x, x ∈ l → Term x <= Term e) → sorted_terms (l ++ [e]).
Proof.
  intros Hs Hb i j e1 e2 Hij [Hi|[Hi1 Hi]]%lookup_app_Some [Hj|[Hj1 Hj]]%lookup_app_Some.
  - by apply (Hs i j).
  - apply list_lookup_singleton_Some in Hj as [_ <-]. apply Hb. by eapply list_elem_of_lookup_2.
  - apply lookup_lt_Some in Hj. lia.
  - apply list_lookup_singleton_Some in Hi as [_ <-]. apply list_lookup_singleton_Some in Hj as [_ <-]. lia.
Qed.

Lemma sorted_last l e x : sorted_terms l → last l = Some e → x ∈ l → Term x <= Term e.
Proof.
  intros Hs Hl [i Hi]%list_elem_of_lookup. rewrite last_lookup in Hl.
  apply (Hs i (pred (List.length l))); [|done|done]. apply lookup_lt_Some in Hi. lia.
Qed.

(** An entry of term [T] fixes everything up to it. *)
Lemma holds_take hist l T i H p :
  good_log hist l → hist !! T = Some (i, H) → holds l T p → take (S p) l = take (S p) H.
Proof.
  intros [_ Hg] HT [Hp (e & He & ->)%fmap_Some].
  destruct (Hg p e He) as [?|(i' & H' & HT' & Htk)]; [lia|]. simplify_eq. done.
Qed.

Lemma take_eq_holds l L T p : take (S p) l = take (S p) L → holds l T p → holds L T p.
Proof.
  intros Ht [Hp He]. split; [done|]. rewrite <- He, <- (lookup_take_lt L (S p) p), <- Ht by lia.
  by rewrite lookup_take_lt by lia.
Qed.

(** The whole of a log comes from the term of its last entry. *)
Lemma good_log_last hist l e :
  good_log hist l → last l = Some e → (2 <= List.length l)%nat →
  ∃ i H, hist !! Term e = Some (i, H) ∧ l `prefix_of` H.
Proof.
  intros [_ Hg] Hl Hlen. rewrite last_lookup in Hl.
  destruct (Hg _ _ Hl) as [?|(i & H & HT & Htk)]; [lia|]. exists i, H. split; [done|].
  rewrite Nat.succ_pred in Htk by lia. rewrite take_ge in Htk by done. rewrite Htk. apply prefix_take.
Qed.

Lemma prefix_comparable l L H :
  l `prefix_of` H → L `prefix_of` H → (List.length l <= List.length L)%nat → l `prefix_of` L.
Proof.
  intros [x ->] [y Hy] Hle. exists (drop (List.length l) L).
  rewrite <- (take_drop (List.length l) L) at 1. f_equal.
  apply (f_equal (take (List.length l))) in Hy. by rewrite take_app_length, take_app_le in Hy.
Qed.

(** Lists that agree wherever both are defined. *)
Lemma prefix_total_lookup {A} (l k : list A) :
  (∀ i x y, l !! i = Some x → k !! i = Some y → x = y) → l `prefix_of` k ∨ k `prefix_of` l.
Proof.
  revert k. induction l as [|x l IH]; intros [|y k] Hag; [left; done|left; by apply prefix_nil|right; by apply prefix_nil|].
  rewrite (Hag 0%nat x y) by done. destruct (IH k) as [?|?]; [|left|right]; [|by apply prefix_cons..].
  intros i a b. apply (Hag (S i)).
Qed.

(** What a vote request says about the candidate's log. *)
Definition describes (vargs : VoteArgs) l : Prop :=
  rv_LastLogIndex vargs = zlen l - 1 ∧
  if decide (zlen l = 1) then rv_LastLogTerm vargs = -1
  else ∃ e, last l = Some e ∧ rv_LastLogTerm vargs = Term e.
End logs.

(** ** The ghost state *)

Section ghost.
Context {C : Type} (n : nat).
Implicit Types (l L H P : list (Log C)) (T : Z) (p v : nat) (s : net C) (rf : raft C).

(** [g_hist] as in RaftLog.v; [g_elog] the log of each leader when it was
    elected; [(T, v, p)] in [g_acks] when server [v] held the log of the leader
    of [T] up to index [p] during [T]; [(a, v)] in [g_votes] when [v] granted the
    vote that request [a] asked for. *)
Record ghost := mkGhost {
  g_hist : history C;
  g_elog : gmap Z (list (Log C));
  g_acks : list (Z * nat * nat);
  g_votes : list (VoteArgs * nat);
}.
Implicit Types g : ghost.

Definition has_acked g T v p : Prop := ∃ p', (T, v, p') ∈ g_acks g ∧ (p <= p')%nat.

(** A leader of a term in [(T, hi]] started without entry [p] of term [T]. *)
Definition overridden g T hi p : Prop :=
  ∃ T' L, T < T' <= hi ∧ g_elog g !! T' = Some L ∧ ¬ holds L T p.

(** Entry [p] of term [T] is committed: a majority acknowledged it. *)
Definition committed g T p : Prop :=
  ∃ i H Q, g_hist g !! T = Some (i, H) ∧ holds H T p ∧ NoDup Q ∧ majority (Z.of_nat n) (zlen Q) ∧
    ∀ v, v ∈ Q → (v < n)%nat ∧ has_acked g T v p.

(** A prefix of a log that no leader of a term above [T] lacks. *)
Definition chosen g T P : Prop :=
  P = [dummy] ∨
  ∃ T0 p i H, T0 <= T ∧ committed g T0 p ∧ g_hist g !! T0 = Some (i, H) ∧ P `prefix_of` take (S p) H.

Record ghost_ok g : Prop := {
  gk_elog : ∀ T i H, g_hist g !! T = Some (i, H) → ∃ L, g_elog g !! T = Some L ∧ L `prefix_of` H;
  gk_start : ∀ T L, g_elog g !! T = Some L →
    0 < T ∧ is_Some (g_hist g !! T) ∧ ∀ e, e ∈ L → Term e < T;
  gk_terms : ∀ T i H, g_hist g !! T = Some (i, H) →
    good_log (g_hist g) H ∧ sorted_terms H ∧ ∀ e, e ∈ H → Term e <= T;
}.

(** A server: its commit index marks a chosen prefix, and what a leader thinks
    its peers hold was acknowledged. *)
Record node_ok g (i : nat) rf : Prop := {
  no_wf : wf rf;
  no_sorted : sorted_terms (log rf);
  no_candidate : state rf = 1 → ∀ e, e ∈ log rf → Term e < currentTerm rf;
  no_chosen : chosen g (currentTerm rf) (take (S (Z.to_nat (commitIndex rf))) (log rf));
  no_match : state rf = 0 → ∀ j m, matchIndex rf !! j = Some m → j ≠ i →
    m <= 0 ∨ has_acked g (currentTerm rf) j (Z.to_nat m);
}.

(** A server still holds what it acknowledged, or a later leader lacked it. *)
Definition keeps g T p rf : Prop := holds (log rf) T p ∨ overridden g T (currentTerm rf) p.

Definition ack_fits (ns : list (raft C)) g T v p : Prop :=
  ∃ i H rf, g_hist g !! T = Some (i, H) ∧ (p < List.length H)%nat ∧ ns !! v = Some rf ∧
    T <= currentTerm rf ∧ ∀ p', (p' <= p)%nat → holds H T p' → keeps g T p' rf.

(** The log of whoever [v] voted for with request [a] is as up to date as a log
    with all that [v] had acknowledged. *)
Definition vote_fits (ns : list (raft C)) g (a : VoteArgs) v : Prop :=
  ∃ rf, ns !! v = Some rf ∧ rv_Term a <= currentTerm rf ∧
    ∀ T p i H, T < rv_Term a → g_hist g !! T = Some (i, H) → has_acked g T v p → holds H T p →
      (∃ l, good_log (g_hist g) l ∧ sorted_terms l ∧ holds l T p ∧ up_to_date a l) ∨
      overridden g T (rv_Term a) p.

(** A leader was elected by a majority whose earlier acknowledgements its log
    contains, unless an even earlier leader lacked them. *)
Definition election_fits (ns : list (raft C)) g T' L : Prop :=
  ∃ Q, NoDup Q ∧ majority (Z.of_nat n) (zlen Q) ∧
    ∀ v, v ∈ Q → (v < n)%nat ∧ (∃ rf, ns !! v = Some rf ∧ T' <= currentTerm rf) ∧
      ∀ T p i H, T < T' → g_hist g !! T = Some (i, H) → has_acked g T v p → holds H T p →
        holds L T p ∨ overridden g T (T' - 1) p.

Definition elections_ok (ns : list (raft C)) g : Prop :=
  ∀ T' L, g_elog g !! T' = Some L → election_fits ns g T' L.

Definition round_fits (ns : list (raft C)) g (r : round) : Prop :=
  ∀ a, r_args r = Some a →
    (∃ rf, ns !! r_server r = Some rf ∧ rv_Term a <= currentTerm rf ∧
      (state rf = 1 → currentTerm rf = rv_Term a → describes a (log rf))) ∧
    ∀ j call, r_calls r !! j = Some call → granted_call call → (a, j) ∈ g_votes g.

(** A request was built from a log [L] of its leader, with a chosen prefix. *)
Definition request_fits g (b : beat C) (a : AppendEntriesArgs C) : Prop :=
  ∃ H L Le, g_hist g !! ae_Term a = Some (b_server b, H) ∧ g_elog g !! ae_Term a = Some Le ∧
    Le `prefix_of` L ∧ L `prefix_of` H ∧ L ≠ [] ∧ ae_from a L ∧
    0 <= ae_LeaderCommit a < zlen L ∧ chosen g (ae_Term a) (take (S (Z.to_nat (ae_LeaderCommit a))) L).

Definition beat_fits g (b : beat C) : Prop :=
  b_peer b ≠ b_server b ∧ (b_peer b < n)%nat ∧
  match b_call b with
  | BPending | BDone => True
  | BSent a => request_fits g b a
  | BAnswered a reply => request_fits g b a ∧
      (aer_Success reply = true →
       has_acked g (ae_Term a) (b_peer b) (Z.to_nat (ae_PrevLogIndex a + zlen (ae_Entries a))))
  end.

Record cinv s g : Prop := {
  ci_ghost : ghost_ok g;
  ci_nodes : ∀ i rf, nodes s !! i = Some rf → node_ok g i rf;
  ci_acks : ∀ T v p, (T, v, p) ∈ g_acks g → ack_fits (nodes s) g T v p;
  ci_votes : ∀ a v, (a, v) ∈ g_votes g → vote_fits (nodes s) g a v;
  ci_elections : elections_ok (nodes s) g;
  ci_rounds : ∀ k r, rounds s !! k = Some r → round_fits (nodes s) g r;
  ci_beats : ∀ k b, beats s !! k = Some b → beat_fits g b;
}.
(** ** Leader Completeness *)

(** The heart of the argument: a candidate whose log [L] is as up to date as a
    log [l] with entry [p] of term [T] has that entry too, unless an earlier
    leader lacked it. *)
Lemma up_to_date_holds g a T T' p l L :
  ghost_ok g → good_log (g_hist g) l → sorted_terms l → holds l T p →
  good_log (g_hist g) L → sorted_terms L → (∀ e, e ∈ L → Term e < T') →
  describes a L → up_to_date a l → holds L T p ∨ overridden g T (T' - 1) p.
Proof.
  intros Hok Hgl Hsl Hp HgL HsL Hb [Hidx Hterm] Hutd. destruct Hp as [Hp1 (x & Hx & Hxt)%fmap_Some].
  pose proof (lookup_lt_Some _ _ _ Hx) as Hpl.
  destruct Hutd as [H1|(e & He & Hcmp)]; [unfold zlen in H1; lia|].
  assert (T <= Term e) as HTe.
  { rewrite Hxt. apply (sorted_last l e x); [done..|]. by eapply list_elem_of_lookup_2. }
  assert (0 <= Term e) as He0.
  { destruct Hgl as [H0 _]. apply (sorted_last l e dummy); [done..|]. by eapply list_elem_of_lookup_2. }
  case_decide as HL1; [lia|]. destruct Hterm as (e' & He' & Ht').
  assert (2 <= List.length L)%nat as HL2.
  { destruct L as [|? [|? ?]]; simpl; [done|done|lia]. }
  destruct (good_log_last _ _ _ HgL He' HL2) as (i' & H' & HT' & HLH).
  destruct (good_log_last _ _ _ Hgl He ltac:(lia)) as (i & H & HT & HlH).
  assert (Term e' < T') as Hlt by (apply Hb; by eapply last_Some_elem_of).
  destruct Hcmp as [Hcmp|[Hcmp Hlen]]; rewrite Ht' in Hcmp.
  - destruct (gk_elog _ Hok _ _ _ HT') as (Le & HLe & HLe').
    destruct (decide (holds Le T p)) as [Hh|Hh]; [left|right; exists (Term e'), Le; split_and!; [lia|lia|done|done]].
    pose proof (holds_prefix _ _ _ _ HLe' Hh) as [_ HpH]. split; [done|].
    destruct (decide (p < List.length L)%nat) as [Hlp|Hlp].
    + apply lookup_lt_is_Some_2 in Hlp as [y Hy]. rewrite Hy. rewrite <- HpH. by rewrite (prefix_lookup_Some _ _ _ _ Hy HLH).
    + exfalso. apply fmap_Some in HpH as (y & Hy & HyT). rewrite last_lookup in He'.
      pose proof (prefix_lookup_Some _ _ _ _ He' HLH) as He2.
      destruct (gk_terms _ Hok _ _ _ HT') as (_ & Hs & _).
      assert (Term e' <= Term y); [|lia]. apply (Hs (pred (List.length L)) p); [lia|done|done].
  - left. rewrite Hcmp in HT. simplify_eq. apply (holds_prefix l).
    + eapply prefix_comparable; [done..|]. unfold zlen in Hlen, Hidx. lia.
    + split; [done|]. by rewrite Hx.
Qed.

Lemma committed_elected ns g T p T' L :
  elections_ok ns g → committed g T p → T < T' → g_elog g !! T' = Some L → holds L T p.
Proof.
  intros He (i & H & Q & HT & Hh & HQ & Hmaj & Hack) Hlt. revert L.
  assert (0 <= T' - T) as Hpos by lia. remember (Z.to_nat (T' - T)) as d eqn:Hd.
  revert T' Hlt Hpos Hd. induction (lt_wf d) as [d _ IH]. intros T' Hlt Hpos Hd L HL.
  destruct (He T' L HL) as (Q' & HQ' & Hmaj' & Hv').
  destruct (quorum_intersection n Q Q') as (v & Hv1 & Hv2); try done.
  - intros v Hv. by apply Hack.
  - intros v Hv. by apply Hv'.
  - destruct (Hack v Hv1) as [_ Ha]. destruct (Hv' v Hv2) as (_ & _ & Hall).
    destruct (Hall T p i H Hlt HT Ha Hh) as [?|(T2 & L2 & Hr & HL2 & Hno)]; [done|]. exfalso. apply Hno.
    apply (IH (Z.to_nat (T2 - T))) with (T' := T2); [lia..|done].
Qed.

(** Leader Completeness in terms of whole prefixes. *)
Lemma chosen_prefix ns g T P T' i H :
  ghost_ok g → elections_ok ns g → chosen g T P → g_hist g !! T' = Some (i, H) → T <= T' → P `prefix_of` H.
Proof.
  intros Hok He [->|(T0 & p & i0 & H0 & Hle & Hc & HT0 & HP)] HT' Hlt.
  { destruct (gk_terms _ Hok _ _ _ HT') as ([Hd _] & _). destruct H as [|x H]; [done|]. injection Hd as ->.
    by exists H. }
  etrans; [exact HP|]. destruct (decide (T0 = T')) as [->|Hne]; [simplify_eq; apply prefix_take|].
  destruct (gk_elog _ Hok _ _ _ HT') as (L & HL & HLH).
  assert (holds L T0 p) as Hh by (apply (committed_elected ns g T0 p T' L He Hc); [lia|done]).
  destruct (gk_terms _ Hok _ _ _ HT') as (Hg & _).
  rewrite <- (holds_take _ _ _ _ _ _ Hg HT0 (holds_prefix _ _ _ _ HLH Hh)). apply prefix_take.
Qed.

(** Two chosen prefixes never disagree. *)
Lemma chosen_agree ns g T1 P1 T2 P2 k e1 e2 :
  ghost_ok g → elections_ok ns g → chosen g T1 P1 → chosen g T2 P2 → P1 !! k = Some e1 → P2 !! k = Some e2 → e1 = e2.
Proof.
  intros Hok He H1 H2 Hk1 Hk2.
  assert (P1 = [dummy] ∧ P2 = [dummy] ∨ ∃ T i H, g_hist g !! T = Some (i, H) ∧ P1 `prefix_of` H ∧ P2 `prefix_of` H)
    as [[-> ->]|(T & i & H & _ & Hp1 & Hp2)]; [|congruence|].
  2: { apply (prefix_lookup_Some _ _ _ _ Hk1) in Hp1. apply (prefix_lookup_Some _ _ _ _ Hk2) in Hp2. congruence. }
  assert (∀ T P, chosen g T P → P = [dummy] ∨ ∃ T0 i H, g_hist g !! T0 = Some (i, H) ∧ chosen g T0 P) as Hbase.
  { intros T P [->|(T0 & p & i & H & Hle & Hc & HT & HP)]; [by left|]. right. exists T0, i, H. split; [done|].
    right. exists T0, p, i, H. done. }
  assert (∀ T, chosen g T [dummy]) as Hdummy by (intros; by left).
  assert (∀ T i H P T', g_hist g !! T = Some (i, H) → T' <= T → chosen g T' P → P `prefix_of` H) as Hpre.
  { intros T i H P T' HT Hle Hc. by eapply (chosen_prefix ns g T' P T). }
  apply Hbase in H1 as [->|(T1' & i1 & L1 & HT1 & Hc1)], H2 as [->|(T2' & i2 & L2 & HT2 & Hc2)];
    [by left|right..].
  - exists T2', i2, L2. split_and!; [done|by apply (Hpre T2' i2 L2 _ T2'); auto..].
  - exists T1', i1, L1. split_and!; [done|by apply (Hpre T1' i1 L1 _ T1'); auto..].
  - destruct (Z.le_ge_cases T1' T2') as [Hle|Hle].
    + exists T2', i2, L2. split_and!; [done|by apply (Hpre T2' i2 L2 _ T1')|by apply (Hpre T2' i2 L2 _ T2')].
    + exists T1', i1, L1. split_and!; [done|by apply (Hpre T1' i1 L1 _ T1')|by apply (Hpre T1' i1 L1 _ T2')].
Qed.
End ghost.

Arguments ghost : clear implicits.

End RaftCommit.
