(* ===== verification/RaftCommitStep.v ===== *)
(** Every step of the cluster of RaftNet.v keeps the invariant of RaftCommit.v,
    in runs that respect the code's unchecked assumptions. *)

From S2P Require Import Prelude GoStd Raft RaftProof RaftNet RaftSafety RaftLog RaftCommit.

#[local] Open Scope Z_scope.
#[local] Open Scope go_scope.

Module RaftCommitStep.
Export RaftCommit.

Section step.
Context {C : Type} (n : nat).
Implicit Types (l L H P : list (Log C)) (T : Z) (p v i : nat) (s : net C) (rf : raft C) (g : ghost C)
  (ns : list (raft C)).

(** ** Growth of the ghost state *)

Record gext g g' : Prop := {
  gx_hist : ∀ T i H, g_hist g !! T = Some (i, H) → ∃ H', g_hist g' !! T = Some (i, H') ∧ H `prefix_of` H';
  gx_elog : ∀ T L, g_elog g !! T = Some L → g_elog g' !! T = Some L;
  gx_acks : g_acks g ⊆ g_acks g';
  gx_votes : g_votes g ⊆ g_votes g';
}.

Lemma gext_refl g : gext g g.
Proof. split; try done. intros T i H HT. by exists H. Qed.

Lemma gext_trans g1 g2 g3 : gext g1 g2 → gext g2 g3 → gext g1 g3.
Proof.
  intros [H1 E1 A1 V1] [H2 E2 A2 V2]. split; [|auto|by etrans|by etrans].
  intros T i H HT. destruct (H1 _ _ _ HT) as (H' & HT' & Hp). destruct (H2 _ _ _ HT') as (H'' & ? & ?).
  exists H''. split; [done|by etrans].
Qed.

Lemma overridden_ext g g' T hi hi' p : gext g g' → hi <= hi' → overridden g T hi p → overridden g' T hi' p.
Proof.
  intros Hg Hle (T' & L & ? & HL & ?). exists T', L. split_and!; [lia|lia|by apply (gx_elog _ _ Hg)|done].
Qed.

Lemma has_acked_ext g g' T v p : gext g g' → has_acked g T v p → has_acked g' T v p.
Proof. intros Hg (p' & Hin & ?). exists p'. split; [by apply (gx_acks _ _ Hg)|done]. Qed.

Lemma good_log_ext g g' l : gext g g' → good_log (g_hist g) l → good_log (g_hist g') l.
Proof. intros Hg. apply good_log_grows. intros T i H. apply (gx_hist _ _ Hg). Qed.

Lemma committed_ext g g' T p : gext g g' → committed n g T p → committed n g' T p.
Proof.
  intros Hg (i & H & Q & HT & Hh & HQ & Hm & Hall). destruct (gx_hist _ _ Hg _ _ _ HT) as (H' & HT' & Hp).
  exists i, H', Q. split_and!; [done|by eapply holds_prefix|done|done|].
  intros v Hv. destruct (Hall v Hv). eauto using has_acked_ext.
Qed.

Lemma holds_length l T p : holds l T p → (p < List.length l)%nat.
Proof. intros [_ (e & He & _)%fmap_Some]. by eapply lookup_lt_Some. Qed.

Lemma prefix_take_mono (k : nat) (l L : list (Log C)) : l `prefix_of` L → take k l `prefix_of` take k L.
Proof.
  intros [x ->]. destruct (decide (k <= List.length l)%nat).
  - rewrite take_app_le by lia. done.
  - rewrite take_ge by lia. rewrite take_app_ge by lia. apply prefix_app_r. done.
Qed.

Lemma chosen_ext g g' T T' P : gext g g' → T <= T' → chosen n g T P → chosen n g' T' P.
Proof.
  intros Hg Hle [->|(T0 & p & i & H & H0 & Hc & HT & HP)]; [by left|right].
  destruct (gx_hist _ _ Hg _ _ _ HT) as (H' & HT' & Hp).
  exists T0, p, i, H'. split_and!; [lia|by eapply committed_ext|done|]. etrans; [exact HP|].
  by apply prefix_take_mono.
Qed.

(** ** Growth of the servers *)

Definition node_ext rf rf' : Prop :=
  currentTerm rf <= currentTerm rf' ∧
  (state rf' = 1 → currentTerm rf < currentTerm rf' ∨
     state rf = 1 ∧ currentTerm rf' = currentTerm rf ∧ log rf' = log rf).

Definition nodes_ext ns ns' : Prop := ∀ i rf, ns !! i = Some rf → ∃ rf', ns' !! i = Some rf' ∧ node_ext rf rf'.

(** New acknowledgements are of the current term of their server, or a later one. *)
Definition acks_new ns g g' : Prop :=
  ∀ T v p, (T, v, p) ∈ g_acks g' → (T, v, p) ∈ g_acks g ∨ ∃ rf, ns !! v = Some rf ∧ currentTerm rf <= T.

Lemma node_ext_refl rf : node_ext rf rf.
Proof. split; [done|]. intros ?. by right. Qed.

Lemma nodes_ext_insert ns i rf rf' : ns !! i = Some rf → node_ext rf rf' → nodes_ext ns (<[i := rf']> ns).
Proof.
  intros Hi Hx j rfj Hj. destruct (decide (i = j)) as [->|].
  - simplify_eq. exists rf'. rewrite list_lookup_insert_eq by (by eapply lookup_lt_Some). done.
  - exists rfj. rewrite list_lookup_insert_ne by done. split; [done|apply node_ext_refl].
Qed.

Section ext.
Context (ns ns' : list (raft C)) (g g' : ghost C).
Context (Hg : gext g g') (Hns : nodes_ext ns ns') (Hnew : acks_new ns g g').
Context (Hacks : ∀ T v p, (T, v, p) ∈ g_acks g → ack_fits ns g T v p).

(** An acknowledgement of an earlier term than its server's is an old one. *)
Lemma has_acked_old T v p rf :
  has_acked g' T v p → ns !! v = Some rf → T < currentTerm rf → has_acked g T v p.
Proof.
  intros (p' & Hin & Hle) Hv Hlt. exists p'. split; [|done].
  destruct (Hnew _ _ _ Hin) as [?|(rf2 & ? & ?)]; [done|]. simplify_eq. lia.
Qed.

Lemma holds_old T v p i H' :
  has_acked g T v p → g_hist g' !! T = Some (i, H') → holds H' T p →
  ∃ H, g_hist g !! T = Some (i, H) ∧ holds H T p.
Proof.
  intros (p' & Hin & Hle) HT' Hh. destruct (Hacks _ _ _ Hin) as (j & H & rf & HT & Hp & _).
  destruct (gx_hist _ _ Hg _ _ _ HT) as (H2 & HT2 & Hpre). simplify_eq. exists H. split; [done|].
  destruct Hh as [H1 Hh]. split; [done|]. destruct (lookup_lt_is_Some_2 H p) as [e He]; [lia|].
  rewrite (prefix_lookup_Some _ _ _ _ He Hpre) in Hh. by rewrite He.
Qed.

Lemma vote_fits_ext a v : vote_fits ns g a v → vote_fits ns' g' a v.
Proof.
  intros (rf & Hv & Hle & Hall). destruct (Hns _ _ Hv) as (rf' & Hv' & [Ht _]).
  exists rf'. split_and!; [done|lia|]. intros T p i H' Hlt HT' Ha Hh.
  pose proof (has_acked_old _ _ _ _ Ha Hv ltac:(lia)) as Ha0.
  destruct (holds_old _ _ _ _ _ Ha0 HT' Hh) as (H & HT & Hh0).
  destruct (Hall T p i H Hlt HT Ha0 Hh0) as [(l & ? & ? & ? & ?)|Ho].
  - left. exists l. split_and!; [by eapply good_log_ext|done..].
  - right. by eapply overridden_ext.
Qed.

Lemma election_fits_ext T' L : election_fits n ns g T' L → election_fits n ns' g' T' L.
Proof.
  intros (Q & HQ & Hm & Hall). exists Q. split_and!; [done..|]. intros v Hv.
  destruct (Hall v Hv) as (Hvn & (rf & Hrf & Hle) & Hacked). split; [done|].
  destruct (Hns _ _ Hrf) as (rf' & Hv' & [Ht _]). split; [exists rf'; split; [done|lia]|].
  intros T p i H' Hlt HT' Ha Hh. pose proof (has_acked_old _ _ _ _ Ha Hrf ltac:(lia)) as Ha0.
  destruct (holds_old _ _ _ _ _ Ha0 HT' Hh) as (H & HT & Hh0).
  destruct (Hacked T p i H Hlt HT Ha0 Hh0) as [?|Ho]; [by left|right]. by eapply overridden_ext.
Qed.

Lemma ack_fits_ext T v p :
  (T, v, p) ∈ g_acks g →
  (∀ rf rf' i H p', ns !! v = Some rf → ns' !! v = Some rf' → g_hist g !! T = Some (i, H) → T <= currentTerm rf →
     (p' <= p)%nat → holds H T p' → keeps g T p' rf → keeps g' T p' rf') →
  ack_fits ns' g' T v p.
Proof.
  intros Hin Hkeep. destruct (Hacks _ _ _ Hin) as (i & H & rf & HT & Hp & Hv & Ht & Hall).
  destruct (gx_hist _ _ Hg _ _ _ HT) as (H' & HT' & Hpre). destruct (Hns _ _ Hv) as (rf' & Hv' & [Ht' _]).
  exists i, H', rf'. split_and!; [done| |done|lia|].
  - apply prefix_length in Hpre. lia.
  - intros p' Hle Hh. destruct (holds_old T v p' i H') as (H2 & HT2 & Hh2); [by exists p|done|done|].
    simplify_eq. eapply Hkeep; eauto.
Qed.

Lemma round_fits_ext r : round_fits ns g r → round_fits ns' g' r.
Proof.
  intros Hr a Ha. destruct (Hr a Ha) as [(rf & Hs & Hle & Hd) Hc]. split.
  - destruct (Hns _ _ Hs) as (rf' & Hs' & Ht & Hcand). exists rf'. split_and!; [done|lia|].
    intros Hst Heq. destruct (Hcand Hst) as [?|(? & ? & ->)]; [lia|]. apply Hd; [done|lia].
  - intros j call Hj Hgr. by apply (gx_votes _ _ Hg), (Hc j call).
Qed.

Lemma request_fits_ext b a : request_fits n g b a → request_fits n g' b a.
Proof.
  intros (H & L & Le & HT & HL & ? & Hp & ? & ? & [? ?] & Hc). destruct (gx_hist _ _ Hg _ _ _ HT) as (H' & HT' & Hpre).
  exists H', L, Le. split_and!; try done; [by apply (gx_elog _ _ Hg)|by etrans|]. by eapply chosen_ext.
Qed.

Lemma beat_fits_ext b : beat_fits n g b → beat_fits n g' b.
Proof.
  intros (? & ? & Hb). split_and!; [done..|]. destruct (b_call b); try done.
  - by apply request_fits_ext.
  - destruct Hb as [? Hb]. split; [by apply request_fits_ext|]. intros ?. eapply has_acked_ext; eauto.
Qed.

Lemma node_ok_ext i rf : node_ok n g i rf → node_ok n g' i rf.
Proof.
  intros [H1 H2 H3 H4 H5]. split; try done; [by eapply chosen_ext|].
  intros Hst j m Hm Hne. destruct (H5 Hst j m Hm Hne); [by left|right]. by eapply has_acked_ext.
Qed.
End ext.

Lemma keeps_same_log g g' T p rf rf' :
  gext g g' → log rf' = log rf → currentTerm rf <= currentTerm rf' → keeps g T p rf → keeps g' T p rf'.
Proof.
  intros Hg Hlog Ht [?|?]; [left; by rewrite Hlog|right]. by eapply overridden_ext.
Qed.
(** ** Updating one server *)

Lemma cinv_node s g g' i rf rf' :
  cinv n s g → nodes s !! i = Some rf → gext g g' → node_ext rf rf' → acks_new (nodes s) g g' →
  ghost_ok g' → node_ok n g' i rf' →
  (∀ T p j H, g_hist g !! T = Some (j, H) → T <= currentTerm rf → holds H T p → keeps g T p rf → keeps g' T p rf') →
  (∀ T v p, (T, v, p) ∈ g_acks g' → (T, v, p) ∈ g_acks g ∨ ack_fits (<[i := rf']> (nodes s)) g' T v p) →
  (∀ a v, (a, v) ∈ g_votes g' → (a, v) ∈ g_votes g ∨ vote_fits (<[i := rf']> (nodes s)) g' a v) →
  (∀ T L, g_elog g' !! T = Some L → g_elog g !! T = Some L ∨ election_fits n (<[i := rf']> (nodes s)) g' T L) →
  cinv n (set_node i rf' s) g'.
Proof.
  intros [_ Hns Hacks Hvotes Hel Hro Hbe] Hi Hg Hx Hnew Hok Hno Hkeep Ha Hv He.
  pose proof (nodes_ext_insert _ _ _ _ Hi Hx) as Hnx. split; simpl; [done| | | | | |].
  - intros j rfj [[<- ->]|[? ?]]%lookup_update; [done|]. eapply node_ok_ext; eauto.
  - intros T v p Hin. destruct (Ha T v p Hin) as [Hin0|?]; [|done].
    eapply ack_fits_ext; [done..|]. intros rf1 rf2 j H p' H1 [[<- ->]|[? H2]]%lookup_update HT Hle _ Hh Hk; simplify_eq.
    + by eapply Hkeep.
    + by eapply keeps_same_log.
  - intros a v Hin. destruct (Hv a v Hin) as [?|?]; [|done]. eapply vote_fits_ext; eauto.
  - intros T L HL. destruct (He T L HL) as [?|?]; [|done]. eapply election_fits_ext; eauto.
  - intros k r Hk. eapply round_fits_ext; eauto.
  - intros k b Hk. eapply beat_fits_ext; eauto.
Qed.

(** A server that changes neither its log nor its leadership. *)
Lemma cinv_quiet s g i rf rf' :
  cinv n s g → nodes s !! i = Some rf → node_ext rf rf' → wf rf' →
  log rf' = log rf → commitIndex rf' = commitIndex rf →
  (state rf' = 0 → state rf = 0 ∧ currentTerm rf' = currentTerm rf ∧ matchIndex rf' = matchIndex rf) →
  cinv n (set_node i rf' s) g.
Proof.
  intros Hc Hi Hx Hwf Hlog Hcom Hlead. pose proof (gext_refl g) as Hg. pose proof (ci_nodes _ _ _ Hc _ _ Hi) as Hno.
  eapply cinv_node; try done; try (by left).
  - apply Hc.
  - destruct Hno as [H1 H2 H3 H4 H5], Hx as [Ht Hst]. split; [done|by rewrite Hlog| | |].
    + intros Hs e He. rewrite Hlog in He. pose proof (wf_terms _ H1 e He). destruct (Hst Hs) as [?|(? & -> & _)]; [lia|].
      by apply H3.
    + rewrite Hlog, Hcom. by eapply chosen_ext.
    + intros Hs. destruct (Hlead Hs) as (Hs0 & -> & ->). by apply H5.
  - intros T p j H _ _ _ Hk. eapply keeps_same_log; [done..|apply Hx|done].
Qed.

(** ** Updating the goroutines *)

Lemma cinv_round s g k r :
  cinv n s g → round_fits (nodes s) g r → cinv n (set_rounds (<[k := r]> (rounds s)) s) g.
Proof. intros [] Hr. split; try done. intros k' r' [[<- ->]|[? ?]]%lookup_update; eauto. Qed.

Lemma cinv_round_app s g r :
  cinv n s g → round_fits (nodes s) g r → cinv n (set_rounds (rounds s ++ [r]) s) g.
Proof.
  intros [] Hr. split; try done. simpl. intros k r' [?|[_ Hk]]%lookup_app_Some; [eauto|].
  by apply list_lookup_singleton_Some in Hk as [_ <-].
Qed.

Lemma cinv_beat s g k b :
  cinv n s g → beat_fits n g b → cinv n (set_beats (<[k := b]> (beats s)) s) g.
Proof. intros [] Hb. split; try done. intros k' b' [[<- ->]|[? ?]]%lookup_update; eauto. Qed.

Lemma cinv_spawn s g i : List.length (nodes s) = n → cinv n s g → cinv n (spawn_beats i s) g.
Proof.
  intros Hn []. split; try done. simpl. intros k b [?|[_ Hk]]%lookup_app_Some; [eauto|].
  apply list_elem_of_lookup_2, list_elem_of_fmap in Hk as (j & -> & Hj).
  apply list_elem_of_filter in Hj as [Hj [_ Hlt]%elem_of_seq]. split_and!; simpl; [done|lia|done].
Qed.

Lemma cinv_starts s g q : cinv n s g → cinv n (set_starts q s) g.
Proof. intros []. by split. Qed.

(** ** Elections *)

Lemma elect_cinv s s' g i : cinv n s g → exec (LElect i) s = Some s' → cinv n s' g.
Proof.
  intros Hc Hx. simpl in Hx. apply bind_Some in Hx as (rf & Hi & Hx).
  pose proof (no_wf _ _ _ _ (ci_nodes _ _ _ Hc _ _ Hi)) as Hwf. pose proof (startElection_wf _ Hwf) as Hwf'.
  unfold startElection in *. destruct (Z.eqb_spec (state rf) 0) as [|Hst]; injection Hx as <-.
  - by eapply cinv_quiet; [..|apply node_ext_refl| | | |].
  - apply (cinv_round_app (set_node i (set_vote (me rf) (set_term (currentTerm rf + 1) (set_state 1 rf))) s)); [|done].
    eapply cinv_quiet; [done..| |done|done|done|done]. split; simpl; [lia|]. intros _. left. lia.
Qed.

Lemma vote_args_cinv s s' g k : cinv n s g → exec (LVoteArgs k) s = Some s' → cinv n s' g.
Proof.
  intros Hc Hx. simpl in Hx. apply bind_Some in Hx as (r & Hk & Hx). apply bind_Some in Hx as (rf & Hi & Hx).
  destruct (r_args r); [done|]. apply bind_Some in Hx as (a & Ha & [= <-]).
  destruct (vote_args_spec rf) as (a' & Ha' & Ht & _ & Hidx & Hlt); [by eapply no_wf, ci_nodes|]. simplify_eq.
  apply cinv_round; [done|]. intros a2 [= <-]. simpl. split.
  - exists rf. split_and!; [done|lia|]. intros _ _. by split.
  - intros j call Hj Hgr. apply lookup_replicate in Hj as [-> _]. destruct Hgr as [|(? & ? & _)]; done.
Qed.

(** Whoever grants a vote checks that the candidate's log is as up to date as
    its own, which holds all it acknowledged. *)
Lemma vote_fits_new s g j rf rf' a :
  cinv n s g → nodes s !! j = Some rf → up_to_date a (log rf) → good_log (g_hist g) (log rf) →
  currentTerm rf <= rv_Term a → currentTerm rf' = rv_Term a →
  vote_fits (<[j := rf']> (nodes s)) g a j.
Proof.
  intros Hc Hj Hutd Hgl Hle Ht. exists rf'. rewrite list_lookup_insert_eq by (by eapply lookup_lt_Some).
  split_and!; [done|lia|]. intros T p i H Hlt HT (p' & Hin & Hp) Hh.
  destruct (ci_acks _ _ _ Hc _ _ _ Hin) as (i' & H' & rf2 & HT' & _ & Hj' & _ & Hall). simplify_eq.
  destruct (Hall p Hp Hh) as [Hl|Ho].
  - left. exists (log rf). split_and!; try done. by eapply no_sorted, ci_nodes.
  - right. eapply overridden_ext; [apply gext_refl|done|done].
Qed.

Definition with_votes g votes : ghost C := mkGhost (g_hist g) (g_elog g) (g_acks g) votes.

Lemma gext_votes g x : gext g (with_votes g (x :: g_votes g)).
Proof. split; simpl; try done; [intros T i H HT; by exists H|set_solver]. Qed.

Lemma cinv_votes s g a v :
  cinv n s g → vote_fits (nodes s) g a v → cinv n s (with_votes g ((a, v) :: g_votes g)).
Proof.
  intros Hc Hv. pose proof (gext_votes g (a, v)) as Hg. destruct Hc as [H1 H2 H3 H4 H5 H6 H7].
  split; simpl; try done.
  - by destruct H1.
  - intros i rf Hi. eapply node_ok_ext; eauto.
  - intros a' v' [[= -> ->]|Hin]%elem_of_cons; [done|]. by apply H4.
  - intros k r Hk a' Ha'. destruct (H6 k r Hk a' Ha') as [? Hcalls]. split; [done|]. simpl.
    intros j call Hj Hgr. right. eauto.
Qed.

Lemma vote_handle_cinv s s' g E k j :
  cinv n s g → linv s (g_hist g) E → exec (LVoteHandle k j) s = Some s' →
  ∃ g', gext g g' ∧ g_hist g' = g_hist g ∧ cinv n s' g'.
Proof.
  intros Hc Hl Hx. simpl in Hx. apply bind_Some in Hx as (r & Hk & Hx). apply bind_Some in Hx as (a & Ha & Hx).
  apply bind_Some in Hx as (call & Hcall & Hx). apply bind_Some in Hx as (rf & Hj & Hx). destruct call; try done.
  case_decide; [done|]. apply bind_Some in Hx as ([rf' reply] & Hh & Hx). injection Hx as <-.
  pose proof (no_wf _ _ _ _ (ci_nodes _ _ _ Hc _ _ Hj)) as Hwf.
  destruct (RequestVoteReply_spec a rf Hwf) as (rf2 & reply2 & Hh2 & Hres). rewrite Hh in Hh2. injection Hh2 as <- <-.
  pose proof (vote_wf _ _ _ _ Hwf Hres) as Hwf'.
  assert (∀ g', cinv n (set_node j rf' s) g' → (rvr_VoteGranted reply = true → (a, j) ∈ g_votes g') → gext g g' →
    cinv n (set_rounds (<[k := mkRound (r_server r) (r_args r) (r_voteNum r) (<[j := VAnswered reply]> (r_calls r))]>
      (rounds s)) (set_node j rf' s)) g') as Hfin.
  { intros g' Hc' Hin Hg. apply (cinv_round (set_node j rf' s)); [done|].
    destruct (ci_rounds _ _ _ Hc' k r Hk a Ha) as [? Hcalls]. intros a' Ha'. simpl in Ha'. simplify_eq.
    split; [done|]. simpl. intros j' call [[<- ->]|[? Hj']]%lookup_update Hgr; [|by eapply Hcalls].
    destruct Hgr as [|(? & [= <-] & ?)]; [done|]. by apply Hin. }
  destruct Hres as [Hlt|rf' Hle Hutd _ Hs [Hlog Hcom] Ht _ Hst|rf' Hle _ Hs [Hlog Hcom] Ht _ Hst].
  { exists g. split_and!; [apply gext_refl|done|]. apply Hfin; [|done|apply gext_refl].
    by eapply cinv_quiet; [..|apply node_ext_refl| | | |]. }
  all: assert (node_ext rf rf') as Hnx by
    (split; [lia|]; rewrite Hst, Ht; intros ?; case_decide; [done|right; split_and!; done || lia]).
  all: assert (cinv n (set_node j rf' s) g) as Hc'
    by (eapply cinv_quiet; try done; rewrite Hst, Ht; intros ?; case_decide; [done|];
        split_and!; [done|lia|by destruct Hs as (_ & _ & _ & _ & _ & -> & _)]).
  - exists (with_votes g ((a, j) :: g_votes g)). split_and!; [apply gext_votes|done|]. apply Hfin; [|by left|apply gext_votes].
    apply (cinv_votes _ _ _ _ Hc'). eapply (vote_fits_new s g j rf); try done. by eapply li_node.
  - exists g. split_and!; [apply gext_refl|done|]. apply Hfin; [done|done|apply gext_refl].
Qed.
(** ** A new leader *)

(** On top of [careful]: the server that wins an election has a [matchIndex]
    without traces of an earlier leadership, which [vote_reply] does not reset. *)
Definition steady (lb : label C) s : Prop :=
  careful lb s ∧
  match lb with
  | LVoteReply k j => ∀ r a reply rf,
      rounds s !! k = Some r → r_args r = Some a → r_calls r !! j = Some (VAnswered reply) →
      nodes s !! r_server r = Some rf → (vote_reply a reply rf (r_voteNum r)).2 = true →
      ∀ m, m ∈ matchIndex rf → m = 0
  | _ => True
  end.

Definition with_leader g T i L : ghost C :=
  mkGhost (<[T := (i, L)]> (g_hist g)) (<[T := L]> (g_elog g)) (g_acks g) (g_votes g).

Lemma gext_leader g T i L : ghost_ok g → g_hist g !! T = None → gext g (with_leader g T i L).
Proof.
  intros Hok Hf. split; simpl; try done.
  - intros T' j H HT. exists H. split; [|done]. rewrite lookup_insert_ne; [done|]. intros <-. congruence.
  - intros T' L' HL. rewrite lookup_insert_ne; [done|]. intros <-.
    destruct (gk_start _ Hok _ _ HL) as (_ & [? ?] & _). congruence.
Qed.

Lemma ghost_ok_leader g T i L :
  ghost_ok g → g_hist g !! T = None → good_log (g_hist g) L → sorted_terms L → (∀ e, e ∈ L → Term e < T) →
  ghost_ok (with_leader g T i L).
Proof.
  intros Hok Hf Hgl Hs Hb. pose proof (λ l, good_log_ext _ _ l (gext_leader g T i L Hok Hf)) as Hg. simpl in Hg. split; simpl.
  - intros T' j H. rewrite !lookup_insert. case_decide; [intros [= _ <-]; eauto|]. apply (gk_elog _ Hok).
  - intros T' L'. rewrite !lookup_insert. case_decide as HT.
    + intros [= <-]. subst. split_and!; [|done|done]. destruct Hgl as [H0 _].
      apply (Hb dummy). by eapply list_elem_of_lookup_2.
    + intros HL. by apply (gk_start _ Hok).
  - intros T' j H. rewrite lookup_insert. case_decide as HT.
    + intros [= _ <-]. subst. split_and!; [by apply Hg|done|]. intros e He. specialize (Hb e He). lia.
    + intros HT'. destruct (gk_terms _ Hok _ _ _ HT') as (? & ? & ?). split_and!; [by apply Hg|done|done].
Qed.

(** The voters of a winner: what they acknowledged is in the winner's log. *)
Lemma election_fits_new s g G E (r : round) a rf rf' reply k j :
  safe n s G E → linv s (g_hist g) E → cinv n s g →
  rounds s !! k = Some r → r_args r = Some a → r_calls r !! j = Some (VAnswered reply) →
  nodes s !! r_server r = Some rf → state rf = 1 → currentTerm rf = rv_Term a → node_ext rf rf' →
  rvr_VoteGranted reply = true → majority (Z.of_nat n) (r_voteNum r + 1) → g_hist g !! currentTerm rf = None →
  election_fits n (<[r_server r := rf']> (nodes s)) (with_leader g (currentTerm rf) (r_server r) (log rf))
    (currentTerm rf) (log rf).
Proof.
  intros Hs Hl Hc Hk Ha Hj Hi Hst Ht Hnx Hgr Hmaj Hf.
  pose proof (ci_ghost _ _ _ Hc) as Hok. pose proof (ci_nodes _ _ _ Hc _ _ Hi) as Hno.
  set (g' := with_leader g (currentTerm rf) (r_server r) (log rf)).
  pose proof (gext_leader g (currentTerm rf) (r_server r) (log rf) Hok Hf) as Hg.
  pose proof (co_len _ _ _ _ (sf_core _ _ _ _ Hs)) as Hlen.
  destruct (election_voters n G r a reply j) as (Q & HQ & HQm & Hall); try done.
  { by eapply sf_rounds. }
  { rewrite <- Hlen. by eapply lookup_lt_Some. }
  destruct (ci_rounds _ _ _ Hc _ _ Hk _ Ha) as [(rf2 & Hi2 & _ & Hdesc) Hcalls]. simplify_eq.
  specialize (Hdesc Hst Ht).
  assert (∀ T p, overridden g T (currentTerm rf) p → overridden g' T (currentTerm rf - 1) p) as Hover.
  { intros T p (T2 & L2 & Hr & HL2 & Hno2). exists T2, L2. split_and!; [lia| |by apply (gx_elog _ _ Hg)|done].
    assert (T2 ≠ currentTerm rf); [|lia]. intros ->. destruct (gk_start _ Hok _ _ HL2) as (_ & [? ?] & _). congruence. }
  exists Q. split_and!; [done..|]. intros v Hv. destruct (Hall v Hv) as [Hvn Hor]. split; [done|].
  assert (∀ T p i H, T < currentTerm rf → g_hist g' !! T = Some (i, H) → g_hist g !! T = Some (i, H)) as Hold.
  { intros T p i H Hlt. simpl. by rewrite lookup_insert_ne by lia. }
  destruct Hor as [->|(call & Hcall & Hgc & _)].
  - split; [exists rf'; rewrite list_lookup_insert_eq by (by eapply lookup_lt_Some); split; [done|apply Hnx]|].
    intros T p i H Hlt HT%Hold (p' & Hin & Hp) Hh; [|done|lia].
    destruct (ci_acks _ _ _ Hc _ _ _ Hin) as (i' & H' & rf2 & HT2 & _ & Hi2 & _ & Hkeep). simplify_eq.
    destruct (Hkeep p Hp Hh) as [?|Ho]; [by left|right; by apply Hover].
  - destruct (ci_votes _ _ _ Hc _ _ (Hcalls v call Hcall Hgc)) as (rfv & Hv' & Hle & Hvote).
    split.
    { destruct (nodes_ext_insert _ _ _ _ Hi Hnx _ _ Hv') as (x & Hx & Hxt & _). exists x. split; [done|lia]. }
    intros T p i H Hlt HT%Hold Hack Hh; [|done|lia].
    destruct (Hvote T p i H) as [(l & Hgl & Hsl & Hhl & Hutd)|Ho]; [lia|done|done|done| |right; apply Hover; by rewrite Ht].
    destruct (up_to_date_holds g a T (currentTerm rf) p l (log rf)) as [?|Ho]; try done.
    + by eapply li_node.
    + apply Hno.
    + intros e He. by apply Hno.
    + by left.
    + right. apply Hover. eapply overridden_ext; [apply gext_refl| |done]. lia.
Qed.
Lemma vote_reply_cinv s s' g G G' E E' k j :
  safe n s G E → safe n s' G' E' → E ⊆ E' → linv s (g_hist g) E → cinv n s g →
  steady (LVoteReply k j) s → exec (LVoteReply k j) s = Some s' →
  ∃ g', gext g g' ∧ cinv n s' g' ∧ linv s' (g_hist g') E'.
Proof.
  intros Hs Hs' HE Hl Hc [_ Hsteady] Hx. simpl in Hx. apply bind_Some in Hx as (r & Hk & Hx).
  apply bind_Some in Hx as (a & Ha & Hx). apply bind_Some in Hx as (call & Hj & Hx).
  apply bind_Some in Hx as (rf & Hi & Hx). destruct call as [|reply| |]; try done.
  specialize (Hsteady r a reply rf Hk Ha Hj Hi).
  pose proof (ci_nodes _ _ _ Hc _ _ Hi) as Hno. pose proof (no_wf _ _ _ _ Hno) as Hwf.
  pose proof (vote_reply_spec a reply rf (r_voteNum r)) as Hr.
  pose proof (co_len _ _ _ _ (sf_core _ _ _ _ Hs)) as Hlen. pose proof (sf_core _ _ _ _ Hs') as Hcore.
  destruct (vote_reply a reply rf (r_voteNum r)) as [[rf' num'] b]. simpl in Hr, Hsteady. injection Hx as Hx.
  pose proof (vote_reply_wf _ _ _ _ _ _ _ Hwf Hr) as Hwf'.
  assert (num' = r_voteNum r ∨ rvr_VoteGranted reply = true) as Hnum by (destruct Hr; auto).
  assert (nodes s' = <[r_server r := rf']> (nodes s)) as Hnodes by (subst s'; by destruct b).
  assert (∀ g', gext g g' → cinv n (set_node (r_server r) rf' s) g' → linv (set_node (r_server r) rf' s) (g_hist g') E' →
    ∃ g', gext g g' ∧ cinv n s' g' ∧ linv s' (g_hist g') E') as Hfin.
  { intros g' Hg Hc' Hl'. exists g'. split; [done|].
    set (r' := mkRound (r_server r) (r_args r) num' (<[j := if decide (num' = r_voteNum r) then VIgnored else VCounted]> (r_calls r))) in *.
    assert (cinv n (set_rounds (<[k := r']> (rounds s)) (set_node (r_server r) rf' s)) g') as Hc2.
    { apply (cinv_round (set_node (r_server r) rf' s)); [done|]. intros a' Ha'. simpl in Ha'. simplify_eq.
      destruct (ci_rounds _ _ _ Hc' k r Hk a Ha) as [? Hcalls]. split; [done|]. simpl.
      intros j' call [[<- ->]|[? ?]]%lookup_update Hgr; [|eauto]. apply (Hcalls j _ Hj). right. exists reply. split; [done|].
      destruct Hnum as [->|?]; [rewrite decide_True in Hgr by done; by destruct Hgr as [|(? & ? & _)]|done]. }
    subst s'. destruct b; [|split; [done|by apply linv_rounds]].
    split; [apply cinv_spawn; [by simpl; rewrite length_insert|done]|by apply linv_spawn, linv_rounds]. }
  clear Hx. rewrite Hnodes in Hcore. pose proof (linv_E _ _ _ _ HE Hl) as Hl'.
  destruct Hr as [?|Ht Hst Hgr Hmaj|Ht Hst Hgr Hmaj|Ht Hst Hgr Hlt|Ht Hst Hgr Hge].
  2: { set (rf' := set_nextIndex _ _) in *.
    assert (r_server r < List.length (nodes s))%nat as Hlt by (by eapply lookup_lt_Some).
    assert ((currentTerm rf, r_server r) ∈ E') as HiE.
    { apply (co_leader _ _ _ _ Hcore (r_server r) rf'); [by apply list_lookup_insert_eq|done]. }
    pose proof (linv_fresh n s (g_hist g) G' E E' _ _ _ Hl Hcore HE Hi Hst HiE) as Hf.
    pose proof (ci_ghost _ _ _ Hc) as Hok. pose proof (gext_leader g _ (r_server r) (log rf) Hok Hf) as Hg.
    assert (good_log (g_hist g) (log rf)) as Hgl by (by eapply li_node).
    assert (node_ext rf rf') as Hnx by (split; simpl; [lia|done]).
    rewrite (proj2 (co_id _ _ _ _ (sf_core _ _ _ _ Hs) _ _ Hi)) in Hmaj.
    apply (Hfin _ Hg); [|by apply (linv_elect n s (g_hist g) G' E E' _ rf)].
    eapply (cinv_node s g _ _ rf rf'); try done; try (by left).
    - by apply ghost_ok_leader; [..|apply Hno|apply Hno].
    - destruct Hno as [H1 H2 H3 H4 H5]. split; simpl; [done|done|done|by eapply chosen_ext|].
      intros _ j' m Hm _. left. assert (m = 0); [|lia]. apply Hsteady; [done|]. by eapply list_elem_of_lookup_2.
    - intros T p i H _ _ _ Hkeep. by eapply keeps_same_log.
    - intros T L. simpl. rewrite lookup_insert. case_decide as HT; [intros [= <-]; subst T; right|intros ?; by left].
      by eapply election_fits_new. }
  all: apply (Hfin g (gext_refl g)); [eapply cinv_quiet; try done; try (by apply node_ext_refl); try (split; simpl; intros; lia || done)|].
  all: eapply linv_node; [done..|]; simpl; (by right) || (by left).
Qed.
(** ** AppendEntries *)

Lemma beat_args_cinv s s' g E k :
  cinv n s g → linv s (g_hist g) E → careful (LBeatArgs k) s → exec (LBeatArgs k) s = Some s' → cinv n s' g.
Proof.
  intros Hc Hl [Htl Hcare] Hx. simpl in Hx. apply bind_Some in Hx as (b & Hk & Hx).
  apply bind_Some in Hx as (rf & Hi & Hx). destruct (b_call b) eqn:Hb; try done.
  apply bind_Some in Hx as (a & Ha & [= <-]). pose proof (Htl b rf Hk Hi) as Hst.
  destruct (ci_beats _ _ _ Hc _ _ Hk) as (Hne & Hpn & _). apply cinv_beat; [done|]. split_and!; [done..|]. simpl.
  pose proof (ci_nodes _ _ _ Hc _ _ Hi) as [Hwf _ _ Hch _].
  destruct ((nextIndex rf).[Z.of_nat (b_peer b)]) as [next|] eqn:Hn.
  2: { unfold heartbeat_args in Ha. by rewrite Hn in Ha. }
  destruct (heartbeat_args_spec _ _ _ Hn (Hcare b rf next Hk Hi Hn)) as (a' & Ha' & Hf & Ht & _ & Hcom & _). simplify_eq.
  pose proof (li_leader _ _ _ Hl _ _ Hi Hst) as HT. destruct (gk_elog _ (ci_ghost _ _ _ Hc) _ _ _ HT) as (Le & HLe & HLp).
  exists (log rf), (log rf), Le. rewrite Ht, Hcom. pose proof (wf_commit _ Hwf) as Hwc. unfold last_index in Hwc.
  split_and!; try done; [apply Hwf|lia..].
Qed.

Lemma ae_from_last (a : AppendEntriesArgs C) L :
  ae_from a L → ae_PrevLogIndex a + zlen (ae_Entries a) = zlen L - 1.
Proof.
  intros [Hp _ [[-> He]| ->]]; unfold zlen in *; simpl; [lia|]. rewrite length_drop. lia.
Qed.

(** Facts about the request's log. *)
Lemma request_log g (b : beat C) (a : AppendEntriesArgs C) :
  ghost_ok g → request_fits n g b a →
  ∃ H L Le, g_hist g !! ae_Term a = Some (b_server b, H) ∧ g_elog g !! ae_Term a = Some Le ∧
    Le `prefix_of` L ∧ L `prefix_of` H ∧ ae_from a L ∧ good_log (g_hist g) L ∧ sorted_terms L ∧ ae_wf a ∧
    ae_LeaderCommit a < zlen L ∧ chosen n g (ae_Term a) (take (S (Z.to_nat (ae_LeaderCommit a))) L).
Proof.
  intros Hok (H & L & Le & HT & HL & HLL & HLH & Hne & Hf & [Hc0 Hc1] & Hch).
  destruct (gk_terms _ Hok _ _ _ HT) as (Hg & Hs & Hb). pose proof (good_log_prefix _ _ _ Hg HLH Hne) as HgL.
  pose proof (sorted_prefix _ _ HLH Hs) as HsL.
  exists H, L, Le. split_and!; try done. split; [apply Hf|done|]. intros e He.
  assert (e ∈ L) as HeL.
  { destruct (af_entries _ _ Hf) as [[He0 _]|He0]; rewrite He0 in He; [by apply elem_of_nil in He|].
    by eapply sublist_elem, He; apply sublist_drop. }
  split.
  - apply list_elem_of_lookup in HeL as [i Hi]. destruct HgL as [Hd _]. apply (HsL 0%nat i dummy e); [lia|done|done].
  - apply Hb. destruct HLH as [x ->]. apply elem_of_app. by left.
Qed.

Definition with_ack g T v p : ghost C :=
  mkGhost (g_hist g) (g_elog g) ((T, v, p) :: g_acks g) (g_votes g).

Lemma gext_ack g T v p : gext g (with_ack g T v p).
Proof. split; simpl; try done; [intros T' i H HT; by exists H|set_solver]. Qed.

Lemma has_acked_new g T v p : has_acked (with_ack g T v p) T v p.
Proof. exists p. split; [by left|done]. Qed.

(** A follower that replaces its log by [L] keeps what it acknowledged. *)
Lemma replaced_keeps g (a : AppendEntriesArgs C) rf rf' H L Le T p j :
  g_hist g !! ae_Term a = Some (j, H) → g_elog g !! ae_Term a = Some Le → Le `prefix_of` L → L `prefix_of` H →
  good_log (g_hist g) (log rf) → currentTerm rf <= ae_Term a → currentTerm rf' = ae_Term a →
  log rf' = L → ¬ L `prefix_of` log rf → T <= currentTerm rf → keeps g T p rf → keeps g T p rf'.
Proof.
  intros HT HLe HLL HLH Hgl Hle Ht' Hlog Hno HTle [Hh|Ho].
  2: { right. eapply overridden_ext; [apply gext_refl| |done]. lia. }
  destruct (decide (T = ae_Term a)) as [->|Hne].
  - left. rewrite Hlog. pose proof (holds_take _ _ _ _ _ _ Hgl HT Hh) as Htk.
    destruct (decide (p < List.length L)%nat) as [Hlt|Hge].
    + apply (take_eq_holds (log rf)); [|done]. rewrite Htk. destruct HLH as [x ->]. by rewrite take_app_le by lia.
    + exfalso. apply Hno. trans (take (S p) (log rf)); [|apply prefix_take]. rewrite Htk.
      apply (prefix_comparable _ _ H HLH (prefix_take _ _)). rewrite length_take. apply prefix_length in HLH. lia.
  - destruct (decide (holds Le T p)) as [Hhl|Hhl]; [left; rewrite Hlog; by eapply holds_prefix|].
    right. exists (ae_Term a), Le. split_and!; [lia|lia|done|done].
Qed.

(** Handling a request. *)
Lemma append_entries_cinv s g b a rf rf' reply :
  cinv n s g → good_log (g_hist g) (log rf) → request_fits n g b a → nodes s !! b_peer b = Some rf →
  append_entries_result a rf rf' reply →
  ∃ g', gext g g' ∧ g_hist g' = g_hist g ∧ cinv n (set_node (b_peer b) rf' s) g' ∧
    (aer_Success reply = true →
     has_acked g' (ae_Term a) (b_peer b) (Z.to_nat (ae_PrevLogIndex a + zlen (ae_Entries a)))).
Proof.
  intros Hc Hgl Hreq Hi Hres. pose proof (ci_ghost _ _ _ Hc) as Hok. pose proof (ci_nodes _ _ _ Hc _ _ Hi) as Hno.
  destruct (request_log _ _ _ Hok Hreq) as (H & L & Le & HT & HLe & HLL & HLH & Hfrom & HgL & HsL & Haw & Hcom & Hch).
  pose proof (no_wf _ _ _ _ Hno) as Hwf. pose proof (AppendEntries_wf _ _ _ _ Hwf Haw Hres) as Hwf'.
  pose proof (ae_from_last _ _ Hfrom) as Hlast.
  assert (take 1 L = take 1 (log rf)) as H1.
  { destruct HgL as [HL0 _], Hgl as [Hl0 _]. destruct L, (log rf); simplify_eq/=. done. }
  destruct (append_entries_log a rf rf' reply L (wf_log _ Hwf) Hfrom (good_log_matching _ _ _ HgL Hgl) H1 Hres)
    as [Hlogs Hsucc].
  destruct Hres as [Hlt|rf' Ht [Hsame Hterm _ Hst] _ Hlog Hc'|rf' Ht [Hsame Hterm _ Hst] Hcons Hmerge Hc'].
  { exists g. split_and!; [apply gext_refl|done| |done]. eapply cinv_quiet; try done. apply node_ext_refl. }
  { exists g. split_and!; [apply gext_refl|done| |done]. eapply cinv_quiet; try done.
    - split; [lia|]. intros ?. lia.
    - intros ?. lia. }
  pose proof (gext_ack g (ae_Term a) (b_peer b) (List.length L - 1)) as Hg.
  exists (with_ack g (ae_Term a) (b_peer b) (List.length L - 1)). specialize (Hsucc eq_refl).
  assert (0 < List.length L)%nat as HL0 by (destruct Hfrom as [? _ _]; unfold zlen in *; lia).
  split_and!; [done|done| |intros _; rewrite Hlast; unfold zlen;
    replace (Z.to_nat (Z.of_nat (List.length L) - 1)) with (List.length L - 1)%nat by lia; apply has_acked_new].
  assert (node_ext rf rf') as Hnx by (split; [lia|intros; lia]).
  eapply (cinv_node s g _ _ rf rf'); try done; try (by left).
  - intros T v p [[= -> -> ->]|?]%elem_of_cons; [right; eauto|by left].
  - by destruct Hok.
  - split; [done| | | |].
    + destruct Hlogs as [->|[-> _]]; [apply Hno|done].
    + intros Hs1. lia.
    + rewrite Hterm, Hc'. unfold new_commit. case_decide as Hd.
      * destruct Hd as [He0 _]. pose proof (consistent_bound _ _ (wf_zlen _ Hwf) Hcons) as Hb.
        rewrite He0, merge_log_nil in Hmerge by (pose proof (aw_prev _ Haw); lia). injection Hmerge as Hmerge.
        rewrite <- Hmerge. eapply chosen_ext; [done|exact Ht|apply Hno].
      * pose proof (aw_commit _ Haw). pose proof (prefix_length _ _ Hsucc) as Hlen'.
        replace (ae_LeaderCommit a `min` (zlen (log rf') - 1)) with (ae_LeaderCommit a) by (unfold zlen in *; lia).
        destruct Hsucc as [x ->]. rewrite take_app_le by (unfold zlen in *; lia).
        by eapply chosen_ext; [..|exact Hch].
    + intros Hs0. lia.
  - intros T p j H0 _ HTle _ Hk. destruct Hlogs as [Hsame'|[HL Hno']].
    + eapply keeps_same_log; [done..|lia|done].
    + destruct (replaced_keeps g a rf rf' H L Le T p _ HT HLe HLL HLH Hgl Ht Hterm HL Hno' HTle Hk) as [?|Ho]; [by left|right].
      by eapply overridden_ext.
  - intros T v p [[= -> -> ->]|Hin]%elem_of_cons; [right|by left].
    exists (b_server b), H, rf'. rewrite list_lookup_insert_eq by (by eapply lookup_lt_Some).
    split_and!; [done|apply prefix_length in HLH; lia|done|lia|].
    intros p' Hp' Hh. left. apply (holds_prefix _ _ _ _ Hsucc). apply (take_eq_holds H); [|done].
    destruct HLH as [x ->]. by rewrite take_app_le by lia.
Qed.

Lemma beat_handle_cinv s s' g E k :
  cinv n s g → linv s (g_hist g) E → exec (LBeatHandle k) s = Some s' →
  ∃ g', gext g g' ∧ g_hist g' = g_hist g ∧ cinv n s' g'.
Proof.
  intros Hc Hl Hx. simpl in Hx. apply bind_Some in Hx as (b & Hk & Hx).
  apply bind_Some in Hx as (rf & Hi & Hx). destruct (b_call b) as [|a|a reply|] eqn:Hb; try done.
  apply bind_Some in Hx as ([rf' reply] & Hh & [= <-]).
  destruct (ci_beats _ _ _ Hc _ _ Hk) as (Hne & Hpn & Hreq). rewrite Hb in Hreq.
  pose proof (no_wf _ _ _ _ (ci_nodes _ _ _ Hc _ _ Hi)) as Hwf.
  destruct (request_log _ _ _ (ci_ghost _ _ _ Hc) Hreq) as (? & ? & ? & _ & _ & _ & _ & Hfrom & _).
  destruct (AppendEntries_spec a rf (wf_log _ Hwf)) as (rf2 & reply2 & Hh2 & Hres); [by apply Hfrom|].
  rewrite Hh in Hh2. injection Hh2 as <- <-.
  destruct (append_entries_cinv s g b a rf rf' reply) as (g' & Hg & Heq & Hc' & Hsucc); try done.
  { by eapply li_node. }
  exists g'. split_and!; [done..|]. apply (cinv_beat (set_node (b_peer b) rf' s)); [done|].
  split_and!; [done..|]. simpl. split; [|done]. by eapply request_fits_ext.
Qed.
(** ** Committing *)

(** The servers counted by [commit_loop], the leader included. *)
Lemma commit_quorum g i rf cmt :
  me rf = Z.of_nat i → n_peers rf = Z.of_nat n → (i < n)%nat → wf rf → 1 <= cmt →
  (∀ j m, matchIndex rf !! j = Some m → j ≠ i → m <= 0 ∨ has_acked g (currentTerm rf) j (Z.to_nat m)) →
  majority (n_peers rf) (1 + zlen (acked cmt rf)) →
  ∃ Q, NoDup Q ∧ majority (Z.of_nat n) (zlen Q) ∧
    ∀ v, v ∈ Q → (v < n)%nat ∧ (v = i ∨ has_acked g (currentTerm rf) v (Z.to_nat cmt)).
Proof.
  intros Hme Hn Hi Hwf Hcmt Hmatch Hmaj.
  assert (∀ z, z ∈ acked cmt rf → 0 <= z < Z.of_nat n ∧ z ≠ Z.of_nat i ∧
    has_acked g (currentTerm rf) (Z.to_nat z) (Z.to_nat cmt)) as Hz.
  { intros z [[Hne Hle] Hin]%list_elem_of_filter. apply elem_of_seqZ in Hin.
    rewrite (wf_match _ Hwf), Hn in Hin. rewrite Hme in Hne. split_and!; [lia..|].
    rewrite zlookup_pos in Hle by lia. destruct (matchIndex rf !! Z.to_nat z) as [m|] eqn:Hm; simpl in Hle; [|lia].
    destruct (Hmatch _ _ Hm) as [?|(p' & Hp' & Hmp)]; [lia|lia|]. exists p'. split; [done|lia]. }
  exists (i :: map Z.to_nat (acked cmt rf)). split_and!.
  - apply NoDup_cons. split.
    + intros (z & Hzi & Hin)%list_elem_of_fmap. apply Hz in Hin. lia.
    + apply NoDup_fmap_2_strong; [|apply NoDup_filter, NoDup_seqZ].
      intros x y Hx Hy. apply Hz in Hx, Hy. lia.
  - rewrite Hn in Hmaj. rewrite zlen_cons. unfold zlen in *. rewrite length_map.
    by replace (Z.of_nat (List.length (acked cmt rf)) + 1) with (1 + Z.of_nat (List.length (acked cmt rf))) by lia.
  - intros v [->|(z & -> & Hin)%list_elem_of_fmap]%elem_of_cons; [by auto|].
    apply Hz in Hin as (? & ? & ?). split; [lia|by right].
Qed.

(** A leader records an acknowledgement and may commit. *)
Lemma matched_cinv s g G E i j rf rf1 rf' cmt e ml nl :
  safe n s G E → linv s (g_hist g) E → cinv n s g → nodes s !! i = Some rf → state rf = 0 → wf rf' →
  zupdate (matchIndex rf) (Z.of_nat j) cmt = Some ml → rf1 = set_matchIndex ml (set_nextIndex nl rf) → wf rf1 →
  has_acked g (currentTerm rf) j (Z.to_nat cmt) → (log rf).[cmt] = Some e →
  rf' = rf1 ∨ rf' = set_commit cmt rf1 ∧ commitIndex rf < cmt ∧ majority (n_peers rf) (1 + zlen (acked cmt rf1)) ∧
    Term e = currentTerm rf →
  ∃ g', gext g g' ∧ g_hist g' = g_hist g ∧ cinv n (set_node i rf' s) g'.
Proof.
  intros Hs Hl Hc Hi Hst Hwf' Hml Hrf1 Hwf1 Hack He Hrf'. pose proof (ci_nodes _ _ _ Hc _ _ Hi) as Hno.
  assert (∀ j' m, matchIndex rf1 !! j' = Some m → j' ≠ i → m <= 0 ∨ has_acked g (currentTerm rf) j' (Z.to_nat m)) as Hmatch.
  { subst rf1. simpl. intros j' m Hm Hne. apply zupdate_Some in Hml as [_ ->]. rewrite Nat2Z.id in Hm.
    apply lookup_update in Hm as [[<- ->]|[_ Hm]]; [by right|]. by apply (no_match _ _ _ _ Hno Hst). }
  assert (log rf' = log rf ∧ currentTerm rf' = currentTerm rf ∧ state rf' = 0 ∧ matchIndex rf' = matchIndex rf1) as (E1 & E2 & E3 & E4).
  { destruct Hrf' as [->|[-> _]]; by rewrite Hrf1. }
  assert (node_ext rf rf') as Hnx by (split; [lia|]; intros; lia).
  assert (∀ g', gext g g' → acks_new (nodes s) g g' → ghost_ok g' → g_votes g' = g_votes g → g_elog g' = g_elog g →
    (∀ T v p, (T, v, p) ∈ g_acks g' → (T, v, p) ∈ g_acks g ∨ ack_fits (<[i := rf']> (nodes s)) g' T v p) →
    chosen n g' (currentTerm rf) (take (S (Z.to_nat (commitIndex rf'))) (log rf)) →
    cinv n (set_node i rf' s) g') as Hupd.
  { intros g' Hg Hnew Hok Hv Hel Hacks Hch. eapply (cinv_node s g g' i rf rf'); try done.
    - split; [done|rewrite E1; apply Hno|lia|by rewrite E1, E2|].
      intros _ j' m. rewrite E4, E2. intros Hm Hne. destruct (Hmatch j' m Hm Hne); [by left|right]. by eapply has_acked_ext.
    - intros T p j' H _ _ _ Hk. eapply keeps_same_log; [done..|lia|done].
    - rewrite Hv. by left.
    - rewrite Hel. by left. }
  destruct Hrf' as [->|(-> & Hlt & Hmaj & HeT)].
  { exists g. split_and!; [apply gext_refl|done|]. apply Hupd; try done; try (by left).
    - apply gext_refl.
    - apply Hc.
    - rewrite Hrf1. apply Hno. }
  pose proof (li_leader _ _ _ Hl _ _ Hi Hst) as HT.
  destruct (co_id _ _ _ _ (sf_core _ _ _ _ Hs) _ _ Hi) as [Hme Hn].
  pose proof (wf_commit _ (no_wf _ _ _ _ Hno)) as Hcom.
  pose proof (zlookup_lt_Some _ _ _ He) as Hcmt. rewrite zlookup_pos in He by lia.
  assert (i < n)%nat as Hin.
  { rewrite <- (co_len _ _ _ _ (sf_core _ _ _ _ Hs)). by eapply lookup_lt_Some. }
  destruct (commit_quorum g i rf1 cmt) as (Q & HQ & HQm & HQa); try done; try lia; try (by subst rf1).
  pose proof (gext_ack g (currentTerm rf) i (Z.to_nat cmt)) as Hg.
  exists (with_ack g (currentTerm rf) i (Z.to_nat cmt)). split_and!; [done|done|]. apply Hupd; try done.
  - intros T v p [[= -> -> ->]|?]%elem_of_cons; [right|by left]. exists rf. split; [done|lia].
  - by destruct (ci_ghost _ _ _ Hc).
  - intros T v p [[= -> -> ->]|?]%elem_of_cons; [right|by left]. exists i, (log rf), (set_commit cmt rf1).
    rewrite list_lookup_insert_eq by (by eapply lookup_lt_Some).
    split_and!; [done|by eapply lookup_lt_Some|done|lia|]. intros p' _ Hh. left. by rewrite E1.
  - right.
    exists (currentTerm rf), (Z.to_nat cmt), i, (log rf). split_and!; [done| |done|done].
    exists i, (log rf), Q. split_and!; [done| |done|done|].
    + split; [lia|]. by rewrite He, <- HeT.
    + intros v Hv. destruct (HQa v Hv) as [? [->|Ha]]; (split; [done|]); [apply has_acked_new|].
      subst rf1. by eapply has_acked_ext.
Qed.
(** The reply to a request finds its leader's log as long as the request said. *)
Lemma beat_reply_total s g G E k b a reply rf :
  safe n s G E → linv s (g_hist g) E → cinv n s g → beats s !! k = Some b → b_call b = BAnswered a reply →
  nodes s !! b_server b = Some rf →
  ∃ rf', heartbeat_reply (Z.of_nat (b_peer b)) a reply rf = Some rf' ∧
    heartbeat_reply_result (Z.of_nat (b_peer b)) a reply rf rf' ∧ wf rf' ∧
    (ae_Term a = currentTerm rf → state rf = 0).
Proof.
  intros Hs Hl Hc Hk Hb Hi. destruct (ci_beats _ _ _ Hc _ _ Hk) as (Hne & Hpn & Hreq).
  rewrite Hb in Hreq. destruct Hreq as [Hreq _].
  pose proof (no_wf _ _ _ _ (ci_nodes _ _ _ Hc _ _ Hi)) as Hwf.
  destruct (request_log _ _ _ (ci_ghost _ _ _ Hc) Hreq) as (H & L & ? & HT & _ & _ & HLH & Hfrom & _ & _ & Haw & _).
  destruct (co_id _ _ _ _ (sf_core _ _ _ _ Hs) _ _ Hi) as [Hme Hn].
  assert (ae_Term a = currentTerm rf → state rf = 0 ∧ H = log rf) as Hlead.
  { intros Ht. destruct (li_hist _ _ _ Hl _ _ _ HT) as (_ & _ & rf2 & Hi2 & Hown). simplify_eq.
    destruct Hown as [?|[_ Hst]]; [lia|]. split; [done|]. pose proof (li_leader _ _ _ Hl _ _ Hi Hst) as HT2.
    rewrite Ht in HT. congruence. }
  destruct (heartbeat_reply_spec (Z.of_nat (b_peer b)) a reply rf Hwf) as (rf' & Hh & Hres).
  { lia. }
  { rewrite Hme. lia. }
  { apply Hfrom. }
  { intros Ht. destruct (Hlead Ht) as [_ <-]. rewrite (ae_from_last _ _ Hfrom).
    apply prefix_length in HLH. unfold zlen. lia. }
  exists rf'. split_and!; [done|done| |apply Hlead]. eapply heartbeat_reply_wf; [done|apply Haw|done].
Qed.

Lemma beat_reply_cinv s s' g G E k :
  safe n s G E → linv s (g_hist g) E → cinv n s g → exec (LBeatReply k) s = Some s' →
  ∃ g', gext g g' ∧ g_hist g' = g_hist g ∧ cinv n s' g'.
Proof.
  intros Hs Hl Hc Hx. simpl in Hx. apply bind_Some in Hx as (b & Hk & Hx).
  apply bind_Some in Hx as (rf & Hi & Hx). destruct (b_call b) as [|a|a reply|] eqn:Hb; try done.
  apply bind_Some in Hx as (rf' & Hh & [= <-]).
  destruct (ci_beats _ _ _ Hc _ _ Hk) as (Hne & Hpn & Hreq). rewrite Hb in Hreq. destruct Hreq as [_ Hsucc].
  pose proof (no_wf _ _ _ _ (ci_nodes _ _ _ Hc _ _ Hi)) as Hwf.
  destruct (beat_reply_total s g G E k b a reply rf) as (rf2 & Hh2 & Hres & Hwf' & Hlead); try done.
  rewrite Hh in Hh2. injection Hh2 as <-.
  assert (∀ g', gext g g' → g_hist g' = g_hist g → cinv n (set_node (b_server b) rf' s) g' →
    ∃ g', gext g g' ∧ g_hist g' = g_hist g ∧ cinv n (set_beats (<[k := mkBeat (b_server b) (b_peer b) BDone]> (beats s))
      (set_node (b_server b) rf' s)) g') as Hfin.
  { intros g' Hg Heq Hc'. exists g'. split_and!; [done..|]. by apply (cinv_beat (set_node (b_server b) rf' s)). }
  destruct Hres as [Ht|Ht Hlt|nl ml rf1 cmt e Ht Hge He Hsu -> Hz Hnl Hml Hrf1|next nl Ht Hge Hsu Hnx Hnl|].
  3: { pose proof (Hlead Ht) as Hst. specialize (Hsucc Hsu). rewrite Ht in Hsucc.
    assert (wf rf1) as Hwf1.
    { destruct Hwf. subst rf1. split; simpl; auto; [by rewrite (zlen_zupdate _ _ _ _ Hnl)|by rewrite (zlen_zupdate _ _ _ _ Hml)]. }
    set (cmt := ae_PrevLogIndex a + zlen (ae_Entries a)) in *. set (rf' := if decide _ then _ else _) in *.
    destruct (matched_cinv s g G E (b_server b) (b_peer b) rf rf1 rf' cmt e ml nl) as (g' & Hg & Heq & Hc'); try done.
    - unfold rf'. destruct (decide _) as [(? & ? & ?)|_]; [right|left]; done.
    - by eapply Hfin. }
  all: apply (Hfin g (gext_refl g) eq_refl); eapply cinv_quiet; try done; try apply node_ext_refl.
  all: split; simpl; [lia|first [done|intros ?; by right]].
Qed.

(** ** [Start] *)

Definition with_hist g T i L : ghost C :=
  mkGhost (<[T := (i, L)]> (g_hist g)) (g_elog g) (g_acks g) (g_votes g).

Lemma start_append_cinv s g E i rf c :
  linv s (g_hist g) E → cinv n s g → nodes s !! i = Some rf → state rf = 0 →
  let l := log rf ++ [mkLog (Some c) (currentTerm rf)] in
  gext g (with_hist g (currentTerm rf) i l) ∧
  cinv n (set_node i (set_log l rf) s) (with_hist g (currentTerm rf) i l).
Proof.
  intros Hl Hc Hi Hst l. pose proof (ci_ghost _ _ _ Hc) as Hok. pose proof (ci_nodes _ _ _ Hc _ _ Hi) as Hno.
  pose proof (li_leader _ _ _ Hl _ _ Hi Hst) as HT. pose proof (no_wf _ _ _ _ Hno) as Hwf.
  set (g' := with_hist g (currentTerm rf) i l).
  assert (gext g g') as Hg.
  { split; simpl; try done. intros T j H HT'. rewrite lookup_insert. case_decide as Heq.
    - subst T. simplify_eq. exists l. split; [done|]. by apply prefix_app_r.
    - by exists H. }
  split; [done|].
  assert (sorted_terms l) as Hsl.
  { apply sorted_snoc; [apply Hno|]. intros x Hx. apply (wf_terms _ Hwf x Hx). }
  assert (good_log (g_hist g') l) as Hgl.
  { pose proof (linv_append s (g_hist g) E i rf c Hl Hi Hst) as Hl'.
    destruct (li_hist _ _ _ Hl' (currentTerm rf) i l) as [? _]; [by rewrite lookup_insert_eq|done]. }
  apply (cinv_node s g g' i rf); try done; try (by left).
  - split; simpl; [lia|]. intros ?. congruence.
  - split; simpl.
    + intros T j H. rewrite lookup_insert. case_decide as Heq; [intros [= _ <-]; subst T|apply (gk_elog _ Hok)].
      destruct (gk_elog _ Hok _ _ _ HT) as (L & HL & HLp). exists L. split; [done|]. etrans; [exact HLp|by apply prefix_app_r].
    + intros T L HL. destruct (gk_start _ Hok _ _ HL) as (? & ? & ?). split_and!; [done| |done].
      rewrite lookup_insert. by case_decide.
    + intros T j H. rewrite lookup_insert. case_decide as Heq.
      * intros [= _ <-]. subst T. split_and!; [done..|]. intros e [He|He]%elem_of_app; [by apply (wf_terms _ Hwf)|].
        by apply list_elem_of_singleton in He as ->.
      * intros HT'. destruct (gk_terms _ Hok _ _ _ HT') as (? & ? & ?). split_and!; [by apply (good_log_ext g g')|done|done].
  - split; simpl; [|done|intros; congruence| |].
    + by apply (Start_append_wf c (currentTerm rf) rf Hwf); pose proof (wf_term _ Hwf); lia.
    + unfold l. pose proof (wf_commit _ Hwf) as Hw. unfold last_index, zlen in Hw.
      rewrite take_app_le by lia. eapply chosen_ext; [exact Hg|reflexivity|apply Hno].
    + intros _ j m Hm Hne. destruct (no_match _ _ _ _ Hno Hst j m Hm Hne); [by left|right]. by eapply has_acked_ext.
  - intros T p j H _ _ _ [Hh|Ho]; [left; eapply holds_prefix, Hh; by apply prefix_app_r|right].
    by eapply overridden_ext.
Qed.

Lemma applier_cinv s s' g i : cinv n s g → exec (LApply i) s = Some s' → cinv n s' g.
Proof.
  intros Hc Hx. simpl in Hx. apply bind_Some in Hx as (rf & Hi & Hx).
  apply bind_Some in Hx as ([rf' msg] & Ha & [= <-]).
  destruct (applier_step_spec rf) as (rf2 & msg2 & Ha2 & Hwf & Hno & Hyes); [by eapply no_wf, ci_nodes|].
  rewrite Ha in Ha2. injection Ha2 as <- <-.
  destruct (Z.lt_ge_cases (lastApplied rf) (commitIndex rf)) as [Hlt|Hge].
  - destruct (Hyes Hlt) as [-> _]. eapply cinv_quiet; try done. split; [done|]. by right.
  - destruct (Hno Hge) as [-> _]. eapply cinv_quiet; try done. apply node_ext_refl.
Qed.

(** ** Steps and runs *)

Lemma step_cinv lb s s' g G G' E E' :
  safe n s G E → safe n s' G' E' → E ⊆ E' → linv s (g_hist g) E → cinv n s g → steady lb s →
  exec lb s = Some s' → ∃ g', gext g g' ∧ cinv n s' g' ∧ linv s' (g_hist g') E'.
Proof.
  intros Hs Hs' HE Hl Hc Hst Hx. pose proof (linv_E _ _ _ _ HE Hl) as Hl'. pose proof (proj1 Hst) as Hcare.
  assert (∀ s2, cinv n s2 g → linv s2 (g_hist g) E' → ∃ g', gext g g' ∧ cinv n s2 g' ∧ linv s2 (g_hist g') E') as Hsame.
  { intros s2 ? ?. exists g. split; [apply gext_refl|done]. }
  assert (∀ s2, linv s2 (g_hist g) E' → (∃ g', gext g g' ∧ g_hist g' = g_hist g ∧ cinv n s2 g') →
    ∃ g', gext g g' ∧ cinv n s2 g' ∧ linv s2 (g_hist g') E') as Hhist.
  { intros s2 ? (g' & ? & Heq & ?). exists g'. by rewrite Heq. }
  pose proof (co_len _ _ _ _ (sf_core _ _ _ _ Hs)) as Hlen.
  destruct lb.
  - apply Hsame; [by eapply elect_cinv|by eapply elect_linv].
  - apply Hsame; [by eapply vote_args_cinv|]. simpl in Hx.
    apply bind_Some in Hx as (r & _ & Hx). apply bind_Some in Hx as (rf & _ & Hx).
    destruct (r_args r); [done|]. apply bind_Some in Hx as (a & _ & [= <-]). by apply linv_rounds.
  - apply Hhist; [by eapply vote_handle_linv|by eapply vote_handle_cinv].
  - by eapply (vote_reply_cinv s s' g G G').
  - simpl in Hx. apply bind_Some in Hx as (rf & _ & Hx). destruct (_ =? 0); [|done]. injection Hx as <-.
    apply Hsame; [by apply cinv_spawn|by apply linv_spawn].
  - apply Hsame; [by eapply beat_args_cinv|by eapply beat_args_linv].
  - apply Hhist; [by eapply beat_handle_linv|by eapply beat_handle_cinv].
  - apply Hhist; [by eapply beat_reply_linv|by apply (beat_reply_cinv s s' g G E k)].
  - simpl in Hx. apply bind_Some in Hx as (rf & _ & Hx). destruct (_ =? 0); injection Hx as <-;
      (apply Hsame; [try by apply cinv_starts|try by apply linv_starts]); done.
  - destruct Hcare as [_ Hcare]. simpl in Hx. apply bind_Some in Hx as (p & Hk & Hx).
    apply bind_Some in Hx as (q & Hq & Hx). subst p. apply bind_Some in Hx as (rf & Hi & [= <-]).
    destruct (Hcare q rf Hk Hi) as [Hst0 Hterm]. rewrite <- Hterm.
    destruct (start_append_cinv s g E _ _ (s_command q) Hl Hc Hi Hst0) as [Hg Hc'].
    eexists. split_and!; [exact Hg| |].
    + apply cinv_spawn; [by simpl; rewrite length_insert|]. by apply cinv_starts.
    + apply linv_spawn, linv_starts. by eapply linv_append.
  - apply Hsame; [by eapply applier_cinv|by eapply applier_linv].
  - by destruct Hcare.
Qed.
End step.

End RaftCommitStep.
