(* ===== verification/RaftCommitSpec.v ===== *)
(** State Machine Safety for the cluster of RaftNet.v: what the appliers deliver
    never disagrees, leaders have every committed entry, and nothing panics, in
    runs that respect the code's unchecked assumptions. *)

From S2P Require Import Prelude GoStd Raft RaftProof RaftNet RaftSafety RaftLog RaftSpec RaftCommit RaftCommitStep.

#[local] Open Scope Z_scope.
#[local] Open Scope go_scope.

Module RaftCommitSpec.
Import RaftSpec.
Export RaftCommitStep.

Section runs.
Context {C : Type} (n : nat).
Implicit Types (s : net C) (rf : raft C) (g : ghost C) (i j : nat) (m : ApplyMsg C).

Fixpoint steady_run (ls : list (label C)) s : Prop :=
  match ls with
  | [] => True
  | lb :: ls => steady lb s ∧ match exec lb s with Some s => steady_run ls s | None => True end
  end.

Lemma steady_careful ls s : steady_run ls s → careful_run ls s.
Proof.
  revert s. induction ls as [|lb ls IH]; intros s; simpl; [done|]. intros [[Hc _] Hr]. split; [done|].
  destruct (exec lb s); auto.
Qed.

(** What the applier of a server sends on [applyCh] in a step. *)
Definition delivered (lb : label C) s : option (nat * ApplyMsg C) :=
  match lb with
  | LApply i => rf ← nodes s !! i; '(_, msg) ← applier_step rf; msg ← msg; Some (i, msg)
  | _ => None
  end.

Fixpoint deliveries (ls : list (label C)) s : list (nat * ApplyMsg C) :=
  match ls with
  | [] => []
  | lb :: ls =>
      match exec lb s with
      | Some s' => option_list (delivered lb s) ++ deliveries ls s'
      | None => []
      end
  end.

(** A message carries the entry of a chosen prefix. *)
Definition justified g m : Prop :=
  ∃ T P e, chosen n g T P ∧ P !! Z.to_nat (CommandIndex m) = Some e ∧ Command m = Entry e.

Lemma justified_ext g g' m : gext g g' → justified g m → justified g' m.
Proof. intros Hg (T & P & e & Hc & ? & ?). exists T, P, e. split_and!; try done. by eapply chosen_ext. Qed.

(** Such messages agree. *)
Lemma justified_agree s g m1 m2 :
  cinv n s g → justified g m1 → justified g m2 → CommandIndex m1 = CommandIndex m2 → Command m1 = Command m2.
Proof.
  intros Hc (T1 & P1 & e1 & Hc1 & He1 & ->) (T2 & P2 & e2 & Hc2 & He2 & ->) Heq. rewrite Heq in He1.
  by rewrite (chosen_agree n _ _ _ _ _ _ _ _ _ (ci_ghost _ _ _ Hc) (ci_elections _ _ _ Hc) Hc1 Hc2 He1 He2).
Qed.

Lemma delivered_justified lb s g i m : cinv n s g → delivered lb s = Some (i, m) → justified g m.
Proof.
  intros Hc Hd. destruct lb; try done. simpl in Hd. apply bind_Some in Hd as (rf & Hi & Hd).
  pose proof (ci_nodes _ _ _ Hc _ _ Hi) as Hno. pose proof (no_wf _ _ _ _ Hno) as Hwf.
  destruct (applier_step_spec rf Hwf) as (rf2 & msg & Ha & _ & Hstop & Hgo). rewrite Ha in Hd. simpl in Hd.
  destruct (Z.lt_ge_cases (lastApplied rf) (commitIndex rf)) as [Hlt|Hge].
  2: { destruct (Hstop Hge) as [_ ->]. done. }
  destruct (Hgo Hlt) as (_ & e & He & ->). injection Hd as _ <-. simpl.
  exists (currentTerm rf), (take (S (Z.to_nat (commitIndex rf))) (log rf)), e. simpl. split_and!; [apply Hno| |done].
  pose proof (wf_applied _ Hwf). rewrite zlookup_pos in He by lia. rewrite lookup_take_lt by lia. done.
Qed.

Lemma run_cinv ls s s' g G E :
  safe n s G E → linv s (g_hist g) E → cinv n s g → steady_run ls s → run ls s = Some s' →
  ∃ g' G' E', gext g g' ∧ safe n s' G' E' ∧ linv s' (g_hist g') E' ∧ cinv n s' g' ∧
    ∀ i m, (i, m) ∈ deliveries ls s → justified g' m.
Proof.
  revert s g G E. induction ls as [|lb ls IH]; intros s g G E Hs Hl Hc Hst Hr; simpl in *.
  { injection Hr as <-. exists g, G, E. split_and!; try done; [apply gext_refl|]. by intros i m ?%elem_of_nil. }
  apply bind_Some in Hr as (s1 & Hx & Hr). destruct Hst as [Hst Hsts]. rewrite Hx in Hsts |- *.
  destruct (step_safe n _ _ _ _ _ Hs (proj1 (proj1 Hst)) Hx) as (G1 & E1 & Hs1 & _ & HE).
  destruct (step_cinv n lb s s1 g G G1 E E1) as (g1 & Hg1 & Hc1 & Hl1); try done.
  destruct (IH s1 g1 G1 E1 Hs1 Hl1 Hc1 Hsts Hr) as (g' & G' & E' & Hg' & Hs' & Hl' & Hc' & Hj).
  assert (gext g g') as Hg by by eapply gext_trans.
  exists g', G', E'. split_and!; try done. intros i m [Hd|Hd]%elem_of_app; [|by eapply Hj].
  destruct (delivered lb s) as [[i' m']|] eqn:Hdel; [|by apply elem_of_nil in Hd].
  apply list_elem_of_singleton in Hd as [= <- <-]. eapply justified_ext; [exact Hg|]. by eapply delivered_justified.
Qed.

(** ** The start *)

Definition no_ghost : ghost C := mkGhost ∅ ∅ [] [].

Lemma init_node i rf : nodes (init_net n) !! i = Some rf → (i < n)%nat ∧ rf = Make (C := C) n (Z.of_nat i) [].
Proof.
  simpl. rewrite list_lookup_fmap. intros (j & [-> ?]%lookup_seq & ->)%fmap_Some. done.
Qed.

Lemma init_cinv : cinv n (init_net n) no_ghost.
Proof.
  split; try done.
  - intros i rf Hi. apply init_node in Hi as [Hi Hrf]. subst rf. split; try done.
    + apply Make_wf. lia.
    + intros a b e1 e2 _ Ha Hb. apply list_lookup_singleton_Some in Ha as [_ <-], Hb as [_ <-]. done.
    + by left.
  - by intros T v p ?%elem_of_nil.
  - by intros a v ?%elem_of_nil.
Qed.

Lemma reach_cinv ls s :
  steady_run ls (init_net n) → run ls (init_net n) = Some s →
  ∃ g G E, safe n s G E ∧ linv s (g_hist g) E ∧ cinv n s g ∧
    ∀ i m, (i, m) ∈ deliveries ls (init_net n) → justified g m.
Proof.
  intros Hst Hr. destruct (run_cinv ls _ s no_ghost _ _ (init_safe n) (init_linv n) init_cinv Hst Hr)
    as (g & G & E & _ & H). eauto.
Qed.
(** ** The order of deliveries *)

Definition no_restart (lb : label C) : bool := if lb is LRestart _ then false else true.

Definition delivered_to i (ds : list (nat * ApplyMsg C)) : list Z :=
  (λ d, CommandIndex d.2) <$> filter (λ d, d.1 = i) ds.

Lemma server_step_applied rf rf' :
  server_step rf rf' → lastApplied rf' = lastApplied rf.
Proof.
  intros Hs. destruct Hs as [|vargs rf' reply Hr|vargs reply num|args rf' reply Hr|server args reply rf' Hr|c t].
  - unfold startElection. by destruct (_ =? _).
  - unfold RequestVoteReply in Hr. apply bind_Some in Hr as (t & _ & Hr). revert Hr.
    repeat case_match; intros [= <- _]; try done; unfold resetElectionTimer; by case_match.
  - by destruct (vote_reply_spec vargs reply rf num).
  - unfold RequestAppendEntriesReply in Hr. revert Hr.
    assert (lastApplied (adopt_leader args rf) = lastApplied rf) as Ha.
    { unfold adopt_leader, resetElectionTimer. repeat case_match; done. }
    case_match; [|case_match].
    + intros (ok & _ & Hr)%bind_Some. revert Hr. repeat case_match; intros [= <- _]; done.
    + intros (ok & _ & Hr)%bind_Some. destruct ok; [|by injection Hr as <- _].
      apply bind_Some in Hr as (l & _ & Hr). revert Hr. repeat case_match; intros [= <- _]; done.
    + by intros [= <- _].
  - revert Hr. unfold heartbeat_reply, decrement_next. repeat case_match; try (by intros [= <-]).
    1: intros (nl & _ & (ml & _ & (cmt & _ & Hc)%bind_Some)%bind_Some)%bind_Some; revert Hc; case_match; [|by intros [= <-]];
       by intros [-> | ->]%commit_loop_effect.
    all: by intros (next & _ & (l & _ & [= <-])%bind_Some)%bind_Some.
  - done.
Qed.

Lemma applier_step_applied rf rf' msg :
  applier_step rf = Some (rf', msg) →
  match msg with
  | Some m => lastApplied rf' = lastApplied rf + 1 ∧ CommandIndex m = lastApplied rf + 1
  | None => rf' = rf
  end.
Proof.
  unfold applier_step. destruct (_ >? _); [|by intros [= <- <-]].
  by intros (e & _ & [= <- <-])%bind_Some.
Qed.

Lemma step_delivered lb s s' i rf rf' :
  no_restart lb = true → exec lb s = Some s' → nodes s !! i = Some rf → nodes s' !! i = Some rf' →
  delivered_to i (option_list (delivered lb s)) = seqZ (lastApplied rf + 1) (lastApplied rf' - lastApplied rf).
Proof.
  intros Hno Hx Hi Hi'.
  assert (lb = LApply i ∨ lb ≠ LApply i) as [->|Hne].
  { destruct lb as [| | | | | | | | | |j|]; try (by right). destruct (decide (j = i)) as [->|]; [by left|right; congruence]. }
  - simpl. rewrite Hi. simpl in Hx |- *. rewrite Hi in Hx. simpl in Hx.
    apply bind_Some in Hx as ([rf2 msg] & Ha & [= <-]). rewrite Ha. simpl in Hi'. simpl.
    rewrite list_lookup_insert_eq in Hi' by (by eapply lookup_lt_Some). injection Hi' as ->.
    pose proof (applier_step_applied _ _ _ Ha) as Hm. destruct msg as [m|]; simpl.
    + destruct Hm as [-> Hm]. unfold delivered_to. simpl. rewrite filter_cons_True by done. simpl. rewrite Hm.
      by replace (lastApplied rf + 1 - lastApplied rf) with 1 by lia.
    + subst rf'. by rewrite Z.sub_diag.
  - assert (lastApplied rf' = lastApplied rf) as ->.
    { destruct (exec_server _ _ _ _ _ _ Hx Hi Hi') as [->|[Hs|[[-> _]|[-> _]]]]; try done. by apply server_step_applied. }
    rewrite Z.sub_diag. destruct lb as [| | | | | | | | | |j|]; try done. simpl.
    destruct (nodes s !! j) as [rfj|]; [|done]. simpl. destruct (applier_step rfj) as [[? [m|]]|]; try done. simpl.
    unfold delivered_to. rewrite filter_cons_False; [done|]. simpl. congruence.
Qed.

Lemma exec_length lb s s' : exec lb s = Some s' → List.length (nodes s') = List.length (nodes s).
Proof.
  intros Hx. destruct lb; simpl in Hx;
    repeat first [progress simplify_eq/= | apply bind_Some in Hx as (? & ? & Hx) | case_match];
    rewrite ?length_insert; done.
Qed.

Lemma run_length ls s s' : run ls s = Some s' → List.length (nodes s') = List.length (nodes s).
Proof.
  revert s. induction ls as [|lb ls IH]; intros s; simpl; [by intros [= <-]|].
  intros (s1 & Hx & Hr)%bind_Some. by rewrite (IH _ Hr), (exec_length _ _ _ Hx).
Qed.

Lemma run_delivered ls s s' i rf rf' :
  forallb no_restart ls = true → run ls s = Some s' → nodes s !! i = Some rf → nodes s' !! i = Some rf' →
  lastApplied rf <= lastApplied rf' ∧
  delivered_to i (deliveries ls s) = seqZ (lastApplied rf + 1) (lastApplied rf' - lastApplied rf).
Proof.
  revert s rf. induction ls as [|lb ls IH]; intros s rf Hno Hr Hi Hi'; simpl in *.
  { injection Hr as <-. simplify_eq. rewrite Z.sub_diag. split; done. }
  apply andb_true_iff in Hno as [Hn Hno]. apply bind_Some in Hr as (s1 & Hx & Hr). rewrite Hx.
  destruct (lookup_lt_is_Some_2 (nodes s1) i) as [rf1 Hi1].
  { rewrite (exec_length _ _ _ Hx). by eapply lookup_lt_Some. }
  destruct (IH s1 rf1 Hno Hr Hi1 Hi') as [Hle Hds]. pose proof (step_delivered _ _ _ _ _ _ Hn Hx Hi Hi1) as Hd.
  assert (lastApplied rf <= lastApplied rf1) as Hle1.
  { destruct (exec_server _ _ _ _ _ _ Hx Hi Hi1) as [->|[Hs|[(_ & msg & Ha)|[-> _]]]]; try done.
    - by rewrite (server_step_applied _ _ Hs).
    - pose proof (applier_step_applied _ _ _ Ha) as Hm. destruct msg; [lia|by subst]. }
  split; [lia|]. unfold delivered_to in *. rewrite filter_app, fmap_app, Hds, Hd.
  replace (lastApplied rf' - lastApplied rf) with
    ((lastApplied rf1 - lastApplied rf) + (lastApplied rf' - lastApplied rf1)) by lia.
  rewrite seqZ_app by lia. do 2 f_equal. lia.
Qed.
End runs.


(** ** Deciding [steady] on concrete runs *)

Definition steadyb {C} (lb : label C) (s : net C) : bool :=
  carefulb lb s &&
  match lb with
  | LVoteReply k j =>
      match r ← rounds s !! k; a ← r_args r; call ← r_calls r !! j; rf ← nodes s !! r_server r; Some (r, a, call, rf) with
      | Some (r, a, VAnswered reply, rf) =>
          negb (vote_reply a reply rf (r_voteNum r)).2 || forallb (λ m, m =? 0) (matchIndex rf)
      | _ => true
      end
  | _ => true
  end.

Fixpoint steady_runb {C} (ls : list (label C)) (s : net C) : bool :=
  match ls with
  | [] => true
  | lb :: ls => steadyb lb s && match exec lb s with Some s => steady_runb ls s | None => true end
  end.

Lemma steadyb_steady {C} (lb : label C) s : steadyb lb s = true → steady lb s.
Proof.
  intros [Hc Hb]%andb_true_iff. split; [by apply carefulb_careful|]. destruct lb as [| | |k j| | | | | | | |]; try done.
  intros r a reply rf Hk Ha Hj Hi Hl m Hm. rewrite Hk in Hb. simpl in Hb. rewrite Ha in Hb. simpl in Hb.
  rewrite Hj in Hb. simpl in Hb. rewrite Hi in Hb. simpl in Hb. rewrite Hl in Hb. simpl in Hb.
  rewrite forallb_forall in Hb. apply Z.eqb_eq, Hb. by apply list_elem_of_In.
Qed.

Lemma steady_runb_run {C} (ls : list (label C)) s : steady_runb ls s = true → steady_run ls s.
Proof.
  revert s. induction ls as [|lb ls IH]; intros s Hb; simpl in *; [done|].
  apply andb_true_iff in Hb as [H1 H2]. split; [by apply steadyb_steady|]. destruct (exec lb s); auto.
Qed.

(** Server 0 leads term 1 and commits "a"; server 1 leads term 2, brings server 2
    up to date after one refusal, and commits "b". *)
Definition two_terms : list (label string) :=
  elect0 ++ replicate_a ++
  [LApply 0; LBeat 0; LBeatArgs 4; LBeatHandle 4; LApply 1;
   LElect 1; LVoteArgs 1; LVoteHandle 1 2; LVoteReply 1 2; LStartCheck 1 "b"; LStartAppend 1;
   LBeatArgs 9; LBeatHandle 9; LBeatReply 9; LBeat 1; LBeatArgs 11; LBeatHandle 11; LBeatReply 11; LApply 1;
   LBeat 1; LBeatArgs 13; LBeatHandle 13; LApply 2; LApply 2].

Lemma two_terms_run : run two_terms (init_net 3) = Some (after two_terms).
Proof. by vm_compute. Qed.

Lemma two_terms_steady : steady_run two_terms (init_net 3).
Proof. apply steady_runb_run. by vm_compute. Qed.

(** ** The theorems *)

Lemma delivered_agree {C} n (ls : list (label C)) s i j m1 m2 :
  steady_run ls (init_net n) → run ls (init_net n) = Some s →
  (i, m1) ∈ deliveries ls (init_net n) → (j, m2) ∈ deliveries ls (init_net n) →
  CommandIndex m1 = CommandIndex m2 → Command m1 = Command m2.
Proof.
  intros Hst Hr H1 H2 Heq. destruct (reach_cinv n ls s Hst Hr) as (g & G & E & _ & _ & Hc & Hj).
  eapply justified_agree; [exact Hc|by eapply Hj|by eapply Hj|done].
Qed.

(** C2: State Machine Safety: in a run in which servers do not restart,
    heartbeat goroutines run while their server leads and find [nextIndex] in
    range, [Start] is not overtaken by an election, and a new leader has an
    unused [matchIndex], the messages that all appliers ever deliver agree: two
    messages with the same index carry the same command. *)
Theorem state_machine_safety {C} n (ls : list (label C)) s i j m1 m2 :
  steady_run ls (init_net n) → run ls (init_net n) = Some s →
  (i, m1) ∈ deliveries ls (init_net n) → (j, m2) ∈ deliveries ls (init_net n) →
  CommandIndex m1 = CommandIndex m2 → Command m1 = Command m2.
Proof. apply delivered_agree. Qed.

Lemma state_machine_safety_witness :
  deliveries two_terms (init_net 3) =
    [(0%nat, mkApplyMsg true (Some "a") 1); (1%nat, mkApplyMsg true (Some "a") 1); (1%nat, mkApplyMsg true (Some "b") 2);
     (2%nat, mkApplyMsg true (Some "a") 1); (2%nat, mkApplyMsg true (Some "b") 2)] ∧
  Command (mkApplyMsg true (Some "b") 2) = Command (mkApplyMsg true (Some "b") 2).
Proof.
  split; [by vm_compute|].
  apply (state_machine_safety 3 two_terms (after two_terms) 1 2);
    [exact two_terms_steady|exact two_terms_run|vm_compute; set_solver..|done].
Defined.

(** C10: Leader Completeness: in such a run every entry that some server knows to
    be committed is in the log of every leader of the same or a later term, and
    the committed prefixes of any two servers agree. *)
Theorem leader_completeness {C} n (ls : list (label C)) s i j rf1 rf2 :
  steady_run ls (init_net n) → run ls (init_net n) = Some s →
  nodes s !! i = Some rf1 → nodes s !! j = Some rf2 →
  let committed_log rf := take (S (Z.to_nat (commitIndex rf))) (log rf) in
  (state rf2 = 0 → currentTerm rf1 <= currentTerm rf2 → committed_log rf1 `prefix_of` log rf2) ∧
  (committed_log rf1 `prefix_of` committed_log rf2 ∨ committed_log rf2 `prefix_of` committed_log rf1).
Proof.
  intros Hst Hr Hi Hj committed_log. destruct (reach_cinv n ls s Hst Hr) as (g & G & E & _ & Hl & Hc & _).
  pose proof (ci_ghost _ _ _ Hc) as Hok. pose proof (ci_elections _ _ _ Hc) as Hel.
  pose proof (no_chosen _ _ _ _ (ci_nodes _ _ _ Hc _ _ Hi)) as H1.
  pose proof (no_chosen _ _ _ _ (ci_nodes _ _ _ Hc _ _ Hj)) as H2. split.
  - intros Hs Hle. eapply (chosen_prefix n (nodes s) g); try done. by apply (li_leader _ _ _ Hl).
  - apply prefix_total_lookup. intros k e1 e2. by apply (chosen_agree n _ _ _ _ _ _ _ _ _ Hok Hel H1 H2).
Qed.

Lemma leader_completeness_witness :
  let committed_log rf := take (S (Z.to_nat (commitIndex rf))) (log rf) in
  (state (server_after two_terms 1) = 0 →
   currentTerm (server_after two_terms 0) <= currentTerm (server_after two_terms 1) →
   committed_log (server_after two_terms 0) `prefix_of` log (server_after two_terms 1)) ∧
  (committed_log (server_after two_terms 0) `prefix_of` committed_log (server_after two_terms 1) ∨
   committed_log (server_after two_terms 1) `prefix_of` committed_log (server_after two_terms 0)).
Proof.
  apply (leader_completeness 3 two_terms (after two_terms) 0 1);
    [exact two_terms_steady|exact two_terms_run|by vm_compute..].
Defined.

(** C26: In such a run no critical section panics: every server is well formed,
    a vote request, a vote, a pass of the applier, an AppendEntries request under
    way and its reply are processed in every state, and a heartbeat goroutine of
    a leader builds its arguments. *)
Theorem steady_no_panic {C} n (ls : list (label C)) s :
  steady_run ls (init_net n) → run ls (init_net n) = Some s →
  (∀ i rf, nodes s !! i = Some rf →
     wf rf ∧ is_Some (vote_args rf) ∧ (∀ vargs, is_Some (RequestVoteReply vargs rf)) ∧ is_Some (applier_step rf)) ∧
  (∀ k b, beats s !! k = Some b →
     match b_call b with
     | BPending => ∀ rf next, nodes s !! b_server b = Some rf → (nextIndex rf).[Z.of_nat (b_peer b)] = Some next →
         1 <= next <= zlen (log rf) → is_Some (heartbeat_args (Z.of_nat (b_peer b)) rf)
     | BSent a => ∀ rf, nodes s !! b_peer b = Some rf → is_Some (RequestAppendEntriesReply a rf)
     | BAnswered a reply => ∀ rf, nodes s !! b_server b = Some rf →
         is_Some (heartbeat_reply (Z.of_nat (b_peer b)) a reply rf)
     | BDone => True
     end).
Proof.
  intros Hst Hr. destruct (reach_cinv n ls s Hst Hr) as (g & G & E & Hs & Hl & Hc & _). split.
  - intros i rf Hi. pose proof (no_wf _ _ _ _ (ci_nodes _ _ _ Hc _ _ Hi)) as Hwf. split_and!; [done| | |].
    + destruct (vote_args_spec rf Hwf) as (a & -> & _). done.
    + intros vargs. destruct (RequestVoteReply_spec vargs rf Hwf) as (? & ? & -> & _). done.
    + destruct (applier_step_spec rf Hwf) as (? & ? & -> & _). done.
  - intros k b Hk. destruct (ci_beats _ _ _ Hc _ _ Hk) as (Hne & Hpn & Hb).
    destruct (b_call b) as [|a|a reply|] eqn:Hcall; try done.
    + intros rf next _ Hn Hr'. destruct (heartbeat_args_spec _ _ _ Hn Hr') as (? & -> & _). done.
    + intros rf Hi. destruct (request_log _ _ _ _ (ci_ghost _ _ _ Hc) Hb) as (? & ? & ? & _ & _ & _ & _ & Hf & _).
      destruct (AppendEntries_spec a rf) as (? & ? & -> & _); [|apply Hf|done].
      by apply (no_wf n g (b_peer b)), (ci_nodes _ _ _ Hc).
    + intros rf Hi. by destruct (beat_reply_total n s g G E k b a reply rf Hs Hl Hc Hk Hcall Hi) as (? & -> & _).
Qed.

Lemma steady_no_panic_witness :
  (∀ i rf, nodes (after two_terms) !! i = Some rf →
     wf rf ∧ is_Some (vote_args rf) ∧ (∀ vargs, is_Some (RequestVoteReply vargs rf)) ∧ is_Some (applier_step rf)) ∧
  (∀ k b, beats (after two_terms) !! k = Some b →
     match b_call b with
     | BPending => ∀ rf next, nodes (after two_terms) !! b_server b = Some rf →
         (nextIndex rf).[Z.of_nat (b_peer b)] = Some next →
         1 <= next <= zlen (log rf) → is_Some (heartbeat_args (Z.of_nat (b_peer b)) rf)
     | BSent a => ∀ rf, nodes (after two_terms) !! b_peer b = Some rf → is_Some (RequestAppendEntriesReply a rf)
     | BAnswered a reply => ∀ rf, nodes (after two_terms) !! b_server b = Some rf →
         is_Some (heartbeat_reply (Z.of_nat (b_peer b)) a reply rf)
     | BDone => True
     end).
Proof. apply (steady_no_panic 3 two_terms); [exact two_terms_steady|exact two_terms_run]. Defined.

(** Without restarts the messages a server's applier delivers carry the
    indexes 1, 2, 3, ... up to its [lastApplied], whatever the schedule. *)
Lemma deliveries_in_order {C} n (ls : list (label C)) s i rf :
  forallb no_restart ls = true → run ls (init_net n) = Some s → nodes s !! i = Some rf →
  delivered_to i (deliveries ls (init_net n)) = seqZ 1 (lastApplied rf).
Proof.
  intros Hno Hr Hi. destruct (lookup_lt_is_Some_2 (nodes (init_net (C := C) n)) i) as [rf0 Hi0].
  { rewrite <- (run_length _ _ _ Hr). by eapply lookup_lt_Some. }
  destruct (run_delivered ls _ s i rf0 rf Hno Hr Hi0 Hi) as [_ ->]. apply init_node in Hi0 as [_ ->]. simpl.
  by rewrite Z.sub_0_r.
Qed.

Lemma deliveries_in_order_witness :
  delivered_to 2 (deliveries two_terms (init_net 3)) = seqZ 1 (lastApplied (server_after two_terms 2)).
Proof. apply (deliveries_in_order 3 two_terms (after two_terms)); by vm_compute. Defined.

End RaftCommitSpec.
