(* ===== verification/RaftFindings.v ===== *)
(** Executions of raft/raft.go outside the provisos of RaftSpec.v: what goes
    wrong when a server restarts, a heartbeat is late, [nextIndex] underflows,
    [matchIndex] is stale, or [Start] is overtaken by an election. *)

From S2P Require Import Prelude GoStd Raft RaftProof RaftNet RaftSafety RaftLog RaftSpec.

#[local] Open Scope Z_scope.
#[local] Open Scope go_scope.

Module RaftFindings.
Import RaftSpec.

Abbreviation trace := (list (label string)).

(** Role, term, log and commit index of every server at the end of a run. *)
Definition summary (n : nat) (ls : trace) : option (list (Z * Z * list (option string * Z) * Z)) :=
  s ← run ls (init_net n);
  Some (map (λ rf, (state rf, currentTerm rf, map (λ e, (Entry e, Term e)) (log rf), commitIndex rf)) (nodes s)).

(** [persist] saves nothing: a restarted voter votes again and term 1 gets a
    second leader. *)
Definition restart_run : trace :=
  elect0 ++ [LRestart 1; LElect 2; LVoteArgs 1; LVoteHandle 1 1; LVoteReply 1 1].

Lemma two_leaders_after_restart :
  summary 3 restart_run = Some [(0, 1, [(None, 0)], 0); (2, 1, [(None, 0)], 0); (0, 1, [(None, 0)], 0)].
Proof. by vm_compute. Qed.

(** The goroutines of [RequestHeartBeat] do not check that their server still
    leads: one spawned in term 1 runs when its server is a candidate of term 3,
    and its request makes the only other voter of term 3 adopt the candidate. *)
Definition late_heartbeat_run : trace :=
  elect0 ++ [LElect 2; LElect 2; LVoteArgs 2; LVoteHandle 2 0; LElect 0; LVoteArgs 3; LElect 2; LVoteArgs 4;
             LVoteHandle 4 1; LVoteReply 4 1; LBeatArgs 0; LBeatHandle 0; LVoteHandle 3 1; LVoteReply 3 1].

Lemma two_leaders_without_restart :
  summary 3 late_heartbeat_run = Some [(0, 3, [(None, 0)], 0); (2, 3, [(None, 0)], 0); (0, 3, [(None, 0)], 0)].
Proof. by vm_compute. Qed.

(** [nextIndex] is decremented once per refusal, also when several requests of
    one round are refused: it reaches 0, the dummy entry is sent as entry 1, and
    the success of that request makes the leader read past its log. *)
Definition underflow_run : trace :=
  elect0 ++ [LStartCheck 0 "a"; LStartAppend 0; LElect 2; LElect 2; LVoteArgs 2; LVoteHandle 2 1; LVoteReply 2 1;
             LStartCheck 2 "b"; LStartAppend 1; LVoteHandle 2 0; LElect 0; LVoteArgs 3; LVoteHandle 3 1;
             LVoteReply 3 1; LBeat 0; LBeat 0; LBeatArgs 9; LBeatArgs 11; LBeatHandle 9; LBeatHandle 11;
             LBeatReply 9; LBeatReply 11; LBeatArgs 13; LBeatHandle 13].

Lemma next_index_underflow :
  (∃ l, summary 3 underflow_run = Some l ∧ (λ x, x.1.2) <$> l !! 2%nat = Some [(None, 0); (None, 0); (Some "a", 1)]) ∧
  run (underflow_run ++ [LBeatReply 13]) (init_net 3) = None.
Proof. split; [eexists; split|]; by vm_compute. Qed.

(** [matchIndex] is not reset by an election: server 0 commits index 2 in term 3
    although only servers 0 and 2 of five hold the entry. *)
Definition stale_match_run : trace :=
  [LElect 0; LVoteArgs 0; LVoteHandle 0 1; LVoteHandle 0 2; LVoteReply 0 1; LVoteReply 0 2;
   LStartCheck 0 "a"; LStartAppend 0; LStartCheck 0 "b"; LStartAppend 1; LBeatArgs 8; LBeatHandle 8; LBeatReply 8;
   LElect 4; LElect 4; LVoteArgs 2; LVoteHandle 2 2; LVoteHandle 2 3; LVoteReply 2 2; LVoteReply 2 3;
   LStartCheck 4 "c"; LStartAppend 2; LBeatArgs 16; LBeatArgs 17; LBeatArgs 18; LBeatHandle 16; LBeatHandle 17;
   LBeatHandle 18; LElect 0; LVoteArgs 3; LVoteHandle 3 1; LVoteHandle 3 2; LVoteReply 3 1; LVoteReply 3 2;
   LStartCheck 0 "x"; LStartAppend 3; LBeatArgs 25; LBeatHandle 25; LBeatReply 25].

Lemma commit_without_majority :
  summary 5 stale_match_run =
    Some [(0, 3, [(None, 0); (Some "c", 2); (Some "x", 3)], 2);
          (2, 3, [(None, 0); (Some "c", 2)], 0);
          (2, 3, [(None, 0); (Some "c", 2); (Some "x", 3)], 0);
          (2, 2, [(None, 0)], 0);
          (0, 2, [(None, 0); (Some "c", 2)], 0)].
Proof. by vm_compute. Qed.

(** [Start] reads the term in one critical section and appends in another: an
    entry of term 1 lands in the log of a follower of term 2, at an index where
    server 1 has another entry of term 1 after a different prefix. *)
Definition late_start_run : trace :=
  [LElect 0; LVoteArgs 0; LVoteHandle 0 1; LVoteHandle 0 2; LVoteReply 0 1; LVoteReply 0 2;
   LStartCheck 0 "a"; LStartCheck 0 "b"; LStartAppend 1; LStartCheck 0 "b2"; LStartAppend 2; LBeatArgs 8; LBeatHandle 8;
   LElect 4; LElect 4; LVoteArgs 2; LVoteHandle 2 2; LVoteHandle 2 3; LVoteReply 2 2; LVoteReply 2 3;
   LStartCheck 4 "c"; LStartAppend 3; LBeatArgs 16; LBeatHandle 16; LStartAppend 0].

Lemma late_start_breaks_log_matching :
  ∃ l, summary 5 late_start_run = Some l ∧
    (λ x, x.1.2) <$> l !! 0%nat = Some [(None, 0); (Some "c", 2); (Some "a", 1)] ∧
    (λ x, x.1.2) <$> l !! 1%nat = Some [(None, 0); (Some "b", 1); (Some "b2", 1)].
Proof. eexists; split_and!; by vm_compute. Qed.

(** A delayed request with entries lowers [commitIndex]: unlike the heartbeat
    branch, this one assigns it unconditionally. *)
Lemma commit_index_goes_back :
  let rf := set_commit 1 follower in
  wf rf ∧ ∃ rf' reply,
    RequestAppendEntriesReply (mkAppendEntriesArgs 1 0 0 (-1) [mkLog (Some "a") 1] 0) rf = Some (rf', reply) ∧
    commitIndex rf = 1 ∧ commitIndex rf' = 0.
Proof.
  split; [destruct follower_wf; by constructor|]. eexists _, _. split_and!; by vm_compute.
Qed.

End RaftFindings.
