(* ===== verification/RaftLive.v ===== *)
(** What the cluster of RaftNet.v can always do: from every state that a run
    reaches, some server can be elected in a new term and commit a new command.
    The schedules used here respect the provisos of RaftLog.v. *)

From S2P Require Import Prelude GoStd Raft RaftProof RaftNet RaftSafety RaftLog RaftSpec RaftCommit RaftCommitStep RaftCommitSpec.

#[local] Open Scope Z_scope.
#[local] Open Scope go_scope.

Module RaftLive.
Import RaftSpec.
Export RaftCommitSpec.

Section live.
Context {C : Type} (n : nat).
Implicit Types (s : net C) (rf : raft C) (i j k : nat) (a : VoteArgs) (L : list (Log C)).

(** ** Reachable by a careful schedule *)

Definition can s s' : Prop := ∃ ls, careful_run ls s ∧ run ls s = Some s'.

Lemma can_refl s : can s s.
Proof. by exists []. Qed.

Lemma can_step lb s s' : careful lb s → exec lb s = Some s' → can s s'.
Proof. intros Hc Hx. exists [lb]. simpl. by rewrite Hx. Qed.

Lemma can_trans s1 s2 s3 : can s1 s2 → can s2 s3 → can s1 s3.
Proof.
  intros (ls1 & Hc1 & Hr1) (ls2 & Hc2 & Hr2). exists (ls1 ++ ls2). revert s1 Hc1 Hr1.
  induction ls1 as [|lb ls1 IH]; intros s1 Hc1 Hr1; simpl in *; [by injection Hr1 as ->|].
  destruct Hc1 as [Hc1 Hcs]. destruct (exec lb s1) as [s1'|]; [|done]. simpl in *.
  destruct (IH s1' Hcs Hr1) as [? ?]. done.
Qed.

(** All servers are well formed and know who they are. *)
Record nice s : Prop := mkNice {
  ni_len : List.length (nodes s) = n;
  ni_node : ∀ i rf, nodes s !! i = Some rf → wf rf ∧ me rf = Z.of_nat i ∧ n_peers rf = Z.of_nat n;
}.

Lemma nice_node s i rf rf' :
  nice s → nodes s !! i = Some rf → wf rf' → me rf' = me rf → n_peers rf' = n_peers rf → nice (set_node i rf' s).
Proof.
  intros [Hl Hn] Hi Hwf Hm Hp. split; simpl; [by rewrite length_insert|].
  intros j rf2 [[<- ->]|[_ ?]]%lookup_update; [|by apply Hn]. destruct (Hn _ _ Hi) as (_ & ? & ?). split_and!; congruence.
Qed.

Lemma nice_same s s' : nice s → nodes s' = nodes s → nice s'.
Proof. intros [? ?] Hs. by split; rewrite Hs. Qed.

Lemma nice_lookup s i : nice s → (i < n)%nat → ∃ rf, nodes s !! i = Some rf.
Proof. intros [Hl _] Hi. apply lookup_lt_is_Some. by rewrite Hl. Qed.

(** ** Votes *)

Definition candidate rf : raft C := set_vote (me rf) (set_term (currentTerm rf + 1) (set_state 1 rf)).

Lemma elect_once s i rf :
  nice s → nodes s !! i = Some rf → state rf ≠ 0 →
  ∃ s', can s s' ∧ nice s' ∧ nodes s' = <[i := candidate rf]> (nodes s) ∧ rounds s' = rounds s ++ [mkRound i None 1 []].
Proof.
  intros Hn Hi Hst. assert (startElection rf = (candidate rf, true)) as He.
  { unfold startElection. by destruct (Z.eqb_spec (state rf) 0). }
  eexists. split; [apply (can_step (LElect i)); [done|simpl; rewrite Hi; simpl; by rewrite He]|].
  split; [|done].
  eapply (nice_same (set_node i (candidate rf) s)); [|done]. apply (nice_node s i rf); [done|done| |done|done].
  pose proof (startElection_wf rf (proj1 (ni_node _ Hn _ _ Hi))) as Hwf. by rewrite He in Hwf.
Qed.

(** Elections in turn, until the term is above [T]. *)
Lemma elect_above T s i rf :
  nice s → nodes s !! i = Some rf → state rf ≠ 0 →
  ∃ s' rf' k, can s s' ∧ nice s' ∧ nodes s' = <[i := rf']> (nodes s) ∧ rounds s' !! k = Some (mkRound i None 1 []) ∧
    state rf' = 1 ∧ T < currentTerm rf' ∧ log rf' = log rf.
Proof.
  remember (Z.to_nat (T - currentTerm rf)) as m eqn:Hm. revert s rf Hm.
  induction m as [|m IH]; intros s rf Hm Hn Hi Hst; destruct (elect_once s i rf Hn Hi Hst) as (s1 & Hs1 & Hn1 & Hno1 & Hr1).
  - exists s1, (candidate rf), (List.length (rounds s)). split_and!; try done; [by rewrite Hr1, list_lookup_middle|simpl; lia].
  - assert (nodes s1 !! i = Some (candidate rf)) as Hi1.
    { rewrite Hno1, list_lookup_insert_eq; [done|]. by eapply lookup_lt_Some. }
    destruct (decide (T < currentTerm (candidate rf))) as [Hlt|Hge].
    + exists s1, (candidate rf), (List.length (rounds s)). split_and!; try done. by rewrite Hr1, list_lookup_middle.
    + destruct (IH s1 (candidate rf)) as (s' & rf' & k & Hs' & Hn' & Hno' & H); [simpl in *; lia|done|done|done|].
      exists s', rf', k. split; [by eapply can_trans|]. split; [done|]. split; [|done].
      by rewrite Hno', Hno1, list_insert_insert_eq.
Qed.

(** A server that asks for votes in a term above [T]. *)
Lemma campaign T s i rf :
  nice s → nodes s !! i = Some rf → state rf ≠ 0 →
  ∃ s' rf' k a, can s s' ∧ nice s' ∧ nodes s' = <[i := rf']> (nodes s) ∧
    rounds s' !! k = Some (mkRound i (Some a) 1 (replicate n VWaiting)) ∧ vote_args rf' = Some a ∧
    state rf' = 1 ∧ T < currentTerm rf' ∧ log rf' = log rf.
Proof.
  intros Hn Hi Hst. destruct (elect_above T s i rf Hn Hi Hst) as (s1 & rf' & k & Hc & Hn1 & Hno & Hk & H1 & H2 & H3).
  assert (nodes s1 !! i = Some rf') as Hi1 by (rewrite Hno, list_lookup_insert_eq; [done|by eapply lookup_lt_Some]).
  destruct (vote_args_spec rf' (proj1 (ni_node _ Hn1 _ _ Hi1))) as (a & Ha & _).
  eexists _, rf', k, a. split.
  { eapply can_trans; [exact Hc|]. apply (can_step (LVoteArgs k)); [done|]. simpl. rewrite Hk. simpl. rewrite Hi1. simpl. by rewrite Ha. }
  split; [by eapply nice_same|]. split; [done|]. split; [|done]. simpl.
  rewrite list_lookup_insert_eq by by eapply lookup_lt_Some. by rewrite (ni_len _ Hn1).
Qed.

(** A peer of a lower term takes part in the new term, as a follower. *)
Lemma handle_vote s k i a num calls j rf :
  nice s → rounds s !! k = Some (mkRound i (Some a) num calls) → calls !! j = Some VWaiting → j ≠ i →
  nodes s !! j = Some rf → currentTerm rf < rv_Term a →
  ∃ s' rf' reply, can s s' ∧ nice s' ∧ nodes s' = <[j := rf']> (nodes s) ∧
    rounds s' = <[k := mkRound i (Some a) num (<[j := VAnswered reply]> calls)]> (rounds s) ∧
    state rf' = 2 ∧ currentTerm rf' = rv_Term a ∧ log rf' = log rf ∧
    (up_to_date a (log rf) → rvr_VoteGranted reply = true).
Proof.
  intros Hn Hk Hj Hne Hi Hlt. destruct (ni_node _ Hn _ _ Hi) as (Hwf & Hm & Hp).
  destruct (RequestVoteReply_spec a rf Hwf) as (rf' & reply & Hr & Hres). pose proof (vote_wf a rf rf' reply Hwf Hres) as Hwf'.
  assert (same_server rf rf' ∧ log rf' = log rf ∧ currentTerm rf' = rv_Term a ∧ state rf' = 2 ∧
    (up_to_date a (log rf) → rvr_VoteGranted reply = true)) as (Hs & Hlog & Ht & Hst & Hg).
  { destruct Hres as [|rf' _ _ _ Hs [Hl _] Ht _ Hst|rf' _ [Hno|[? _]] Hs [Hl _] Ht _ Hst]; [lia| | |lia];
      rewrite decide_True in Hst by done; done. }
  eexists _, rf', reply. split.
  { apply (can_step (LVoteHandle k j)); [done|]. simpl. rewrite Hk. simpl. rewrite Hj. simpl. rewrite Hi. simpl.
    rewrite decide_False by done. by rewrite Hr. }
  split; [|done]. eapply (nice_same (set_node j rf' s)); [|done]. destruct Hs as (? & ? & _). by eapply nice_node.
Qed.

(** Every peer answers in turn, until a majority has voted. *)
Lemma win a i k js s rf num calls :
  nice s → nodes s !! i = Some rf → state rf = 1 → currentTerm rf = rv_Term a →
  rounds s !! k = Some (mkRound i (Some a) num calls) → NoDup js →
  (∀ j, j ∈ js → j ≠ i ∧ calls !! j = Some VWaiting ∧
     ∃ rf, nodes s !! j = Some rf ∧ currentTerm rf < rv_Term a ∧ up_to_date a (log rf)) →
  (∀ j rf, nodes s !! j = Some rf → currentTerm rf <= rv_Term a) →
  num + zlen js = Z.of_nat n → ¬ majority (Z.of_nat n) num →
  ∃ s' rf', can s s' ∧ nice s' ∧ nodes s' !! i = Some rf' ∧ state rf' = 0 ∧ currentTerm rf' = rv_Term a ∧
    log rf' = log rf ∧ (∀ next, next ∈ nextIndex rf' → next = zlen (log rf')) ∧
    ∀ j rf, nodes s' !! j = Some rf → currentTerm rf <= rv_Term a.
Proof.
  revert s num calls. induction js as [|j js IH]; intros s num calls Hn Hi Hst Ht Hk Hnd Hjs Hle Hnum Hmaj.
  { exfalso. apply Hmaj. destruct (ni_node _ Hn _ _ Hi) as (Hwf & _ & Hp). pose proof (wf_me _ Hwf).
    unfold majority. rewrite Hp in *. change (zlen (@nil nat)) with 0 in Hnum. replace num with (Z.of_nat n) by lia.
    rewrite Z.quot_div_nonneg by lia. apply Z.div_lt; lia. }
  apply NoDup_cons in Hnd as [Hnin Hnd]. destruct (Hjs j) as (Hne & Hw & rfj & Hj & Hltj & Hutd); [by left|].
  destruct (handle_vote s k i a num calls j rfj Hn Hk Hw Hne Hj Hltj)
    as (s1 & rfj' & reply & Hc1 & Hn1 & Hno1 & Hr1 & _ & Htj' & _ & Hg). specialize (Hg Hutd).
  assert (nodes s1 !! i = Some rf) as Hi1 by (by rewrite Hno1, list_lookup_insert_ne).
  assert (rounds s1 !! k = Some (mkRound i (Some a) num (<[j := VAnswered reply]> calls))) as Hk1.
  { rewrite Hr1, list_lookup_insert_eq; [done|]. by eapply lookup_lt_Some. }
  assert (<[j := VAnswered reply]> calls !! j = Some (VAnswered reply)) as Hj1
    by (apply list_lookup_insert_eq; by eapply lookup_lt_Some).
  destruct (ni_node _ Hn _ _ Hi) as (Hwf & Hm & Hp).
  assert (∀ j' rf', nodes s1 !! j' = Some rf' → currentTerm rf' <= rv_Term a) as Hle1.
  { intros j' rf'. rewrite Hno1. intros [[<- ->]|[_ ?]]%lookup_update; [lia|by eapply Hle]. }
  pose proof (vote_reply_spec a reply rf num) as Hres. pose proof (vote_reply_wf a reply rf num _ _ _ Hwf Hres) as Hwf'.
  destruct (vote_reply a reply rf num) as [[rf2 num2] lead] eqn:Hvr. simpl in Hres, Hwf'.
  assert (∃ s2, can s1 s2 ∧ nodes s2 = <[i := rf2]> (nodes s1) ∧
    rounds s2 = <[k := mkRound i (Some a) num2
      (<[j := if decide (num2 = num) then VIgnored else VCounted]> (<[j := VAnswered reply]> calls))]> (rounds s1))
    as (s2 & Hc2 & Hno2 & Hr2).
  { eexists. split; [apply (can_step (LVoteReply k j)); [done|]; simpl; rewrite Hk1; simpl; rewrite Hj1; simpl;
      rewrite Hi1; simpl; by rewrite Hvr|]. by destruct lead. }
  assert (nice s2) as Hn2.
  { eapply (nice_same (set_node i rf2 s1)); [|done]. apply (nice_node s1 i rf); [done..| |];
      by inversion Hres; subst. }
  assert (nodes s2 !! i = Some rf2) as Hi2 by (rewrite Hno2, list_lookup_insert_eq; [done|by eapply lookup_lt_Some]).
  assert (can s s2) as Hc by by eapply can_trans. inversion Hres as [Hor| |_ _ _ Hmaj'| |]; subst; try congruence.
  - destruct Hor; done.
  - exists s2, (set_nextIndex (map (λ _, zlen (log rf)) (nextIndex rf)) (set_state 0 rf)). split_and!; try done.
    + intros next. simpl. intros (x & -> & _)%list_elem_of_fmap. done.
    + intros j' rf'. rewrite Hno2. intros [[<- ->]|[_ ?]]%lookup_update; [simpl; lia|by eapply Hle1].
  - rewrite zlen_cons in Hnum.
    edestruct (IH s2 (num + 1)) as (s' & rf' & Hc' & H); try done.
    + rewrite Hr2, list_lookup_insert_eq; [done|]. by eapply lookup_lt_Some.
    + intros j' Hj'. destruct (Hjs j') as (Hne' & Hw' & rf' & Hn' & Hlt' & Hutd'); [by right|].
      assert (j ≠ j') as Hjj by (intros ->; done). split; [done|]. split; [by rewrite !list_lookup_insert_ne|].
      exists rf'. split; [|done]. rewrite Hno2, list_lookup_insert_ne by done. by rewrite Hno1, list_lookup_insert_ne.
    + intros j' rf'. rewrite Hno2. intros [[<- ->]|[_ ?]]%lookup_update; [lia|by eapply Hle1].
    + lia.
    + by rewrite <- Hp.
    + exists s', rf'. split; [by eapply can_trans|done].
Qed.

(** ** Who can win *)

(** What a log is compared by. *)
Definition last_term_of L : Z := if decide (zlen L = 1) then -1 else default 0 (Term <$> last L).
Definition behind L L' : Prop :=
  last_term_of L < last_term_of L' ∨ last_term_of L = last_term_of L' ∧ zlen L <= zlen L'.

Lemma maximal {A} (R : A → A → Prop) (l : list A) :
  (∀ x y, R x y ∨ R y x) → (∀ x y z, R x y → R y z → R x z) → l ≠ [] → ∃ x, x ∈ l ∧ ∀ y, y ∈ l → R y x.
Proof.
  intros Htot Htr. induction l as [|x l IH]; intros Hne; [done|]. destruct l as [|y l].
  - exists x. split; [by left|]. intros y ->%list_elem_of_singleton. by destruct (Htot x x).
  - destruct IH as (z & Hz & Hmax); [done|]. destruct (Htot x z) as [Hxz|Hzx].
    + exists z. split; [by right|]. by intros w [->|Hw]%elem_of_cons; [|apply Hmax].
    + exists x. split; [by left|]. intros w [->|Hw]%elem_of_cons; [by destruct (Htot x x)|]. eapply Htr; [|done]. by apply Hmax.
Qed.

Lemma behind_up_to_date rf a L :
  wf rf → vote_args rf = Some a → L ≠ [] → behind L (log rf) → up_to_date a L.
Proof.
  intros Hwf Ha Hne Hb. destruct (vote_args_spec rf Hwf) as (a' & Ha' & _ & _ & Hidx & Hterm).
  rewrite Ha in Ha'. injection Ha' as <-. unfold up_to_date, last_index in *.
  assert (rv_LastLogTerm a = last_term_of (log rf)) as ->.
  { unfold last_term_of. case_decide; [done|]. destruct Hterm as (e & -> & ->). done. }
  destruct (decide (zlen L = 1)) as [H1|H1]; [by left|right].
  destruct (last L) as [e|] eqn:He; [|by apply last_None in He]. exists e. split; [done|].
  assert (Term e = last_term_of L) as -> by (unfold last_term_of; by rewrite decide_False, He). destruct Hb as [?|[? ?]]; [by left|right]. lia.
Qed.

(** Two servers at least never lead all at the same time: a voter of the newest
    leader leads in no term that is not newer still. *)
Lemma some_follower s G E : safe n s G E → (2 <= n)%nat → ∃ j rf, nodes s !! j = Some rf ∧ state rf ≠ 0.
Proof.
  intros [Hc _ _] Hn. destruct (decide (Exists (λ rf, state rf ≠ 0) (nodes s))) as [Hex|Hall].
  { apply Exists_exists in Hex as (rf & Hin & Hst). apply list_elem_of_lookup in Hin as [j Hj]. by exists j, rf. }
  exfalso. assert (∀ j rf, nodes s !! j = Some rf → state rf = 0) as Hlead.
  { intros j rf Hj. destruct (decide (state rf = 0)) as [|Hne]; [done|]. exfalso. apply Hall, Exists_exists. exists rf.
    split; [by eapply list_elem_of_lookup_2|done]. }
  destruct (maximal (λ rf rf', currentTerm rf <= currentTerm rf') (nodes s)) as (rf & Hin & Hmax); [lia|lia| |].
  { intros Hnil. pose proof (co_len _ _ _ _ Hc) as Hl. rewrite Hnil in Hl. simpl in Hl. lia. }
  apply list_elem_of_lookup in Hin as [i Hi]. pose proof (co_leader _ _ _ _ Hc i rf Hi (Hlead _ _ Hi)) as HE.
  destruct (co_quorum _ _ _ _ Hc _ _ HE) as (Q & Hnd & Hmaj & HQ).
  assert (∃ v, v ∈ Q ∧ v ≠ i) as (v & Hv & Hvi).
  { assert (1 < zlen Q) as Hz.
    { unfold majority in Hmaj. rewrite Z.quot_div_nonneg in Hmaj by lia.
      enough (1 <= Z.of_nat n / 2) by lia. apply Z.div_le_lower_bound; lia. }
    destruct Q as [|x [|y Q]]; [unfold zlen in Hz; simpl in Hz; lia..|].
    destruct (decide (x = i)) as [->|]; [exists y|exists x]; (split; [set_solver|]); [|done].
    intros ->. apply NoDup_cons in Hnd as [Hnin _]. apply Hnin. by left. }
  destruct (HQ v Hv) as (_ & HG & _). destruct (co_bound _ _ _ _ Hc _ _ _ HG) as (rfv & Hrv & Hle).
  pose proof (Hmax rfv ltac:(by eapply list_elem_of_lookup_2)) as Hge. simpl in Hge.
  pose proof (co_leader _ _ _ _ Hc v rfv Hrv (Hlead _ _ Hrv)) as HEv.
  assert (currentTerm rfv = currentTerm rf) as Heq by lia. rewrite Heq in HEv. apply Hvi.
  exact (co_elected _ _ _ _ Hc _ _ _ HEv HE).
Qed.

(** A leader steps down when another server campaigns. *)
Lemma step_down s i j rfi rfj :
  nice s → nodes s !! i = Some rfi → nodes s !! j = Some rfj → j ≠ i → state rfj ≠ 0 →
  ∃ s' rfi' rfj', can s s' ∧ nice s' ∧ nodes s' = <[i := rfi']> (<[j := rfj']> (nodes s)) ∧
    state rfi' = 2 ∧ log rfi' = log rfi ∧ log rfj' = log rfj.
Proof.
  intros Hn Hi Hj Hne Hst.
  destruct (campaign (currentTerm rfi) s j rfj Hn Hj Hst) as (s1 & rfj' & k & a & Hc1 & Hn1 & Hno1 & Hk & Ha & _ & Hlt & Hlog).
  assert (nodes s1 !! i = Some rfi) as Hi1 by (by rewrite Hno1, list_lookup_insert_ne).
  assert (nodes s1 !! j = Some rfj') as Hj1 by (rewrite Hno1, list_lookup_insert_eq; [done|by eapply lookup_lt_Some]).
  destruct (vote_args_spec rfj' (proj1 (ni_node _ Hn1 _ _ Hj1))) as (a' & Ha' & Hta & _). rewrite Ha in Ha'. injection Ha' as <-.
  assert (replicate n VWaiting !! i = Some VWaiting) as Hw.
  { apply lookup_replicate_2. rewrite <- (ni_len _ Hn). by eapply lookup_lt_Some. }
  destruct (handle_vote s1 k j a 1 _ i rfi Hn1 Hk Hw) as (s2 & rfi' & reply & Hc2 & Hn2 & Hno2 & _ & Hs2 & _ & Hlog2 & _);
    [congruence|done|lia|].
  exists s2, rfi', rfj'. split; [by eapply can_trans|]. split; [done|]. split; [by rewrite Hno2, Hno1|done].
Qed.

(** The server with the best log is elected in a new term, if it does not lead. *)
Lemma elect_best s i rf T :
  nice s → (2 <= n)%nat → nodes s !! i = Some rf → state rf ≠ 0 →
  (∀ j rfj, nodes s !! j = Some rfj → behind (log rfj) (log rf) ∧ currentTerm rfj <= T) →
  ∃ s' rf', can s s' ∧ nice s' ∧ nodes s' !! i = Some rf' ∧ state rf' = 0 ∧ T < currentTerm rf' ∧ log rf' = log rf ∧
    (∀ next, next ∈ nextIndex rf' → next = zlen (log rf')) ∧ ∀ j rfj, nodes s' !! j = Some rfj → currentTerm rfj <= currentTerm rf'.
Proof.
  intros Hn Hn2 Hi Hst Hbest.
  destruct (campaign T s i rf Hn Hi Hst) as (s1 & rf1 & k & a & Hc1 & Hn1 & Hno1 & Hk & Ha & Hs1 & Hlt & Hlog).
  assert (nodes s1 !! i = Some rf1) as Hi1 by (rewrite Hno1, list_lookup_insert_eq; [done|by eapply lookup_lt_Some]).
  destruct (ni_node _ Hn1 _ _ Hi1) as (Hwf1 & _).
  destruct (vote_args_spec rf1 Hwf1) as (a' & Ha' & Hta & _). rewrite Ha in Ha'. injection Ha' as <-.
  assert (i < n)%nat as Hin by (rewrite <- (ni_len _ Hn); by eapply lookup_lt_Some).
  assert (∀ j rfj, j ≠ i → nodes s1 !! j = Some rfj → nodes s !! j = Some rfj) as Hsame.
  { intros j rfj Hj. rewrite Hno1. by rewrite list_lookup_insert_ne by done. }
  assert (seq 0 n ≡ₚ i :: filter (λ j, j ≠ i) (seq 0 n)) as Hperm.
  { apply NoDup_Permutation; [apply NoDup_seq| |].
    - constructor; [by intros [? _]%list_elem_of_filter|]. apply NoDup_filter, NoDup_seq.
    - intros j. rewrite elem_of_cons, list_elem_of_filter, elem_of_seq. destruct (decide (j = i)); naive_solver lia. }
  destruct (win a i k (filter (λ j, j ≠ i) (seq 0 n)) s1 rf1 1 (replicate n VWaiting)) as (s2 & rf2 & Hc2 & Hn2' & Hi2 & Hs2 & Ht2 & Hl2 & Hx2 & Hle2);
    try done.
  - apply NoDup_filter, NoDup_seq.
  - intros j [Hj [_ Hjn]%elem_of_seq]%list_elem_of_filter. split; [done|]. split; [by apply lookup_replicate_2|].
    destruct (nice_lookup s1 j Hn1 Hjn) as [rfj Hrfj]. exists rfj. split; [done|].
    destruct (Hbest j rfj (Hsame j rfj Hj Hrfj)) as [Hb Hle]. split; [lia|].
    apply (behind_up_to_date rf1); [done|done| |by rewrite Hlog]. apply (wf_log _ (proj1 (ni_node _ Hn1 _ _ Hrfj))).
  - intros j rfj Hj. rewrite Hta. destruct (decide (j = i)) as [->|Hne]; [rewrite Hi1 in Hj; injection Hj as <-; lia|].
    destruct (Hbest j rfj (Hsame j rfj Hne Hj)). lia.
  - apply Permutation_length in Hperm. rewrite length_seq in Hperm. unfold zlen. simpl in Hperm. lia.
  - unfold majority. rewrite Z.quot_div_nonneg by lia. enough (1 <= Z.of_nat n / 2) by lia. apply Z.div_le_lower_bound; lia.
  - exists s2, rf2. split_and!; try done; [by eapply can_trans|lia|congruence|].
    intros j rfj Hj. rewrite Ht2. by eapply Hle2.
Qed.

Lemma some_bound (ns : list (raft C)) : ∃ T, ∀ j rf, ns !! j = Some rf → currentTerm rf <= T.
Proof.
  destruct (decide (ns = [])) as [->|Hne]; [by exists 0|].
  destruct (maximal (λ rf rf', currentTerm rf <= currentTerm rf') ns) as (rf & _ & Hmax); [lia|lia|done|].
  exists (currentTerm rf). intros j rf' Hj. apply (Hmax rf'). by eapply list_elem_of_lookup_2.
Qed.

Lemma can_elect s G E :
  safe n s G E → nice s → (2 <= n)%nat →
  ∃ s' i rf, can s s' ∧ nice s' ∧ nodes s' !! i = Some rf ∧ state rf = 0 ∧
    (∀ next, next ∈ nextIndex rf → next = zlen (log rf)) ∧
    (∀ j rfj, nodes s !! j = Some rfj → currentTerm rfj < currentTerm rf) ∧
    ∀ j rfj, nodes s' !! j = Some rfj → currentTerm rfj <= currentTerm rf.
Proof.
  intros Hs Hn Hn2.
  destruct (maximal (λ rf rf', behind (log rf) (log rf')) (nodes s)) as (rf & Hin & Hmax); [unfold behind; lia|unfold behind; lia| |].
  { intros Hnil. pose proof (ni_len _ Hn) as Hl. rewrite Hnil in Hl. simpl in Hl. lia. }
  apply list_elem_of_lookup in Hin as [i Hi].
  assert (∃ s1 rf1, can s s1 ∧ nice s1 ∧ nodes s1 !! i = Some rf1 ∧ state rf1 ≠ 0 ∧
    ∀ j rfj, nodes s1 !! j = Some rfj → behind (log rfj) (log rf1)) as (s1 & rf1 & Hc1 & Hn1 & Hi1 & Hst1 & Hb1).
  { assert (∀ j rfj, nodes s !! j = Some rfj → behind (log rfj) (log rf)) as Hb
      by (intros j rfj Hj; apply Hmax; by eapply list_elem_of_lookup_2).
    destruct (decide (state rf = 0)) as [Hlead|Hst]; [|exists s, rf; split_and!; try done; apply can_refl].
    destruct (some_follower s G E Hs Hn2) as (j & rfj & Hj & Hstj). assert (j ≠ i) as Hne by congruence.
    destruct (step_down s i j rf rfj Hn Hi Hj Hne Hstj) as (s1 & rfi' & rfj' & Hc1 & Hn1 & Hno1 & Hst1 & Hli & Hlj).
    exists s1, rfi'. split; [done|]. split; [done|]. split.
    { rewrite Hno1, list_lookup_insert_eq; [done|]. rewrite length_insert. by eapply lookup_lt_Some. }
    split; [lia|]. intros j' rf'. rewrite Hno1, Hli. intros [[<- ->]|[_ [[<- ->]|[_ ?]]%lookup_update]]%lookup_update.
    - rewrite Hli. by eapply Hb.
    - rewrite Hlj. by eapply Hb.
    - by eapply Hb. }
  destruct (some_bound (nodes s ++ nodes s1)) as [T HT].
  destruct (elect_best s1 i rf1 T Hn1 Hn2 Hi1 Hst1) as (s2 & rf2 & Hc2 & Hn2' & Hi2 & Hst2 & Hlt & Hlog & Hnx & Hle).
  { intros j rfj Hj. split; [by eapply Hb1|]. apply (HT (List.length (nodes s) + j)%nat).
    rewrite lookup_app_r by lia. by rewrite Nat.add_comm, Nat.add_sub. }
  exists s2, i, rf2. split_and!; try done; [by eapply can_trans|].
  intros j rfj Hj. enough (currentTerm rfj <= T) by lia. apply (HT j). by apply lookup_app_l_Some.
Qed.

(** ** Replication *)

(** Server [i] leads the newest term with log [L]. *)
Record leading (i : nat) L s rf : Prop := mkLeading {
  le_nice : nice s;
  le_node : nodes s !! i = Some rf;
  le_state : state rf = 0;
  le_log : log rf = L;
  le_newest : ∀ j rfj, nodes s !! j = Some rfj → currentTerm rfj <= currentTerm rf;
}.

(** A request with the entries of [L] from [next] on. *)
Record carries (args : AppendEntriesArgs C) (T next : Z) L : Prop := mkCarries {
  ca_wf : ae_wf args;
  ca_term : ae_Term args = T;
  ca_prev : ae_PrevLogIndex args = next - 1;
  ca_entries : ae_Entries args = drop (Z.to_nat next) L;
}.

(** A heartbeat goroutine of the leader sends what peer [j] lacks. *)
Lemma send_beat i L s rf j next :
  leading i L s rf → (j < n)%nat → j ≠ i → (nextIndex rf).[Z.of_nat j] = Some next → 1 <= next < zlen L →
  ∃ s' k args, can s s' ∧ nodes s' = nodes s ∧ beats s' !! k = Some (mkBeat i j (BSent args)) ∧
    carries args (currentTerm rf) next L.
Proof.
  intros [Hn Hi Hst Hlog Hle] Hj Hji Hnx Hr.
  assert (∃ k, beats (spawn_beats i s) !! k = Some (mkBeat i j BPending)) as [k Hk].
  { apply list_elem_of_lookup, elem_of_app. right. apply list_elem_of_fmap. exists j. split; [done|].
    apply list_elem_of_filter. split; [done|]. apply elem_of_seq. rewrite (ni_len _ Hn). lia. }
  remember (spawn_beats i s) as s1 eqn:Hs1. assert (nodes s1 = nodes s) as Hno by by subst.
  destruct (heartbeat_args_spec (Z.of_nat j) rf next Hnx) as (args & Ha & Hfrom & Ht & _ & Hco & Hp); [rewrite Hlog; lia|].
  exists (set_beats (<[k := mkBeat i j (BSent args)]> (beats s1)) s1), k, args. split_and!; [|done| |].
  - apply (can_trans _ s1).
    { apply (can_step (LBeat i)); [done|]. simpl. rewrite Hi. simpl. by rewrite Hst, Hs1. }
    apply (can_step (LBeatArgs k)).
    + split; [intros b rf' Hb Hrf'|intros b rf' nx Hb Hrf' Hnx']; rewrite Hk in Hb; injection Hb as <-;
        rewrite Hno in Hrf'; simpl in Hrf'; rewrite Hi in Hrf'; injection Hrf' as <-; [done|].
      simpl in Hnx'. rewrite Hnx in Hnx'. injection Hnx' as <-. rewrite Hlog. lia.
    + simpl. rewrite Hk. simpl. rewrite Hno, Hi. simpl. by rewrite Ha.
  - simpl. apply list_lookup_insert_eq. by eapply lookup_lt_Some.
  - destruct (ni_node _ Hn _ _ Hi) as [Hwf _]. split; [by apply (ae_from_wf args rf)|done|done|]. rewrite Hlog in Hfrom.
    destruct (af_entries _ _ Hfrom) as [[_ Hx]|Hx]; [lia|]. rewrite Hx. do 2 f_equal. lia.
Qed.

(** A peer of no newer term answers; it accepts entries that build on its log. *)
Lemma peer_answers s k i j args next T L rfj :
  nice s → beats s !! k = Some (mkBeat i j (BSent args)) → carries args T next L →
  nodes s !! j = Some rfj → currentTerm rfj <= T →
  ∃ s' rfj' reply, can s s' ∧ nice s' ∧ nodes s' = <[j := rfj']> (nodes s) ∧
    beats s' !! k = Some (mkBeat i j (BAnswered args reply)) ∧ currentTerm rfj' = T ∧ aer_Term reply = T ∧
    (aer_Success reply = false → ¬ consistent args (log rfj)).
Proof.
  intros Hn Hk [Haw Ht Hprev Hents] Hj Hle. destruct (ni_node _ Hn _ _ Hj) as (Hwf & Hm & Hp).
  destruct (AppendEntries_spec args rfj (wf_log _ Hwf) (aw_prev _ Haw)) as (rfj' & reply & Hae & Hres).
  pose proof (AppendEntries_wf args rfj rfj' reply Hwf Haw Hres) as Hwf'.
  assert (me rfj' = me rfj ∧ n_peers rfj' = n_peers rfj ∧ currentTerm rfj' = T ∧ aer_Term reply = T ∧
    (aer_Success reply = false → ¬ consistent args (log rfj))) as (? & ? & H).
  { destruct Hres as [?|rfj' _ [(? & ? & _) ? _ _] Hnc _ _|rfj' _ [(? & ? & _) ? _ _] _ _ _]; simpl; [|split_and!; congruence..].
    assert (currentTerm rfj = T) by lia. lia. }
  eexists _, rfj', reply. split.
  { apply (can_step (LBeatHandle k)); [done|]. simpl. rewrite Hk. simpl. rewrite Hj. simpl. by rewrite Hae. }
  split; [|split; [done|]].
  - eapply (nice_same (set_node j rfj' s)); [by eapply nice_node|done].
  - simpl. rewrite list_lookup_insert_eq; [done|]. by eapply lookup_lt_Some.
Qed.

(** What the leader makes of the answer. *)
Lemma take_answer i L s rf k j args next reply :
  leading i L s rf → (j < n)%nat → j ≠ i → beats s !! k = Some (mkBeat i j (BAnswered args reply)) →
  carries args (currentTerm rf) next L → 1 <= next < zlen L → aer_Term reply = currentTerm rf →
  ∃ s' rf', can s s' ∧ leading i L s' rf' ∧ currentTerm rf' = currentTerm rf ∧
    heartbeat_reply_result (Z.of_nat j) args reply rf rf'.
Proof.
  intros [Hn Hi Hst Hlog Hle] Hj Hji Hk [Haw Ht Hprev Hents] Hr Htr. destruct (ni_node _ Hn _ _ Hi) as (Hwf & Hm & Hp).
  assert (zlen (ae_Entries args) = zlen L - next) as Hzl by (rewrite Hents; unfold zlen in *; rewrite length_drop; lia).
  destruct (heartbeat_reply_spec (Z.of_nat j) args reply rf Hwf) as (rf' & Hhr & Hrr); [lia..|rewrite Hlog; lia|].
  assert (state rf' = 0 ∧ currentTerm rf' = currentTerm rf ∧ log rf' = log rf ∧ me rf' = me rf ∧ n_peers rf' = n_peers rf)
    as (Hst' & Ht' & Hlog' & Hm' & Hp').
  { destruct Hrr as [|? Hlt|nl ml rf1 cmt e _ _ _ _ _ _ _ _ ->| |]; try done; [lia|by case_decide]. }
  eexists _, rf'. split.
  { apply (can_step (LBeatReply k)); [done|]. cbn [exec]. rewrite Hk. simpl. rewrite Hi. simpl. by rewrite Hhr. }
  split; [|done]. split; simpl.
  - eapply (nice_same (set_node i rf' s)); [|done]. eapply nice_node; try done. eapply heartbeat_reply_wf; [..|done]; [done|lia].
  - rewrite list_lookup_insert_eq; [done|]. by eapply lookup_lt_Some.
  - done.
  - congruence.
  - intros j' rfj [[<- ->]|[_ ?]]%lookup_update; [lia|]. rewrite Ht'. by eapply Hle.
Qed.

(** Peer [j] has the whole log and the leader knows it. *)
Definition replicated (j : nat) L rf rf' : Prop :=
  zupdate (nextIndex rf) (Z.of_nat j) (zlen L) = Some (nextIndex rf') ∧
  zupdate (matchIndex rf) (Z.of_nat j) (zlen L - 1) = Some (matchIndex rf') ∧
  (majority (Z.of_nat n) (1 + zlen (acked (zlen L - 1) rf')) → zlen L - 1 <= commitIndex rf').

(** An exchange moves [nextIndex] back or replicates the log. *)
Lemma exchange i L s rf j next :
  leading i L s rf → (j < n)%nat → j ≠ i → (nextIndex rf).[Z.of_nat j] = Some next → 1 <= next < zlen L →
  (∃ e, L.[zlen L - 1] = Some e ∧ Term e = currentTerm rf) →
  ∃ s' rf', can s s' ∧ leading i L s' rf' ∧ currentTerm rf' = currentTerm rf ∧
    (1 < next ∧ zupdate (nextIndex rf) (Z.of_nat j) (next - 1) = Some (nextIndex rf') ∧ matchIndex rf' = matchIndex rf ∨
     replicated j L rf rf').
Proof.
  intros Hl Hj Hji Hnx Hr (e & He & Hte).
  destruct (send_beat i L s rf j next Hl Hj Hji Hnx Hr) as (s1 & k & args & Hc1 & Hno1 & Hk1 & Ha).
  pose proof Hl as [Hn Hi Hst Hlog Hle]. destruct (nice_lookup s j Hn Hj) as [rfj Hrj].
  destruct (peer_answers s1 k i j args next (currentTerm rf) L rfj) as (s2 & rfj' & reply & Hc2 & Hn2 & Hno2 & Hk2 & Htj & Htr & Hfail);
    [by eapply nice_same|done|done|by rewrite Hno1|by eapply Hle|].
  destruct (take_answer i L s2 rf k j args next reply) as (s3 & rf' & Hc3 & Hl3 & Ht3 & Hrr); try done.
  { split; [done| |done|done|]; rewrite Hno2, Hno1; [by rewrite list_lookup_insert_ne|].
    intros j' rf2 [[<- ->]|[_ ?]]%lookup_update; [lia|by eapply Hle]. }
  exists s3, rf'. split; [eapply can_trans; [exact Hc1|by eapply can_trans]|]. split; [done|]. split; [done|].
  destruct Ha as [Haw Hta Hprev Hents].
  assert (zlen (ae_Entries args) = zlen L - next) as Hzl by (rewrite Hents; unfold zlen in *; rewrite length_drop; lia).
  assert (ae_Entries args ≠ []) as Hne by (intros Hnil; rewrite Hnil in Hzl; unfold zlen in *; simpl in Hzl; lia).
  destruct Hrr as [| |nl ml rf1 cmt e' _ _ _ _ Hcmt He' Hnl Hml Hrf1|next' nl _ _ Hf Hnx' Hnl|]; [lia|lia| | |done].
  - right. assert (cmt = zlen L - 1) as -> by lia. replace (zlen L - 1 + 1) with (zlen L) in Hnl by lia.
    rewrite Hlog, He in He'. injection He' as <-. destruct (ni_node _ Hn _ _ Hi) as (_ & _ & Hp).
    subst rf1. unfold replicated. case_decide as Hcase; simpl; [split_and!; [done..|lia]|]. split_and!; [done..|].
    intros Hmaj. destruct (decide (commitIndex rf < zlen L - 1)); [|lia]. exfalso. apply Hcase. by rewrite Hp.
  - left. rewrite Hnx in Hnx'. injection Hnx' as <-. split; [|done].
    destruct (decide (1 < next)) as [|Hge]; [done|]. exfalso. apply (Hfail Hf). left. split; [lia|done].
Qed.

(** The commit rule has been applied to the whole log. *)
Definition settled L rf : Prop := majority (Z.of_nat n) (1 + zlen (acked (zlen L - 1) rf)) → zlen L - 1 <= commitIndex rf.

Lemma replicate_one i L s rf j next :
  leading i L s rf → (j < n)%nat → j ≠ i → (nextIndex rf).[Z.of_nat j] = Some next → 1 <= next < zlen L →
  (∃ e, L.[zlen L - 1] = Some e ∧ Term e = currentTerm rf) →
  ∃ s' rf', can s s' ∧ leading i L s' rf' ∧ currentTerm rf' = currentTerm rf ∧ settled L rf' ∧
    (∀ x, x ≠ Z.of_nat j → (nextIndex rf').[x] = (nextIndex rf).[x]) ∧
    ∀ x, (matchIndex rf').[x] = if decide (Z.of_nat j = x) then Some (zlen L - 1) else (matchIndex rf).[x].
Proof.
  intros Hl Hj Hji Hnx Hr He. remember (Z.to_nat next) as m eqn:Hm. revert s rf next Hm Hl Hnx Hr He.
  induction m as [|m IH]; intros s rf next Hm Hl Hnx Hr He; [lia|].
  destruct (exchange i L s rf j next Hl Hj Hji Hnx Hr He)
    as (s1 & rf1 & Hc1 & Hl1 & Ht1 & [(Hlt & Hn1 & Hm1)|(Hn1 & Hm1 & Hset)]).
  - destruct (IH s1 rf1 (next - 1)) as (s' & rf' & Hc' & Hl' & Ht' & Hset & Hn' & Hm'); [lia|done| |lia|by rewrite Ht1|].
    { rewrite (zlookup_zupdate _ _ _ _ _ Hn1). by rewrite decide_True. }
    exists s', rf'. split_and!; try done; [by eapply can_trans|congruence| |].
    + intros x Hx. rewrite Hn', (zlookup_zupdate _ _ _ _ _ Hn1) by done. by rewrite decide_False.
    + intros x. by rewrite Hm', Hm1.
  - exists s1, rf1. split_and!; try done.
    + intros x Hx. rewrite (zlookup_zupdate _ _ _ _ _ Hn1). by rewrite decide_False.
    + intros x. by rewrite (zlookup_zupdate _ _ _ _ _ Hm1).
Qed.

Lemma replicate_all i L js s rf :
  leading i L s rf → NoDup js →
  (∀ j, j ∈ js → (j < n)%nat ∧ j ≠ i ∧ ∃ next, (nextIndex rf).[Z.of_nat j] = Some next ∧ 1 <= next < zlen L) →
  (∃ e, L.[zlen L - 1] = Some e ∧ Term e = currentTerm rf) →
  ∃ s' rf', can s s' ∧ leading i L s' rf' ∧ currentTerm rf' = currentTerm rf ∧ (js ≠ [] ∨ settled L rf → settled L rf') ∧
    (∀ j, j ∈ js → (matchIndex rf').[Z.of_nat j] = Some (zlen L - 1)) ∧
    ∀ j, j ∉ js → (matchIndex rf').[Z.of_nat j] = (matchIndex rf).[Z.of_nat j].
Proof.
  revert s rf. induction js as [|j js IH]; intros s rf Hl Hnd Hjs He.
  { exists s, rf. split_and!; try done; [apply can_refl|naive_solver|]. intros j Hj. by apply elem_of_nil in Hj. }
  apply NoDup_cons in Hnd as [Hnin Hnd]. destruct (Hjs j) as (Hj & Hji & next & Hnx & Hr); [by left|].
  destruct (replicate_one i L s rf j next Hl Hj Hji Hnx Hr He) as (s1 & rf1 & Hc1 & Hl1 & Ht1 & Hset1 & Hn1 & Hm1).
  destruct (IH s1 rf1 Hl1 Hnd) as (s' & rf' & Hc' & Hl' & Ht' & Hset' & Hin' & Hout').
  { intros j' Hj'. destruct (Hjs j') as (? & ? & next' & Hnx' & ?); [by right|]. split_and!; [done..|].
    exists next'. split; [|done]. rewrite Hn1; [done|]. intros Heq%Nat2Z.inj. by subst. }
  { by rewrite Ht1. }
  exists s', rf'. split_and!; try done; [by eapply can_trans|congruence|naive_solver| |].
  - intros x [->|Hx]%elem_of_cons; [|by apply Hin']. rewrite (Hout' _ Hnin), Hm1. by rewrite decide_True.
  - intros x [Hx1 Hx2]%not_elem_of_cons. rewrite (Hout' _ Hx2), Hm1. rewrite decide_False; [done|]. by intros ->%Nat2Z.inj.
Qed.

(** A log that all peers hold is committed. *)
Lemma acked_by_all L rf :
  wf rf → n_peers rf = Z.of_nat n → (2 <= n)%nat →
  (∀ j, (j < n)%nat → Z.of_nat j ≠ me rf → (matchIndex rf).[Z.of_nat j] = Some (zlen L - 1)) →
  majority (Z.of_nat n) (1 + zlen (acked (zlen L - 1) rf)).
Proof.
  intros Hwf Hp Hn Hall. assert (seqZ 0 (Z.of_nat n) ⊆+ me rf :: acked (zlen L - 1) rf) as Hsub.
  { apply NoDup_submseteq; [apply NoDup_seqZ|]. intros x Hx%elem_of_seqZ. apply elem_of_cons.
    destruct (decide (x = me rf)) as [|Hne]; [by left|right]. apply list_elem_of_filter.
    assert ((matchIndex rf).[x] = Some (zlen L - 1)) as Hmx.
    { replace x with (Z.of_nat (Z.to_nat x)) by lia. apply Hall; lia. }
    split; [split; [done|by rewrite Hmx]|]. apply elem_of_seqZ. rewrite (wf_match _ Hwf). lia. }
  apply submseteq_length in Hsub. rewrite length_seqZ in Hsub. simpl in Hsub.
  set (A := acked (zlen L - 1) rf) in *. unfold majority, zlen. rewrite Z.quot_div_nonneg by lia. pose proof (Z.div_lt (Z.of_nat n) 2 ltac:(lia) ltac:(lia)). lia.
Qed.

Lemma commit_log i L s rf :
  leading i L s rf → (2 <= n)%nat →
  (∀ j, (j < n)%nat → j ≠ i → ∃ next, (nextIndex rf).[Z.of_nat j] = Some next ∧ 1 <= next < zlen L) →
  (∃ e, L.[zlen L - 1] = Some e ∧ Term e = currentTerm rf) →
  ∃ s' rf', can s s' ∧ leading i L s' rf' ∧ currentTerm rf' = currentTerm rf ∧ commitIndex rf' = zlen L - 1.
Proof.
  intros Hl Hn Hnx He.
  destruct (replicate_all i L (filter (λ j, j ≠ i) (seq 0 n)) s rf Hl) as (s' & rf' & Hc & Hl' & Ht & Hset & Hin & _);
    [apply NoDup_filter, NoDup_seq| |done|].
  { intros j [Hj [_ Hjn]%elem_of_seq]%list_elem_of_filter. split_and!; [done..|]. by apply Hnx. }
  exists s', rf'. split_and!; try done. pose proof Hl' as [Hn' Hi' _ Hlog' _]. destruct (ni_node _ Hn' _ _ Hi') as (Hwf & Hm & Hp).
  pose proof (wf_commit _ Hwf) as Hcm. unfold last_index in Hcm. rewrite Hlog' in Hcm.
  assert (zlen L - 1 <= commitIndex rf'); [|lia]. apply Hset.
  - left. intros Hnil. assert ((if decide (i = 0%nat) then 1%nat else 0%nat) ∈ filter (λ j, j ≠ i) (seq 0 n)) as Hx.
    { apply list_elem_of_filter. case_decide; (split; [lia|]); apply elem_of_seq; lia. }
    rewrite Hnil in Hx. by apply elem_of_nil in Hx.
  - apply acked_by_all; [done..|]. intros j Hj Hne. apply Hin, list_elem_of_filter. split; [congruence|]. apply elem_of_seq. lia.
Qed.

(** The leader takes a command. *)
Lemma start_command i s rf c :
  leading i (log rf) s rf →
  ∃ s' rf', can s s' ∧ leading i (log rf ++ [mkLog (Some c) (currentTerm rf)]) s' rf' ∧
    currentTerm rf' = currentTerm rf ∧ nextIndex rf' = nextIndex rf.
Proof.
  intros [Hn Hi Hst _ Hle]. destruct (ni_node _ Hn _ _ Hi) as (Hwf & _).
  set (s1 := set_starts (starts s ++ [Some (mkStart i c (currentTerm rf))]) s).
  assert (can s s1) as Hc1.
  { apply (can_step (LStartCheck i c)); [done|]. simpl. rewrite Hi. simpl. unfold GetState. by rewrite Hst. }
  assert (starts s1 !! List.length (starts s) = Some (Some (mkStart i c (currentTerm rf)))) as Hk
    by (by apply list_lookup_middle).
  assert (nodes s1 = nodes s) as Hno by done. assert (nodes s1 !! i = Some rf) as Hi1 by done.
  assert (nice s1) as Hn1 by by eapply nice_same. clearbody s1. set (rf' := (Start_append c (currentTerm rf) rf).1).
  eexists _, rf'. split.
  - apply (can_trans _ s1); [done|]. apply (can_step (LStartAppend (List.length (starts s)))).
    + split; [done|]. intros p rf2. rewrite Hk. intros [= <-]. simpl. rewrite Hi1. by intros [= <-].
    + simpl. rewrite Hk. simpl. rewrite Hi1. simpl. reflexivity.
  - split; [|done]. split; simpl.
    + eapply (nice_same (set_node i rf' s1)); [|done]. apply (nice_node s1 i rf); try done.
      apply Start_append_wf; [done|]. pose proof (wf_term _ Hwf). lia.
    + rewrite list_lookup_insert_eq; [done|]. by eapply lookup_lt_Some.
    + done.
    + done.
    + intros j rfj. rewrite Hno. intros [[<- ->]|[_ ?]]%lookup_update; [simpl; lia|by eapply Hle].
Qed.

(** C11: Progress. In a cluster of two servers or more, from every state that a
    steady run reaches, whatever messages were lost before, some
    careful schedule elects a server in a term above all earlier ones and commits a
    given new command there: no reachable state is a dead end. *)
Theorem raft_can_commit ls s c :
  (2 <= n)%nat → steady_run ls (init_net n) → run ls (init_net n) = Some s →
  ∃ ls' s' i rf, careful_run ls' s ∧ run ls' s = Some s' ∧ nodes s' !! i = Some rf ∧ state rf = 0 ∧
    (∀ j rfj, nodes s !! j = Some rfj → currentTerm rfj < currentTerm rf) ∧
    (log rf).[commitIndex rf] = Some (mkLog (Some c) (currentTerm rf)).
Proof.
  intros Hn Hst Hr. destruct (reach_cinv n ls s Hst Hr) as (g & G & E & Hs & _ & Hc & _).
  destruct (can_elect s G E Hs) as (s1 & i & rf & Hc1 & Hn1 & Hi & Hlead & Hnx & Hnew & Hle); [|done|].
  { split; [by apply (co_len _ _ _ _ (sf_core _ _ _ _ Hs))|]. intros i rf Hi. split.
    - by eapply no_wf, ci_nodes.
    - by apply (co_id _ _ _ _ (sf_core _ _ _ _ Hs)). }
  destruct (start_command i s1 rf c) as (s2 & rf2 & Hc2 & Hl2 & Ht2 & Hx2); [done|].
  set (L := log rf ++ _) in Hl2. destruct (ni_node _ Hn1 _ _ Hi) as (Hwf & _ & Hp). pose proof (wf_zlen _ Hwf) as Hz.
  assert (zlen L = zlen (log rf) + 1) as HL by (unfold L; by rewrite zlen_app).
  assert (L.[zlen L - 1] = Some (mkLog (Some c) (currentTerm rf))) as He.
  { rewrite HL. unfold L. rewrite zlookup_app_r by lia. by replace (_ - _) with 0 by lia. }
  destruct (commit_log i L s2 rf2 Hl2 Hn) as (s' & rf' & Hc' & [_ Hi' Hst' Hlog' _] & Ht' & Hcm).
  { intros j Hj _. destruct (proj2 (zlookup_is_Some (nextIndex rf) (Z.of_nat j))) as [next Hnj]; [rewrite (wf_next _ Hwf); lia|].
    exists next. rewrite Hx2. split; [done|]. rewrite (Hnx next); [lia|]. rewrite zlookup_nat in Hnj. by eapply list_elem_of_lookup_2. }
  { eexists. split; [exact He|]. done. }
  destruct (can_trans _ _ _ Hc1 (can_trans _ _ _ Hc2 Hc')) as (ls' & Hcr & Hrun).
  exists ls', s', i, rf'. split_and!; try done.
  - intros j rfj Hj. rewrite Ht', Ht2. by eapply Hnew.
  - rewrite Hlog', Hcm, He. by rewrite Ht', Ht2.
Qed.
End live.

Lemma raft_can_commit_witness :
  ∃ ls' s' i rf, careful_run ls' (after two_terms) ∧ run ls' (after two_terms) = Some s' ∧ nodes s' !! i = Some rf ∧
    state rf = 0 ∧ (∀ j rfj, nodes (after two_terms) !! j = Some rfj → currentTerm rfj < currentTerm rf) ∧
    (log rf).[commitIndex rf] = Some (mkLog (Some "x") (currentTerm rf)).
Proof. apply (raft_can_commit 3 two_terms); [lia|exact two_terms_steady|exact two_terms_run]. Defined.
End RaftLive.
