(* ===== verification/Mr.v ===== *)
(** Model of mr/master.go and mr/rpc.go: the coordinator's state and its RPC
    handlers.

    An iteration over a Go map takes the order of its keys as an argument;
    [now] is the clock in nanoseconds; [None] as a result is a panic. *)

From S2P Require Import Prelude GoStd.

#[local] Open Scope Z_scope.
#[local] Open Scope go_scope.

Module Mr.

(** [time.Time]; [None] is its zero value. *)
Abbreviation time := (option Z).

Definition second : Z := 1000000000.

Record MrArgs := mkMrArgs {
  a_TaskType : Z; (* 1 map, 2 reduce *)
  a_TaskName : string;
  a_WorkerId : Z;
  a_TaskId : Z;
}.

Record MrReply := mkMrReply {
  r_TaskName : string;
  r_NReduce : Z;
  r_WorkerId : Z;
  r_TaskId : Z;
  r_TaskType : Z;
  r_MapId : Z;
}.

(** A task is -1 (not started), 1 (handed out) or 2 (finished). *)
Record Master := mkMaster {
  mmap : gmap string Z;
  rtask : list Z;
  NReduce : Z;
  nextId : Z;
  mdone : bool;
  rdone : bool;
  f2id : gmap string Z;
  mstart : gmap string time;
  rstart : list time;
}.

(** ** Assignments *)

Definition set_mtask (i : string) (v : Z) (t : time) (m : Master) : Master :=
  mkMaster (<[i := v]> (mmap m)) (rtask m) (NReduce m) (nextId m) (mdone m) (rdone m) (f2id m)
    (<[i := t]> (mstart m)) (rstart m).
Definition set_mmap (i : string) (v : Z) (m : Master) : Master :=
  mkMaster (<[i := v]> (mmap m)) (rtask m) (NReduce m) (nextId m) (mdone m) (rdone m) (f2id m) (mstart m) (rstart m).
Definition set_rtask (l : list Z) (m : Master) : Master :=
  mkMaster (mmap m) l (NReduce m) (nextId m) (mdone m) (rdone m) (f2id m) (mstart m) (rstart m).
Definition set_rstart (l : list time) (m : Master) : Master :=
  mkMaster (mmap m) (rtask m) (NReduce m) (nextId m) (mdone m) (rdone m) (f2id m) (mstart m) l.
Definition set_nextId (n : Z) (m : Master) : Master :=
  mkMaster (mmap m) (rtask m) (NReduce m) n (mdone m) (rdone m) (f2id m) (mstart m) (rstart m).
Definition set_mdone (m : Master) : Master :=
  mkMaster (mmap m) (rtask m) (NReduce m) (nextId m) true (rdone m) (f2id m) (mstart m) (rstart m).
Definition set_rdone (m : Master) : Master :=
  mkMaster (mmap m) (rtask m) (NReduce m) (nextId m) (mdone m) true (f2id m) (mstart m) (rstart m).

(** ** The handlers *)

(** [MakeMaster]; a negative [nReduce] makes [make] panic. *)
Definition file_ids (files : list string) : gmap string Z :=
  foldl (λ ids '(i, v), <[v := Z.of_nat i]> ids) ∅ (imap pair files).

Definition MakeMaster (files : list string) (nReduce : Z) : option Master :=
  if nReduce <? 0 then None
  else Some
    (mkMaster (foldl (λ mm v, <[v := -1]> mm) ∅ files) (replicate (Z.to_nat nReduce) (-1)) nReduce 1 false false
       (file_ids files) ∅ (replicate (Z.to_nat nReduce) None)).

Definition TaskFinish (args : MrArgs) (m : Master) : option Master :=
  if a_TaskType args =? 1 then Some (set_mmap (a_TaskName args) 2 m)
  else if a_TaskType args =? 2 then
    l ← (rtask m).[a_TaskId args <- 2]; Some (set_rtask l m)
  else Some m.

(** [!start.IsZero() && now.Sub(start) > 5*time.Second] *)
Definition expired (start : time) (now : Z) : bool :=
  match start with Some t => now - t >? 5 * second | None => false end.

(** [mIsFinished]: stops at the first unfinished task, which it takes back if it
    was handed out too long ago. *)
Fixpoint mIsFinished (order : list string) (now : Z) (m : Master) : Master :=
  match order with
  | [] => set_mdone m
  | i :: order =>
      let v := default 0 (mmap m !! i) in
      if negb (v =? 2) then
        if (v =? 1) && expired (default None (mstart m !! i)) now then set_mtask i (-1) None m else m
      else mIsFinished order now m
  end.

(** [rIsFinished]: the same over [rtask], from index [i] on. *)
Fixpoint rIsFinished_loop (tasks : list Z) (i : Z) (now : Z) (m : Master) : option Master :=
  match tasks with
  | [] => Some (set_rdone m)
  | v :: tasks =>
      if negb (v =? 2) then
        if v =? 1 then
          t ← (rstart m).[i];
          if expired t now then
            tl ← (rtask m).[i <- -1]; sl ← (rstart m).[i <- None];
            Some (set_rstart sl (set_rtask tl m))
          else Some m
        else Some m
      else rIsFinished_loop tasks (i + 1) now m
  end.

Definition rIsFinished (now : Z) (m : Master) : option Master := rIsFinished_loop (rtask m) 0 now m.

(** The map phase of [GiveTask]: the first task not started, if any. *)
Fixpoint give_map (order : list string) (now : Z) (reply : MrReply) (m : Master) : option (Master * MrReply) :=
  match order with
  | [] => None
  | i :: order =>
      if default 0 (mmap m !! i) =? -1 then
        Some (set_mtask i 1 (Some now) m,
              mkMrReply i (NReduce m) (r_WorkerId reply) (r_TaskId reply) 1 (default 0 (f2id m !! i)))
      else give_map order now reply m
  end.

(** The reduce phase: the index of the first task not started. *)
Fixpoint first_idle (tasks : list Z) (i : Z) : option Z :=
  match tasks with
  | [] => None
  | v :: tasks => if v =? -1 then Some i else first_idle tasks (i + 1)
  end.

Definition empty_reply : MrReply := mkMrReply "" 0 0 0 0 0.

(** [order1] is the order of the loop of [GiveTask], [order2] that of
    [mIsFinished]. *)
Definition GiveTask (order1 order2 : list string) (now : Z) (args : MrArgs) (m : Master) :
    option (Master * MrReply) :=
  let '(m, reply) :=
    if a_WorkerId args =? 0
    then (set_nextId (nextId m + 1) m, mkMrReply "" 0 (nextId m) 0 0 0)
    else (m, empty_reply) in
  if negb (mdone m) then
    match give_map order1 now reply m with
    | Some r => Some r
    | None => Some (mIsFinished order2 now m, reply)
    end
  else if mdone m && negb (rdone m) then
    match first_idle (rtask m) 0 with
    | Some i =>
        sl ← (rstart m).[i <- Some now]; tl ← (rtask m).[i <- 1];
        Some (set_rtask tl (set_rstart sl m),
              mkMrReply (r_TaskName reply) (NReduce m) (r_WorkerId reply) i 2 (r_MapId reply))
    | None => m ← rIsFinished now m; Some (m, reply)
    end
  else Some (m, reply).

Definition Done (m : Master) : bool := mdone m && rdone m.

(** ** The coordinator as a transition system *)

Definition key_order (m : Master) (order : list string) : Prop := order ≡ₚ elements (dom (mmap m)).

Inductive step : Master → Master → Prop :=
| step_give order1 order2 now args m m' reply :
    key_order m order1 → key_order m order2 → GiveTask order1 order2 now args m = Some (m', reply) → step m m'
| step_finish args m m' : TaskFinish args m = Some m' → step m m'.

(** ** The worker's side of the protocol *)

Inductive action := DoMap (reply : MrReply) | DoReduce (reply : MrReply) | Wait | Exit | Fatal.

(** One pass of the loop of [Worker]: the new id, what is executed, and the
    arguments of [CallforTaskFinish] sent after it.  [None] is a failed call. *)
Definition Worker_step (id : Z) (reply : option MrReply) : Z * action * option MrArgs :=
  match reply with
  | None => (id, Exit, None)
  | Some reply =>
      if (id =? 0) && (r_WorkerId reply =? 0) then (id, Fatal, None)
      else
        let id := if id =? 0 then r_WorkerId reply else id in
        if negb (bool_decide (r_TaskName reply = "")) && (r_TaskType reply =? 1) then
          (id, DoMap reply, Some (mkMrArgs 1 (r_TaskName reply) 0 0))
        else if r_TaskType reply =? 2 then (id, DoReduce reply, Some (mkMrArgs 2 "" 0 (r_TaskId reply)))
        else (id, Wait, None)
  end.

Definition CallforTask (id : Z) : MrArgs := mkMrArgs 0 "" id 0.

(** One round of a single worker that does not fail: ask, execute, report.  The
    iteration order is given by [order] and the time by [now]. *)
Definition round (order : Master → list string) (now : Z) (s : Z * Master) : option (Z * Master * list action) :=
  let '(id, m) := s in
  '(m, reply) ← GiveTask (order m) (order m) now (CallforTask id) m;
  let '(id, act, finish) := Worker_step id (Some reply) in
  match finish with
  | Some args => m ← TaskFinish args m; Some (id, m, [act])
  | None => Some (id, m, [act])
  end.

Fixpoint rounds (order : Master → list string) (now : nat → Z) (k : nat) (s : Z * Master) :
    option (Z * Master * list action) :=
  match k with
  | O => Some (s, [])
  | S k =>
      '(s, acts) ← round order (now k) s; '(s, acts') ← rounds order now k s; Some (s, acts ++ acts')
  end.

End Mr.
