(* ===== verification/MrProof.v ===== *)
(** Properties of the MapReduce coordinator (Mr.v): its invariant, what each
    handler does, and that a job ends. *)

From S2P Require Import Prelude GoStd Mr.

#[local] Open Scope Z_scope.
#[local] Open Scope go_scope.

Module MrProof.
Export Mr.

Implicit Types (m : Master) (i : string).

(** ** The invariant *)

Definition status (v : Z) : Prop := v = -1 ∨ v = 1 ∨ v = 2.

Record wf m : Prop := {
  wf_len : List.length (rstart m) = List.length (rtask m);
  wf_nred : zlen (rtask m) = NReduce m;
  wf_id : 1 <= nextId m;
  wf_map : ∀ i v, mmap m !! i = Some v → status v;
  wf_red : ∀ v, v ∈ rtask m → status v;
  wf_mstart : ∀ i, mmap m !! i = Some 1 → ∃ t, mstart m !! i = Some (Some t);
  wf_rstart : ∀ k, rtask m !! k = Some 1 → ∃ t, rstart m !! k = Some (Some t);
  wf_mdone : mdone m = true → ∀ i v, mmap m !! i = Some v → v = 2;
  wf_rdone : rdone m = true → mdone m = true ∧ ∀ v, v ∈ rtask m → v = 2;
  wf_rphase : mdone m = false → ∀ v, v ∈ rtask m → v ≠ 1;
}.

(** ** What [GiveTask] does *)

(** The worker id it hands out, and the state after that. *)
Definition given_id (args : MrArgs) m : Z := if a_WorkerId args =? 0 then nextId m else 0.
Definition with_id (args : MrArgs) m : Master :=
  if a_WorkerId args =? 0 then set_nextId (nextId m + 1) m else m.

Definition map_reply args m i : MrReply :=
  mkMrReply i (NReduce m) (given_id args m) 0 1 (default 0 (f2id m !! i)).
Definition reduce_reply args m (k : nat) : MrReply :=
  mkMrReply "" (NReduce m) (given_id args m) (Z.of_nat k) 2 0.
Definition no_task args m : MrReply := mkMrReply "" 0 (given_id args m) 0 0 0.

Definition set_rtask_at (k : nat) (v : Z) (t : time) m : Master :=
  set_rstart (<[k := t]> (rstart m)) (set_rtask (<[k := v]> (rtask m)) m).

(** The branches of [GiveTask]. *)
Inductive give_result (now : Z) (args : MrArgs) m : Master → MrReply → Prop :=
| gr_map i :
    mdone m = false → mmap m !! i = Some (-1) →
    give_result now args m (set_mtask i 1 (Some now) (with_id args m)) (map_reply args m i)
| gr_map_done :
    mdone m = false → (∀ i v, mmap m !! i = Some v → v = 2) →
    give_result now args m (set_mdone (with_id args m)) (no_task args m)
| gr_map_retry i t :
    mdone m = false → (∀ j, mmap m !! j ≠ Some (-1)) →
    mmap m !! i = Some 1 → mstart m !! i = Some (Some t) → 5 * second < now - t →
    give_result now args m (set_mtask i (-1) None (with_id args m)) (no_task args m)
| gr_map_wait i t :
    mdone m = false → (∀ j, mmap m !! j ≠ Some (-1)) → mmap m !! i = Some 1 →
    mstart m !! i = Some (Some t) → now - t <= 5 * second →
    give_result now args m (with_id args m) (no_task args m)
| gr_reduce k :
    mdone m = true → rdone m = false → rtask m !! k = Some (-1) → (∀ j, (j < k)%nat → rtask m !! j ≠ Some (-1)) →
    give_result now args m (set_rtask_at k 1 (Some now) (with_id args m)) (reduce_reply args m k)
| gr_reduce_done :
    mdone m = true → rdone m = false → (∀ v, v ∈ rtask m → v = 2) →
    give_result now args m (set_rdone (with_id args m)) (no_task args m)
| gr_reduce_retry k t :
    mdone m = true → rdone m = false → (∀ v, v ∈ rtask m → v ≠ -1) →
    rtask m !! k = Some 1 → rstart m !! k = Some (Some t) → 5 * second < now - t →
    give_result now args m (set_rtask_at k (-1) None (with_id args m)) (no_task args m)
| gr_reduce_wait k t :
    mdone m = true → rdone m = false → (∀ v, v ∈ rtask m → v ≠ -1) → rtask m !! k = Some 1 →
    rstart m !! k = Some (Some t) → now - t <= 5 * second →
    give_result now args m (with_id args m) (no_task args m)
| gr_done :
    mdone m = true → rdone m = true → give_result now args m (with_id args m) (no_task args m).

Lemma with_id_fields args m :
  mmap (with_id args m) = mmap m ∧ rtask (with_id args m) = rtask m ∧ NReduce (with_id args m) = NReduce m ∧
  mdone (with_id args m) = mdone m ∧ rdone (with_id args m) = rdone m ∧ f2id (with_id args m) = f2id m ∧
  mstart (with_id args m) = mstart m ∧ rstart (with_id args m) = rstart m.
Proof. unfold with_id. by destruct (_ =? _). Qed.

Lemma with_id_wf args m : wf m → wf (with_id args m).
Proof.
  unfold with_id. destruct (_ =? _); [|done]. intros [? ? ? ? ? ? ? ? ? ?]. constructor; simpl; try done. lia.
Qed.

Lemma key_order_elem m order i : key_order m order → i ∈ order ↔ is_Some (mmap m !! i).
Proof. intros ->. by rewrite elem_of_elements, elem_of_dom. Qed.

(** The loop of the map phase. *)
Lemma give_map_spec order now reply m :
  match give_map order now reply m with
  | Some (m', reply') => ∃ i, i ∈ order ∧ mmap m !! i = Some (-1) ∧ m' = set_mtask i 1 (Some now) m ∧
      reply' = mkMrReply i (NReduce m) (r_WorkerId reply) (r_TaskId reply) 1 (default 0 (f2id m !! i))
  | None => ∀ i, i ∈ order → mmap m !! i ≠ Some (-1)
  end.
Proof.
  induction order as [|i order IH]; simpl; [by intros i ?%not_elem_of_nil|].
  destruct (Z.eqb_spec (default 0 (mmap m !! i)) (-1)) as [He|He].
  - exists i. split_and!; [left| |done|done]. destruct (mmap m !! i); simpl in He; [by subst|lia].
  - destruct (give_map order now reply m) as [[m' reply']|].
    + destruct IH as (j & ? & ?). exists j. split; [by right|done].
    + intros j [->|Hj]%elem_of_cons; [|by apply IH]. intros Hm. by rewrite Hm in He.
Qed.

Lemma mIsFinished_spec order now m :
  (∀ i, i ∈ order → ∃ v, mmap m !! i = Some v ∧ status v ∧ v ≠ -1) →
  (∀ i, mmap m !! i = Some 1 → ∃ t, mstart m !! i = Some (Some t)) →
  ((∀ i, i ∈ order → mmap m !! i = Some 2) ∧ mIsFinished order now m = set_mdone m) ∨
  (∃ i t, i ∈ order ∧ mmap m !! i = Some 1 ∧ mstart m !! i = Some (Some t) ∧ now - t <= 5 * second ∧
     mIsFinished order now m = m) ∨
  (∃ i t, i ∈ order ∧ mmap m !! i = Some 1 ∧ mstart m !! i = Some (Some t) ∧ 5 * second < now - t ∧
     mIsFinished order now m = set_mtask i (-1) None m).
Proof.
  intros Hs Ht. induction order as [|i order IH]; simpl.
  { left. split; [by intros i ?%not_elem_of_nil|done]. }
  destruct (Hs i) as (v & Hv & Hst & Hne); [left|]. rewrite Hv. simpl.
  destruct (Z.eqb_spec v 2) as [->|Hv2]; simpl.
  - destruct IH as [[H1 H2]|[(j & t & ? & ?)|(j & t & ? & ?)]].
    + intros j Hj. apply Hs. by right.
    + left. split; [|done]. intros j [->|Hj]%elem_of_cons; auto.
    + right. left. exists j, t. split; [by right|done].
    + right. right. exists j, t. split; [by right|done].
  - destruct Hst as [->|[->| ->]]; [done| |done]. simpl. destruct (Ht i Hv) as (t & Hst). rewrite Hst. simpl.
    rewrite Z.gtb_ltb. destruct (Z.ltb_spec (5 * second) (now - t)).
    + right. right. exists i, t. split; [left|done].
    + right. left. exists i, t. split_and!; [left|done..].
Qed.

Lemma first_idle_spec tasks (a : Z) :
  match first_idle tasks a with
  | Some z => ∃ k, z = a + Z.of_nat k ∧ tasks !! k = Some (-1) ∧ ∀ j, (j < k)%nat → tasks !! j ≠ Some (-1)
  | None => ∀ v, v ∈ tasks → v ≠ -1
  end.
Proof.
  revert a. induction tasks as [|v tasks IH]; intros a; simpl; [by intros v ?%not_elem_of_nil|].
  destruct (Z.eqb_spec v (-1)) as [->|Hv].
  - exists 0%nat. split_and!; [lia|done|lia].
  - specialize (IH (a + 1)). destruct (first_idle tasks (a + 1)) as [z|].
    + destruct IH as (k & -> & Hk & Hmin). exists (S k). split_and!; [lia|done|].
      intros [|j] Hj; simpl; [congruence|]. apply Hmin. lia.
    + intros w [->|Hw]%elem_of_cons; auto.
Qed.

Lemma zupdate_nat {A} (l : list A) (k : nat) x : (k < List.length l)%nat → l.[Z.of_nat k <- x] = Some (<[k := x]> l).
Proof.
  intros Hk. unfold zupdate, zlen. rewrite Nat2Z.id.
  by rewrite (proj2 (Z.leb_le _ _)), (proj2 (Z.ltb_lt _ _)) by lia.
Qed.

Lemma rIsFinished_spec now m :
  wf m → (∀ v, v ∈ rtask m → v ≠ -1) →
  ((∀ v, v ∈ rtask m → v = 2) ∧ rIsFinished now m = Some (set_rdone m)) ∨
  (∃ k t, rtask m !! k = Some 1 ∧ rstart m !! k = Some (Some t) ∧ now - t <= 5 * second ∧ rIsFinished now m = Some m) ∨
  (∃ k t, rtask m !! k = Some 1 ∧ rstart m !! k = Some (Some t) ∧ 5 * second < now - t ∧
     rIsFinished now m = Some (set_rtask_at k (-1) None m)).
Proof.
  intros Hwf Hne. unfold rIsFinished.
  enough (∀ tasks pre, rtask m = pre ++ tasks →
    ((∀ v, v ∈ tasks → v = 2) ∧ rIsFinished_loop tasks (zlen pre) now m = Some (set_rdone m)) ∨
    (∃ k t, rtask m !! k = Some 1 ∧ rstart m !! k = Some (Some t) ∧ now - t <= 5 * second ∧
       rIsFinished_loop tasks (zlen pre) now m = Some m) ∨
    (∃ k t, rtask m !! k = Some 1 ∧ rstart m !! k = Some (Some t) ∧ 5 * second < now - t ∧
       rIsFinished_loop tasks (zlen pre) now m = Some (set_rtask_at k (-1) None m))) as Hloop.
  { by apply (Hloop (rtask m) []). }
  induction tasks as [|v tasks IH]; intros pre Hpre; simpl.
  { left. split; [by intros v ?%not_elem_of_nil|done]. }
  assert (rtask m !! List.length pre = Some v) as Hv by by rewrite Hpre, list_lookup_middle.
  pose proof (list_elem_of_lookup_2 _ _ _ Hv) as Hin.
  destruct (Z.eqb_spec v 2) as [->|Hv2]; simpl.
  - specialize (IH (pre ++ [2])). rewrite zlen_app in IH. change (zlen [2]) with 1 in IH.
    destruct IH as [[H1 H2]|[(j & t & ?)|(j & t & ?)]]; [by rewrite <-app_assoc| | |].
    + left. split; [|done]. intros w [->|Hw]%elem_of_cons; auto.
    + right. left. by exists j, t.
    + right. right. by exists j, t.
  - assert (v = 1) as -> by (destruct (wf_red _ Hwf v Hin) as [?|[?|?]]; [by specialize (Hne v Hin)|done|done]).
    simpl. destruct (wf_rstart _ Hwf _ Hv) as (t & Hst). assert ((rstart m).[zlen pre] = Some (Some t)) as -> by (unfold zlen; by rewrite zlookup_nat).
    simpl. rewrite Z.gtb_ltb. destruct (Z.ltb_spec (5 * second) (now - t)).
    + right. right. exists (List.length pre), t. split_and!; [done..|].
      pose proof (lookup_lt_Some _ _ _ Hst). pose proof (lookup_lt_Some _ _ _ Hv). unfold zlen.
      by rewrite !zupdate_nat by done.
    + right. left. by exists (List.length pre), t.
Qed.

Lemma GiveTask_spec order1 order2 now args m :
  wf m → key_order m order1 → key_order m order2 →
  ∃ m' reply, GiveTask order1 order2 now args m = Some (m', reply) ∧ give_result now args m m' reply.
Proof.
  intros Hwf Ho1 Ho2. unfold GiveTask.
  assert ((if a_WorkerId args =? 0 then (set_nextId (nextId m + 1) m, mkMrReply "" 0 (nextId m) 0 0 0)
           else (m, empty_reply)) = (with_id args m, no_task args m)) as ->.
  { unfold with_id, no_task, given_id. by destruct (_ =? 0). }
  pose proof (with_id_wf args m Hwf) as Hwf1.
  destruct (with_id_fields args m) as (Em & Er & En & Emd & Erd & Ef & Ems & Ers).
  rewrite Emd, Erd. destruct (mdone m) eqn:Hmd; simpl; [destruct (rdone m) eqn:Hrd; simpl|].
  - eexists _, _. split; [done|]. by apply gr_done.
  - pose proof (first_idle_spec (rtask (with_id args m)) 0) as Hf. destruct (first_idle _ _) as [z|].
    + destruct Hf as (k & -> & Hk & Hmin). rewrite Z.add_0_l.
      pose proof (lookup_lt_Some _ _ _ Hk) as Hlt. pose proof (wf_len _ Hwf1) as Hl.
      rewrite !zupdate_nat by (simpl; lia). simpl. eexists _, _. split; [done|].
      rewrite Er in Hk, Hmin. rewrite En. by apply (gr_reduce now args m k).
    + destruct (rIsFinished_spec now _ Hwf1 Hf) as [[H1 ->]|[(k & t & H1 & H2 & H3 & ->)|(k & t & H1 & H2 & H3 & ->)]];
        simpl; eexists _, _; (split; [done|]); rewrite ?Er, ?Ers in *.
      * by apply gr_reduce_done.
      * by apply (gr_reduce_wait now args m k t).
      * by apply (gr_reduce_retry now args m k t).
  - pose proof (give_map_spec order1 now (no_task args m) (with_id args m)) as Hg.
    destruct (give_map _ _ _ _) as [[m' reply']|].
    + destruct Hg as (i & _ & Hi & -> & ->). rewrite Em in Hi. eexists _, _. split; [done|].
      rewrite En, Ef. by apply gr_map.
    + rewrite Em in Hg.
      assert (∀ j, mmap m !! j ≠ Some (-1)) as Hno.
      { intros j Hj. apply (Hg j); [|done]. apply (key_order_elem m); [done|]. by rewrite Hj. }
      destruct (mIsFinished_spec order2 now (with_id args m)) as [[H1 ->]|[(i & t & H0 & H1 & H2 & H3 & ->)|(i & t & H0 & H1 & H2 & H3 & ->)]];
        rewrite ?Em, ?Ems in *; try (eexists _, _; split; [done|]).
      * intros i Hi. apply (key_order_elem m) in Hi as [v Hv]; [|done]. exists v. split_and!; [done| |].
        -- apply (wf_map m Hwf i v Hv).
        -- intros ->. by apply (Hno i).
      * apply Hwf.
      * apply gr_map_done; [done|]. intros i v Hv.
        assert (mmap m !! i = Some 2) as Hi2 by (apply H1, (key_order_elem m); [done|by rewrite Hv]). congruence.
      * by apply (gr_map_wait now args m i t).
      * by apply (gr_map_retry now args m i t).
Qed.

(** ** The handlers keep the invariant *)

Lemma set_mtask_wf i v t m :
  wf m → mdone m = false → v = -1 ∨ v = 1 → (v = 1 → is_Some t) → wf (set_mtask i v t m).
Proof.
  intros [? ? ? Hmap ? Hst ? ? ? Hph] Hmd Hv Ht. constructor; simpl; try done; try congruence.
  - intros j w. destruct (decide (i = j)) as [->|].
    + rewrite lookup_insert_eq. intros [= <-]. unfold status. tauto.
    + rewrite lookup_insert_ne by done. apply Hmap.
  - intros j. destruct (decide (i = j)) as [->|].
    + rewrite !lookup_insert_eq. intros [= ->]. destruct Ht as [u ->]; [done|]. by exists u.
    + rewrite !lookup_insert_ne by done. apply Hst.
Qed.

Lemma set_rtask_at_wf k v t m :
  wf m → mdone m = true → rdone m = false → v = -1 ∨ v = 1 → (v = 1 → is_Some t) → wf (set_rtask_at k v t m).
Proof.
  intros [Hl Hn ? ? Hred ? Hst ? ? ?] Hmd Hrd Hv Ht. constructor; simpl; try done; try congruence.
  - by rewrite !length_insert.
  - by rewrite <-Hn; unfold zlen; rewrite length_insert.
  - intros w (j & Hj)%list_elem_of_lookup. apply list_lookup_insert_Some in Hj as [(_ & <- & _)|[_ Hj]].
    + unfold status. tauto.
    + by apply Hred, list_elem_of_lookup; exists j.
  - intros j Hj. apply list_lookup_insert_Some in Hj as [(<- & -> & Hlt)|[Hne Hj]].
    + destruct Ht as [u ->]; [done|]. exists u. apply list_lookup_insert_eq. lia.
    + rewrite list_lookup_insert_ne by done. by apply Hst.
Qed.

Lemma give_result_wf now args m m' reply : wf m → give_result now args m m' reply → wf m'.
Proof.
  intros Hwf Hr. pose proof (with_id_wf args m Hwf) as Hw.
  destruct (with_id_fields args m) as (Em & Er & En & Emd & Erd & _ & Ems & Ers).
  destruct Hr; try done.
  1, 3: by apply set_mtask_wf; rewrite ?Emd; eauto.
  2, 4: by apply set_rtask_at_wf; rewrite ?Emd, ?Erd; eauto.
  - destruct Hw as [? ? ? ? ? ? ? ? Hrd ?]. constructor; simpl; try done; rewrite ?Em; try done.
    intros Hd. by destruct (Hrd Hd).
  - destruct Hw. constructor; simpl; try done; rewrite ?Er; try done. split; [congruence|done].
Qed.

Lemma TaskFinish_wf args m m' : wf m → TaskFinish args m = Some m' → wf m'.
Proof.
  unfold TaskFinish. intros Hwf. destruct (_ =? 1).
  { intros [= <-]. destruct Hwf as [? ? ? Hmap ? Hst ? Hmd ? ?]. constructor; simpl; try done.
    - intros j w. rewrite lookup_insert_Some. intros [[_ <-]|[_ ?]]; [unfold status; tauto|eauto].
    - intros j. rewrite lookup_insert_Some. intros [[_ ?]|[_ ?]]; [done|eauto].
    - intros Hm j w. rewrite lookup_insert_Some. intros [[_ <-]|[_ ?]]; [done|eauto]. }
  destruct (_ =? 2); [|by intros [= <-]].
  intros (l & [Hr ->]%zupdate_Some & [= <-])%bind_Some.
  destruct Hwf as [Hl Hn ? ? Hred ? Hst ? Hrd Hph]. set (k := Z.to_nat (a_TaskId args)) in *.
  assert (∀ P : Z → Prop, P 2 → (∀ v, v ∈ rtask m → P v) → ∀ v, v ∈ <[k := 2]> (rtask m) → P v) as HP.
  { intros P H2 HP v (j & Hj)%list_elem_of_lookup. apply list_lookup_insert_Some in Hj as [(_ & <- & _)|[_ Hj]]; [done|].
    apply HP, list_elem_of_lookup. by exists j. }
  constructor; simpl; try done.
  - by rewrite length_insert.
  - by rewrite <-Hn; unfold zlen; rewrite length_insert.
  - apply HP; [unfold status; tauto|done].
  - intros j [(_ & ? & _)|[_ Hj]]%list_lookup_insert_Some; [done|]. by apply Hst.
  - intros Hm. destruct (Hrd Hm) as [? Hall]. split; [done|]. by apply (HP (λ v, v = 2)).
  - intros Hm. apply (HP (λ v, v ≠ 1)); [done|]. by apply Hph.
Qed.

Lemma foldl_insert_lookup (files : list string) (v : Z) (mm : gmap string Z) i w :
  foldl (λ mm f, <[f := v]> mm) mm files !! i = Some w → w = v ∨ mm !! i = Some w.
Proof.
  revert mm. induction files as [|f files IH]; intros mm; simpl; [auto|].
  intros [->|[[_ <-]|[_ H]]%lookup_insert_Some]%IH; auto.
Qed.

Lemma foldl_insert_dom (files : list string) (v : Z) (mm : gmap string Z) :
  dom (foldl (λ mm f, <[f := v]> mm) mm files) = dom mm ∪ list_to_set files.
Proof.
  revert mm. induction files as [|f files IH]; intros mm; simpl; [set_solver|]. rewrite IH, dom_insert_L. set_solver.
Qed.

Lemma MakeMaster_wf files nReduce m : MakeMaster files nReduce = Some m → wf m.
Proof.
  unfold MakeMaster. destruct (Z.ltb_spec nReduce 0); [done|]. intros [= <-].
  assert (∀ i v, foldl (λ (mm : gmap string Z) f, <[f := -1]> mm) ∅ files !! i = Some v → v = -1) as Hm.
  { intros i v [->|?]%foldl_insert_lookup; [done|]. by rewrite lookup_empty in *. }
  constructor; simpl; try done.
  - by rewrite !length_replicate.
  - unfold zlen. rewrite length_replicate. lia.
  - intros i v ->%Hm. unfold status. tauto.
  - intros v [-> _]%elem_of_replicate. unfold status. tauto.
  - intros i Hi. by apply Hm in Hi.
  - intros k [? _]%lookup_replicate. done.
  - intros _ v [-> _]%elem_of_replicate. done.
Qed.

(** ** Progress is never lost *)

Record keeps m m' : Prop := {
  kp_map : ∀ i, mmap m !! i = Some 2 → mmap m' !! i = Some 2;
  kp_red : ∀ k, rtask m !! k = Some 2 → rtask m' !! k = Some 2;
  kp_mdone : mdone m = true → mdone m' = true;
  kp_rdone : rdone m = true → rdone m' = true;
  kp_id : nextId m <= nextId m';
}.

Lemma give_result_keeps now args m m' reply : wf m → give_result now args m m' reply → keeps m m'.
Proof.
  intros Hwf Hr. destruct (with_id_fields args m) as (Em & Er & En & Emd & Erd & _ & Ems & Ers).
  assert (nextId m <= nextId (with_id args m)) as Hid by (unfold with_id; destruct (_ =? _); simpl; lia).
  destruct Hr; constructor; simpl; rewrite ?Em, ?Er, ?Emd, ?Erd; try done.
  - intros j Hj. rewrite lookup_insert_ne by congruence. done.
  - intros j Hj. rewrite lookup_insert_ne by congruence. done.
  - intros j Hj. rewrite list_lookup_insert_ne by congruence. done.
  - intros j Hj. rewrite list_lookup_insert_ne by congruence. done.
Qed.

Lemma TaskFinish_keeps args m m' : TaskFinish args m = Some m' → keeps m m'.
Proof.
  unfold TaskFinish. destruct (_ =? 1).
  { intros [= <-]. constructor; simpl; try done. intros i Hi. rewrite lookup_insert_Some.
    destruct (decide (a_TaskName args = i)); auto. }
  destruct (_ =? 2); [|by intros [= <-]].
  intros (l & [Hr ->]%zupdate_Some & [= <-])%bind_Some. constructor; simpl; try done.
  intros k Hk. destruct (decide (k = Z.to_nat (a_TaskId args))) as [->|].
  - apply list_lookup_insert_eq. by eapply lookup_lt_Some.
  - by rewrite list_lookup_insert_ne.
Qed.

Lemma step_keeps m m' : wf m → step m m' → wf m' ∧ keeps m m'.
Proof.
  intros Hwf Hs. destruct Hs as [order1 order2 now args m m2 reply Ho1 Ho2 Hg|args m m2 Hf].
  - destruct (GiveTask_spec order1 order2 now args m Hwf Ho1 Ho2) as (m3 & reply3 & Hg3 & Hr).
    rewrite Hg in Hg3. injection Hg3 as <- <-. split; [by eapply give_result_wf|by eapply give_result_keeps].
  - split; [by eapply TaskFinish_wf|by eapply TaskFinish_keeps].
Qed.

Lemma keeps_trans m1 m2 m3 : keeps m1 m2 → keeps m2 m3 → keeps m1 m3.
Proof. intros [] []. constructor; eauto; lia. Qed.

Lemma steps_keeps m m' : wf m → rtc step m m' → wf m' ∧ keeps m m'.
Proof.
  intros Hwf Hs. induction Hs as [|m1 m2 m3 H12 _ IH]; [done|].
  destruct (step_keeps _ _ Hwf H12) as [Hwf2 Hk]. destruct (IH Hwf2) as [? ?]. split; [done|]. by eapply keeps_trans.
Qed.

End MrProof.
