(* ===== verification/MrJob.v ===== *)
(** A MapReduce job ends: one worker that does not fail receives every map task
    once, then every reduce task once, in as many rounds as there are tasks plus
    one per phase. *)

From S2P Require Import Prelude GoStd Mr MrProof.

#[local] Open Scope Z_scope.
#[local] Open Scope go_scope.

Module MrJob.
Export MrProof.

Section job.
Context (order : Master → list string) (Horder : ∀ m, key_order m (order m)).

Implicit Types (m : Master) (i : string) (acts : list action).

(** What the worker is told for the map task [i], and for the reduce task [k]. *)
Definition map_action (n : Z) (ids : gmap string Z) i (a : action) : Prop :=
  ∃ r, a = DoMap r ∧ r_TaskName r = i ∧ r_TaskType r = 1 ∧ r_NReduce r = n ∧ r_MapId r = default 0 (ids !! i).
Definition reduce_action (n : Z) (k : nat) (a : action) : Prop :=
  ∃ r, a = DoReduce r ∧ r_TaskId r = Z.of_nat k ∧ r_TaskType r = 2 ∧ r_NReduce r = n.

Lemma worker_id id m :
  wf m → 0 <= id → let args := CallforTask id in
  (id =? 0) && (given_id args m =? 0) = false ∧ 0 < (if id =? 0 then given_id args m else id).
Proof.
  intros Hwf Hid. unfold given_id. simpl. pose proof (wf_id _ Hwf).
  destruct (Z.eqb_spec id 0); simpl; [|lia]. split; [apply Z.eqb_neq|]; lia.
Qed.

(** ** The map phase *)

Definition todo m : gset string := dom (filter (λ x, x.2 = -1) (mmap m)).

Lemma elem_of_todo m i : i ∈ todo m ↔ mmap m !! i = Some (-1).
Proof.
  unfold todo. rewrite elem_of_dom. split.
  - intros [v [Hv He]%map_lookup_filter_Some]. simpl in He. congruence.
  - intros Hi. exists (-1). by apply map_lookup_filter_Some.
Qed.

(** No task is in the hands of another worker. *)
Definition idle m : Prop := (∀ i, mmap m !! i ≠ Some 1) ∧ mmap m !! "" = None.

(** The fields a round of the map phase leaves alone. *)
Definition same_job m m' : Prop :=
  rtask m' = rtask m ∧ NReduce m' = NReduce m ∧ f2id m' = f2id m ∧ rdone m' = rdone m.

Lemma map_round now id m :
  wf m → idle m → mdone m = false → 0 <= id →
  ∃ id' m' a, round order now (id, m) = Some (id', m', [a]) ∧ wf m' ∧ 0 < id' ∧ same_job m m' ∧
    ((∃ i, i ∈ todo m ∧ todo m' = todo m ∖ {[i]} ∧ idle m' ∧ mdone m' = false ∧
        map_action (NReduce m) (f2id m) i a) ∨
     (todo m = ∅ ∧ mdone m' = true ∧ a = Wait)).
Proof.
  intros Hwf [Hidle Hempty] Hmd Hid. unfold round. set (args := CallforTask id).
  destruct (GiveTask_spec (order m) (order m) now args m Hwf (Horder m) (Horder m)) as (m1 & reply & -> & Hr).
  pose proof (give_result_wf _ _ _ _ _ Hwf Hr) as Hwf1. destruct (worker_id id m Hwf Hid) as [Hb Hpos]. fold args in Hb, Hpos.
  destruct (with_id_fields args m) as (Em & Er & En & Emd & Erd & Ef & _).
  inversion Hr; subst; try congruence; simpl; fold args; rewrite Hb.
  - assert (i ≠ "") as Hne by congruence. rewrite bool_decide_false by done. simpl.
    eexists _, _, _. split; [done|]. split; [|split_and!; [done|done|]].
    { by apply (TaskFinish_wf (mkMrArgs 1 i 0 0) _ _ Hwf1). }
    left. exists i. split; [by apply elem_of_todo|]. split; [|split; [split|split; [by rewrite <-Emd in H|by eexists]]].
    + apply set_eq. intros j. rewrite elem_of_difference, elem_of_singleton, !elem_of_todo. simpl.
      rewrite Em. destruct (decide (j = i)) as [->|Hji].
      * rewrite lookup_insert_eq. naive_solver.
      * rewrite !lookup_insert_ne by done. tauto.
    + intros j. simpl. rewrite Em. destruct (decide (j = i)) as [->|Hji].
      * by rewrite lookup_insert_eq.
      * rewrite !lookup_insert_ne by done. apply Hidle.
    + simpl. by rewrite Em, !lookup_insert_ne.
  - eexists _, _, _. split; [done|]. split; [done|]. split; [done|]. split; [done|]. right.
    split_and!; [|done|done]. apply set_eq. intros i. rewrite elem_of_todo. split; [|done].
    intros Hi. by apply H0 in Hi.
Qed.

Lemma rounds_app now k1 k2 s :
  rounds order now (k1 + k2) s =
    ('(s1, a1) ← rounds order (λ j, now (j + k2)%nat) k1 s; '(s2, a2) ← rounds order now k2 s1; Some (s2, a1 ++ a2)).
Proof.
  revert s. induction k1 as [|k1 IH]; intros s; simpl.
  { destruct (rounds order now k2 s) as [[s2 a2]|]; done. }
  destruct (round order _ s) as [[s1 a1]|]; simpl; [|done]. rewrite IH.
  destruct (rounds order _ k1 s1) as [[s2 a2]|]; simpl; [|done].
  destruct (rounds order now k2 s2) as [[s3 a3]|]; simpl; [|done]. by rewrite app_assoc.
Qed.

Lemma rounds_app_Some now k1 k2 s s1 s2 a1 a2 :
  rounds order (λ j, now (j + k2)%nat) k1 s = Some (s1, a1) → rounds order now k2 s1 = Some (s2, a2) →
  rounds order now (k1 + k2) s = Some (s2, a1 ++ a2).
Proof. intros H1 H2. rewrite rounds_app, H1. simpl. by rewrite H2. Qed.

Lemma rounds_cons now k s s1 s2 a acts :
  round order (now k) s = Some (s1, a) → rounds order now k s1 = Some (s2, acts) →
  rounds order now (S k) s = Some (s2, a ++ acts).
Proof. intros H1 H2. cbn [rounds]. rewrite H1. simpl. by rewrite H2. Qed.

Lemma map_phase now k id m :
  wf m → idle m → mdone m = false → 0 <= id → size (todo m) = k →
  ∃ id' m' l acts, rounds order now (S k) (id, m) = Some ((id', m'), acts ++ [Wait]) ∧ wf m' ∧ 0 < id' ∧
    same_job m m' ∧ mdone m' = true ∧ l ≡ₚ elements (todo m) ∧ Forall2 (map_action (NReduce m) (f2id m)) l acts.
Proof.
  revert now id m. induction k as [|k IH]; intros now id m Hwf Hi Hmd Hid Hk.
  - destruct (map_round (now 0%nat) id m Hwf Hi Hmd Hid) as (id' & m' & a & Hr & Hwf' & Hid' & Hs & Hcase).
    destruct Hcase as [(i & Hin & _)|(_ & Hmd' & ->)].
    { apply size_empty_inv in Hk. set_solver. }
    exists id', m', [], []. split; [cbn [rounds]; by rewrite Hr|]. split_and!; try done.
    apply size_empty_inv in Hk. apply leibniz_equiv in Hk. by rewrite Hk, elements_empty.
  - destruct (map_round (now (S k)) id m Hwf Hi Hmd Hid) as (id' & m' & a & Hr & Hwf' & Hid' & Hs & Hcase).
    destruct Hcase as [(i & Hin & Htodo & Hi' & Hmd' & Ha)|(Hnone & _)].
    2: { rewrite Hnone, size_empty in Hk. done. }
    assert (size (todo m') = k) as Hk'.
    { rewrite Htodo, size_difference, size_singleton by set_solver. lia. }
    destruct (IH now id' m' Hwf' Hi' Hmd' (Z.lt_le_incl _ _ Hid') Hk')
      as (id2 & m2 & l & acts & Hrs & Hwf2 & Hid2 & Hs2 & Hmd2 & Hl & Hacts).
    exists id2, m2, (i :: l), (a :: acts).
    split; [by apply (rounds_cons now (S k) _ (id', m') _ [a] (acts ++ [Wait]))|].
    destruct Hs as (E1 & E2 & E3 & E4), Hs2 as (E1' & E2' & E3' & E4').
    split_and!; try done.
    + unfold same_job. split_and!; congruence.
    + rewrite Hl, Htodo. rewrite (union_difference_singleton_L i (todo m)) at 2 by done.
      rewrite elements_union_singleton by set_solver. done.
    + constructor; [done|]. by rewrite <-E2, <-E3.
Qed.

(** ** The reduce phase *)

Definition reduced (j k : nat) m : Prop := rtask m = replicate j 2 ++ replicate k (-1).

Lemma reduced_round j k now id m :
  wf m → mdone m = true → rdone m = false → reduced j (S k) m → 0 <= id →
  ∃ id' m' a, round order now (id, m) = Some (id', m', [a]) ∧ wf m' ∧ 0 < id' ∧ NReduce m' = NReduce m ∧
    mdone m' = true ∧ rdone m' = false ∧ reduced (S j) k m' ∧ reduce_action (NReduce m) j a.
Proof.
  unfold reduced. intros Hwf Hmd Hrd Hred Hid. unfold round. set (args := CallforTask id).
  destruct (GiveTask_spec (order m) (order m) now args m Hwf (Horder m) (Horder m)) as (m1 & reply & -> & Hr).
  pose proof (give_result_wf _ _ _ _ _ Hwf Hr) as Hwf1. destruct (worker_id id m Hwf Hid) as [Hb Hpos]. fold args in Hb, Hpos.
  destruct (with_id_fields args m) as (Em & Er & En & Emd & Erd & Ef & _).
  assert (rtask m !! j = Some (-1)) as Hj.
  { rewrite Hred, lookup_app_r, length_replicate, Nat.sub_diag; [done|by rewrite length_replicate]. }
  pose proof (list_elem_of_lookup_2 _ _ _ Hj) as Hin.
  inversion Hr as [| | | |k' _ _ Hk' Hmin|_ _ Hall|k' t _ _ Hall|k' t _ _ Hall|]; subst; try congruence;
    simpl; fold args; rewrite ?Hb; try (by specialize (Hall _ Hin)).
  assert (k' = j) as ->.
  { destruct (decide (k' < j)%nat) as [Hlt|].
    - rewrite Hred, lookup_app_l, lookup_replicate_2 in Hk' by (rewrite ?length_replicate; lia). done.
    - destruct (decide (j < k')%nat) as [Hlt|]; [by destruct (Hmin j)|lia]. }
  unfold TaskFinish. simpl. rewrite Er.
  assert (j < List.length (rtask m))%nat as Hlt by by eapply lookup_lt_Some.
  rewrite zupdate_nat by by rewrite length_insert. simpl.
  eexists _, _, _. split; [done|]. split; [|split_and!]; simpl; try done; try congruence.
  - apply (TaskFinish_wf (mkMrArgs 2 "" 0 (Z.of_nat j)) _ _ Hwf1). unfold TaskFinish. simpl.
    rewrite Er, zupdate_nat by by rewrite length_insert. done.
  - rewrite list_insert_insert_eq, Hred, insert_app_r_alt, length_replicate, Nat.sub_diag by by rewrite length_replicate.
    simpl. by rewrite (cons_middle 2), app_assoc, <-replicate_cons_app.
  - by eexists.
Qed.

Lemma reduced_last j now id m :
  wf m → mdone m = true → rdone m = false → reduced j 0 m → 0 <= id →
  ∃ id' m', round order now (id, m) = Some (id', m', [Wait]) ∧ wf m' ∧ Done m' = true.
Proof.
  unfold reduced. intros Hwf Hmd Hrd Hred Hid. unfold round. set (args := CallforTask id).
  destruct (GiveTask_spec (order m) (order m) now args m Hwf (Horder m) (Horder m)) as (m1 & reply & -> & Hr).
  pose proof (give_result_wf _ _ _ _ _ Hwf Hr) as Hwf1. destruct (worker_id id m Hwf Hid) as [Hb _]. fold args in Hb.
  destruct (with_id_fields args m) as (Em & Er & En & Emd & Erd & Ef & _).
  rewrite app_nil_r in Hred. assert (∀ k v, rtask m !! k = Some v → v = 2) as H2.
  { intros k v Hk. rewrite Hred in Hk. by apply lookup_replicate in Hk as [-> _]. }
  inversion Hr as [| | | |k' _ _ Hk'|_ _ Hall|k' t _ _ _ Hk'|k' t _ _ _ Hk'|]; subst; try congruence;
    try (by apply H2 in Hk'); simpl; fold args; rewrite Hb.
  eexists _, _. split; [done|]. split; [done|]. unfold Done. simpl. by rewrite Emd, Hmd.
Qed.

Lemma reduce_phase now k j id m :
  wf m → mdone m = true → rdone m = false → reduced j k m → 0 <= id →
  ∃ id' m' acts, rounds order now (S k) (id, m) = Some ((id', m'), acts ++ [Wait]) ∧ wf m' ∧ Done m' = true ∧
    Forall2 (reduce_action (NReduce m)) (seq j k) acts.
Proof.
  revert j id m. induction k as [|k IH]; intros j id m Hwf Hmd Hrd Hred Hid.
  - destruct (reduced_last j (now 0%nat) id m Hwf Hmd Hrd Hred Hid) as (id' & m' & Hr & Hwf' & Hd).
    exists id', m', []. split; [cbn [rounds]; by rewrite Hr|]. by split_and!.
  - destruct (reduced_round j k (now (S k)) id m Hwf Hmd Hrd Hred Hid)
      as (id' & m' & a & Hr & Hwf' & Hid' & Hn & Hmd' & Hrd' & Hred' & Ha).
    destruct (IH (S j) id' m' Hwf' Hmd' Hrd' Hred' (Z.lt_le_incl _ _ Hid')) as (id2 & m2 & acts & Hrs & Hwf2 & Hd & Hacts).
    exists id2, m2, (a :: acts). split; [by apply (rounds_cons now (S k) _ (id', m') _ [a] (acts ++ [Wait]))|].
    split_and!; [done..|]. simpl. rewrite <-Hn. constructor; [by rewrite Hn|done].
Qed.

(** ** The whole job *)

Lemma MakeMaster_todo files nReduce m :
  MakeMaster files nReduce = Some m → "" ∉ files →
  todo m = list_to_set files ∧ idle m ∧ mdone m = false ∧ rdone m = false ∧
  reduced 0 (Z.to_nat nReduce) m ∧ NReduce m = nReduce ∧ f2id m = file_ids files ∧ 0 <= nReduce.
Proof.
  unfold MakeMaster. destruct (Z.ltb_spec nReduce 0); [done|]. intros [= <-] Hne.
  assert (∀ i, foldl (λ (mm : gmap string Z) f, <[f := -1]> mm) ∅ files !! i = Some (-1) ↔ i ∈ files) as Hm.
  { intros i. rewrite <-(elem_of_list_to_set (C := gset string)).
    assert (list_to_set files = dom (foldl (λ (mm : gmap string Z) f, <[f := -1]> mm) ∅ files)) as ->.
    { rewrite foldl_insert_dom. set_solver. }
    rewrite elem_of_dom. split; [by eexists|]. intros [v Hv]. rewrite Hv.
    apply foldl_insert_lookup in Hv as [->|Hv]; [done|]. by rewrite lookup_empty in Hv. }
  split_and!; try done.
  - apply set_eq. intros i. rewrite elem_of_todo, elem_of_list_to_set. apply Hm.
  - split; [intros i Hi; simpl in Hi; apply foldl_insert_lookup in Hi as [?|Hi]; [done|by rewrite lookup_empty in Hi]|].
    simpl. apply eq_None_ne_Some_2. intros v Hv. apply Hne, Hm. rewrite Hv.
    apply foldl_insert_lookup in Hv as [->|Hv]; [done|]. by rewrite lookup_empty in Hv.
Qed.

Lemma job_rounds files nReduce m now :
  MakeMaster files nReduce = Some m → "" ∉ files →
  let n := List.length (remove_dups files) in let r := Z.to_nat nReduce in
  ∃ id' m' names maps reduces,
    rounds order now (S n + S r) (0, m) = Some ((id', m'), (maps ++ [Wait]) ++ (reduces ++ [Wait])) ∧
    Done m' = true ∧ names ≡ₚ remove_dups files ∧
    Forall2 (map_action nReduce (file_ids files)) names maps ∧
    Forall2 (reduce_action nReduce) (seq 0 r) reduces.
Proof.
  intros Hm Hne n r. pose proof (MakeMaster_wf _ _ _ Hm) as Hwf.
  destruct (MakeMaster_todo _ _ _ Hm Hne) as (Htodo & Hi & Hmd & Hrd & Hred & Hn & Hf & Hpos).
  assert (elements (todo m) ≡ₚ remove_dups files) as Hel.
  { apply NoDup_Permutation; [apply NoDup_elements|apply NoDup_remove_dups|].
    intros x. rewrite elem_of_elements, Htodo, elem_of_list_to_set, elem_of_remove_dups. done. }
  assert (size (todo m) = n) as Hsize by (unfold size, set_size; simpl; by rewrite Hel).
  destruct (map_phase (λ j, now (j + S r)%nat) n 0 m Hwf Hi Hmd (Z.le_refl 0) Hsize)
    as (id1 & m1 & names & maps & Hr1 & Hwf1 & Hid1 & (Et & En & _ & Er) & Hmd1 & Hl & Hmaps).
  destruct (reduce_phase now r 0 id1 m1) as (id2 & m2 & reduces & Hr2 & _ & Hd & Hreds);
    [done|done|congruence|by unfold reduced in *; rewrite Et|lia|].
  exists id2, m2, names, maps, reduces. rewrite Hn, Hf in Hmaps. rewrite En, Hn in Hreds.
  split_and!; [|done|by rewrite Hl|done|done].
  by apply (rounds_app_Some now (S n) (S r) (0, m) (id1, m1)).
Qed.

End job.

End MrJob.
