(* ===== verification/MrWorker.v ===== *)
(** Model of mr/worker.go and main/mrsequential.go: the map and reduce tasks on a
    file system, and the sequential program they should agree with.

    [None] is the end of the process: a panic or [log.Fatalf].  Temporary files
    are created in another directory and renamed, so the working directory only
    ever shows complete files. *)

From Stdlib Require Import Ascii.
From stdpp Require Import pretty.
From S2P Require Import Prelude GoStd Mr.

#[local] Open Scope Z_scope.
#[local] Open Scope go_scope.

Module MrWorker.
Export Mr.

Record KeyValue := mkKeyValue {
  Key : string;
  Value : string;
}.

#[global] Instance KeyValue_eq_dec : EqDecision KeyValue.
Proof. solve_decision. Defined.

(** [ByKey.Less] *)
Definition ByKey_Less (a b : KeyValue) : bool := String.ltb (Key a) (Key b).

(** * Standard library *)

(** [utf8.ValidString] *)
Fixpoint utf8_valid (s : string) : bool :=
  match s with
  | EmptyString => true
  | String a s1 =>
      if in_range 0 127 a then utf8_valid s1
      else
        match s1 with
        | EmptyString => false
        | String b s2 =>
            if in_range 194 223 a then in_range 128 191 b && utf8_valid s2
            else
              match s2 with
              | EmptyString => false
              | String c s3 =>
                  if in_range 224 239 a then
                    in_range (if in_range 224 224 a then 160 else 128) (if in_range 237 237 a then 159 else 191) b &&
                    in_range 128 191 c && utf8_valid s3
                  else
                    match s3 with
                    | EmptyString => false
                    | String d s4 =>
                        in_range 240 244 a &&
                        in_range (if in_range 240 240 a then 144 else 128) (if in_range 244 244 a then 143 else 191) b &&
                        in_range 128 191 c && in_range 128 191 d && utf8_valid s4
                    end
              end
        end
  end.

Definition kv_valid (kv : KeyValue) : Prop := utf8_valid (Key kv) = true ∧ utf8_valid (Value kv) = true.

Definition concat_strings (l : list string) : string := String.concat "" l.

(** [encoding/json] on a [KeyValue] whose strings are valid UTF-8: a decoder reads
    back what encoders wrote one after the other; [json_decode] gives the values
    read up to the first error. *)
Class GoJson := {
  json_encode : KeyValue → string;
  json_decode : string → list KeyValue;
  json_roundtrip : ∀ l, Forall kv_valid l → json_decode (concat_strings (map json_encode l)) = l;
}.

(** The FNV-1a hash of [hash/fnv], 32 bits. *)
Definition fnv32a (s : string) : Z :=
  foldl (λ h a, (Z.lxor h (Z.of_N (N_of_ascii a)) * 16777619) mod 2 ^ 32) 2166136261 (String.list_ascii_of_string s).

Definition ihash (key : string) : Z := Z.land (fnv32a key) 2147483647.

(** * Files *)

Abbreviation FileSystem := (gmap string string).

Definition int_name (mapId taskId : Z) : string := "mr-" +:+ pretty mapId +:+ "-" +:+ pretty taskId.
Definition out_name (taskId : Z) : string := "mr-out-" +:+ pretty taskId.

(** [filepath.Glob("mr-*-<taskId>")]: in the working directory, sorted; the star
    matches anything without a separator. *)
Definition glob_match (taskId : Z) (name : string) : bool :=
  bool_decide (chars "mr-" `prefix_of` chars name) &&
  bool_decide (chars ("-" +:+ pretty taskId) `suffix_of` drop 3 (chars name)) &&
  bool_decide ("/"%char ∉ chars name).

Section worker.
Context `{GoSort} `{GoJson}.
Context (mapf : string → string → list KeyValue) (reducef : string → list string → string).

Definition Glob (taskId : Z) (fs : FileSystem) : list string :=
  go_sort String.ltb (filter (λ name, glob_match taskId name = true) (elements (dom fs))).

(** ** [doMap] *)

(** The loop that writes each pair to the file of its reduce task. *)
Fixpoint write_buckets (nReduce : Z) (kvs : list KeyValue) (ofile : list string) : option (list string) :=
  match kvs with
  | [] => Some ofile
  | kv :: kvs =>
      if nReduce =? 0 then None
      else
        let taskId := Z.rem (ihash (Key kv)) nReduce in
        f ← ofile.[taskId]; ofile ← ofile.[taskId <- f +:+ json_encode kv];
        write_buckets nReduce kvs ofile
  end.

(** The renames. *)
Fixpoint rename_buckets (mapId i : Z) (ofile : list string) (fs : FileSystem) : FileSystem :=
  match ofile with
  | [] => fs
  | f :: ofile => rename_buckets mapId (i + 1) ofile (<[int_name mapId i := f]> fs)
  end.

Definition doMap (reply : MrReply) (fs : FileSystem) : option FileSystem :=
  let filename := r_TaskName reply in
  content ← fs !! filename;
  let intermediate := mapf filename content in
  if r_NReduce reply <? 0 then None
  else
    ofile ← write_buckets (r_NReduce reply) intermediate (replicate (Z.to_nat (r_NReduce reply)) "");
    Some (rename_buckets (r_MapId reply) 0 ofile fs).

(** ** [doReduce] *)

Definition newline : string := String (ascii_of_nat 10) "".
Definition line (key output : string) : string := key +:+ " " +:+ output +:+ newline.

(** The values of [kvbox[k:i]]. *)
Definition values (kvbox : list KeyValue) (k i : Z) : list string :=
  map Value (take (Z.to_nat (i - k)) (drop (Z.to_nat k) kvbox)).

(** The loop over [i]; [n] iterations are left, the current group starts at
    [k]. *)
Fixpoint reduce_loop (kvbox : list KeyValue) (n : nat) (i k : Z) (out : string) : option string :=
  match n with
  | O =>
      kv ← kvbox.[k];
      Some (out +:+ line (Key kv) (reducef (Key kv) (values kvbox k (zlen kvbox))))
  | S n =>
      a ← kvbox.[i]; b ← kvbox.[k];
      if negb (String.eqb (Key a) (Key b)) then
        reduce_loop kvbox n (i + 1) i (out +:+ line (Key b) (reducef (Key b) (values kvbox k i)))
      else reduce_loop kvbox n (i + 1) k out
  end.

(** The pairs read from the files that match the pattern. *)
Definition read_box (taskId : Z) (fs : FileSystem) : list KeyValue :=
  flat_map (λ name, json_decode (default "" (fs !! name))) (Glob taskId fs).

Definition doReduce (reply : MrReply) (fs : FileSystem) : option FileSystem :=
  let kvbox := read_box (r_TaskId reply) fs in
  if zlen kvbox =? 0 then Some fs
  else
    let kvbox := go_sort ByKey_Less kvbox in
    out ← reduce_loop kvbox (List.length kvbox) 0 0 "";
    Some (<[out_name (r_TaskId reply) := out]> fs).

(** What a worker executes. *)
Definition exec_action (a : action) (fs : FileSystem) : option FileSystem :=
  match a with
  | DoMap reply => doMap reply fs
  | DoReduce reply => doReduce reply fs
  | Wait | Exit => Some fs
  | Fatal => None
  end.

Fixpoint exec_actions (acts : list action) (fs : FileSystem) : option FileSystem :=
  match acts with [] => Some fs | a :: acts => fs ← exec_action a fs; exec_actions acts fs end.

(** ** main/mrsequential.go *)

(** The inner loop: the end of the group that starts at [i]. *)
Fixpoint group_end (intermediate : list KeyValue) (i j : Z) (fuel : nat) : option Z :=
  match fuel with
  | O => None
  | S fuel =>
      if j <? zlen intermediate then
        a ← intermediate.[j]; b ← intermediate.[i];
        if String.eqb (Key a) (Key b) then group_end intermediate i (j + 1) fuel else Some j
      else Some j
  end.

Fixpoint seq_loop (intermediate : list KeyValue) (i : Z) (out : string) (fuel : nat) : option string :=
  match fuel with
  | O => None
  | S fuel =>
      if i <? zlen intermediate then
        j ← group_end intermediate i (i + 1) (S (List.length intermediate));
        kv ← intermediate.[i];
        seq_loop intermediate j (out +:+ line (Key kv) (reducef (Key kv) (values intermediate i j))) fuel
      else Some out
  end.

Fixpoint map_all (names : list string) (fs : FileSystem) : option (list KeyValue) :=
  match names with
  | [] => Some []
  | name :: names =>
      content ← fs !! name; rest ← map_all names fs; Some (mapf name content ++ rest)
  end.

(** [main], with the input files of the command line; [None] is also the model
    running out of fuel, which does not happen. *)
Definition mrsequential (names : list string) (fs : FileSystem) : option FileSystem :=
  intermediate ← map_all names fs;
  let intermediate := go_sort ByKey_Less intermediate in
  out ← seq_loop intermediate 0 "" (S (List.length intermediate));
  Some (<["mr-out-0" := out]> fs).
End worker.

End MrWorker.
