(* ===== verification/MrWorkerProof.v ===== *)
(** The reduce loops of mr/worker.go and main/mrsequential.go group equal keys;
    file names do not clash; map tasks can be repeated. *)

From Stdlib Require Import Ascii.
From stdpp Require Import pretty.
From S2P Require Import Prelude GoStd Mr MrWorker.

#[local] Open Scope Z_scope.
#[local] Open Scope go_scope.

Module MrWorkerProof.
Export MrWorker.

(** ** Strings *)

#[local] Arguments String.append : simpl nomatch.

Lemma str_app_assoc (a b c : string) : (a +:+ b) +:+ c = a +:+ (b +:+ c).
Proof. induction a as [|x a IH]; simpl; [done|by rewrite IH]. Qed.

Lemma str_app_nil (a : string) : a +:+ "" = a.
Proof. induction a as [|x a IH]; simpl; [done|by rewrite IH]. Qed.

Lemma concat_strings_cons a l : concat_strings (a :: l) = a +:+ concat_strings l.
Proof. unfold concat_strings. simpl. destruct l; simpl; [by rewrite str_app_nil|done]. Qed.

Lemma concat_strings_app l1 l2 : concat_strings (l1 ++ l2) = concat_strings l1 +:+ concat_strings l2.
Proof.
  induction l1 as [|a l1 IH]; simpl; [done|]. by rewrite !concat_strings_cons, IH, str_app_assoc.
Qed.

(** ** Groups of adjacent pairs with the same key *)

Section groups.
Context (reducef : string → list string → string).
Implicit Types (l A B R : list KeyValue) (kv : KeyValue).

Fixpoint groups l : list (string * list string) :=
  match l with
  | [] => []
  | kv :: l =>
      match groups l with
      | (k, vs) :: gs => if decide (Key kv = k) then (k, Value kv :: vs) :: gs else (Key kv, [Value kv]) :: (k, vs) :: gs
      | [] => [(Key kv, [Value kv])]
      end
  end.

Definition lines (gs : list (string * list string)) : string :=
  concat_strings (map (λ '(k, vs), line k (reducef k vs)) gs).

(** [R] does not start with the key [k]. *)
Definition other_key (k : string) R : Prop := ∀ kv, head R = Some kv → Key kv ≠ k.

Lemma groups_head R : match groups R with (k, _) :: _ => ∃ kv, head R = Some kv ∧ Key kv = k | [] => R = [] end.
Proof.
  destruct R as [|kv R]; simpl; [done|]. destruct (groups R) as [|[k vs] gs]; [by eexists|].
  destruct (decide _); by eexists.
Qed.

Lemma groups_span k B R :
  B ≠ [] → Forall (λ kv, Key kv = k) B → other_key k R → groups (B ++ R) = (k, map Value B) :: groups R.
Proof.
  induction B as [|kv B IH]; [done|]. intros _ [<- HB]%Forall_cons HR. simpl. destruct B as [|kv2 B]; simpl in *.
  - pose proof (groups_head R) as Hh. destruct (groups R) as [|[k vs] gs]; [done|].
    destruct Hh as (kv2 & Hh & <-). rewrite decide_False; [done|]. intros He. by apply (HR kv2).
  - rewrite (IH ltac:(done) HB HR). by rewrite decide_True.
Qed.

Lemma span R kv : ∃ B C, R = B ++ C ∧ Forall (λ kv', Key kv' = Key kv) B ∧ other_key (Key kv) C.
Proof.
  induction R as [|a R (B & C & -> & HB & HC)]; [by exists [], []|].
  destruct (decide (Key a = Key kv)).
  - exists (a :: B), C. split; [done|]. split; [by constructor|done].
  - exists [], (a :: B ++ C). split_and!; [done..|]. intros x [= <-]. done.
Qed.

Lemma values_mid A B R : values (A ++ B ++ R) (zlen A) (zlen A + zlen B) = map Value B.
Proof.
  unfold values, zlen. rewrite Nat2Z.id. replace (Z.to_nat _) with (List.length B) by lia.
  by rewrite drop_app_length, take_app_length.
Qed.

Lemma lookup_mid A kv R : (A ++ kv :: R).[zlen A] = Some kv.
Proof. unfold zlen. rewrite zlookup_nat. by apply list_lookup_middle. Qed.

(** [doReduce]'s loop: the current group is [B], [C] is left. *)
Lemma reduce_loop_spec A k B C out :
  B ++ C ≠ [] → Forall (λ kv, Key kv = k) B →
  reduce_loop reducef (A ++ B ++ C) (List.length C) (zlen A + zlen B) (zlen A) out =
    Some (out +:+ lines (groups (B ++ C))).
Proof.
  revert A k B out. induction C as [|c C IH]; intros A k B out Hne HB; cbn [reduce_loop List.length].
  - rewrite !app_nil_r in *. destruct B as [|b B]; [done|]. rewrite lookup_mid. simpl (_ ≫= _).
    assert (groups ((b :: B) ++ []) = (k, map Value (b :: B)) :: groups []) as Hg by by apply groups_span.
    rewrite app_nil_r in Hg. rewrite Hg. unfold lines. simpl map. rewrite zlen_app.
    pose proof (values_mid A (b :: B) []) as Hv. rewrite app_nil_r in Hv. rewrite Hv.
    apply Forall_cons in HB as [-> _]. done.
  - assert ((A ++ B ++ c :: C).[zlen A + zlen B] = Some c) as ->.
    { rewrite app_assoc, <-zlen_app. apply lookup_mid. }
    simpl (Some c ≫= _). destruct B as [|b B].
    + simpl. rewrite lookup_mid. simpl. rewrite String.eqb_refl. simpl.
      change (zlen []) with 0. rewrite Z.add_0_r.
      specialize (IH A (Key c) [c] out). change (zlen [c]) with 1 in IH. apply IH; [done|by repeat constructor].
    + rewrite <-app_comm_cons, lookup_mid. simpl (Some b ≫= _).
      apply Forall_cons in HB as [Hb HB]. destruct (String.eqb_spec (Key c) (Key b)) as [He|He]; simpl negb; cbn iota.
      * specialize (IH A k ((b :: B) ++ [c]) out). rewrite zlen_app, Z.add_assoc in IH.
        change (zlen [c]) with 1 in IH. rewrite <-!app_assoc in IH. apply IH; [done|].
        constructor; [done|]. apply Forall_app. split; [done|]. constructor; [congruence|done].
      * specialize (IH (A ++ b :: B) (Key c) [c]). rewrite zlen_app, <-app_assoc in IH.
        change (zlen [c]) with 1 in IH. simpl app in IH. rewrite IH; [|done|by repeat constructor].
        f_equal. pose proof (groups_span k (b :: B) (c :: C)) as Hg. simpl app in Hg.
        rewrite Hg; [|done|by constructor|by intros x [= <-]; congruence].
        pose proof (values_mid A (b :: B) (c :: C)) as Hv. simpl app in Hv. rewrite Hv, Hb.
        unfold lines. simpl map. by rewrite concat_strings_cons, str_app_assoc.
Qed.

(** [mrsequential]'s inner loop. *)
Lemma group_end_spec A kv B1 B2 C fuel :
  Forall (λ kv', Key kv' = Key kv) B2 → other_key (Key kv) C → (List.length B2 < fuel)%nat →
  group_end (A ++ kv :: B1 ++ B2 ++ C) (zlen A) (zlen A + 1 + zlen B1) fuel = Some (zlen A + 1 + zlen B1 + zlen B2).
Proof.
  revert B1 fuel. induction B2 as [|b B2 IH]; intros B1 [|fuel] HB HC Hf; simpl in Hf; try lia; cbn [group_end].
  - simpl app. change (zlen []) with 0. rewrite !Z.add_0_r.
    destruct (Z.ltb_spec (zlen A + 1 + zlen B1) (zlen (A ++ kv :: B1 ++ C))) as [Hlt|]; [|done].
    destruct C as [|c C].
    { rewrite !zlen_app, zlen_cons, zlen_app in Hlt. change (zlen []) with 0 in Hlt. lia. }
    assert ((A ++ kv :: B1 ++ c :: C).[zlen A + 1 + zlen B1] = Some c) as ->.
    { pose proof (lookup_mid (A ++ kv :: B1) c C) as Hl. rewrite zlen_app, zlen_cons, <-app_assoc in Hl. simpl app in Hl.
      by replace (zlen A + 1 + zlen B1) with (zlen A + (zlen B1 + 1)) by lia. }
    rewrite lookup_mid. simpl. destruct (String.eqb_spec (Key c) (Key kv)) as [He|]; [|done].
    by specialize (HC c eq_refl).
  - apply Forall_cons in HB as [Hb HB]. simpl app.
    rewrite (proj2 (Z.ltb_lt _ _)).
    2: { rewrite !zlen_app, zlen_cons, zlen_app, zlen_cons, zlen_app. pose proof (zlen_nonneg B2). pose proof (zlen_nonneg C). lia. }
    assert ((A ++ kv :: B1 ++ b :: B2 ++ C).[zlen A + 1 + zlen B1] = Some b) as ->.
    { pose proof (lookup_mid (A ++ kv :: B1) b (B2 ++ C)) as Hl. rewrite zlen_app, zlen_cons, <-app_assoc in Hl. simpl app in Hl.
      by replace (zlen A + 1 + zlen B1) with (zlen A + (zlen B1 + 1)) by lia. }
    rewrite lookup_mid. simpl. rewrite Hb, String.eqb_refl.
    specialize (IH (B1 ++ [b]) fuel HB HC ltac:(lia)). rewrite <-app_assoc, zlen_app in IH. simpl app in IH.
    change (zlen [b]) with 1 in IH. rewrite Z.add_assoc in IH. rewrite IH. f_equal. rewrite zlen_cons. lia.
Qed.

Lemma seq_loop_spec A R out fuel :
  (List.length R < fuel)%nat → seq_loop reducef (A ++ R) (zlen A) out fuel = Some (out +:+ lines (groups R)).
Proof.
  revert A R out. induction fuel as [|fuel IH]; intros A R out Hf; [lia|]. cbn [seq_loop]. rewrite zlen_app.
  destruct R as [|kv R].
  { change (zlen []) with 0. rewrite Z.add_0_r, Z.ltb_irrefl. simpl. by rewrite str_app_nil. }
  rewrite zlen_cons, (proj2 (Z.ltb_lt _ _)) by (pose proof (zlen_nonneg R); lia).
  destruct (span R kv) as (B & C & -> & HB & HC).
  pose proof (group_end_spec A kv [] B C (S (List.length (A ++ kv :: B ++ C))) HB HC) as Hg.
  change (zlen []) with 0 in Hg. rewrite Z.add_0_r in Hg. simpl app in Hg.
  rewrite Hg by (rewrite length_app; simpl; rewrite length_app; lia). rewrite lookup_mid. simpl (_ ≫= _).
  specialize (IH (A ++ kv :: B) C). rewrite <-app_assoc, zlen_app, zlen_cons in IH. simpl app in IH.
  replace (zlen A + 1 + zlen B) with (zlen A + (zlen B + 1)) by lia.
  rewrite IH by (simpl in Hf; rewrite length_app in Hf; lia). f_equal.
  pose proof (values_mid A (kv :: B) C) as Hv. rewrite zlen_cons in Hv. simpl app in Hv. rewrite Hv.
  pose proof (groups_span (Key kv) (kv :: B) C) as Hgs. simpl app in Hgs. rewrite Hgs; [|done|by constructor|done].
  unfold lines. simpl map. by rewrite concat_strings_cons, str_app_assoc.
Qed.
End groups.

(** ** Sorted pairs: one group per key *)

Definition values_of (k : string) (l : list KeyValue) : list string := map Value (filter (λ kv, Key kv = k) l).
Definition keys (l : list KeyValue) : list string := (groups l).*1.
Definition sorted_kv (l : list KeyValue) : Prop := StronglySorted (not_greater ByKey_Less) l.
Definition str_lt (a b : string) : Prop := String.ltb a b = true.

Lemma ByKey_weak_order : weak_order ByKey_Less.
Proof. apply (weak_order_on Key), weak_order_String_ltb. Qed.

Lemma str_lt_irrefl a : ¬ str_lt a a.
Proof. unfold str_lt. destruct weak_order_String_ltb as [Hirr _]. by rewrite Hirr. Qed.

Lemma str_lt_trans a b c : str_lt a b → str_lt b c → str_lt a c.
Proof. apply weak_order_String_ltb. Qed.

Lemma str_trichotomy a b : ¬ str_lt b a → a = b ∨ str_lt a b.
Proof.
  unfold str_lt, String.ltb. rewrite (String.compare_antisym b a). destruct (String.compare a b) eqn:E; simpl; auto.
  - apply String.compare_eq_iff in E. auto.
Qed.

Lemma elem_of_keys k l : k ∈ keys l ↔ ∃ kv, kv ∈ l ∧ Key kv = k.
Proof.
  unfold keys. induction l as [|kv l IH]; simpl.
  { split; [by intros ?%not_elem_of_nil|]. intros (? & ?%not_elem_of_nil & _). done. }
  trans (k = Key kv ∨ k ∈ (groups l).*1).
  - destruct (groups l) as [|[k' vs] gs]; simpl; [by rewrite elem_of_cons, elem_of_nil; tauto|].
    destruct (decide (Key kv = k')) as [->|]; simpl; rewrite !elem_of_cons; tauto.
  - rewrite IH. setoid_rewrite elem_of_cons. naive_solver.
Qed.

Lemma keys_sorted l : sorted_kv l → StronglySorted str_lt (keys l).
Proof.
  unfold sorted_kv. induction 1 as [|kv l Hs IH Hall]; [constructor|].
  assert (∀ k, k ∈ keys l → Key kv = k ∨ str_lt (Key kv) k) as Hle.
  { intros k (kv' & Hin & <-)%elem_of_keys. apply str_trichotomy. unfold str_lt.
    rewrite Forall_forall in Hall. specialize (Hall _ Hin). unfold not_greater, ByKey_Less in Hall. by rewrite Hall. }
  unfold keys in *. simpl. destruct (groups l) as [|[k vs] gs]; simpl in *; [by repeat constructor|].
  apply StronglySorted_inv in IH as [IHs IHall].
  destruct (decide (Key kv = k)) as [_|Hne]; simpl; [by constructor|].
  destruct (Hle k) as [?|Hlt]; [left|done|]. constructor; [by constructor|]. constructor; [done|].
  eapply Forall_impl; [done|]. intros x. by apply str_lt_trans.
Qed.

Lemma keys_NoDup l : sorted_kv l → NoDup (keys l).
Proof.
  intros Hs%keys_sorted. induction Hs as [|k ks _ IH Hall]; constructor; [|done].
  intros Hin. rewrite Forall_forall in Hall. by apply (str_lt_irrefl k), Hall.
Qed.

Lemma groups_sorted l : sorted_kv l → groups l = map (λ k, (k, values_of k l)) (keys l).
Proof.
  intros Hs. induction l as [|kv l IH]; [done|]. pose proof (keys_NoDup _ Hs) as Hnd.
  apply StronglySorted_inv in Hs as [Hs _]. specialize (IH Hs).
  assert (∀ k ks, k ∉ ks → Key kv = k →
    map (λ k', (k', values_of k' (kv :: l))) ks = map (λ k', (k', values_of k' l)) ks) as Hother.
  { intros k ks Hk He. apply map_ext_in. intros k' Hk'%list_elem_of_In. unfold values_of.
    rewrite filter_cons_False; [done|]. congruence. }
  assert (∀ k, Key kv = k → values_of k (kv :: l) = Value kv :: values_of k l) as Hself.
  { intros k He. unfold values_of. by rewrite filter_cons_True. }
  unfold keys in *. simpl in *. destruct (groups l) as [|[k vs] gs] eqn:Hg; simpl in *.
  - rewrite Hself by done. unfold values_of.
    assert (l = []) as -> by (pose proof (groups_head l) as Hh; by rewrite Hg in Hh). done.
  - injection IH as Hvs Hgs. destruct (decide (Key kv = k)) as [He|Hne]; simpl in *.
    + apply NoDup_cons in Hnd as [Hk _]. rewrite Hself by done. rewrite Hvs. f_equal. rewrite Hgs at 1. symmetry.
      by apply (Hother k).
    + apply NoDup_cons in Hnd as [Hk _]. rewrite Hself by done.
      rewrite (Hother (Key kv) (list_fmap _ _ fst gs)); [|by intros ?; apply Hk; right|done].
      assert (values_of (Key kv) l = []) as ->.
      { unfold values_of. rewrite list_filter_none; [done|]. intros x Hx Hkx. apply Hk.
        assert (Key kv ∈ keys l) as Hin by (apply elem_of_keys; by exists x).
        unfold keys in Hin. by rewrite Hg in Hin. }
      f_equal. rewrite Hvs at 1. rewrite <-Hgs. unfold values_of. by rewrite filter_cons_False.
Qed.

(** The output for the keys [ks]. *)
Definition text (reducef : string → list string → string) (l : list KeyValue) (ks : list string) : string :=
  concat_strings (map (λ k, line k (reducef k (values_of k l))) ks).

(** [Reduce] does not depend on the order of the values. *)
Definition order_free (reducef : string → list string → string) : Prop :=
  ∀ k vs vs', vs ≡ₚ vs' → reducef k vs = reducef k vs'.

Lemma values_of_perm k l l' : l ≡ₚ l' → values_of k l ≡ₚ values_of k l'.
Proof. intros Hl. unfold values_of. by rewrite Hl. Qed.

Lemma lines_sorted reducef l : sorted_kv l → lines reducef (groups l) = text reducef l (keys l).
Proof. intros Hs. unfold lines, text. by rewrite groups_sorted, map_map. Qed.

Lemma text_perm reducef l l' ks : order_free reducef → l ≡ₚ l' → text reducef l ks = text reducef l' ks.
Proof.
  intros Hr Hl. unfold text. f_equal. apply map_ext. intros k. f_equal. by apply Hr, values_of_perm.
Qed.

Section sort.
Context `{GoSort}.

Lemma sort_kv_sorted l : sorted_kv (go_sort ByKey_Less l).
Proof. apply go_sort_sorted, ByKey_weak_order. Qed.

(** The keys of the pairs whose key satisfies [P]. *)
Lemma keys_filter (P : string → Prop) `{∀ k, Decision (P k)} l box :
  box ≡ₚ filter (λ kv, P (Key kv)) l →
  keys (go_sort ByKey_Less box) = filter P (keys (go_sort ByKey_Less l)).
Proof.
  intros Hbox.
  assert (∀ k, k ∈ keys (go_sort ByKey_Less box) ↔ k ∈ filter P (keys (go_sort ByKey_Less l))) as Hk.
  { intros k. rewrite list_elem_of_filter, !elem_of_keys. setoid_rewrite (go_sort_perm ByKey_Less).
    setoid_rewrite Hbox. setoid_rewrite list_elem_of_filter. naive_solver. }
  eapply (StronglySorted_unique_strong str_lt).
  - intros x1 x2 _ _ H1 H2. exfalso. by apply (str_lt_irrefl x1), str_lt_trans with x2.
  - apply keys_sorted, sort_kv_sorted.
  - apply StronglySorted_filter, keys_sorted, sort_kv_sorted.
  - apply NoDup_Permutation; [apply keys_NoDup, sort_kv_sorted|apply NoDup_filter, keys_NoDup, sort_kv_sorted|done].
Qed.

Lemma values_of_filter (P : string → Prop) `{∀ k, Decision (P k)} l k :
  P k → values_of k (filter (λ kv, P (Key kv)) l) = values_of k l.
Proof.
  intros Hk. unfold values_of. rewrite list_filter_filter. f_equal. apply list_filter_iff. naive_solver.
Qed.
End sort.

End MrWorkerProof.
