(* ===== verification/MrCorrect.v ===== *)
(** A MapReduce job on the file system: the map tasks leave every pair in the
    file of its reduce task, a reduce task reads exactly those, and the outputs
    are those of the sequential program. *)

From Stdlib Require Import Ascii.
From stdpp Require Import pretty.
From S2P Require Import Prelude GoStd Mr MrProof MrJob MrWorker MrWorkerProof.

#[local] Open Scope Z_scope.
#[local] Open Scope go_scope.

Module MrCorrect.
Export MrJob MrWorkerProof.

#[local] Arguments String.append : simpl nomatch.

(** ** File names *)

Lemma int_name_chars m r : chars (int_name m r) = chars "mr-" ++ chars (pretty m) ++ "-"%char :: chars (pretty r).
Proof. unfold int_name. by rewrite !chars_app. Qed.

Lemma int_name_inj m r m' r' :
  0 <= m → 0 <= r → 0 <= m' → 0 <= r' → int_name m r = int_name m' r' → m = m' ∧ r = r'.
Proof.
  intros ???? He%(f_equal (λ s, chars s)). rewrite !int_name_chars in He. apply (inj (chars "mr-" ++.)) in He.
  apply app_last_inj in He as [Hm Hr]; [|by apply dash_not_digit, pretty_digits..].
  split; by apply (inj pretty), chars_inj.
Qed.

Lemma glob_match_true Y name :
  glob_match Y name = true ↔
  chars "mr-" `prefix_of` chars name ∧ ("-"%char :: chars (pretty Y)) `suffix_of` drop 3 (chars name) ∧
  "/"%char ∉ chars name.
Proof. unfold glob_match. rewrite !andb_true_iff, !bool_decide_eq_true, chars_app. tauto. Qed.

Lemma glob_int_name Y m r : 0 <= m → 0 <= r → 0 <= Y → glob_match Y (int_name m r) = true ↔ r = Y.
Proof.
  intros Hm Hr HY. rewrite glob_match_true, int_name_chars. rewrite (drop_app_length (chars "mr-")). split.
  - intros (_ & [X HX] & _). apply app_last_inj in HX as [_ Hd]; [|by apply dash_not_digit, pretty_digits..].
    by apply (inj pretty), chars_inj.
  - intros ->. split_and!; [by apply prefix_app_r|by apply suffix_app_r|].
    intros [Hs|[Hs|Hs]%elem_of_app]%elem_of_app.
    + simpl in Hs. rewrite !elem_of_cons, elem_of_nil in Hs. naive_solver.
    + by apply (slash_not_digit _ (pretty_digits m Hm)).
    + apply elem_of_cons in Hs as [?|Hs]; [done|]. by apply (slash_not_digit _ (pretty_digits Y HY)).
Qed.

Lemma glob_out_name Y r : 0 <= r → 0 <= Y → glob_match Y (out_name r) = true ↔ r = Y.
Proof.
  intros Hr HY. rewrite glob_match_true. unfold out_name. rewrite chars_app.
  change (chars "mr-out-") with (chars "mr-" ++ (chars "out" ++ ["-"%char])).
  rewrite <-!app_assoc, (drop_app_length (chars "mr-")). simpl ([_] ++ _). split.
  - intros (_ & [X HX] & _). apply app_last_inj in HX as [_ Hd]; [|by apply dash_not_digit, pretty_digits..].
    by apply (inj pretty), chars_inj.
  - intros ->. split_and!; [by apply prefix_app_r|by apply suffix_app_r|].
    rewrite !elem_of_app, !elem_of_cons.
    intros [Hs|[Hs|[?|Hs]]]; [| |done|by apply (slash_not_digit _ (pretty_digits Y HY))];
      simpl in Hs; rewrite ?elem_of_cons, ?elem_of_nil in Hs; naive_solver.
Qed.

Definition mr_name (name : string) : Prop := chars "mr-" `prefix_of` chars name.

Lemma int_name_mr m r : mr_name (int_name m r).
Proof. unfold mr_name. rewrite int_name_chars. by apply prefix_app_r. Qed.

Lemma out_name_mr r : mr_name (out_name r).
Proof. unfold mr_name, out_name. rewrite chars_app. by exists (chars "out-" ++ chars (pretty r)). Qed.

Lemma out_int_name Y m r : 0 <= Y → 0 <= m → 0 <= r → out_name Y ≠ int_name m r.
Proof.
  intros HY Hm Hr He%(f_equal (λ s, chars s)). rewrite int_name_chars in He. unfold out_name in He.
  rewrite chars_app in He. pose proof (pretty_digits m Hm) as Hd.
  change (chars "mr-out-") with (chars "mr-" ++ (chars "out" ++ ["-"%char])) in He.
  rewrite <-!app_assoc in He. apply (inj (chars "mr-" ++.)) in He. simpl ([_] ++ _) in He.
  apply app_last_inj in He as [He _]; [|by apply dash_not_digit, pretty_digits..].
  rewrite <-He in Hd. apply Forall_cons in Hd as [Ho _]. done.
Qed.

(** ** Map tasks *)

Definition bucket (n : Z) (k : string) : Z := Z.rem (ihash k) n.

Lemma bucket_range n k : 0 < n → 0 <= bucket n k < n.
Proof. intros Hn. apply Z.rem_bound_pos; [apply Z.land_nonneg; lia|done]. Qed.

Definition in_bucket (n j : Z) (kvs : list KeyValue) : list KeyValue := filter (λ kv, bucket n (Key kv) = j) kvs.

Section job.
Context `{GoSort} `{GoJson} (mapf : string → string → list KeyValue) (reducef : string → list string → string).

Definition encode_all (kvs : list KeyValue) : string := concat_strings (map json_encode kvs).

Lemma encode_all_cons kv kvs : encode_all (kv :: kvs) = json_encode kv +:+ encode_all kvs.
Proof. apply concat_strings_cons. Qed.

Lemma write_buckets_spec n kvs ofile :
  0 < n → zlen ofile = n →
  ∃ ofile', write_buckets n kvs ofile = Some ofile' ∧ zlen ofile' = n ∧
    ∀ j f, ofile !! j = Some f → ofile' !! j = Some (f +:+ encode_all (in_bucket n (Z.of_nat j) kvs)).
Proof.
  intros Hn. revert ofile. induction kvs as [|kv kvs IH]; intros ofile Hl; simpl.
  { exists ofile. split_and!; [done..|]. intros j f ->. by rewrite str_app_nil. }
  rewrite (proj2 (Z.eqb_neq n 0)) by lia. fold (bucket n (Key kv)). pose proof (bucket_range n (Key kv) Hn) as Hb.
  destruct (proj2 (zlookup_is_Some ofile (bucket n (Key kv)))) as [f Hf]; [lia|]. rewrite Hf. simpl.
  destruct (zupdate_total ofile (bucket n (Key kv)) (f +:+ json_encode kv)) as [o Ho]; [lia|]. rewrite Ho. simpl.
  destruct (IH o) as (o' & Hw & Hl' & Hj); [by rewrite (zlen_zupdate _ _ _ _ Ho)|].
  exists o'. split_and!; [done..|]. intros j g Hg. rewrite (zlookup_pos _ _ (proj1 Hb)) in Hf.
  apply zupdate_Some in Ho as [_ ->]. unfold in_bucket in *. destruct (decide (bucket n (Key kv) = Z.of_nat j)) as [He|Hne].
  - rewrite He, Nat2Z.id in Hf. simplify_eq. rewrite filter_cons_True by done. rewrite encode_all_cons, <-str_app_assoc.
    apply Hj. rewrite He, Nat2Z.id. apply list_lookup_insert_eq. by eapply lookup_lt_Some.
  - rewrite filter_cons_False by done. apply Hj. rewrite list_lookup_insert_ne; [done|]. lia.
Qed.

Lemma rename_buckets_other mapId i ofile fs name :
  (∀ j, 0 <= j < zlen ofile → name ≠ int_name mapId (i + j)) → rename_buckets mapId i ofile fs !! name = fs !! name.
Proof.
  revert i fs. induction ofile as [|f ofile IH]; intros i fs Hname; simpl; [done|].
  rewrite zlen_cons in Hname. pose proof (zlen_nonneg ofile). rewrite IH.
  - apply lookup_insert_ne. intros <-. apply (Hname 0); [lia|by rewrite Z.add_0_r].
  - intros j Hj He. apply (Hname (1 + j)); [lia|]. by rewrite Z.add_assoc.
Qed.

Lemma rename_buckets_at mapId i ofile fs j f :
  0 <= mapId → 0 <= i → ofile !! j = Some f →
  rename_buckets mapId i ofile fs !! int_name mapId (i + Z.of_nat j) = Some f.
Proof.
  intros Hm. revert i j fs. induction ofile as [|g ofile IH]; intros i [|j] fs Hi Hj; simplify_eq/=.
  - rewrite Z.add_0_r, rename_buckets_other; [by apply lookup_insert_eq|].
    intros j Hj He. apply int_name_inj in He as [_ He]; lia.
  - replace (i + Z.of_nat (S j)) with (i + 1 + Z.of_nat j) by lia. apply IH; [lia|done].
Qed.

(** The map task [m] was executed on the content [c] of [name]. *)
Definition mapped (n m : Z) (name c : string) (fs : FileSystem) : Prop :=
  ∀ j : nat, Z.of_nat j < n → fs !! int_name m (Z.of_nat j) = Some (encode_all (in_bucket n (Z.of_nat j) (mapf name c))).

Lemma doMap_spec reply c fs :
  let n := r_NReduce reply in let m := r_MapId reply in
  0 < n → 0 <= m → fs !! r_TaskName reply = Some c →
  ∃ fs', doMap mapf reply fs = Some fs' ∧ mapped n m (r_TaskName reply) c fs' ∧
    (∀ name, (∀ j, 0 <= j < n → name ≠ int_name m j) → fs' !! name = fs !! name).
Proof.
  intros n m Hn Hm Hc. unfold doMap. rewrite Hc. simpl. rewrite (proj2 (Z.ltb_ge _ 0)) by (fold n; lia). fold n m.
  destruct (write_buckets_spec n (mapf (r_TaskName reply) c) (replicate (Z.to_nat n) "") Hn) as (o & -> & Hl & Hj).
  { unfold zlen. rewrite length_replicate. lia. }
  eexists. split; [done|]. split.
  - intros j Hlt. pose proof (rename_buckets_at m 0 o fs j) as Hr. rewrite Z.add_0_l in Hr. apply Hr; [done|lia|].
    by rewrite (Hj j "") by (apply lookup_replicate_2; lia).
  - intros name Hname. apply rename_buckets_other. by rewrite Hl.
Qed.

(** ** Reduce tasks *)

Lemma reduce_loop_sorted box :
  box ≠ [] → let l := go_sort ByKey_Less box in reduce_loop reducef l (List.length l) 0 0 "" = Some (text reducef l (keys l)).
Proof.
  intros Hbox l. pose proof (reduce_loop_spec reducef [] "" [] l "") as Hl. simpl app in Hl.
  change (zlen [] + zlen []) with 0 in Hl. change (zlen []) with 0 in Hl.
  rewrite Hl; [simpl; by rewrite lines_sorted by apply sort_kv_sorted| |done].
  intros Hnil. pose proof (go_sort_perm ByKey_Less box) as Hp. fold l in Hp. rewrite Hnil in Hp.
  by apply Permutation_nil in Hp.
Qed.

Lemma doReduce_spec reply fs :
  let box := read_box (r_TaskId reply) fs in
  doReduce reducef reply fs =
    Some (match box with
          | [] => fs
          | _ => let l := go_sort ByKey_Less box in <[out_name (r_TaskId reply) := text reducef l (keys l)]> fs
          end).
Proof.
  intros box. unfold doReduce. fold box. destruct box as [|kv box'] eqn:Hbox; [done|].
  rewrite (proj2 (Z.eqb_neq _ 0)) by (rewrite zlen_cons; pose proof (zlen_nonneg box'); lia).
  pose proof (reduce_loop_sorted (kv :: box') ltac:(done)) as Hl. cbv zeta in Hl. by rewrite Hl.
Qed.

(** The pairs of the input files, in the order of the command line. *)
Definition content (fs : FileSystem) (name : string) : string := default "" (fs !! name).
Definition all_pairs (fs : FileSystem) (names : list string) : list KeyValue :=
  flat_map (λ name, mapf name (content fs name)) names.

Lemma in_bucket_app n Y l1 l2 : in_bucket n Y (l1 ++ l2) = in_bucket n Y l1 ++ in_bucket n Y l2.
Proof. apply filter_app. Qed.

Lemma in_bucket_flat_map {A} n Y (f : A → list KeyValue) (l : list A) :
  flat_map (λ x, in_bucket n Y (f x)) l = in_bucket n Y (flat_map f l).
Proof. induction l as [|x l IH]; simpl; [done|]. by rewrite in_bucket_app, IH. Qed.

Lemma in_bucket_valid n Y l : Forall kv_valid l → Forall kv_valid (in_bucket n Y l).
Proof. rewrite !Forall_forall. intros Hl kv [_ Hin]%list_elem_of_filter. by apply Hl. Qed.

(** A reduce task reads the pairs of its bucket. *)
Lemma read_box_spec (ids : list Z) (kvs : Z → list KeyValue) n Y fs :
  0 <= Y → NoDup ids → (∀ m, m ∈ ids → 0 <= m) → (∀ m, m ∈ ids → Forall kv_valid (kvs m)) →
  (∀ m, m ∈ ids → fs !! int_name m Y = Some (encode_all (in_bucket n Y (kvs m)))) →
  (∀ name, is_Some (fs !! name) → glob_match Y name = true → ∃ m, m ∈ ids ∧ name = int_name m Y) →
  read_box Y fs ≡ₚ in_bucket n Y (flat_map kvs ids).
Proof.
  intros HY Hnd Hpos Hvalid Hfiles Honly. unfold read_box.
  assert (Glob Y fs ≡ₚ map (λ m, int_name m Y) ids) as Hglob.
  { unfold Glob. rewrite go_sort_perm. apply NoDup_Permutation.
    - apply NoDup_filter, NoDup_elements.
    - apply NoDup_fmap_2_strong; [|done]. intros a b Ha Hb He. by apply int_name_inj in He as [? _]; auto.
    - intros name. rewrite list_elem_of_filter, elem_of_elements, elem_of_dom, list_elem_of_fmap. split.
      + intros [Hg Hs]. destruct (Honly name Hs Hg) as (m & ? & ?). by exists m.
      + intros (m & -> & Hm). split; [by apply glob_int_name; auto|]. rewrite (Hfiles m Hm). by eexists. }
  rewrite (Permutation_flat_map _ Hglob), <-in_bucket_flat_map, flat_map_concat_map, map_map, <-flat_map_concat_map.
  clear Hnd Honly Hglob. induction ids as [|m ids IH]; simpl; [done|].
  rewrite IH by (intros; first [apply Hpos|apply Hvalid|apply Hfiles]; by right).
  rewrite (Hfiles m) by left. simpl. unfold encode_all. rewrite json_roundtrip; [done|].
  apply in_bucket_valid, Hvalid. left.
Qed.

(** Its output, in terms of all pairs. *)
Lemma bucket_output n Y l box :
  order_free reducef → box ≡ₚ in_bucket n Y l →
  let ks := filter (λ k, bucket n k = Y) (keys (go_sort ByKey_Less l)) in
  text reducef (go_sort ByKey_Less box) (keys (go_sort ByKey_Less box)) = text reducef l ks ∧ (box = [] ↔ ks = []).
Proof.
  intros Hr Hbox ks. assert (keys (go_sort ByKey_Less box) = ks) as Hks.
  { apply (keys_filter (λ k, bucket n k = Y)), Hbox. }
  split.
  - rewrite Hks, (text_perm reducef _ (in_bucket n Y l)) by (rewrite ?go_sort_perm; done).
    unfold text. f_equal. apply map_ext_in. intros k [Hk _]%list_elem_of_In%list_elem_of_filter.
    do 2 f_equal. exact (values_of_filter (λ k, bucket n k = Y) l k Hk).
  - rewrite <-Hks. split; intros He.
    + subst box. assert (go_sort ByKey_Less ([] : list KeyValue) = []) as ->; [|done].
      apply Permutation_nil. symmetry. apply go_sort_perm.
    + destruct box as [|kv box]; [done|]. assert (Key kv ∈ keys (go_sort ByKey_Less (kv :: box))) as Hin.
      { apply elem_of_keys. exists kv. rewrite go_sort_perm. split; [left|done]. }
      rewrite He in Hin. by apply not_elem_of_nil in Hin.
Qed.

(** ** Executing a job *)

Lemma exec_actions_app a1 a2 fs :
  exec_actions mapf reducef (a1 ++ a2) fs = exec_actions mapf reducef a1 fs ≫= exec_actions mapf reducef a2.
Proof.
  revert fs. induction a1 as [|a a1 IH]; intros fs; simpl; [done|].
  destruct (exec_action _ _ a fs); simpl; [apply IH|done].
Qed.

(** Map tasks in any order, each as often as one likes. *)
Lemma exec_maps n (ids : gmap string Z) names acts fs :
  let id name := default 0 (ids !! name) in
  0 < n → Forall2 (map_action n ids) names acts →
  (∀ name, name ∈ names → is_Some (fs !! name) ∧ ¬ mr_name name ∧ 0 <= id name) →
  (∀ a b, a ∈ names → b ∈ names → id a = id b → a = b) →
  ∃ fs', exec_actions mapf reducef acts fs = Some fs' ∧
    (∀ name, name ∈ names → mapped n (id name) name (content fs name) fs') ∧
    (∀ x, (∀ name j, name ∈ names → 0 <= j → x ≠ int_name (id name) j) → fs' !! x = fs !! x).
Proof.
  intros id Hn Hacts. revert fs. induction Hacts as [|name a names acts Ha _ IH]; intros fs Hin Hinj.
  { exists fs. split_and!; [done| |done]. by intros name ?%not_elem_of_nil. }
  destruct Ha as (r & -> & Hrn & _ & Hrr & Hri).
  destruct (Hin name) as ([c Hc] & Hmr & Hid); [left|].
  destruct (doMap_spec r c fs) as (fs1 & Hdo & Hmap & Hother); rewrite ?Hrr, ?Hri, ?Hrn; [done..|].
  rewrite Hrr, Hri, Hrn in *. fold (id name) in Hmap, Hother.
  assert (∀ x, ¬ mr_name x → fs1 !! x = fs !! x) as Hin1.
  { intros x Hx. apply Hother. intros j _ ->. apply Hx, int_name_mr. }
  destruct (IH fs1) as (fs' & Hex & Hall & Hother').
  { intros x Hx. destruct (Hin x) as (Hs & Hmx & Hidx); [by right|]. by rewrite Hin1. }
  { intros x y Hx Hy. apply Hinj; by right. }
  exists fs'. split; [simpl; by rewrite Hdo|]. split.
  - intros x Hx. destruct (decide (x ∈ names)) as [Hxn|Hxn].
    + destruct (Hin x Hx) as (_ & Hmx & _). specialize (Hall x Hxn). unfold content in *. by rewrite <-Hin1.
    + apply elem_of_cons in Hx as [->|]; [|done]. unfold content. rewrite Hc. simpl. intros j Hj.
      rewrite Hother'; [by apply Hmap|]. intros y k Hy Hk He. destruct (Hin y) as (_ & _ & Hidy); [by right|].
      apply int_name_inj in He as [He _]; [|done|lia|done|done]. apply Hinj in He; [by subst|left|by right].
  - intros x Hx. rewrite Hother', Hother; [done| |]; intros; apply Hx; try done; try lia; [left|by right].
Qed.

(** Reduce tasks, each once. *)
Lemma exec_reduces n a k acts (fs : FileSystem) (out : Z → option string) :
  Forall2 (reduce_action n) (seq a k) acts →
  (∀ (fs1 : FileSystem) Y, (a <= Y < a + k)%nat →
     (∀ x, glob_match (Z.of_nat Y) x = true → fs1 !! x = fs !! x) →
     ∃ fs2, doReduce reducef (mkMrReply "" n 0 (Z.of_nat Y) 2 0) fs1 = Some fs2 ∧ fs2 !! out_name (Z.of_nat Y) = out (Z.of_nat Y) ∧
       ∀ x, x ≠ out_name (Z.of_nat Y) → fs2 !! x = fs1 !! x) →
  ∀ fs1 : FileSystem, (∀ Y x, (a <= Y < a + k)%nat → glob_match (Z.of_nat Y) x = true → fs1 !! x = fs !! x) →
  ∃ fs2, exec_actions mapf reducef acts fs1 = Some fs2 ∧
    (∀ Y, (a <= Y < a + k)%nat → fs2 !! out_name (Z.of_nat Y) = out (Z.of_nat Y)) ∧
    (∀ x, (∀ Y, (a <= Y < a + k)%nat → x ≠ out_name (Z.of_nat Y)) → fs2 !! x = fs1 !! x).
Proof.
  revert a acts. induction k as [|k IH]; intros a acts Hacts Hdo fs1 Hfs1; simpl in Hacts.
  { apply Forall2_nil_inv_l in Hacts as ->. exists fs1. split_and!; [done|lia|done]. }
  apply Forall2_cons_inv_l in Hacts as (x & acts' & (r & -> & Hid & _ & _) & Hacts & ->).
  destruct (Hdo fs1 a) as (fs2 & Hd & Ho & Hother); [lia|intros x; apply Hfs1; lia|].
  assert (doReduce reducef r fs1 = Some fs2) as Hr by (by rewrite doReduce_spec, Hid; rewrite doReduce_spec in Hd).
  assert (∀ Y x, (S a <= Y < S a + k)%nat → glob_match (Z.of_nat Y) x = true → fs2 !! x = fs !! x) as Hfs2.
  { intros Y x HY Hx. rewrite Hother; [apply (Hfs1 Y); [lia|done]|]. intros ->. apply glob_out_name in Hx; lia. }
  destruct (IH (S a) acts' Hacts) with (fs1 := fs2) as (fs3 & Hex & Hout & Hoth);
    [intros ? ? ?; apply Hdo; lia|done|].
  exists fs3. split; [simpl; by rewrite Hr|]. split.
  - intros Y HY. destruct (decide (Y = a)) as [->|]; [|apply Hout; lia]. rewrite Hoth; [done|].
    intros Y HY2 He. assert (glob_match (Z.of_nat a) (out_name (Z.of_nat a)) = true) as Hg by (apply glob_out_name; lia).
    rewrite He in Hg. apply glob_out_name in Hg; lia.
  - intros x Hx. rewrite Hoth, Hother; [done|apply Hx; lia|]. intros Y HY. apply Hx. lia.
Qed.
(** ** The whole job *)

Lemma file_ids_other (f : nat → nat) files (ids : gmap string Z) name :
  name ∉ files →
  foldl (λ ids '(i, v), <[v := Z.of_nat i]> ids) ids (imap (λ i, pair (f i)) files) !! name = ids !! name.
Proof.
  revert f ids. induction files as [|x files IH]; intros f ids Hn; simpl; [done|].
  apply not_elem_of_cons in Hn as [Hx Hn]. rewrite (IH (f ∘ S)) by done. by apply lookup_insert_ne.
Qed.

Lemma file_ids_lookup files i name :
  NoDup files → files !! i = Some name → file_ids files !! name = Some (Z.of_nat i).
Proof.
  unfold file_ids. change (imap pair files) with (imap (λ i, pair (id i)) files). change (Z.of_nat i) with (Z.of_nat (id i)).
  generalize (@id nat). intros f. generalize (∅ : gmap string Z). intros ids Hnd. revert f ids i.
  induction Hnd as [|x files Hx _ IH]; intros f ids [|i] Hi; simplify_eq/=.
  - rewrite (file_ids_other (f ∘ S)) by done. apply lookup_insert_eq.
  - by apply (IH (f ∘ S)).
Qed.

(** The name with a given task number. *)
Definition pairs_of (fs : FileSystem) (files : list string) (m : Z) : list KeyValue :=
  match files !! Z.to_nat m with Some name => mapf name (content fs name) | None => [] end.

Definition file_id (files : list string) (name : string) : Z := default 0 (file_ids files !! name).

Lemma file_id_spec files name :
  NoDup files → name ∈ files → 0 <= file_id files name ∧ files !! Z.to_nat (file_id files name) = Some name.
Proof.
  intros Hnd [i Hi]%list_elem_of_lookup. unfold file_id. rewrite (file_ids_lookup _ _ _ Hnd Hi). simpl.
  rewrite Nat2Z.id. split; [lia|done].
Qed.

Lemma all_pairs_ids fs files :
  NoDup files → flat_map (pairs_of fs files) (map (file_id files) files) = all_pairs fs files.
Proof.
  intros Hnd. unfold all_pairs. rewrite flat_map_concat_map, map_map, flat_map_concat_map. f_equal.
  apply map_ext_in. intros name Hin%list_elem_of_In. unfold pairs_of. by rewrite (proj2 (file_id_spec _ _ Hnd Hin)).
Qed.

(** What the input files must be like: they exist, and nothing is called
    mr-something yet. *)
Record inputs_ok (fs : FileSystem) (files : list string) : Prop := {
  io_nodup : NoDup files;
  io_exist : ∀ name, name ∈ files → is_Some (fs !! name);
  io_fresh : ∀ name, is_Some (fs !! name) → ¬ mr_name name;
  io_valid : ∀ name, name ∈ files → Forall kv_valid (mapf name (content fs name));
}.

(** The expected content of an output file. *)
Definition expected (n : Z) (fs : FileSystem) (files : list string) (Y : Z) : option string :=
  let l := all_pairs fs files in
  match filter (λ k, bucket n k = Y) (keys (go_sort ByKey_Less l)) with
  | [] => None
  | ks => Some (text reducef l ks)
  end.

Lemma read_box_mapped n fs files fs1 Y :
  inputs_ok fs files → 0 <= Y < n →
  (∀ name, name ∈ files →
     fs1 !! int_name (file_id files name) Y = Some (encode_all (in_bucket n Y (mapf name (content fs name))))) →
  (∀ x, is_Some (fs1 !! x) → glob_match Y x = true → ∃ name, name ∈ files ∧ x = int_name (file_id files name) Y) →
  read_box Y fs1 ≡ₚ in_bucket n Y (all_pairs fs files).
Proof.
  intros [Hnd Hex Hfresh Hvalid] HY Hmap Honly. rewrite <-all_pairs_ids by done. apply read_box_spec; [lia| | | | |].
  - apply NoDup_fmap_2_strong; [|done]. intros a b Ha Hb He. apply (file_id_spec _ _ Hnd) in Ha as [_ Ha], Hb as [_ Hb].
    rewrite He in Ha. congruence.
  - intros m (name & -> & Hin)%list_elem_of_fmap. by apply file_id_spec.
  - intros m (name & -> & Hin)%list_elem_of_fmap. unfold pairs_of. rewrite (proj2 (file_id_spec _ _ Hnd Hin)). auto.
  - intros m (name & -> & Hin)%list_elem_of_fmap. destruct (file_id_spec _ _ Hnd Hin) as [Hpos Hlook].
    rewrite Hmap by done. unfold pairs_of. by rewrite Hlook.
  - intros x Hs Hg. destruct (Honly x Hs Hg) as (name & Hin & ->). exists (file_id files name). split; [|done].
    apply list_elem_of_fmap. by exists name.
Qed.

Lemma reduce_output n fs files fs1 fs2 Y :
  inputs_ok fs files → order_free reducef → 0 <= Y < n →
  (∀ name, name ∈ files → mapped n (file_id files name) name (content fs name) fs1) →
  (∀ x, (∀ name j, name ∈ files → 0 <= j → x ≠ int_name (file_id files name) j) → fs1 !! x = fs !! x) →
  (∀ x, glob_match Y x = true → fs2 !! x = fs1 !! x) →
  ∃ fs3, doReduce reducef (mkMrReply "" n 0 Y 2 0) fs2 = Some fs3 ∧ fs3 !! out_name Y = expected n fs files Y ∧
    ∀ x, x ≠ out_name Y → fs3 !! x = fs2 !! x.
Proof.
  intros Hio Hr HY Hmap Hother Hfs2. pose proof Hio as [Hnd Hex Hfresh Hvalid].
  assert (read_box Y fs2 ≡ₚ in_bucket n Y (all_pairs fs files)) as Hbox.
  { apply read_box_mapped; [done|done| |].
    - intros name Hin. rewrite Hfs2 by (apply glob_int_name; [by apply file_id_spec|lia|lia|done]).
      pose proof (Hmap name Hin (Z.to_nat Y)) as Hm. rewrite Z2Nat.id in Hm by lia. apply Hm. lia.
    - intros x Hs Hg. rewrite Hfs2 in Hs by done.
      destruct (decide (Exists (λ name, x = int_name (file_id files name) Y) files)) as [He|Hno].
      { by apply Exists_exists in He. }
      exfalso. apply (Hfresh x); [|by apply glob_match_true in Hg as [? _]]. rewrite <-Hother; [done|].
      intros name j Hin Hj ->. apply glob_int_name in Hg; [|by apply file_id_spec|done|lia]. subst j.
      apply Hno, Exists_exists. by exists name. }
  rewrite doReduce_spec. simpl r_TaskId. destruct (bucket_output n Y _ _ Hr Hbox) as [Ht He]. unfold expected.
  destruct (read_box Y fs2) as [|kv box] eqn:Hb.
  - exists fs2. split_and!; [done| |done]. rewrite (proj1 He eq_refl). rewrite Hfs2 by (apply glob_out_name; lia).
    rewrite Hother.
    + apply eq_None_not_Some. intros Hs. by apply (Hfresh _ Hs), out_name_mr.
    + intros name j Hin Hj Hx. apply (out_int_name Y (file_id files name) j); [lia|by apply file_id_spec|done|done].
  - eexists. split; [done|]. split; [|intros x Hx; by apply lookup_insert_ne]. rewrite lookup_insert_eq, Ht.
    destruct (filter _ _) eqn:Hf; [|done]. by destruct He as [_ He]; specialize (He eq_refl).
Qed.
End job.

End MrCorrect.
