(* ===== verification/MrSpec.v ===== *)
(** What the MapReduce part guarantees: the theorems about the coordinator, the
    tasks and a whole job, with a concrete job. *)

From Stdlib Require Import Ascii.
From stdpp Require Import pretty.
From S2P Require Import Prelude GoStd Mr MrProof MrJob MrWorker MrWorkerProof MrCorrect.

#[local] Open Scope Z_scope.
#[local] Open Scope go_scope.

Module MrSpec.
Export MrCorrect.

#[local] Arguments String.append : simpl nomatch.

(** ** A codec with the contract of [GoJson]

    Each character is preceded by a 1, each string ended by a 0. *)

Fixpoint tag (s : string) : string :=
  match s with EmptyString => "0" | String a s => String "1" (String a (tag s)) end.

Fixpoint untag (s : string) (key : option string) (cur : string) : list KeyValue :=
  match s with
  | EmptyString => []
  | String t s1 =>
      if Ascii.eqb t "0" then
        match key with
        | None => untag s1 (Some cur) ""
        | Some k => mkKeyValue k cur :: untag s1 None ""
        end
      else match s1 with EmptyString => [] | String a s2 => untag s2 key (cur +:+ String a "") end
  end.

Lemma untag_tag v rest key cur : untag (tag v +:+ rest) key cur = untag (String "0" rest) key (cur +:+ v).
Proof.
  revert cur. induction v as [|a v IH]; intros cur; simpl; [by rewrite str_app_nil|].
  rewrite IH. simpl. by rewrite str_app_assoc.
Qed.

#[export] Instance tag_GoJson : GoJson.
Proof.
  refine {| json_encode kv := tag (Key kv) +:+ tag (Value kv); json_decode s := untag s None "" |}.
  intros l _. induction l as [|[k v] l IH]; [done|]. simpl map. rewrite concat_strings_cons. simpl.
  rewrite str_app_assoc, untag_tag. simpl. rewrite untag_tag. simpl. by rewrite IH.
Defined.

(** ** The sequential program *)

Section seq.
Context `{GoSort} `{GoJson} (mapf : string → string → list KeyValue) (reducef : string → list string → string).

Lemma map_all_spec names fs :
  (∀ name, name ∈ names → is_Some (fs !! name)) → map_all mapf names fs = Some (all_pairs mapf fs names).
Proof.
  induction names as [|name names IH]; intros Hs; simpl; [done|].
  destruct (Hs name) as [c Hc]; [left|]. unfold all_pairs, content. simpl. rewrite Hc. simpl.
  rewrite IH by (intros; apply Hs; by right). done.
Qed.

Lemma mrsequential_result names fs :
  order_free reducef → (∀ name, name ∈ names → is_Some (fs !! name)) →
  let l := all_pairs mapf fs names in
  mrsequential mapf reducef names fs = Some (<["mr-out-0" := text reducef l (keys (go_sort ByKey_Less l))]> fs).
Proof.
  intros Hr Hs l. unfold mrsequential. rewrite map_all_spec by done. fold l. cbv beta iota zeta delta [mbind option_bind].
  pose proof (seq_loop_spec reducef [] (go_sort ByKey_Less l) "" (S (List.length (go_sort ByKey_Less l)))) as Hl.
  simpl app in Hl. change (zlen []) with 0 in Hl. rewrite Hl by lia. simpl.
  rewrite lines_sorted by apply sort_kv_sorted. do 2 f_equal. apply text_perm; [done|apply go_sort_perm].
Qed.

Lemma job_output n fs files names maps reduces :
  0 < n → inputs_ok mapf fs files → order_free reducef → names ≡ₚ files →
  Forall2 (map_action n (file_ids files)) names maps → Forall2 (reduce_action n) (seq 0 (Z.to_nat n)) reduces →
  ∃ fs', exec_actions mapf reducef ((maps ++ [Wait]) ++ (reduces ++ [Wait])) fs = Some fs' ∧
    ∀ Y, 0 <= Y < n → fs' !! out_name Y = expected mapf reducef n fs files Y.
Proof.
  intros Hn Hio Hr Hp Hmaps Hreds. pose proof (io_nodup _ _ _ Hio) as Hnd.
  destruct (exec_maps mapf reducef n (file_ids files) names maps fs Hn Hmaps) as (fs1 & Hex1 & Hm1 & Ho1).
  { intros name Hin. rewrite Hp in Hin. pose proof (io_exist _ _ _ Hio name Hin) as Hs.
    split_and!; [done|by eapply io_fresh|by apply (file_id_spec files name)]. }
  { intros a b Ha Hb He. rewrite Hp in Ha, Hb. apply (file_id_spec _ _ Hnd) in Ha as [_ Ha], Hb as [_ Hb].
    unfold file_id in *. rewrite He in Ha. congruence. }
  destruct (exec_reduces mapf reducef n 0 (Z.to_nat n) reduces fs1 (expected mapf reducef n fs files) Hreds)
    with (fs1 := fs1) as (fs2 & Hex2 & Hout & _); [|done|].
  { intros fs2 Y HY Hfs2. apply (reduce_output mapf reducef n fs files fs1); [done|done|lia| | |done].
    - intros name Hin. apply Hm1. by rewrite Hp.
    - intros x Hx. apply Ho1. intros name j Hin. rewrite Hp in Hin. by apply Hx. }
  exists fs2. split.
  - rewrite !exec_actions_app, Hex1. simpl. rewrite exec_actions_app, Hex2. done.
  - intros Y HY. specialize (Hout (Z.to_nat Y)). rewrite Z2Nat.id in Hout by lia. apply Hout. lia.
Qed.
End seq.

(** ** A concrete job

    Two files, two reduce tasks; [Map] emits the content and a common key,
    [Reduce] counts. *)

Definition sample_files : list string := ["a.txt"; "b.txt"].
Definition sample_fs : FileSystem := {["a.txt" := "x"; "b.txt" := "y"]}.
Definition sample_map (name content : string) : list KeyValue := [mkKeyValue content "1"; mkKeyValue "z" name].
Definition sample_reduce (key : string) (vs : list string) : string := pretty (List.length vs).
Definition sample_master : Master := default (mkMaster ∅ [] 0 1 false false ∅ ∅ []) (MakeMaster sample_files 2).
Definition key_list (m : Master) : list string := elements (dom (mmap m)).

Lemma key_list_order m : key_order m (key_list m).
Proof. unfold key_order, key_list. reflexivity. Qed.

Lemma sample_reduce_order_free : order_free sample_reduce.
Proof. intros k vs vs' Hp. unfold sample_reduce. by rewrite Hp. Qed.

Lemma sample_inputs : inputs_ok sample_map sample_fs sample_files.
Proof.
  constructor.
  - by apply (bool_decide_unpack _); vm_compute.
  - apply Forall_forall. repeat constructor; by eexists.
  - unfold sample_fs. intros name [c Hc]. revert Hc. rewrite lookup_insert_Some, lookup_singleton_Some.
    unfold mr_name. intros [[<- _]|(_ & <- & _)] Hp;
      by apply (bool_decide_pack _) in Hp; vm_compute in Hp.
  - apply Forall_forall. repeat constructor.
Qed.

(** ** The coordinator *)

(** C9: In every run of the coordinator, whatever workers ask or report and in
    whatever order maps are iterated: the bookkeeping stays consistent, reduce
    tasks are handed out only when every map task is finished, what is finished
    stays finished, and [Done] means that every task is finished. *)
Theorem master_safety files nReduce m0 m1 m2 :
  MakeMaster files nReduce = Some m0 → rtc step m0 m1 → rtc step m1 m2 →
  wf m2 ∧ keeps m1 m2 ∧
  ((1 ∈ rtask m1) → ∀ i v, mmap m2 !! i = Some v → v = 2) ∧
  (Done m1 = true → (∀ i v, mmap m2 !! i = Some v → v = 2) ∧ (∀ v, v ∈ rtask m2 → v = 2)).
Proof.
  intros Hm H01 H12. destruct (steps_keeps _ _ (MakeMaster_wf _ _ _ Hm) H01) as [Hwf1 _].
  destruct (steps_keeps _ _ Hwf1 H12) as [Hwf2 Hk]. split; [done|]. split; [done|]. split.
  - intros Hin. apply (wf_mdone _ Hwf2), (kp_mdone _ _ Hk).
    destruct (mdone m1) eqn:Hmd; [done|]. by destruct (wf_rphase _ Hwf1 Hmd 1 Hin).
  - unfold Done. intros [H1 H2]%andb_true_iff. split.
    + by apply (wf_mdone _ Hwf2), (kp_mdone _ _ Hk).
    + apply (wf_rdone _ Hwf2), (kp_rdone _ _ Hk), H2.
Qed.

(** A run of the coordinator: workers ask at the given times and report. *)
Inductive event := Asks (now : Z) | Reports (args : MrArgs).

Definition serve (e : event) (m : Master) : option Master :=
  match e with
  | Asks now => fst <$> GiveTask (key_list m) (key_list m) now (CallforTask 0) m
  | Reports args => TaskFinish args m
  end.

Fixpoint serve_all (es : list event) (m : Master) : option Master :=
  match es with [] => Some m | e :: es => m ← serve e m; serve_all es m end.

Lemma serve_steps es m m' : serve_all es m = Some m' → rtc step m m'.
Proof.
  revert m. induction es as [|e es IH]; intros m Hs; simpl in Hs; [by injection Hs as ->|].
  apply bind_Some in Hs as (m1 & He & Hs). apply rtc_l with m1; [|by apply IH]. destruct e as [now|args]; simpl in He.
  - apply fmap_Some in He as ([m2 reply] & Hg & ->). by eapply step_give; [apply key_list_order..|exact Hg].
  - by eapply step_finish.
Qed.

(** Both map tasks are handed out and reported, and the first reduce task is handed
    out; in [sample_over] both reduce tasks are finished, after the first timed out
    and was handed out again. *)
Definition reports_map (name : string) : event := Reports (mkMrArgs 1 name 0 0).
Definition reports_reduce (i : Z) : event := Reports (mkMrArgs 2 "" 0 i).
Definition reducing_run : list event := [Asks 1; Asks 1; reports_map "a.txt"; reports_map "b.txt"; Asks 2; Asks 3].
Definition over_run : list event :=
  [Asks 4; reports_reduce 1; Asks (6 * second); Asks (6 * second); reports_reduce 0; Asks (7 * second)].
Definition late_run : list event := [reports_reduce 0; reports_map "a.txt"; Asks (8 * second)].
Definition sample_reducing : Master := default sample_master (serve_all reducing_run sample_master).
Definition sample_over : Master := default sample_master (serve_all over_run sample_reducing).
Definition sample_late : Master := default sample_master (serve_all late_run sample_over).

Lemma master_safety_witness :
  1 ∈ rtask sample_reducing ∧ (∀ i v, mmap sample_over !! i = Some v → v = 2) ∧ keeps sample_reducing sample_over ∧
  Done sample_over = true ∧ (∀ v, v ∈ rtask sample_late → v = 2).
Proof.
  assert (rtc step sample_master sample_reducing) as H1 by (apply (serve_steps reducing_run); by vm_compute).
  assert (rtc step sample_reducing sample_over) as H2 by (apply (serve_steps over_run); by vm_compute).
  assert (rtc step sample_over sample_late) as H3 by (apply (serve_steps late_run); by vm_compute).
  assert (1 ∈ rtask sample_reducing) as Hr by (apply (bool_decide_unpack _); by vm_compute).
  assert (Done sample_over = true) as Hd by (by vm_compute).
  destruct (master_safety sample_files 2 sample_master sample_reducing sample_over) as (_ & Hk & Hm & _); [done..|].
  destruct (master_safety sample_files 2 sample_master sample_over sample_late) as (_ & _ & _ & Hf); [done|by etrans|done|].
  split; [exact Hr|]. split; [exact (Hm Hr)|]. split; [exact Hk|]. split; [exact Hd|]. exact (proj2 (Hf Hd)).
Defined.

(** [GiveTask] never panics on a consistent state and takes one of its
    branches: it hands out a task that was not started, the map tasks first; or
    closes a phase whose tasks are all finished; or takes back a task that was
    handed out more than five seconds ago; or tells the worker to wait. *)
Lemma give_task_correct order1 order2 now args m :
  wf m → key_order m order1 → key_order m order2 →
  ∃ m' reply, GiveTask order1 order2 now args m = Some (m', reply) ∧ give_result now args m m' reply ∧
    wf m' ∧ keeps m m'.
Proof.
  intros Hwf H1 H2. destruct (GiveTask_spec order1 order2 now args m Hwf H1 H2) as (m' & reply & Hg & Hr).
  exists m', reply. split_and!; [done|done|by eapply give_result_wf|by eapply give_result_keeps].
Qed.

Lemma give_task_correct_witness :
  ∃ m' reply, GiveTask (key_list sample_master) (key_list sample_master) 7 (CallforTask 0) sample_master = Some (m', reply) ∧
    give_result 7 (CallforTask 0) sample_master m' reply ∧ wf m' ∧ keeps sample_master m'.
Proof.
  apply (give_task_correct (key_list sample_master) (key_list sample_master) 7 (CallforTask 0) sample_master);
    [by apply (MakeMaster_wf sample_files 2)|apply key_list_order|apply key_list_order].
Defined.

(** A worker that does not fail finishes the job: it is given every map task
    once, then every reduce task once and in order, and after one round per task
    and one per phase [Done] holds. *)
Lemma job_terminates (order : Master → list string) files nReduce m now :
  (∀ m, key_order m (order m)) → MakeMaster files nReduce = Some m → "" ∉ files →
  ∃ id' m' names maps reduces,
    rounds order now (S (List.length (remove_dups files)) + S (Z.to_nat nReduce)) (0, m) =
      Some ((id', m'), (maps ++ [Wait]) ++ (reduces ++ [Wait])) ∧
    Done m' = true ∧ names ≡ₚ remove_dups files ∧
    Forall2 (map_action nReduce (file_ids files)) names maps ∧
    Forall2 (reduce_action nReduce) (seq 0 (Z.to_nat nReduce)) reduces.
Proof. intros Ho Hm Hne. by apply (job_rounds order Ho files nReduce m now). Qed.

Lemma job_terminates_witness :
  ∃ id' m' names maps reduces,
    rounds key_list (λ _, 0) 6 (0, sample_master) = Some ((id', m'), (maps ++ [Wait]) ++ (reduces ++ [Wait])) ∧
    Done m' = true ∧ names ≡ₚ remove_dups sample_files ∧
    Forall2 (map_action 2 (file_ids sample_files)) names maps ∧
    Forall2 (reduce_action 2) (seq 0 2) reduces.
Proof.
  apply (job_terminates key_list sample_files 2 sample_master (λ _, 0)); [exact key_list_order|done|].
  by apply (bool_decide_unpack _); vm_compute.
Defined.

(** ** The tasks *)

(** C36: [doMap] writes each pair to the file of its reduce task, in order, and
    leaves every other file as it is, those named like the files of further reduce
    tasks included; hashing never selects a task out of range. *)
Theorem doMap_correct `{GoJson} mapf reply c (fs : FileSystem) :
  0 < r_NReduce reply → 0 <= r_MapId reply → fs !! r_TaskName reply = Some c →
  ∃ fs', doMap mapf reply fs = Some fs' ∧ mapped mapf (r_NReduce reply) (r_MapId reply) (r_TaskName reply) c fs' ∧
    (∀ name, (∀ j, 0 <= j < r_NReduce reply → name ≠ int_name (r_MapId reply) j) → fs' !! name = fs !! name).
Proof. apply doMap_spec. Qed.

Lemma doMap_correct_witness :
  let reply := mkMrReply "a.txt" 2 0 0 1 0 in
  ∃ fs', doMap sample_map reply sample_fs = Some fs' ∧ mapped sample_map 2 0 "a.txt" "x" fs' ∧
    (∀ name, (∀ j, 0 <= j < 2 → name ≠ int_name 0 j) → fs' !! name = sample_fs !! name).
Proof. apply (doMap_correct sample_map (mkMrReply "a.txt" 2 0 0 1 0) "x" sample_fs); simpl; [lia|lia|done]. Defined.

(** Map tasks may be executed in any order and any number of times, as the
    coordinator's time-outs make happen: the intermediate files are those of one
    execution each, and the other files stay. *)
Lemma maps_idempotent `{GoSort} `{GoJson} mapf reducef n (ids : gmap string Z) names acts (fs : FileSystem) :
  0 < n → Forall2 (map_action n ids) names acts →
  (∀ name, name ∈ names → is_Some (fs !! name) ∧ ¬ mr_name name ∧ 0 <= default 0 (ids !! name)) →
  (∀ a b, a ∈ names → b ∈ names → default 0 (ids !! a) = default 0 (ids !! b) → a = b) →
  ∃ fs', exec_actions mapf reducef acts fs = Some fs' ∧
    (∀ name, name ∈ names → mapped mapf n (default 0 (ids !! name)) name (content fs name) fs') ∧
    (∀ x, (∀ name j, name ∈ names → 0 <= j → x ≠ int_name (default 0 (ids !! name)) j) → fs' !! x = fs !! x).
Proof. apply exec_maps. Qed.

Lemma maps_idempotent_witness :
  let a := DoMap (mkMrReply "a.txt" 2 0 0 1 0) in
  ∃ fs', exec_actions sample_map sample_reduce [a; a] sample_fs = Some fs' ∧
    (∀ name, name ∈ ["a.txt"; "a.txt"] →
       mapped sample_map 2 (default 0 (file_ids sample_files !! name)) name (content sample_fs name) fs') ∧
    (∀ x, (∀ name j, name ∈ ["a.txt"; "a.txt"] → 0 <= j → x ≠ int_name (default 0 (file_ids sample_files !! name)) j) →
       fs' !! x = sample_fs !! x).
Proof.
  apply (maps_idempotent sample_map sample_reduce 2 (file_ids sample_files) ["a.txt"; "a.txt"]
    [DoMap (mkMrReply "a.txt" 2 0 0 1 0); DoMap (mkMrReply "a.txt" 2 0 0 1 0)] sample_fs).
  - lia.
  - repeat constructor; by eexists.
  - intros name Hin. assert (name = "a.txt") as -> by (rewrite !elem_of_cons, elem_of_nil in Hin; naive_solver).
    split_and!; [by eexists|eapply (io_fresh _ _ _ sample_inputs); by eexists|done].
  - intros a b Ha Hb _. rewrite !elem_of_cons, elem_of_nil in Ha, Hb. naive_solver.
Defined.

(** [doReduce] never panics; it writes one line per key of the pairs it
    read, in the order of the keys, with all values of the key, and writes no
    file when there are none. *)
Lemma doReduce_correct `{GoSort} `{GoJson} reducef reply (fs : FileSystem) :
  doReduce reducef reply fs =
    Some (match read_box (r_TaskId reply) fs with
          | [] => fs
          | box => let l := go_sort ByKey_Less box in <[out_name (r_TaskId reply) := text reducef l (keys l)]> fs
          end) ∧
  ∀ l, StronglySorted str_lt (keys (go_sort ByKey_Less l)) ∧
       ∀ k, k ∈ keys (go_sort ByKey_Less l) ↔ ∃ kv, kv ∈ l ∧ Key kv = k.
Proof.
  split.
  - rewrite doReduce_spec. by destruct (read_box _ _).
  - intros l. split; [apply keys_sorted, sort_kv_sorted|]. intros k. rewrite elem_of_keys.
    by setoid_rewrite (go_sort_perm ByKey_Less).
Qed.

(** The sequential program terminates and writes one line per key of all
    pairs, in the order of the keys. *)
Lemma mrsequential_correct `{GoSort} `{GoJson} mapf reducef names (fs : FileSystem) :
  order_free reducef → (∀ name, name ∈ names → is_Some (fs !! name)) →
  mrsequential mapf reducef names fs =
    Some (<["mr-out-0" := text reducef (all_pairs mapf fs names) (keys (go_sort ByKey_Less (all_pairs mapf fs names)))]> fs).
Proof. apply mrsequential_result. Qed.

Lemma mrsequential_correct_witness :
  mrsequential sample_map sample_reduce sample_files sample_fs =
    Some (<["mr-out-0" := text sample_reduce (all_pairs sample_map sample_fs sample_files)
              (keys (go_sort ByKey_Less (all_pairs sample_map sample_fs sample_files)))]> sample_fs).
Proof.
  apply (mrsequential_correct sample_map sample_reduce sample_files sample_fs);
    [exact sample_reduce_order_free|exact (io_exist _ _ _ sample_inputs)].
Defined.

(** What a job leaves, for any [Map] and [Reduce] the framework can use. *)
Lemma job_result `{GoSort} `{GoJson} mapf reducef order now files nReduce m (fs : FileSystem) :
  (∀ m, key_order m (order m)) → MakeMaster files nReduce = Some m → 0 < nReduce → "" ∉ files →
  inputs_ok mapf fs files → order_free reducef →
  ∃ k s acts fs',
    rounds order now k (0, m) = Some (s, acts) ∧ Done s.2 = true ∧ exec_actions mapf reducef acts fs = Some fs' ∧
    ∀ Y, 0 <= Y < nReduce → fs' !! out_name Y = expected mapf reducef nReduce fs files Y.
Proof.
  intros Ho Hm Hn Hne Hio Hr.
  destruct (job_rounds order Ho files nReduce m now Hm Hne) as (id' & m' & names & maps & reduces & Hrd & Hd & Hp & Hmaps & Hreds).
  assert (remove_dups files ≡ₚ files) as Hdup.
  { apply NoDup_Permutation; [apply NoDup_remove_dups|apply (io_nodup _ _ _ Hio)|apply elem_of_remove_dups]. }
  rewrite Hdup in Hp.
  destruct (job_output mapf reducef nReduce fs files names maps reduces Hn Hio Hr Hp Hmaps Hreds) as (fs' & Hex & Hout).
  eexists _, _, _, fs'. by split_and!.
Qed.

(** C15: A whole job agrees with the sequential program: when [Reduce] does not
    depend on the order of the values, the job of a worker that does not fail
    ends, and the output of reduce task [Y] has exactly the lines of the
    sequential output whose keys hash to [Y], in the same order. *)
Theorem mapreduce_job_correct `{GoSort} `{GoJson} mapf reducef order now files nReduce m (fs : FileSystem) :
  (∀ m, key_order m (order m)) → MakeMaster files nReduce = Some m → 0 < nReduce → "" ∉ files →
  inputs_ok mapf fs files → order_free reducef →
  ∃ k s acts fs' fs_seq,
    rounds order now k (0, m) = Some (s, acts) ∧ Done s.2 = true ∧
    exec_actions mapf reducef acts fs = Some fs' ∧ mrsequential mapf reducef files fs = Some fs_seq ∧
    let l := all_pairs mapf fs files in let ks := keys (go_sort ByKey_Less l) in
    fs_seq !! "mr-out-0" = Some (text reducef l ks) ∧
    ∀ Y, 0 <= Y < nReduce →
      fs' !! out_name Y =
        match filter (λ k, bucket nReduce k = Y) ks with [] => None | ksY => Some (text reducef l ksY) end.
Proof.
  intros Ho Hm Hn Hne Hio Hr.
  destruct (job_result mapf reducef order now files nReduce m fs Ho Hm Hn Hne Hio Hr) as (k & s & acts & fs' & Hrd & Hd & Hex & Hout).
  eexists k, s, acts, fs', _. split_and!; [done..| |].
  - apply mrsequential_result; [done|apply (io_exist _ _ _ Hio)].
  - split; [apply lookup_insert_eq|exact Hout].
Qed.

Lemma mapreduce_job_correct_witness :
  ∃ k s acts fs' fs_seq,
    rounds key_list (λ _, 0) k (0, sample_master) = Some (s, acts) ∧ Done s.2 = true ∧
    exec_actions sample_map sample_reduce acts sample_fs = Some fs' ∧
    mrsequential sample_map sample_reduce sample_files sample_fs = Some fs_seq ∧
    let l := all_pairs sample_map sample_fs sample_files in let ks := keys (go_sort ByKey_Less l) in
    fs_seq !! "mr-out-0" = Some (text sample_reduce l ks) ∧
    ∀ Y, 0 <= Y < 2 →
      fs' !! out_name Y =
        match filter (λ k, bucket 2 k = Y) ks with [] => None | ksY => Some (text sample_reduce l ksY) end.
Proof.
  apply (mapreduce_job_correct sample_map sample_reduce key_list (λ _, 0) sample_files 2 sample_master sample_fs);
    [exact key_list_order|done|lia| |exact sample_inputs|exact sample_reduce_order_free].
  by apply (bool_decide_unpack _); vm_compute.
Defined.

End MrSpec.
