(* ===== verification/MrApps.v ===== *)
(** The applications mrapps/wc.go, mrapps/indexer.go, mrapps/crash.go and
    mrapps/nocrash.go: what they compute, and that the framework may run them. *)

From Stdlib Require Import Ascii.
From stdpp Require Import pretty.
From S2P Require Import Prelude GoStd Mr MrProof MrJob MrWorker MrWorkerProof MrCorrect MrSpec.

#[local] Open Scope Z_scope.

Module MrApps.
Export MrCorrect.
Import MrSpec.

(** * Standard library *)

Definition RuneError : Z := 65533.

(** [unicode.IsLetter]; the replacement character is not a letter. *)
Class GoUnicode := {
  IsLetter : Z → bool;
  IsLetter_error : IsLetter RuneError = false;
}.

Definition byte (a : ascii) : Z := Z.of_N (N_of_ascii a).

(** The runes of a string with their bytes, as [range] decodes them: a byte that
    starts no valid sequence is a [RuneError] of width 1. *)
Fixpoint runes (s : string) : list (Z * string) :=
  match s with
  | EmptyString => []
  | String a s1 =>
      let bad := (RuneError, String a "") :: runes s1 in
      if in_range 0 127 a then (byte a, String a "") :: runes s1
      else
        match s1 with
        | EmptyString => bad
        | String b s2 =>
            if in_range 194 223 a then
              if in_range 128 191 b then
                ((byte a - 192) * 64 + (byte b - 128), String a (String b "")) :: runes s2
              else bad
            else
              match s2 with
              | EmptyString => bad
              | String c s3 =>
                  if in_range 224 239 a then
                    if in_range (if in_range 224 224 a then 160 else 128) (if in_range 237 237 a then 159 else 191) b &&
                       in_range 128 191 c
                    then ((byte a - 224) * 4096 + (byte b - 128) * 64 + (byte c - 128), String a (String b (String c ""))) :: runes s3
                    else bad
                  else
                    match s3 with
                    | EmptyString => bad
                    | String d s4 =>
                        if in_range 240 244 a &&
                           in_range (if in_range 240 240 a then 144 else 128) (if in_range 244 244 a then 143 else 191) b &&
                           in_range 128 191 c && in_range 128 191 d
                        then ((byte a - 240) * 262144 + (byte b - 128) * 4096 + (byte c - 128) * 64 + (byte d - 128),
                              String a (String b (String c (String d "")))) :: runes s4
                        else bad
                    end
              end
        end
  end.

Definition bytes_of (rs : list (Z * string)) : string := concat_strings (map snd rs).

(** The loop of [strings.FieldsFunc]: [cur] is the field that has been started. *)
Fixpoint fields (f : Z → bool) (rs : list (Z * string)) (cur : option string) : list string :=
  match rs with
  | [] => option_list cur
  | (r, bs) :: rs =>
      if f r then option_list cur ++ fields f rs None
      else fields f rs (Some (default "" cur +:+ bs))
  end.

Definition FieldsFunc (s : string) (f : Z → bool) : list string := fields f (runes s) None.

(** [strings.Join] *)
Definition Join (l : list string) (sep : string) : string := String.concat sep l.

(** * The applications *)

Section apps.
Context `{GoUnicode} `{GoSort} `{GoMapOrder}.

(** ** wc.go *)

Definition ff (r : Z) : bool := negb (IsLetter r).

Definition wc_Map (filename contents : string) : list KeyValue :=
  let words := FieldsFunc contents ff in
  foldl (λ kva w, kva ++ [mkKeyValue w "1"]) [] words.

Definition wc_Reduce (key : string) (values : list string) : string := Itoa (zlen values).

(** ** indexer.go *)

Definition indexer_Map (document value : string) : list KeyValue :=
  let words := FieldsFunc value (λ x, negb (IsLetter x)) in
  let m := foldl (λ m w, <[w := true]> m) (∅ : gmap string bool) words in
  foldl (λ res w, res ++ [mkKeyValue w document]) [] (map_order (map_to_list m).*1).

Definition indexer_Reduce (key : string) (values : list string) : string :=
  let values := go_sort String.ltb values in
  Itoa (zlen values) +:+ " " +:+ Join values ",".

(** ** crash.go and nocrash.go *)

(** [rr] is the random number below 1000; [false] is [os.Exit(1)], a delay is no
    different from going on. *)
Definition crash_maybeCrash (rr : Z) : bool := negb (rr <? 330).
Definition nocrash_maybeCrash (rr : Z) : bool := negb (false && (rr <? 500)).

Definition pseudo_Map (filename contents : string) : list KeyValue :=
  [mkKeyValue "a" filename; mkKeyValue "b" (Itoa (Z.of_nat (String.length filename)));
   mkKeyValue "c" (Itoa (Z.of_nat (String.length contents))); mkKeyValue "d" "xyzzy"].

Definition pseudo_Reduce (key : string) (values : list string) : string :=
  let vv := go_sort String.ltb values in Join vv " ".

Definition crash_Map (rr : Z) (filename contents : string) : option (list KeyValue) :=
  if crash_maybeCrash rr then Some (pseudo_Map filename contents) else None.
Definition crash_Reduce (rr : Z) (key : string) (values : list string) : option string :=
  if crash_maybeCrash rr then Some (pseudo_Reduce key values) else None.
Definition nocrash_Map (rr : Z) (filename contents : string) : option (list KeyValue) :=
  if nocrash_maybeCrash rr then Some (pseudo_Map filename contents) else None.
Definition nocrash_Reduce (rr : Z) (key : string) (values : list string) : option string :=
  if nocrash_maybeCrash rr then Some (pseudo_Reduce key values) else None.

End apps.
End MrApps.
