(* ===== verification/MrAppsSpec.v ===== *)
(** What the applications under mrapps/ compute: words are the maximal runs of
    letters, the word-count job counts them, and no [Reduce] depends on the order
    of its values. *)

From Stdlib Require Import Ascii.
From stdpp Require Import pretty.
From S2P Require Import Prelude GoStd Mr MrProof MrJob MrWorker MrWorkerProof MrCorrect MrSpec MrApps.

#[local] Open Scope Z_scope.

Module MrAppsSpec.
Export MrApps.
Import MrSpec.

#[local] Arguments String.append : simpl nomatch.

(** ** Runes *)

(** A rune is its bytes, decoded as a unit, or an error. *)
Definition rune_ok (x : Z * string) : Prop :=
  x.1 = RuneError ∨ ∀ t, utf8_valid (x.2 +:+ t) = utf8_valid t.

Definition decodes (s : string) (rs : list (Z * string)) : Prop := bytes_of rs = s ∧ Forall rune_ok rs.

Lemma bytes_of_cons r bs rs : bytes_of ((r, bs) :: rs) = bs +:+ bytes_of rs.
Proof. apply concat_strings_cons. Qed.

Lemma bytes_of_app rs1 rs2 : bytes_of (rs1 ++ rs2) = bytes_of rs1 +:+ bytes_of rs2.
Proof. unfold bytes_of. by rewrite map_app, concat_strings_app. Qed.

Lemma decodes_cons r bs s rs : rune_ok (r, bs) → decodes s rs → decodes (bs +:+ s) ((r, bs) :: rs).
Proof. intros Hr [Hb Hf]. split; [by rewrite bytes_of_cons, Hb|by constructor]. Qed.

Lemma runes_decodes s : decodes s (runes s).
Proof.
  assert (∀ k s, (String.length s <= k)%nat → decodes s (runes s)) as Hk; [|by eapply Hk].
  clear s. intros k. induction k as [|k IH]; intros s Hle.
  { destruct s; [by split; [|constructor]|simpl in Hle; lia]. }
  destruct s as [|a s1]; [by split; [|constructor]|]. simpl in Hle.
  assert (decodes (String a s1) ((RuneError, String a "") :: runes s1)) as Hbad.
  { apply (decodes_cons RuneError (String a "")); [by left|apply IH; lia]. }
  simpl. destruct (in_range 0 127 a) eqn:Ha.
  { apply (decodes_cons _ (String a "")); [|apply IH; lia]. right. intros t. simpl. by rewrite Ha. }
  destruct s1 as [|b s2]; [done|]. simpl in Hle. destruct (in_range 194 223 a) eqn:Ha2.
  { destruct (in_range 128 191 b) eqn:Hb; [|done]. apply (decodes_cons _ (String a (String b ""))); [|apply IH; lia].
    right. intros t. simpl. by rewrite Ha, Ha2, Hb. }
  destruct s2 as [|c s3]; [done|]. simpl in Hle. destruct (in_range 224 239 a) eqn:Ha3.
  { destruct (_ && _) eqn:Hb; [|done]. apply (decodes_cons _ (String a (String b (String c "")))); [|apply IH; lia].
    right. intros t. simpl. by rewrite Ha, Ha2, Ha3, Hb. }
  destruct s3 as [|d s4]; [done|]. simpl in Hle. destruct (_ && _) eqn:Hb; [|done].
  apply (decodes_cons _ (String a (String b (String c (String d ""))))); [|apply IH; lia].
  right. intros t. simpl. by rewrite Ha, Ha2, Ha3, Hb.
Qed.

Lemma valid_bytes (rs : list (Z * string)) :
  Forall rune_ok rs → Forall (λ x, x.1 ≠ RuneError) rs → utf8_valid (bytes_of rs) = true.
Proof.
  induction rs as [|[r bs] rs IH]; intros Ho Hr; [done|]. apply Forall_cons in Ho as [[He|Ho] Hos], Hr as [Hr Hrs].
  - by destruct Hr.
  - rewrite bytes_of_cons. simpl in Ho. rewrite Ho. by apply IH.
Qed.

(** ** [FieldsFunc] *)

(** [ws] are the maximal runs in [rs] of runes that do not satisfy [f]. *)
Inductive splits (f : Z → bool) : list (Z * string) → list (list (Z * string)) → Prop :=
| splits_end rs : Forall (λ x, f x.1 = true) rs → splits f rs []
| splits_word pre w rest ws :
    Forall (λ x, f x.1 = true) pre → w ≠ [] → Forall (λ x, f x.1 = false) w →
    (∀ x, head rest = Some x → f x.1 = true) → splits f rest ws → splits f (pre ++ w ++ rest) (w :: ws).

Lemma splits_sep f x rs ws : f x.1 = true → splits f rs ws → splits f (x :: rs) ws.
Proof.
  intros Hx Hs. destruct Hs as [rs Hrs|pre w rest ws Hpre Hw Hf Hhd Hs]; [constructor; by constructor|].
  apply (splits_word f (x :: pre)); try done. by constructor.
Qed.

Lemma fields_splits f rs w :
  Forall (λ x, f x.1 = false) w →
  ∃ ws, splits f (w ++ rs) ws ∧ fields f rs (match w with [] => None | _ => Some (bytes_of w) end) = map bytes_of ws.
Proof.
  revert w. induction rs as [|[r bs] rs IH]; intros w Hw.
  - simpl. destruct w as [|x w]; [exists []; split; [by constructor|done]|].
    exists [x :: w]. split; [|done]. apply (splits_word f [] (x :: w) []); try done. by constructor.
  - cbn [fields]. destruct (f r) eqn:Hr.
    + destruct (IH []) as (ws & Hs & Hf); [constructor|]. simpl in Hs, Hf. rewrite Hf. destruct w as [|x w].
      * exists ws. split; [by apply (splits_sep f (r, bs))|done].
      * exists ((x :: w) :: ws). split; [|done]. apply (splits_word f [] (x :: w)); try done; [by intros y [= <-]|].
        by apply (splits_sep f (r, bs)).
    + destruct (IH (w ++ [(r, bs)])) as (ws & Hs & Hf); [by apply Forall_app; split; [|constructor]|].
      exists ws. split; [by rewrite <- app_assoc in Hs|]. rewrite <- Hf. f_equal.
      destruct w as [|x w]; [simpl; by rewrite bytes_of_cons, str_app_nil|].
      cbn [app]. change (x :: w ++ [(r, bs)]) with ((x :: w) ++ [(r, bs)]).
      rewrite bytes_of_app, bytes_of_cons, str_app_nil. done.
Qed.

Lemma splits_elem f rs ws w : splits f rs ws → w ∈ ws → w ≠ [] ∧ Forall (λ x, f x.1 = false) w ∧ w ⊆ rs.
Proof.
  induction 1 as [|pre w' rest ws Hpre Hne Hf _ _ IH]; [by intros ?%elem_of_nil|].
  intros [->|Hw]%elem_of_cons; [|destruct (IH Hw) as (? & ? & ?)]; split_and!; (done || set_solver).
Qed.

(** The words of a string are valid UTF-8 if errors separate them. *)
Lemma words_valid f s : f RuneError = true → Forall (λ w, utf8_valid w = true) (FieldsFunc s f).
Proof.
  intros Hf. destruct (fields_splits f (runes s) []) as (ws & Hs & Hw); [constructor|]. simpl in Hs, Hw.
  unfold FieldsFunc. rewrite Hw. apply Forall_forall. intros b (w & -> & Hin)%list_elem_of_fmap.
  destruct (splits_elem _ _ _ _ Hs Hin) as (_ & Hall & Hsub). apply valid_bytes.
  - destruct (runes_decodes s) as [_ Hok]. rewrite Forall_forall in Hok |- *. intros x Hx. by apply Hok, Hsub.
  - eapply Forall_impl; [exact Hall|]. intros x Hx He. simpl in Hx. rewrite He, Hf in Hx. done.
Qed.

(** ** Map and Reduce *)

Section apps.
Context `{GoUnicode} `{GoSort} `{GoMapOrder}.

Lemma foldl_snoc {A B} (g : A → B) l acc : foldl (λ l x, l ++ [g x]) acc l = acc ++ map g l.
Proof. revert acc. induction l as [|x l IH]; intros acc; simpl; [by rewrite app_nil_r|]. by rewrite IH, <- app_assoc. Qed.

Definition words (s : string) : list string := FieldsFunc s ff.

Lemma ff_error : ff RuneError = true.
Proof. unfold ff. by rewrite IsLetter_error. Qed.

Lemma wc_Map_spec filename contents : wc_Map filename contents = map (λ w, mkKeyValue w "1") (words contents).
Proof. unfold wc_Map. by rewrite foldl_snoc. Qed.

Lemma wc_Reduce_order_free : order_free wc_Reduce.
Proof. intros k vs vs' Hp. unfold wc_Reduce, zlen. by rewrite Hp. Qed.

(** Sorting strings does not depend on their order. *)
Lemma sort_strings_perm l l' : l ≡ₚ l' → go_sort String.ltb l = go_sort String.ltb l'.
Proof.
  intros Hp. eapply (StronglySorted_unique_strong (not_greater String.ltb)).
  - intros x y _ _ Hxy Hyx. unfold not_greater in *. destruct (str_trichotomy x y) as [?|Hlt]; [|done|].
    + unfold str_lt. by rewrite Hxy.
    + unfold str_lt in Hlt. by rewrite Hyx in Hlt.
  - apply go_sort_sorted, weak_order_String_ltb.
  - apply go_sort_sorted, weak_order_String_ltb.
  - by rewrite !go_sort_perm.
Qed.

Lemma indexer_Reduce_order_free : order_free indexer_Reduce.
Proof. intros k vs vs' Hp. unfold indexer_Reduce. by rewrite (sort_strings_perm vs vs'). Qed.

Lemma pseudo_Reduce_order_free : order_free pseudo_Reduce.
Proof. intros k vs vs' Hp. unfold pseudo_Reduce. by rewrite (sort_strings_perm vs vs'). Qed.

Lemma indexer_keys (ws : list string) (m : gmap string bool) w :
  is_Some (foldl (λ m w, <[w := true]> m) m ws !! w) ↔ w ∈ ws ∨ is_Some (m !! w).
Proof.
  revert m. induction ws as [|w' ws IH]; intros m; simpl; [rewrite elem_of_nil; tauto|].
  rewrite IH, elem_of_cons, lookup_insert. case_decide as Hw; [subst|]; naive_solver.
Qed.

Lemma indexer_Map_spec document value :
  ∃ ws, NoDup ws ∧ (∀ w, w ∈ ws ↔ w ∈ words value) ∧ indexer_Map document value = map (λ w, mkKeyValue w document) ws.
Proof.
  unfold indexer_Map. rewrite foldl_snoc. simpl. eexists. split_and!; [| |done].
  - rewrite map_order_perm. apply NoDup_fst_map_to_list.
  - intros w. rewrite map_order_perm, list_elem_of_fmap. transitivity (is_Some (foldl (λ m w, <[w := true]> m)
      (∅ : gmap string bool) (words value) !! w)).
    + split; [intros ([? b] & -> & Hb%elem_of_map_to_list); by exists b|].
      intros [b Hb]. exists (w, b). split; [done|]. by apply elem_of_map_to_list.
    + rewrite indexer_keys, lookup_empty. split; [intros [?|[? ?]]; done|by left].
Qed.

(** ** What the pairs of all files give *)

Implicit Types (fs : FileSystem) (files : list string).

Definition all_words fs files : list string := flat_map (λ name, words (content fs name)) files.
Definition occurrences fs files (w : string) : Z := zlen (filter (λ w', w' = w) (all_words fs files)).
Definition documents fs files (w : string) : list string := filter (λ name, w ∈ words (content fs name)) files.

Lemma wc_pairs fs files : all_pairs wc_Map fs files = map (λ w, mkKeyValue w "1") (all_words fs files).
Proof.
  unfold all_pairs, all_words. induction files as [|name files IH]; simpl; [done|]. by rewrite wc_Map_spec, IH, map_app.
Qed.

Lemma wc_values fs files w : zlen (values_of w (all_pairs wc_Map fs files)) = occurrences fs files w.
Proof.
  rewrite wc_pairs. unfold values_of, occurrences, zlen. f_equal. rewrite length_map.
  induction (all_words fs files) as [|w' ws IH]; [done|]. simpl. rewrite !filter_cons. simpl. case_decide; simpl; by rewrite ?IH.
Qed.

Lemma indexer_values fs files w : values_of w (all_pairs indexer_Map fs files) = documents fs files w.
Proof.
  unfold documents, all_pairs. induction files as [|name files IH]; [done|]. simpl. unfold values_of in *.
  rewrite filter_app, map_app, IH, filter_cons. destruct (indexer_Map_spec name (content fs name)) as (ws & Hnd & Hws & ->).
  assert (map Value (filter (λ kv, Key kv = w) (map (λ w, mkKeyValue w name) ws)) = if decide (w ∈ ws) then [name] else []) as ->.
  { clear Hws. induction Hnd as [|w' ws Hw' Hnd IHw]; [done|]. simpl. rewrite filter_cons. simpl.
    destruct (decide (w' = w)) as [->|Hne]; simpl; rewrite IHw.
    - rewrite decide_False by done. by rewrite decide_True by left.
    - apply decide_ext. rewrite elem_of_cons. naive_solver. }
  pose proof (Hws w). repeat case_decide; simpl; (done || tauto).
Qed.

Lemma pairs_keys mapf fs files :
  (∀ name contents w, (∃ v, mkKeyValue w v ∈ mapf name contents) ↔ w ∈ words contents) →
  ∀ w, w ∈ keys (go_sort ByKey_Less (all_pairs mapf fs files)) ↔ w ∈ all_words fs files.
Proof.
  assert (∀ {A} (f : string → list A) x, x ∈ flat_map f files ↔ ∃ name, name ∈ files ∧ x ∈ f name) as Hflat.
  { intros A f x. rewrite list_elem_of_In, in_flat_map. by setoid_rewrite list_elem_of_In. }
  intros Hm w. rewrite elem_of_keys. unfold all_words, all_pairs. setoid_rewrite go_sort_perm. rewrite Hflat. split.
  - intros ([k v] & (name & Hin & Hkv)%Hflat & <-). exists name. split; [done|]. apply (Hm name). by exists v.
  - intros (name & Hin & [v Hv]%(Hm name)). exists (mkKeyValue w v). split; [|done]. apply Hflat. eauto.
Qed.

(** The files of a job: distinct, present, and no other file of the directory
    looks like one of the job's own. *)
Record job_files fs files : Prop := mkJobFiles {
  jf_nodup : NoDup files;
  jf_exist : ∀ name, name ∈ files → is_Some (fs !! name);
  jf_fresh : ∀ name, is_Some (fs !! name) → ¬ mr_name name;
}.

(** The output files of a job of [n] reduce tasks that prints [out w] for each
    word [w] of the files. *)
Definition word_outputs (n : Z) fs files (out : string → string) (fs' : FileSystem) : Prop :=
  ∃ ws, StronglySorted str_lt ws ∧ (∀ w, w ∈ ws ↔ w ∈ all_words fs files) ∧
    ∀ Y, 0 <= Y < n → fs' !! out_name Y =
      match filter (λ w, bucket n w = Y) ws with
      | [] => None
      | wsY => Some (concat_strings (map (λ w, line w (out w)) wsY))
      end.

Lemma word_job `{GoJson} mapf reducef out order now files nReduce m fs :
  (∀ m, key_order m (order m)) → MakeMaster files nReduce = Some m → 0 < nReduce → "" ∉ files → job_files fs files →
  order_free reducef → (∀ name contents w, (∃ v, mkKeyValue w v ∈ mapf name contents) ↔ w ∈ words contents) →
  (∀ name, name ∈ files → Forall (λ kv, utf8_valid (Value kv) = true) (mapf name (content fs name))) →
  (∀ w, reducef w (values_of w (all_pairs mapf fs files)) = out w) →
  ∃ k s acts fs', rounds order now k (0, m) = Some (s, acts) ∧ Done s.2 = true ∧
    exec_actions mapf reducef acts fs = Some fs' ∧ word_outputs nReduce fs files out fs'.
Proof.
  intros Ho Hm Hn Hne [Hnd Hex Hfr] Hr Hkeys Hval Hout.
  assert (inputs_ok mapf fs files) as Hio.
  { split; try done. intros name Hin. specialize (Hval name Hin). rewrite Forall_forall in Hval |- *.
    intros [k v] Hkv. split; [|by apply (Hval _ Hkv)]. simpl.
    pose proof (words_valid ff (content fs name) ff_error) as Hw. rewrite Forall_forall in Hw. apply Hw, (Hkeys name). by exists v. }
  destruct (job_result mapf reducef order now files nReduce m fs Ho Hm Hn Hne Hio Hr) as (k & s & acts & fs' & Hrd & Hd & Hx & Hf).
  exists k, s, acts, fs'. split_and!; try done. exists (keys (go_sort ByKey_Less (all_pairs mapf fs files))). split_and!.
  - apply keys_sorted, sort_kv_sorted.
  - by apply pairs_keys.
  - intros Y HY. rewrite (Hf Y HY). unfold expected. destruct (filter _ _) as [|w ws]; [done|]. f_equal. unfold text.
    f_equal. apply map_ext. intros x. by rewrite Hout.
Qed.
End apps.

(** ** A concrete job *)

#[local] Instance ascii_letters : GoUnicode :=
  {| IsLetter := λ r, ((65 <=? r) && (r <=? 90)) || ((97 <=? r) && (r <=? 122)); IsLetter_error := eq_refl |}.

Definition wc_fs : FileSystem := {["a.txt" := "the cat, the dog: 1"; "b.txt" := "a dog (the end)"]}.

Lemma wc_files : job_files wc_fs sample_files.
Proof.
  constructor.
  - by apply (bool_decide_unpack _); vm_compute.
  - apply Forall_forall. repeat constructor; by eexists.
  - unfold wc_fs. intros name [c Hc]. revert Hc. rewrite lookup_insert_Some, lookup_singleton_Some.
    unfold mr_name. intros [[<- _]|(_ & <- & _)] Hp; by apply (bool_decide_pack _) in Hp; vm_compute in Hp.
Qed.

Example wc_words : map (words ∘ content wc_fs) sample_files = [["the"; "cat"; "the"; "dog"]; ["a"; "dog"; "the"; "end"]].
Proof. by vm_compute. Qed.

(** ** The theorems *)

(** [strings.FieldsFunc] as the applications use it: the bytes of the runes
    of a string are the string, and the words are the maximal runs of runes that
    [f] rejects, none of them empty. *)
Lemma words_maximal (s : string) (f : Z → bool) :
  bytes_of (runes s) = s ∧ ∃ ws, splits f (runes s) ws ∧ FieldsFunc s f = map bytes_of ws.
Proof.
  split; [apply runes_decodes|]. destruct (fields_splits f (runes s) []) as (ws & ? & ?); [constructor|]. by exists ws.
Qed.

(** C27: Word count: the job of a worker that does not fail ends, and its output
    files hold, in ascending order, one line for each word of the input files
    with the number of its occurrences in them, each word in the file of the
    reduce task it hashes to. *)
Theorem wc_job `{GoUnicode} `{GoSort} `{GoJson} order now files nReduce m (fs : FileSystem) :
  (∀ m, key_order m (order m)) → MakeMaster files nReduce = Some m → 0 < nReduce → "" ∉ files → job_files fs files →
  ∃ k s acts fs', rounds order now k (0, m) = Some (s, acts) ∧ Done s.2 = true ∧
    exec_actions wc_Map wc_Reduce acts fs = Some fs' ∧
    word_outputs nReduce fs files (λ w, Itoa (occurrences fs files w)) fs'.
Proof.
  intros Ho Hm Hn Hne Hjf.
  apply (word_job wc_Map wc_Reduce (λ w, Itoa (occurrences fs files w)) order now files nReduce m fs); try done.
  - apply wc_Reduce_order_free.
  - intros name contents w. rewrite wc_Map_spec. setoid_rewrite list_elem_of_fmap. naive_solver.
  - intros name _. rewrite wc_Map_spec. apply Forall_forall. by intros kv (w & -> & _)%list_elem_of_fmap.
  - intros w. unfold wc_Reduce. by rewrite wc_values.
Qed.

Lemma wc_job_witness :
  ∃ k s acts fs', rounds key_list (λ _, 0) k (0, sample_master) = Some (s, acts) ∧ Done s.2 = true ∧
    exec_actions wc_Map wc_Reduce acts wc_fs = Some fs' ∧
    word_outputs 2 wc_fs sample_files (λ w, Itoa (occurrences wc_fs sample_files w)) fs'.
Proof.
  apply (wc_job key_list (λ _, 0) sample_files 2 sample_master wc_fs);
    [exact key_list_order|done|lia| |exact wc_files].
  by apply (bool_decide_unpack _); vm_compute.
Defined.

(** The indexer: the line of a word names the number of the files that
    contain it, and those files in ascending order, however often the word
    occurs in them and in whatever order Go iterates over the map of words. *)
Lemma indexer_job `{GoUnicode} `{GoSort} `{GoMapOrder} `{GoJson} order now files nReduce m (fs : FileSystem) :
  (∀ m, key_order m (order m)) → MakeMaster files nReduce = Some m → 0 < nReduce → "" ∉ files → job_files fs files →
  (∀ name, name ∈ files → utf8_valid name = true) →
  ∃ k s acts fs', rounds order now k (0, m) = Some (s, acts) ∧ Done s.2 = true ∧
    exec_actions indexer_Map indexer_Reduce acts fs = Some fs' ∧
    word_outputs nReduce fs files
      (λ w, Itoa (zlen (documents fs files w)) +:+ " " +:+ Join (go_sort String.ltb (documents fs files w)) ",") fs'.
Proof.
  intros Ho Hm Hn Hne Hjf Hv.
  apply (word_job indexer_Map indexer_Reduce _ order now files nReduce m fs); try done.
  - apply indexer_Reduce_order_free.
  - intros name contents w. destruct (indexer_Map_spec name contents) as (ws & _ & Hws & ->). rewrite <- Hws.
    setoid_rewrite list_elem_of_fmap. naive_solver.
  - intros name Hin. destruct (indexer_Map_spec name (content fs name)) as (ws & _ & _ & ->). apply Forall_forall.
    intros kv (w & -> & _)%list_elem_of_fmap. by apply Hv.
  - intros w. unfold indexer_Reduce. rewrite indexer_values. unfold zlen. by rewrite (Permutation_length (go_sort_perm _ _)).
Qed.

Lemma indexer_job_witness :
  ∃ k s acts fs', rounds key_list (λ _, 0) k (0, sample_master) = Some (s, acts) ∧ Done s.2 = true ∧
    exec_actions indexer_Map indexer_Reduce acts wc_fs = Some fs' ∧
    word_outputs 2 wc_fs sample_files
      (λ w, Itoa (zlen (documents wc_fs sample_files w)) +:+ " " +:+
            Join (go_sort String.ltb (documents wc_fs sample_files w)) ",") fs'.
Proof.
  apply (indexer_job key_list (λ _, 0) sample_files 2 sample_master wc_fs);
    [exact key_list_order|done|lia| |exact wc_files|].
  - by apply (bool_decide_unpack _); vm_compute.
  - apply Forall_forall. by repeat constructor.
Defined.

(** crash.go: an instance that survives its random numbers computes what
    nocrash.go computes, nocrash.go never exits, and the framework may run both:
    [Reduce] does not depend on the order of its values. *)
Lemma crash_agrees `{GoSort} rr rr' filename contents key values values' :
  values ≡ₚ values' →
  (crash_Map rr filename contents = None ∨ crash_Map rr filename contents = nocrash_Map rr' filename contents) ∧
  (crash_Reduce rr key values = None ∨ crash_Reduce rr key values = nocrash_Reduce rr' key values') ∧
  nocrash_Map rr' filename contents = Some (pseudo_Map filename contents) ∧
  nocrash_Reduce rr' key values' = Some (pseudo_Reduce key values).
Proof.
  intros Hp. unfold crash_Map, crash_Reduce, nocrash_Map, nocrash_Reduce. rewrite (pseudo_Reduce_order_free key values values' Hp).
  simpl. destruct (crash_maybeCrash rr); auto.
Qed.

Lemma crash_agrees_witness :
  nocrash_Reduce 0 "a" ["b.txt"; "a.txt"] = Some (pseudo_Reduce "a" ["a.txt"; "b.txt"]) ∧
  crash_Reduce 500 "a" ["b.txt"; "a.txt"] = Some "a.txt b.txt".
Proof.
  split; [|by vm_compute].
  apply (crash_agrees 500 0 "f" "contents" "a" ["a.txt"; "b.txt"] ["b.txt"; "a.txt"]). apply Permutation_swap.
Defined.
End MrAppsSpec.
