(* ===== verification/MrTiming.v ===== *)
(** Model of mrapps/mtiming.go and mrapps/rtiming.go, the applications that
    measure how many workers run at the same time: each worker leaves a file with
    its process number in the working directory, counts the files of live
    processes, and removes its own a second later. *)

From Stdlib Require Import Ascii.
From stdpp Require Import pretty.
From S2P Require Import Prelude GoStd Mr MrProof MrJob MrWorker MrWorkerProof MrCorrect MrSpec MrApps.

#[local] Open Scope Z_scope.

Module MrTiming.
Export MrApps.

(** ** [fmt.Sscanf] with a prefix and one %d, on the runes of the input *)

Definition codes (s : string) : list Z := map fst (runes s).

Definition is_space (r : Z) : bool :=
  ((9 <=? r) && (r <=? 13)) || (r =? 32) || (r =? 133) || (r =? 160) || (r =? 5760) || ((8192 <=? r) && (r <=? 8202)) ||
  (r =? 8232) || (r =? 8233) || (r =? 8239) || (r =? 8287) || (r =? 12288).

(** A prefix that has to match; [None] is an error. *)
Fixpoint expect (prefix input : list Z) : option (list Z) :=
  match prefix, input with
  | [], _ => Some input
  | p :: prefix, r :: input => if p =? r then expect prefix input else None
  | _ :: _, [] => None
  end.

(** [SkipSpace]: a newline is an error. *)
Fixpoint skip_space (input : list Z) : option (list Z) :=
  match input with
  | r :: rest => if r =? 10 then None else if is_space r then skip_space rest else Some input
  | [] => Some []
  end.

Definition is_digit (r : Z) : bool := (48 <=? r) && (r <=? 57).

(** The digits at the start of the input, read behind [acc]; what follows them is
    left. *)
Fixpoint digits (acc : Z) (input : list Z) : Z :=
  match input with
  | r :: rest => if is_digit r then digits (acc * 10 + (r - 48)) rest else acc
  | [] => acc
  end.

(** [scanInt]: a sign, at least one digit, and a value that fits 64 bits. *)
Definition scan_int (input : list Z) : option Z :=
  input ← skip_space input;
  let '(sign, input) :=
    match input with
    | 43 :: rest => (1, rest)
    | 45 :: rest => (-1, rest)
    | _ => (1, input)
    end in
  r ← head input;
  if is_digit r then
    let x := sign * digits 0 input in
    if (- 2 ^ 63 <=? x) && (x <? 2 ^ 63) then Some x else None
  else None.

(** ** [nparallel] *)

(** What the first argument of [nparallel] can be. *)
Inductive phase := map_phase | reduce_phase.

Definition phase_name (ph : phase) : string := match ph with map_phase => "map" | reduce_phase => "reduce" end.

Definition myfilename (ph : phase) (pid : Z) : string := "mr-worker-" +:+ phase_name ph +:+ "-" +:+ Itoa pid.

(** The process number in the name of a file. *)
Definition scan_pid (ph : phase) (name : string) : option Z :=
  input ← expect (codes ("mr-worker-" +:+ phase_name ph +:+ "-")) (codes name); scan_int input.

(** The body of the loop over the names: [scan] is [Sscanf] on a name, and
    [kill xpid] whether [syscall.Kill(xpid, 0)] succeeds. *)
Definition count_name (kill : Z → bool) (scan : string → option Z) (name : string) (ret : Z) : Z :=
  match scan name with Some xpid => if kill xpid then ret + 1 else ret | None => ret end.

(** The loop, of a process that nobody disturbs. *)
Fixpoint count_alive (kill : Z → bool) (scan : string → option Z) (names : list string) (ret : Z) : Z :=
  match names with
  | [] => ret
  | name :: names => count_alive kill scan names (count_name kill scan name ret)
  end.

(** A file that no probe takes for that of a worker. *)
Definition plain (name : string) : bool :=
  match scan_pid map_phase name, scan_pid reduce_phase name with None, None => true | _, _ => false end.

(** [dd.Readdirnames(max)] returns names of the directory, in any order. *)
Definition Readdirnames (max : Z) (dir : gset string) (names : list string) : Prop :=
  names ⊆+ elements dir ∧ zlen names = Z.min max (Z.of_nat (size dir)).

#[global] Instance Readdirnames_dec max dir names : Decision (Readdirnames max dir names).
Proof. unfold Readdirnames. apply _. Defined.

(** Its file, the scan of a process that nobody disturbs, and the end, before which a
    second passes. *)
Definition write_file (ph : phase) (pid : Z) (dir : gset string) : gset string := {[myfilename ph pid]} ∪ dir.
Definition scan_dir (kill : Z → bool) (ph : phase) (names : list string) : Z :=
  count_alive kill (scan_pid ph) names 0.
Definition remove_file (ph : phase) (pid : Z) (dir : gset string) : option (gset string) :=
  if decide (myfilename ph pid ∈ dir) then Some (dir ∖ {[myfilename ph pid]}) else None.

(** [nparallel] of a process that nobody disturbs. *)
Definition nparallel (kill : Z → bool) (listing : gset string → list string) (ph : phase) (pid : Z) (dir : gset string) :
    option (Z * gset string) :=
  let dir := write_file ph pid dir in
  let ret := scan_dir kill ph (listing dir) in
  dir ← remove_file ph pid dir;
  Some (ret, dir).

(** ** The applications; [n] is what [nparallel] returned *)

Section apps.
Context `{GoSort}.

(** [ts] is the formatted time. *)
Definition mtiming_Map (ts : string) (pid n : Z) : list KeyValue :=
  [mkKeyValue ("times-" +:+ Itoa pid) ts; mkKeyValue ("parallel-" +:+ Itoa pid) (Itoa n)].
Definition mtiming_Reduce (key : string) (values : list string) : string := Join (go_sort String.ltb values) " ".

Definition rtiming_Map (filename contents : string) : list KeyValue :=
  map (λ k, mkKeyValue k "1") ["a"; "b"; "c"; "d"; "e"; "f"; "g"; "h"; "i"; "j"].
Definition rtiming_Reduce (n : Z) (key : string) (values : list string) : string := Itoa n.
End apps.

(** ** Many workers on one directory *)

(** Where a process is: not in [nparallel], before it has read the directory, in the
    loop with the names that are left and [ret], or dead. *)
Inductive where_is := Outside | Written (ph : phase) | Counting (ph : phase) (names : list string) (ret : Z) | Dead.

#[global] Instance phase_eq_dec : EqDecision phase.
Proof. solve_decision. Defined.
#[global] Instance where_is_eq_dec : EqDecision where_is.
Proof. solve_decision. Defined.

Record process := mkProcess {
  pid : Z;
  pc : where_is;
}.

Record system := mkSystem {
  dir : gset string;
  procs : list process;
}.

Definition set_pc (k : nat) (w : where_is) (s : system) : system :=
  mkSystem (dir s) (alter (λ p, mkProcess (pid p) w) k (procs s)).

(** The processes that a signal reaches. *)
Definition alive (s : system) : list Z := pid <$> filter (λ p, pc p ≠ Dead) (procs s).

(** The operating system: signal 0 tells whether a process lives.  Numbers that
    are not positive stand for groups of processes. *)
Class GoKill := {
  kill0 : list Z → Z → bool;
  kill0_spec pids x : 0 < x → kill0 pids x = bool_decide (x ∈ pids);
}.

(** Process numbers are not used again, and other files do not look like those of
    the probes.  The others go on between any two system calls: writing the file,
    listing the directory, each signal, and the removal. *)
Inductive tstep `{GoKill} : system → system → Prop :=
| t_spawn i s : 0 < i < 2 ^ 31 → i ∉ pid <$> procs s → tstep s (mkSystem (dir s) (procs s ++ [mkProcess i Outside]))
| t_enter k p ph s :
    procs s !! k = Some p → pc p = Outside →
    tstep s (set_pc k (Written ph) (mkSystem (write_file ph (pid p) (dir s)) (procs s)))
| t_list k p ph names s :
    procs s !! k = Some p → pc p = Written ph → Readdirnames 1000000 (dir s) names →
    tstep s (set_pc k (Counting ph names 0) s)
| t_signal k p ph name names ret s :
    procs s !! k = Some p → pc p = Counting ph (name :: names) ret →
    tstep s (set_pc k (Counting ph names (count_name (kill0 (alive s)) (scan_pid ph) name ret)) s)
| t_leave k p ph ret d s :
    procs s !! k = Some p → pc p = Counting ph [] ret → remove_file ph (pid p) (dir s) = Some d →
    tstep s (set_pc k Outside (mkSystem d (procs s)))
| t_die k s : tstep s (set_pc k Dead s)
| t_create name s : plain name → tstep s (mkSystem ({[name]} ∪ dir s) (procs s))
| t_unlink name s : plain name → tstep s (mkSystem (dir s ∖ {[name]}) (procs s)).

(** A process in [nparallel] for this phase. *)
Definition inside (ph : phase) (p : process) : bool :=
  match pc p with Written ph' | Counting ph' _ _ => bool_decide (ph' = ph) | _ => false end.

End MrTiming.
