(* ===== verification/MrTimingSpec.v ===== *)
(** What the probes of mrapps/mtiming.go and mrapps/rtiming.go report: the number
    of workers that are in the probe at the same time. *)

From Stdlib Require Import Ascii ZifyBool.
From stdpp Require Import pretty.
From S2P Require Import Prelude GoStd Mr MrProof MrJob MrWorker MrWorkerProof MrCorrect MrSpec MrApps MrAppsSpec MrTiming.

#[local] Open Scope Z_scope.

Module MrTimingSpec.
Export MrTiming.

(** ** Names and process numbers *)

Definition is_ascii (a : ascii) : Prop := in_range 0 127 a = true.

Lemma codes_app a b : Forall is_ascii (chars a) → codes (a +:+ b) = map byte (chars a) ++ codes b.
Proof.
  induction a as [|x a IH]; intros Ha; [done|]. simpl in Ha. apply Forall_cons in Ha as [Hx Ha].
  unfold codes in *. simpl. rewrite Hx. simpl. by rewrite IH.
Qed.

Lemma expect_app p l : expect p (p ++ l) = Some l.
Proof. induction p as [|x p IH]; simpl; [done|]. by rewrite Z.eqb_refl. Qed.

Lemma digit_byte a : digit a → is_ascii a ∧ 48 <= byte a <= 57.
Proof. unfold digit, is_ascii, in_range, byte. rewrite !andb_true_iff, !N.leb_le. lia. Qed.

(** Reading what [Itoa] has written. *)
Lemma digits_go x s :
  ∃ m : nat, ∀ acc, digits acc (codes (pretty_N_go x s)) = digits (acc * 10 ^ Z.of_nat m + Z.of_N x) (codes s).
Proof.
  revert s. induction (N.lt_wf_0 x) as [x _ IH]; intros s.
  assert (x = 0 ∨ 0 < x)%N as [->|Hx] by lia; [exists 0%nat; intros acc; rewrite pretty_N_go_0; f_equal; lia|].
  destruct (IH (x / 10)%N (N.div_lt x 10 Hx eq_refl) (String (pretty_N_char (x mod 10)) s)) as (m & Hm).
  exists (S m). intros acc. rewrite pretty_N_go_step, Hm by done.
  pose proof (N.mod_lt x 10 ltac:(lia)) as Hd. pose proof (N.div_mod x 10 ltac:(lia)) as Hx10.
  assert (codes (String (pretty_N_char (x mod 10)) s) = 48 + Z.of_N (x mod 10) :: codes s) as ->.
  { clear Hm Hx10. revert Hd. generalize (x mod 10)%N. intros d Hd.
    assert (d = 0 ∨ d = 1 ∨ d = 2 ∨ d = 3 ∨ d = 4 ∨ d = 5 ∨ d = 6 ∨ d = 7 ∨ d = 8 ∨ d = 9)%N as Hc by lia.
    by repeat (destruct Hc as [->|Hc]; [done|]); subst d. }
  cbn [digits]. assert (is_digit (48 + Z.of_N (x mod 10)) = true) as ->.
  { clear Hm Hx10. revert Hd. generalize (x mod 10)%N. intros d Hd. unfold is_digit. lia. }
  f_equal. rewrite Nat2Z.inj_succ, Z.pow_succ_r by lia. lia.
Qed.

(** A digit comes first. *)
Lemma codes_Itoa x : 0 < x → ∃ d rest, codes (Itoa x) = d :: rest ∧ 48 <= d <= 57 ∧ digits 0 (d :: rest) = x.
Proof.
  intros Hx. assert (Forall digit (chars (Itoa x))) as Hd by (apply pretty_digits; lia).
  assert (digits 0 (codes (Itoa x)) = x) as Hv.
  { destruct x as [|p|p]; try lia. unfold Itoa, pretty, pretty_Z, pretty, pretty_positive, pretty, pretty_N. rewrite decide_False by done.
    destruct (digits_go (N.pos p) "") as [m Hm]. rewrite Hm. simpl. lia. }
  destruct (Itoa x) as [|a s] eqn:Hs; [by simpl in Hv; lia|]. simpl in Hd. apply Forall_cons in Hd as [[Ha Hr]%digit_byte Hd].
  exists (byte a), (codes s). split; [by unfold codes; simpl; rewrite Ha|]. split; [done|].
  revert Hv. unfold codes. simpl. by rewrite Ha.
Qed.

Lemma scan_int_Itoa x : 0 < x < 2 ^ 31 → scan_int (codes (Itoa x)) = Some x.
Proof.
  intros Hx. destruct (codes_Itoa x) as (d & rest & -> & Hd & Hv); [lia|]. unfold scan_int.
  assert (skip_space (d :: rest) = Some (d :: rest)) as ->.
  { simpl. assert ((d =? 10) = false) as -> by lia. assert (is_space d = false) as -> by (unfold is_space; lia). done. }
  cbn [mbind option_bind].
  assert (∀ {A} (f g h : A), match d with 43 => f | 45 => g | _ => h end = h) as Hm.
  { intros A f g h. assert (d = 48 ∨ d = 49 ∨ d = 50 ∨ d = 51 ∨ d = 52 ∨ d = 53 ∨ d = 54 ∨ d = 55 ∨ d = 56 ∨ d = 57) as Hc by lia.
    by repeat (destruct Hc as [->|Hc]; [done|]); subst d. }
  rewrite Hm. cbn [head mbind option_bind]. assert (is_digit d = true) as -> by (unfold is_digit; lia).
  rewrite Hv, Z.mul_1_l. assert ((- 2 ^ 63 <=? x) && (x <? 2 ^ 63) = true) as -> by lia. done.
Qed.

Lemma scan_myfilename ph ph' x : 0 < x < 2 ^ 31 → scan_pid ph (myfilename ph' x) = if decide (ph = ph') then Some x else None.
Proof.
  intros Hx. unfold scan_pid. pose (prefix := "mr-worker-" +:+ phase_name ph' +:+ "-").
  assert (myfilename ph' x = prefix +:+ Itoa x) as -> by (unfold prefix, myfilename; by destruct ph').
  rewrite (codes_app prefix) by (by destruct ph'; repeat constructor). destruct (decide (ph = ph')) as [<-|Hne].
  - assert (map byte (chars prefix) = codes prefix) as -> by (by destruct ph).
    assert (expect (codes prefix) (codes prefix ++ codes (Itoa x)) = Some (codes (Itoa x))) as He by apply expect_app.
    unfold prefix in He |- *. rewrite He. by apply scan_int_Itoa.
  - by destruct ph, ph'.
Qed.

Lemma myfilename_inj ph ph' x y :
  0 < x < 2 ^ 31 → 0 < y < 2 ^ 31 → myfilename ph x = myfilename ph' y → ph = ph' ∧ x = y.
Proof.
  intros Hx Hy Heq. assert (scan_pid ph (myfilename ph x) = Some x) as H1 by (by rewrite scan_myfilename, decide_True).
  rewrite Heq, scan_myfilename in H1 by done. case_decide; by simplify_eq.
Qed.

(** ** Counting *)

Definition counts (kill : Z → bool) (scan : string → option Z) (name : string) : bool :=
  match scan name with Some x => kill x | None => false end.

Lemma count_name_counts kill scan name ret :
  count_name kill scan name ret = ret + if counts kill scan name then 1 else 0.
Proof. unfold count_name, counts. destruct (scan name) as [x|]; [destruct (kill x)|]; lia. Qed.

Lemma count_alive_filter kill scan names ret :
  count_alive kill scan names ret = ret + zlen (filter (λ name, counts kill scan name) names).
Proof.
  revert ret. induction names as [|name names IH]; intros ret; simpl; [by rewrite Z.add_0_r|].
  rewrite IH, filter_cons, count_name_counts. destruct (counts kill scan name).
  - rewrite decide_True by done. rewrite zlen_cons. lia.
  - rewrite decide_False by (by intros []). lia.
Qed.

(** ** What the directory holds *)

Lemma plain_spec name ph : plain name → scan_pid ph name = None.
Proof. unfold plain. destruct (scan_pid map_phase name) eqn:Hm; [done|]. by destruct (scan_pid reduce_phase name) eqn:Hr, ph. Qed.

(** The files of live workers in the probe, perhaps files that dead ones have left,
    and plain files. *)
Record probes_ok (s : system) : Prop := mkProbesOk {
  po_pids : NoDup (pid <$> procs s);
  po_range : ∀ p, p ∈ procs s → 0 < pid p < 2 ^ 31;
  po_files : ∀ name, name ∈ dir s → plain name ∨ ∃ p ph, p ∈ procs s ∧ name = myfilename ph (pid p);
  po_inside : ∀ p ph, p ∈ procs s → pc p ≠ Dead → myfilename ph (pid p) ∈ dir s ↔ inside ph p;
}.

Section probes.
Context `{GoKill}.

Lemma alive_spec s p : NoDup (pid <$> procs s) → p ∈ procs s → pid p ∈ alive s ↔ pc p ≠ Dead.
Proof.
  intros Hnd Hp. unfold alive. rewrite list_elem_of_fmap. split.
  - intros (q & Hpq & [Hq Hin]%list_elem_of_filter). enough (q = p) as ->; [done|].
    apply list_elem_of_lookup in Hin as [i Hi], Hp as [j Hj].
    assert (i = j) as ->; [|congruence]. eapply (NoDup_lookup _ i j (pid p) Hnd); rewrite list_lookup_fmap.
    + rewrite Hi. simpl. by f_equal.
    + by rewrite Hj.
  - intros Hpc. exists p. split; [done|]. by apply list_elem_of_filter.
Qed.

(** The names that count are the files of the workers in the probe that the signal
    reaches. *)
Lemma names_of_inside s ph (live : Z → bool) :
  probes_ok s → (∀ q, q ∈ procs s → live (pid q) → pc q ≠ Dead) →
  filter (λ name, counts live (scan_pid ph) name) (elements (dir s)) ≡ₚ
  (λ p, myfilename ph (pid p)) <$> filter (λ p, inside ph p ∧ live (pid p)) (procs s).
Proof.
  intros [Hnd Hr Hf Hi] Hlive. apply NoDup_Permutation.
  - apply NoDup_filter, NoDup_elements.
  - set (l := filter _ _). assert (NoDup l) as Hf1 by (by eapply NoDup_filter, NoDup_fmap_1).
    assert (∀ p, p ∈ l → p ∈ procs s) as Hsub by by intros p [_ ?]%list_elem_of_filter.
    eapply (NoDup_fmap_2_strong (λ p, myfilename ph (pid p))); [|done].
    intros p q Hp%Hsub Hq%Hsub [_ Heq]%myfilename_inj; [|by apply Hr..].
    apply list_elem_of_lookup in Hp as [i Hpi], Hq as [j Hqj].
    assert (i = j) as ->; [|congruence]. eapply (NoDup_lookup _ i j (pid p) Hnd); rewrite list_lookup_fmap; [by rewrite Hpi|].
    rewrite Hqj. simpl. by f_equal.
  - intros name. rewrite list_elem_of_filter, elem_of_elements, list_elem_of_fmap. split.
    + unfold counts. intros [Hk Hin]. destruct (Hf name Hin) as [Hpl|(p & ph' & Hp & ->)]; [by rewrite plain_spec in Hk|].
      rewrite scan_myfilename in Hk by by apply Hr. case_decide as Hph; [|done]. subst ph'.
      exists p. split; [done|]. apply list_elem_of_filter. split; [split; [|done]; apply Hi; [done| |done]; by apply Hlive|done].
    + intros (p & -> & [[Hin Hl] Hp]%list_elem_of_filter).
      assert (pc p ≠ Dead) as Hpc by (intros He; unfold inside in Hin; by rewrite He in Hin).
      split; [|by apply Hi]. unfold counts. by rewrite scan_myfilename, decide_True by (done || by apply Hr).
Qed.

Lemma listing s names :
  Z.of_nat (size (dir s)) <= 1000000 → Readdirnames 1000000 (dir s) names → names ≡ₚ elements (dir s).
Proof.
  intros Hsz [Hsub Hlen]. apply submseteq_length_Permutation; [done|].
  unfold size, set_size in *. simpl in *. unfold zlen in Hlen. lia.
Qed.

Lemma kill_alive s q : probes_ok s → q ∈ procs s → kill0 (alive s) (pid q) ↔ pc q ≠ Dead.
Proof. intros [Hnd Hr _ _] Hq. rewrite kill0_spec by by apply Hr. rewrite bool_decide_spec. by apply alive_spec. Qed.

(** All of them when the signals come at once. *)
Lemma inside_counts s ph names :
  probes_ok s → Z.of_nat (size (dir s)) <= 1000000 → Readdirnames 1000000 (dir s) names →
  zlen (filter (λ name, counts (kill0 (alive s)) (scan_pid ph) name) names) = zlen (filter (λ p, inside ph p) (procs s)).
Proof.
  intros Hok Hsz Hrd. unfold zlen. rewrite (listing s names Hsz Hrd), (names_of_inside s ph (kill0 (alive s)) Hok), length_fmap.
  - do 2 f_equal. apply list_filter_ext_elem. intros q Hq. split; [by intros [? _]|]. intros Hin. split; [done|].
    apply kill_alive; [done..|]. intros He. unfold inside in Hin. by rewrite He in Hin.
  - intros q Hq. by apply kill_alive.
Qed.

Lemma scan_counts s ph names :
  probes_ok s → Z.of_nat (size (dir s)) <= 1000000 → Readdirnames 1000000 (dir s) names →
  scan_dir (kill0 (alive s)) ph names = zlen (filter (λ p, inside ph p) (procs s)).
Proof. intros Hok Hsz Hrd. unfold scan_dir. by rewrite count_alive_filter, Z.add_0_l, inside_counts. Qed.

(** ** The invariant *)

Lemma set_pc_pids k w s : pid <$> procs (set_pc k w s) = pid <$> procs s.
Proof.
  apply list_eq. intros j. rewrite !list_lookup_fmap. simpl. rewrite list_lookup_alter.
  case_decide; [subst|done]. by destruct (procs s !! j).
Qed.

Lemma set_pc_elem k w s q p :
  NoDup (pid <$> procs s) → procs s !! k = Some q →
  p ∈ procs (set_pc k w s) ↔ p = mkProcess (pid q) w ∨ p ∈ procs s ∧ pid p ≠ pid q.
Proof.
  intros Hnd Hq. rewrite !list_elem_of_lookup. simpl. setoid_rewrite list_lookup_alter. split.
  - intros [j Hj]. case_decide as Hjk.
    + subst j. rewrite Hq in Hj. injection Hj as <-. by left.
    + right. split; [by exists j|]. intros He. apply Hjk. eapply (NoDup_lookup _ k j (pid q) Hnd); rewrite list_lookup_fmap.
      * by rewrite Hq.
      * rewrite Hj. simpl. by f_equal.
  - intros [->|[[j Hj] Hne]].
    + exists k. by rewrite decide_True, Hq.
    + exists j. rewrite decide_False; [done|]. intros ->. congruence.
Qed.

(** One process moves, and its files are as they should be. *)
Lemma probes_ok_move k w s s' q :
  probes_ok s → procs s !! k = Some q → procs s' = procs (set_pc k w s) →
  (∀ name, name ∈ dir s' → name ∈ dir s ∨ ∃ ph, name = myfilename ph (pid q)) →
  (∀ name, name ∈ dir s → name ∈ dir s' ∨ ∃ ph, name = myfilename ph (pid q)) →
  (w ≠ Dead → ∀ ph, myfilename ph (pid q) ∈ dir s' ↔ inside ph (mkProcess (pid q) w)) →
  probes_ok s'.
Proof.
  intros [Hnd Hr Hf Hi] Hq Hp Hnew Hold Hw. pose proof (list_elem_of_lookup_2 _ _ _ Hq) as Hqin.
  pose proof (λ p, set_pc_elem k w s q p Hnd Hq) as Hel. rewrite <- Hp in Hel. split.
  - by rewrite Hp, set_pc_pids.
  - intros p [->|[Hin _]]%Hel; [exact (Hr q Hqin)|by apply Hr].
  - intros name [Hin|[ph ->]]%Hnew.
    + destruct (Hf name Hin) as [?|(p & ph & Hpin & ->)]; [by left|right]. destruct (decide (pid p = pid q)) as [->|Hne].
      * exists (mkProcess (pid q) w), ph. split; [apply Hel; by left|done].
      * exists p, ph. split; [apply Hel; by right|done].
    + right. exists (mkProcess (pid q) w), ph. split; [apply Hel; by left|done].
  - intros p ph [->|[Hin Hne]]%Hel Hpc; [by apply Hw|]. rewrite <- (Hi p ph Hin Hpc).
    assert (∀ ph', myfilename ph (pid p) ≠ myfilename ph' (pid q)) as Hno.
    { intros ph' [_ He]%myfilename_inj; [done|by apply Hr..]. }
    split; [intros [?|[ph' He]]%Hnew|intros [?|[ph' He]]%Hold]; (done || by apply Hno in He).
Qed.

Lemma plain_other name ph x : plain name → 0 < x < 2 ^ 31 → name ≠ myfilename ph x.
Proof. intros Hpl Hx ->. apply (plain_spec _ ph) in Hpl. by rewrite scan_myfilename, decide_True in Hpl. Qed.

Lemma spawn_ok i s :
  probes_ok s → 0 < i < 2 ^ 31 → i ∉ pid <$> procs s → probes_ok (mkSystem (dir s) (procs s ++ [mkProcess i Outside])).
Proof.
  intros [Hnd Hr Hf Hi] Hrange Hfresh. split; simpl.
  - rewrite fmap_app. apply NoDup_app. split; [done|]. split; [|by apply NoDup_singleton]. by intros x Hx ->%list_elem_of_singleton.
  - intros p [Hp| ->%list_elem_of_singleton]%elem_of_app; [by apply Hr|done].
  - intros name Hin. destruct (Hf name Hin) as [?|(p & ph & Hp & ->)]; [by left|right]. exists p, ph.
    split; [apply elem_of_app; by left|done].
  - intros p ph [Hp| ->%list_elem_of_singleton]%elem_of_app Hpc; [by apply Hi|]. simpl. split; [|done]. intros Hin.
    destruct (Hf _ Hin) as [Hpl|(p & ph' & Hp & [-> Heq]%myfilename_inj)]; [|exfalso|done|by apply Hr].
    + by apply (plain_other _ ph i) in Hpl.
    + apply Hfresh. rewrite Heq. by apply list_elem_of_fmap_2.
Qed.

(** Plain files come and go. *)
Lemma other_files_ok s d :
  probes_ok s → (∀ name, name ∈ d → plain name ∨ name ∈ dir s) → (∀ name, name ∈ dir s → plain name ∨ name ∈ d) →
  probes_ok (mkSystem d (procs s)).
Proof.
  intros [Hnd Hr Hf Hi] Hnew Hold. split; simpl; [done..| |].
  - intros name [?|?]%Hnew; [by left|by apply Hf].
  - intros p ph Hp Hpc. rewrite <- (Hi p ph Hp Hpc).
    assert (¬ plain (myfilename ph (pid p))) as Hno by (intros Hpl; by apply (plain_other _ ph (pid p)) in Hpl; [|apply Hr]).
    split; [by intros [?|?]%Hnew|by intros [?|?]%Hold].
Qed.

Lemma tstep_ok s s' : probes_ok s → tstep s s' → probes_ok s'.
Proof.
  intros Hok Hst. pose proof Hok as [_ Hr _ Hi].
  assert (∀ q ph', q ∈ procs s → pc q ≠ Dead → myfilename ph' (pid q) ∈ dir s → inside ph' q) as Hin
    by (intros q ph' Hq Hd Hn; by apply (Hi q ph' Hq Hd)).
  destruct Hst as [i s Hi1 Hi2|k q ph s Hq Hpc|k q ph names s Hq Hpc Hrd|k q ph f fs r s Hq Hpc|k q ph r d s Hq Hpc Hd|k s|name s Hpl|name s Hpl];
    [by apply spawn_ok|pose proof (list_elem_of_lookup_2 _ _ _ Hq) as Hqin..| | |].
  - apply (probes_ok_move k (Written ph) s _ q Hok Hq); [done|..]; simpl; unfold write_file.
    + intros name [->%elem_of_singleton|?]%elem_of_union; [right; by exists ph|by left].
    + intros name Hn. left. apply elem_of_union. by right.
    + intros _ ph'. unfold inside. simpl. rewrite elem_of_union, elem_of_singleton, bool_decide_spec.
      split; [intros [[-> _]%myfilename_inj|Hn]|intros ->; by left]; [done|by apply Hr..|].
      apply Hin in Hn; [|done|by rewrite Hpc]. unfold inside in Hn. by rewrite Hpc in Hn.
  - eapply (probes_ok_move k _ s _ q Hok Hq); [done|by left|by left|].
    intros _ ph'. simpl. rewrite (Hi q ph' Hqin) by (by rewrite Hpc). unfold inside. by rewrite Hpc.
  - eapply (probes_ok_move k _ s _ q Hok Hq); [done|by left|by left|].
    intros _ ph'. simpl. rewrite (Hi q ph' Hqin) by (by rewrite Hpc). unfold inside. by rewrite Hpc.
  - unfold remove_file in Hd. case_decide; [|done]. injection Hd as <-.
    apply (probes_ok_move k Outside s _ q Hok Hq); [done|..]; simpl.
    + intros name [Hn _]%elem_of_difference. by left.
    + intros name Hn. destruct (decide (name = myfilename ph (pid q))); [right; by exists ph|left].
      by apply elem_of_difference; rewrite elem_of_singleton.
    + intros _ ph'. split; [|done]. rewrite elem_of_difference, elem_of_singleton. intros [Hn Hne].
      apply Hin in Hn; [|done|by rewrite Hpc]. unfold inside in Hn. rewrite Hpc in Hn. by apply bool_decide_spec in Hn as <-.
  - destruct (procs s !! k) as [q|] eqn:Hq.
    + by apply (probes_ok_move k Dead s _ q Hok Hq); [done|left|left|].
    + assert (set_pc k Dead s = s) as ->; [|done]. destruct s as [d l]. unfold set_pc. simpl in *. f_equal.
      apply list_eq. intros j. rewrite list_lookup_alter. case_decide; [subst|done]. by rewrite Hq.
  - apply other_files_ok; [done|..].
    + intros x [->%elem_of_singleton|?]%elem_of_union; [by left|by right].
    + intros x ?. right. apply elem_of_union. by right.
  - apply other_files_ok; [done|..].
    + intros x [? _]%elem_of_difference. by right.
    + intros x ?. destruct (decide (x = name)) as [->|]; [by left|right].
      by apply elem_of_difference; rewrite elem_of_singleton.
Qed.

Lemma reached_ok d0 s : (∀ name, name ∈ d0 → plain name) → rtc tstep (mkSystem d0 []) s → probes_ok s.
Proof.
  intros Hd0 Hr. assert (probes_ok (mkSystem d0 [])) as Hok.
  { split; simpl; [constructor|by intros p ?%elem_of_nil|by left; apply Hd0|by intros p ph ?%elem_of_nil]. }
  induction Hr as [|s1 s2 s3 Hst _ IH]; [done|]. apply IH. by eapply tstep_ok.
Qed.

Lemma put_take_back (f : string) (d : gset string) :
  f ∉ d → (if decide (f ∈ {[f]} ∪ d) then Some (({[f]} ∪ d) ∖ {[f]}) else None) = Some d.
Proof. intros Hf. rewrite decide_True by set_solver. f_equal. set_solver. Qed.

(** A worker that is alone. *)
Lemma nparallel_alone ph i d listing :
  0 < i < 2 ^ 31 → (∀ name, name ∈ d → plain name) → (∀ d, Readdirnames 1000000 d (listing d)) → Z.of_nat (size d) < 1000000 →
  nparallel (kill0 [i]) listing ph i d = Some (1, d).
Proof.
  intros Hi Hd Hl Hsz. unfold nparallel. set (d' := write_file ph i d). pose (s := mkSystem d' [mkProcess i (Written ph)]).
  assert (probes_ok s) as Hok.
  { eapply (tstep_ok (mkSystem d [mkProcess i Outside])); [|by apply (t_enter 0 (mkProcess i Outside) ph)].
    apply (spawn_ok i (mkSystem d [])); [|done|by apply not_elem_of_nil].
    split; simpl; [constructor|by intros p ?%elem_of_nil|by left; apply Hd|by intros p ph' ?%elem_of_nil]. }
  assert (myfilename ph i ∉ d) as Hno by (intros Hin%Hd; by apply (plain_other _ ph i) in Hin).
  assert (scan_dir (kill0 [i]) ph (listing d') = 1) as ->.
  { change [i] with (alive s). rewrite (scan_counts s ph (listing d') Hok); [|simpl|apply Hl].
    - simpl. rewrite filter_cons, decide_True; [done|]. unfold inside. simpl. by apply bool_decide_spec.
    - unfold d', write_file. rewrite size_union by set_solver. rewrite size_singleton. lia. }
  unfold remove_file, d', write_file. by rewrite put_take_back.
Qed.
End probes.

Lemma mtiming_Reduce_order_free `{GoSort} : order_free mtiming_Reduce.
Proof. exact MrAppsSpec.pseudo_Reduce_order_free. Qed.

(** ** Counting while others go on *)

Section counting.
Context `{GoKill}.

(** From [s] to a later state: process numbers stay, and the dead stay dead. *)
Definition later (s s' : system) : Prop :=
  (pid <$> procs s) `prefix_of` (pid <$> procs s') ∧ ∀ x, x ∈ pid <$> procs s → x ∈ alive s' → x ∈ alive s.

Lemma later_refl s : later s s.
Proof. done. Qed.

Lemma later_trans s1 s2 s3 : later s1 s2 → later s2 s3 → later s1 s3.
Proof.
  intros [Hp1 Ha1] [Hp2 Ha2]. split; [by etrans|]. intros x Hx Hx3. apply Ha1; [done|]. apply Ha2; [|done].
  destruct Hp1 as [l ->]. apply elem_of_app. by left.
Qed.

(** A process that moves was not dead. *)
Lemma later_move k w s s' q :
  NoDup (pid <$> procs s) → procs s !! k = Some q → pc q ≠ Dead → procs s' = procs (set_pc k w s) → later s s'.
Proof.
  intros Hnd Hq Hpc Hp. split; [by rewrite Hp, set_pc_pids|]. intros x Hx Hin. unfold alive in Hin.
  apply list_elem_of_fmap in Hin as (q' & -> & [Hpc' Hin]%list_elem_of_filter). rewrite Hp in Hin.
  apply (set_pc_elem k w s q q' Hnd Hq) in Hin as [->|[Hin _]]; simpl.
  - apply (alive_spec s q); [done|by eapply list_elem_of_lookup_2|done].
  - by apply (alive_spec s q').
Qed.

Lemma later_die k s : later s (set_pc k Dead s).
Proof.
  split; [by rewrite set_pc_pids|]. intros x Hx Hin. unfold alive in *.
  apply list_elem_of_fmap in Hin as (q' & -> & [Hpc' Hin]%list_elem_of_filter). apply list_elem_of_fmap. exists q'. split; [done|].
  apply list_elem_of_filter. split; [done|]. simpl in Hin. apply list_elem_of_lookup in Hin as [j Hj].
  rewrite list_lookup_alter in Hj. case_decide; [|by eapply list_elem_of_lookup_2]. subst j.
  destruct (procs s !! k) as [q|]; [|done]. simpl in Hj. injection Hj as <-. done.
Qed.

Lemma tstep_later s s' : probes_ok s → tstep s s' → later s s'.
Proof.
  intros Hok Hst. pose proof (po_pids _ Hok) as Hnd.
  destruct Hst as [i s Hi1 Hi2|k q ph s Hq Hpc|k q ph names s Hq Hpc Hrd|k q ph f fs r s Hq Hpc|k q ph r d s Hq Hpc Hd|k s|name s Hpl|name s Hpl];
    [|eapply (later_move k _ s _ q); [done|done|by rewrite Hpc|done]..|apply later_die|done|done].
  split; [simpl; rewrite fmap_app; by apply prefix_app_r|]. intros x Hx. unfold alive. simpl. rewrite filter_app, fmap_app, elem_of_app.
  intros [Hin|Hin]; [done|]. rewrite filter_cons_True in Hin by done. apply list_elem_of_singleton in Hin as ->. done.
Qed.

(** What is listed and counts later counted before. *)
Lemma counts_later s1 s s' ph name :
  probes_ok s1 → name ∈ dir s1 → later s1 s → later s s' →
  counts (kill0 (alive s')) (scan_pid ph) name → counts (kill0 (alive s)) (scan_pid ph) name.
Proof.
  intros Hok Hin [[l Hl] _] [_ Ha]. unfold counts.
  destruct (po_files _ Hok name Hin) as [Hpl|(q & ph' & Hq & ->)]; [by rewrite plain_spec|].
  rewrite scan_myfilename by by apply (po_range _ Hok). case_decide; [|done]. rewrite !kill0_spec by by apply (po_range _ Hok).
  rewrite !bool_decide_spec. apply Ha. rewrite Hl. apply elem_of_app. left. by apply list_elem_of_fmap_2.
Qed.

(** Process [k] stays in the loop. *)
Definition counting (k : nat) (s s' : system) : Prop :=
  tstep s s' ∧ ∃ q ph names ret, procs s' !! k = Some q ∧ pc q = Counting ph names ret.

(** [ret] lies between the names counted that still count and those that counted when
    the directory was read at [s1]. *)
Record in_loop (s1 : system) k ph names (s : system) : Prop := mkInLoop {
  il_later : later s1 s;
  il_ok : probes_ok s;
  il_ret : ∃ q done rest ret, procs s !! k = Some q ∧ pc q = Counting ph rest ret ∧ names = done ++ rest ∧
    zlen (filter (λ name, counts (kill0 (alive s)) (scan_pid ph) name) done) <= ret <=
    zlen (filter (λ name, counts (kill0 (alive s1)) (scan_pid ph) name) done);
}.

Lemma zlen_filter_le {A} (P Q : A → Prop) `{∀ x, Decision (P x)} `{∀ x, Decision (Q x)} (l : list A) :
  (∀ x, x ∈ l → P x → Q x) → zlen (filter P l) <= zlen (filter Q l).
Proof.
  intros HPQ. unfold zlen. apply inj_le. induction l as [|x l IH]; [done|]. rewrite !filter_cons.
  assert (List.length (filter P l) ≤ List.length (filter Q l))%nat as Hl by (apply IH; intros y Hy; apply HPQ; by right).
  repeat case_decide; simpl; try lia. exfalso. eauto using list_elem_of_here.
Qed.

Lemma in_loop_step s1 k ph names s s' :
  probes_ok s1 → (∀ name, name ∈ names → name ∈ dir s1) → in_loop s1 k ph names s → counting k s s' → in_loop s1 k ph names s'.
Proof.
  intros Hok1 Hdir [Hl Hok (q & done & rest & ret & Hq & Hpc & Hnames & Hlo & Hhi)] [Hst (q' & ph' & names' & ret' & Hq' & Hpc')].
  pose proof (tstep_later s s' Hok Hst) as Hl2. pose proof (tstep_ok s s' Hok Hst) as Hok'.
  assert (∀ name, name ∈ names → counts (kill0 (alive s')) (scan_pid ph) name → counts (kill0 (alive s)) (scan_pid ph) name) as Hmono.
  { intros name Hn. by apply (counts_later s1 s s' ph name Hok1 (Hdir name Hn)). }
  assert (zlen (filter (λ name, counts (kill0 (alive s')) (scan_pid ph) name) done) <=
          zlen (filter (λ name, counts (kill0 (alive s)) (scan_pid ph) name) done)) as Hlo'.
  { apply zlen_filter_le. intros name Hn. apply Hmono. rewrite Hnames. apply elem_of_app. by left. }
  assert (procs s' !! k = Some q → in_loop s1 k ph names s') as Hsame.
  { intros Hq2. split; [by eapply later_trans|done|]. exists q, done, rest, ret. split_and!; [done..|lia|lia]. }
  assert (∀ j w, procs s' = alter (λ p, mkProcess (pid p) w) j (procs s) → j ≠ k → in_loop s1 k ph names s') as Hother.
  { intros j w Hp Hj. apply Hsame. by rewrite Hp, list_lookup_alter_ne. }
  assert (∀ j w, procs s' = alter (λ p, mkProcess (pid p) w) j (procs s) → j = k → pc q' = w) as Hself.
  { intros j w Hp ->. rewrite Hp, list_lookup_alter, Hq in Hq'. rewrite decide_True in Hq' by done. by injection Hq' as <-. }
  destruct Hst as [i s Hi1 Hi2|j p ph2 s Hp Hpc2|j p ph2 names2 s Hp Hpc2 Hrd|j p ph2 f fs r s Hp Hpc2|j p ph2 r d s Hp Hpc2 Hd|j s|name s Hpl|name s Hpl];
    try (destruct (decide (j = k)) as [->|Hj]; [|by eapply Hother]); try (by apply Hsame).
  - apply Hsame. simpl. by apply lookup_app_l_Some.
  - congruence.
  - congruence.
  - assert (p = q) as -> by congruence. rewrite Hpc in Hpc2. injection Hpc2 as <- -> <-.
    set (s2 := set_pc _ _ s) in *. split; [by eapply later_trans|done|]. eexists _, (done ++ [f]), fs, _.
    split; [unfold s2; simpl; by rewrite list_lookup_alter, decide_True, Hq|].
    split; [done|]. split; [by rewrite <- app_assoc|]. rewrite !filter_app, !zlen_app, count_name_counts.
    assert (f ∈ names) as Hf by (rewrite Hnames; apply elem_of_app; right; by left).
    assert (∀ g : string → bool, zlen (filter (λ name : string, g name) [f]) = if g f then 1 else 0) as Hone.
    { intros g. rewrite filter_cons. destruct (g f); [by rewrite decide_True|by rewrite decide_False by (by intros [])]. }
    rewrite !Hone. specialize (Hmono f Hf). pose proof (counts_later s1 s1 s ph f Hok1 (Hdir f Hf) (later_refl s1) Hl) as Hm1.
    destruct (counts (kill0 (alive s2)) _ f), (counts (kill0 (alive s)) _ f), (counts (kill0 (alive s1)) _ f);
      cbv iota; first [lia|by destruct (Hmono I)|by destruct (Hm1 I)].
  - rewrite (Hself k Outside eq_refl eq_refl) in Hpc'. done.
  - rewrite (Hself k Dead eq_refl eq_refl) in Hpc'. done.
Qed.

Lemma in_loop_run s1 k ph names s s' :
  probes_ok s1 → (∀ name, name ∈ names → name ∈ dir s1) → in_loop s1 k ph names s → rtc (counting k) s s' → in_loop s1 k ph names s'.
Proof. intros Hok Hdir Hl Hr. induction Hr as [|s s2 s3 Hst _ IH]; [done|]. apply IH. by eapply in_loop_step. Qed.
End counting.

(** ** The theorem *)

(** C35: What [nparallel] returns, with the other workers going on between its system
    calls: they start, enter and leave, are killed and leave their files behind.  Of
    the workers that were in it for the same phase when it read the directory, itself
    included, it counts at most all, and at least those that still live when it has
    sent the last signal - so exactly these workers when none of them dies
    meanwhile.  Its own file is still there in the end, so that removing it does not
    panic.  A process number is not used twice, the directory is read in one step
    and has at most a million names, and other files are not named like those of
    the probes. *)
Theorem nparallel_counts `{GoKill} d0 s1 s2 k p1 p2 ph names ret :
  (∀ name, name ∈ d0 → plain name) → rtc tstep (mkSystem d0 []) s1 → Z.of_nat (size (dir s1)) <= 1000000 →
  procs s1 !! k = Some p1 → pc p1 = Written ph → Readdirnames 1000000 (dir s1) names →
  rtc (counting k) (set_pc k (Counting ph names 0) s1) s2 → procs s2 !! k = Some p2 → pc p2 = Counting ph [] ret →
  let there := filter (λ q, inside ph q) (procs s1) in
  zlen (filter (λ q, pid q ∈ alive s2) there) <= ret <= zlen there ∧ 1 <= ret ∧ is_Some (remove_file ph (pid p2) (dir s2)).
Proof.
  intros Hd0 Hr%reached_ok Hsz Hk1 Hpc1 Hrd Hc Hk2 Hpc2 there; [|done].
  pose proof (listing s1 names Hsz Hrd) as Hperm.
  assert (∀ name, name ∈ names → name ∈ dir s1) as Hdir by (intros name; by rewrite Hperm, elem_of_elements).
  pose proof (t_list k p1 ph names s1 Hk1 Hpc1 Hrd) as Hst.
  destruct (in_loop_run s1 k ph names (set_pc k (Counting ph names 0) s1) s2 Hr Hdir) as [Hl Hok (q & cnt & rest & ret' & Hq & Hpc & Hnames & Hlo & Hhi)]; [|done|].
  { split; [by apply tstep_later|by eapply tstep_ok|]. eexists _, [], names, 0. split; [simpl; by rewrite list_lookup_alter, decide_True, Hk1|].
    done. }
  assert (q = p2) as -> by congruence. rewrite Hpc2 in Hpc. injection Hpc as <- <-. rewrite app_nil_r in Hnames. subst cnt.
  rewrite (inside_counts s1 ph names Hr Hsz Hrd) in Hhi.
  assert (zlen (filter (λ q, pid q ∈ alive s2) there) <= ret) as Hlow.
  { etrans; [|exact Hlo]. unfold zlen. rewrite Hperm.
    rewrite (names_of_inside s1 ph (kill0 (alive s2)) Hr), length_fmap.
    - unfold there. rewrite list_filter_filter. apply Z.eq_le_incl. do 2 f_equal. apply list_filter_ext_elem. intros x Hx.
      rewrite kill0_spec by by apply (po_range _ Hr). rewrite bool_decide_spec. tauto.
    - intros x Hx Hlive. rewrite kill0_spec in Hlive by by apply (po_range _ Hr). apply bool_decide_spec in Hlive.
      apply (alive_spec s1 x); [apply Hr|done|]. apply (proj2 Hl); [by apply list_elem_of_fmap_2|done]. }
  split; [done|]. split.
  - etrans; [|exact Hlow]. assert (p1 ∈ filter (λ q, pid q ∈ alive s2) there) as Hin.
    { apply list_elem_of_filter. split.
      - assert (pid p1 = pid p2) as ->.
        { destruct (proj1 Hl) as [l Heq]. assert ((pid <$> procs s2) !! k = Some (pid p1)) as Hpid.
          { rewrite Heq. apply lookup_app_l_Some. by rewrite list_lookup_fmap, Hk1. }
          rewrite list_lookup_fmap, Hk2 in Hpid. by injection Hpid. }
        apply (alive_spec s2 p2); [apply Hok|by eapply list_elem_of_lookup_2|by rewrite Hpc2].
      - apply list_elem_of_filter. split; [|by eapply list_elem_of_lookup_2]. unfold inside. rewrite Hpc1. by apply bool_decide_spec. }
    unfold zlen. destruct (filter _ there); [by apply elem_of_nil in Hin|]. simpl. lia.
  - unfold remove_file. rewrite decide_True; [done|].
    apply (po_inside _ Hok); [by eapply list_elem_of_lookup_2|by rewrite Hpc2|]. unfold inside. rewrite Hpc2. by apply bool_decide_spec.
Qed.

(** Three workers in the map phase; the third dies after the first has read the
    directory, and a fourth enters. *)
#[local] Instance sample_kill : GoKill.
Proof. by refine {| kill0 := λ pids x, bool_decide (x ∈ pids) |}. Defined.

Definition three_workers : system :=
  mkSystem {["mr-worker-map-7"; "mr-worker-map-12"; "mr-worker-map-9"; "pg-grimm.txt"]}
    [mkProcess 7 (Written map_phase); mkProcess 12 (Written map_phase); mkProcess 9 (Written map_phase)].

Lemma three_workers_reached : rtc tstep (mkSystem {["pg-grimm.txt"]} []) three_workers.
Proof.
  eapply rtc_l; [apply (t_spawn 7); [lia|by apply not_elem_of_nil]|]. simpl.
  eapply rtc_l; [apply (t_spawn 12); [lia|set_solver]|]. simpl.
  eapply rtc_l; [apply (t_spawn 9); [lia|set_solver]|]. simpl.
  eapply rtc_l; [by apply (t_enter 0 (mkProcess 7 Outside) map_phase)|].
  eapply rtc_l; [by apply (t_enter 1 (mkProcess 12 Outside) map_phase)|].
  eapply rtc_l; [by apply (t_enter 2 (mkProcess 9 Outside) map_phase)|]. unfold three_workers, set_pc, write_file. simpl.
  match goal with |- rtc _ (mkSystem ?d _) (mkSystem ?d' _) => assert (d = d') as ->; [|done] end.
  apply (bool_decide_unpack _). by vm_compute.
Qed.

Definition three_names : list string := ["mr-worker-map-7"; "mr-worker-map-12"; "pg-grimm.txt"; "mr-worker-map-9"].

Definition counted : system :=
  mkSystem (dir three_workers) [mkProcess 7 (Counting map_phase [] 2); mkProcess 12 (Written map_phase); mkProcess 9 Dead].

Lemma counting_signal k s q ph name names ret ret' :
  procs s !! k = Some q → pc q = Counting ph (name :: names) ret → count_name (kill0 (alive s)) (scan_pid ph) name ret = ret' →
  counting k s (set_pc k (Counting ph names ret') s).
Proof.
  intros Hq Hpc <-. split; [by eapply t_signal|]. eexists _, ph, names, _. split; [simpl; by rewrite list_lookup_alter, decide_True, Hq|done].
Qed.

Lemma counting_die k j s q ph names ret :
  procs s !! k = Some q → pc q = Counting ph names ret → j ≠ k → counting k s (set_pc j Dead s).
Proof.
  intros Hq Hpc Hj. split; [apply t_die|]. exists q, ph, names, ret. split; [|done]. simpl. by rewrite list_lookup_alter_ne.
Qed.

Lemma three_counted : rtc (counting 0) (set_pc 0 (Counting map_phase three_names 0) three_workers) counted.
Proof.
  eapply rtc_l; [by eapply (counting_signal 0 _ _ _ _ _ _ 1); [done..|vm_compute]|].
  eapply rtc_l; [by eapply (counting_die 0 2)|].
  eapply rtc_l; [by eapply (counting_signal 0 _ _ _ _ _ _ 2); [done..|vm_compute]|].
  eapply rtc_l; [by eapply (counting_signal 0 _ _ _ _ _ _ 2); [done..|vm_compute]|].
  eapply rtc_l; [by eapply (counting_signal 0 _ _ _ _ _ _ 2); [done..|vm_compute]|].
  by apply rtc_refl.
Qed.

Lemma nparallel_counts_witness :
  let there := filter (λ q, inside map_phase q) (procs three_workers) in
  zlen (filter (λ q, pid q ∈ alive counted) there) = 2 ∧ zlen there = 3 ∧
  (zlen (filter (λ q, pid q ∈ alive counted) there) <= 2 <= zlen there ∧ 1 <= 2 ∧ is_Some (remove_file map_phase 7 (dir counted))).
Proof.
  intros there. split; [by vm_compute|]. split; [by vm_compute|].
  assert (∀ name, name ∈ ({["pg-grimm.txt"]} : gset string) → plain name) as Hd0 by by intros name ->%elem_of_singleton.
  assert (Z.of_nat (size (dir three_workers)) <= 1000000) as Hsz by by vm_compute.
  assert (Readdirnames 1000000 (dir three_workers) three_names) as Hrd.
  { split; [|by vm_compute]. apply Permutation_submseteq. apply NoDup_Permutation; [|apply NoDup_elements|].
    - apply (bool_decide_unpack _). by vm_compute.
    - intros name. rewrite elem_of_elements. unfold three_names, three_workers. simpl. clear. set_solver. }
  exact (nparallel_counts {["pg-grimm.txt"]} three_workers counted 0 (mkProcess 7 (Written map_phase))
    (mkProcess 7 (Counting map_phase [] 2)) map_phase three_names 2 Hd0 three_workers_reached Hsz eq_refl eq_refl Hrd
    three_counted eq_refl eq_refl).
Defined.
End MrTimingSpec.
