(* ===== verification/MrCluster.v ===== *)
(** Model of a MapReduce job with many workers on one working directory
    (mr/worker.go, mr/master.go, main/mrworker.go): the workers' steps interleave,
    a worker may be killed between any two of them, and one the coordinator has
    given up may still report.

    One step of a worker is what the others cannot see halfway: an RPC, reading a
    file that is open, a rename. *)

From S2P Require Import Prelude GoStd Mr MrWorker.

#[local] Open Scope Z_scope.
#[local] Open Scope go_scope.

Module MrCluster.
Export MrWorker.

(** Where a worker is. *)
Inductive worker :=
| Asking (id : Z)
| Mapping (id : Z) (reply : MrReply) (args : MrArgs)
| Renaming (id mapId i : Z) (ofile : list string) (args : MrArgs)
| Globbing (id taskId : Z) (args : MrArgs)
| Collecting (id taskId : Z) (files : list string) (kvbox : list KeyValue) (args : MrArgs)
| Reporting (id : Z) (args : MrArgs)
| Gone.

Record cluster := mkCluster {
  c_master : Master;
  c_workers : list worker;
  c_fs : FileSystem;
}.

(** What the loop of [Worker] does with a reply. *)
Definition dispatch (r : Z * action * option MrArgs) : worker :=
  match r with
  | (id, DoMap reply, Some args) => Mapping id reply args
  | (id, DoReduce reply, Some args) => Globbing id (r_TaskId reply) args
  | (id, Wait, _) => Asking id
  | _ => Gone
  end.

Section cluster.
Context `{GoSort} `{GoJson} (mapf : string → string → list KeyValue) (reducef : string → list string → string).

(** The first half of [doMap]: the input is read and the temporary files are
    written; [Gone] is the end of the worker's process. *)
Definition map_input (id : Z) (reply : MrReply) (args : MrArgs) (fs : FileSystem) : worker :=
  match fs !! r_TaskName reply with
  | None => Gone
  | Some content =>
      if r_NReduce reply <? 0 then Gone
      else
        match write_buckets (r_NReduce reply) (mapf (r_TaskName reply) content)
                (replicate (Z.to_nat (r_NReduce reply)) "") with
        | None => Gone
        | Some ofile => Renaming id (r_MapId reply) 0 ofile args
        end
  end.

(** The second half of [doReduce]: from the collected pairs to the renamed
    output. *)
Definition reduce_output_step (id taskId : Z) (kvbox : list KeyValue) (args : MrArgs) (fs : FileSystem) :
    worker * FileSystem :=
  if zlen kvbox =? 0 then (Reporting id args, fs)
  else
    let kvbox := go_sort ByKey_Less kvbox in
    match reduce_loop reducef kvbox (List.length kvbox) 0 0 "" with
    | Some out => (Reporting id args, <[out_name taskId := out]> fs)
    | None => (Gone, fs)
    end.

(** [CallforTaskFinish]: the coordinator notes the task, and the worker's loop
    goes on. *)
Definition CallforTaskFinish (id : Z) (args : MrArgs) (m : Master) : option (worker * Master) :=
  m ← TaskFinish args m; Some (Asking id, m).

(** The next step of a worker.  [None]: the coordinator panics. *)
Definition worker_step (order1 order2 : list string) (now : Z) (w : worker) (m : Master) (fs : FileSystem) :
    option (worker * Master * FileSystem) :=
  match w with
  | Asking id =>
      '(m, reply) ← GiveTask order1 order2 now (CallforTask id) m; Some (dispatch (Worker_step id (Some reply)), m, fs)
  | Mapping id reply args => Some (map_input id reply args fs, m, fs)
  | Renaming id mapId i [] args => Some (Reporting id args, m, fs)
  | Renaming id mapId i (f :: ofile) args =>
      Some (Renaming id mapId (i + 1) ofile args, m, <[int_name mapId i := f]> fs)
  | Globbing id taskId args => Some (Collecting id taskId (Glob taskId fs) [] args, m, fs)
  | Collecting id taskId (name :: files) kvbox args =>
      match fs !! name with
      | Some text => Some (Collecting id taskId files (kvbox ++ json_decode text) args, m, fs)
      | None => Some (Gone, m, fs)
      end
  | Collecting id taskId [] kvbox args => let '(w, fs) := reduce_output_step id taskId kvbox args fs in Some (w, m, fs)
  | Reporting id args => '(w, m) ← CallforTaskFinish id args m; Some (w, m, fs)
  | Gone => Some (Gone, m, fs)
  end.

(** Worker [k] takes its next step. *)
Definition act (order1 order2 : list string) (now : Z) (k : nat) (c : cluster) : option cluster :=
  w ← c_workers c !! k;
  '(w, m, fs) ← worker_step order1 order2 now w (c_master c) (c_fs c);
  Some (mkCluster m (<[k := w]> (c_workers c)) fs).

(** A worker is started; worker [k] is killed, or its connection breaks, which
    ends it too. *)
Definition spawn (c : cluster) : cluster := mkCluster (c_master c) (c_workers c ++ [Asking 0]) (c_fs c).
Definition crash (k : nat) (c : cluster) : cluster :=
  mkCluster (c_master c) (<[k := Gone]> (c_workers c)) (c_fs c).

Inductive cstep : cluster → cluster → Prop :=
| c_spawn c : cstep c (spawn c)
| c_crash k c : cstep c (crash k c)
| c_act order1 order2 now k c c' :
    key_order (c_master c) order1 → key_order (c_master c) order2 →
    act order1 order2 now k c = Some c' → cstep c c'.

(** The steps of worker [k] when the others stand still; [clock] is the time at
    each of them. *)
Fixpoint solo (order : Master → list string) (clock : nat → Z) (k n : nat) (c : cluster) : option cluster :=
  match n with
  | O => Some c
  | S n =>
      c ← act (order (c_master c)) (order (c_master c)) (clock 0%nat) k c; solo order (λ j, clock (S j)) k n c
  end.

(** The start of a job. *)
Definition start (m : Master) (fs : FileSystem) : cluster := mkCluster m [] fs.
End cluster.

End MrCluster.
