(* ===== verification/MrClusterProof.v ===== *)
(** Properties of the MapReduce cluster (MrCluster.v): the invariant that every
    file has its final content from the moment it appears, its preservation by
    every step, and that a worker left alone finishes the job. *)

From S2P Require Import Prelude GoStd Mr MrProof MrJob MrWorker MrWorkerProof MrCorrect MrSpec MrCluster.

#[local] Open Scope Z_scope.
#[local] Open Scope go_scope.

Module MrClusterProof.
Export MrSpec MrCluster.

Lemma out_name_inj a b : 0 <= a → 0 <= b → out_name a = out_name b → a = b.
Proof.
  intros Ha Hb He. apply (glob_out_name b a); [done..|]. rewrite He. by apply glob_out_name.
Qed.

Section proof.
Context `{GoSort} `{GoJson} (mapf : string → string → list KeyValue) (reducef : string → list string → string).
Context (n : Z) (files : list string) (fs0 : FileSystem).

Implicit Types (m : Master) (fs : FileSystem) (w : worker) (c : cluster) (name : string).

Abbreviation expected := (expected mapf reducef n fs0 files).
Abbreviation file_id := (file_id files).

(** ** Files *)

Definition bucket_text name (j : Z) : string := encode_all (in_bucket n j (mapf name (content fs0 name))).

(** The content a file has once it exists. *)
Inductive right : string → string → Prop :=
| right_input name t : fs0 !! name = Some t → right name t
| right_int name j : name ∈ files → 0 <= j < n → right (int_name (file_id name) j) (bucket_text name j)
| right_out Y t : 0 <= Y < n → expected Y = Some t → right (out_name Y) t.

Definition disk_ok fs : Prop := fs0 ⊆ fs ∧ ∀ name t, fs !! name = Some t → right name t.

Definition map_done name fs : Prop := mapped mapf n (file_id name) name (content fs0 name) fs.
Definition out_done (Y : Z) fs : Prop := ∀ t, expected Y = Some t → fs !! out_name Y = Some t.

(** ** The invariant *)

Record master_ok m fs : Prop := {
  mo_wf : wf m;
  mo_nreduce : NReduce m = n;
  mo_ids : f2id m = file_ids files;
  mo_files : ∀ i, is_Some (mmap m !! i) ↔ i ∈ files;
  mo_maps : ∀ i, mmap m !! i = Some 2 → map_done i fs;
  mo_reduces : ∀ k : nat, rtask m !! k = Some 2 → out_done (Z.of_nat k) fs;
}.

Definition map_args name : MrArgs := mkMrArgs 1 name 0 0.
Definition reduce_args (Y : Z) : MrArgs := mkMrArgs 2 "" 0 Y.

Definition read_file fs name : list KeyValue := json_decode (default "" (fs !! name)).

Definition worker_ok m fs w : Prop :=
  match w with
  | Asking _ | Gone => True
  | Mapping _ reply args =>
      ∃ name, name ∈ files ∧ args = map_args name ∧ r_TaskName reply = name ∧ r_NReduce reply = n ∧
        r_MapId reply = file_id name
  | Renaming _ mapId i ofile args =>
      ∃ name, name ∈ files ∧ args = map_args name ∧ mapId = file_id name ∧ 0 <= i ∧ i + zlen ofile = n ∧
        (∀ j, 0 <= j < i → fs !! int_name mapId j = Some (bucket_text name j)) ∧
        (∀ k f, ofile !! k = Some f → f = bucket_text name (i + Z.of_nat k))
  | Globbing _ Y args => mdone m = true ∧ 0 <= Y < n ∧ args = reduce_args Y
  | Collecting _ Y names kvbox args =>
      mdone m = true ∧ 0 <= Y < n ∧ args = reduce_args Y ∧
        ∃ pre fsx, fsx ⊆ fs ∧ disk_ok fsx ∧ (∀ name, name ∈ files → map_done name fsx) ∧
          Glob Y fsx = pre ++ names ∧ kvbox = flat_map (read_file fsx) pre
  | Reporting _ args =>
      (∃ name, name ∈ files ∧ args = map_args name ∧ map_done name fs) ∨
      (∃ Y, mdone m = true ∧ 0 <= Y < n ∧ args = reduce_args Y ∧ out_done Y fs)
  end.

Record cluster_ok c : Prop := {
  co_master : master_ok (c_master c) (c_fs c);
  co_disk : disk_ok (c_fs c);
  co_workers : Forall (worker_ok (c_master c) (c_fs c)) (c_workers c);
}.

(** ** Files only appear *)

Lemma map_done_mono name fs fs' : fs ⊆ fs' → map_done name fs → map_done name fs'.
Proof. intros Hs Hd j Hj. eapply lookup_weaken; [by apply Hd|done]. Qed.

Lemma out_done_mono Y fs fs' : fs ⊆ fs' → out_done Y fs → out_done Y fs'.
Proof. intros Hs Hd t Ht. eapply lookup_weaken; [by apply Hd|done]. Qed.

Lemma master_ok_mono m fs fs' : fs ⊆ fs' → master_ok m fs → master_ok m fs'.
Proof.
  intros Hs [? ? ? ? Hm Hr]. constructor; try done; intros; eauto using map_done_mono, out_done_mono.
Qed.

Lemma worker_ok_mono m m' fs fs' w :
  (mdone m = true → mdone m' = true) → fs ⊆ fs' → worker_ok m fs w → worker_ok m' fs' w.
Proof.
  intros Hm Hs. destruct w; simpl; try done.
  - intros (name & ? & ? & ? & ? & ? & Hj & ?). exists name. split_and!; try done.
    intros j Hlt. eapply lookup_weaken; [by apply Hj|done].
  - naive_solver.
  - intros (? & ? & ? & pre & fsx & ? & ?). do 3 (split; [by auto|]). exists pre, fsx. split; [by trans fs|done].
  - intros [(name & ? & ? & ?)|(Y & ? & ? & ? & ?)]; [left; exists name|right; exists Y].
    + eauto using map_done_mono.
    + do 3 (split; [by auto|]). by eapply out_done_mono.
Qed.

Section inputs.
Context (Hn : 0 < n) (Hne : "" ∉ files) (Hio : inputs_ok mapf fs0 files) (Hfree : order_free reducef).

Lemma file_id_pos name : name ∈ files → 0 <= file_id name.
Proof. intros Hin. by apply (file_id_spec files name (io_nodup _ _ _ Hio)). Qed.

Lemma file_id_inj a b : a ∈ files → b ∈ files → file_id a = file_id b → a = b.
Proof.
  intros Ha Hb He. apply (file_id_spec _ _ (io_nodup _ _ _ Hio)) in Ha as [_ Ha], Hb as [_ Hb].
  rewrite He in Ha. congruence.
Qed.

Lemma fresh name t : fs0 !! name = Some t → ¬ mr_name name.
Proof. intros Hs. apply (io_fresh _ _ _ Hio). by eexists. Qed.

(** A file has one content. *)
Lemma right_fun name t t' : right name t → right name t' → t = t'.
Proof.
  intros H1 H2. remember name as name' eqn:E. rewrite E in H2. revert E H2.
  destruct H1 as [x t Hx|a j Ha Hj|Y t HY Ht]; intros E H2; destruct H2 as [x' t' Hx'|b j' Hb Hj'|Y' t' HY' Ht'];
    subst; try congruence; try by (exfalso; eapply fresh; [done|by first [apply int_name_mr|apply out_name_mr]]).
  - apply int_name_inj in E as [He ->]; [|by apply file_id_pos|lia|by apply file_id_pos|lia].
    apply file_id_inj in He as ->; done.
  - exfalso. symmetry in E. apply out_int_name in E; [done|lia|by apply file_id_pos|lia].
  - exfalso. apply out_int_name in E; [done|lia|by apply file_id_pos|lia].
  - apply out_name_inj in E as ->; [congruence|lia|lia].
Qed.

Lemma disk_write fs name t : disk_ok fs → right name t → disk_ok (<[name := t]> fs) ∧ fs ⊆ <[name := t]> fs.
Proof.
  intros [Hsub Hr] Ht. assert (fs ⊆ <[name := t]> fs) as Hs.
  { apply map_subseteq_spec. intros x u Hx. rewrite lookup_insert_Some. destruct (decide (name = x)) as [->|]; [|by right].
    left. split; [done|]. eapply right_fun; [done|by apply Hr]. }
  split; [|done]. split; [by trans fs|]. intros x u. rewrite lookup_insert_Some. intros [[<- <-]|[_ Hx]]; [done|by apply Hr].
Qed.

Lemma right_out_inv Y t : 0 <= Y < n → right (out_name Y) t → expected Y = Some t.
Proof.
  intros HY Ht. remember (out_name Y) as x eqn:E. destruct Ht as [x t Hx|a j Ha Hj|Y' t HY' Ht].
  - subst. by apply fresh in Hx as []; apply out_name_mr.
  - symmetry in E. apply out_int_name in E; [done|lia|by apply file_id_pos|lia].
  - apply out_name_inj in E as ->; [done|lia|lia].
Qed.

Lemma out_done_lookup Y fs : disk_ok fs → 0 <= Y < n → out_done Y fs → fs !! out_name Y = expected Y.
Proof.
  intros [_ Hr] HY Hd. destruct (expected Y) as [t|] eqn:He; [by apply Hd|].
  apply eq_None_ne_Some_2. intros t Ht%Hr%right_out_inv; [congruence|done].
Qed.

(** ** The coordinator's steps *)

Lemma done_mapped m fs : master_ok m fs → mdone m = true → ∀ name, name ∈ files → map_done name fs.
Proof.
  intros Hm Hd name Hin. apply (mo_maps _ _ Hm). apply (mo_files _ _ Hm) in Hin as [v Hv].
  by rewrite Hv, (wf_mdone _ (mo_wf _ _ Hm) Hd name v Hv).
Qed.

Lemma rtask_range m fs (k : nat) v : master_ok m fs → rtask m !! k = Some v → 0 <= Z.of_nat k < n.
Proof.
  intros Hm Hk. apply lookup_lt_Some in Hk. rewrite <-(mo_nreduce _ _ Hm), <-(wf_nred _ (mo_wf _ _ Hm)).
  unfold zlen. lia.
Qed.

Lemma give_ok id now m m' reply fs :
  master_ok m fs → give_result now (CallforTask id) m m' reply →
  master_ok m' fs ∧ worker_ok m' fs (dispatch (Worker_step id (Some reply))).
Proof.
  intros Hm Hg. pose proof (give_result_wf _ _ _ _ _ (mo_wf _ _ Hm) Hg) as Hwf'.
  set (args := CallforTask id) in *. destruct (with_id_fields args m) as (Em & Er & En & _ & _ & Ef & _).
  pose proof Hm as [_ Hnr Hids Hfiles Hmaps Hreds]. split.
  - destruct Hg; (constructor; [done|simpl; rewrite ?En, ?Ef; done..| | |]); simpl; rewrite ?Em, ?Er; try done.
    1, 3: intros j; rewrite lookup_insert_is_Some; pose proof (Hfiles i) as Hi; rewrite <-(Hfiles j);
      destruct (decide (i = j)) as [->|]; [|by naive_solver]; split; [intros _; by eexists|by left].
    1, 2: by intros j [[_ ?]|[_ ?]]%lookup_insert_Some; [|apply Hmaps].
    1, 2: by intros j [(_ & ? & _)|[_ ?]]%list_lookup_insert_Some; [|apply Hreds].
  - unfold Worker_step, dispatch. destruct ((id =? 0) && (r_WorkerId reply =? 0)); [done|].
    destruct Hg as [i _ Hi| | | |k Hd _ Hk| | | |]; simpl; try done.
    + assert (i ∈ files) as Hin by (apply Hfiles; by eexists).
      rewrite bool_decide_false by (intros ->; done). simpl. exists i. by rewrite Hids.
    + pose proof (with_id_fields args m) as (_ & _ & _ & Emd & _). rewrite Emd. split; [done|]. split; [|done].
      by eapply rtask_range.
Qed.

Lemma report_ok id args m fs :
  master_ok m fs → worker_ok m fs (Reporting id args) →
  ∃ m', TaskFinish args m = Some m' ∧ master_ok m' fs.
Proof.
  intros Hm [(name & Hin & -> & Hd)|(Y & Hmd & HY & -> & Hd)]; unfold TaskFinish; simpl.
  - eexists. split; [done|]. pose proof Hm as [Hwf Hnr Hids Hfiles Hmaps Hreds].
    pose proof (TaskFinish_wf (map_args name) m _ Hwf eq_refl) as Hwf'.
    constructor; try done; simpl.
    + intros j. rewrite lookup_insert_is_Some. rewrite <-(Hfiles j). apply Hfiles in Hin.
      destruct (decide (name = j)) as [->|]; naive_solver.
    + intros j [[<- _]|[_ ?]]%lookup_insert_Some; auto.
  - pose proof Hm as [Hwf Hnr Hids Hfiles Hmaps Hreds]. pose proof (wf_nred _ Hwf) as Hl.
    destruct (zupdate_total (rtask m) Y 2) as [l Hu]; [lia|]. rewrite Hu. simpl. eexists. split; [done|].
    assert (TaskFinish (reduce_args Y) m = Some (set_rtask l m)) as Hf by (unfold TaskFinish; simpl; by rewrite Hu).
    pose proof (TaskFinish_wf _ _ _ Hwf Hf) as Hwf'. apply zupdate_Some in Hu as [_ ->].
    constructor; try done; simpl.
    intros k [(<- & _)|[_ ?]]%list_lookup_insert_Some; [|by apply Hreds]. by rewrite Z2Nat.id by lia.
Qed.
(** ** The steps of a map task *)

Lemma map_input_ok id reply args m fs :
  disk_ok fs → worker_ok m fs (Mapping id reply args) → worker_ok m fs (map_input mapf id reply args fs).
Proof.
  intros [Hsub _] (name & Hin & -> & Ht & Hr & Hid). unfold map_input. rewrite Ht, Hr.
  destruct (io_exist _ _ _ Hio name Hin) as [c Hc]. rewrite (lookup_weaken _ _ _ _ Hc Hsub).
  rewrite (proj2 (Z.ltb_ge n 0)) by lia.
  destruct (write_buckets_spec n (mapf name c) (replicate (Z.to_nat n) "") Hn) as (o & -> & Hl & Hj).
  { unfold zlen. rewrite length_replicate. lia. }
  exists name. rewrite Hid. do 4 (split; [done|]). split; [lia|]. split; [lia|].
  intros k f Hk. assert (k < Z.to_nat n)%nat as Hlt by (apply lookup_lt_Some in Hk; unfold zlen in Hl; lia).
  specialize (Hj k ""). rewrite Hk, lookup_replicate_2 in Hj by done. specialize (Hj eq_refl). simplify_eq.
  rewrite Z.add_0_l. unfold bucket_text, content. by rewrite Hc.
Qed.

Lemma renaming_ok id mapId i f ofile args m fs :
  disk_ok fs → worker_ok m fs (Renaming id mapId i (f :: ofile) args) →
  let fs' := <[int_name mapId i := f]> fs in
  disk_ok fs' ∧ fs ⊆ fs' ∧ worker_ok m fs' (Renaming id mapId (i + 1) ofile args).
Proof.
  intros Hd (name & Hin & -> & -> & Hi & Hl & Hbelow & Hrest) fs'. rewrite zlen_cons in Hl. pose proof (zlen_nonneg ofile).
  assert (f = bucket_text name i) as -> by (rewrite (Hrest 0%nat f eq_refl); f_equal; lia).
  destruct (disk_write fs (int_name (file_id name) i) (bucket_text name i)) as [Hd' Hs]; [done|apply right_int; [done|lia]|].
  split; [done|]. split; [done|]. exists name. do 3 (split; [done|]). split; [lia|]. split; [lia|]. split.
  - intros j Hj. destruct (decide (j = i)) as [->|]; [apply lookup_insert_eq|].
    eapply lookup_weaken; [apply Hbelow; lia|done].
  - intros k g Hk. rewrite (Hrest (S k) g Hk). f_equal. lia.
Qed.

Lemma renamed_ok id mapId i args m fs :
  worker_ok m fs (Renaming id mapId i [] args) → worker_ok m fs (Reporting id args).
Proof.
  intros (name & Hin & -> & -> & Hi & Hl & Hbelow & _). change (zlen []) with 0 in Hl.
  left. exists name. split; [done|]. split; [done|]. intros j Hj. apply Hbelow. lia.
Qed.

(** ** The steps of a reduce task

    The output of an earlier execution also matches the pattern of the input
    files; nothing is read from it as long as it is no JSON value. *)
Context (Htail : ∀ Y t, 0 <= Y < n → expected Y = Some t → json_decode t = []).

Lemma read_box_delete_out Y fs :
  disk_ok fs → 0 <= Y < n → read_box Y fs ≡ₚ read_box Y (delete (out_name Y) fs).
Proof.
  intros [_ Hr] HY. destruct (fs !! out_name Y) as [t|] eqn:Ht; [|by rewrite delete_id].
  set (fsd := delete (out_name Y) fs).
  assert (read_file fs (out_name Y) = []) as Hnil.
  { unfold read_file. rewrite Ht. apply (Htail Y t HY), right_out_inv; auto. }
  assert (Glob Y fs ≡ₚ out_name Y :: Glob Y fsd) as Hg.
  { unfold Glob. rewrite !go_sort_perm. assert (dom fs = {[out_name Y]} ∪ dom fsd) as ->.
    { unfold fsd. rewrite dom_delete_L. apply union_difference_singleton_L, elem_of_dom. by eexists. }
    rewrite elements_union_singleton by (unfold fsd; rewrite dom_delete_L; set_solver).
    by rewrite filter_cons_True by (apply glob_out_name; lia). }
  unfold read_box. rewrite (Permutation_flat_map _ Hg). simpl. fold (read_file fs (out_name Y)). rewrite Hnil. simpl.
  rewrite !flat_map_concat_map. erewrite map_ext_in; [done|]. intros x Hx%list_elem_of_In. unfold Glob in Hx.
  rewrite go_sort_perm in Hx. apply list_elem_of_filter in Hx as [_ Hx]. unfold fsd in *.
  rewrite elem_of_elements, dom_delete_L in Hx. simpl. by rewrite lookup_delete_ne by set_solver.
Qed.

Lemma collected Y fs :
  disk_ok fs → 0 <= Y < n → (∀ name, name ∈ files → map_done name fs) →
  read_box Y fs ≡ₚ in_bucket n Y (all_pairs mapf fs0 files).
Proof.
  intros Hd HY Hmap. rewrite read_box_delete_out by done.
  apply (read_box_mapped mapf n fs0 files); [done|done| |].
  - intros name Hin. rewrite lookup_delete_ne by (apply out_int_name; [lia|by apply file_id_pos|lia]).
    pose proof (Hmap name Hin (Z.to_nat Y)) as Hm. rewrite Z2Nat.id in Hm by lia. apply Hm. lia.
  - intros x [t [Hx Ht]%lookup_delete_Some] Hg. apply Hd in Ht. destruct Ht as [x t Ht|a j Ha Hj|Y' t HY' Ht].
    + apply fresh in Ht as []. by apply glob_match_true in Hg as [? _].
    + apply glob_int_name in Hg as ->; [by exists a|by apply file_id_pos|lia|lia].
    + apply glob_out_name in Hg as ->; [done|lia|lia].
Qed.

Lemma reduce_output_step_spec id Y kvbox args fs :
  reduce_output_step reducef id Y kvbox args fs =
    (Reporting id args,
     match kvbox with
     | [] => fs
     | _ => let l := go_sort ByKey_Less kvbox in <[out_name Y := text reducef l (keys l)]> fs
     end).
Proof.
  unfold reduce_output_step. destruct kvbox as [|kv box]; [done|].
  rewrite (proj2 (Z.eqb_neq _ 0)) by (rewrite zlen_cons; pose proof (zlen_nonneg box); lia).
  pose proof (reduce_loop_sorted reducef (kv :: box) ltac:(done)) as Hl. cbv zeta in Hl. by rewrite Hl.
Qed.

Lemma collecting_ok id Y kvbox args m fs :
  disk_ok fs → worker_ok m fs (Collecting id Y [] kvbox args) →
  let '(w, fs') := reduce_output_step reducef id Y kvbox args fs in disk_ok fs' ∧ fs ⊆ fs' ∧ worker_ok m fs' w.
Proof.
  intros Hd (Hmd & HY & -> & pre & fsx & Hsub & Hdx & Hmap & Hpre & ->). rewrite reduce_output_step_spec.
  assert (flat_map (read_file fsx) pre = read_box Y fsx) as -> by (unfold read_box; by rewrite Hpre, app_nil_r).
  destruct (bucket_output reducef n Y _ _ Hfree (collected Y fsx Hdx HY Hmap)) as [Ht He].
  assert (∀ fs', match read_box Y fsx with [] => True | _ => fs' !! out_name Y = Some (text reducef
     (go_sort ByKey_Less (read_box Y fsx)) (keys (go_sort ByKey_Less (read_box Y fsx)))) end → out_done Y fs') as Hout.
  { intros fs' Hfs' t. unfold MrCorrect.expected. rewrite Ht in Hfs'.
    destruct (filter _ _) as [|k ks]; [done|]. intros [= <-].
    destruct (read_box Y fsx); [by destruct He as [He _]; specialize (He eq_refl)|done]. }
  destruct (read_box Y fsx) as [|kv box]; cbv zeta.
  - split; [done|]. split; [done|]. right. exists Y. do 3 (split; [done|]). by apply Hout.
  - assert (right (out_name Y) (text reducef (go_sort ByKey_Less (kv :: box)) (keys (go_sort ByKey_Less (kv :: box))))) as Hr.
    { apply right_out; [done|]. rewrite Ht. unfold MrCorrect.expected.
      destruct (filter _ _); [by destruct He as [_ He]; specialize (He eq_refl)|done]. }
    destruct (disk_write fs _ _ Hd Hr) as [Hd' Hs]. split; [done|]. split; [done|]. right. exists Y.
    do 3 (split; [done|]). apply Hout. apply lookup_insert_eq.
Qed.

(** ** Every step keeps the invariant *)

Lemma worker_step_ok order1 order2 now w m fs :
  key_order m order1 → key_order m order2 → master_ok m fs → disk_ok fs → worker_ok m fs w →
  ∃ w' m' fs', worker_step mapf reducef order1 order2 now w m fs = Some (w', m', fs') ∧
    fs ⊆ fs' ∧ (mdone m = true → mdone m' = true) ∧ master_ok m' fs' ∧ disk_ok fs' ∧ worker_ok m' fs' w'.
Proof.
  intros Ho1 Ho2 Hm Hd Hw. destruct w as [id|id reply args|id mapId i [|f ofile] args|id Y args|id Y [|name names] box args|id args|].
  - destruct (GiveTask_spec order1 order2 now (CallforTask id) m (mo_wf _ _ Hm) Ho1 Ho2) as (m' & reply & Hg & Hr).
    destruct (give_ok id now m m' reply fs Hm Hr) as [Hm' Hw'].
    eexists _, m', fs. cbn [worker_step]. rewrite Hg. split; [done|]. split; [done|].
    split; [apply (kp_mdone _ _ (give_result_keeps _ _ _ _ _ (mo_wf _ _ Hm) Hr))|]. by split_and!.
  - eexists _, m, fs. split; [done|]. do 2 (split; [done|]). split; [done|]. split; [done|]. by apply map_input_ok.
  - eexists _, m, fs. split; [done|]. do 2 (split; [done|]). split; [done|]. split; [done|]. by apply (renamed_ok id mapId i).
  - destruct (renaming_ok id mapId i f ofile args m fs Hd Hw) as (Hd' & Hs & Hw').
    eexists _, m, _. split; [done|]. do 2 (split; [done|]). split; [by eapply master_ok_mono|done].
  - eexists _, m, fs. split; [done|]. do 2 (split; [done|]). split; [done|]. split; [done|].
    destruct Hw as (Hmd & HY & ->). do 3 (split; [done|]). exists [], fs. split_and!; try done. by apply (done_mapped m).
  - pose proof (collecting_ok id Y box args m fs Hd Hw) as Hc. cbn [worker_step].
    destruct (reduce_output_step reducef id Y box args fs) as [w fs'] eqn:E. destruct Hc as (Hd' & Hs & Hw').
    eexists w, m, fs'. split; [done|]. do 2 (split; [done|]). split; [by eapply master_ok_mono|done].
  - destruct Hw as (Hmd & HY & -> & pre & fsx & Hsub & Hdx & Hmap & Hpre & ->).
    assert (name ∈ Glob Y fsx) as Hin by (rewrite Hpre; apply elem_of_app; right; left).
    unfold Glob in Hin. rewrite go_sort_perm in Hin. apply list_elem_of_filter in Hin as [_ Hin].
    apply elem_of_elements, elem_of_dom in Hin as [text Ht].
    eexists _, m, fs. cbn [worker_step]. rewrite (lookup_weaken _ _ _ _ Ht Hsub). split; [done|].
    do 2 (split; [done|]). split; [done|]. split; [done|]. do 3 (split; [done|]). exists (pre ++ [name]), fsx.
    split; [done|]. split; [done|]. split; [done|]. split; [by rewrite <-app_assoc|].
    rewrite flat_map_app. simpl. unfold read_file at 3. by rewrite Ht, app_nil_r.
  - destruct (report_ok id args m fs Hm Hw) as (m' & Hf & Hm').
    eexists _, m', fs. cbn [worker_step]. unfold CallforTaskFinish. rewrite Hf. split; [done|]. split; [done|].
    split; [apply (kp_mdone _ _ (TaskFinish_keeps _ _ _ Hf))|]. by split_and!.
  - by eexists _, m, fs.
Qed.

Lemma act_ok order1 order2 now k c w :
  key_order (c_master c) order1 → key_order (c_master c) order2 → cluster_ok c → c_workers c !! k = Some w →
  ∃ c', act mapf reducef order1 order2 now k c = Some c' ∧ cluster_ok c'.
Proof.
  intros Ho1 Ho2 [Hm Hd Hws] Hk. unfold act. rewrite Hk. simpl.
  pose proof (proj1 (Forall_lookup _ _) Hws k w Hk) as Hw.
  destruct (worker_step_ok order1 order2 now w _ _ Ho1 Ho2 Hm Hd Hw) as (w' & m' & fs' & -> & Hs & Hmd & Hm' & Hd' & Hw').
  simpl. eexists. split; [done|]. constructor; simpl; [done|done|]. apply Forall_insert; [|done].
  eapply Forall_impl; [done|]. intros v. by apply worker_ok_mono.
Qed.

Lemma cstep_ok c c' : cluster_ok c → cstep mapf reducef c c' → cluster_ok c'.
Proof.
  intros Hok Hs. destruct Hs as [c|k c|order1 order2 now k c c' Ho1 Ho2 Ha].
  - destruct Hok. constructor; [done|done|]. simpl. apply Forall_app. split; [done|]. by repeat constructor.
  - destruct Hok. constructor; [done|done|]. simpl. by apply Forall_insert.
  - destruct (c_workers c !! k) as [w|] eqn:Hk; [|unfold act in Ha; by rewrite Hk in Ha].
    destruct (act_ok order1 order2 now k c w Ho1 Ho2 Hok Hk) as (c2 & Ha2 & Hok2). congruence.
Qed.

Lemma csteps_ok c c' : cluster_ok c → rtc (cstep mapf reducef) c c' → cluster_ok c'.
Proof. intros Hok Hs. induction Hs as [|c1 c2 c3 H12 _ IH]; [done|]. by eapply IH, cstep_ok. Qed.

Lemma start_ok m : MakeMaster files n = Some m → cluster_ok (start m fs0).
Proof.
  intros Hm. pose proof (MakeMaster_wf _ _ _ Hm) as Hwf.
  destruct (MakeMaster_todo key_list key_list_order files n m Hm Hne) as (Htodo & [Hidle _] & _ & _ & Hred & Hnr & Hids & _).
  assert (∀ i, mmap m !! i ≠ Some 2) as H2.
  { intros i Hi. unfold MakeMaster in Hm. destruct (n <? 0); [done|]. injection Hm as <-. simpl in Hi.
    apply foldl_insert_lookup in Hi as [?|Hi]; [done|by rewrite lookup_empty in Hi]. }
  constructor; simpl.
  - constructor; try done.
    + intros i. rewrite <-(elem_of_list_to_set (C := gset string)), <-Htodo, elem_of_todo. split; [|by intros ->].
      intros [v Hv]. destruct (wf_map _ Hwf i v Hv) as [->|[->| ->]]; [done|by apply Hidle in Hv|by apply H2 in Hv].
    + intros i Hi. by apply H2 in Hi.
    + intros k Hk. unfold reduced in Hred. rewrite Hred in Hk. simpl in Hk. by apply lookup_replicate in Hk as [? _].
  - split; [done|]. intros name t. apply right_input.
  - constructor.
Qed.
End inputs.
End proof.

End MrClusterProof.
