(* ===== verification/MrClusterLive.v ===== *)
(** A worker of the MapReduce cluster that is left alone: its steps add up to the
    tasks of MrWorker.v, and, whatever happened before, it finishes the job once
    the tasks handed to the others have timed out. *)

From S2P Require Import Prelude GoStd Mr MrProof MrJob MrWorker MrWorkerProof MrCorrect MrSpec MrCluster MrClusterProof.

#[local] Open Scope Z_scope.
#[local] Open Scope go_scope.

Module MrClusterLive.
Export MrClusterProof.

(** ** What is left to do

    A task that is handed out may have to be taken back and handed out again. *)
Definition weight (v : Z) : nat := if v =? 2 then 0 else if v =? 1 then 2 else 1.

Definition sum_map (M : gmap string Z) (l : list string) : nat := sum_list (map (λ i, weight (default 2 (M !! i))) l).
Definition sum_red (l : list Z) : nat := sum_list (map weight l).

Lemma sum_map_other M l i v : i ∉ l → sum_map (<[i := v]> M) l = sum_map M l.
Proof.
  intros Hi. unfold sum_map. f_equal. apply map_ext_in. intros j Hj%list_elem_of_In.
  by rewrite lookup_insert_ne by congruence.
Qed.

Lemma sum_map_update M l i u v :
  NoDup l → i ∈ l → M !! i = Some u → (sum_map (<[i := v]> M) l + weight u = sum_map M l + weight v)%nat.
Proof.
  intros Hnd Hin Hu. induction Hnd as [|x l Hx _ IH]; [by apply not_elem_of_nil in Hin|].
  change (sum_map ?M (x :: l)) with (weight (default 2%Z (M !! x)) + sum_map M l)%nat.
  destruct (decide (i = x)) as [->|Hne].
  - rewrite lookup_insert_eq, Hu, sum_map_other by done. simpl. lia.
  - rewrite lookup_insert_ne by done. apply elem_of_cons in Hin as [?|Hin]; [done|]. specialize (IH Hin). lia.
Qed.

Lemma sum_red_update l (k : nat) u v :
  l !! k = Some u → (sum_red (<[k := v]> l) + weight u = sum_red l + weight v)%nat.
Proof.
  revert k. induction l as [|x l IH]; intros [|k] Hk; simplify_eq/=; unfold sum_red in *; simpl; [lia|].
  specialize (IH k Hk). lia.
Qed.

Section live.
Context `{GoSort} `{GoJson} (mapf : string → string → list KeyValue) (reducef : string → list string → string).
Context (order : Master → list string) (Horder : ∀ m, key_order m (order m)) (late : Z → Prop) (k : nat).

Implicit Types (m : Master) (fs : FileSystem) (ws : list worker) (c : cluster) (P : cluster → Prop).

Abbreviation cstep := (cstep mapf reducef).

(** Worker [k] alone reaches a state with [P]. *)
Definition ev c P : Prop :=
  ∀ clock, (∀ j, late (clock j)) → ∃ N c', solo mapf reducef order clock k N c = Some c' ∧ P c'.

Lemma ev_now c P : P c → ev c P.
Proof. intros HP clock _. by exists 0%nat, c. Qed.

Lemma ev_step c P :
  (∀ now, late now → ∃ c1, act mapf reducef (order (c_master c)) (order (c_master c)) now k c = Some c1 ∧ (cstep c c1 → ev c1 P)) →
  ev c P.
Proof.
  intros Hs clock Hc. destruct (Hs (clock 0%nat) (Hc _)) as (c1 & Ha & Hev).
  destruct (Hev ltac:(by eapply c_act)) with (clock := λ j, clock (S j)) as (N & c' & Hsolo & HP); [done|].
  exists (S N), c'. split; [|done]. cbn [solo]. by rewrite Ha.
Qed.

(** One step that does not depend on the clock. *)
Lemma ev_worker m ws fs w w' m' fs' P :
  ws !! k = Some w → (∀ now, worker_step mapf reducef (order m) (order m) now w m fs = Some (w', m', fs')) →
  (∀ c1, rtc cstep (mkCluster m ws fs) c1 → c1 = mkCluster m' (<[k := w']> ws) fs' → ev c1 P) →
  ev (mkCluster m ws fs) P.
Proof.
  intros Hk Hw Hev. apply ev_step. intros now _. simpl. unfold act. simpl. rewrite Hk. simpl. rewrite Hw. simpl.
  eexists. split; [done|]. intros Hs. apply Hev; [by apply rtc_once|done].
Qed.

Lemma insert_twice ws w w' : <[k := w']> (<[k := w]> ws) = <[k := w']> ws.
Proof. apply list_insert_insert_eq. Qed.

Lemma inserted ws w w' : ws !! k = Some w → <[k := w']> ws !! k = Some w'.
Proof. intros Hk. apply list_lookup_insert_eq. by eapply lookup_lt_Some. Qed.

(** ** The steps of a task add up to the task *)

Lemma rename_steps id mapId i ofile args m ws fs P :
  ws !! k = Some (Renaming id mapId i ofile args) →
  (∀ c1, rtc cstep (mkCluster m ws fs) c1 →
     c1 = mkCluster m (<[k := Reporting id args]> ws) (rename_buckets mapId i ofile fs) → ev c1 P) →
  ev (mkCluster m ws fs) P.
Proof.
  revert i ws fs. induction ofile as [|f ofile IH]; intros i ws fs Hk Hev.
  - by eapply ev_worker.
  - eapply ev_worker; [done|done|]. intros c1 Hs ->. apply (IH (i + 1)); [by eapply inserted|].
    intros c2 Hs2 Hc2. apply Hev; [by etrans|]. by rewrite insert_twice in Hc2.
Qed.

Lemma map_steps id reply args m ws fs fs' P :
  ws !! k = Some (Mapping id reply args) → doMap mapf reply fs = Some fs' →
  (∀ c1, rtc cstep (mkCluster m ws fs) c1 → c1 = mkCluster m (<[k := Reporting id args]> ws) fs' → ev c1 P) →
  ev (mkCluster m ws fs) P.
Proof.
  intros Hk Hdo Hev. unfold doMap in Hdo. destruct (fs !! r_TaskName reply) as [c|] eqn:Hc; [|done]. simpl in Hdo.
  destruct (r_NReduce reply <? 0) eqn:Hr; [done|]. destruct (write_buckets _ _ _) as [o|] eqn:Ho; [|done].
  injection Hdo as <-. eapply ev_worker; [done|intros now; simpl; unfold map_input; by rewrite Hc, Hr, Ho|].
  intros c1 Hs ->. eapply rename_steps; [by eapply inserted|]. intros c2 Hs2 Hc2. rewrite insert_twice in Hc2.
  apply Hev; [by etrans|done].
Qed.

Lemma collect_steps id Y names box args m ws fs w' fs' P :
  ws !! k = Some (Collecting id Y names box args) → (∀ name, name ∈ names → is_Some (fs !! name)) →
  reduce_output_step reducef id Y (box ++ flat_map (read_file fs) names) args fs = (w', fs') →
  (∀ c1, rtc cstep (mkCluster m ws fs) c1 → c1 = mkCluster m (<[k := w']> ws) fs' → ev c1 P) →
  ev (mkCluster m ws fs) P.
Proof.
  revert box ws. induction names as [|name names IH]; intros box ws Hk Hin Ho Hev.
  - simpl in Ho. rewrite app_nil_r in Ho. eapply ev_worker; [done|intros now; simpl; by rewrite Ho|done].
  - destruct (Hin name) as [text Ht]; [left|]. eapply ev_worker; [done|intros now; simpl; by rewrite Ht|].
    intros c1 Hs ->. apply (IH (box ++ json_decode text)); [by eapply inserted|intros; apply Hin; by right| |].
    + rewrite <-Ho. simpl. unfold read_file at 2. by rewrite Ht, <-app_assoc.
    + intros c2 Hs2 Hc2. rewrite insert_twice in Hc2. apply Hev; [by etrans|done].
Qed.

Lemma reduce_steps id reply args m ws fs fs' P :
  ws !! k = Some (Globbing id (r_TaskId reply) args) → doReduce reducef reply fs = Some fs' →
  (∀ c1, rtc cstep (mkCluster m ws fs) c1 → c1 = mkCluster m (<[k := Reporting id args]> ws) fs' → ev c1 P) →
  ev (mkCluster m ws fs) P.
Proof.
  intros Hk Hdo Hev. rewrite doReduce_spec in Hdo. injection Hdo as Hdo. eapply ev_worker; [done|done|].
  intros c1 Hs ->. eapply (collect_steps _ _ _ []); [by eapply inserted| |by apply reduce_output_step_spec|].
  - intros name Hin. unfold Glob in Hin. rewrite go_sort_perm in Hin. apply list_elem_of_filter in Hin as [_ Hin].
    by apply elem_of_elements, elem_of_dom in Hin.
  - intros c2 Hs2 Hc2. rewrite insert_twice in Hc2. apply Hev; [by etrans|]. by rewrite <-Hdo.
Qed.

(** ** Rounds *)

Section job.
Context (n : Z) (files : list string) (fs0 : FileSystem).
Context (Hn : 0 < n) (Hne : "" ∉ files) (Hio : inputs_ok mapf fs0 files) (Hfree : order_free reducef).
Context (Htail : ∀ Y t, 0 <= Y < n → expected mapf reducef n fs0 files Y = Some t → json_decode t = []).

Abbreviation cluster_ok := (cluster_ok mapf reducef n files fs0).

Definition left_to_do m : nat :=
  (if mdone m then 0 else S (sum_map (mmap m) files)) + (if rdone m then 0 else S (sum_red (rtask m))).

(** Every task handed out has timed out. *)
Definition timed_out m : Prop :=
  (∀ i t now, mmap m !! i = Some 1 → mstart m !! i = Some (Some t) → late now → 5 * second < now - t) ∧
  (∀ (j : nat) t now, rtask m !! j = Some 1 → rstart m !! j = Some (Some t) → late now → 5 * second < now - t).

Lemma steps_kept c c' : cluster_ok c → rtc cstep c c' → cluster_ok c'.
Proof. intros Hok Hs. by eapply csteps_ok. Qed.

Lemma sum_red_pos l (j : nat) v : l !! j = Some v → (weight v <= sum_red l)%nat.
Proof.
  revert j. induction l as [|x l IH]; intros [|j] Hj; simplify_eq/=; unfold sum_red in *; simpl; [lia|].
  specialize (IH j Hj). lia.
Qed.

(** The worker reports a task it was just given. *)
Lemma report_map id i now m ws fs P :
  let m1 := set_mtask i 1 (Some now) (with_id (CallforTask id) m) in
  ∀ id', ws !! k = Some (Reporting id' (map_args i)) → cluster_ok (mkCluster m1 ws fs) →
  mdone m = false → mmap m !! i = Some (-1) → i ∈ files → timed_out m →
  (∀ c1, rtc cstep (mkCluster m1 ws fs) c1 → c_workers c1 !! k = Some (Asking id') → timed_out (c_master c1) →
     (left_to_do (c_master c1) < left_to_do m)%nat → ev c1 P) →
  ev (mkCluster m1 ws fs) P.
Proof.
  intros m1 id' Hk Hok Hmd Hi Hin [Ht1 Ht2] Hev.
  destruct (with_id_fields (CallforTask id) m) as (Em & Er & _ & Emd & Erd & _ & Ems & Ers).
  eapply ev_worker; [done|done|]. intros c1 Hs ->. apply Hev; [done|by eapply inserted| |]; simpl.
  - split; simpl; rewrite ?Em, ?Er, ?Ems, ?Ers; [|done]. intros j t now' Hj. rewrite insert_insert_eq in Hj.
    apply lookup_insert_Some in Hj as [[_ ?]|[Hij Hj]]; [done|]. rewrite lookup_insert_ne by done. by apply Ht1.
  - unfold left_to_do. simpl. rewrite Em, Er, Emd, Erd, Hmd, insert_insert_eq.
    pose proof (sum_map_update (mmap m) files i (-1) 2 (io_nodup _ _ _ Hio) Hin Hi) as Hsum.
    change (weight (-1)) with 1%nat in Hsum. change (weight 2) with 0%nat in Hsum. simpl. lia.
Qed.

Lemma report_reduce id (j : nat) now m ws fs P :
  let m1 := set_rtask_at j 1 (Some now) (with_id (CallforTask id) m) in
  ∀ id', ws !! k = Some (Reporting id' (reduce_args (Z.of_nat j))) → cluster_ok (mkCluster m1 ws fs) →
  rdone m = false → rtask m !! j = Some (-1) → timed_out m →
  (∀ c1, rtc cstep (mkCluster m1 ws fs) c1 → c_workers c1 !! k = Some (Asking id') → timed_out (c_master c1) →
     (left_to_do (c_master c1) < left_to_do m)%nat → ev c1 P) →
  ev (mkCluster m1 ws fs) P.
Proof.
  intros m1 id' Hk Hok Hrd Hj [Ht1 Ht2] Hev.
  destruct (with_id_fields (CallforTask id) m) as (Em & Er & _ & Emd & Erd & _ & Ems & Ers).
  pose proof (lookup_lt_Some _ _ _ Hj) as Hlt.
  assert (TaskFinish (reduce_args (Z.of_nat j)) m1 = Some (set_rtask (<[j := 2]> (rtask m)) m1)) as Hf.
  { unfold TaskFinish. simpl. rewrite Er, zupdate_nat by by rewrite length_insert. simpl. by rewrite list_insert_insert_eq. }
  eapply ev_worker; [done|intros now'; cbn [worker_step]; unfold CallforTaskFinish; by rewrite Hf|].
  intros c1 Hs ->. apply Hev; [done|by eapply inserted| |]; simpl.
  - split; simpl; rewrite ?Em, ?Er, ?Ems, ?Ers; [done|]. intros i t now' Hi.
    apply list_lookup_insert_Some in Hi as [(_ & ? & _)|[Hij Hi]]; [done|]. rewrite list_lookup_insert_ne by done.
    by apply Ht2.
  - unfold left_to_do. simpl. rewrite Em, Emd, Erd, Hrd.
    pose proof (sum_red_update (rtask m) j (-1) 2 Hj) as Hsum.
    change (weight (-1)) with 1%nat in Hsum. change (weight 2) with 0%nat in Hsum. simpl. lia.
Qed.

(** What the worker makes of the coordinator's reply. *)
Definition next_id id m : Z := if id =? 0 then given_id (CallforTask id) m else id.

Lemma has_id id m : wf m → (id =? 0) && (given_id (CallforTask id) m =? 0) = false.
Proof.
  intros Hwf. unfold given_id. simpl. pose proof (wf_id _ Hwf). destruct (Z.eqb_spec id 0); [|done]. apply Z.eqb_neq. lia.
Qed.

Lemma dispatch_map id i m :
  wf m → i ≠ "" → let r := map_reply (CallforTask id) m i in
  dispatch (Worker_step id (Some r)) = Mapping (next_id id m) r (map_args i).
Proof. intros Hwf Hi r. unfold Worker_step. simpl. rewrite has_id by done. by rewrite bool_decide_false. Qed.

Lemma dispatch_reduce id (j : nat) m :
  wf m → let r := reduce_reply (CallforTask id) m j in
  dispatch (Worker_step id (Some r)) = Globbing (next_id id m) (r_TaskId r) (reduce_args (Z.of_nat j)).
Proof. intros Hwf r. unfold Worker_step. simpl. by rewrite has_id. Qed.

Lemma dispatch_wait id m :
  wf m → dispatch (Worker_step id (Some (no_task (CallforTask id) m))) = Asking (next_id id m).
Proof. intros Hwf. unfold Worker_step. simpl. by rewrite has_id. Qed.

(** A request that is answered without a task closes a phase or takes a task
    back. *)
Lemma no_task_progress now args m m' fs :
  master_ok mapf reducef n files fs0 m fs → timed_out m → late now → Done m = false →
  give_result now args m m' (no_task args m) → timed_out m' ∧ (left_to_do m' < left_to_do m)%nat.
Proof.
  intros Hm [Ht1 Ht2] Hlate Hnd Hr. remember (no_task args m) as reply eqn:Hreply.
  destruct (with_id_fields args m) as (Em & Er & _ & Emd & Erd & _ & Ems & Ers).
  unfold timed_out, left_to_do.
  destruct Hr as [|Hmd Hall|i t Hmd Hno Hi Hst Hlt|i t Hmd Hno Hi Hst Hlt| |Hmd Hrd Hall|j t Hmd Hrd Hno Hj Hst Hlt|j t Hmd Hrd Hno Hj Hst Hlt|Hmd Hrd];
    try done; simpl; rewrite ?Em, ?Er, ?Emd, ?Erd, ?Ems, ?Ers, ?Hmd, ?Hrd; simpl.
  - split; [done|lia].
  - split; [split; [|done]|].
    + intros x u now' [[_ ?]|[Hix Hx]]%lookup_insert_Some; [done|]. rewrite lookup_insert_ne by done. by apply Ht1.
    + assert (i ∈ files) as Hin by (apply (mo_files _ _ _ _ _ _ _ Hm); by eexists).
      pose proof (sum_map_update (mmap m) files i 1 (-1) (io_nodup _ _ _ Hio) Hin Hi) as Hsum.
      change (weight 1) with 2%nat in Hsum. change (weight (-1)) with 1%nat in Hsum. lia.
  - specialize (Ht1 i t now Hi Hst Hlate). lia.
  - split; [done|lia].
  - split; [split; [done|]|].
    + intros x u now' [(_ & ? & _)|[Hix Hx]]%list_lookup_insert_Some; [done|]. rewrite list_lookup_insert_ne by done.
      by apply Ht2.
    + pose proof (sum_red_update (rtask m) j 1 (-1) Hj) as Hsum.
      change (weight 1) with 2%nat in Hsum. change (weight (-1)) with 1%nat in Hsum. lia.
  - specialize (Ht2 j t now Hj Hst Hlate). lia.
  - unfold Done in Hnd. by rewrite Hmd, Hrd in Hnd.
Qed.

Lemma give_result_reply now args m m' reply :
  give_result now args m m' reply →
  (∃ i, m' = set_mtask i 1 (Some now) (with_id args m) ∧ reply = map_reply args m i ∧ mdone m = false ∧ mmap m !! i = Some (-1)) ∨
  (∃ j, m' = set_rtask_at j 1 (Some now) (with_id args m) ∧ reply = reduce_reply args m j ∧ rdone m = false ∧ rtask m !! j = Some (-1)) ∨
  reply = no_task args m.
Proof. destruct 1 as [i| | | |j| | | |]; try (by right; right); [left; by exists i|right; left; by exists j]. Qed.

(** Between two requests less is left to do. *)
Lemma round_progress id m ws fs P :
  let c := mkCluster m ws fs in
  cluster_ok c → ws !! k = Some (Asking id) → timed_out m → Done m = false →
  (∀ c1 id1, rtc cstep c c1 → c_workers c1 !! k = Some (Asking id1) → timed_out (c_master c1) →
     (left_to_do (c_master c1) < left_to_do m)%nat → ev c1 P) →
  ev c P.
Proof.
  intros c Hok Hk Hto Hnd Hev. pose proof (co_master _ _ _ _ _ _ Hok) as Hm. simpl in Hm.
  pose proof (mo_wf _ _ _ _ _ _ _ Hm) as Hwf. set (args := CallforTask id).
  apply ev_step. intros now Hlate.
  destruct (GiveTask_spec (order m) (order m) now args m Hwf (Horder m) (Horder m)) as (m' & reply & Hg & Hr).
  exists (mkCluster m' (<[k := dispatch (Worker_step id (Some reply))]> ws) fs).
  split; [unfold act; simpl; rewrite Hk; simpl; fold args; by rewrite Hg|]. intros Hs.
  assert (∀ w, <[k := w]> ws !! k = Some w) as Hk' by (intros w; by eapply inserted).
  pose proof (steps_kept _ _ Hok (rtc_once _ _ Hs)) as Hok1.
  destruct (give_result_reply _ _ _ _ _ Hr) as [(i & -> & -> & Hmd & Hi)|[(j & -> & -> & Hrd & Hj)| ->]].
  - assert (i ∈ files) as Hin by (apply (mo_files _ _ _ _ _ _ _ Hm); by eexists).
    assert (i ≠ "") as Hie by (intros ->; done). rewrite dispatch_map in Hs, Hok1 |- * by done.
    destruct (io_exist _ _ _ Hio i Hin) as [t Ht].
    pose proof (lookup_weaken _ _ _ _ Ht (proj1 (co_disk _ _ _ _ _ _ Hok))) as Ht'.
    destruct (doMap_spec mapf (map_reply args m i) t fs) as (fs' & Hdo & _); simpl;
      rewrite ?(mo_nreduce _ _ _ _ _ _ _ Hm), ?(mo_ids _ _ _ _ _ _ _ Hm);
      [done|by apply (file_id_spec files i (io_nodup _ _ _ Hio))|done|].
    eapply map_steps; [apply Hk'|done|]. intros c2 Hs2 Hc2. rewrite insert_twice in Hc2. subst c2.
    apply (report_map id i now m _ _ P (next_id id m)); [apply Hk'|by eapply steps_kept|done..|].
    intros c3 Hs3 ???. eapply Hev; [|done..]. eapply rtc_l; [done|]. by etrans.
  - rewrite dispatch_reduce in Hs, Hok1 |- * by done. pose proof (doReduce_spec reducef (reduce_reply args m j) fs) as Hdo.
    eapply reduce_steps; [apply Hk'|exact Hdo|]. intros c2 Hs2 Hc2. rewrite insert_twice in Hc2. subst c2.
    apply (report_reduce id j now m _ _ P (next_id id m)); [apply Hk'|by eapply steps_kept|done..|].
    intros c3 Hs3 ???. eapply Hev; [|done..]. eapply rtc_l; [done|]. by etrans.
  - rewrite dispatch_wait in Hs |- * by done.
    destruct (no_task_progress now args m m' fs Hm Hto Hlate Hnd Hr) as [Hto' Hlt].
    eapply Hev; [by apply rtc_once|apply Hk'|done|done].
Qed.

(** The worker finishes the job. *)
Lemma finishes id m ws fs P :
  cluster_ok (mkCluster m ws fs) → ws !! k = Some (Asking id) → timed_out m →
  (∀ c1, rtc cstep (mkCluster m ws fs) c1 → Done (c_master c1) = true → P c1) →
  ev (mkCluster m ws fs) P.
Proof.
  remember (left_to_do m) as x eqn:Hx. revert id m ws fs Hx.
  induction (lt_wf x) as [x _ IH]. intros id m ws fs -> Hok Hk Hto HP.
  destruct (Done m) eqn:Hd; [apply ev_now, HP; [apply rtc_refl|done]|].
  apply (round_progress id); [done..|]. intros [m1 ws1 fs1] id1 Hs Hk1 Hto1 Hlt.
  eapply IH; [exact Hlt|done|by eapply steps_kept|done|done|]. intros c2 Hs2 Hd2. apply HP; [by etrans|done].
Qed.
End job.
End live.

End MrClusterLive.
