(* ===== verification/MrClusterSpec.v ===== *)
(** What a MapReduce job guarantees when its workers run concurrently, are slow
    or die, with a concrete run in which a worker dies. *)

From S2P Require Import Prelude GoStd Mr MrProof MrJob MrWorker MrWorkerProof MrCorrect MrSpec MrCluster MrClusterProof MrClusterLive.

#[local] Open Scope Z_scope.
#[local] Open Scope go_scope.

Module MrClusterSpec.
Export MrClusterLive.

(** ** A concrete run *)

Inductive event := Spawn | Crash (k : nat) | Act (k : nat) (now : Z).

Section drive.
Context `{GoSort} `{GoJson} (mapf : string → string → list KeyValue) (reducef : string → list string → string).

Definition drive1 (e : event) (c : cluster) : option cluster :=
  match e with
  | Spawn => Some (spawn c)
  | Crash k => Some (crash k c)
  | Act k now => act mapf reducef (key_list (c_master c)) (key_list (c_master c)) now k c
  end.

Fixpoint drive (evs : list event) (c : cluster) : option cluster :=
  match evs with [] => Some c | e :: evs => c ← drive1 e c; drive evs c end.

Lemma drive_steps evs c c' : drive evs c = Some c' → rtc (cstep mapf reducef) c c'.
Proof.
  revert c. induction evs as [|e evs IH]; intros c Hd; simpl in Hd; [by injection Hd as ->|].
  apply bind_Some in Hd as (c1 & He & Hd). apply rtc_l with c1; [|by apply IH].
  destruct e; simpl in He; [injection He as <-; constructor..|].
  by apply (c_act mapf reducef (key_list (c_master c)) (key_list (c_master c)) now k c c1); try apply key_list_order.
Qed.

Lemma solo_steps order clock k N c c' :
  (∀ m, key_order m (order m)) → solo mapf reducef order clock k N c = Some c' → rtc (cstep mapf reducef) c c'.
Proof.
  intros Ho. revert clock c. induction N as [|N IH]; intros clock c Hs; simpl in Hs; [by injection Hs as ->|].
  apply bind_Some in Hs as (c1 & Ha & Hs). apply rtc_l with c1; [by eapply c_act; [..|exact Ha]|by eapply IH].
Qed.
End drive.

(** Two workers: the first dies while it renames the files of its map task; the
    second gets the task once it has timed out, and does the rest. *)
Definition sample_run : list event :=
  [Spawn; Spawn; Act 0 1; Act 0 1; Act 0 1; Crash 0] ++ repeat (Act 1 2) 6 ++
  repeat (Act 1 (10 * second)) 32.

Definition sample_end : cluster :=
  default (start sample_master sample_fs) (drive sample_map sample_reduce sample_run (start sample_master sample_fs)).

Lemma sample_end_reached : rtc (cstep sample_map sample_reduce) (start sample_master sample_fs) sample_end.
Proof. apply (drive_steps _ _ sample_run). by vm_compute. Qed.

(** The outputs of the sample job are no JSON values. *)
Lemma sample_tail Y text :
  0 <= Y < 2 → expected sample_map sample_reduce 2 sample_fs sample_files Y = Some text → json_decode text = [].
Proof.
  intros HY. assert (Y = 0 ∨ Y = 1) as [-> | ->] by lia; vm_compute; by intros [= <-].
Qed.

(** ** Steps and tasks *)

(** A worker that is left alone during a task executes exactly [doMap] or
    [doReduce], whose steps are those of the cluster. *)
Lemma worker_steps_execute `{GoSort} `{GoJson} mapf reducef order clock (k : nat) id reply args w m ws (fs fs' : FileSystem) :
  (∀ m, key_order m (order m)) → ws !! k = Some w →
  (w = Mapping id reply args ∧ exec_action mapf reducef (DoMap reply) fs = Some fs' ∨
   w = Globbing id (r_TaskId reply) args ∧ exec_action mapf reducef (DoReduce reply) fs = Some fs') →
  ∃ N, solo mapf reducef order clock k N (mkCluster m ws fs) = Some (mkCluster m (<[k := Reporting id args]> ws) fs').
Proof.
  intros Ho Hk Hw. set (c' := mkCluster m (<[k := Reporting id args]> ws) fs').
  assert (ev mapf reducef order (λ _, True) k (mkCluster m ws fs) (λ c, c = c')) as Hev.
  { destruct Hw as [[-> Hex]|[-> Hex]].
    - eapply (map_steps mapf reducef order Ho); [done|exact Hex|]. intros c1 _ ->. by apply ev_now.
    - eapply (reduce_steps mapf reducef order Ho); [done|exact Hex|]. intros c1 _ ->. by apply ev_now. }
  destruct (Hev clock (λ _, I)) as (N & c1 & Hs & ->). by exists N.
Qed.

(** A reduce task that is executed again also reads its own output: when that
    reads as a pair, as it does here with the codec of MrSpec.v, the output
    changes. *)
Lemma reduce_reads_own_output :
  let reply := mkMrReply "" 1 1 0 2 0 in let reducef (_ : string) (_ : list string) := "10" in
  let fs : FileSystem := {[int_name 0 0 := json_encode (mkKeyValue "0" "v")]} in
  (fs1 ← doReduce reducef reply fs; fs2 ← doReduce reducef reply fs1;
   Some (bool_decide (fs1 !! out_name 0 = fs2 !! out_name 0))) = Some false.
Proof. by vm_compute. Qed.

(** ** Workers that die, are slow, or report late *)

(** C4: Whatever the workers of a job do: killed between any two steps, given up
    by the coordinator and reporting all the same, executing a task twice or at
    the same time, an output file is complete from the moment it exists, the
    input files stay, and when [Done] holds the output of reduce task [Y] has
    exactly the lines of the sequential output whose keys hash to [Y].  The
    output must not read as JSON, because a reduce task that is executed again
    finds it among its input files. *)
Theorem mapreduce_fault_tolerant `{GoSort} `{GoJson} mapf reducef files nReduce m (fs : FileSystem) c :
  MakeMaster files nReduce = Some m → 0 < nReduce → "" ∉ files → inputs_ok mapf fs files → order_free reducef →
  (∀ Y text, 0 <= Y < nReduce → expected mapf reducef nReduce fs files Y = Some text → json_decode text = []) →
  rtc (cstep mapf reducef) (start m fs) c →
  let l := all_pairs mapf fs files in let ks := keys (go_sort ByKey_Less l) in
  let output Y := match filter (λ k, bucket nReduce k = Y) ks with [] => None | ksY => Some (text reducef l ksY) end in
  mrsequential mapf reducef files fs = Some (<["mr-out-0" := text reducef l ks]> fs) ∧
  fs ⊆ c_fs c ∧
  (∀ Y t, 0 <= Y < nReduce → c_fs c !! out_name Y = Some t → output Y = Some t) ∧
  (Done (c_master c) = true → ∀ Y, 0 <= Y < nReduce → c_fs c !! out_name Y = output Y).
Proof.
  intros Hm Hn Hne Hio Hr Htail Hs l ks output.
  pose proof (csteps_ok mapf reducef nReduce files fs Hn Hne Hio Hr Htail _ _
    (start_ok mapf reducef nReduce files fs Hne m Hm) Hs) as [Hmo Hd _].
  split; [apply mrsequential_result; [done|apply (io_exist _ _ _ Hio)]|]. split; [apply Hd|]. split.
  - intros Y t HY Ht. by apply (right_out_inv mapf reducef nReduce files fs Hio Y t HY), Hd.
  - unfold Done. intros [_ Hrd]%andb_true_iff Y HY. apply (out_done_lookup mapf reducef nReduce files fs Hio Y); [done..|].
    pose proof (mo_wf _ _ _ _ _ _ _ Hmo) as Hwf. rewrite <-(Z2Nat.id Y) by lia. apply (mo_reduces _ _ _ _ _ _ _ Hmo).
    pose proof (wf_nred _ Hwf) as Hlen. rewrite (mo_nreduce _ _ _ _ _ _ _ Hmo) in Hlen. unfold zlen in Hlen.
    destruct (lookup_lt_is_Some_2 (rtask (c_master c)) (Z.to_nat Y)) as [v Hv]; [lia|].
    rewrite Hv. f_equal. apply (proj2 (wf_rdone _ Hwf Hrd)). by eapply list_elem_of_lookup_2.
Qed.

Lemma mapreduce_fault_tolerant_witness :
  let l := all_pairs sample_map sample_fs sample_files in let ks := keys (go_sort ByKey_Less l) in
  let output Y := match filter (λ k, bucket 2 k = Y) ks with [] => None | ksY => Some (text sample_reduce l ksY) end in
  Done (c_master sample_end) = true ∧
  (mrsequential sample_map sample_reduce sample_files sample_fs = Some (<["mr-out-0" := text sample_reduce l ks]> sample_fs) ∧
   sample_fs ⊆ c_fs sample_end ∧
   (∀ Y t, 0 <= Y < 2 → c_fs sample_end !! out_name Y = Some t → output Y = Some t) ∧
   (Done (c_master sample_end) = true → ∀ Y, 0 <= Y < 2 → c_fs sample_end !! out_name Y = output Y)).
Proof.
  split; [by vm_compute|].
  apply (mapreduce_fault_tolerant sample_map sample_reduce sample_files 2 sample_master sample_fs sample_end);
    [done|lia| |exact sample_inputs|exact sample_reduce_order_free|exact sample_tail|exact sample_end_reached].
  by apply (bool_decide_unpack _); vm_compute.
Defined.

(** A task that is handed out now was handed out at time [t]. *)
Definition handed_out (m : Master) (t : Z) : Prop :=
  (∃ i, mmap m !! i = Some 1 ∧ mstart m !! i = Some (Some t)) ∨
  (∃ j : nat, rtask m !! j = Some 1 ∧ rstart m !! j = Some (Some t)).

(** There is always a time after the last of them. *)
Lemma last_handed_out (m : Master) : ∃ T, ∀ t, handed_out m t → t <= T.
Proof.
  assert (∀ l : list time, ∃ T, ∀ t, Some t ∈ l → t <= T) as Hl.
  { intros l. induction l as [|s l [T IH]]; [exists 0; by intros t ?%not_elem_of_nil|].
    exists (Z.max (default 0 s) T). intros t [<-|Hin]%elem_of_cons; [simpl; lia|]. specialize (IH t Hin). lia. }
  destruct (Hl ((map_to_list (mstart m)).*2 ++ rstart m)) as [T HT]. exists T.
  intros t [(i & _ & Hi)|(j & _ & Hj)]; apply HT, elem_of_app; [left|right; by eapply list_elem_of_lookup_2].
  apply list_elem_of_fmap. exists (i, Some t). split; [done|]. by apply elem_of_map_to_list.
Qed.

(** C13: A job always ends if one worker stays: from every state a job can reach,
    whatever is still handed out to workers that died or hang, a worker that
    asks for tasks later than five seconds after the last of them was handed out
    ([T] is any bound of those times), and is left alone, brings the job to [Done]
    in finitely many steps, in whatever order the coordinator's maps are
    iterated. *)
Theorem cluster_finishes `{GoSort} `{GoJson} mapf reducef files nReduce m (fs : FileSystem) c (k : nat) id :
  MakeMaster files nReduce = Some m → 0 < nReduce → "" ∉ files → inputs_ok mapf fs files → order_free reducef →
  (∀ Y text, 0 <= Y < nReduce → expected mapf reducef nReduce fs files Y = Some text → json_decode text = []) →
  rtc (cstep mapf reducef) (start m fs) c → c_workers c !! k = Some (Asking id) →
  ∀ T order clock, (∀ t, handed_out (c_master c) t → t <= T) → (∀ m, key_order m (order m)) →
    (∀ j, T + 5 * second < clock j) →
    ∃ N c', solo mapf reducef order clock k N c = Some c' ∧ rtc (cstep mapf reducef) (start m fs) c' ∧
      Done (c_master c') = true.
Proof.
  intros Hm Hn Hne Hio Hr Htail Hs Hk T order clock HT Ho Hclock.
  pose proof (csteps_ok mapf reducef nReduce files fs Hn Hne Hio Hr Htail _ _
    (start_ok mapf reducef nReduce files fs Hne m Hm) Hs) as Hok. destruct c as [m1 ws1 fs1].
  destruct (finishes mapf reducef order Ho (λ now, T + 5 * second < now) k nReduce files fs Hn Hne Hio Hr Htail id m1 ws1 fs1
    (λ c', Done (c_master c') = true)) with (clock := clock) as (N & c' & Hsolo & Hd); [done|done| |done|done|].
  - split; simpl; intros i t now Hv Hst Hlt;
      [specialize (HT t (or_introl (ex_intro _ i (conj Hv Hst))))|specialize (HT t (or_intror (ex_intro _ i (conj Hv Hst))))]; lia.
  - exists N, c'. split; [done|]. split; [|done]. etrans; [exact Hs|]. by eapply solo_steps.
Qed.

Definition sample_crashed : cluster :=
  default (start sample_master sample_fs)
    (drive sample_map sample_reduce (take 6 sample_run) (start sample_master sample_fs)).

(** The worker that died was given its task at time 1. *)
Lemma sample_handed_out t : handed_out (c_master sample_crashed) t → t <= 1.
Proof.
  intros [(i & _ & Hi)|(j & _ & Hj)].
  - assert (mstart (c_master sample_crashed) = {["a.txt" := Some 1]}) as Hs
      by by vm_compute.
    rewrite Hs in Hi. apply lookup_singleton_Some in Hi as [_ [= <-]]. done.
  - assert (rstart (c_master sample_crashed) = [None; None]) as Hs by by vm_compute.
    rewrite Hs in Hj. clear -Hj. by destruct j as [|[|j]].
Qed.

Lemma cluster_finishes_witness :
  handed_out (c_master sample_crashed) 1 ∧
  ∃ N c', solo sample_map sample_reduce key_list (λ _, 1 + 5 * second + 1) 1 N sample_crashed = Some c' ∧
    rtc (cstep sample_map sample_reduce) (start sample_master sample_fs) c' ∧ Done (c_master c') = true.
Proof.
  split; [left; exists "a.txt"; by vm_compute|].
  apply (cluster_finishes sample_map sample_reduce sample_files 2 sample_master sample_fs sample_crashed 1 0) with (T := 1);
    [done|lia| |exact sample_inputs|exact sample_reduce_order_free|exact sample_tail| |by vm_compute|exact sample_handed_out|
     exact key_list_order|intros _; lia].
  - by apply (bool_decide_unpack _); vm_compute.
  - apply (drive_steps _ _ (take 6 sample_run)). by vm_compute.
Defined.
End MrClusterSpec.
