(* ===== verification/Labrpc.v ===== *)
(** Model of labrpc/labrpc.go: the simulated network, its servers and services,
    and the life of a request.

    A pointer to a [Server] is an index into the list of servers created so far,
    because the code compares these pointers; byte strings are [string]s; random
    draws and timers are part of the labels of the transition system. *)

From Stdlib Require Import Ascii.
From S2P Require Import Prelude GoStd.

#[local] Open Scope Z_scope.

Module Labrpc.

Section labrpc.
(** [Name] is the type of the names of ends and servers ([interface{}] in the
    code, [None] for nil), [W] the state of the objects that handle RPCs. *)
Context {Name : Type} `{Countable Name} {W : Type}.

(** ** Data *)

Record reqMsg := mkReqMsg {
  endname : Name;
  svcMeth : string;
  args : string;
}.

Record replyMsg := mkReplyMsg {
  ok : bool;
  reply : string;
}.

(** A method that handles requests: it decodes the arguments, runs, and encodes
    the reply. *)
Definition handler : Type := string → W → W * string.

Record Service := mkService {
  svc_name : string;
  methods : gmap string handler;
}.

Record Server := mkServer {
  services : gmap string Service;
  count : Z;
}.

Record Network := mkNetwork {
  reliable : bool;
  longDelays : bool;
  longReordering : bool;
  ends : gset Name;
  enabled : gmap Name bool;
  servers : gmap Name (option nat);
  connections : gmap Name (option Name);
  rn_count : Z;
  rn_bytes : Z;
  closed : bool; (* [done] is closed *)
}.

(** ** Services and servers *)

(** What [reflect] tells about a method. *)
Record Method := mkMethod {
  m_name : string;
  m_PkgPath : string;
  m_NumIn : Z;
  m_In2_Ptr : bool;
  m_NumOut : Z;
  m_func : handler;
}.

Definition suitable (m : Method) : bool :=
  bool_decide (m_PkgPath m = "") && (m_NumIn m =? 3) && m_In2_Ptr m && (m_NumOut m =? 0).

Definition MakeService (name : string) (typ : list Method) : Service :=
  mkService name (foldl (λ ms m, if suitable m then <[m_name m := m_func m]> ms else ms) ∅ typ).

Definition MakeServer : Server := mkServer ∅ 0.

Definition AddService (svc : Service) (rs : Server) : Server :=
  mkServer (<[svc_name svc := svc]> (services rs)) (count rs).

Definition GetCount_server (rs : Server) : Z := count rs.

(** [strings.LastIndex(s, ".")] and the two slices around it. *)
Fixpoint split_last_dot (s : string) : option (string * string) :=
  match s with
  | EmptyString => None
  | String a s' =>
      match split_last_dot s' with
      | Some (l, r) => Some (String a l, r)
      | None => if Ascii.eqb a "."%char then Some (EmptyString, s') else None
      end
  end.

(** [Service.dispatch]; [None] is [log.Fatalf]. *)
Definition dispatch_service (svc : Service) (methname : string) (req : reqMsg) (w : W) : option (W * replyMsg) :=
  match methods svc !! methname with
  | Some method => let '(w, r) := method (args req) w in Some (w, mkReplyMsg true r)
  | None => None
  end.

(** [Server.dispatch]; a method name without a dot makes the slice panic. *)
Definition dispatch (rs : Server) (req : reqMsg) (w : W) : option (Server * W * replyMsg) :=
  let rs := mkServer (services rs) (count rs + 1) in
  '(serviceName, methodName) ← split_last_dot (svcMeth req);
  service ← services rs !! serviceName;
  '(w, r) ← dispatch_service service methodName req w;
  Some (rs, w, r).

(** ** The network *)

Definition MakeNetwork : Network := mkNetwork true false false ∅ ∅ ∅ ∅ 0 0 false.

Definition Cleanup (rn : Network) : Network :=
  mkNetwork (reliable rn) (longDelays rn) (longReordering rn) (ends rn) (enabled rn) (servers rn)
    (connections rn) (rn_count rn) (rn_bytes rn) true.
Definition Reliable (yes : bool) (rn : Network) : Network :=
  mkNetwork yes (longDelays rn) (longReordering rn) (ends rn) (enabled rn) (servers rn)
    (connections rn) (rn_count rn) (rn_bytes rn) (closed rn).
Definition LongReordering (yes : bool) (rn : Network) : Network :=
  mkNetwork (reliable rn) (longDelays rn) yes (ends rn) (enabled rn) (servers rn)
    (connections rn) (rn_count rn) (rn_bytes rn) (closed rn).
Definition LongDelays (yes : bool) (rn : Network) : Network :=
  mkNetwork (reliable rn) yes (longReordering rn) (ends rn) (enabled rn) (servers rn)
    (connections rn) (rn_count rn) (rn_bytes rn) (closed rn).

(** [None] is [log.Fatalf]: the end exists. *)
Definition MakeEnd (name : Name) (rn : Network) : option Network :=
  if decide (name ∈ ends rn) then None
  else Some
    (mkNetwork (reliable rn) (longDelays rn) (longReordering rn) ({[name]} ∪ ends rn) (<[name := false]> (enabled rn))
       (servers rn) (<[name := None]> (connections rn)) (rn_count rn) (rn_bytes rn) (closed rn)).

Definition set_server (name : Name) (s : option nat) (rn : Network) : Network :=
  mkNetwork (reliable rn) (longDelays rn) (longReordering rn) (ends rn) (enabled rn) (<[name := s]> (servers rn))
    (connections rn) (rn_count rn) (rn_bytes rn) (closed rn).
Definition AddServer (name : Name) (rs : nat) (rn : Network) : Network := set_server name (Some rs) rn.
Definition DeleteServer (name : Name) (rn : Network) : Network := set_server name None rn.

Definition Connect (name : Name) (servername : option Name) (rn : Network) : Network :=
  mkNetwork (reliable rn) (longDelays rn) (longReordering rn) (ends rn) (enabled rn) (servers rn)
    (<[name := servername]> (connections rn)) (rn_count rn) (rn_bytes rn) (closed rn).
Definition Enable (name : Name) (b : bool) (rn : Network) : Network :=
  mkNetwork (reliable rn) (longDelays rn) (longReordering rn) (ends rn) (<[name := b]> (enabled rn)) (servers rn)
    (connections rn) (rn_count rn) (rn_bytes rn) (closed rn).

Definition GetTotalCount (rn : Network) : Z := rn_count rn.
Definition GetTotalBytes (rn : Network) : Z := rn_bytes rn.

(** The counters of the goroutine that receives from [endCh], and of a reply. *)
Definition add_request (n : Z) (rn : Network) : Network :=
  mkNetwork (reliable rn) (longDelays rn) (longReordering rn) (ends rn) (enabled rn) (servers rn)
    (connections rn) (rn_count rn + 1) (rn_bytes rn + n) (closed rn).
Definition add_bytes (n : Z) (rn : Network) : Network :=
  mkNetwork (reliable rn) (longDelays rn) (longReordering rn) (ends rn) (enabled rn) (servers rn)
    (connections rn) (rn_count rn) (rn_bytes rn + n) (closed rn).

(** ** A request *)

(** What [readEndnameInfo] returns: a missing key of a map reads as the zero
    value. *)
Record info := mkInfo {
  i_enabled : bool;
  i_servername : option Name;
  i_server : option nat;
  i_reliable : bool;
  i_longreordering : bool;
}.

Definition server_of (rn : Network) (servername : Name) : option nat := default None (servers rn !! servername).

Definition readEndnameInfo (name : Name) (rn : Network) : info :=
  let servername := default None (connections rn !! name) in
  mkInfo (default false (enabled rn !! name)) servername (servername ≫= server_of rn)
    (reliable rn) (longReordering rn).

Definition isServerDead (name servername : Name) (server : nat) (rn : Network) : bool :=
  negb (default false (enabled rn !! name)) || negb (bool_decide (server_of rn servername = Some server)).

(** Where [processReq] is: before [readEndnameInfo]; in the short delay; in the
    loop that waits for the handler; after the loop, with the reply if there is
    one; about to send on [replyCh], at once or from a timer; done. *)
Inductive main_pc :=
| MStart
| MDelay (servername : Name) (server : nat) (rel lr : bool)
| MWait (servername : Name) (server : nat) (rel lr : bool)
| MFinal (servername : Name) (server : nat) (rel lr : bool) (got : option replyMsg)
| MSend (r : replyMsg)
| MDone.

(** The goroutine that calls [dispatch]: not started; running; its answer in
    [ech]; the answer received. *)
Inductive worker_pc :=
| WNone
| WRunning (server : nat)
| WAnswered (r : replyMsg)
| WReceived.

(** [p_executed] lists what the handler answered each time it ran for this
    request, [p_sent] what was sent on the reply channel. *)
Record proc := mkProc {
  p_req : reqMsg;
  p_main : main_pc;
  p_worker : worker_pc;
  p_executed : list replyMsg;
  p_sent : list replyMsg;
}.

Definition failed : replyMsg := mkReplyMsg false "".

Record sys := mkSys {
  net : Network;
  heap : list Server;
  world : W;
  procs : list proc;
}.

Definition set_net (rn : Network) (s : sys) : sys := mkSys rn (heap s) (world s) (procs s).
Definition set_proc (k : nat) (p : proc) (s : sys) : sys := mkSys (net s) (heap s) (world s) (<[k := p]> (procs s)).
Definition goto (pc : main_pc) (p : proc) : proc :=
  mkProc (p_req p) pc (p_worker p) (p_executed p) (p_sent p).
Definition set_worker (wpc : worker_pc) (p : proc) : proc :=
  mkProc (p_req p) (p_main p) wpc (p_executed p) (p_sent p).

Inductive label :=
| LNet (f : Network → Network)       (* any of the operations of [Network] *)
| LCall (req : reqMsg)               (* [ClientEnd.Call] hands the request over *)
| LRead (k : nat)                    (* [readEndnameInfo] *)
| LDelay (k : nat) (drop : bool)     (* the short delay is over; the request is dropped or not *)
| LHandle (k : nat)                  (* the handler runs *)
| LReceive (k : nat)                 (* [<-ech] *)
| LTick (k : nat)                    (* 100 ms without an answer *)
| LFinal (k : nat) (drop : bool)     (* the last check; the reply is dropped or not *)
| LSend (k : nat).                   (* [replyCh <-] *)

(** [Call] hands the request over, and the goroutine of [MakeNetwork] starts
    [processReq].  Once the network is destroyed, both cases of the [select] may be
    ready: [refused] is its choice, and [None] is the false that [Call] then
    returns.  (When that goroutine has ended, too, only this is possible; the model
    does not tell when.) *)
Definition Call (refused : bool) (req : reqMsg) (s : sys) : option sys :=
  if closed (net s) && refused then None
  else Some (mkSys (add_request (Z.of_nat (String.length (args req))) (net s)) (heap s) (world s)
               (procs s ++ [mkProc req MStart WNone [] []])).

Definition exec (l : label) (s : sys) : option sys :=
  match l with
  | LNet f => Some (set_net (f (net s)) s)
  | LCall req => Call false req s
  | LRead k =>
      p ← procs s !! k;
      match p_main p with
      | MStart =>
          let i := readEndnameInfo (endname (p_req p)) (net s) in
          match i_enabled i, i_servername i, i_server i with
          | true, Some servername, Some server =>
              Some (set_proc k (goto (MDelay servername server (i_reliable i) (i_longreordering i)) p) s)
          | _, _, _ => Some (set_proc k (goto (MSend failed) p) s)
          end
      | _ => None
      end
  | LDelay k drop =>
      p ← procs s !! k;
      match p_main p with
      | MDelay servername server rel lr =>
          if negb rel && drop then Some (set_proc k (goto (MSend failed) p) s)
          else Some (set_proc k (set_worker (WRunning server) (goto (MWait servername server rel lr) p)) s)
      | _ => None
      end
  | LHandle k =>
      p ← procs s !! k;
      match p_worker p with
      | WRunning server =>
          rs ← heap s !! server;
          '(rs, w, r) ← dispatch rs (p_req p) (world s);
          Some (mkSys (net s) (<[server := rs]> (heap s)) w
                  (<[k := mkProc (p_req p) (p_main p) (WAnswered r) (p_executed p ++ [r]) (p_sent p)]> (procs s)))
      | _ => None
      end
  | LReceive k =>
      p ← procs s !! k;
      match p_worker p, p_main p with
      | WAnswered r, MWait servername server rel lr =>
          Some (set_proc k (set_worker WReceived (goto (MFinal servername server rel lr (Some r)) p)) s)
      | _, _ => None
      end
  | LTick k =>
      p ← procs s !! k;
      match p_main p with
      | MWait servername server rel lr =>
          if isServerDead (endname (p_req p)) servername server (net s)
          then Some (set_proc k (goto (MFinal servername server rel lr None) p) s) else Some s
      | _ => None
      end
  | LFinal k drop =>
      p ← procs s !! k;
      match p_main p with
      | MFinal servername server rel lr got =>
          match got with
          | Some r =>
              if isServerDead (endname (p_req p)) servername server (net s) then
                Some (set_proc k (goto (MSend failed) p) s)
              else if negb rel && drop then Some (set_proc k (goto (MSend failed) p) s)
              else Some (set_proc k (goto (MSend r) p) s)
          | None => Some (set_proc k (goto (MSend failed) p) s)
          end
      | _ => None
      end
  | LSend k =>
      p ← procs s !! k;
      match p_main p with
      | MSend r =>
          Some (set_net (add_bytes (if ok r then Z.of_nat (String.length (reply r)) else 0) (net s))
                  (set_proc k (mkProc (p_req p) MDone (p_worker p) (p_executed p) (p_sent p ++ [r])) s))
      | _ => None
      end
  end.

Fixpoint run (ls : list label) (s : sys) : option sys :=
  match ls with [] => Some s | l :: ls => s ← exec l s; run ls s end.

(** [GetCount]: how many requests a server has dispatched; asking for a name
    without a server panics. *)
Definition GetCount (servername : Name) (s : sys) : option Z :=
  n ← server_of (net s) servername; rs ← heap s !! n; Some (GetCount_server rs).

(** What [Call] returns once the reply is there: success, and the bytes to
    decode. *)
Definition Call_result (r : replyMsg) : option string := if ok r then Some (reply r) else None.

Definition init_sys (w : W) (hs : list Server) : sys := mkSys MakeNetwork hs w [].
End labrpc.

Arguments reqMsg : clear implicits.
Arguments handler : clear implicits.
Arguments Service : clear implicits.
Arguments Server : clear implicits.
Arguments Network Name {_ _}.
Arguments main_pc : clear implicits.
Arguments proc : clear implicits.
Arguments sys Name {_ _} W.
Arguments label Name {_ _}.

End Labrpc.
