(* ===== verification/LabrpcSpec.v ===== *)
(** What labrpc/labrpc.go guarantees to its users (Raft among them): requests
    are executed at most once and answered at most once, a disabled or deleted
    server never answers, a reliable network never loses anything. *)

From Stdlib Require Import Ascii.
From S2P Require Import Prelude GoStd Labrpc.

#[local] Open Scope Z_scope.

Module LabrpcSpec.
Export Labrpc.

#[local] Arguments String.append : simpl nomatch.

Section proof.
Context {Name : Type} `{Countable Name} {W : Type}.
Implicit Types (s : sys Name W) (p : proc Name) (l : label Name) (rn : Network Name).

(** ** Routing *)

Definition no_dot (m : string) : Prop := "."%char ∉ String.list_ascii_of_string m.

Lemma split_last_dot_none m : no_dot m → split_last_dot m = None.
Proof.
  unfold no_dot. induction m as [|a m IH]; simpl; [done|]. rewrite not_elem_of_cons. intros [Ha Hm].
  rewrite IH by done. destruct (Ascii.eqb_spec a "."); [congruence|done].
Qed.

Lemma split_last_dot_app n m : no_dot m → split_last_dot (n +:+ String "." m) = Some (n, m).
Proof.
  intros Hm. induction n as [|a n IH]; [|by simpl; rewrite IH].
  simpl. by rewrite split_last_dot_none.
Qed.

Lemma dispatch_ok (rs rs' : Server W) (req : reqMsg Name) (w w' : W) r :
  dispatch rs req w = Some (rs', w', r) → ok r = true.
Proof.
  unfold dispatch. intros ([n m] & _ & (svc & _ & ([w2 r2] & Hd & [= <- <- <-])%bind_Some)%bind_Some)%bind_Some.
  unfold dispatch_service in Hd. destruct (methods svc !! m) as [h|]; [|done]. destruct (h (args req) w). by injection Hd as <- <-.
Qed.

(** ** The invariant of a request *)

Definition executed_ok p : Prop :=
  match p_worker p with
  | WNone | WRunning _ => p_executed p = []
  | WAnswered r => p_executed p = [r]
  | WReceived => ∃ r, p_executed p = [r]
  end.

(** A reply is a failure or what the handler answered. *)
Definition honest p (r : replyMsg) : Prop := r = failed ∨ p_executed p = [r].

Definition main_ok p : Prop :=
  match p_main p with
  | MStart | MDelay _ _ _ _ => p_worker p = WNone ∧ p_sent p = []
  | MWait _ server _ _ => p_sent p = [] ∧ (p_worker p = WRunning server ∨ ∃ r, p_worker p = WAnswered r)
  | MFinal _ _ _ _ got => p_sent p = [] ∧ p_worker p ≠ WNone ∧
      match got with Some r => p_executed p = [r] ∧ p_worker p = WReceived | None => True end
  | MSend r => p_sent p = [] ∧ honest p r
  | MDone => ∃ r, p_sent p = [r] ∧ honest p r
  end.

Record proc_ok p : Prop := {
  po_executed : executed_ok p;
  po_main : main_ok p;
  po_ok : ∀ r, r ∈ p_executed p → ok r = true;
}.

Definition sys_ok s : Prop := ∀ k p, procs s !! k = Some p → proc_ok p.

Lemma set_proc_lookup k p s k' p' :
  procs (set_proc k p s) !! k' = Some p' → (k = k' ∧ p' = p) ∨ (k ≠ k' ∧ procs s !! k' = Some p').
Proof. simpl. intros [(<- & -> & _)|[? ?]]%list_lookup_insert_Some; auto. Qed.

Lemma sys_ok_set k p s : sys_ok s → proc_ok p → sys_ok (set_proc k p s).
Proof. intros Hs Hp k' p' [[_ ->]|[_ ?]]%set_proc_lookup; [done|by eapply Hs]. Qed.

(** The worker goroutine runs the handler, once. *)
Lemma handle_ok k s s' : sys_ok s → exec (LHandle k) s = Some s' → sys_ok s'.
Proof.
  intros Hs Hx. simpl in Hx.
  apply bind_Some in Hx as (p & Hp & Hx). destruct (Hs k p Hp) as [He Hm Ho]. unfold executed_ok in He.
  destruct (p_worker p) eqn:Hw; try done.
  apply bind_Some in Hx as (rs & _ & ([[rs' w] r] & Hd & [= <-])%bind_Some).
  intros k' p' [(<- & <- & _)|[_ ?]]%list_lookup_insert_Some; [|by eapply Hs]. rewrite He.
  constructor; [done| |].
  - unfold main_ok in *. simpl. rewrite Hw in Hm. destruct (p_main p); try naive_solver.
    + destruct Hm as (? & _ & Hg). split; [done|]. split; [done|]. destruct got; [|done]. by destruct Hg.
    + destruct Hm as [? [->|Hm]]; [split; [done|by left]|]. by rewrite He in Hm.
    + destruct Hm as (r' & ? & [->|Hm]); [exists failed; split; [done|by left]|]. by rewrite He in Hm.
  - intros r' [->|?%not_elem_of_nil]%elem_of_cons; [|done]. by eapply dispatch_ok.
Qed.

(** The failed reply may be sent at any time before the real one. *)
Lemma fail_ok k p s :
  sys_ok s → proc_ok p → p_sent p = [] → sys_ok (set_proc k (goto (MSend failed) p) s).
Proof.
  intros Hs [He _ Ho] Hsent. apply sys_ok_set; [done|]. constructor; [done| |done]. split; [done|by left].
Qed.

(** One step of request [k]. *)
Lemma exec_ok l s s' : sys_ok s → exec l s = Some s' → sys_ok s'.
Proof.
  intros Hs Hx. destruct l as [f|req|k|k drop|k|k|k|k drop|k]; simpl in Hx.
  - by injection Hx as <-.
  - unfold Call in Hx. rewrite andb_false_r in Hx. injection Hx as <-. intros k p. simpl.
    intros [Hp|[_ Hp]]%lookup_app_Some; [by eapply Hs|]. apply list_lookup_singleton_Some in Hp as [_ <-].
    constructor; [done|done|]. by intros r ?%not_elem_of_nil.
  - apply bind_Some in Hx as (p & Hp & Hx). destruct (Hs k p Hp) as [He Hm Ho]. unfold main_ok in Hm.
    destruct (p_main p); try done. destruct Hm as [Hw Hsent].
    assert (sys_ok (set_proc k (goto (MSend failed) p) s)) as Hf.
    { apply fail_ok; [done|by eapply Hs|done]. }
    destruct (default false _); [|by injection Hx as <-].
    destruct (default None (connections _ !! _)) as [sn|]; simpl in Hx; [|by injection Hx as <-].
    destruct (server_of (net s) sn) as [n|]; injection Hx as <-; [|done].
    apply sys_ok_set; [done|]. by constructor.
  - apply bind_Some in Hx as (p & Hp & Hx). destruct (Hs k p Hp) as [He Hm Ho]. unfold main_ok in Hm.
    destruct (p_main p); try done. destruct Hm as [Hw Hsent]. unfold executed_ok in He. rewrite Hw in He.
    destruct (_ && _); injection Hx as <-; (apply sys_ok_set; [done|]); constructor; try done.
    + unfold executed_ok. simpl. by rewrite Hw.
    + split; [done|by left].
    + simpl. split; [done|by left].
  - by eapply handle_ok.
  - apply bind_Some in Hx as (p & Hp & Hx). destruct (Hs k p Hp) as [He Hm Ho]. unfold executed_ok in He.
    unfold main_ok in Hm. destruct (p_worker p) eqn:Hw; try done. destruct (p_main p); try done. injection Hx as <-.
    apply sys_ok_set; [done|]. constructor; [by exists r| |done]. destruct Hm as [Hsent _]. done.
  - apply bind_Some in Hx as (p & Hp & Hx). destruct (Hs k p Hp) as [He Hm Ho]. unfold main_ok in Hm.
    destruct (p_main p); try done. destruct (isServerDead _ _ _ _); injection Hx as <-; [|done].
    apply sys_ok_set; [done|]. constructor; [done| |done]. destruct Hm as (Hsent & [Hw|[r Hw]]); split_and!; simpl; by rewrite ?Hw.
  - apply bind_Some in Hx as (p & Hp & Hx). destruct (Hs k p Hp) as [He Hm Ho]. unfold main_ok in Hm.
    destruct (p_main p); try done. destruct Hm as (Hsent & Hw & Hgot).
    assert (sys_ok (set_proc k (goto (MSend failed) p) s)) as Hf.
    { apply fail_ok; [done|by eapply Hs|done]. }
    destruct got as [r|]; [|by injection Hx as <-]. destruct (isServerDead _ _ _ _); [by injection Hx as <-|].
    destruct (_ && _); injection Hx as <-; [done|]. apply sys_ok_set; [done|].
    constructor; [done| |done]. split; [done|right; apply Hgot].
  - apply bind_Some in Hx as (p & Hp & Hx). destruct (Hs k p Hp) as [He Hm Ho]. unfold main_ok in Hm.
    destruct (p_main p); try done. injection Hx as <-. destruct Hm as [Hsent Hh].
    apply (sys_ok_set k _ s); [done|]. constructor; [done| |done]. exists r. simpl. by rewrite Hsent.
Qed.
Lemma run_ok ls s s' : sys_ok s → run ls s = Some s' → sys_ok s'.
Proof.
  revert s. induction ls as [|l ls IH]; intros s Hs; simpl; [by intros [= <-]|].
  intros (s1 & Hx & Hr)%bind_Some. eapply IH; [|done]. by eapply exec_ok.
Qed.

Lemma init_ok (w : W) hs : sys_ok (init_sys (Name := Name) w hs).
Proof. by intros k p Hp. Qed.

(** A request that was answered with a failure, or will be. *)
Definition doomed p : Prop :=
  p_sent p = [] ∧ p_main p = MSend failed ∨ p_sent p = [failed] ∧ p_main p = MDone.

Definition never_run p : Prop := p_worker p = WNone ∧ p_executed p = [].

(** A step either leaves a request alone or is one of its own. *)
Lemma doomed_step l s s' k p :
  exec l s = Some s' → procs s !! k = Some p → doomed p →
  ∃ p', procs s' !! k = Some p' ∧ doomed p' ∧ (never_run p → never_run p').
Proof.
  intros Hx Hk Hd.
  assert (∀ j q, procs (set_proc j q s) !! k = Some p ∨ j = k ∧ procs (set_proc j q s) !! k = Some q) as Hset.
  { intros j q. simpl. destruct (decide (j = k)) as [->|].
    - right. split; [done|]. apply list_lookup_insert_eq. by eapply lookup_lt_Some.
    - left. by rewrite list_lookup_insert_ne. }
  assert (∀ j q, (j = k → False) → procs (set_proc j q s) !! k = Some p) as Hother.
  { intros j q Hj. destruct (Hset j q) as [?|[-> _]]; [done|by destruct Hj]. }
  destruct l as [f|req|j|j drop|j|j|j|j drop|j]; simpl in Hx.
  1: { injection Hx as <-. by exists p. }
  1: { unfold Call in Hx. rewrite andb_false_r in Hx. injection Hx as <-. exists p. split; [|done]. simpl.
       by apply lookup_app_l_Some. }
  all: apply bind_Some in Hx as (q & Hq & Hx).
  7: { destruct (p_main q) eqn:Hm; try done. injection Hx as <-.
       destruct (decide (j = k)) as [->|Hj]; [|exists p; split; [by apply Hother|done]].
       simplify_eq. eexists. split; [simpl; apply list_lookup_insert_eq; by eapply lookup_lt_Some|].
       destruct Hd as [[Hs Hm']|[_ Hm']]; rewrite Hm in Hm'; [|done]. injection Hm' as ->.
       split; [right; simpl; by rewrite Hs|done]. }
  3: { destruct (p_worker q) eqn:Hw; try done.
       apply bind_Some in Hx as (rs & _ & ([[rs' w] r] & _ & [= <-])%bind_Some).
       destruct (decide (j = k)) as [->|Hj].
       - simplify_eq. eexists. split; [simpl; apply list_lookup_insert_eq; by eapply lookup_lt_Some|].
         split; [done|]. intros [Hw' _]. congruence.
       - exists p. split; [by apply (Hother j)|done]. }
  all: destruct (decide (j = k)) as [->|Hj];
    [assert (q = p) as -> by congruence; destruct Hd as [[_ Hm]|[_ Hm]]; rewrite Hm in Hx; try done; by destruct (p_worker p)|].
  all: exists p; split; [|done]; revert Hx; repeat case_match; intros [= <-]; by first [apply Hother|done].
Qed.

Lemma doomed_run ls s s' k p :
  run ls s = Some s' → procs s !! k = Some p → doomed p →
  ∃ p', procs s' !! k = Some p' ∧ doomed p' ∧ (never_run p → never_run p').
Proof.
  revert s p. induction ls as [|l ls IH]; intros s p; simpl; [intros [= <-]; eauto|].
  intros (s1 & Hx & Hr)%bind_Some Hk Hd.
  destruct (doomed_step _ _ _ _ _ Hx Hk Hd) as (p1 & Hk1 & Hd1 & Hn1).
  destruct (IH s1 p1 Hr Hk1 Hd1) as (p' & ? & ? & ?). exists p'. auto.
Qed.

Lemma doomed_sent p r : doomed p → r ∈ p_sent p → r = failed.
Proof. intros [[-> _]|[-> _]]; [by intros ?%not_elem_of_nil|]. by intros ?%list_elem_of_singleton. Qed.

(** The handlers that a request may reach answer. *)
Definition answering (heap : list (Server W)) (req : reqMsg Name) (n : nat) : Prop :=
  ∃ rs, heap !! n = Some rs ∧ ∀ w, is_Some (dispatch rs req w).

Lemma run_app ls1 ls2 s : run (ls1 ++ ls2) s = run ls1 s ≫= run ls2.
Proof.
  revert s. induction ls1 as [|l ls1 IH]; intros s; simpl; [done|]. destruct (exec l s); simpl; [apply IH|done].
Qed.

(** The steps of request [k] itself, with the given random draws. *)
Definition own k (d1 d2 : bool) l : Prop :=
  match l with
  | LRead j | LHandle j | LReceive j | LTick j | LSend j => j = k
  | LDelay j drop => j = k ∧ drop = d1
  | LFinal j drop => j = k ∧ drop = d2
  | LNet _ | LCall _ => False
  end.

(** At most [n] of them bring it to its end. *)
Definition finishes (n : nat) d1 d2 s k : Prop :=
  ∃ ls s' p', Forall (own k d1 d2) ls ∧ (List.length ls ≤ n)%nat ∧ run ls s = Some s' ∧
    procs s' !! k = Some p' ∧ p_main p' = MDone.

Lemma finishes_step n d1 d2 l s s' k : own k d1 d2 l → exec l s = Some s' → finishes n d1 d2 s' k → finishes (S n) d1 d2 s k.
Proof.
  intros Hl Hx (ls & s2 & p' & Ho & Hn & Hr & ?). exists (l :: ls), s2, p'. split; [by constructor|].
  split; [simpl; lia|]. simpl. by rewrite Hx.
Qed.

Lemma finishes_mono n m d1 d2 s k : (n ≤ m)%nat → finishes n d1 d2 s k → finishes m d1 d2 s k.
Proof. intros Hnm (ls & s' & p' & ? & ? & ? & ?). exists ls, s', p'. split; [done|]. split; [lia|done]. Qed.

Lemma set_proc_same k p p' s : procs s !! k = Some p → procs (set_proc k p' s) !! k = Some p'.
Proof. intros Hk. simpl. apply list_lookup_insert_eq. by eapply lookup_lt_Some. Qed.

Section finishing.
Context (d1 d2 : bool).

Lemma send_finishes s k p r : procs s !! k = Some p → p_main p = MSend r → finishes 1 d1 d2 s k.
Proof.
  intros Hk Hm. eexists [LSend k], _, _. split; [by repeat constructor|]. split; [done|]. simpl. rewrite Hk. simpl. rewrite Hm. simpl.
  split; [done|]. split; [apply list_lookup_insert_eq; by eapply lookup_lt_Some|done].
Qed.

Lemma final_finishes s k p sn n rel lr got :
  procs s !! k = Some p → p_main p = MFinal sn n rel lr got → finishes 2 d1 d2 s k.
Proof.
  intros Hk Hm. assert (∃ r, exec (LFinal k d2) s = Some (set_proc k (goto (MSend r) p) s)) as [r Hx].
  { simpl. rewrite Hk. simpl. rewrite Hm. destruct got as [r|]; [|by eexists].
    destruct (isServerDead _ _ _ _); [by eexists|]. destruct (negb rel && d2); by eexists. }
  eapply (finishes_step _ _ _ (LFinal k d2)); [done|exact Hx|]. eapply send_finishes; [by eapply set_proc_same|done].
Qed.

(** It gives up on a server that is gone. *)
Lemma dead_finishes s k p sn n rel lr :
  procs s !! k = Some p → p_main p = MWait sn n rel lr → isServerDead (endname (p_req p)) sn n (net s) = true →
  finishes 3 d1 d2 s k.
Proof.
  intros Hk Hm Hd. eapply (finishes_step _ _ _ (LTick k)); [done|simpl; rewrite Hk; simpl; rewrite Hm, Hd; done|].
  eapply final_finishes; [by eapply set_proc_same|done].
Qed.

Lemma wait_finishes s k p sn n rel lr :
  procs s !! k = Some p → proc_ok p → p_main p = MWait sn n rel lr →
  answering (heap s) (p_req p) n ∨ isServerDead (endname (p_req p)) sn n (net s) = true → finishes 4 d1 d2 s k.
Proof.
  intros Hk [_ Hm _] Hpm [(rs & Hrs & Hd)|Hd]; [|apply (finishes_mono 3); [lia|by eapply dead_finishes]].
  unfold main_ok in Hm. rewrite Hpm in Hm.
  assert (∀ s2 p2 r, procs s2 !! k = Some p2 → p_main p2 = MWait sn n rel lr → p_worker p2 = WAnswered r →
    finishes 3 d1 d2 s2 k) as Hans.
  { intros s2 p2 r Hk2 Hm2 Hw2.
    eapply (finishes_step _ _ _ (LReceive k)); [done|simpl; rewrite Hk2; simpl; rewrite Hw2, Hm2; done|].
    eapply final_finishes; [by eapply set_proc_same|done]. }
  destruct Hm as (_ & [Hw|[r Hw]]); [|apply (finishes_mono 3); [lia|by eapply Hans]].
  destruct (Hd (world s)) as [[[rs' w] r] Hr].
  eapply (finishes_step _ _ _ (LHandle k)); [done|simpl; rewrite Hk; simpl; rewrite Hw, Hrs; simpl; rewrite Hr; done|].
  eapply Hans; [simpl; apply list_lookup_insert_eq; by eapply lookup_lt_Some|done|done].
Qed.

Lemma delay_finishes s k p sn n rel lr :
  procs s !! k = Some p → proc_ok p → p_main p = MDelay sn n rel lr →
  answering (heap s) (p_req p) n ∨ isServerDead (endname (p_req p)) sn n (net s) = true → finishes 5 d1 d2 s k.
Proof.
  intros Hk Hok Hm Ha. pose proof (po_main _ Hok) as Hp. unfold main_ok in Hp. rewrite Hm in Hp. destruct Hp as [Hw Hs].
  destruct (negb rel && d1) eqn:Hdrop.
  - eapply (finishes_step _ _ _ (LDelay k d1)); [done|simpl; rewrite Hk; simpl; rewrite Hm, Hdrop; done|].
    apply (finishes_mono 1); [lia|]. eapply send_finishes; [by eapply set_proc_same|done].
  - eapply (finishes_step _ _ _ (LDelay k d1)); [done|simpl; rewrite Hk; simpl; rewrite Hm, Hdrop; done|].
    eapply wait_finishes; [by eapply set_proc_same| |done|done].
    destruct Hok as [He _ Ho]. unfold executed_ok in He. rewrite Hw in He. constructor; [done| |done].
    split; [done|by left].
Qed.

(** The servers a request has to do with, and those it will not wait for. *)
Definition targets s p (n : nat) : Prop :=
  match p_main p with
  | MStart => i_server (readEndnameInfo (endname (p_req p)) (net s)) = Some n
  | MDelay _ m _ _ | MWait _ m _ _ => m = n
  | _ => False
  end.

Definition gone s p : Prop :=
  match p_main p with
  | MStart => i_enabled (readEndnameInfo (endname (p_req p)) (net s)) = false
  | MDelay sn m _ _ | MWait sn m _ _ => isServerDead (endname (p_req p)) sn m (net s) = true
  | _ => False
  end.

Lemma finishes_always s k p :
  procs s !! k = Some p → proc_ok p → (∀ n, targets s p n → answering (heap s) (p_req p) n ∨ gone s p) → finishes 6 d1 d2 s k.
Proof.
  intros Hk Hok Ht. unfold targets, gone in Ht. destruct (p_main p) as [|sn n rel lr|sn n rel lr|sn n rel lr got|r|] eqn:Hm.
  - assert (∃ pc, exec (LRead k) s = Some (set_proc k (goto pc p) s) ∧
      (pc = MSend failed ∨ ∃ sn n rel lr, pc = MDelay sn n rel lr ∧ i_enabled (readEndnameInfo (endname (p_req p)) (net s)) = true ∧
         i_server (readEndnameInfo (endname (p_req p)) (net s)) = Some n)) as (pc & Hx & Hpc).
    { cbn [exec]. rewrite Hk. cbn [mbind option_bind]. rewrite Hm. destruct (readEndnameInfo _ _) as [e sn n rel lr]. simpl.
      destruct e, sn, n; eexists; (split; [done|]); eauto 10. }
    eapply (finishes_step _ _ _ (LRead k)); [done|exact Hx|]. destruct Hpc as [->|(sn & n & rel & lr & -> & He & Hn)].
    + apply (finishes_mono 1); [lia|]. eapply send_finishes; [by eapply set_proc_same|done].
    + eapply delay_finishes; [by eapply set_proc_same| |done|].
      * destruct Hok as [He' Hp Ho]. unfold main_ok in Hp. rewrite Hm in Hp. by constructor.
      * left. destruct (Ht n Hn) as [?|Hg]; [done|congruence].
  - apply (finishes_mono 5); [lia|]. by eapply delay_finishes; [..|apply Ht].
  - apply (finishes_mono 4); [lia|]. by eapply wait_finishes; [..|apply Ht].
  - apply (finishes_mono 2); [lia|]. by eapply final_finishes.
  - apply (finishes_mono 1); [lia|]. by eapply send_finishes.
  - exists [], s, p. split; [constructor|]. split; [simpl; lia|done].
Qed.
End finishing.
(** ** A server that is up *)

(** The network is reliable and the end leads to server [n], which stays so. *)
Definition up (sn : Name) (n : nat) (name : Name) rn : Prop :=
  reliable rn = true ∧ enabled rn !! name = Some true ∧ connections rn !! name = Some (Some sn) ∧ servers rn !! sn = Some (Some n).

Definition keeps_up (sn : Name) (n : nat) (name : Name) l : Prop :=
  match l with LNet f => ∀ rn, up sn n name rn → up sn n name (f rn) | _ => True end.

Section up.
Context (req : reqMsg Name) (sn : Name) (n : nat).

Lemma up_alive rn : up sn n (endname req) rn → isServerDead (endname req) sn n rn = false.
Proof. intros (_ & He & _ & Hs). unfold isServerDead, server_of. rewrite He, Hs. simpl. by rewrite bool_decide_true. Qed.

Lemma up_step l s s' :
  up sn n (endname req) (net s) → keeps_up sn n (endname req) l → exec l s = Some s' → up sn n (endname req) (net s').
Proof.
  intros Hup Hk Hx. destruct l as [f|r|j|j d|j|j|j|j d|j]; simpl in Hx.
  1: { injection Hx as <-. by apply Hk. }
  1: { unfold Call in Hx. rewrite andb_false_r in Hx. by injection Hx as <-. }
  all: apply bind_Some in Hx as (p & _ & Hx).
  3: { destruct (p_worker p); try done. by apply bind_Some in Hx as (rs & _ & ([[rs' w] r] & _ & [= <-])%bind_Some). }
  all: revert Hx; repeat case_match; intros; simplify_eq; done.
Qed.

(** A request to it is on its way, or has its answer. *)
Record served p : Prop := mkServed {
  sv_req : p_req p = req;
  sv_worker : ∀ m, p_worker p = WRunning m → m = n;
  sv_main : match p_main p with
            | MStart => True
            | MDelay sn' m rel _ | MWait sn' m rel _ => sn' = sn ∧ m = n ∧ rel = true
            | MFinal sn' m rel _ got => sn' = sn ∧ m = n ∧ rel = true ∧ ∃ r, got = Some r ∧ ok r = true
            | MSend r => ok r = true
            | MDone => ∀ r, r ∈ p_sent p → ok r = true
            end;
}.

(** The handler of server [n] gave this answer to request [k] at [s]. *)
Definition answers k s (r : replyMsg) : Prop :=
  ∃ p rs rs' w', procs s !! k = Some p ∧ heap s !! n = Some rs ∧ dispatch rs req (world s) = Some (rs', w', r).

(** The steps of other requests leave a request alone. *)
Lemma exec_other l s s' k p :
  exec l s = Some s' → procs s !! k = Some p →
  match l with
  | LRead j | LHandle j | LReceive j | LTick j | LSend j | LDelay j _ | LFinal j _ => j ≠ k
  | LNet _ | LCall _ => True
  end → procs s' !! k = Some p.
Proof.
  intros Hx Hk Hj.
  assert (∀ j q, j ≠ k → procs (set_proc j q s) !! k = Some p) as Hother by (intros j q Hne; simpl; by rewrite list_lookup_insert_ne).
  destruct l as [f|r0|j|j d|j|j|j|j d|j]; simpl in Hx.
  1: { by injection Hx as <-. }
  1: { unfold Call in Hx. rewrite andb_false_r in Hx. injection Hx as <-. simpl. by apply lookup_app_l_Some. }
  all: apply bind_Some in Hx as (q & Hq & Hx).
  3: { destruct (p_worker q); try done. apply bind_Some in Hx as (rs & Hrs & ([[rs' w] r] & Hd & [= <-])%bind_Some). by apply (Hother j). }
  all: revert Hx; repeat case_match; intros; simplify_eq; first [by apply Hother|done].
Qed.

Lemma served_step l s s' k p :
  up sn n (endname req) (net s) → exec l s = Some s' → procs s !! k = Some p → proc_ok p → served p →
  ∃ p', procs s' !! k = Some p' ∧ served p' ∧
    ∀ r, r ∈ p_executed p' → r ∈ p_executed p ∨ l = LHandle k ∧ answers k s r.
Proof.
  intros Hup Hx Hk Hok Hs. pose proof (up_alive _ Hup) as Halive. destruct Hup as (Hrel & Hen & Hco & Hse).
  assert (∀ pc, served (goto pc p) → ∃ p', procs (set_proc k (goto pc p) s) !! k = Some p' ∧ served p' ∧
    ∀ r, r ∈ p_executed p' → r ∈ p_executed p ∨ l = LHandle k ∧ answers k s r) as Hgoto.
  { intros pc Hpc. exists (goto pc p). split; [by eapply set_proc_same|]. split; [done|]. by left. }
  destruct Hs as [Hreq Hw Hm]. pose proof (po_main _ Hok) as Hpm. unfold main_ok in Hpm.
  assert (procs s' !! k = Some p → ∃ p', procs s' !! k = Some p' ∧ served p' ∧
    ∀ r, r ∈ p_executed p' → r ∈ p_executed p ∨ l = LHandle k ∧ answers k s r) as Hkeep.
  { intros Hk'. exists p. split; [done|]. split; [done|]. by left. }
  destruct l as [f|r0|j|j d|j|j|j|j d|j]; [exact (Hkeep (exec_other _ _ _ _ _ Hx Hk I))|exact (Hkeep (exec_other _ _ _ _ _ Hx Hk I))|..];
    (destruct (decide (j = k)) as [->|Hj]; [|by apply Hkeep, (exec_other _ s _ _ _ Hx Hk)]);
    simpl in Hx; rewrite Hk in Hx; simpl in Hx.
  - destruct (p_main p) eqn:Hmain; try done. unfold server_of in Hx. rewrite Hreq, Hen, Hco in Hx. simpl in Hx.
    unfold server_of in Hx. rewrite Hse in Hx. simpl in Hx. injection Hx as <-. apply Hgoto. split; [done..|]. simpl. done.
  - destruct (p_main p) eqn:Hmain; try done. destruct Hm as (-> & -> & ->). simpl in Hx. injection Hx as <-.
    eexists. split; [by eapply set_proc_same|]. split; [|by left]. split; simpl; [done| |done]. by intros m [= ->].
  - destruct (p_worker p) as [|m| |] eqn:Hwk; try done. apply bind_Some in Hx as (rs & Hrs & ([[rs' w] r] & Hd & [= <-])%bind_Some).
    rewrite (Hw m eq_refl) in Hrs. eexists. split; [simpl; apply list_lookup_insert_eq; by eapply lookup_lt_Some|].
    split; [split; simpl; [done|done|by destruct (p_main p)]|]. simpl. intros r' [?|Hr'%list_elem_of_singleton]%elem_of_app; [by left|right].
    subst r'. split; [done|]. exists p, rs, rs', w. rewrite Hreq in Hd. done.
  - destruct (p_worker p) as [| |r|] eqn:Hwk, (p_main p) eqn:Hmain; try done. injection Hx as <-. destruct Hm as (-> & -> & ->).
    eexists. split; [by eapply set_proc_same|]. split; [|by left]. split; simpl; [done|done|]. split_and!; [done..|]. exists r.
    split; [done|]. pose proof (po_executed _ Hok) as He. unfold executed_ok in He. rewrite Hwk in He.
    apply (po_ok _ Hok). rewrite He. by left.
  - destruct (p_main p) eqn:Hmain; try done. destruct Hm as (-> & -> & ->). rewrite Hreq, Halive in Hx. injection Hx as <-.
    exists p. split; [done|]. split; [|by left]. split; [done..|]. by rewrite Hmain.
  - destruct (p_main p) eqn:Hmain; try done. destruct Hm as (-> & -> & -> & r & -> & Hr). rewrite Hreq, Halive in Hx. simpl in Hx.
    injection Hx as <-. apply Hgoto. split; done.
  - destruct (p_main p) eqn:Hmain; try done. injection Hx as <-. eexists. split; [simpl; apply list_lookup_insert_eq; by eapply lookup_lt_Some|].
    split; [|by left]. split; simpl; [done..|]. destruct Hpm as [-> _]. by intros r' ->%list_elem_of_singleton.
Qed.

Lemma served_run ls s s' k p :
  up sn n (endname req) (net s) → Forall (keeps_up sn n (endname req)) ls → run ls s = Some s' → sys_ok s →
  procs s !! k = Some p → p_executed p = [] → served p →
  ∃ p', procs s' !! k = Some p' ∧ served p' ∧ up sn n (endname req) (net s') ∧ sys_ok s' ∧
    ∀ r, r ∈ p_executed p' → ∃ ls1 ls2 s1, ls = ls1 ++ LHandle k :: ls2 ∧ run ls1 s = Some s1 ∧ answers k s1 r.
Proof.
  intros Hup Hls Hr Hok Hk He Hs. revert s' Hr. induction ls as [|l ls IH] using rev_ind; intros s' Hr; simpl in Hr.
  { injection Hr as <-. exists p. split_and!; try done. rewrite He. by intros r ?%elem_of_nil. }
  apply Forall_app in Hls as [Hls [Hl _]%Forall_cons]. rewrite run_app in Hr. apply bind_Some in Hr as (s1 & Hr1 & Hx). simpl in Hx.
  apply bind_Some in Hx as (s2 & Hx & [= ->]). destruct (IH Hls s1 Hr1) as (p1 & Hk1 & Hs1 & Hup1 & Hok1 & Hex).
  destruct (served_step l s1 s' k p1 Hup1 Hx Hk1 (Hok1 _ _ Hk1) Hs1) as (p' & Hk' & Hs' & Hex').
  exists p'. split; [done|]. split; [done|]. split; [exact (up_step l s1 s' Hup1 Hl Hx)|]. split; [by apply (exec_ok l s1)|].
  intros r Hin. destruct (Hex' r Hin) as [Hin'|[-> Ha]].
  - destruct (Hex r Hin') as (ls1 & ls2 & s3 & -> & ? & ?). exists ls1, (ls2 ++ [l]), s3. by rewrite <- app_assoc.
  - by exists ls, [], s1.
Qed.
End up.
End proof.

(** ** A concrete network

    One end, connected to a server with one service that counts its calls in
    [W = Z] and answers with its arguments. *)

Definition echo : handler Z := λ a w, (w + 1, a).
Definition echo_service : Service Z := MakeService "E" [mkMethod "d" "" 3 true 0 echo; mkMethod "h" "main" 3 true 0 echo].
Definition echo_server : Server Z := AddService echo_service MakeServer.
Definition echo_net : Network positive :=
  Enable 1%positive true (Connect 1%positive (Some 2%positive) (AddServer 2%positive 0 (default MakeNetwork (MakeEnd 1%positive MakeNetwork)))).
Definition echo_req : reqMsg positive := mkReqMsg 1%positive "E.d" "x".
Definition echo_setup : list (label positive) := [LNet (λ _, echo_net); LCall echo_req].
Definition echo_run : list (label positive) :=
  echo_setup ++ [LRead 0; LDelay 0 true; LHandle 0; LTick 0; LReceive 0; LFinal 0 true; LSend 0].
Definition echo_after (ls : list (label positive)) : sys positive Z :=
  default (init_sys 0 [echo_server]) (run ls (init_sys 0 [echo_server])).
Definition echo_proc (ls : list (label positive)) : proc positive :=
  default (mkProc echo_req MStart WNone [] []) (procs (echo_after ls) !! 0%nat).

(** ** Guarantees *)

(** C8: At most once: in every run of the network, with any losses, delays and
    reconfigurations, the handler of a request runs at most once and the caller
    gets at most one reply; a positive reply is what the handler answered, and a
    request that is over was answered exactly once. *)
Theorem rpc_at_most_once `{Countable Name} {W} ls (w : W) hs s k (p : proc Name) :
  run ls (init_sys w hs) = Some s → procs s !! k = Some p →
  (List.length (p_executed p) ≤ 1)%nat ∧ (List.length (p_sent p) ≤ 1)%nat ∧
  (∀ r, r ∈ p_sent p → ok r = true → p_executed p = [r]) ∧
  (p_main p = MDone ↔ ∃ r, p_sent p = [r]).
Proof.
  intros Hr Hk. destruct (run_ok _ _ _ (init_ok w hs) Hr k p Hk) as [He Hm Ho].
  unfold executed_ok in He. unfold main_ok in Hm. split_and!.
  - destruct (p_worker p); [rewrite He; simpl; lia..|]. destruct He as [r ->]. simpl. lia.
  - destruct (p_main p); try (destruct Hm as [_ ->]; simpl; lia); try (destruct Hm as [-> _]; simpl; lia).
    destruct Hm as (r & -> & _). done.
  - intros r Hin Hok. destruct (p_main p).
    6: { destruct Hm as (r' & Hs & [->|Hh]); rewrite Hs in Hin; apply list_elem_of_singleton in Hin as ->; done. }
    all: exfalso; assert (p_sent p = []) as Hs by tauto; rewrite Hs in Hin; by apply not_elem_of_nil in Hin.
  - destruct (p_main p).
    6: { split; [|done]. intros _. destruct Hm as (r & ? & _). by exists r. }
    all: split; [done|]; intros [r0 Hs]; assert (p_sent p = []) by tauto; congruence.
Qed.

Lemma rpc_at_most_once_witness :
  p_sent (echo_proc echo_run) = [mkReplyMsg true "x"] ∧ p_executed (echo_proc echo_run) = [mkReplyMsg true "x"].
Proof.
  assert (p_sent (echo_proc echo_run) = [mkReplyMsg true "x"]) as Hs by by vm_compute.
  split; [exact Hs|].
  refine (proj1 (proj2 (proj2 (rpc_at_most_once echo_run 0 [echo_server] (echo_after echo_run) 0 (echo_proc echo_run) _ _))) _ _ _).
  - by vm_compute.
  - by vm_compute.
  - rewrite Hs. left.
  - done.
Defined.

(** A request from an end that is disabled, not connected, or connected to a
    name without a server is never executed and only ever answered with a
    failure. *)
Lemma rpc_disabled_never_runs `{Countable Name} {W} (s s1 s2 : sys Name W) ls k p :
  sys_ok s → procs s !! k = Some p → p_main p = MStart →
  (let i := readEndnameInfo (endname (p_req p)) (net s) in
   i_enabled i = false ∨ i_servername i = None ∨ i_server i = None) →
  exec (LRead k) s = Some s1 → run ls s1 = Some s2 →
  ∃ p', procs s2 !! k = Some p' ∧ p_executed p' = [] ∧ ∀ r, r ∈ p_sent p' → r = failed.
Proof.
  intros Hs Hk Hm Hi Hx Hr. destruct (Hs k p Hk) as [He Hpm _]. unfold main_ok in Hpm. rewrite Hm in Hpm.
  destruct Hpm as [Hw Hsent]. unfold executed_ok in He. rewrite Hw in He.
  assert (s1 = set_proc k (goto (MSend failed) p) s) as ->.
  { cbn [exec] in Hx. rewrite Hk in Hx. cbn [mbind option_bind] in Hx. rewrite Hm in Hx.
    destruct (readEndnameInfo _ _) as [e sn n rel lr]. simpl in *.
    destruct e, sn, n; try (by injection Hx as <-). naive_solver. }
  destruct (doomed_run ls _ s2 k (goto (MSend failed) p) Hr) as (p' & Hk' & Hd & Hn).
  - by eapply set_proc_same.
  - by left.
  - exists p'. split; [done|]. split; [by apply Hn|]. intros r. by apply doomed_sent.
Qed.

Lemma rpc_disabled_never_runs_witness :
  let off := [LNet (λ _, Enable 1%positive false echo_net); LCall echo_req] in
  ∃ p', procs (echo_after (off ++ [LRead 0; LSend 0])) !! 0%nat = Some p' ∧ p_executed p' = [] ∧
    ∀ r, r ∈ p_sent p' → r = failed.
Proof.
  intros off.
  apply (rpc_disabled_never_runs (echo_after off) (echo_after (off ++ [LRead 0]))
    (echo_after (off ++ [LRead 0; LSend 0])) [LSend 0] 0 (echo_proc off)).
  - apply (run_ok off (init_sys 0 [echo_server])); [apply init_ok|by vm_compute].
  - by vm_compute.
  - by vm_compute.
  - left. by vm_compute.
  - by vm_compute.
  - by vm_compute.
Defined.

(** When the server was deleted or replaced, or the end disabled, before the
    last check, the reply is a failure although the handler may have run: a
    client never sees a success from a server that was superseded. *)
Lemma rpc_dead_server_fails `{Countable Name} {W} (s s1 s2 : sys Name W) ls k p sn n rel lr got drop :
  sys_ok s → procs s !! k = Some p → p_main p = MFinal sn n rel lr got →
  isServerDead (endname (p_req p)) sn n (net s) = true →
  exec (LFinal k drop) s = Some s1 → run ls s1 = Some s2 →
  ∃ p', procs s2 !! k = Some p' ∧ ∀ r, r ∈ p_sent p' → r = failed.
Proof.
  intros Hs Hk Hm Hdead Hx Hr. pose proof (po_main _ (Hs k p Hk)) as Hpm. unfold main_ok in Hpm. rewrite Hm in Hpm.
  assert (s1 = set_proc k (goto (MSend failed) p) s) as ->.
  { cbn [exec] in Hx. rewrite Hk in Hx. cbn [mbind option_bind] in Hx. rewrite Hm, Hdead in Hx.
    destruct got; by injection Hx as <-. }
  destruct (doomed_run ls _ s2 k (goto (MSend failed) p) Hr) as (p' & Hk' & Hd & _).
  - by eapply set_proc_same.
  - left. split; [apply Hpm|done].
  - exists p'. split; [done|]. intros r. by apply doomed_sent.
Qed.

Lemma rpc_dead_server_fails_witness :
  let pre := echo_setup ++ [LRead 0; LDelay 0 false; LHandle 0; LReceive 0; LNet (DeleteServer 2%positive)] in
  ∃ p', procs (echo_after (pre ++ [LFinal 0 false; LSend 0])) !! 0%nat = Some p' ∧ ∀ r, r ∈ p_sent p' → r = failed.
Proof.
  intros pre.
  apply (rpc_dead_server_fails (echo_after pre) (echo_after (pre ++ [LFinal 0 false]))
    (echo_after (pre ++ [LFinal 0 false; LSend 0])) [LSend 0] 0 (echo_proc pre) 2%positive 0 true false
    (Some (mkReplyMsg true "x")) false).
  - apply (run_ok pre (init_sys 0 [echo_server])); [apply init_ok|by vm_compute].
  - by vm_compute.
  - by vm_compute.
  - by vm_compute.
  - by vm_compute.
  - by vm_compute.
Defined.

(** C33: [Call] returns: from every reachable state a request can be brought to its
    end by at most six steps of its own, without any change of the network and
    whatever the random draws, provided the handler it waits for returns or the
    server is gone: the end was disabled or the server deleted. *)
Theorem rpc_call_returns `{Countable Name} {W} ls (w : W) hs s k (p : proc Name) :
  run ls (init_sys w hs) = Some s → procs s !! k = Some p →
  (∀ n, targets s p n → answering (heap s) (p_req p) n ∨ gone s p) →
  ∀ d1 d2, finishes 6 d1 d2 s k.
Proof.
  intros Hr Hk Ht d1 d2. eapply finishes_always; [done| |done]. eapply run_ok; [apply init_ok|done|done].
Qed.

Lemma echo_dispatch w : dispatch echo_server echo_req w = Some (mkServer (services echo_server) 1, w + 1, mkReplyMsg true "x").
Proof. by vm_compute. Qed.

Lemma echo_answering : answering [echo_server] echo_req 0.
Proof. exists echo_server. split; [done|]. intros w. rewrite echo_dispatch. by eexists. Qed.

(** A request that the server will answer, and one whose server is deleted while the
    handler runs. *)
Lemma rpc_call_returns_witness :
  finishes 6 true false (echo_after echo_setup) 0 ∧
  finishes 6 true false (echo_after (echo_setup ++ [LRead 0; LDelay 0 true; LNet (DeleteServer 2%positive)])) 0.
Proof.
  split.
  - apply (rpc_call_returns echo_setup 0 [echo_server] (echo_after echo_setup) 0 (echo_proc echo_setup)); [by vm_compute..|].
    intros n Hn. assert (n = 0%nat) as -> by (vm_compute in Hn; congruence). left.
    assert (p_req (echo_proc echo_setup) = echo_req) as -> by by vm_compute.
    assert (heap (echo_after echo_setup) = [echo_server]) as -> by by vm_compute. exact echo_answering.
  - set (pre := echo_setup ++ [LRead 0; LDelay 0 true; LNet (DeleteServer 2%positive)]).
    apply (rpc_call_returns pre 0 [echo_server] (echo_after pre) 0 (echo_proc pre)); [by vm_compute..|].
    intros n Hn. right. by vm_compute.
Defined.

(** C34: A reliable network loses nothing: as long as the network is reliable and
    the end of a request stays enabled and connected to a server that stays, then
    whatever else happens meanwhile - other requests, slow handlers, turns of the
    timer, other ends and servers changing - the caller can only get the answer that
    the handler of this server gave to this request, which ran once; and once the
    handler returns the request can be finished by steps of its own. *)
Theorem rpc_reliable `{Countable Name} {W} ls0 (w : W) hs (s s0 s1 : sys Name W) req sn n ls p :
  run ls0 (init_sys w hs) = Some s → up sn n (endname req) (net s) → exec (LCall req) s = Some s0 →
  Forall (keeps_up sn n (endname req)) ls → run ls s0 = Some s1 →
  let k := List.length (procs s) in procs s1 !! k = Some p →
  (∀ r, r ∈ p_sent p → ok r = true ∧ p_executed p = [r] ∧
     ∃ ls1 ls2 s2 rs rs' w', ls = ls1 ++ LHandle k :: ls2 ∧ run ls1 s0 = Some s2 ∧ heap s2 !! n = Some rs ∧
       dispatch rs req (world s2) = Some (rs', w', r)) ∧
  (answering (heap s1) req n → ∀ d1 d2, finishes 6 d1 d2 s1 k).
Proof.
  intros Hr0 Hup Hc Hls Hr k Hk. pose proof (run_ok _ _ _ (init_ok w hs) Hr0) as Hok.
  pose proof (exec_ok _ _ _ Hok Hc) as Hok0. pose proof (up_step req sn n (LCall req) _ _ Hup I Hc) as Hup0.
  assert (procs s0 !! k = Some (mkProc req MStart WNone [] [])) as Hk0.
  { simpl in Hc. unfold Call in Hc. rewrite andb_false_r in Hc. injection Hc as <-. simpl. by apply list_lookup_middle. }
  destruct (served_run req sn n ls s0 s1 k _ Hup0 Hls Hr Hok0 Hk0 eq_refl) as (p' & Hk' & Hs & Hup1 & Hok1 & Hex); [by split|].
  assert (p' = p) as -> by congruence. destruct (Hok1 k p Hk) as [_ Hm _]. unfold main_ok in Hm. destruct Hs as [Hreq _ Hs]. split.
  - intros r Hin. assert (ok r = true ∧ p_executed p = [r]) as [Hokr Her].
    { destruct (p_main p).
      6: { destruct Hm as (r' & Hsent & Hh). rewrite Hsent in Hin. apply list_elem_of_singleton in Hin as ->.
           assert (ok r' = true) as Hr' by (apply Hs; rewrite Hsent; by left). split; [done|]. by destruct Hh as [->|]. }
      all: exfalso; assert (p_sent p = []) as Hsent by tauto; rewrite Hsent in Hin; by apply not_elem_of_nil in Hin. }
    split; [done|]. split; [done|]. destruct (Hex r) as (ls1 & ls2 & s2 & -> & Hr2 & (q & rs & rs' & w' & _ & Hrs & Hd)); [rewrite Her; by left|].
    exists ls1, ls2, s2, rs, rs', w'. done.
  - intros Ha d1 d2. eapply finishes_always; [done|exact (Hok1 k p Hk)|]. intros m Ht. left. rewrite Hreq.
    assert (m = n) as ->; [|done]. unfold targets in Ht. destruct (p_main p); try done; [|naive_solver..].
    destruct Hup1 as (_ & _ & Hco & Hse). unfold readEndnameInfo in Ht. rewrite Hreq, Hco in Ht. simpl in Ht. unfold server_of in Ht.
    rewrite Hse in Ht. simpl in Ht. congruence.
Qed.

(** Two requests on one server; the first waits for two turns of the timer, and
    meanwhile the other end is taken away. *)
Definition busy : list (label positive) :=
  [LRead 0; LDelay 0 true; LTick 0; LCall (mkReqMsg 1%positive "E.d" "y"); LRead 1; LDelay 1 false; LHandle 1; LTick 0;
   LNet (Enable 3%positive false); LHandle 0; LReceive 1; LReceive 0; LFinal 0 true; LSend 0].

Lemma rpc_reliable_witness :
  let s := echo_after [LNet (λ _, echo_net)] in
  ∃ s0 s1 p, exec (LCall echo_req) s = Some s0 ∧ run busy s0 = Some s1 ∧ procs s1 !! 0%nat = Some p ∧
    p_sent p = [mkReplyMsg true "x"] ∧ p_executed p = [mkReplyMsg true "x"].
Proof.
  intros s. eexists _, _, _. split; [vm_compute; reflexivity|]. split; [vm_compute; reflexivity|]. split; [vm_compute; reflexivity|].
  split; [reflexivity|].
  refine (proj1 (proj2 (proj1 (rpc_reliable [LNet (λ _, echo_net)] 0 [echo_server] s _ _ echo_req 2%positive 0 busy _ _ _ _ _ _ _) _ _))).
  - by vm_compute.
  - by vm_compute.
  - vm_compute. reflexivity.
  - repeat (apply Forall_cons; split; [first [exact I|idtac]|]); [|by apply Forall_nil].
    intros rn (Hr & He & Hc & Hs). split_and!; [done| |done|done]. simpl. by rewrite lookup_insert_ne.
  - vm_compute. reflexivity.
  - vm_compute. reflexivity.
  - by left.
Defined.

(** Routing: a request for "service.method" runs that method of that
    service, where the method name is what follows the last dot; the server's
    counter increases by one; exported methods with a pointer reply and no
    results are the ones registered. *)
Lemma dispatch_routes {Name W} (rs : Server W) svc m f (req : reqMsg Name) (w : W) :
  svcMeth req = svc_name svc +:+ String "." m → no_dot m → methods svc !! m = Some f →
  dispatch (AddService svc rs) req w =
    Some (mkServer (<[svc_name svc := svc]> (services rs)) (count rs + 1), (f (args req) w).1,
          mkReplyMsg true (f (args req) w).2).
Proof.
  intros Hm Hd Hf. unfold dispatch, dispatch_service. rewrite Hm, split_last_dot_app by done. simpl.
  rewrite lookup_insert_eq. simpl. rewrite Hf. by destruct (f (args req) w).
Qed.

Lemma dispatch_routes_witness :
  dispatch (AddService echo_service MakeServer) echo_req 5 =
    Some (mkServer (<["E" := echo_service]> ∅) (0 + 1), 6, mkReplyMsg true "x").
Proof.
  apply (dispatch_routes MakeServer echo_service "d" echo echo_req 5); [done| |done].
  by apply (bool_decide_unpack _); vm_compute.
Defined.

End LabrpcSpec.
