(* ===== verification/RaftRpc.v ===== *)
(** Model of a Raft cluster whose servers talk through package labrpc
    (raft/raft.go over labrpc/labrpc.go): the goroutines of [RequestVote] and
    [RequestHeartBeat] block in [ClientEnd.Call], the network of Labrpc.v carries,
    loses and executes the requests, and the handlers it runs are those of Raft.v.

    Nothing here says when a request is handled or a reply processed: that follows
    from the steps of the network. *)

From S2P Require Import Prelude GoStd Raft RaftProof RaftNet Labrpc.

#[local] Open Scope Z_scope.

Module RaftRpc.
Export Raft.

(** What package labgob is used for: a decoder reads back what an encoder wrote. *)
Class Gob (A : Type) := {
  gob_encode : A → string;
  gob_decode : string → option A;
  gob_roundtrip : ∀ a, gob_decode (gob_encode a) = Some a;
}.

Section rpc.
Context {C : Type} `{Gob VoteArgs} `{Gob VoteReply} `{Gob (AppendEntriesArgs C)} `{Gob AppendEntriesReply}.
(** The name of the end that server [i] uses to reach [j] ([rf.peers[j].endname]),
    and the name under which server [j] is registered. *)
Context {Name : Type} `{Countable Name} (peer : nat → nat → Name) (srv : nat → Name).

(** ** The service *)

(** All servers of the process; [None] after a panic. *)
Definition world : Type := option (list (raft C)).

(** A handler of server [j] as package labrpc calls it, with the arguments and
    the reply as bytes. *)
Definition handle {A R} `{Gob A} `{Gob R} (f : A → raft C → option (raft C * R)) (j : nat) : Labrpc.handler world :=
  λ bytes w,
    match (nodes ← w; args ← gob_decode bytes; rf ← nodes !! j; '(rf, r) ← f args rf;
           Some (<[j := rf]> nodes, gob_encode r)) with
    | Some (nodes, bytes) => (Some nodes, bytes)
    | None => (None, "")
    end.

(** The exported methods of [*Raft]; only the two handlers have the form
    [MakeService] looks for. *)
Definition raft_methods (j : nat) : list (Labrpc.Method (W := world)) :=
  let other : Labrpc.handler world := λ _ w, (w, "") in
  [ Labrpc.mkMethod "GetState" "" 1 false 2 other;
    Labrpc.mkMethod "Kill" "" 1 false 0 other;
    Labrpc.mkMethod "RequestAppendEntriesReply" "" 3 true 0 (handle RequestAppendEntriesReply j);
    Labrpc.mkMethod "RequestHeartBeat" "" 1 false 0 other;
    Labrpc.mkMethod "RequestVote" "" 1 false 0 other;
    Labrpc.mkMethod "RequestVoteReply" "" 3 true 0 (handle RequestVoteReply j);
    Labrpc.mkMethod "Start" "" 2 false 3 other ].

Definition raft_server (j : nat) : Labrpc.Server world :=
  Labrpc.AddService (Labrpc.MakeService "Raft" (raft_methods j)) Labrpc.MakeServer.

(** ** The callers *)

(** A goroutine of a vote round: it has not called yet; it waits for the reply to
    request [p]; the call returned false; the reply was processed, and counted as
    a vote or not. *)
Inductive vote_call := VNotSent | VSent (p : nat) | VFailed (p : option nat) | VDone (counted : bool).

Record round := mkRound {
  r_server : nat;
  r_args : option VoteArgs;
  r_voteNum : Z;
  r_calls : list vote_call;
}.

(** A goroutine of [RequestHeartBeat]. *)
Inductive beat_call := BPending | BBuilt (args : AppendEntriesArgs C) | BSent (args : AppendEntriesArgs C) (p : nat)
  | BFailed (args : AppendEntriesArgs C) (p : option nat) | BDone.

Record beat := mkBeat {
  b_server : nat;
  b_peer : nat;
  b_call : beat_call;
}.

(** Who waits on the [replyCh] of a request. *)
Inductive caller :=
| CVote (k i j : nat) (args : VoteArgs)
| CBeat (k i j : nat) (args : AppendEntriesArgs C).

Record state := mkState {
  rpc : Labrpc.sys Name world;
  callers : list caller; (* one for each request of [rpc] *)
  rounds : list round;
  beats : list beat;
  starts : list (option (RaftNet.start C));
}.

Definition set_rpc (r : Labrpc.sys Name world) (s : state) : state := mkState r (callers s) (rounds s) (beats s) (starts s).
Definition set_callers (l : list caller) (s : state) : state := mkState (rpc s) l (rounds s) (beats s) (starts s).
Definition set_rounds (l : list round) (s : state) : state := mkState (rpc s) (callers s) l (beats s) (starts s).
Definition set_beats (l : list beat) (s : state) : state := mkState (rpc s) (callers s) (rounds s) l (starts s).
Definition set_starts (l : list (option (RaftNet.start C))) (s : state) : state :=
  mkState (rpc s) (callers s) (rounds s) (beats s) l.

Definition nodes (s : state) : list (raft C) := default [] (Labrpc.world (rpc s)).
Definition set_world (l : list (raft C)) (r : Labrpc.sys Name world) : Labrpc.sys Name world :=
  Labrpc.mkSys (Labrpc.net r) (Labrpc.heap r) (Some l) (Labrpc.procs r).
Definition set_node (i : nat) (rf : raft C) (s : state) : state :=
  set_rpc (set_world (<[i := rf]> (nodes s)) (rpc s)) s.

Definition spawn_beats (i : nat) (s : state) : state :=
  set_beats (beats s ++ map (λ j, mkBeat i j BPending) (filter (λ j, j ≠ i) (seq 0 (List.length (nodes s))))) s.

(** ** The requests *)

(** [sendRequestVote] and [sendRequestAppendEntries] up to the reply. *)
Definition vote_req (i j : nat) (args : VoteArgs) : Labrpc.reqMsg Name :=
  Labrpc.mkReqMsg (peer i j) "Raft.RequestVoteReply" (gob_encode args).
Definition beat_req (i j : nat) (args : AppendEntriesArgs C) : Labrpc.reqMsg Name :=
  Labrpc.mkReqMsg (peer i j) "Raft.RequestAppendEntriesReply" (gob_encode args).

(** What the call of request [p] returned, if it has: the bytes of the reply, or
    [None] for false. *)
Definition returned (p : nat) (s : state) : option (option string) :=
  pr ← Labrpc.procs (rpc s) !! p;
  match Labrpc.p_sent pr with [r] => Some (Labrpc.Call_result r) | _ => None end.

(** ** Steps *)

(** What the test code does to the network. *)
Inductive net_op :=
| NMakeEnd (i j : nat) | NConnect (i j : nat) | NEnable (i j : nat) (b : bool)
| NAddServer (j : nat) | NDeleteServer (j : nat)
| NReliable (b : bool) | NLongDelays (b : bool) | NLongReordering (b : bool) | NCleanup.

Definition exec_net (o : net_op) (rn : Labrpc.Network Name) : option (Labrpc.Network Name) :=
  match o with
  | NMakeEnd i j => Labrpc.MakeEnd (peer i j) rn
  | NConnect i j => Some (Labrpc.Connect (peer i j) (Some (srv j)) rn)
  | NEnable i j b => Some (Labrpc.Enable (peer i j) b rn)
  | NAddServer j => Some (Labrpc.AddServer (srv j) j rn)
  | NDeleteServer j => Some (Labrpc.DeleteServer (srv j) rn)
  | NReliable b => Some (Labrpc.Reliable b rn)
  | NLongDelays b => Some (Labrpc.LongDelays b rn)
  | NLongReordering b => Some (Labrpc.LongReordering b rn)
  | NCleanup => Some (Labrpc.Cleanup rn)
  end.

Inductive label :=
| RNet (o : net_op)
| RRpc (l : Labrpc.label Name)   (* a step of a request inside the network *)
| RElect (i : nat)               (* [startElection] *)
| RVoteArgs (k : nat)            (* the critical section of [RequestVote] *)
| RVoteSend (k j : nat) (refused : bool) (* the goroutine for peer [j] calls [sendRequestVote] *)
| RVoteReturn (k j : nat)        (* it returns, and the goroutine goes on *)
| RBeat (i : nat)                (* a leader calls [RequestHeartBeat] *)
| RBeatArgs (k : nat)            (* goroutine [k] builds its arguments *)
| RBeatSend (k : nat) (refused : bool)   (* it calls [sendRequestAppendEntries] *)
| RBeatReturn (k : nat)          (* the call returns, and the goroutine goes on *)
| RStartCheck (i : nat) (c : C)  (* [Start]: [GetState] *)
| RStartAppend (k : nat)         (* [Start]: the append *)
| RApply (i : nat).              (* one pass of [applier] *)

Definition set_call (k j : nat) (c : vote_call) (r : round) (s : state) : state :=
  set_rounds (<[k := mkRound (r_server r) (r_args r) (r_voteNum r) (<[j := c]> (r_calls r))]> (rounds s)) s.
Definition set_beat (k : nat) (c : beat_call) (b : beat) (s : state) : state :=
  set_beats (<[k := mkBeat (b_server b) (b_peer b) c]> (beats s)) s.

(** The steps inside the network; a handler that panics ends the process. *)
Definition exec_rpc (l : Labrpc.label Name) (s : state) : option state :=
  match l with
  | Labrpc.LNet _ | Labrpc.LCall _ => None
  | _ => r ← Labrpc.exec l (rpc s); _ ← Labrpc.world r; Some (set_rpc r s)
  end.

Definition exec (l : label) (s : state) : option state :=
  match l with
  | RNet o => rn ← exec_net o (Labrpc.net (rpc s)); Some (set_rpc (Labrpc.set_net rn (rpc s)) s)
  | RRpc l => exec_rpc l s
  | RElect i =>
      rf ← nodes s !! i;
      let '(rf, go) := startElection rf in
      let s := set_node i rf s in
      if (go : bool) then Some (set_rounds (rounds s ++ [mkRound i None 1 []]) s) else Some s
  | RVoteArgs k =>
      r ← rounds s !! k; rf ← nodes s !! r_server r;
      match r_args r with
      | Some _ => None
      | None =>
          args ← vote_args rf;
          Some (set_rounds (<[k := mkRound (r_server r) (Some args) (r_voteNum r)
                                           (replicate (List.length (nodes s)) VNotSent)]> (rounds s)) s)
      end
  | RVoteSend k j refused =>
      r ← rounds s !! k; args ← r_args r; call ← r_calls r !! j;
      match call with
      | VNotSent =>
          if decide (j = r_server r) then None
          else
            match Labrpc.Call refused (vote_req (r_server r) j args) (rpc s) with
            | Some rpc' =>
                Some (set_call k j (VSent (List.length (Labrpc.procs (rpc s)))) r
                        (set_callers (callers s ++ [CVote k (r_server r) j args]) (set_rpc rpc' s)))
            | None => Some (set_call k j (VFailed None) r s)
            end
      | _ => None
      end
  | RVoteReturn k j =>
      r ← rounds s !! k; args ← r_args r; call ← r_calls r !! j; rf ← nodes s !! r_server r;
      match call with
      | VSent p =>
          res ← returned p s;
          match res with
          | None => Some (set_call k j (VFailed (Some p)) r s)
          | Some bytes =>
              reply ← gob_decode bytes;
              let '(rf, voteNum, leader) := vote_reply args reply rf (r_voteNum r) in
              let call := VDone (negb (bool_decide (voteNum = r_voteNum r))) in
              let s := set_call k j call (mkRound (r_server r) (r_args r) voteNum (r_calls r))
                         (set_node (r_server r) rf s) in
              Some (if (leader : bool) then spawn_beats (r_server r) s else s)
          end
      | _ => None
      end
  | RBeat i =>
      rf ← nodes s !! i;
      if (GetState rf).2 then Some (spawn_beats i s) else None
  | RBeatArgs k =>
      b ← beats s !! k; rf ← nodes s !! b_server b;
      match b_call b with
      | BPending =>
          args ← heartbeat_args (Z.of_nat (b_peer b)) rf;
          Some (set_beat k (BBuilt args) b s)
      | _ => None
      end
  | RBeatSend k refused =>
      b ← beats s !! k;
      match b_call b with
      | BBuilt args =>
          match Labrpc.Call refused (beat_req (b_server b) (b_peer b) args) (rpc s) with
          | Some rpc' =>
              Some (set_beat k (BSent args (List.length (Labrpc.procs (rpc s)))) b
                      (set_callers (callers s ++ [CBeat k (b_server b) (b_peer b) args]) (set_rpc rpc' s)))
          | None => Some (set_beat k (BFailed args None) b s)
          end
      | _ => None
      end
  | RBeatReturn k =>
      b ← beats s !! k; rf ← nodes s !! b_server b;
      match b_call b with
      | BSent args p =>
          res ← returned p s;
          match res with
          | None => Some (set_beat k (BFailed args (Some p)) b s)
          | Some bytes =>
              reply ← gob_decode bytes;
              rf ← heartbeat_reply (Z.of_nat (b_peer b)) args reply rf;
              Some (set_beat k BDone b (set_node (b_server b) rf s))
          end
      | _ => None
      end
  | RStartCheck i c =>
      rf ← nodes s !! i;
      let '(term, isLeader) := GetState rf in
      if (isLeader : bool) then Some (set_starts (starts s ++ [Some (RaftNet.mkStart i c term)]) s) else Some s
  | RStartAppend k =>
      p ← starts s !! k; p ← p; rf ← nodes s !! RaftNet.s_server p;
      let '(rf, _) := Start_append (RaftNet.s_command p) (RaftNet.s_term p) rf in
      Some (spawn_beats (RaftNet.s_server p) (set_starts (<[k := None]> (starts s)) (set_node (RaftNet.s_server p) rf s)))
  | RApply i =>
      rf ← nodes s !! i; '(rf, _) ← applier_step rf; Some (set_node i rf s)
  end.

Fixpoint run (ls : list label) (s : state) : option state :=
  match ls with [] => Some s | l :: ls => s ← exec l s; run ls s end.

(** A cluster of [n] fresh servers; the network has no ends and no servers yet. *)
Definition init_state (n : nat) : state :=
  mkState (Labrpc.init_sys (Some (map (λ i, Make n (Z.of_nat i) []) (seq 0 n))) (map raft_server (seq 0 n))) [] [] [] [].

(** What the clients are sent: the messages of [applier]. *)
Definition delivered (l : label) (s : state) : option (nat * ApplyMsg C) :=
  match l with
  | RApply i => rf ← nodes s !! i; '(_, msg) ← applier_step rf; msg ← msg; Some (i, msg)
  | _ => None
  end.

Fixpoint deliveries (ls : list label) (s : state) : list (nat * ApplyMsg C) :=
  match ls with
  | [] => []
  | l :: ls => match exec l s with Some s' => option_list (delivered l s) ++ deliveries ls s' | None => [] end
  end.

Definition leads (s : state) (i : nat) (t : Z) : Prop :=
  ∃ rf, nodes s !! i = Some rf ∧ Raft.state rf = 0 ∧ currentTerm rf = t.
End rpc.

End RaftRpc.
