(* ===== verification/RaftRpcProof.v ===== *)
(** Raft over labrpc (RaftRpc.v) refines the cluster of RaftNet.v: the state of
    the network and of the callers, seen from the servers, is the state of
    RaftNet.v, and every step is one of its steps or none. *)

From S2P Require Import Prelude GoStd Raft RaftProof RaftNet Labrpc LabrpcSpec RaftRpc.

#[local] Open Scope Z_scope.

Module RaftRpcProof.
Export RaftRpc.

(** ** One step of a request inside the network *)

Section labrpc.
Context {Name : Type} `{Countable Name} {W : Type}.
Implicit Types (s : Labrpc.sys Name W) (p : Labrpc.proc Name) (l : Labrpc.label Name).

(** The server whose handler the request will run or runs. *)
Definition aims p (m : nat) : Prop :=
  (∃ sn rel lr, Labrpc.p_main p = Labrpc.MDelay sn m rel lr) ∨ Labrpc.p_worker p = Labrpc.WRunning m.

Definition internal l : Prop :=
  match l with Labrpc.LNet _ | Labrpc.LCall _ | Labrpc.LHandle _ => False | _ => True end.

(** A request that moves on without its handler running. *)
Definition moves s p p' : Prop :=
  Labrpc.p_req p' = Labrpc.p_req p ∧ Labrpc.p_executed p' = Labrpc.p_executed p ∧
  ∀ m, aims p' m → aims p m ∨ Labrpc.i_server (Labrpc.readEndnameInfo (Labrpc.endname (Labrpc.p_req p)) (Labrpc.net s)) = Some m.

Lemma goto_moves s p pc :
  (∀ sn m rel lr, pc ≠ Labrpc.MDelay sn m rel lr) → moves s p (Labrpc.goto pc p).
Proof. intros Hpc. split_and!; [done..|]. intros m [(sn & rel & lr & E)|E]; [by apply Hpc in E|left; by right]. Qed.

Lemma internal_step l s s' :
  internal l → Labrpc.exec l s = Some s' →
  Labrpc.world s' = Labrpc.world s ∧ Labrpc.heap s' = Labrpc.heap s ∧
  Labrpc.connections (Labrpc.net s') = Labrpc.connections (Labrpc.net s) ∧
  Labrpc.servers (Labrpc.net s') = Labrpc.servers (Labrpc.net s) ∧
  (Labrpc.procs s' = Labrpc.procs s ∨
   ∃ k p p', Labrpc.procs s !! k = Some p ∧ Labrpc.procs s' = <[k := p']> (Labrpc.procs s) ∧ moves s p p').
Proof.
  intros Hi Hx.
  assert (∀ k p p', Labrpc.procs s !! k = Some p → moves s p p' → s' = Labrpc.set_proc k p' s →
    Labrpc.world s' = Labrpc.world s ∧ Labrpc.heap s' = Labrpc.heap s ∧
    Labrpc.connections (Labrpc.net s') = Labrpc.connections (Labrpc.net s) ∧
    Labrpc.servers (Labrpc.net s') = Labrpc.servers (Labrpc.net s) ∧
    (Labrpc.procs s' = Labrpc.procs s ∨
     ∃ k p p', Labrpc.procs s !! k = Some p ∧ Labrpc.procs s' = <[k := p']> (Labrpc.procs s) ∧ moves s p p')) as Hset.
  { intros k p p' Hk Hm ->. do 4 (split; [done|]). right. by exists k, p, p'. }
  destruct l as [f|req|k|k drop|k|k|k|k drop|k]; try done; cbn [Labrpc.exec] in Hx;
    apply bind_Some in Hx as (p & Hk & Hx).
  - destruct (Labrpc.p_main p) eqn:Hm; try done.
    destruct (Labrpc.readEndnameInfo _ _) as [e sn srv rel lr] eqn:Hi2. simpl in Hx.
    destruct e, sn as [sn|], srv as [m|]; injection Hx as <-;
      (eapply Hset; [exact Hk| |done]); try by apply goto_moves.
    split_and!; [done..|]. rewrite Hi2. intros m' [(sn' & rel' & lr' & [= -> -> -> ->])|E]; [by right|left; by right].
  - destruct (Labrpc.p_main p) eqn:Hm; try done.
    destruct (negb _ && _); injection Hx as <-; (eapply Hset; [exact Hk| |done]); [by apply goto_moves|].
    split_and!; [done..|]. intros m' [(sn' & rel' & lr' & [=])|[= ->]]. left. left. by eauto.
  - destruct (Labrpc.p_worker p) eqn:Hw, (Labrpc.p_main p) eqn:Hm; try done. injection Hx as <-.
    eapply Hset; [exact Hk| |done]. split_and!; [done..|]. by intros m' [(sn' & rel' & lr' & [=])|[=]].
  - destruct (Labrpc.p_main p) eqn:Hm; try done. destruct (Labrpc.isServerDead _ _ _ _); injection Hx as <-.
    + eapply Hset; [exact Hk| |done]. by apply goto_moves.
    + do 4 (split; [done|]). by left.
  - destruct (Labrpc.p_main p) eqn:Hm; try done.
    repeat case_match; injection Hx as <-; (eapply Hset; [exact Hk| |done]); by apply goto_moves.
  - destruct (Labrpc.p_main p) eqn:Hm; try done. injection Hx as <-. do 4 (split; [done|]). right.
    eexists k, p, _. split; [done|]. split; [simpl; reflexivity|]. split_and!; [done..|].
    intros m' [(sn' & rel' & lr' & [=])|E]. left. by right.
Qed.

(** The handler of a request runs. *)
Lemma handle_step k s s' :
  Labrpc.exec (Labrpc.LHandle k) s = Some s' →
  ∃ p m rs rs' r, Labrpc.procs s !! k = Some p ∧ Labrpc.p_worker p = Labrpc.WRunning m ∧
    Labrpc.heap s !! m = Some rs ∧ Labrpc.dispatch rs (Labrpc.p_req p) (Labrpc.world s) = Some (rs', Labrpc.world s', r) ∧
    Labrpc.heap s' = <[m := rs']> (Labrpc.heap s) ∧ Labrpc.net s' = Labrpc.net s ∧
    Labrpc.procs s' = <[k := Labrpc.mkProc (Labrpc.p_req p) (Labrpc.p_main p) (Labrpc.WAnswered r)
                                (Labrpc.p_executed p ++ [r]) (Labrpc.p_sent p)]> (Labrpc.procs s).
Proof.
  intros (p & Hk & Hx)%bind_Some. destruct (Labrpc.p_worker p) as [|m| |] eqn:Hw; try done.
  apply bind_Some in Hx as (rs & Hrs & ([[rs' w] r] & Hd & [= <-])%bind_Some). by exists p, m, rs, rs', r.
Qed.
End labrpc.

Section proof.
Context {C : Type} `{Gob VoteArgs} `{Gob VoteReply} `{Gob (AppendEntriesArgs C)} `{Gob AppendEntriesReply}.
Context {Name : Type} `{Countable Name} (peer : nat → nat → Name) (srv : nat → Name).
Context `{!Inj2 (=) (=) (=) peer} `{!Inj (=) (=) srv}.

Abbreviation state := (RaftRpc.state (C := C) (Name := Name)).
Abbreviation round := RaftRpc.round.
Abbreviation label := (RaftRpc.label (C := C) (Name := Name)).
Abbreviation exec := (RaftRpc.exec (C := C) peer srv).
Abbreviation world := (RaftRpc.world (C := C)).

Implicit Types (s : state) (l : label) (ans : list (option string)).

(** ** The state as RaftNet.v sees it

    Whether a request was handled is read off the requests of the network; a call
    that failed may have been handled or not, and its reply is never processed. *)

Definition answer_of (pr : Labrpc.proc Name) : option string :=
  match Labrpc.p_executed pr with r :: _ => Some (Labrpc.reply r) | [] => None end.
Definition answers s : list (option string) := map answer_of (Labrpc.procs (rpc s)).
Definition answer ans (p : nat) : option string := mjoin (ans !! p).

Definition abs_vcall ans (c : vote_call) : RaftNet.vote_call :=
  match c with
  | VNotSent | VFailed None => RaftNet.VWaiting
  | VSent p | VFailed (Some p) =>
      match answer ans p ≫= gob_decode with Some r => RaftNet.VAnswered r | None => RaftNet.VWaiting end
  | VDone true => RaftNet.VCounted
  | VDone false => RaftNet.VIgnored
  end.

Definition abs_round ans (r : round) : RaftNet.round :=
  RaftNet.mkRound (r_server r) (r_args r) (r_voteNum r) (map (abs_vcall ans) (r_calls r)).

Definition abs_bcall ans (c : beat_call (C := C)) : RaftNet.beat_call (C := C) :=
  match c with
  | BPending => RaftNet.BPending
  | BBuilt args | BFailed args None => RaftNet.BSent args
  | BSent args p | BFailed args (Some p) =>
      match answer ans p ≫= gob_decode with Some r => RaftNet.BAnswered args r | None => RaftNet.BSent args end
  | BDone => RaftNet.BDone
  end.

Definition abs_beat ans (b : beat (C := C)) : RaftNet.beat C :=
  RaftNet.mkBeat (b_server b) (b_peer b) (abs_bcall ans (b_call b)).

Definition abs s : RaftNet.net C :=
  RaftNet.mkNet (nodes s) (map (abs_round (answers s)) (rounds s)) (map (abs_beat (answers s)) (beats s)) (starts s).

(** The step of RaftNet.v that a step is, if any. *)
Definition succeeded (p : nat) s : bool := match returned p s with Some (Some _) => true | _ => false end.

Definition emit l s : list (RaftNet.label C) :=
  match l with
  | RNet _ => []
  | RRpc (Labrpc.LHandle p) =>
      match callers s !! p with
      | Some (CVote k _ j _) => [RaftNet.LVoteHandle k j]
      | Some (CBeat k _ _ _) => [RaftNet.LBeatHandle k]
      | None => []
      end
  | RRpc _ => []
  | RElect i => [RaftNet.LElect i]
  | RVoteArgs k => [RaftNet.LVoteArgs k]
  | RVoteSend _ _ _ => []
  | RVoteReturn k j =>
      match (r ← rounds s !! k; r_calls r !! j) with
      | Some (VSent p) => if succeeded p s then [RaftNet.LVoteReply k j] else []
      | _ => []
      end
  | RBeat i => [RaftNet.LBeat i]
  | RBeatArgs k => [RaftNet.LBeatArgs k]
  | RBeatSend _ _ => []
  | RBeatReturn k =>
      match b_call <$> beats s !! k with
      | Some (BSent _ p) => if succeeded p s then [RaftNet.LBeatReply k] else []
      | _ => []
      end
  | RStartCheck i c => [RaftNet.LStartCheck i c]
  | RStartAppend k => [RaftNet.LStartAppend k]
  | RApply i => [RaftNet.LApply i]
  end.

Fixpoint trace (ls : list label) s : list (RaftNet.label C) :=
  match ls with
  | [] => []
  | l :: ls => emit l s ++ match exec l s with Some s' => trace ls s' | None => [] end
  end.

(** ** The handlers *)

Lemma handle_Some {A R} `{Gob A} `{Gob R} (f : A → raft C → option (raft C * R)) j bytes (w : world) nodes' :
  (handle f j bytes w).1 = Some nodes' →
  ∃ nodes a rf rf' r, w = Some nodes ∧ gob_decode bytes = Some a ∧ nodes !! j = Some rf ∧ f a rf = Some (rf', r) ∧
    nodes' = <[j := rf']> nodes ∧ (handle f j bytes w).2 = gob_encode r.
Proof.
  unfold handle. destruct w as [nodes|]; simpl; [|done]. destruct (gob_decode bytes) as [a|]; simpl; [|done].
  destruct (nodes !! j) as [rf|] eqn:Hj; simpl; [|done]. destruct (f a rf) as [[rf' r]|] eqn:Hf; simpl; [|done].
  intros [= <-]. by exists nodes, a, rf, rf', r.
Qed.

Lemma raft_method_vote j :
  Labrpc.methods (Labrpc.MakeService "Raft" (raft_methods j)) !! "RequestVoteReply" = Some (handle RequestVoteReply j).
Proof. unfold Labrpc.MakeService. simpl. by rewrite lookup_insert_eq. Qed.

Lemma raft_method_beat j :
  Labrpc.methods (Labrpc.MakeService "Raft" (raft_methods j)) !! "RequestAppendEntriesReply" =
    Some (handle RequestAppendEntriesReply j).
Proof. unfold Labrpc.MakeService. simpl. by rewrite lookup_insert_ne, lookup_insert_eq. Qed.

Lemma raft_service j :
  Labrpc.services (raft_server (C := C) j) !! "Raft" = Some (Labrpc.MakeService "Raft" (raft_methods j)).
Proof. apply lookup_insert_eq. Qed.

Lemma dispatch_raft {A R} `{Gob A} `{Gob R} (f : A → raft C → option (raft C * R)) m j rs rs' (e : Name) name (a : A) (w : world) w' rep :
  Labrpc.services rs = Labrpc.services (raft_server j) → Labrpc.split_last_dot name = Some ("Raft", m) →
  Labrpc.methods (Labrpc.MakeService "Raft" (raft_methods j)) !! m = Some (handle f j) →
  Labrpc.dispatch rs (Labrpc.mkReqMsg e name (gob_encode a)) w = Some (rs', Some w', rep) →
  ∃ (l : list (raft C)) rf rf' r, w = Some l ∧ l !! j = Some rf ∧ f a rf = Some (rf', r) ∧ w' = <[j := rf']> l ∧
    rep = Labrpc.mkReplyMsg true (gob_encode r) ∧ Labrpc.services rs' = Labrpc.services rs.
Proof.
  intros Hs Hm Hf Hd. unfold Labrpc.dispatch in Hd. cbn [Labrpc.svcMeth Labrpc.args Labrpc.services Labrpc.count] in Hd.
  rewrite Hm in Hd. cbn [mbind option_bind] in Hd. rewrite Hs, raft_service in Hd. cbn [mbind option_bind] in Hd.
  unfold Labrpc.dispatch_service in Hd. destruct (Labrpc.methods _ !! m) as [h|] eqn:E in Hd; [|done].
  assert (h = handle f j) as -> by (enough (Some h = Some (handle f j)) by congruence; rewrite <-E; exact Hf).
  cbn [Labrpc.args] in Hd.
  destruct (handle f j (gob_encode a) w) as [w1 bytes] eqn:Hh. cbn [mbind option_bind] in Hd. rewrite <-Hs in Hd.
  injection Hd as <- -> <-. assert ((handle f j (gob_encode a) w).1 = Some w') as Hw by by rewrite Hh.
  apply handle_Some in Hw as (l & a' & rf & rf' & r & -> & Hdec & Hj & Hx & -> & Hb).
  rewrite gob_roundtrip in Hdec. injection Hdec as <-. rewrite Hh in Hb. simpl in Hb. subst bytes.
  by exists l, rf, rf', r.
Qed.

(** ** The invariant *)

Definition req_of (c : caller (C := C)) : Labrpc.reqMsg Name :=
  match c with CVote _ i j args => vote_req peer i j args | CBeat _ i j args => beat_req peer i j args end.
Definition peer_of (c : caller (C := C)) : nat := match c with CVote _ _ j _ | CBeat _ _ j _ => j end.

(** The request a caller made, on its way to the peer the caller named. *)
Record proc_for (c : caller (C := C)) (pr : Labrpc.proc Name) : Prop := {
  pf_req : Labrpc.p_req pr = req_of c;
  pf_aims : ∀ m, aims pr m → m = peer_of c;
}.

Definition vwaits (c : vote_call) : option nat :=
  match c with VSent p => Some p | VFailed o => o | _ => None end.
Definition bwaits (c : beat_call (C := C)) : option (AppendEntriesArgs C * nat) :=
  match c with BSent args p | BFailed args (Some p) => Some (args, p) | _ => None end.

Definition answered s (p : nat) : Prop := answer (answers s) p ≠ None.

Definition caller_ok s (p : nat) (c : caller) : Prop :=
  match c with
  | CVote k i j args =>
      j ≠ i ∧ ∃ r call, rounds s !! k = Some r ∧ r_server r = i ∧ r_args r = Some args ∧ r_calls r !! j = Some call ∧
        (vwaits call = Some p ∨ (∃ b, call = VDone b) ∧ answered s p)
  | CBeat k i j args =>
      ∃ b, beats s !! k = Some b ∧ b_server b = i ∧ b_peer b = j ∧
        (bwaits (b_call b) = Some (args, p) ∨ b_call b = BDone ∧ answered s p)
  end.

Record wired (rn : Labrpc.Network Name) : Prop := {
  wi_conn : ∀ i j sn, Labrpc.connections rn !! peer i j = Some (Some sn) → sn = srv j;
  wi_serv : ∀ j m, Labrpc.servers rn !! srv j = Some (Some m) → m = j;
}.

Record inv s : Prop := {
  i_rpc : LabrpcSpec.sys_ok (rpc s);
  i_world : is_Some (Labrpc.world (rpc s));
  i_heap : ∀ j rs, Labrpc.heap (rpc s) !! j = Some rs → Labrpc.services rs = Labrpc.services (raft_server (C := C) j);
  i_wired : wired (Labrpc.net (rpc s));
  i_procs : Forall2 proc_for (callers s) (Labrpc.procs (rpc s));
  i_caller : ∀ p c, callers s !! p = Some c → caller_ok s p c;
  i_vote : ∀ k r j c p, rounds s !! k = Some r → r_calls r !! j = Some c → vwaits c = Some p →
    ∃ i args, callers s !! p = Some (CVote k i j args);
  i_beat : ∀ k b args p, beats s !! k = Some b → bwaits (b_call b) = Some (args, p) →
    ∃ i j, callers s !! p = Some (CBeat k i j args);
}.

Lemma wired_target rn i j sn m :
  wired rn → Labrpc.connections rn !! peer i j = Some (Some sn) → Labrpc.servers rn !! sn = Some (Some m) → m = j.
Proof. intros [Hc Hs] Hcn Hsv. apply Hc in Hcn as ->. by eapply Hs. Qed.

(** ** What the abstraction depends on *)

Lemma lookup_map {A B} (f : A → B) (l : list A) (k : nat) : map f l !! k = f <$> l !! k.
Proof. apply list_lookup_fmap. Qed.

Lemma map_change {A B} (f g : A → B) (l : list A) (k : nat) x y :
  l !! k = Some x → g x = y → (∀ k' x', k' ≠ k → l !! k' = Some x' → g x' = f x') → map g l = <[k := y]> (map f l).
Proof.
  intros Hk Hy Hother. apply list_eq. intros k'. destruct (decide (k' = k)) as [->|Hne].
  - rewrite list_lookup_insert_eq by (rewrite length_map; by eapply lookup_lt_Some).
    rewrite lookup_map, Hk. simpl. by rewrite Hy.
  - rewrite list_lookup_insert_ne by done. rewrite !lookup_map.
    destruct (l !! k') as [x'|] eqn:E; simpl; [|done]. by rewrite (Hother k' x').
Qed.

Lemma map_same {A B} (f g : A → B) (l : list A) :
  (∀ k x, l !! k = Some x → g x = f x) → map g l = map f l.
Proof. intros Hs. apply map_ext_in. intros x [k Hk]%list_elem_of_In%list_elem_of_lookup. by eapply Hs. Qed.

Lemma abs_vcall_ext ans ans' c :
  (∀ p, vwaits c = Some p → answer ans' p = answer ans p) → abs_vcall ans' c = abs_vcall ans c.
Proof. destruct c as [|p|[p|]|b]; simpl; intros Ha; rewrite ?Ha; done. Qed.

Lemma abs_bcall_ext ans ans' c :
  (∀ args p, bwaits c = Some (args, p) → answer ans' p = answer ans p) → abs_bcall ans' c = abs_bcall ans c.
Proof. destruct c as [|args|args p|args [p|]|]; simpl; intros Ha; try done; by rewrite (Ha args p). Qed.

Lemma abs_round_ext ans ans' r :
  (∀ j c p, r_calls r !! j = Some c → vwaits c = Some p → answer ans' p = answer ans p) →
  abs_round ans' r = abs_round ans r.
Proof. intros Ha. unfold abs_round. f_equal. apply map_same. intros j c Hj. apply abs_vcall_ext. intros p. by eapply Ha. Qed.

Lemma abs_beat_ext ans ans' b :
  (∀ args p, bwaits (b_call b) = Some (args, p) → answer ans' p = answer ans p) → abs_beat ans' b = abs_beat ans b.
Proof. intros Ha. unfold abs_beat. by rewrite (abs_bcall_ext ans ans'). Qed.

(** A step that changes neither servers nor callers nor answers is not seen. *)
Lemma abs_same s s' :
  nodes s' = nodes s → rounds s' = rounds s → beats s' = beats s → starts s' = starts s →
  (∀ p, answer (answers s') p = answer (answers s) p) → abs s' = abs s.
Proof.
  intros Hn Hr Hb Hs Ha. unfold abs. rewrite Hn, Hr, Hb, Hs. f_equal; apply map_same; intros k x _.
  - apply abs_round_ext. intros j c p _ _. apply Ha.
  - apply abs_beat_ext. intros args p _. apply Ha.
Qed.

Lemma answer_insert s k pr pr' :
  Labrpc.procs (rpc s) !! k = Some pr → ∀ p,
  answer (map answer_of (<[k := pr']> (Labrpc.procs (rpc s)))) p = if decide (p = k) then answer_of pr' else answer (answers s) p.
Proof.
  intros Hk p. unfold answer, answers. rewrite !lookup_map. destruct (decide (p = k)) as [->|Hne].
  - by rewrite list_lookup_insert_eq by (by eapply lookup_lt_Some).
  - by rewrite list_lookup_insert_ne.
Qed.

Lemma answer_app ans p : answer (ans ++ [None]) p = answer ans p.
Proof.
  unfold answer. destruct (decide (p < List.length ans)%nat) as [Hlt|Hge]; [by rewrite lookup_app_l|].
  rewrite (lookup_ge_None_2 ans p) by lia. rewrite lookup_app_r by lia.
  by destruct (p - List.length ans)%nat as [|q]; [|destruct q].
Qed.

(** ** Steps inside the network *)

Lemma caller_ok_mono s s' p c :
  rounds s' = rounds s → beats s' = beats s → (∀ p, answered s p → answered s' p) → caller_ok s p c → caller_ok s' p c.
Proof.
  intros Hr Hb Ha. destruct c as [k i j args|k i j args]; simpl; rewrite ?Hr, ?Hb.
  - intros (Hij & r & call & ? & ? & ? & ? & Hw). split; [done|]. exists r, call. do 4 (split; [done|]).
    destruct Hw as [?|[? ?]]; [by left|right; auto].
  - intros (b & ? & ? & ? & Hw). exists b. do 3 (split; [done|]). destruct Hw as [?|[? ?]]; [by left|right; auto].
Qed.

Lemma inv_rpc s (r : Labrpc.sys Name world) :
  inv s → LabrpcSpec.sys_ok r → is_Some (Labrpc.world r) →
  (∀ j rs, Labrpc.heap r !! j = Some rs → Labrpc.services rs = Labrpc.services (raft_server (C := C) j)) →
  wired (Labrpc.net r) → Forall2 proc_for (callers s) (Labrpc.procs r) →
  (∀ p, answered s p → answered (set_rpc r s) p) → inv (set_rpc r s).
Proof.
  intros Hi ????? Ha. pose proof (i_caller _ Hi) as Hcaller. destruct Hi. constructor; try done.
  intros p c Hc. apply (caller_ok_mono s); [done|done|done|]. by apply Hcaller.
Qed.

Lemma exec_rpc_Some (l : Labrpc.label Name) s s' :
  exec_rpc (C := C) l s = Some s' →
  ∃ r : Labrpc.sys Name world, Labrpc.exec l (rpc s) = Some r ∧ is_Some (Labrpc.world r) ∧ s' = set_rpc r s ∧ (internal l ∨ ∃ p, l = Labrpc.LHandle p).
Proof.
  intros Hx. unfold exec_rpc in Hx. destruct l; try done;
    apply bind_Some in Hx as (r & Hr & (w & Hw & [= <-])%bind_Some); exists r; rewrite Hw;
    (split; [done|]); (split; [by eexists|]); (split; [done|]); first [by left|right; by eexists].
Qed.

Lemma procs_insert s k c pr pr' :
  inv s → callers s !! k = Some c → Labrpc.procs (rpc s) !! k = Some pr → proc_for c pr' →
  Forall2 proc_for (callers s) (<[k := pr']> (Labrpc.procs (rpc s))).
Proof.
  intros Hi Hc Hk Hp. rewrite <-(list_insert_id (callers s) k c) by done. apply Forall2_insert; [apply Hi|done].
Qed.

Lemma proc_caller s k pr :
  inv s → Labrpc.procs (rpc s) !! k = Some pr → ∃ c, callers s !! k = Some c ∧ proc_for c pr ∧ caller_ok s k c.
Proof.
  intros Hi Hk. destruct (Forall2_lookup_r _ _ _ _ _ (i_procs _ Hi) Hk) as (c & Hc & Hp). exists c.
  split; [done|]. split; [done|]. by apply (i_caller _ Hi).
Qed.

Lemma moves_proc_for s k c pr pr' :
  inv s → proc_for c pr → moves (rpc s) pr pr' → Labrpc.procs (rpc s) !! k = Some pr → proc_for c pr'.
Proof.
  intros Hi [Hreq Ha] (Er & _ & Hm) Hk. constructor; [congruence|]. intros m [Hm'|Hm']%Hm; [by apply Ha|].
  rewrite Hreq in Hm'. unfold Labrpc.readEndnameInfo in Hm'. simpl in Hm'.
  apply bind_Some in Hm' as (sn & Hc & Hs).
  destruct (Labrpc.connections _ !! _) as [o|] eqn:Hcn; [|done]. simpl in Hc. subst o.
  unfold Labrpc.server_of in Hs. destruct (Labrpc.servers _ !! sn) as [o|] eqn:Hsv; [|done]. simpl in Hs. subst o.
  destruct c; simpl in *; by eapply wired_target; [apply Hi|..].
Qed.

Lemma sim_internal s s' (l : Labrpc.label Name) :
  inv s → internal l → exec_rpc l s = Some s' → abs s' = abs s ∧ inv s'.
Proof.
  intros Hi Hint (r & Hx & Hw & -> & _)%exec_rpc_Some.
  destruct (internal_step l (rpc s) r Hint Hx) as (Ew & Eh & Ec & Es & Hp).
  assert (∀ p, answer (answers (set_rpc r s)) p = answer (answers s) p) as Ha.
  { intros p. unfold answers at 1. simpl. destruct Hp as [->|(k & pr & pr' & Hk & -> & _ & Ee & _)]; [done|].
    rewrite (answer_insert s k pr pr' Hk). destruct (decide (p = k)) as [->|]; [|done].
    unfold answer, answers. rewrite lookup_map, Hk. simpl. unfold answer_of. by rewrite Ee. }
  split; [apply abs_same; try done; unfold nodes; simpl; by rewrite Ew|].
  apply inv_rpc; [done| |done| | | |].
  - eapply LabrpcSpec.exec_ok; [apply Hi|exact Hx].
  - intros j rs Hj. apply (i_heap _ Hi j rs). by rewrite <-Eh.
  - destruct (i_wired _ Hi) as [Hcn Hsv]. constructor.
    + intros i j sn Hc. rewrite Ec in Hc. by eapply Hcn.
    + intros j m Hs. rewrite Es in Hs. by eapply Hsv.
  - destruct Hp as [->|(k & pr & pr' & Hk & -> & Hm)]; [apply Hi|].
    destruct (proc_caller s k pr Hi Hk) as (c & Hc & Hpf & _). eapply procs_insert; [done..|]. by eapply moves_proc_for.
  - intros p. unfold answered. by rewrite Ha.
Qed.

Lemma sim_net s o rn :
  inv s → exec_net peer srv o (Labrpc.net (rpc s)) = Some rn →
  let s' := set_rpc (Labrpc.set_net rn (rpc s)) s in abs s' = abs s ∧ inv s'.
Proof.
  intros Hi Hx s'. split; [by apply abs_same|]. apply inv_rpc; [done|apply Hi|apply Hi|apply Hi| |apply Hi|done]. simpl.
  destruct (i_wired _ Hi) as [Hc Hs]. destruct o; simpl in Hx; try (injection Hx as <-; by constructor).
  - unfold Labrpc.MakeEnd in Hx. destruct (decide _); [done|]. injection Hx as <-. constructor; simpl; [|done].
    intros i' j' sn [[_ ?]|[_ ?]]%lookup_insert_Some; [done|by eapply Hc].
  - injection Hx as <-. constructor; simpl; [|done].
    intros i' j' sn [[He Hsn]|[_ ?]]%lookup_insert_Some; [|by eapply Hc].
    apply (inj2 peer) in He as [_ ->]. congruence.
  - injection Hx as <-. constructor; simpl; [done|].
    intros j' m [[He Hm]|[_ ?]]%lookup_insert_Some; [|by eapply Hs]. apply (inj srv) in He as ->. congruence.
  - injection Hx as <-. constructor; simpl; [done|].
    intros j' m [[_ ?]|[_ ?]]%lookup_insert_Some; [done|by eapply Hs].
Qed.

(** ** A handler runs *)

Lemma answer_running s p pr m :
  inv s → Labrpc.procs (rpc s) !! p = Some pr → Labrpc.p_worker pr = Labrpc.WRunning m → answer (answers s) p = None.
Proof.
  intros Hi Hp Hw. pose proof (LabrpcSpec.po_executed _ (i_rpc _ Hi p pr Hp)) as He.
  unfold LabrpcSpec.executed_ok in He. rewrite Hw in He. unfold answer, answers. rewrite lookup_map, Hp. simpl.
  unfold answer_of. by rewrite He.
Qed.

(** Exactly one call sees the answer to request [p]. *)
Lemma answer_vote s ans' p k i j args r call reply :
  inv s → callers s !! p = Some (CVote k i j args) → rounds s !! k = Some r → r_calls r !! j = Some call →
  vwaits call = Some p → answer ans' p = Some (gob_encode (reply : VoteReply)) →
  (∀ q, q ≠ p → answer ans' q = answer (answers s) q) →
  map (abs_round ans') (rounds s) =
    <[k := RaftNet.mkRound (r_server r) (r_args r) (r_voteNum r)
             (<[j := RaftNet.VAnswered reply]> (map (abs_vcall (answers s)) (r_calls r)))]> (map (abs_round (answers s)) (rounds s)) ∧
  map (abs_beat ans') (beats s) = map (abs_beat (answers s)) (beats s).
Proof.
  intros Hi Hc Hk Hj Hw Hp Hq. split.
  - eapply map_change; [exact Hk| |].
    + unfold abs_round. f_equal. eapply map_change; [exact Hj| |].
      * destruct call as [|p'|[p'|]|b]; simplify_eq/=; by rewrite Hp; simpl; rewrite gob_roundtrip.
      * intros j' c' Hne Hj'. apply abs_vcall_ext. intros q Hwq. apply Hq. intros ->.
        destruct (i_vote _ Hi k r j' c' p Hk Hj' Hwq) as (? & ? & ?). congruence.
    + intros k' r' Hne Hk'. apply abs_round_ext. intros j' c' q Hj' Hwq. apply Hq. intros ->.
      destruct (i_vote _ Hi k' r' j' c' p Hk' Hj' Hwq) as (? & ? & ?). congruence.
  - apply map_same. intros k' b Hk'. apply abs_beat_ext. intros args' q Hwq. apply Hq. intros ->.
    destruct (i_beat _ Hi k' b args' p Hk' Hwq) as (? & ? & ?). congruence.
Qed.

Lemma answer_beat s ans' p k i j args b reply :
  inv s → callers s !! p = Some (CBeat k i j args) → beats s !! k = Some b → bwaits (b_call b) = Some (args, p) →
  answer ans' p = Some (gob_encode (reply : AppendEntriesReply)) →
  (∀ q, q ≠ p → answer ans' q = answer (answers s) q) →
  map (abs_round ans') (rounds s) = map (abs_round (answers s)) (rounds s) ∧
  map (abs_beat ans') (beats s) =
    <[k := RaftNet.mkBeat (b_server b) (b_peer b) (RaftNet.BAnswered args reply)]> (map (abs_beat (answers s)) (beats s)).
Proof.
  intros Hi Hc Hk Hw Hp Hq. split.
  - apply map_same. intros k' r Hk'. apply abs_round_ext. intros j' c' q Hj' Hwq. apply Hq. intros ->.
    destruct (i_vote _ Hi k' r j' c' p Hk' Hj' Hwq) as (? & ? & ?). congruence.
  - eapply map_change; [exact Hk| |].
    + unfold abs_beat. f_equal. destruct (b_call b) as [|a|a p'|a [p'|]|]; simplify_eq/=; by rewrite Hp; simpl; rewrite gob_roundtrip.
    + intros k' b' Hne Hk'. apply abs_beat_ext. intros args' q Hwq. apply Hq. intros ->.
      destruct (i_beat _ Hi k' b' args' p Hk' Hwq) as (? & ? & ?). congruence.
Qed.

(** What a handler leaves. *)
Lemma handled s (r : Labrpc.sys Name world) p :
  inv s → Labrpc.exec (Labrpc.LHandle p) (rpc s) = Some r → is_Some (Labrpc.world r) →
  ∃ c rs rs' rep, callers s !! p = Some c ∧ caller_ok s p c ∧ Labrpc.services rs = Labrpc.services (raft_server (peer_of c)) ∧
    Labrpc.dispatch rs (req_of c) (Labrpc.world (rpc s)) = Some (rs', Labrpc.world r, rep) ∧
    answer (answers s) p = None ∧
    (∀ q, answer (answers (set_rpc r s)) q = if decide (q = p) then Some (Labrpc.reply rep) else answer (answers s) q) ∧
    (Labrpc.services rs' = Labrpc.services rs → inv (set_rpc r s)).
Proof.
  intros Hi Hx Hw. pose proof (LabrpcSpec.exec_ok _ _ _ (i_rpc _ Hi) Hx) as Hok.
  destruct (handle_step p (rpc s) r Hx) as (pr & m & rs & rs' & rep & Hp & Hrun & Hrs & Hd & Eh & En & Ep).
  destruct (proc_caller s p pr Hi Hp) as (c & Hc & [Hreq Haims] & Hcaller).
  assert (m = peer_of c) as -> by (apply Haims; by right). rewrite Hreq in Hd.
  pose proof (answer_running s p pr _ Hi Hp Hrun) as Hnone.
  assert (∀ q, answer (answers (set_rpc r s)) q = if decide (q = p) then Some (Labrpc.reply rep) else answer (answers s) q) as Ha.
  { intros q. unfold answers at 1. simpl. rewrite Ep, (answer_insert s p pr _ Hp). destruct (decide (q = p)) as [->|]; [|done].
    pose proof (LabrpcSpec.po_executed _ (i_rpc _ Hi p pr Hp)) as He. unfold LabrpcSpec.executed_ok in He. rewrite Hrun in He.
    unfold answer_of. simpl. by rewrite He. }
  exists c, rs, rs', rep. split; [done|]. split; [done|]. split; [by apply (i_heap _ Hi)|]. do 3 (split; [done|]).
  intros Es. apply inv_rpc; [done|done|done| |by rewrite En; apply Hi| |].
  - intros j rs2 Hj. rewrite Eh in Hj. apply list_lookup_insert_Some in Hj as [(<- & -> & _)|[_ Hj]]; [|by apply (i_heap _ Hi)].
    rewrite Es. by apply (i_heap _ Hi).
  - rewrite Ep. eapply procs_insert; [done..|]. constructor; [done|]. intros m [(sn & rel & lr & Hm)|Hm]; [|done].
    apply Haims. left. by exists sn, rel, lr.
  - intros q. unfold answered. rewrite Ha. by destruct (decide (q = p)).
Qed.

Lemma sim_handle s s' p :
  inv s → exec_rpc (Labrpc.LHandle p) s = Some s' →
  RaftNet.run (emit (RRpc (Labrpc.LHandle p)) s) (abs s) = Some (abs s') ∧ inv s'.
Proof.
  intros Hi (r & Hx & [w' Hw'] & -> & _)%exec_rpc_Some.
  destruct (handled s r p Hi Hx ltac:(by eexists)) as (c & rs & rs' & rep & Hc & Hcaller & Hsv & Hd & Hnone & Ha & Hinv).
  enough (Labrpc.services rs' = Labrpc.services rs ∧
    RaftNet.run (emit (RRpc (Labrpc.LHandle p)) s) (abs s) = Some (abs (set_rpc r s))) as [Es Hsim] by auto.
  rewrite Hw' in Hd. cbn [emit]. rewrite Hc. destruct c as [k i j args|k i j args]; simpl in Hsv.
  - destruct (dispatch_raft RequestVoteReply "RequestVoteReply" j rs rs' _ "Raft.RequestVoteReply" args _ w' rep Hsv eq_refl (raft_method_vote j) Hd)
      as (l & rf & rf' & reply & Hl & Hj & Hf & -> & -> & Es).
    split; [done|]. destruct Hcaller as (Hij & rd & call & Hk & <- & Hargs & Hcall & [Hwait|[_ []]]); [|done].
    destruct (answer_vote s (answers (set_rpc r s)) p k (r_server rd) j args rd call reply) as [Hr Hb]; [done..| | |].
    { by rewrite Ha, decide_True. }
    { intros q Hq. by rewrite Ha, decide_False. }
    assert (nodes s = l) as En' by (unfold nodes; by rewrite Hl).
    simpl. rewrite lookup_map, Hk. simpl. rewrite Hargs. simpl. rewrite lookup_map, Hcall. simpl.
    assert (abs_vcall (answers s) call = RaftNet.VWaiting) as ->.
    { destruct call as [|p'|[p'|]|b]; simplify_eq/=; by rewrite Hnone. }
    rewrite En', Hj. simpl. rewrite decide_False by done. rewrite Hf. simpl. f_equal. unfold abs.
    change (rounds (set_rpc r s)) with (rounds s). change (beats (set_rpc r s)) with (beats s).
    rewrite Hr, Hb, Hargs. unfold RaftNet.set_rounds, RaftNet.set_node. simpl. rewrite En'. unfold nodes. simpl. by rewrite Hw'.
  - destruct (dispatch_raft RequestAppendEntriesReply "RequestAppendEntriesReply" j rs rs' _ "Raft.RequestAppendEntriesReply" args _ w' rep Hsv eq_refl
      (raft_method_beat j) Hd) as (l & rf & rf' & reply & Hl & Hj & Hf & -> & -> & Es).
    split; [done|]. destruct Hcaller as (b & Hk & Hbi & Hbj & [Hwait|[_ []]]); [|done].
    destruct (answer_beat s (answers (set_rpc r s)) p k i j args b reply) as [Hr Hb]; [done..| | |].
    { by rewrite Ha, decide_True. }
    { intros q Hq. by rewrite Ha, decide_False. }
    assert (nodes s = l) as En' by (unfold nodes; by rewrite Hl).
    simpl. rewrite lookup_map, Hk. simpl. rewrite Hbj, En', Hj. simpl.
    assert (abs_bcall (answers s) (b_call b) = RaftNet.BSent args) as ->.
    { destruct (b_call b) as [|a|a p'|a [p'|]|]; simplify_eq/=; by rewrite Hnone. }
    rewrite Hf. simpl. f_equal. unfold abs.
    change (rounds (set_rpc r s)) with (rounds s). change (beats (set_rpc r s)) with (beats s).
    rewrite Hr, Hb, Hbj. unfold RaftNet.set_beats, RaftNet.set_node. simpl. rewrite En'. unfold nodes. simpl. by rewrite Hw'.
Qed.

(** ** The callers' steps: what they keep and how they look *)

Lemma map_insert {A B} (f : A → B) (l : list A) (k : nat) x : map f (<[k := x]> l) = <[k := f x]> (map f l).
Proof. apply list_fmap_insert. Qed.

Lemma inv_set_node s i rf : inv s → inv (set_node i rf s).
Proof. intros Hi. apply inv_rpc; simpl; [done|apply Hi|by eexists|apply Hi|apply Hi|apply Hi|done]. Qed.

Lemma abs_set_node s i rf : is_Some (Labrpc.world (rpc s)) → abs (set_node i rf s) = RaftNet.set_node i rf (abs s).
Proof. done. Qed.

Lemma inv_starts s ss : inv s → inv (set_starts ss s).
Proof. by intros []. Qed.

Lemma inv_add_beats s i js : inv s → inv (set_beats (beats s ++ map (λ j, mkBeat i j BPending) js) s).
Proof.
  intros Hi. pose proof (i_caller _ Hi) as Hcaller. pose proof (i_beat _ Hi) as Hbeat. destruct Hi. constructor; try done.
  - intros p [k i' j args|k i' j args] Hc; apply Hcaller in Hc; [done|]. destruct Hc as (b & Hk & Hb). exists b.
    split; [|done]. simpl. by apply lookup_app_l_Some.
  - simpl. intros k b args p [Hk|[_ Hk]]%lookup_app_Some Hw; [by eapply Hbeat|].
    rewrite lookup_map in Hk. apply fmap_Some in Hk as (j & _ & ->). done.
Qed.

Lemma inv_spawn s i : inv s → inv (spawn_beats i s).
Proof. apply inv_add_beats. Qed.

Lemma abs_spawn s i : abs (spawn_beats i s) = RaftNet.spawn_beats i (abs s).
Proof. unfold abs, spawn_beats, RaftNet.spawn_beats. simpl. by rewrite map_app, map_map. Qed.

Lemma inv_new_round s i : inv s → inv (set_rounds (rounds s ++ [mkRound i None 1 []]) s).
Proof.
  intros Hi. pose proof (i_caller _ Hi) as Hcaller. pose proof (i_vote _ Hi) as Hvote. destruct Hi. constructor; try done.
  - intros p [k i' j args|k i' j args] Hc; apply Hcaller in Hc; [|done].
    destruct Hc as (Hij & r & call & Hk & Hr). split; [done|]. exists r, call. split; [simpl; by apply lookup_app_l_Some|done].
  - simpl. intros k r j c p [Hk|[_ Hk]]%lookup_app_Some Hj Hw; [by eapply Hvote|].
    apply list_lookup_singleton_Some in Hk as [_ <-]. done.
Qed.

Lemma inv_args s k r args m :
  inv s → rounds s !! k = Some r → r_args r = None →
  inv (set_rounds (<[k := mkRound (r_server r) (Some args) (r_voteNum r) (replicate m VNotSent)]> (rounds s)) s).
Proof.
  intros Hi Hk Ha. pose proof (i_caller _ Hi) as Hcaller. pose proof (i_vote _ Hi) as Hvote. destruct Hi. constructor; try done.
  - intros p [k' i' j args'|k' i' j args'] Hc; apply Hcaller in Hc; [|done].
    destruct Hc as (Hij & r' & call & Hk' & Hs & Hr & Hrest). assert (k ≠ k') by congruence.
    split; [done|]. exists r', call. split; [simpl; by rewrite list_lookup_insert_ne|done].
  - simpl. intros k' r' j c p [(<- & <- & _)|[_ Hk']]%list_lookup_insert_Some Hj Hw; [|by eapply Hvote].
    simpl in Hj. apply lookup_replicate in Hj as [-> _]. done.
Qed.

(** The goroutine of round [k] for peer [j] goes from [c] to [c']. *)
Lemma inv_set_call s k j c c' r num :
  inv s → rounds s !! k = Some r → r_calls r !! j = Some c → (∀ b, c ≠ VDone b) →
  (∀ p, vwaits c' = Some p → vwaits c = Some p) →
  (∀ p, vwaits c = Some p → vwaits c' = Some p ∨ (∃ b, c' = VDone b) ∧ answered s p) →
  inv (set_call k j c' (mkRound (r_server r) (r_args r) num (r_calls r)) s).
Proof.
  intros Hi Hk Hj Hd Hback Hforth. pose proof (i_caller _ Hi) as Hcaller. pose proof (i_vote _ Hi) as Hvote.
  pose proof (lookup_lt_Some _ _ _ Hk) as Hlk. pose proof (lookup_lt_Some _ _ _ Hj) as Hlj.
  destruct Hi. constructor; try done.
  - intros p [k2 i2 j2 args2|k2 i2 j2 args2] Hc; apply Hcaller in Hc; [|done].
    destruct Hc as (Hij & r2 & call & Hk2 & Hs & Hargs & Hcall & Hw). split; [done|]. simpl.
    destruct (decide (k = k2)) as [<-|Hne]; [|by exists r2, call; rewrite list_lookup_insert_ne].
    simplify_eq. rewrite list_lookup_insert_eq by done. destruct (decide (j = j2)) as [<-|Hjne].
    + simplify_eq. eexists _, c'. split; [done|]. simpl. do 2 (split; [done|]).
      split; [by rewrite list_lookup_insert_eq|]. destruct Hw as [Hw|[[b ->] _]]; [by apply Hforth|by destruct (Hd b)].
    + eexists _, call. split; [done|]. simpl. do 2 (split; [done|]). by rewrite list_lookup_insert_ne.
  - simpl. intros k2 r2 j2 c2 p [(<- & <- & _)|[_ Hk2]]%list_lookup_insert_Some Hj2 Hw; [|by eapply Hvote].
    simpl in Hj2. apply list_lookup_insert_Some in Hj2 as [(<- & <- & _)|[_ Hj2]]; [|by eapply Hvote].
    by eapply Hvote; [..|apply Hback].
Qed.

Lemma abs_set_call s k j c' r :
  abs (set_call k j c' r s) =
    RaftNet.set_rounds (<[k := RaftNet.mkRound (r_server r) (r_args r) (r_voteNum r)
      (<[j := abs_vcall (answers s) c']> (map (abs_vcall (answers s)) (r_calls r)))]> (RaftNet.rounds (abs s))) (abs s).
Proof. unfold abs, set_call, RaftNet.set_rounds. simpl. rewrite map_insert. unfold abs_round at 1. simpl. by rewrite map_insert. Qed.

(** When the call looks the same before and after, nothing is seen. *)
Lemma abs_set_call_same s k j c c' r :
  rounds s !! k = Some r → r_calls r !! j = Some c → abs_vcall (answers s) c' = abs_vcall (answers s) c →
  abs (set_call k j c' r s) = abs s.
Proof.
  intros Hk Hj Hc. rewrite abs_set_call, Hc.
  rewrite (list_insert_id (map (abs_vcall (answers s)) (r_calls r)) j) by by rewrite lookup_map, Hj. simpl.
  rewrite list_insert_id by by rewrite lookup_map, Hk. done.
Qed.

Lemma inv_set_beat s k b c' :
  inv s → beats s !! k = Some b → b_call b ≠ BDone →
  (∀ x, bwaits c' = Some x → bwaits (b_call b) = Some x) →
  (∀ x, bwaits (b_call b) = Some x → bwaits c' = Some x ∨ c' = BDone ∧ answered s x.2) →
  inv (set_beat k c' b s).
Proof.
  intros Hi Hk Hd Hback Hforth. pose proof (i_caller _ Hi) as Hcaller. pose proof (i_beat _ Hi) as Hbeat.
  pose proof (lookup_lt_Some _ _ _ Hk) as Hlk. destruct Hi. constructor; try done.
  - intros p [k2 i2 j2 args2|k2 i2 j2 args2] Hc; apply Hcaller in Hc; [done|].
    destruct Hc as (b2 & Hk2 & Hs & Hj & Hw). simpl.
    destruct (decide (k = k2)) as [<-|Hne]; [|by exists b2; rewrite list_lookup_insert_ne].
    simplify_eq. rewrite list_lookup_insert_eq by done. eexists. split; [done|]. simpl. do 2 (split; [done|]).
    destruct Hw as [Hw|[? _]]; [by apply Hforth in Hw|done].
  - simpl. intros k2 b2 args p [(<- & <- & _)|[_ Hk2]]%list_lookup_insert_Some Hw; [|by eapply Hbeat].
    by eapply Hbeat; [..|apply Hback].
Qed.

Lemma abs_set_beat s k b c' :
  abs (set_beat k c' b s) =
    RaftNet.set_beats (<[k := RaftNet.mkBeat (b_server b) (b_peer b) (abs_bcall (answers s) c')]> (RaftNet.beats (abs s))) (abs s).
Proof. unfold abs, set_beat, RaftNet.set_beats. simpl. by rewrite map_insert. Qed.

Lemma abs_set_beat_same s k b c' :
  beats s !! k = Some b → abs_bcall (answers s) c' = abs_bcall (answers s) (b_call b) → abs (set_beat k c' b s) = abs s.
Proof. intros Hk Hc. rewrite abs_set_beat, Hc. simpl. rewrite list_insert_id by by rewrite lookup_map, Hk. done. Qed.

(** ** Calls *)

Lemma answer_fresh s : answer (answers s) (List.length (Labrpc.procs (rpc s))) = None.
Proof. unfold answer, answers. by rewrite lookup_map, lookup_ge_None_2. Qed.

Lemma returned_answer s p bytes : inv s → returned p s = Some (Some bytes) → answer (answers s) p = Some bytes.
Proof.
  intros Hi (pr & Hp & Hr)%bind_Some. pose proof (LabrpcSpec.po_main _ (i_rpc _ Hi p pr Hp)) as Hm.
  unfold LabrpcSpec.main_ok in Hm. destruct (Labrpc.p_sent pr) as [|r [|]] eqn:Hs; try done. injection Hr as Hr.
  unfold Labrpc.Call_result in Hr. destruct (Labrpc.ok r) eqn:Hok; [|done]. injection Hr as <-.
  destruct (Labrpc.p_main pr); try (by destruct Hm).
  destruct Hm as (r' & [= <-] & [->|He]); [done|].
  unfold answer, answers. rewrite lookup_map, Hp. simpl. unfold answer_of. by rewrite He.
Qed.

(** A request is handed over to the network. *)
Definition called (c : caller (C := C)) (r : Labrpc.sys Name world) s : state := set_callers (callers s ++ [c]) (set_rpc r s).

Record called_spec (c : caller (C := C)) (r : Labrpc.sys Name world) s : Prop := {
  cs_ok : LabrpcSpec.sys_ok r;
  cs_world : Labrpc.world r = Labrpc.world (rpc s);
  cs_heap : Labrpc.heap r = Labrpc.heap (rpc s);
  cs_conn : Labrpc.connections (Labrpc.net r) = Labrpc.connections (Labrpc.net (rpc s));
  cs_serv : Labrpc.servers (Labrpc.net r) = Labrpc.servers (Labrpc.net (rpc s));
  cs_procs : Forall2 proc_for (callers s ++ [c]) (Labrpc.procs r);
  cs_answer : ∀ p, answer (map answer_of (Labrpc.procs r)) p = answer (answers s) p;
}.

Lemma call_called c r s refused : inv s → Labrpc.Call refused (req_of c) (rpc s) = Some r → called_spec c r s.
Proof.
  intros Hi Hc. assert (Labrpc.exec (Labrpc.LCall (req_of c)) (rpc s) = Some r) as Hx.
  { revert Hc. simpl. unfold Labrpc.Call. rewrite andb_false_r. by destruct (_ && _). }
  pose proof (LabrpcSpec.exec_ok _ _ _ (i_rpc _ Hi) Hx) as Hok.
  unfold Labrpc.Call in Hc. destruct (_ && _); [done|]. injection Hc as <-. constructor; try done; simpl.
  - apply Forall2_app; [apply Hi|]. constructor; [|constructor]. constructor; [done|]. by intros m [(? & ? & ? & ?)|?].
  - intros p. rewrite map_app. simpl. apply answer_app.
Qed.

(** Nothing is seen of it, whatever else the caller notes down. *)
Lemma abs_called c r s rs bs :
  called_spec c r s → abs (mkState r (callers s ++ [c]) rs bs (starts s)) = abs (mkState (rpc s) (callers s) rs bs (starts s)).
Proof.
  intros Hc. apply abs_same; try done; [unfold nodes; simpl; by rewrite (cs_world _ _ _ Hc)|]. intros p.
  apply (cs_answer _ _ _ Hc).
Qed.

Lemma wired_called c r s : inv s → called_spec c r s → wired (Labrpc.net r).
Proof.
  intros Hi Hc. destruct (i_wired _ Hi) as [Hcn Hsv]. constructor.
  - intros i j sn Hn. rewrite (cs_conn _ _ _ Hc) in Hn. by eapply Hcn.
  - intros j m Hs. rewrite (cs_serv _ _ _ Hc) in Hs. by eapply Hsv.
Qed.

Lemma heap_called c r s :
  inv s → called_spec c r s →
  ∀ j rs, Labrpc.heap r !! j = Some rs → Labrpc.services rs = Labrpc.services (raft_server (C := C) j).
Proof. intros Hi Hc j rs Hj. rewrite (cs_heap _ _ _ Hc) in Hj. by apply (i_heap _ Hi). Qed.

Lemma inv_vote_called k j r args rp s :
  let p := List.length (Labrpc.procs (rpc s)) in let c := CVote k (r_server r) j args in
  inv s → rounds s !! k = Some r → r_args r = Some args → r_calls r !! j = Some VNotSent → j ≠ r_server r →
  called_spec c rp s → inv (set_call k j (VSent p) r (called c rp s)).
Proof.
  intros p c Hi Hk Hargs Hj Hij Hc. pose proof (Forall2_length _ _ _ (i_procs _ Hi)) as Hlen.
  pose proof (lookup_lt_Some _ _ _ Hk) as Hlk. pose proof (lookup_lt_Some _ _ _ Hj) as Hlj.
  constructor; simpl; [apply Hc|rewrite (cs_world _ _ _ Hc); apply Hi|by eapply heap_called|by eapply wired_called|apply Hc| | |].
  - intros q c2 [Hq|[Hge Hq]]%lookup_app_Some.
    + pose proof (i_caller _ Hi q c2 Hq) as Hok. destruct c2 as [k2 i2 j2 args2|k2 i2 j2 args2]; simpl in *.
      * destruct Hok as (Hij2 & r2 & call & Hk2 & Hs2 & Ha2 & Hcall & Hw). split; [done|].
        assert (vwaits call = Some q ∨ (∃ b, call = VDone b) ∧ answered (set_call k j (VSent p) r (called c rp s)) q) as Hw'.
        { destruct Hw as [?|[? Ha]]; [by left|right]. split; [done|]. unfold answered, answers. simpl.
          by rewrite (cs_answer _ _ _ Hc). }
        destruct (decide (k = k2)) as [<-|]; [|by exists r2, call; rewrite list_lookup_insert_ne].
        simplify_eq. rewrite list_lookup_insert_eq by done. eexists _, call. split; [done|]. simpl. do 2 (split; [done|]).
        rewrite list_lookup_insert_ne; [done|]. intros <-. simplify_eq. by destruct Hw as [?|[[? ?] _]].
      * destruct Hok as (b & Hk2 & Hs2 & Hj2 & Hw). exists b. do 3 (split; [done|]). destruct Hw as [?|[? Ha]]; [by left|right].
        split; [done|]. unfold answered, answers. simpl. by rewrite (cs_answer _ _ _ Hc).
    + apply list_lookup_singleton_Some in Hq as [Hq <-]. simpl. split; [done|].
      rewrite list_lookup_insert_eq by done. eexists _, (VSent p). split; [done|]. simpl. do 2 (split; [done|]).
      rewrite list_lookup_insert_eq by done. split; [done|]. left. simpl. f_equal. unfold p. lia.
  - intros k2 r2 j2 c2 q [(<- & <- & _)|[_ Hk2]]%list_lookup_insert_Some Hj2 Hw.
    + simpl in Hj2. apply list_lookup_insert_Some in Hj2 as [(<- & <- & _)|[_ Hj2]].
      * simpl in Hw. injection Hw as <-. exists (r_server r), args. unfold p. rewrite <-Hlen. by apply list_lookup_middle.
      * destruct (i_vote _ Hi k r j2 c2 q Hk Hj2 Hw) as (i' & a' & Hq). exists i', a'. by apply lookup_app_l_Some.
    + destruct (i_vote _ Hi k2 r2 j2 c2 q Hk2 Hj2 Hw) as (i' & a' & Hq). exists i', a'. by apply lookup_app_l_Some.
  - intros k2 b args2 q Hk2 Hw. destruct (i_beat _ Hi k2 b args2 q Hk2 Hw) as (i' & j' & Hq).
    exists i', j'. by apply lookup_app_l_Some.
Qed.

Lemma inv_beat_called k b args rp s :
  let p := List.length (Labrpc.procs (rpc s)) in let c := CBeat k (b_server b) (b_peer b) args in
  inv s → beats s !! k = Some b → b_call b = BBuilt args →
  called_spec c rp s → inv (set_beat k (BSent args p) b (called c rp s)).
Proof.
  intros p c Hi Hk Hb Hc. pose proof (Forall2_length _ _ _ (i_procs _ Hi)) as Hlen.
  pose proof (lookup_lt_Some _ _ _ Hk) as Hlk.
  constructor; simpl; [apply Hc|rewrite (cs_world _ _ _ Hc); apply Hi|by eapply heap_called|by eapply wired_called|apply Hc| | |].
  - intros q c2 [Hq|[Hge Hq]]%lookup_app_Some.
    + pose proof (i_caller _ Hi q c2 Hq) as Hok. destruct c2 as [k2 i2 j2 args2|k2 i2 j2 args2]; simpl in *.
      * destruct Hok as (Hij2 & r2 & call & Hk2 & Hs2 & Ha2 & Hcall & Hw). split; [done|]. exists r2, call.
        do 4 (split; [done|]). destruct Hw as [?|[? Ha]]; [by left|right]. split; [done|]. unfold answered, answers. simpl.
        by rewrite (cs_answer _ _ _ Hc).
      * destruct Hok as (b2 & Hk2 & Hs2 & Hj2 & Hw). exists b2.
        rewrite list_lookup_insert_ne; [|intros <-; simplify_eq; rewrite Hb in Hw; by destruct Hw as [?|[? _]]].
        do 3 (split; [done|]). destruct Hw as [?|[? Ha]]; [by left|right]. split; [done|]. unfold answered, answers. simpl.
        by rewrite (cs_answer _ _ _ Hc).
    + apply list_lookup_singleton_Some in Hq as [Hq <-]. simpl. rewrite list_lookup_insert_eq by done. eexists.
      split; [done|]. simpl. do 2 (split; [done|]). left. f_equal. f_equal. unfold p. lia.
  - intros k2 r2 j2 c2 q Hk2 Hj2 Hw. destruct (i_vote _ Hi k2 r2 j2 c2 q Hk2 Hj2 Hw) as (i' & a' & Hq).
    exists i', a'. by apply lookup_app_l_Some.
  - intros k2 b2 args2 q [(<- & <- & _)|[_ Hk2]]%list_lookup_insert_Some Hw.
    + simpl in Hw. injection Hw as <- <-. exists (b_server b), (b_peer b). unfold p. rewrite <-Hlen. by apply list_lookup_middle.
    + destruct (i_beat _ Hi k2 b2 args2 q Hk2 Hw) as (i' & j' & Hq). exists i', j'. by apply lookup_app_l_Some.
Qed.

(** ** Every step is a step of RaftNet.v or none *)

Definition simulates l s s' : Prop := RaftNet.run (emit l s) (abs s) = Some (abs s') ∧ inv s'.

Lemma run_one lb (n n' : RaftNet.net C) : RaftNet.exec lb n = Some n' → RaftNet.run [lb] n = Some n'.
Proof. intros Hx. simpl. by rewrite Hx. Qed.

Lemma sim_vote_send s s' k j refused :
  inv s → exec (RVoteSend k j refused) s = Some s' → simulates (RVoteSend k j refused) s s'.
Proof.
  intros Hi Hx. simpl in Hx. apply bind_Some in Hx as (r & Hk & Hx). apply bind_Some in Hx as (args & Ha & Hx).
  apply bind_Some in Hx as (c & Hj & Hx). destruct c; try done. destruct (decide (j = r_server r)) as [|Hij]; [done|].
  unfold simulates. simpl. destruct (Labrpc.Call _ _ _) as [rp|] eqn:Hc; injection Hx as <-.
  - pose proof (call_called (CVote k (r_server r) j args) rp s refused Hi Hc) as Hcs. split; [|by apply inv_vote_called]. f_equal.
    symmetry. unfold set_call, set_callers, set_rpc, set_rounds. simpl. rewrite (abs_called _ _ _ _ _ Hcs).
    change (abs (set_call k j (VSent (List.length (Labrpc.procs (rpc s)))) r s) = abs s).
    eapply abs_set_call_same; [done..|]. simpl. by rewrite answer_fresh.
  - split; [f_equal; symmetry; by eapply abs_set_call_same|]. by eapply (inv_set_call s k j VNotSent (VFailed None) r (r_voteNum r)).
Qed.

Lemma sim_vote_return s s' k j : inv s → exec (RVoteReturn k j) s = Some s' → simulates (RVoteReturn k j) s s'.
Proof.
  intros Hi Hx. simpl in Hx. apply bind_Some in Hx as (r & Hk & Hx). apply bind_Some in Hx as (args & Ha & Hx).
  apply bind_Some in Hx as (c & Hj & Hx). apply bind_Some in Hx as (rf & Hn & Hx). destruct c as [|p| |]; try done.
  apply bind_Some in Hx as (res & Hret & Hx). unfold simulates, emit. rewrite Hk. simpl (Some r ≫= _). rewrite Hj.
  unfold succeeded. rewrite Hret. destruct res as [bytes|].
  - apply bind_Some in Hx as (reply & Hdec & Hx). pose proof (returned_answer s p bytes Hi Hret) as Hans.
    destruct (vote_reply args reply rf (r_voteNum r)) as [[rf' num] leader] eqn:Hv.
    set (call := VDone (negb (bool_decide (num = r_voteNum r)))) in *.
    set (s2 := set_call k j call (mkRound (r_server r) (r_args r) num (r_calls r)) (set_node (r_server r) rf' s)) in *.
    assert (inv s2) as Hi2.
    { apply (inv_set_call (set_node (r_server r) rf' s) k j (VSent p) call r num); try done; [by apply inv_set_node|].
      intros q [= <-]. right. split; [by eexists|]. unfold answered. change (answers (set_node _ _ s)) with (answers s).
      by rewrite Hans. }
    assert (RaftNet.exec (RaftNet.LVoteReply k j) (abs s) = Some (if leader then RaftNet.spawn_beats (r_server r) (abs s2) else abs s2)) as Hstep.
    { simpl. rewrite lookup_map, Hk. simpl. rewrite Ha. simpl. rewrite lookup_map, Hj. simpl. rewrite Hn. simpl.
      rewrite Hans. simpl. rewrite Hdec, Hv. unfold s2. rewrite abs_set_call. simpl. rewrite Ha. unfold call.
      by destruct (decide (num = r_voteNum r)) as [->|Hne]; [rewrite bool_decide_true by done|rewrite bool_decide_false by done]. }
    destruct leader; injection Hx as <-.
    + split; [|by apply inv_spawn]. apply run_one. by rewrite Hstep, abs_spawn.
    + split; [|done]. by apply run_one.
  - injection Hx as <-. split; [simpl; f_equal; symmetry; by eapply abs_set_call_same|].
    apply (inv_set_call s k j (VSent p) (VFailed (Some p)) r (r_voteNum r)); try done. intros q. by left.
Qed.

Lemma sim_beat_send s s' k refused : inv s → exec (RBeatSend k refused) s = Some s' → simulates (RBeatSend k refused) s s'.
Proof.
  intros Hi Hx. simpl in Hx. apply bind_Some in Hx as (b & Hk & Hx). destruct (b_call b) as [|args| | |] eqn:Hb; try done.
  unfold simulates. simpl. destruct (Labrpc.Call _ _ _) as [rp|] eqn:Hc; injection Hx as <-.
  - pose proof (call_called (CBeat k (b_server b) (b_peer b) args) rp s refused Hi Hc) as Hcs. split; [|by apply inv_beat_called]. f_equal.
    symmetry. unfold set_beat, set_callers, set_rpc, set_beats. simpl. rewrite (abs_called _ _ _ _ _ Hcs).
    change (abs (set_beat k (BSent args (List.length (Labrpc.procs (rpc s)))) b s) = abs s).
    apply abs_set_beat_same; [done|]. rewrite Hb. simpl. by rewrite answer_fresh.
  - split; [f_equal; symmetry; apply abs_set_beat_same; [done|by rewrite Hb]|].
    by apply inv_set_beat; rewrite ?Hb.
Qed.

Lemma sim_beat_return s s' k : inv s → exec (RBeatReturn k) s = Some s' → simulates (RBeatReturn k) s s'.
Proof.
  intros Hi Hx. simpl in Hx. apply bind_Some in Hx as (b & Hk & Hx). apply bind_Some in Hx as (rf & Hn & Hx).
  destruct (b_call b) as [| |args p| |] eqn:Hb; try done.
  apply bind_Some in Hx as (res & Hret & Hx). unfold simulates, emit. rewrite Hk. simpl (_ <$> Some b). rewrite Hb.
  unfold succeeded. rewrite Hret. destruct res as [bytes|].
  - apply bind_Some in Hx as (reply & Hdec & Hx). apply bind_Some in Hx as (rf' & Hr & [= <-]).
    pose proof (returned_answer s p bytes Hi Hret) as Hans. split.
    + apply run_one. simpl. rewrite lookup_map, Hk. simpl. rewrite Hn. simpl. rewrite Hb. simpl. rewrite Hans. simpl.
      rewrite Hdec, Hr. simpl. by rewrite abs_set_beat.
    + apply inv_set_beat; rewrite ?Hb; try done; [by apply inv_set_node|]. intros x [= <-]. right. split; [done|].
      unfold answered. change (answers (set_node _ _ s)) with (answers s). simpl. by rewrite Hans.
  - injection Hx as <-. split; [simpl; f_equal; symmetry; apply abs_set_beat_same; [done|by rewrite Hb]|].
    apply inv_set_beat; rewrite ?Hb; try done. intros x. by left.
Qed.

(** The steps of the servers themselves are the same in both. *)
Lemma sim_local s s' l :
  match l with
  | RElect _ | RVoteArgs _ | RBeat _ | RBeatArgs _ | RStartCheck _ _ | RStartAppend _ | RApply _ => True
  | _ => False
  end → inv s → exec l s = Some s' → simulates l s s'.
Proof.
  intros Hl Hi Hx. unfold simulates. destruct l as [|?|i|k|k j|k j|i|k|k|k|i c|k|i]; try done; cbn [exec emit] in *.
  - apply bind_Some in Hx as (rf & Hn & Hx). destruct (startElection rf) as [rf' go] eqn:He.
    assert (RaftNet.exec (RaftNet.LElect i) (abs s) = Some (abs s')) as Hs.
    { simpl. rewrite Hn. simpl. rewrite He. destruct go; injection Hx as <-; [|done]. unfold abs. simpl. by rewrite map_app. }
    split; [by apply run_one|]. destruct go; injection Hx as <-; [|by apply inv_set_node].
    apply (inv_new_round (set_node i rf' s)). by apply inv_set_node.
  - apply bind_Some in Hx as (r & Hk & Hx). apply bind_Some in Hx as (rf & Hn & Hx).
    destruct (r_args r) as [|] eqn:Ha; [done|]. apply bind_Some in Hx as (args & Hv & [= <-]).
    split; [|by apply inv_args]. apply run_one. simpl. rewrite lookup_map, Hk. simpl. rewrite Hn. simpl. rewrite Ha, Hv.
    simpl. f_equal. unfold abs, RaftNet.set_rounds. simpl. rewrite map_insert. unfold abs_round at 2. simpl. f_equal. f_equal.
    f_equal. apply list_eq. intros j. rewrite lookup_map. destruct (decide (j < List.length (nodes s))%nat) as [Hlt|Hge].
    + by rewrite !lookup_replicate_2.
    + by rewrite !lookup_ge_None_2 by (rewrite length_replicate; lia).
  - apply bind_Some in Hx as (rf & Hn & Hx). destruct (GetState rf).2 eqn:Hg; [|done]. injection Hx as <-.
    split; [|by apply inv_spawn]. apply run_one. simpl. rewrite Hn. simpl in *. by rewrite Hg, abs_spawn.
  - apply bind_Some in Hx as (b & Hk & Hx). apply bind_Some in Hx as (rf & Hn & Hx).
    destruct (b_call b) eqn:Hb; try done. apply bind_Some in Hx as (args & Hh & [= <-]).
    split; [|by apply inv_set_beat; rewrite ?Hb]. apply run_one. simpl. rewrite lookup_map, Hk. simpl. rewrite Hn. simpl.
    rewrite Hb. simpl. rewrite Hh. simpl. by rewrite abs_set_beat.
  - apply bind_Some in Hx as (rf & Hn & Hx). destruct (GetState rf) as [term []] eqn:Hg; injection Hx as <-; injection Hg as <- Hg.
    + split; [|by apply inv_starts]. apply run_one. simpl. rewrite Hn. simpl. by rewrite Hg.
    + split; [|done]. apply run_one. simpl. rewrite Hn. simpl. by rewrite Hg.
  - apply bind_Some in Hx as (o & Hk & Hx). apply bind_Some in Hx as (p & -> & Hx). apply bind_Some in Hx as (rf & Hn & Hx).
    destruct (Start_append _ _ rf) as [rf' x] eqn:Hst. injection Hx as <-.
    split; [|by apply inv_spawn, inv_starts, inv_set_node]. apply run_one. simpl. rewrite Hk. simpl. rewrite Hn. simpl.
    unfold Start_append in Hst. injection Hst as <- _. by rewrite abs_spawn.
  - apply bind_Some in Hx as (rf & Hn & Hx). apply bind_Some in Hx as ([rf' msg] & Ha & [= <-]).
    split; [|by apply inv_set_node]. apply run_one. simpl. rewrite Hn. simpl. by rewrite Ha.
Qed.

Lemma simulation s s' l : inv s → exec l s = Some s' → simulates l s s'.
Proof.
  intros Hi Hx. destruct l as [o|l|i|k|k j|k j|i|k|k|k|i c|k|i];
    first [by apply sim_vote_send|by apply sim_vote_return|by apply sim_beat_send|by apply sim_beat_return|by apply sim_local|idtac].
  - simpl in Hx. apply bind_Some in Hx as (rn & Hn & [= <-]). destruct (sim_net s o rn Hi Hn) as [Ha Hi'].
    split; [simpl; by rewrite Ha|done].
  - simpl in Hx. pose proof (exec_rpc_Some l s s' Hx) as (r & _ & _ & _ & [Hint|[p ->]]); [|by apply sim_handle].
    destruct (sim_internal s s' l Hi Hint Hx) as [Ha Hi']. split; [|done]. rewrite Ha. by destruct l.
Qed.
End proof.

End RaftRpcProof.
