(* ===== verification/RaftRpcSpec.v ===== *)
(** What a Raft cluster over labrpc guarantees: it refines the cluster of
    RaftNet.v, so that the theorems of RaftSpec.v and RaftCommitSpec.v hold of it,
    with a concrete run in which a request is lost. *)

From Stdlib Require Import Ascii.
From S2P Require Import Prelude GoStd Raft RaftProof RaftNet RaftSafety RaftLog RaftSpec RaftCommitSpec Labrpc LabrpcSpec RaftRpc RaftRpcProof.

#[local] Open Scope Z_scope.

Module RaftRpcSpec.
Export RaftRpcProof.

Section refinement.
Context {C : Type} `{Gob VoteArgs} `{Gob VoteReply} `{Gob (AppendEntriesArgs C)} `{Gob AppendEntriesReply}.
Context {Name : Type} `{Countable Name} (peer : nat → nat → Name) (srv : nat → Name).
Context `{!Inj2 (=) (=) (=) peer} `{!Inj (=) (=) srv}.

Abbreviation state := (RaftRpc.state (C := C) (Name := Name)).
Abbreviation label := (RaftRpc.label (C := C) (Name := Name)).

Implicit Types (s : state) (ls : list label).

Lemma net_run_app (ls1 ls2 : list (RaftNet.label C)) (s : RaftNet.net C) : RaftNet.run (ls1 ++ ls2) s = RaftNet.run ls1 s ≫= RaftNet.run ls2.
Proof. revert s. induction ls1 as [|l ls1 IH]; intros s; simpl; [done|]. destruct (RaftNet.exec l s); simpl; [apply IH|done]. Qed.

Lemma init_state_inv n : inv peer srv (init_state (C := C) (Name := Name) n).
Proof.
  constructor; try done.
  intros j rs Hj. simpl in Hj. rewrite lookup_map in Hj. apply fmap_Some in Hj as (k & Hk & ->).
  by apply lookup_seq in Hk as [-> _].
Qed.

Lemma init_abs n : abs (init_state (C := C) (Name := Name) n) = RaftNet.init_net n.
Proof. done. Qed.

(** A step is at most one step of RaftNet.v, and delivers the same. *)
Lemma emit_cases l s :
  match emit l s with
  | [] => delivered l s = None
  | [lb] => delivered l s = RaftCommitSpec.delivered lb (abs s)
  | _ => False
  end.
Proof. destruct l as [|l|i|k|k j|k j|i|k|k|k|i c|k|i]; simpl; try done; [destruct l; try done|..]; repeat case_match; by simplify_eq. Qed.

Lemma run_trace ls s s' :
  inv peer srv s → run peer srv ls s = Some s' →
  RaftNet.run (trace peer srv ls s) (abs s) = Some (abs s') ∧ inv peer srv s' ∧
  deliveries peer srv ls s = RaftCommitSpec.deliveries (trace peer srv ls s) (abs s).
Proof.
  revert s. induction ls as [|l ls IH]; intros s Hi Hr; simpl in *; [by injection Hr as <-|].
  apply bind_Some in Hr as (s1 & Hx & Hr). rewrite Hx. destruct (simulation peer srv s s1 l Hi Hx) as [Hsim Hi1].
  destruct (IH s1 Hi1 Hr) as (Hrun & Hi' & Hdel). split; [by rewrite net_run_app, Hsim|]. split; [done|].
  rewrite Hdel. clear Hdel Hrun IH Hr. revert Hsim. generalize (trace peer srv ls s1) (abs s1). intros tr a1 Hsim.
  pose proof (emit_cases l s) as He. destruct (emit l s) as [|lb [|]]; [| |done].
  - injection Hsim as <-. by rewrite He.
  - simpl in Hsim. destruct (RaftNet.exec lb (abs s)) as [a|] eqn:Hlb; [|done]. injection Hsim as ->. simpl.
    by rewrite Hlb, He.
Qed.
End refinement.

(** ** A codec with the contract of [Gob]

    A value is numbered, and the number written in binary. *)

Fixpoint digits (p : positive) : string :=
  match p with xH => "" | xO p => String "0" (digits p) | xI p => String "1" (digits p) end.
Fixpoint undigits (s : string) : positive :=
  match s with
  | EmptyString => 1
  | String a s => if Ascii.eqb a "0" then xO (undigits s) else xI (undigits s)
  end.

Lemma undigits_digits p : undigits (digits p) = p.
Proof. induction p as [p IH|p IH|]; simpl; by rewrite ?IH. Qed.

Definition counted `{Countable A} : Gob A.
Proof.
  refine {| gob_encode a := digits (encode a); gob_decode s := decode (undigits s) |}.
  intros a. by rewrite undigits_digits, decode_encode.
Defined.

#[local] Instance vote_args_eq_dec : EqDecision VoteArgs.
Proof. solve_decision. Defined.
#[local] Instance vote_args_countable : Countable VoteArgs :=
  inj_countable' (λ a, (rv_Term a, rv_CandidateId a, rv_LastLogIndex a, rv_LastLogTerm a)) (λ '(a, b, c, d), mkVoteArgs a b c d)
    (λ '(mkVoteArgs _ _ _ _), eq_refl).
#[local] Instance vote_reply_eq_dec : EqDecision VoteReply.
Proof. solve_decision. Defined.
#[local] Instance vote_reply_countable : Countable VoteReply :=
  inj_countable' (λ r, (rvr_Term r, rvr_VoteGranted r)) (λ '(a, b), mkVoteReply a b) (λ '(mkVoteReply _ _), eq_refl).
#[local] Instance log_eq_dec : EqDecision (Log string).
Proof. solve_decision. Defined.
#[local] Instance log_countable : Countable (Log string) :=
  inj_countable' (λ e, (Entry e, Term e)) (λ '(a, b), mkLog a b) (λ '(mkLog _ _), eq_refl).
#[local] Instance append_args_eq_dec : EqDecision (AppendEntriesArgs string).
Proof. solve_decision. Defined.
#[local] Instance append_args_countable : Countable (AppendEntriesArgs string) :=
  inj_countable' (λ a, (ae_Term a, ae_LeaderId a, ae_PrevLogIndex a, ae_PrevLogTerm a, ae_Entries a, ae_LeaderCommit a))
    (λ '(a, b, c, d, e, f), mkAppendEntriesArgs a b c d e f) (λ '(mkAppendEntriesArgs _ _ _ _ _ _), eq_refl).
#[local] Instance append_reply_eq_dec : EqDecision AppendEntriesReply.
Proof. solve_decision. Defined.
#[local] Instance append_reply_countable : Countable AppendEntriesReply :=
  inj_countable' (λ r, (aer_Term r, aer_Success r)) (λ '(a, b), mkAppendEntriesReply a b) (λ '(mkAppendEntriesReply _ _), eq_refl).

#[local] Instance vote_args_gob : Gob VoteArgs := counted.
#[local] Instance vote_reply_gob : Gob VoteReply := counted.
#[local] Instance append_args_gob : Gob (AppendEntriesArgs string) := counted.
#[local] Instance append_reply_gob : Gob AppendEntriesReply := counted.

(** ** A concrete run: three servers *)

Definition end_name : Type := (nat * nat) + nat.
Definition end_of (i j : nat) : end_name := inl (i, j).
Definition server_name (j : nat) : end_name := inr j.

#[local] Instance end_of_inj : Inj2 (=) (=) (=) end_of.
Proof. by intros i j i' j' [= -> ->]. Qed.
#[local] Instance server_name_inj : Inj (=) (=) server_name.
Proof. by intros j j' [= ->]. Qed.

Definition step3 : Type := RaftRpc.label (C := string) (Name := end_name).

(** Ends and servers are registered as the test code does. *)
Definition wire : list step3 :=
  map (λ j, RNet (NAddServer j)) (seq 0 3) ++
  flat_map (λ i, flat_map (λ j, [RNet (NMakeEnd i j); RNet (NConnect i j); RNet (NEnable i j true)]) (seq 0 3)) (seq 0 3).

(** A request travels, is handled, and its reply travels back; or is lost. *)
Definition travels (p : nat) : list step3 :=
  map RRpc [Labrpc.LRead p; Labrpc.LDelay p false; Labrpc.LHandle p; Labrpc.LReceive p; Labrpc.LFinal p false; Labrpc.LSend p].
Definition lost (p : nat) : list step3 := map RRpc [Labrpc.LRead p; Labrpc.LDelay p true; Labrpc.LSend p].

(** Server 0 is elected by server 1 while its request to server 2 is lost,
    replicates "a" on server 1, commits it, and tells server 1. *)
Definition sample_run : list step3 :=
  wire ++ [RNet (NReliable false); RElect 0; RVoteArgs 0; RVoteSend 0 1 false; RVoteSend 0 2 false] ++
  travels 0 ++ lost 1 ++ [RVoteReturn 0 2; RVoteReturn 0 1; RStartCheck 0 "a"; RStartAppend 0; RBeatArgs 2; RBeatSend 2 false] ++
  travels 2 ++ [RBeatReturn 2; RApply 0; RBeat 0; RBeatArgs 4; RBeatSend 4 false] ++ travels 3 ++ [RApply 1].

Definition trace3 (ls : list step3) := trace end_of server_name ls (init_state 3).
Definition sample_end : RaftRpc.state (C := string) (Name := end_name) :=
  default (init_state 3) (run end_of server_name sample_run (init_state 3)).

Lemma is_some_default {A} (o : option A) d : bool_decide (is_Some o) = true → o = Some (default d o).
Proof. by destruct o. Qed.

Lemma sample_run_ends : run end_of server_name sample_run (init_state 3) = Some sample_end.
Proof. apply is_some_default. by vm_compute. Qed.

(** ** The theorems *)

(** C5: Raft over labrpc refines the cluster of RaftNet.v: a run of the servers,
    their calling goroutines and the simulated network, with requests and
    replies lost, delayed and reordered, ends disabled and servers deleted at any
    time, is a run of RaftNet.v in which some requests are handled and some
    replies processed, each at most once and by the peer it was sent to; the
    servers' states and what the appliers deliver are the same. *)
Theorem raft_over_labrpc_refines {C} `{Gob VoteArgs} `{Gob VoteReply} `{Gob (AppendEntriesArgs C)} `{Gob AppendEntriesReply}
    `{Countable Name} (peer : nat → nat → Name) (srv : nat → Name) `{!Inj2 (=) (=) (=) peer} `{!Inj (=) (=) srv}
    n (ls : list (RaftRpc.label (C := C) (Name := Name))) s :
  run peer srv ls (init_state n) = Some s →
  let tr := trace peer srv ls (init_state n) in
  RaftNet.run tr (RaftNet.init_net n) = Some (abs s) ∧ RaftNet.nodes (abs s) = nodes s ∧
  deliveries peer srv ls (init_state n) = RaftCommitSpec.deliveries tr (RaftNet.init_net n).
Proof.
  intros Hr tr. destruct (run_trace peer srv ls (init_state n) s (init_state_inv peer srv n) Hr) as (Hrun & _ & Hdel).
  split; [exact Hrun|]. split; [done|exact Hdel].
Qed.

Lemma raft_over_labrpc_refines_witness :
  (List.length (trace3 sample_run) = 14)%nat ∧
  let tr := trace end_of server_name sample_run (init_state 3) in
  RaftNet.run tr (RaftNet.init_net 3) = Some (abs sample_end) ∧ RaftNet.nodes (abs sample_end) = nodes sample_end ∧
  deliveries end_of server_name sample_run (init_state 3) = RaftCommitSpec.deliveries tr (RaftNet.init_net 3).
Proof.
  split; [by vm_compute|].
  exact (raft_over_labrpc_refines end_of server_name 3 sample_run sample_end sample_run_ends).
Defined.

(** C14: So Raft is safe over labrpc, whatever the network does: in a run whose
    critical sections meet the assumptions of RaftCommitSpec.v, two messages that
    any appliers deliver for the same index carry the same command, and a term
    has at most one leader. *)
Theorem raft_over_labrpc_safe {C} `{Gob VoteArgs} `{Gob VoteReply} `{Gob (AppendEntriesArgs C)} `{Gob AppendEntriesReply}
    `{Countable Name} (peer : nat → nat → Name) (srv : nat → Name) `{!Inj2 (=) (=) (=) peer} `{!Inj (=) (=) srv}
    n (ls : list (RaftRpc.label (C := C) (Name := Name))) s :
  run peer srv ls (init_state n) = Some s →
  RaftCommitSpec.steady_run (trace peer srv ls (init_state n)) (RaftNet.init_net n) →
  (∀ i j m1 m2, (i, m1) ∈ deliveries peer srv ls (init_state n) → (j, m2) ∈ deliveries peer srv ls (init_state n) →
     CommandIndex m1 = CommandIndex m2 → Command m1 = Command m2) ∧
  (∀ i j t, leads s i t → leads s j t → i = j).
Proof.
  intros Hr Hst. destruct (run_trace peer srv ls (init_state n) s (init_state_inv peer srv n) Hr) as (Hrun & _ & Hdel). split.
  - intros i j m1 m2. rewrite Hdel. by apply (RaftCommitSpec.delivered_agree n _ (abs s)).
  - intros i j t. apply (RaftSpec.same_leader n (trace peer srv ls (init_state n)) (abs s)); [|exact Hrun].
    by apply RaftLog.careful_timely, RaftCommitSpec.steady_careful.
Qed.

Lemma raft_over_labrpc_safe_witness :
  deliveries end_of server_name sample_run (init_state 3) =
    [(0%nat, mkApplyMsg true (Some "a") 1); (1%nat, mkApplyMsg true (Some "a") 1)] ∧
  (∀ i j m1 m2, (i, m1) ∈ deliveries end_of server_name sample_run (init_state 3) →
     (j, m2) ∈ deliveries end_of server_name sample_run (init_state 3) →
     CommandIndex m1 = CommandIndex m2 → Command m1 = Command m2) ∧
  (∀ i j t, leads sample_end i t → leads sample_end j t → i = j).
Proof.
  split; [by vm_compute|].
  refine (raft_over_labrpc_safe end_of server_name 3 sample_run sample_end sample_run_ends _).
  apply RaftCommitSpec.steady_runb_run. by vm_compute.
Defined.
End RaftRpcSpec.
