(* ===== verification/Harness.v ===== *)
(** What the testers' configurations share: the persister of raft/persister.go on
    a heap, loops over indexes, and sets of RPC ends with fresh random names. *)

From Stdlib Require Import Ascii.
From S2P Require Import Prelude GoStd Labrpc.

#[local] Open Scope Z_scope.

Module Harness.

Export Labrpc.

(** ** raft/persister.go *)

Module Persister.

(** Byte strings are [string]s; [""] also stands for nil. *)
Record Persister := mkPersister {
  raftstate : string;
  snapshot : string;
}.

Definition MakePersister : Persister := mkPersister "" "".
Definition Copy (ps : Persister) : Persister := mkPersister (raftstate ps) (snapshot ps).
Definition SaveRaftState (state : string) (ps : Persister) : Persister := mkPersister state (snapshot ps).
Definition ReadRaftState (ps : Persister) : string := raftstate ps.
Definition RaftStateSize (ps : Persister) : Z := Z.of_nat (String.length (raftstate ps)).
Definition SaveStateAndSnapshot (state snapshot : string) (ps : Persister) : Persister := mkPersister state snapshot.
Definition ReadSnapshot (ps : Persister) : string := snapshot ps.
Definition SnapshotSize (ps : Persister) : Z := Z.of_nat (String.length (snapshot ps)).

End Persister.
Export Persister.

(** ** Loops *)

(** [for _, j := range js { s = f(j, s) }], where [None] is a panic. *)
Fixpoint for_each {S : Type} (js : list nat) (f : nat → S → option S) (s : S) : option S :=
  match js with
  | [] => Some s
  | j :: js => s ← f j s; for_each js f s
  end.

Lemma for_each_app {S} js1 js2 (f : nat → S → option S) s :
  for_each (js1 ++ js2) f s = s ← for_each js1 f s; for_each js2 f s.
Proof. revert s. induction js1 as [|j js IH]; intros s; simpl; [done|]. destruct (f j s); simpl; auto. Qed.

(** A loop keeps what its body keeps, and succeeds if the body does. *)
Lemma for_each_inv {S} (P : list nat → S → Prop) (f : nat → S → option S) js s :
  P [] s →
  (∀ done j s, done ++ [j] ⊆ js → P done s → ∃ s', f j s = Some s' ∧ P (done ++ [j]) s') →
  ∃ s', for_each js f s = Some s' ∧ P js s'.
Proof.
  intros H0 Hstep.
  assert (∀ rest pre s, P pre s → pre ++ rest ⊆ js → ∃ s', for_each rest f s = Some s' ∧ P (pre ++ rest) s') as Hgen.
  { intros rest. induction rest as [|j rest IH]; intros pre s1 Hp Hin; simpl.
    - exists s1. by rewrite app_nil_r.
    - destruct (Hstep pre j s1) as (s2 & -> & Hs2); [set_solver|done|]. simpl.
      destruct (IH (pre ++ [j]) s2 Hs2) as (s' & ? & Hs'); [set_solver|].
      exists s'. split; [done|]. by rewrite <- app_assoc in Hs'. }
  by apply (Hgen js [] s).
Qed.

(** What holds after a loop that has not failed. *)
Lemma for_each_spec {S} (P : list nat → S → Prop) (f : nat → S → option S) js s s' :
  P [] s → (∀ done j s s', done ++ [j] ⊆ js → P done s → f j s = Some s' → P (done ++ [j]) s') →
  for_each js f s = Some s' → P js s'.
Proof.
  intros H0 Hstep.
  assert (∀ rest pre s, P pre s → pre ++ rest ⊆ js → for_each rest f s = Some s' → P (pre ++ rest) s') as Hgen.
  { intros rest. induction rest as [|j rest IH]; intros pre s1 Hp Hin; simpl.
    - intros [= <-]. by rewrite app_nil_r.
    - intros (s2 & Hs2 & Hr)%bind_Some. rewrite (cons_middle j), app_assoc. eapply IH; [|set_solver|done].
      eapply Hstep; [set_solver|done..]. }
  by apply (Hgen js [] s).
Qed.

Lemma for_each_seq {S} (P : nat → S → Prop) (f : nat → S → option S) N s s' :
  P 0%nat s → (∀ j s s', (j < N)%nat → P j s → f j s = Some s' → P (j + 1)%nat s') →
  for_each (seq 0 N) f s = Some s' → P N s'.
Proof.
  intros H0 Hstep. assert (∀ m s', (m <= N)%nat → for_each (seq 0 m) f s = Some s' → P m s') as Hgen; [|by apply Hgen].
  intros m. induction m as [|m IH]; intros s1 Hm Hf; [by injection Hf as <-|].
  rewrite seq_S, for_each_app in Hf. apply bind_Some in Hf as (s2 & Hf & Hj). simpl in Hj.
  apply bind_Some in Hj as (s3 & Hj & [= <-]). replace (Datatypes.S m) with (m + 1)%nat by lia.
  eapply (Hstep m); [lia|apply IH; [lia|done]|done].
Qed.

Lemma for_each_Some {S} js (f : nat → S → option S) s s' j :
  for_each js f s = Some s' → j ∈ js → ∃ s1 s2, f j s1 = Some s2.
Proof.
  revert s. induction js as [|j' js IH]; intros s; simpl; [by intros _ ?%elem_of_nil|].
  intros (s1 & H1 & H2)%bind_Some [->|Hj]%elem_of_cons; eauto.
Qed.

(** Two lists of switches in turn. *)
Lemma decide_app {A} `{EqDecision A} {B} (e : A) l1 l2 (b c : B) :
  (if decide (e ∈ l2) then b else if decide (e ∈ l1) then b else c) = if decide (e ∈ l1 ++ l2) then b else c.
Proof.
  destruct (decide (e ∈ l2)) as [H2|H2]; [by rewrite decide_True by (apply elem_of_app; by right)|].
  destruct (decide (e ∈ l1)) as [H1|H1]; [by rewrite decide_True by (apply elem_of_app; by left)|].
  rewrite decide_False; [done|]. by intros [?|?]%elem_of_app.
Qed.

(** ** Random strings *)

(** [base64.URLEncoding]: three bytes make four characters, with padding. *)
Definition base64_char (v : Z) : ascii :=
  default "="%char
    (String.get (Z.to_nat (v mod 64)) "ABCDEFGHIJKLMNOPQRSTUVWXYZabcdefghijklmnopqrstuvwxyz0123456789-_").

Fixpoint EncodeToString (src : list Z) : list ascii :=
  match src with
  | x :: y :: z :: src =>
      let val := x * 65536 + y * 256 + z in
      base64_char (val / 262144) :: base64_char (val / 4096) :: base64_char (val / 64) :: base64_char val ::
      EncodeToString src
  | [x; y] =>
      let val := x * 65536 + y * 256 in
      [base64_char (val / 262144); base64_char (val / 4096); base64_char (val / 64); "="%char]
  | [x] =>
      let val := x * 65536 in [base64_char (val / 262144); base64_char (val / 4096); "="%char; "="%char]
  | [] => []
  end.

(** [b] is what [crand.Read] puts into the [2*n] bytes. *)
Definition randstring (n : nat) (b : list Z) : string := String.string_of_list_ascii (take n (EncodeToString b)).

Lemma base64_char_inj v w : base64_char v = base64_char w → v mod 64 = w mod 64.
Proof.
  assert (∀ x, 0 <= x mod 64 < 64) as Hr by (intros; apply Z.mod_pos_bound; lia).
  assert (∀ a b, a ∈ seq 0 64 → b ∈ seq 0 64 → base64_char (Z.of_nat a) = base64_char (Z.of_nat b) → a = b) as Hinj.
  { intros a b Ha Hb. pose (ok := λ a b, bool_decide (base64_char (Z.of_nat a) = base64_char (Z.of_nat b) → a = b)).
    assert (forallb (λ a, forallb (ok a) (seq 0 64)) (seq 0 64) = true) as Hok by by vm_compute.
    rewrite forallb_forall in Hok. specialize (Hok a). rewrite forallb_forall in Hok.
    rewrite !list_elem_of_In in *. specialize (Hok Ha b Hb). by apply bool_decide_eq_true in Hok. }
  intros Heq. pose proof (Hr v). pose proof (Hr w).
  enough (Z.to_nat (v mod 64) = Z.to_nat (w mod 64)) by lia.
  apply Hinj; [apply elem_of_seq; lia..|]. rewrite !Z2Nat.id by lia.
  unfold base64_char in *. by rewrite !Z.mod_mod.
Qed.

Lemma length_EncodeToString src : length (EncodeToString src) = (4 * ((length src + 2) / 3))%nat.
Proof.
  assert (∀ k src, (length src <= k)%nat → length (EncodeToString src) = (4 * ((length src + 2) / 3))%nat) as Hk; [|by eapply Hk].
  clear src. intros k. induction k as [|k IH]; intros [|x [|y [|z src]]]; simpl; intros; try done; try lia.
  rewrite IH by lia. pose proof (Nat.div_add (length src + 2) 1 3 ltac:(lia)) as Hd.
  replace (length src + 2 + 1 * 3)%nat with (S (S (S (length src + 2)))) in Hd by lia. simpl Nat.div in *. lia.
Qed.

(** [s[0:n]] does not panic. *)
Lemma length_randstring n b : length b = (2 * n)%nat → String.length (randstring n b) = n.
Proof.
  intros Hb. assert (∀ l, String.length (String.string_of_list_ascii l) = length l) as Hl by (induction l; simpl; auto).
  unfold randstring. rewrite Hl, length_take, length_EncodeToString, Hb.
  apply Nat.min_l. pose proof (Nat.div_mod (2 * n + 2) 3 ltac:(lia)). pose proof (Nat.mod_upper_bound (2 * n + 2) 3). lia.
Qed.

Definition is_byte (x : Z) : Prop := 0 <= x < 256.

(** Each group of four characters determines its three bytes. *)
Lemma EncodeToString_inj k b b' :
  Forall is_byte b → Forall is_byte b' → (3 * k <= length b)%nat → (3 * k <= length b')%nat →
  take (4 * k) (EncodeToString b) = take (4 * k) (EncodeToString b') ↔ take (3 * k) b = take (3 * k) b'.
Proof.
  revert b b'. induction k as [|k IH]; intros b b' Hb Hb' Hl Hl'; [done|].
  destruct b as [|x [|y [|z b]]]; simpl in Hl; try lia.
  destruct b' as [|x' [|y' [|z' b']]]; simpl in Hl'; try lia.
  rewrite !Forall_cons in Hb, Hb'. unfold is_byte in Hb, Hb'.
  replace (4 * S k)%nat with (S (S (S (S (4 * k))))) by lia.
  replace (3 * S k)%nat with (S (S (S (3 * k)))) by lia.
  cbn [EncodeToString]. rewrite !firstn_cons. destruct Hb as (? & ? & ? & Hb), Hb' as (? & ? & ? & Hb').
  specialize (IH b b' Hb Hb' ltac:(lia) ltac:(lia)). split.
  - intros [= Hc1%base64_char_inj Hc2%base64_char_inj Hc3%base64_char_inj Hc4%base64_char_inj Hr%IH].
    rewrite Hr. f_equal; [|f_equal; [|f_equal]]; Z.to_euclidean_division_equations; lia.
  - intros [= -> -> -> Hr%IH]. by rewrite Hr.
Qed.

(** Two names of 20 characters are the same if and only if the first 15 random bytes are. *)
Lemma randstring_inj b b' :
  Forall is_byte b → Forall is_byte b' → length b = 40%nat → length b' = 40%nat →
  randstring 20 b = randstring 20 b' ↔ take 15 b = take 15 b'.
Proof.
  intros Hb Hb' Hl Hl'. etrans; [|exact (EncodeToString_inj 5 b b' Hb Hb' ltac:(lia) ltac:(lia))]. unfold randstring.
  change (4 * 5)%nat with 20%nat. split; [|by intros ->]. intros Heq%(f_equal String.list_ascii_of_string).
  by rewrite !String.list_ascii_of_string_of_list_ascii in Heq.
Qed.

(** The bytes of a counter, for concrete runs. *)
Definition counter_bytes (k : nat) : list Z := [Z.of_nat k mod 256; Z.of_nat k / 256 mod 256] ++ replicate 38 0.

(** ** Names *)

(** The names of ends are strings, those of servers ints, both in [interface{}]s. *)
Inductive name := End (s : string) | Srv (i : nat).

#[global] Instance name_eq_dec : EqDecision name.
Proof. solve_decision. Defined.
#[global] Instance name_countable : Countable name.
Proof.
  refine (inj_countable' (λ x, match x with End s => inl s | Srv i => inr i end)
    (λ x, match x with inl s => End s | inr i => Srv i end) _). by intros [].
Defined.

Abbreviation network := (Network name).
Implicit Types (rn : network) (x : string).

(** Whether an end is enabled, and the server it is connected to. *)
Definition on rn x : bool := default false (enabled rn !! End x).
Definition target rn x : option name := default None (connections rn !! End x).

(** Networks that differ in the switches of the ends only. *)
Definition rewired rn rn' : Prop :=
  ends rn' = ends rn ∧ connections rn' = connections rn ∧ servers rn' = servers rn ∧ reliable rn' = reliable rn ∧
  longDelays rn' = longDelays rn ∧ longReordering rn' = longReordering rn.

#[global] Instance rewired_preorder : PreOrder rewired.
Proof.
  split; [by intros rn|]. intros rn1 rn2 rn3 (? & ? & ? & ? & ? & ?) (? & ? & ? & ? & ? & ?).
  split_and!; by etrans.
Qed.

Lemma on_Enable x y b rn : on (Enable (End x) b rn) y = if decide (x = y) then b else on rn y.
Proof.
  unfold on. simpl. rewrite lookup_insert. destruct (decide (x = y)) as [->|Hne].
  - by rewrite decide_True.
  - by rewrite decide_False by congruence.
Qed.

Lemma rewired_Enable x b rn : rewired rn (Enable (End x) b rn).
Proof. done. Qed.

Lemma rewired_target rn rn' x : rewired rn rn' → target rn' x = target rn x.
Proof. unfold target. by intros (_ & -> & _). Qed.

(** [cfg.endnames[a][c]]: the end through which server [a] calls server [c]. *)
Definition link (endnames : list (list string)) (p : nat * nat) : option string :=
  row ← endnames !! p.1; row !! p.2.

(** One turn [j] of a loop that switches the ends at [pos j] where [cond j]. *)
Definition switch (b : bool) (cond : nat → option bool) (pos : nat → option (nat * nat))
    (endnames : list (list string)) (j : nat) rn : option network :=
  c ← cond j;
  if c : bool then endname ← pos j ≫= link endnames; Some (Enable (End endname) b rn) else Some rn.

(** The ends [endnames] of the servers on a network where server [a] reaches
    server [c] if [L a c]; the ends of [X] belong to others, all else is off. *)
Record wired (endnames : list (list string)) (L : nat → nat → bool) (X : string → Prop) rn : Prop := mkWired {
  w_inj : ∀ p q x, link endnames p = Some x → link endnames q = Some x → p = q;
  w_made : ∀ p x, link endnames p = Some x → End x ∈ ends rn;
  w_target : ∀ a c x, link endnames (a, c) = Some x → target rn x = Some (Srv c);
  w_on : ∀ a c x, link endnames (a, c) = Some x → on rn x = L a c;
  w_others : ∀ x, X x → End x ∈ ends rn ∧ ∀ p, link endnames p ≠ Some x;
  w_off : ∀ x, (∀ p, link endnames p ≠ Some x) → ¬ X x → on rn x = false;
}.

Lemma wired_ext endnames L L' X rn :
  wired endnames L X rn → (∀ a c, is_Some (link endnames (a, c)) → L a c = L' a c) → wired endnames L' X rn.
Proof. intros [? ? ? Hon ? ?] HL. split; try done. intros a c x Hx. rewrite <- HL; [by apply Hon|by eexists]. Qed.

Lemma wired_rewired endnames L X rn rn' :
  wired endnames L X rn → rewired rn rn' → (∀ x, on rn' x = on rn x) → wired endnames L X rn'.
Proof.
  intros [? Hm Ht Ho Hx Hf] Hre Heq. pose proof Hre as (He & _).
  split; try done; intros *; rewrite ?Heq, ?He, ?(rewired_target rn rn') by done; eauto.
Qed.

Lemma wired_Enable endnames L X a c x b rn :
  wired endnames L X rn → link endnames (a, c) = Some x →
  wired endnames (λ a' c', if decide ((a, c) = (a', c')) then b else L a' c') X (Enable (End x) b rn).
Proof.
  intros [Hinj Hm Ht Ho Hx Hf] Hl. split; try done.
  - intros a' c' y Hy. rewrite on_Enable. destruct (decide (x = y)) as [->|Hne].
    + by rewrite decide_True by by apply (Hinj _ _ y).
    + rewrite decide_False; [by apply Ho|]. intros Heq. rewrite Heq in Hl. congruence.
  - intros y Hy HX. rewrite on_Enable. rewrite decide_False; [by apply Hf|]. intros ->. by apply (Hy (a, c)).
Qed.

(** A loop of switches never fails on ends that exist, and sets their links. *)
Lemma switch_links b cond pos endnames L X js rn :
  wired endnames L X rn →
  (∀ j, j ∈ js → ∃ c, cond j = Some c ∧ (c = true → is_Some (pos j ≫= link endnames))) →
  ∃ rn', for_each js (switch b cond pos endnames) rn = Some rn' ∧ rewired rn rn' ∧
    wired endnames (λ a c, if decide (Exists (λ j, cond j = Some true ∧ pos j = Some (a, c)) js) then b else L a c) X rn'.
Proof.
  intros Hw Hpos. pose (P := λ (pre : list nat) rn', rewired rn rn' ∧
    wired endnames (λ a c, if decide (Exists (λ j, cond j = Some true ∧ pos j = Some (a, c)) pre) then b else L a c) X rn').
  apply (for_each_inv P); unfold P.
  { split; [done|]. eapply wired_ext; [done|]. intros a c _. rewrite decide_False; [done|]. by intros ?%Exists_nil. }
  intros pre j rn1 Hj [Hre Hw1]. destruct (Hpos j ltac:(set_solver)) as (c & Hc & Hl). unfold switch. rewrite Hc. simpl.
  assert (∀ p, Exists (λ j, cond j = Some true ∧ pos j = Some p) (pre ++ [j]) ↔
    Exists (λ j, cond j = Some true ∧ pos j = Some p) pre ∨ c = true ∧ pos j = Some p) as Hex.
  { intros p. rewrite Exists_app, Exists_cons, Exists_nil, (right_id False or), Hc. naive_solver. }
  destruct c.
  - destruct (Hl eq_refl) as [x Hx]. rewrite Hx. simpl. apply bind_Some in Hx as ([a1 c1] & Hp & Hx).
    eexists. split; [done|]. split; [by etrans; [|apply rewired_Enable]|].
    eapply wired_ext; [by apply wired_Enable|]. intros a2 c2 _. simpl.
    destruct (decide ((a1, c1) = (a2, c2))) as [Heq|Hne].
    + rewrite decide_True; [done|]. apply Hex. right. by rewrite Hp, Heq.
    + apply decide_ext. rewrite Hex. split; [by left|]. intros [?|[_ ?]]; [done|congruence].
  - eexists. split; [done|]. split; [done|]. eapply wired_ext; [done|]. intros a2 c2 _. simpl.
    apply decide_ext. rewrite Hex. split; [by left|]. by intros [?|[? _]].
Qed.

(** All the links of the table are between servers below [N]. *)
Definition square (endnames : list (list string)) (N : nat) : Prop :=
  ∀ a c, is_Some (link endnames (a, c)) → (a < N)%nat ∧ (c < N)%nat.

Lemma switch_row b cond i endnames L X N rn :
  wired endnames L X rn → square endnames N →
  (∀ j, (j < N)%nat → ∃ c, cond j = Some c ∧ (c = true → is_Some (link endnames (i, j)))) →
  ∃ rn', for_each (seq 0 N) (switch b cond (λ j, Some (i, j)) endnames) rn = Some rn' ∧ rewired rn rn' ∧
    wired endnames (λ a c, if decide (a = i ∧ cond c = Some true) then b else L a c) X rn'.
Proof.
  intros Hw Hsq Hc. destruct (switch_links b cond (λ j, Some (i, j)) endnames L X (seq 0 N) rn Hw) as (rn' & ? & ? & Hw').
  { intros j [_ Hj]%elem_of_seq. by apply Hc. }
  exists rn'. split_and!; try done. eapply wired_ext; [exact Hw'|]. intros a c Hl. destruct (Hsq _ _ Hl) as [_ ?]. simpl.
  apply decide_ext. rewrite Exists_exists. setoid_rewrite elem_of_seq. split.
  - intros (j & _ & Hj & [= <- <-]). done.
  - intros [-> ?]. exists c. split_and!; (done || lia).
Qed.

Lemma switch_col b cond i endnames L X N rn :
  wired endnames L X rn → square endnames N →
  (∀ j, (j < N)%nat → ∃ c, cond j = Some c ∧ (c = true → is_Some (link endnames (j, i)))) →
  ∃ rn', for_each (seq 0 N) (switch b cond (λ j, Some (j, i)) endnames) rn = Some rn' ∧ rewired rn rn' ∧
    wired endnames (λ a c, if decide (c = i ∧ cond a = Some true) then b else L a c) X rn'.
Proof.
  intros Hw Hsq Hc. destruct (switch_links b cond (λ j, Some (j, i)) endnames L X (seq 0 N) rn Hw) as (rn' & ? & ? & Hw').
  { intros j [_ Hj]%elem_of_seq. by apply Hc. }
  exists rn'. split_and!; try done. eapply wired_ext; [exact Hw'|]. intros a c Hl. destruct (Hsq _ _ Hl) as [? _]. simpl.
  apply decide_ext. rewrite Exists_exists. setoid_rewrite elem_of_seq. split.
  - intros (j & _ & Hj & [= <- <-]). done.
  - intros [-> ?]. exists a. split_and!; (done || lia).
Qed.

(** ** Fresh ends *)

(** A client end for each server: [MakeEnd] and [Connect]. *)
Fixpoint attach (names : list string) (j : nat) rn : option network :=
  match names with
  | [] => Some rn
  | x :: names => rn ← MakeEnd (End x) rn; attach names (S j) (Connect (End x) (Some (Srv j)) rn)
  end.

(** What [MakeEnd] and [Connect] do to a network. *)
Record attached (names : list string) (j : nat) rn rn' : Prop := mkAttached {
  at_nodup : NoDup names;
  at_fresh : ∀ x, x ∈ names → End x ∉ ends rn;
  at_ends : ∀ y, y ∈ ends rn' ↔ y ∈ ends rn ∨ ∃ x, x ∈ names ∧ y = End x;
  at_on : ∀ x, on rn' x = if decide (x ∈ names) then false else on rn x;
  at_target : ∀ k x, names !! k = Some x → target rn' x = Some (Srv (j + k));
  at_other : ∀ x, x ∉ names → target rn' x = target rn x;
  at_servers : servers rn' = servers rn;
}.

Lemma attach_total names j rn :
  NoDup names → (∀ x, x ∈ names → End x ∉ ends rn) → is_Some (attach names j rn).
Proof.
  revert j rn. induction names as [|x names IH]; intros j rn Hnd Hfr; simpl; [done|].
  apply NoDup_cons in Hnd as [Hx Hnd]. unfold MakeEnd. rewrite decide_False by (apply Hfr; left). simpl.
  apply IH; [done|]. intros y Hy. simpl. rewrite elem_of_union, elem_of_singleton.
  intros [[= ->]|Hin]; [done|]. by apply (Hfr y); [right|].
Qed.

Lemma attach_spec names j rn rn' : attach names j rn = Some rn' → attached names j rn rn'.
Proof.
  revert j rn. induction names as [|x names IH]; intros j rn; simpl.
  { intros [= <-]. split; try done; [constructor|by intros ? ?%elem_of_nil|].
    intros y. split; [by left|]. by intros [?|(? & ?%elem_of_nil & _)]. }
  unfold MakeEnd. destruct (decide (End x ∈ ends rn)) as [|Hx]; [done|]. simpl.
  intros [Hnd Hfr He Ho Ht Hk Hs]%IH. simpl in *. setoid_rewrite elem_of_union in Hfr.
  setoid_rewrite elem_of_singleton in Hfr. setoid_rewrite elem_of_union in He. setoid_rewrite elem_of_singleton in He.
  split; try done.
  - constructor; [|done]. intros Hin. apply (Hfr x Hin). by left.
  - intros y [->|Hy]%elem_of_cons; [done|]. intros ?. apply (Hfr y Hy). by right.
  - intros y. rewrite He. setoid_rewrite elem_of_cons. naive_solver.
  - intros y. rewrite Ho. unfold on. simpl. rewrite lookup_insert.
    destruct (decide (y ∈ names)) as [Hy|Hy]; [by rewrite decide_True by (by right)|].
    destruct (decide (x = y)) as [->|Hne].
    + rewrite decide_True by done. by rewrite decide_True by left.
    + rewrite (decide_False (P := End x = End y)) by congruence. rewrite decide_False; [done|].
      by intros [->|?]%elem_of_cons.
  - intros [|k] y Hy; simpl in Hy.
    + injection Hy as <-. rewrite Hk by (intros Hin; apply (Hfr x Hin); by left).
      unfold target. simpl. rewrite lookup_insert_eq. simpl. do 2 f_equal. lia.
    + rewrite (Ht k y Hy). do 2 f_equal. lia.
  - intros y [Hne Hy]%not_elem_of_cons. rewrite Hk by done. unfold target. simpl.
    rewrite lookup_insert_ne by congruence. by rewrite lookup_insert_ne by congruence.
Qed.

(** Fresh ends for server [i], whose old ends are off. *)
Lemma wired_row names i endnames L X rn rn' :
  wired endnames L X rn → (i < length endnames)%nat →
  (∀ c x, link endnames (i, c) = Some x → on rn x = false) →
  attach names 0 rn = Some rn' →
  wired (<[i := names]> endnames) (λ a c, if decide (a = i) then false else L a c) X rn'.
Proof.
  intros [Hinj Hm Ht Ho Hx Hf] Hi Hold Hat%attach_spec.
  assert (∀ a c, link (<[i := names]> endnames) (a, c) = if decide (a = i) then names !! c else link endnames (a, c)) as Hl.
  { intros a c. unfold link. simpl. case_decide as Ha.
    - subst a. by rewrite list_lookup_insert_eq by lia.
    - by rewrite list_lookup_insert_ne by done. }
  assert (∀ p x, link endnames p = Some x → x ∉ names) as Hnew.
  { intros p x Hp Hin. by apply (at_fresh _ _ _ _ Hat x Hin), (Hm p). }
  split.
  - intros [a1 c1] [a2 c2] x. rewrite !Hl. do 2 case_decide; subst; intros H1 H2.
    + f_equal. eapply NoDup_lookup; [apply (at_nodup _ _ _ _ Hat)|done..].
    + exfalso. eapply Hnew; [done|by eapply list_elem_of_lookup_2].
    + exfalso. eapply Hnew; [done|by eapply list_elem_of_lookup_2].
    + by eapply Hinj.
  - intros [a c] x. rewrite Hl, (at_ends _ _ _ _ Hat). case_decide; intros Hc.
    + right. exists x. split; [by eapply list_elem_of_lookup_2|done].
    + left. by eapply Hm.
  - intros a c x. rewrite Hl. case_decide; intros Hc.
    + by apply (at_target _ _ _ _ Hat) in Hc.
    + rewrite (at_other _ _ _ _ Hat) by by eapply Hnew. by eapply Ht.
  - intros a c x. rewrite Hl, (at_on _ _ _ _ Hat). case_decide; intros Hc.
    + by rewrite decide_True by by eapply list_elem_of_lookup_2.
    + rewrite decide_False by by eapply Hnew. by apply Ho.
  - intros x [Hin Hno]%Hx. rewrite (at_ends _ _ _ _ Hat). split; [by left|]. intros [a c]. rewrite Hl.
    case_decide; [|done]. intros Hc. apply (at_fresh _ _ _ _ Hat x); [by eapply list_elem_of_lookup_2|done].
  - intros x Hno HX. rewrite (at_on _ _ _ _ Hat). case_decide as Hin; [done|].
    destruct (decide (x ∈ default [] (endnames !! i))) as [[c Hc]%list_elem_of_lookup|Hn].
    { apply (Hold c). unfold link. simpl. by destruct (endnames !! i). }
    apply Hf; [|done]. intros [a c] Hc. destruct (decide (a = i)) as [->|Ha].
    + apply Hn. unfold link in Hc. simpl in Hc. destruct (endnames !! i); [|done]. by eapply list_elem_of_lookup_2.
    + apply (Hno (a, c)). rewrite Hl. by rewrite decide_False.
Qed.

(** Ends of others. *)
Lemma wired_others names endnames L X rn rn' :
  wired endnames L X rn → attach names 0 rn = Some rn' → wired endnames L (λ x, X x ∨ x ∈ names) rn'.
Proof.
  intros [Hinj Hm Ht Ho Hx Hf] Hat%attach_spec.
  assert (∀ p x, link endnames p = Some x → x ∉ names) as Hnew.
  { intros p x Hp Hin. by apply (at_fresh _ _ _ _ Hat x Hin), (Hm p). }
  split; try done.
  - intros p x Hp. apply (at_ends _ _ _ _ Hat). left. by eapply Hm.
  - intros a c x Hp. rewrite (at_other _ _ _ _ Hat) by by eapply Hnew. by eapply Ht.
  - intros a c x Hp. rewrite (at_on _ _ _ _ Hat), decide_False by by eapply Hnew. by apply Ho.
  - intros x [Hin|Hin]; rewrite (at_ends _ _ _ _ Hat).
    + destruct (Hx x Hin) as [? ?]. split; [by left|done].
    + split; [right; by exists x|]. intros p Hp. by eapply Hnew.
  - intros x Hno HXn. assert (¬ X x ∧ x ∉ names) as [HX Hin] by tauto. rewrite (at_on _ _ _ _ Hat), decide_False by done. by apply Hf.
Qed.

Lemma wired_Enable_other endnames L X x b rn :
  wired endnames L X rn → X x → wired endnames L X (Enable (End x) b rn).
Proof.
  intros [Hinj Hm Ht Ho Hx Hf] HX. destruct (Hx x HX) as [_ Hno]. split; try done.
  - intros a c y Hy. rewrite on_Enable. rewrite decide_False; [by apply Ho|]. intros ->. by apply (Hno (a, c)).
  - intros y Hy HX'. rewrite on_Enable, decide_False by (by intros ->). by apply Hf.
Qed.

End Harness.
