(* ===== verification/RaftConfig.v ===== *)
(** Model of the tester's configuration of raft/config.go: servers that are
    started, crashed, connected and disconnected on labrpc's network, and their
    persisters.

    A [*Raft] is an index into the list of instances made so far, which also
    names the [labrpc.Server] that serves it; a [*Persister] is an index into the
    list of persisters, because instances and configuration share them. *)

From S2P Require Import Prelude GoStd Labrpc Harness.

#[local] Open Scope Z_scope.

Module RaftConfig.
Export Harness.

(** An instance: its number, its persister, the state that [Make] read from it,
    and whether [Kill] has been called. *)
Record inst := mkInst {
  i_me : nat;
  i_persister : nat;
  i_booted : string;
  i_dead : bool;
}.

(** [type config struct] without the statistics and the logs of the appliers
    (RaftCheck.v); a row [[]] of [endnames] is nil, [drawn] counts the calls of
    [randstring]. *)
Record config := mkConfig {
  net : network;
  n : nat;
  rafts : list (option nat);
  connected : list bool;
  saved : list (option nat);
  endnames : list (list string);
  persisters : list Persister;
  insts : list inst;
  drawn : nat;
}.

Definition set_net (rn : network) (cfg : config) : config :=
  mkConfig rn (n cfg) (rafts cfg) (connected cfg) (saved cfg) (endnames cfg) (persisters cfg) (insts cfg) (drawn cfg).
Definition set_connected (l : list bool) (cfg : config) : config :=
  mkConfig (net cfg) (n cfg) (rafts cfg) l (saved cfg) (endnames cfg) (persisters cfg) (insts cfg) (drawn cfg).
Definition set_rafts (l : list (option nat)) (cfg : config) : config :=
  mkConfig (net cfg) (n cfg) l (connected cfg) (saved cfg) (endnames cfg) (persisters cfg) (insts cfg) (drawn cfg).
Definition set_insts (l : list inst) (cfg : config) : config :=
  mkConfig (net cfg) (n cfg) (rafts cfg) (connected cfg) (saved cfg) (endnames cfg) (persisters cfg) l (drawn cfg).
Definition set_persisters (l : list Persister) (cfg : config) : config :=
  mkConfig (net cfg) (n cfg) (rafts cfg) (connected cfg) (saved cfg) (endnames cfg) l (insts cfg) (drawn cfg).
Definition set_endnames (l : list (list string)) (drawn : nat) (cfg : config) : config :=
  mkConfig (net cfg) (n cfg) (rafts cfg) (connected cfg) (saved cfg) l (persisters cfg) (insts cfg) drawn.

(** [cfg.saved[i]] becomes the address of a new persister. *)
Definition save_fresh (i : nat) (ps : Persister) (cfg : config) : config :=
  mkConfig (net cfg) (n cfg) (rafts cfg) (connected cfg) (<[i := Some (length (persisters cfg))]> (saved cfg))
    (endnames cfg) (persisters cfg ++ [ps]) (insts cfg) (drawn cfg).

(** The persister that [cfg.saved[i]] points to, if it is not nil. *)
Definition saved_persister (i : nat) (cfg : config) : option (option Persister) :=
  p ← saved cfg !! i;
  match p with Some p => ps ← persisters cfg !! p; Some (Some ps) | None => Some None end.

(** ** Connecting and disconnecting *)

Definition connect (i : nat) (cfg : config) : option config :=
  _ ← connected cfg !! i;
  let cfg := set_connected (<[i := true]> (connected cfg)) cfg in
  let cond j := connected cfg !! j in
  rn ← for_each (seq 0 (n cfg)) (switch true cond (λ j, Some (i, j)) (endnames cfg)) (net cfg);
  rn ← for_each (seq 0 (n cfg)) (switch true cond (λ j, Some (j, i)) (endnames cfg)) rn;
  Some (set_net rn cfg).

(** [cfg.endnames[j] != nil] *)
Definition has_names (cfg : config) (j : nat) : option bool :=
  row ← endnames cfg !! j; Some (bool_decide (row ≠ [])).

Definition disconnect (i : nat) (cfg : config) : option config :=
  _ ← connected cfg !! i;
  let cfg := set_connected (<[i := false]> (connected cfg)) cfg in
  rn ← for_each (seq 0 (n cfg)) (switch false (λ _, has_names cfg i) (λ j, Some (i, j)) (endnames cfg)) (net cfg);
  rn ← for_each (seq 0 (n cfg)) (switch false (has_names cfg) (λ j, Some (j, i)) (endnames cfg)) rn;
  Some (set_net rn cfg).

Definition setunreliable (unrel : bool) (cfg : config) : config := set_net (Reliable (negb unrel) (net cfg)) cfg.
Definition setlongreordering (longrel : bool) (cfg : config) : config := set_net (LongReordering longrel (net cfg)) cfg.
Definition rpcTotal (cfg : config) : Z := GetTotalCount (net cfg).
Definition bytesTotal (cfg : config) : Z := GetTotalBytes (net cfg).

(** ** Crashing and starting *)

(** [rf.Kill()] *)
Definition kill (k : nat) (cfg : config) : config :=
  set_insts (alter (λ x, mkInst (i_me x) (i_persister x) (i_booted x) true) k (insts cfg)) cfg.

(** The current instance, if there is one, is killed. *)
Definition stop (i : nat) (cfg : config) : option config :=
  rf ← rafts cfg !! i;
  match rf with
  | Some k => Some (set_rafts (<[i := None]> (rafts cfg)) (kill k cfg))
  | None => Some cfg
  end.

(** If [cfg.saved[i]] is not nil, a new persister takes its place. *)
Definition renew (i : nat) (f : Persister → Persister) (cfg : config) : option config :=
  ps ← saved_persister i cfg;
  match ps with Some ps => Some (save_fresh i (f ps) cfg) | None => Some cfg end.

Definition crash1 (i : nat) (cfg : config) : option config :=
  cfg ← disconnect i cfg;
  let cfg := set_net (DeleteServer (Srv i) (net cfg)) cfg in
  cfg ← renew i Copy cfg;
  cfg ← stop i cfg;
  renew i (λ ps, let raftlog := ReadRaftState ps in SaveRaftState raftlog MakePersister) cfg.

(** The persister that the next instance gets. *)
Definition provide (i : nat) (cfg : config) : option config :=
  ps ← saved_persister i cfg;
  Some (save_fresh i (match ps with Some ps => Copy ps | None => MakePersister end) cfg).

Section names.
(** The bytes of the successive reads of [crypto/rand]. *)
Context (crand : nat → list Z).

Definition draw (k : nat) : string := randstring 20 (crand k).

(** [Make(ends, i, cfg.saved[i], applyCh)], [cfg.rafts[i] = rf] and the new server. *)
Definition boot (i : nat) (cfg : config) : option config :=
  p ← mjoin (saved cfg !! i); ps ← persisters cfg !! p;
  let rf := length (insts cfg) in
  let cfg := set_insts (insts cfg ++ [mkInst i p (ReadRaftState ps) false]) cfg in
  let cfg := set_rafts (<[i := Some rf]> (rafts cfg)) cfg in
  Some (set_net (AddServer (Srv i) rf (net cfg)) cfg).

Definition start1 (i : nat) (cfg : config) : option config :=
  cfg ← crash1 i cfg;
  let names := draw <$> seq (drawn cfg) (n cfg) in
  let cfg := set_endnames (<[i := names]> (endnames cfg)) (drawn cfg + n cfg)%nat cfg in
  rn ← attach names 0 (net cfg);
  cfg ← provide i (set_net rn cfg);
  boot i cfg.

Definition empty_config (n : nat) : config :=
  mkConfig MakeNetwork n (replicate n None) (replicate n false) (replicate n None) (replicate n []) [] [] 0.

Definition make_config (n : nat) (unreliable : bool) : option config :=
  let cfg := setunreliable unreliable (empty_config n) in
  let cfg := set_net (LongDelays true (net cfg)) cfg in
  cfg ← for_each (seq 0 n) start1 cfg;
  for_each (seq 0 n) connect cfg.

(** [cleanup] without the time limit of the test. *)
Definition cleanup (cfg : config) : config :=
  let cfg := foldl (λ cfg rf, if rf is Some k then kill k cfg else cfg) cfg (rafts cfg) in
  set_net (Cleanup (net cfg)) cfg.

(** ** Statistics *)

(** What [begin] remembers of the counters; [maxIndex] is the readers'
    (RaftCheck.v). *)
Record stats := mkStats {
  rpcs0 : Z;
  cmds0 : Z;
  bytes0 : Z;
  maxIndex0 : Z;
}.

Definition begin_test (maxIndex : Z) (cfg : config) : stats := mkStats (rpcTotal cfg) 0 (bytesTotal cfg) maxIndex.

(** The numbers that [end] prints: peers, RPCs, bytes and agreements. *)
Definition end_test (maxIndex : Z) (st : stats) (cfg : config) : Z * Z * Z * Z :=
  (Z.of_nat (n cfg), rpcTotal cfg - rpcs0 st, bytesTotal cfg - bytes0 st, maxIndex - maxIndex0 st).

(** ** What a test does *)

(** An operation of the tester, or of an instance on its persister. *)
Inductive label :=
| LConnect (i : nat)
| LDisconnect (i : nat)
| LCrash (i : nat)
| LStart (i : nat)
| LUnreliable (unrel : bool)
| LReordering (longrel : bool)
| LSave (k : nat) (state : string)               (* [rf.persister.SaveRaftState] *)
| LSnapshot (k : nat) (state snapshot : string). (* [rf.persister.SaveStateAndSnapshot] *)

Definition on_persister (k : nat) (f : Persister → Persister) (cfg : config) : option config :=
  x ← insts cfg !! k; ps ← persisters cfg !! i_persister x;
  Some (set_persisters (<[i_persister x := f ps]> (persisters cfg)) cfg).

Definition exec (l : label) (cfg : config) : option config :=
  match l with
  | LConnect i => connect i cfg
  | LDisconnect i => disconnect i cfg
  | LCrash i => crash1 i cfg
  | LStart i => start1 i cfg
  | LUnreliable unrel => Some (setunreliable unrel cfg)
  | LReordering longrel => Some (setlongreordering longrel cfg)
  | LSave k state => on_persister k (SaveRaftState state) cfg
  | LSnapshot k state snapshot => on_persister k (SaveStateAndSnapshot state snapshot) cfg
  end.

Fixpoint run (ls : list label) (cfg : config) : option config :=
  match ls with [] => Some cfg | l :: ls => cfg ← exec l cfg; run ls cfg end.
End names.
End RaftConfig.
