(* ===== verification/RaftConfigProof.v ===== *)
(** The invariant of the tester's configuration, component by component: the
    links between servers, the servers on the network, and the instances with
    their persisters. *)

From S2P Require Import Prelude GoStd Labrpc Harness RaftConfig.

#[local] Open Scope Z_scope.

Module RaftConfigProof.
Export RaftConfig.
Implicit Types (cfg : config) (i j k p : nat).

Definition no_others : string → Prop := λ _, False.

Definition is_connected cfg i : bool := default false (connected cfg !! i).

(** The links: between two connected servers only. *)
Record links_ok cfg : Prop := mkLinksOk {
  lk_connected : length (connected cfg) = n cfg;
  lk_endnames : length (endnames cfg) = n cfg;
  lk_rows : ∀ i row, endnames cfg !! i = Some row → row = [] ∨ length row = n cfg;
  lk_started : ∀ i, connected cfg !! i = Some true → endnames cfg !! i ≠ Some [];
  lk_wired : wired (endnames cfg) (λ a c, is_connected cfg a && is_connected cfg c) no_others (net cfg);
}.

(** The persister of an instance is not shared with other instances, and the
    saved persister of a server belongs to its current instance at most. *)
Record store_ok cfg : Prop := mkStoreOk {
  st_rafts : length (rafts cfg) = n cfg;
  st_saved : length (saved cfg) = n cfg;
  st_alive : ∀ i k, rafts cfg !! i = Some (Some k) → ∃ x, insts cfg !! k = Some x ∧ i_me x = i ∧ i_dead x = false;
  st_dead : ∀ k x, insts cfg !! k = Some x → i_dead x = false → rafts cfg !! i_me x = Some (Some k);
  st_addr : ∀ i p, saved cfg !! i = Some (Some p) → (p < length (persisters cfg))%nat;
  st_inst : ∀ k x, insts cfg !! k = Some x → (i_persister x < length (persisters cfg))%nat;
  st_distinct : ∀ i j p, saved cfg !! i = Some (Some p) → saved cfg !! j = Some (Some p) → i = j;
  st_isolated : ∀ i p k x, saved cfg !! i = Some (Some p) → insts cfg !! k = Some x → i_persister x = p →
    rafts cfg !! i = Some (Some k);
}.

(** Requests to a server go to its current instance. *)
Definition servers_ok cfg : Prop := ∀ i, (i < n cfg)%nat → server_of (net cfg) (Srv i) = mjoin (rafts cfg !! i).

(** A live instance uses the saved persister, except perhaps that of [i]. *)
Definition synced_but (e : option nat) cfg : Prop :=
  ∀ i k x, e ≠ Some i → rafts cfg !! i = Some (Some k) → insts cfg !! k = Some x →
    saved cfg !! i = Some (Some (i_persister x)).

Record cfg_ok cfg : Prop := mkCfgOk {
  ok_links : links_ok cfg;
  ok_store : store_ok cfg;
  ok_servers : servers_ok cfg;
  ok_synced : synced_but None cfg;
}.

(** ** Links *)

Lemma link_is_Some cfg a c :
  links_ok cfg → (a < n cfg)%nat → (c < n cfg)%nat → endnames cfg !! a ≠ Some [] → is_Some (link (endnames cfg) (a, c)).
Proof.
  intros Hl Ha Hc Hne. unfold link. simpl. destruct (endnames cfg !! a) as [row|] eqn:Hrow; simpl.
  - apply lookup_lt_is_Some. destruct (lk_rows _ Hl _ _ Hrow) as [->| ->]; done.
  - apply lookup_ge_None in Hrow. rewrite (lk_endnames _ Hl) in Hrow. lia.
Qed.

Lemma link_lt cfg a c x : links_ok cfg → link (endnames cfg) (a, c) = Some x → (a < n cfg)%nat ∧ (c < n cfg)%nat.
Proof.
  intros Hl Hx. unfold link in Hx. simpl in Hx. destruct (endnames cfg !! a) as [row|] eqn:Hrow; [|done]. simpl in Hx.
  apply lookup_lt_Some in Hx as ?. apply lookup_lt_Some in Hrow as ?. rewrite (lk_endnames _ Hl) in *.
  destruct (lk_rows _ Hl _ _ Hrow) as [->|Hlen]; simpl in *; lia.
Qed.

Lemma connected_lookup cfg i : links_ok cfg → (i < n cfg)%nat → connected cfg !! i = Some (is_connected cfg i).
Proof.
  intros Hl Hi. unfold is_connected. destruct (connected cfg !! i) eqn:Hc; [done|].
  apply lookup_ge_None in Hc. rewrite (lk_connected _ Hl) in Hc. lia.
Qed.

Lemma set_connected_lookup cfg i b j :
  links_ok cfg → (i < n cfg)%nat →
  is_connected (set_connected (<[i := b]> (connected cfg)) cfg) j = if decide (i = j) then b else is_connected cfg j.
Proof.
  intros Hl Hi. unfold is_connected. simpl. rewrite list_lookup_insert, (lk_connected _ Hl).
  case_decide as H1; case_decide as H2; naive_solver.
Qed.

Lemma links_square cfg : links_ok cfg → square (endnames cfg) (n cfg).
Proof. intros Hl a c [x Hx]. by eapply link_lt. Qed.

(** Both keep the rest of the configuration, and their effect is the new
    [connected]. *)
Definition with_connection i b rn cfg : config := set_net rn (set_connected (<[i := b]> (connected cfg)) cfg).

Lemma with_connection_ok i b rn L cfg :
  links_ok cfg → (i < n cfg)%nat → (b = true → endnames cfg !! i ≠ Some []) →
  wired (endnames cfg) L no_others rn →
  (∀ a c, is_Some (link (endnames cfg) (a, c)) →
    L a c = (if decide (i = a) then b else is_connected cfg a) && (if decide (i = c) then b else is_connected cfg c)) →
  links_ok (with_connection i b rn cfg).
Proof.
  intros Hl Hi Hb Hw HL. pose proof (set_connected_lookup cfg i b) as Hc. destruct Hl as [Hlc Hle Hlr Hls Hlw] eqn:Heq.
  split; try done; simpl.
  - by rewrite length_insert.
  - intros j Hj. destruct (decide (i = j)) as [<-|Hne].
    + rewrite list_lookup_insert_eq in Hj by lia. injection Hj as ->. by apply Hb.
    + rewrite list_lookup_insert_ne in Hj by done. by apply Hls.
  - eapply wired_ext; [exact Hw|]. intros a c Hx. rewrite HL by done.
    change (is_connected (with_connection i b rn cfg)) with (is_connected (set_connected (<[i := b]> (connected cfg)) cfg)).
    by rewrite !Hc.
Qed.

Lemma connect_spec i cfg :
  links_ok cfg → (i < n cfg)%nat → endnames cfg !! i ≠ Some [] →
  ∃ rn, connect i cfg = Some (with_connection i true rn cfg) ∧ rewired (net cfg) rn ∧
    links_ok (with_connection i true rn cfg).
Proof.
  intros Hl Hi Hrow. unfold connect. rewrite (connected_lookup cfg i Hl Hi). simpl.
  set (cond := λ j, <[i := true]> (connected cfg) !! j).
  assert (∀ j, (j < n cfg)%nat → cond j = Some (if decide (i = j) then true else is_connected cfg j)) as Hcond.
  { intros j Hj. unfold cond. case_decide as Heq.
    - subst. apply list_lookup_insert_eq. by rewrite (lk_connected _ Hl).
    - rewrite list_lookup_insert_ne by done. by apply connected_lookup. }
  assert (∀ j, (j < n cfg)%nat → ∃ c, cond j = Some c ∧ (c = true → endnames cfg !! j ≠ Some [])) as Hst.
  { intros j Hj. rewrite Hcond by done. eexists. split; [done|]. case_decide as Heq; [by subst|].
    intros Hc. apply (lk_started _ Hl). by rewrite connected_lookup, Hc. }
  pose proof (links_square _ Hl) as Hsq.
  destruct (switch_row true cond i _ _ _ _ _ (lk_wired _ Hl) Hsq) as (rn1 & Hr1 & Hre1 & Hw1).
  { intros j Hj. destruct (Hst j Hj) as (c & ? & _). exists c. split; [done|]. intros _. by apply link_is_Some. }
  destruct (switch_col true cond i _ _ _ _ _ Hw1 Hsq) as (rn2 & Hr2 & Hre2 & Hw2).
  { intros j Hj. destruct (Hst j Hj) as (c & ? & Hc). exists c. split; [done|]. intros ?. apply link_is_Some; auto. }
  rewrite Hr1. simpl. rewrite Hr2. exists rn2. split; [done|]. split; [by etrans|].
  eapply with_connection_ok; [done..|exact Hw2|]. intros a c Hx. destruct (Hsq _ _ Hx) as [Ha Hc].
  cbn beta. rewrite (Hcond a Ha), (Hcond c Hc).
  destruct (decide (i = a)) as [<-|Hia], (decide (i = c)) as [<-|Hic]; simpl.
  - by rewrite decide_True.
  - rewrite decide_False by (by intros [? _]). destruct (is_connected cfg c); [by rewrite decide_True|].
    rewrite decide_False by (by intros [_ ?]). apply andb_false_r.
  - rewrite andb_true_r. destruct (is_connected cfg a); [by rewrite decide_True|].
    rewrite decide_False by (by intros [_ ?]). by rewrite decide_False by (by intros [? _]).
  - rewrite decide_False by (by intros [? _]). by rewrite decide_False by (by intros [? _]).
Qed.

Lemma disconnect_spec i cfg :
  links_ok cfg → (i < n cfg)%nat →
  ∃ rn, disconnect i cfg = Some (with_connection i false rn cfg) ∧ rewired (net cfg) rn ∧
    links_ok (with_connection i false rn cfg).
Proof.
  intros Hl Hi. unfold disconnect. rewrite (connected_lookup cfg i Hl Hi). simpl.
  set (cfg' := set_connected _ _). change (has_names cfg') with (has_names cfg).
  assert (∀ j, (j < n cfg)%nat → ∃ c, has_names cfg j = Some c ∧ (c = true ↔ endnames cfg !! j ≠ Some [])) as Hh.
  { intros j Hj. unfold has_names. destruct (lookup_lt_is_Some_2 (endnames cfg) j) as [row Hrow]; [by rewrite (lk_endnames _ Hl)|].
    rewrite Hrow. eexists. split; [done|]. rewrite bool_decide_eq_true. naive_solver. }
  pose proof (links_square _ Hl) as Hsq.
  destruct (switch_row false (λ _, has_names cfg i) i _ _ _ _ _ (lk_wired _ Hl) Hsq) as (rn1 & Hr1 & Hre1 & Hw1).
  { intros j Hj. destruct (Hh i Hi) as (c & ? & Hc). exists c. split; [done|]. intros ?. apply link_is_Some; tauto. }
  destruct (switch_col false (has_names cfg) i _ _ _ _ _ Hw1 Hsq) as (rn2 & Hr2 & Hre2 & Hw2).
  { intros j Hj. destruct (Hh j Hj) as (c & ? & Hc). exists c. split; [done|]. intros ?. apply link_is_Some; tauto. }
  rewrite Hr1. simpl. rewrite Hr2. exists rn2. split; [done|]. split; [by etrans|].
  eapply with_connection_ok; [done..|exact Hw2|]. intros a c Hx. destruct (Hsq _ _ Hx) as [Ha Hc]. cbn beta.
  assert (has_names cfg a = Some true) as Hha.
  { destruct (Hh a Ha) as (b & -> & Hb). f_equal. apply Hb. intros Hrow. destruct Hx as [x Hx]. unfold link in Hx. simpl in Hx.
    by rewrite Hrow in Hx. }
  rewrite Hha. destruct (decide (i = a)) as [<-|Hia], (decide (i = c)) as [<-|Hic]; simpl; rewrite ?andb_false_r.
  - by rewrite decide_True.
  - rewrite decide_False by (by intros [? _]). rewrite decide_True; [done|]. split; [done|].
    destruct (Hh i Hi) as (b & -> & Hb). f_equal. apply Hb. intros Hrow. destruct Hx as [x Hx]. unfold link in Hx. simpl in Hx.
    by rewrite Hrow in Hx.
  - by rewrite decide_True.
  - rewrite decide_False by (by intros [? _]). by rewrite decide_False by (by intros [? _]).
Qed.

(** ** Instances and persisters *)

(** No instance uses the saved persister of [i]. *)
Definition detached i cfg : Prop :=
  ∀ p k x, saved cfg !! i = Some (Some p) → insts cfg !! k = Some x → i_persister x ≠ p.

(** What the saved persister of each server holds, and what each instance
    started from. *)
Definition stored cfg : list string :=
  (λ s, match s with Some p => default "" (raftstate <$> persisters cfg !! p) | None => "" end) <$> saved cfg.
Definition boots cfg : list (nat * string) := (λ x, (i_me x, i_booted x)) <$> insts cfg.

Lemma saved_lookup cfg i : store_ok cfg → (i < n cfg)%nat → ∃ s, saved cfg !! i = Some s.
Proof. intros Hs Hi. apply lookup_lt_is_Some_2. by rewrite (st_saved _ Hs). Qed.

Lemma rafts_lookup cfg i : store_ok cfg → (i < n cfg)%nat → ∃ r, rafts cfg !! i = Some r.
Proof. intros Hs Hi. apply lookup_lt_is_Some_2. by rewrite (st_rafts _ Hs). Qed.

Lemma save_fresh_ok i ps cfg :
  store_ok cfg → (i < n cfg)%nat →
  store_ok (save_fresh i ps cfg) ∧ detached i (save_fresh i ps cfg) ∧
  stored (save_fresh i ps cfg) = <[i := raftstate ps]> (stored cfg).
Proof.
  intros Hs Hi. assert (∀ j p, <[i := Some (length (persisters cfg))]> (saved cfg) !! j = Some (Some p) →
    i = j ∧ p = length (persisters cfg) ∨ i ≠ j ∧ saved cfg !! j = Some (Some p)) as Hl.
  { intros j p Hj. apply list_lookup_insert_Some in Hj as [(-> & [= ->] & _)|[? ?]]; auto. }
  destruct Hs as [Hr Hsv Hal Hde Had Hin Hdi His]. split_and!.
  - split; simpl; try done.
    + by rewrite length_insert.
    + intros j p [[_ ->]|[_ Hj%Had]]%Hl; rewrite length_app; simpl; lia.
    + intros k x ?%Hin. rewrite length_app. lia.
    + intros j1 j2 p [[<- ->]|[_ Hj1]]%Hl [[<- Hp]|[_ Hj2]]%Hl; subst; try done.
      * apply Had in Hj2. lia.
      * apply Had in Hj1. lia.
      * by eapply Hdi.
    + intros j p k x [[<- ->]|[_ Hj]]%Hl Hk Hp; [|by eapply His]. apply Hin in Hk. lia.
  - intros p k x [[_ ->]|[? _]]%Hl Hk%Hin; [lia|done].
  - unfold stored. simpl. apply list_eq. intros j. rewrite list_lookup_fmap.
    destruct (decide (i = j)) as [<-|Hne].
    + rewrite !list_lookup_insert_eq by (rewrite ?length_fmap; lia). simpl. by rewrite list_lookup_middle.
    + rewrite !list_lookup_insert_ne by done. rewrite list_lookup_fmap.
      destruct (saved cfg !! j) as [[p|]|] eqn:Hj; try done. simpl. rewrite lookup_app_l by by eapply Had. done.
Qed.

Lemma save_fresh_synced i ps e cfg :
  synced_but e cfg → e = Some i ∨ rafts cfg !! i = Some None → synced_but e (save_fresh i ps cfg).
Proof.
  intros Hs He j k x Hne Hj Hk. simpl in *. rewrite list_lookup_insert_ne; [by apply (Hs j k x)|].
  intros <-. destruct He; congruence.
Qed.

(** Only the persisters differ. *)
Definition same_tester cfg cfg' : Prop :=
  net cfg' = net cfg ∧ n cfg' = n cfg ∧ rafts cfg' = rafts cfg ∧ connected cfg' = connected cfg ∧
  endnames cfg' = endnames cfg ∧ insts cfg' = insts cfg ∧ drawn cfg' = drawn cfg.

Lemma renew_ok i f cfg :
  store_ok cfg → (i < n cfg)%nat → (∀ ps, raftstate (f ps) = raftstate ps) →
  ∃ cfg', renew i f cfg = Some cfg' ∧ store_ok cfg' ∧ detached i cfg' ∧ stored cfg' = stored cfg ∧
    same_tester cfg cfg' ∧ (∀ e, synced_but e cfg → e = Some i ∨ rafts cfg !! i = Some None → synced_but e cfg').
Proof.
  intros Hs Hi Hf. unfold renew, saved_persister. destruct (saved_lookup cfg i Hs Hi) as [[p|] Hp]; rewrite Hp; simpl.
  - destruct (lookup_lt_is_Some_2 (persisters cfg) p) as [ps Hps]; [by eapply st_addr|]. rewrite Hps. simpl.
    destruct (save_fresh_ok i (f ps) cfg Hs Hi) as (Hs' & Hd & Hst). eexists. split_and!; [done|done|done| |done|].
    2: intros e; apply save_fresh_synced.
    rewrite Hst, Hf. apply list_insert_id. unfold stored. rewrite list_lookup_fmap, Hp. simpl. by rewrite Hps.
  - exists cfg. split_and!; try done. intros p k x. by rewrite Hp.
Qed.

Lemma kill_ok i k cfg :
  store_ok cfg → rafts cfg !! i = Some (Some k) → detached i cfg → synced_but (Some i) cfg →
  let cfg' := set_rafts (<[i := None]> (rafts cfg)) (kill k cfg) in
  store_ok cfg' ∧ detached i cfg' ∧ boots cfg' = boots cfg ∧ synced_but None cfg'.
Proof.
  intros [Hr Hsv Hal Hde Had Hin Hdi His] Hi Hdet Hsy cfg'. destruct (Hal _ _ Hi) as (x & Hk & Hme & Hd).
  assert (∀ j k', <[i := None]> (rafts cfg) !! j = Some (Some k') → i ≠ j ∧ rafts cfg !! j = Some (Some k') ∧ k ≠ k') as Hl.
  { intros j k' Hj. apply list_lookup_insert_Some in Hj as [(_ & ? & _)|[Hne Hj]]; [done|]. split_and!; try done.
    intros <-. destruct (Hal _ _ Hj) as (y & ? & Hy & _). congruence. }
  assert (∀ k' y, insts cfg' !! k' = Some y → ∃ y', insts cfg !! k' = Some y' ∧ i_persister y = i_persister y' ∧
    i_me y = i_me y' ∧ (k = k' ∧ i_dead y = true ∨ k ≠ k' ∧ y = y')) as Hins.
  { intros k' y Hy. unfold cfg', kill in Hy. simpl in Hy. rewrite list_lookup_alter in Hy. case_decide as Hkk; [|by eauto 10].
    subst k'. rewrite Hk in Hy. injection Hy as <-. exists x. split_and!; try done. by left. }
  split_and!.
  - split; simpl; try done.
    + by rewrite length_insert.
    + intros j k' (_ & Hj & Hne)%Hl. rewrite list_lookup_alter_ne by done. by apply Hal.
    + intros k' y (y' & Hk' & _ & -> & [[_ ?]|[Hne ->]])%Hins Hy; [congruence|]. apply (Hde _ _ Hk') in Hy as Hj.
      rewrite list_lookup_insert_ne; [done|]. intros Heq. rewrite <- Heq, Hi in Hj. congruence.
    + intros k' y (y' & Hk' & -> & _)%Hins. by eapply Hin.
    + intros j p k' y Hj (y' & Hk' & -> & _)%Hins Hp. rewrite list_lookup_insert_ne; [by eapply His|].
      intros <-. by apply (Hdet p k' y').
  - intros p k' y Hj (y' & Hk' & -> & _)%Hins. by apply (Hdet p k' y').
  - unfold boots, cfg'. simpl. apply list_eq. intros k'. rewrite !list_lookup_fmap, list_lookup_alter.
    case_decide as Hkk; [|done]. subst k'. by rewrite Hk.
  - intros j k' y _ (Hne & Hj & Hkk)%Hl. simpl. rewrite list_lookup_alter_ne by done. intros Hy.
    apply (Hsy j k' y); [congruence|done|done].
Qed.

Lemma provide_ok i cfg :
  store_ok cfg → (i < n cfg)%nat → rafts cfg !! i = Some None → synced_but None cfg →
  ∃ cfg', provide i cfg = Some cfg' ∧ store_ok cfg' ∧ detached i cfg' ∧ synced_but None cfg' ∧
    stored cfg' = stored cfg ∧ saved cfg' !! i ≠ Some None ∧ same_tester cfg cfg'.
Proof.
  intros Hs Hi Hr Hsy. unfold provide, saved_persister.
  assert (∃ ps, saved_persister i cfg = Some ps ∧ stored cfg !! i = Some (default "" (raftstate <$> ps))) as (ps & Hps & Hst).
  { unfold saved_persister, stored. destruct (saved_lookup cfg i Hs Hi) as [[p|] Hp]; rewrite list_lookup_fmap, Hp; simpl.
    - destruct (lookup_lt_is_Some_2 (persisters cfg) p) as [ps Hps]; [by apply (st_addr _ Hs i)|]. rewrite Hps. simpl. by eexists.
    - by exists None. }
  fold (saved_persister i cfg). rewrite Hps. simpl.
  set (new := match ps with Some ps => Copy ps | None => MakePersister end).
  destruct (save_fresh_ok i new cfg Hs Hi) as (Hs' & Hd & Hst'). eexists. split_and!; [done..| | | |done].
  - apply save_fresh_synced; [done|by right].
  - rewrite Hst'. apply list_insert_id. rewrite Hst. by destruct ps.
  - simpl. rewrite list_lookup_insert_eq; [done|]. by rewrite (st_saved _ Hs).
Qed.

Lemma boot_ok i cfg :
  store_ok cfg → (i < n cfg)%nat → rafts cfg !! i = Some None → detached i cfg → synced_but None cfg →
  saved cfg !! i ≠ Some None →
  ∃ cfg', boot i cfg = Some cfg' ∧ store_ok cfg' ∧ synced_but None cfg' ∧ stored cfg' = stored cfg ∧
    rafts cfg' = <[i := Some (length (boots cfg))]> (rafts cfg) ∧
    boots cfg' = boots cfg ++ [(i, default "" (stored cfg !! i))] ∧
    net cfg' = AddServer (Srv i) (length (insts cfg)) (net cfg) ∧ n cfg' = n cfg ∧ connected cfg' = connected cfg ∧
    endnames cfg' = endnames cfg ∧ drawn cfg' = drawn cfg.
Proof.
  intros Hs Hi Hr0 Hdet Hsy Hsv0. unfold boot. destruct (saved_lookup cfg i Hs Hi) as [[p|] Hp]; [|congruence]. rewrite Hp. simpl.
  destruct (lookup_lt_is_Some_2 (persisters cfg) p) as [ps Hps]; [by eapply st_addr|]. rewrite Hps. simpl.
  eexists. split; [done|]. destruct Hs as [Hr Hsv Hal Hde Had Hin Hdi His].
  assert (∀ j k, <[i := Some (length (insts cfg))]> (rafts cfg) !! j = Some (Some k) →
    i = j ∧ k = length (insts cfg) ∨ i ≠ j ∧ rafts cfg !! j = Some (Some k)) as Hl.
  { intros j k Hj. apply list_lookup_insert_Some in Hj as [(-> & [= ->] & _)|[? ?]]; auto. }
  set (new := mkInst i p (ReadRaftState ps) false).
  assert (∀ k x, (insts cfg ++ [new]) !! k = Some x → insts cfg !! k = Some x ∨ k = length (insts cfg) ∧ x = new) as Hx.
  { intros k x [Hk|[Hle Hk]]%lookup_app_Some; [by left|]. apply list_lookup_singleton_Some in Hk as [? <-]. right. split; [lia|done]. }
  split_and!; try done.
  - split; simpl; try done.
    + by rewrite length_insert.
    + intros j k [[<- ->]|[_ Hj]]%Hl.
      * exists new. by rewrite list_lookup_middle.
      * destruct (Hal _ _ Hj) as (x & Hk & ? & ?). exists x. by rewrite lookup_app_l by by eapply lookup_lt_Some.
    + intros k x [Hk|[-> ->]]%Hx Hd; simpl.
      * rewrite list_lookup_insert_ne; [by apply Hde|]. intros Heq. apply (Hde _ _ Hk) in Hd. rewrite <- Heq in Hd. congruence.
      * rewrite list_lookup_insert_eq; [done|lia].
    + intros k x [Hk|[-> ->]]%Hx; [by eapply Hin|]. by eapply Had.
    + intros j q k x Hj [Hk|[-> ->]]%Hx Hq; simpl in Hq.
      * destruct (decide (i = j)) as [<-|Hne]; [by destruct (Hdet q k x)|]. rewrite list_lookup_insert_ne by done. by eapply His.
      * subst q. rewrite (Hdi _ _ _ Hj Hp). apply list_lookup_insert_eq. lia.
  - intros j k x _ [[<- ->]|[Hne Hj]]%Hl Hk; simpl in *.
    + rewrite list_lookup_middle in Hk by done. by injection Hk as <-.
    + destruct (Hal _ _ Hj) as (y & Hy & _). rewrite lookup_app_l in Hk by by eapply lookup_lt_Some. by eapply Hsy.
  - simpl. unfold boots. by rewrite length_fmap.
  - unfold boots, stored. simpl. rewrite fmap_app, list_lookup_fmap, Hp. simpl. by rewrite Hps.
Qed.

(** ** The operations *)

Lemma links_ok_ext cfg cfg' :
  links_ok cfg → n cfg' = n cfg → connected cfg' = connected cfg → endnames cfg' = endnames cfg →
  ends (net cfg') = ends (net cfg) → connections (net cfg') = connections (net cfg) → enabled (net cfg') = enabled (net cfg) →
  links_ok cfg'.
Proof.
  intros [Hc He Hr Hs [? Hm Ht Ho Hx Hf]] Hn Hco Hen Hends Hcon Hena.
  assert (∀ x, on (net cfg') x = on (net cfg) x) as Hon by (intros x; unfold on; by rewrite Hena).
  assert (∀ x, target (net cfg') x = target (net cfg) x) as Htg by (intros x; unfold target; by rewrite Hcon).
  split; rewrite ?Hco, ?Hen, ?Hn; try done.
  split; try done; intros *; rewrite ?Hends, ?Hon, ?Htg; unfold is_connected in *; rewrite ?Hco; eauto.
Qed.

Lemma store_ok_ext cfg cfg' :
  store_ok cfg → n cfg' = n cfg → rafts cfg' = rafts cfg → saved cfg' = saved cfg →
  persisters cfg' = persisters cfg → insts cfg' = insts cfg → store_ok cfg'.
Proof. intros [] Hn Hr Hs Hp Hi. split; rewrite ?Hn, ?Hr, ?Hs, ?Hp, ?Hi; done. Qed.

Lemma server_of_set i j s (rn : network) :
  server_of (set_server (Srv i) s rn) (Srv j) = if decide (i = j) then s else server_of rn (Srv j).
Proof.
  unfold server_of. simpl. case_decide as Hij.
  - subst j. by rewrite lookup_insert_eq.
  - by rewrite lookup_insert_ne by congruence.
Qed.

Lemma servers_rewired cfg rn rn' : rewired rn rn' → ∀ i, server_of rn' (Srv i) = server_of rn (Srv i).
Proof. intros (_ & _ & Hs & _) i. unfold server_of. by rewrite Hs. Qed.

Lemma stop_ok i cfg :
  store_ok cfg → (i < n cfg)%nat → detached i cfg → synced_but (Some i) cfg →
  ∃ cfg', stop i cfg = Some cfg' ∧ store_ok cfg' ∧ detached i cfg' ∧ synced_but None cfg' ∧ boots cfg' = boots cfg ∧
    stored cfg' = stored cfg ∧ rafts cfg' = <[i := None]> (rafts cfg) ∧ net cfg' = net cfg ∧ n cfg' = n cfg ∧
    connected cfg' = connected cfg ∧ endnames cfg' = endnames cfg ∧ drawn cfg' = drawn cfg.
Proof.
  intros Hs Hi Hd Hsy. unfold stop. destruct (rafts_lookup cfg i Hs Hi) as [[k|] Hr]; rewrite Hr; simpl.
  - destruct (kill_ok i k cfg Hs Hr Hd Hsy) as (? & ? & ? & ?). eexists. split_and!; done.
  - exists cfg. rewrite list_insert_id by done. split_and!; try done.
    intros j k x _ Hj. apply Hsy; [|done]. intros [= <-]. congruence.
Qed.

(** What an operation of the tester leaves as it is. *)
Record crashed i cfg cfg' : Prop := mkCrashed {
  cr_ok : cfg_ok cfg';
  cr_detached : detached i cfg';
  cr_n : n cfg' = n cfg;
  cr_connected : connected cfg' = <[i := false]> (connected cfg);
  cr_endnames : endnames cfg' = endnames cfg;
  cr_drawn : drawn cfg' = drawn cfg;
  cr_ends : ends (net cfg') = ends (net cfg);
  cr_rafts : rafts cfg' = <[i := None]> (rafts cfg);
  cr_stored : stored cfg' = stored cfg;
  cr_boots : boots cfg' = boots cfg;
}.

Lemma crash1_ok i cfg : cfg_ok cfg → (i < n cfg)%nat → ∃ cfg', crash1 i cfg = Some cfg' ∧ crashed i cfg cfg'.
Proof.
  intros [Hl Hs Hsv Hsy] Hi. unfold crash1. destruct (disconnect_spec i cfg Hl Hi) as (rn & -> & Hre & Hl1). simpl.
  set (cfg1 := set_net _ _).
  assert (store_ok cfg1) as Hs1 by by eapply store_ok_ext.
  destruct (renew_ok i Copy cfg1 Hs1 Hi) as (cfg2 & -> & Hs2 & Hd2 & Hst2 & (Hn2 & Hnn2 & Hr2 & Hc2 & He2 & Hi2 & Hdr2) & Hsy2); [done|].
  simpl. assert (synced_but (Some i) cfg2) as Hsyi by (apply Hsy2; [intros j k x _; by apply Hsy|by left]).
  destruct (stop_ok i cfg2 Hs2) as (cfg3 & -> & Hs3 & Hd3 & Hsy3 & Hb3 & Hst3 & Hr3 & Hn3 & Hnn3 & Hc3 & He3 & Hdr3);
    [by rewrite Hnn2|done..|]. simpl.
  assert (rafts cfg3 = <[i := None]> (rafts cfg)) as Hr3' by (by rewrite Hr3, Hr2).
  destruct (renew_ok i (λ ps, SaveRaftState (ReadRaftState ps) MakePersister) cfg3 Hs3)
    as (cfg4 & -> & Hs4 & Hd4 & Hst4 & (Hn4 & Hnn4 & Hr4 & Hc4 & He4 & Hi4 & Hdr4) & Hsy4); [by rewrite Hnn3, Hnn2|done|].
  exists cfg4. split; [done|]. assert (net cfg4 = DeleteServer (Srv i) rn) as Hnet by (by rewrite Hn4, Hn3, Hn2).
  assert (length (rafts cfg) = n cfg) as Hlen by apply Hs.
  split; rewrite ?Hnet, ?Hnn4, ?Hnn3, ?Hnn2, ?Hc4, ?Hc3, ?Hc2, ?He4, ?He3, ?He2, ?Hdr4, ?Hdr3, ?Hdr2, ?Hr4, ?Hst4, ?Hst3, ?Hst2;
    try done.
  - split; [|done| |].
    + eapply links_ok_ext; [exact Hl1|by rewrite ?Hnn4, ?Hnn3, ?Hnn2, ?Hc4, ?Hc3, ?Hc2, ?He4, ?He3, ?He2, ?Hnet..].
    + intros j Hj. rewrite Hnet, Hr4, Hr3', list_lookup_insert, Hlen. unfold DeleteServer. rewrite server_of_set.
      case_decide as Hij; [by rewrite decide_True|]. rewrite decide_False by naive_solver.
      rewrite (servers_rewired cfg (net cfg)) by done. apply Hsv. by rewrite Hnn4, Hnn3, Hnn2 in Hj.
    + apply Hsy4; [done|]. right. rewrite Hr3'. apply list_lookup_insert_eq. by rewrite Hlen.
  - by apply Hre.
  - unfold boots. rewrite Hi4. fold (boots cfg3). rewrite Hb3. unfold boots. by rewrite Hi2.
Qed.

Section names.
Context (crand : nat → list Z).

Definition new_names cfg : list string := draw crand <$> seq (drawn cfg) (n cfg).

Record started i cfg cfg' : Prop := mkStarted {
  sd_ok : cfg_ok cfg';
  sd_n : n cfg' = n cfg;
  sd_connected : connected cfg' = <[i := false]> (connected cfg);
  sd_endnames : endnames cfg' = <[i := new_names cfg]> (endnames cfg);
  sd_drawn : drawn cfg' = (drawn cfg + n cfg)%nat;
  sd_ends : ∀ y, y ∈ ends (net cfg') ↔ y ∈ ends (net cfg) ∨ ∃ x, x ∈ new_names cfg ∧ y = End x;
  sd_rafts : rafts cfg' = <[i := Some (length (boots cfg))]> (rafts cfg);
  sd_stored : stored cfg' = stored cfg;
  sd_boots : boots cfg' = boots cfg ++ [(i, default "" (stored cfg !! i))];
}.

(** Fresh ends for a server that is not connected. *)
Lemma attach_links i cfg rn :
  links_ok cfg → (i < n cfg)%nat → is_connected cfg i = false → attach (new_names cfg) 0 (net cfg) = Some rn →
  links_ok (set_net rn (set_endnames (<[i := new_names cfg]> (endnames cfg)) (drawn cfg + n cfg) cfg)).
Proof.
  intros [Hc He Hr Hs Hw] Hi Hoff Hat. assert (length (new_names cfg) = n cfg) as Hlen.
  { unfold new_names. by rewrite length_fmap, length_seq. }
  split; simpl; try done.
  - by rewrite length_insert.
  - intros j row Hj. apply list_lookup_insert_Some in Hj as [(-> & <- & _)|[_ Hj]]; [by right|by eapply Hr].
  - intros j Hj. rewrite list_lookup_insert_ne; [by apply Hs|]. intros <-. unfold is_connected in Hoff. by rewrite Hj in Hoff.
  - eapply wired_ext; [eapply wired_row; [exact Hw|by rewrite He| |exact Hat]|].
    + intros c x Hx. rewrite (w_on _ _ _ _ Hw _ _ _ Hx). by rewrite Hoff.
    + intros a c _. change (is_connected (set_net _ _)) with (is_connected cfg). cbn beta. case_decide as Ha; [|done]. subst a. by rewrite Hoff.
Qed.

Lemma start1_ok i cfg cfg1 rn :
  cfg_ok cfg → (i < n cfg)%nat → crash1 i cfg = Some cfg1 → attach (new_names cfg) 0 (net cfg1) = Some rn →
  ∃ cfg', start1 crand i cfg = Some cfg' ∧ started i cfg cfg'.
Proof.
  intros Hok Hi Hcr Hat. destruct (crash1_ok i cfg Hok Hi) as (cfg1' & Hcr' & Hcd). rewrite Hcr in Hcr'. injection Hcr' as <-.
  destruct Hcd as [[Hl Hs Hsv Hsy] Hdet Hn Hco He Hd Hends Hr Hst Hb]. assert (new_names cfg1 = new_names cfg) as Hnn.
  { unfold new_names. by rewrite Hd, Hn. }
  assert (links_ok (set_net rn (set_endnames (<[i := new_names cfg1]> (endnames cfg1)) (drawn cfg1 + n cfg1) cfg1))) as Hl2.
  { apply attach_links; rewrite ?Hn, ?Hnn; try done. unfold is_connected. rewrite Hco, list_lookup_insert_eq; [done|].
    by rewrite (lk_connected _ (ok_links _ Hok)). }
  unfold start1. rewrite Hcr. simpl. fold (new_names cfg1). rewrite Hnn, Hat in *. simpl.
  set (cfg2 := set_net rn _) in *. assert (store_ok cfg2) as Hs2 by by eapply store_ok_ext.
  assert (i < n cfg2)%nat as Hi2 by (change (i < n cfg1)%nat; by rewrite Hn).
  assert (rafts cfg2 !! i = Some None) as Hr2.
  { change (rafts cfg2) with (rafts cfg1). rewrite Hr. apply list_lookup_insert_eq. by rewrite (st_rafts _ (ok_store _ Hok)). }
  destruct (provide_ok i cfg2 Hs2 Hi2 Hr2) as (cfg3 & Hpr & Hs3 & Hd3 & Hsy3 & Hst3 & Hnil & Hn3 & Hnn3 & Hr3 & Hc3 & He3 & Hi3 & Hdr3);
    [done|].
  destruct (boot_ok i cfg3 Hs3) as (cfg4 & Hbt & Hs4 & Hsy4 & Hst4 & Hr4 & Hb4 & Hn4 & Hnn4 & Hc4 & He4 & Hd4); [by rewrite Hnn3|by rewrite Hr3|done..|].
  rewrite Hpr. simpl. exists cfg4. split; [done|]. assert (net cfg4 = AddServer (Srv i) (length (insts cfg3)) rn) as Hnet by (by rewrite Hn4, Hn3).
  assert (n cfg4 = n cfg) as Hnn5 by (by rewrite Hnn4, Hnn3).
  assert (boots cfg3 = boots cfg) as Hb3 by (unfold boots; rewrite Hi3; exact Hb).
  assert (rafts cfg4 = <[i := Some (length (boots cfg))]> (rafts cfg)) as Hrafts.
  { rewrite Hr4, Hb3, Hr3. change (rafts cfg2) with (rafts cfg1). by rewrite Hr, list_insert_insert_eq. }
  split; rewrite ?Hnn5, ?Hst4, ?Hb4, ?Hb3, ?Hc4, ?He4, ?Hd4, ?Hst3; try done.
  - split; [|done| |done].
    + eapply links_ok_ext; [exact Hl2|by rewrite ?Hnn4, ?Hnn3, ?Hc4, ?He4, ?Hnet..].
    + intros j Hj. rewrite Hnet, Hrafts, list_lookup_insert. unfold AddServer. rewrite server_of_set.
      rewrite (st_rafts _ (ok_store _ Hok)). rewrite Hnn5 in Hj. case_decide as Hij.
      * subst j. rewrite decide_True by done. simpl. do 2 f_equal. rewrite <- Hb3. unfold boots. by rewrite length_fmap.
      * rewrite decide_False by naive_solver. unfold server_of.
        rewrite (at_servers _ _ _ _ (attach_spec _ _ _ _ Hat)). fold (server_of (net cfg1) (Srv j)).
        rewrite (Hsv j) by by rewrite Hn. by rewrite Hr, list_lookup_insert_ne.
  - rewrite Hc3. exact Hco.
  - rewrite He3. simpl. by rewrite He.
  - rewrite Hdr3. simpl. by rewrite Hd, Hn.
  - intros y. rewrite Hnet. simpl. rewrite (at_ends _ _ _ _ (attach_spec _ _ _ _ Hat)). by rewrite Hends.
  - change (stored cfg2) with (stored cfg1). by rewrite Hst.
Qed.
End names.
End RaftConfigProof.
