(* ===== verification/RaftConfigSpec.v ===== *)
(** The tester's configuration implements an abstract one: which servers are up,
    which instance runs for each, and what each disk holds. *)

From S2P Require Import Prelude GoStd Labrpc Harness RaftConfig RaftConfigProof.

#[local] Open Scope Z_scope.

Module RaftConfigSpec.
Export RaftConfigProof.

(** ** The abstract configuration *)

(** [boots] lists, for each instance in the order of their creation, the server
    it runs for and what it read from that server's disk. *)
Record tester := mkTester {
  up : list bool;
  running : list (option nat);
  disks : list string;
  booted : list (nat * string);
}.

(** A write reaches the disk if and only if it comes from the running instance. *)
Definition write (k : nat) (state : string) (t : tester) : tester :=
  match booted t !! k with
  | Some (i, _) =>
      if decide (running t !! i = Some (Some k)) then mkTester (up t) (running t) (<[i := state]> (disks t)) (booted t) else t
  | None => t
  end.

Definition tester_step (t : tester) (l : label) : tester :=
  match l with
  | LConnect i => mkTester (<[i := true]> (up t)) (running t) (disks t) (booted t)
  | LDisconnect i => mkTester (<[i := false]> (up t)) (running t) (disks t) (booted t)
  | LCrash i => mkTester (<[i := false]> (up t)) (<[i := None]> (running t)) (disks t) (booted t)
  | LStart i =>
      mkTester (<[i := false]> (up t)) (<[i := Some (length (booted t))]> (running t)) (disks t)
        (booted t ++ [(i, default "" (disks t !! i))])
  | LSave k state | LSnapshot k state _ => write k state t
  | LUnreliable _ | LReordering _ => t
  end.

Definition no_tester (n : nat) : tester := mkTester (replicate n false) (replicate n None) (replicate n "") [].

(** What [make_config] does first. *)
Definition setup (n : nat) : list label := (LStart <$> seq 0 n) ++ (LConnect <$> seq 0 n).

Definition abs cfg : tester := mkTester (connected cfg) (rafts cfg) (stored cfg) (boots cfg).

Section names.
Context (crand : nat → list Z).

Lemma connect_inv i cfg cfg' :
  links_ok cfg → connect i cfg = Some cfg' → (i < n cfg)%nat ∧ endnames cfg !! i ≠ Some [].
Proof.
  intros Hl Hc. unfold connect in Hc. destruct (connected cfg !! i) as [b|] eqn:Hi; [|done]. simpl in Hc.
  assert (i < n cfg)%nat as Hin by (rewrite <- (lk_connected _ Hl); by eapply lookup_lt_Some).
  split; [done|]. intros Hrow. apply bind_Some in Hc as (rn & Hr & _).
  destruct (for_each_Some _ _ _ _ i Hr) as (rn1 & rn2 & Hsw); [apply elem_of_seq; lia|].
  unfold switch in Hsw. rewrite list_lookup_insert_eq in Hsw by (by eapply lookup_lt_Some). simpl in Hsw.
  unfold link in Hsw. simpl in Hsw. by rewrite Hrow in Hsw.
Qed.

Lemma index_inv i cfg cfg' :
  links_ok cfg → disconnect i cfg = Some cfg' → (i < n cfg)%nat.
Proof.
  intros Hl Hc. unfold disconnect in Hc. destruct (connected cfg !! i) as [b|] eqn:Hi; [|done].
  rewrite <- (lk_connected _ Hl). by eapply lookup_lt_Some.
Qed.

Lemma with_connection_cfg_ok i b rn cfg :
  cfg_ok cfg → rewired (net cfg) rn → links_ok (with_connection i b rn cfg) → cfg_ok (with_connection i b rn cfg).
Proof.
  intros [_ Hs Hsv Hsy] Hre Hl. split; [done| | |done].
  - by eapply store_ok_ext.
  - intros j Hj. simpl. rewrite (servers_rewired cfg (net cfg)) by done. by apply Hsv.
Qed.

(** ** Writes *)

Lemma on_persister_ok k f state cfg cfg' :
  cfg_ok cfg → (∀ ps, raftstate (f ps) = state) → on_persister k f cfg = Some cfg' →
  cfg_ok cfg' ∧ abs cfg' = write k state (abs cfg).
Proof.
  intros [Hl Hs Hsv Hsy] Hf. unfold on_persister. intros (x & Hx & (ps & Hps & [= <-])%bind_Some)%bind_Some.
  set (cfg' := set_persisters _ _).
  assert (∀ q, default "" (raftstate <$> persisters cfg' !! q) =
    if decide (i_persister x = q) then state else default "" (raftstate <$> persisters cfg !! q)) as Hq.
  { intros q. simpl. rewrite list_lookup_insert. pose proof (lookup_lt_Some _ _ _ Hps) as Hlt.
    case_decide as H1; case_decide as H2; [simpl; by rewrite Hf| |naive_solver|done]. by destruct H1. }
  split.
  - split; [by eapply links_ok_ext| |done|done]. destruct Hs. split; try done; simpl; intros *; rewrite ?length_insert; eauto.
  - unfold write. simpl. unfold boots. rewrite list_lookup_fmap, Hx. simpl. unfold abs. simpl.
    case_decide as Hlive; f_equal; unfold stored; simpl; apply list_eq; intros j.
    + pose proof (Hsy _ _ _ ltac:(done) Hlive Hx) as Hsx.
      destruct (decide (i_me x = j)) as [<-|Hne].
      * rewrite list_lookup_insert_eq by (rewrite length_fmap; by eapply lookup_lt_Some).
        rewrite list_lookup_fmap, Hsx. simpl. change (<[_ := _]> (persisters cfg)) with (persisters cfg'). rewrite Hq.
        by rewrite decide_True.
      * rewrite list_lookup_insert_ne by done. rewrite !list_lookup_fmap. destruct (saved cfg !! j) as [[q|]|] eqn:Hj; try done.
        simpl. change (<[_ := _]> (persisters cfg)) with (persisters cfg'). rewrite Hq. rewrite decide_False; [done|].
        intros <-. apply Hne. by eapply (st_distinct _ Hs).
    + rewrite !list_lookup_fmap. destruct (saved cfg !! j) as [[q|]|] eqn:Hj; try done. simpl.
      change (<[_ := _]> (persisters cfg)) with (persisters cfg'). rewrite Hq. rewrite decide_False; [done|].
      intros <-. apply Hlive. pose proof (st_isolated _ Hs _ _ _ _ Hj Hx eq_refl) as Hr.
      destruct (st_alive _ Hs _ _ Hr) as (y & Hy & Hme & _). rewrite Hx in Hy. injection Hy as <-. by rewrite Hme.
Qed.

(** ** Runs *)

Lemma with_connection_abs i b rn cfg :
  abs (with_connection i b rn cfg) = mkTester (<[i := b]> (connected cfg)) (rafts cfg) (stored cfg) (boots cfg).
Proof. done. Qed.

Lemma start1_inv i cfg cfg' :
  cfg_ok cfg → start1 crand i cfg = Some cfg' → (i < n cfg)%nat ∧ started crand i cfg cfg'.
Proof.
  intros Hok Hst. pose proof Hst as Hst'. unfold start1 in Hst'. apply bind_Some in Hst' as (cfg1 & Hcr & Hst').
  assert (i < n cfg)%nat as Hi.
  { unfold crash1 in Hcr. apply bind_Some in Hcr as (cfg2 & Hd & _). eapply index_inv; [by apply ok_links|done]. }
  destruct (crash1_ok i cfg Hok Hi) as (cfg1' & Hcr' & Hcd). rewrite Hcr in Hcr'. injection Hcr' as <-.
  apply bind_Some in Hst' as (rn & Hat & _). simpl in Hat. rewrite (cr_drawn _ _ _ Hcd), (cr_n _ _ _ Hcd) in Hat.
  destruct (start1_ok crand i cfg cfg1 rn Hok Hi Hcr Hat) as (cfg2 & Hst2 & Hsd). split; [done|]. congruence.
Qed.

Lemma exec_refines l cfg cfg' :
  cfg_ok cfg → exec crand l cfg = Some cfg' → cfg_ok cfg' ∧ n cfg' = n cfg ∧ abs cfg' = tester_step (abs cfg) l.
Proof.
  intros Hok Hx. destruct l as [i|i|i|i|u|b|k st|k st sn]; simpl in Hx.
  - destruct (connect_inv i cfg cfg' (ok_links _ Hok) Hx) as [Hi Hrow].
    destruct (connect_spec i cfg (ok_links _ Hok) Hi Hrow) as (rn & Hc & Hre & Hl). rewrite Hc in Hx. injection Hx as <-.
    split; [by apply with_connection_cfg_ok|]. by split; [|apply with_connection_abs].
  - pose proof (index_inv i cfg cfg' (ok_links _ Hok) Hx) as Hi.
    destruct (disconnect_spec i cfg (ok_links _ Hok) Hi) as (rn & Hc & Hre & Hl). rewrite Hc in Hx. injection Hx as <-.
    split; [by apply with_connection_cfg_ok|]. by split; [|apply with_connection_abs].
  - assert (i < n cfg)%nat as Hi.
    { unfold crash1 in Hx. apply bind_Some in Hx as (cfg2 & Hd & _). eapply index_inv; [by apply ok_links|done]. }
    destruct (crash1_ok i cfg Hok Hi) as (cfg1 & Hcr & Hcd). rewrite Hcr in Hx. injection Hx as <-.
    destruct Hcd as [? _ ? Hc _ _ _ Hr Hst Hb]. split_and!; [done..|]. unfold abs. by rewrite Hc, Hr, Hst, Hb.
  - destruct (start1_inv i cfg cfg' Hok Hx) as [Hi [? ? Hc _ _ _ Hr Hst Hb]]. split_and!; [done..|].
    unfold abs. by rewrite Hc, Hr, Hst, Hb.
  - injection Hx as <-. destruct Hok. split; [|done]. split; try done; [by eapply links_ok_ext|by eapply store_ok_ext].
  - injection Hx as <-. destruct Hok. split; [|done]. split; try done; [by eapply links_ok_ext|by eapply store_ok_ext].
  - destruct (on_persister_ok k (SaveRaftState st) st cfg cfg' Hok ltac:(done) Hx) as [? ?]. split_and!; try done.
    unfold on_persister in Hx. by apply bind_Some in Hx as (? & ? & (? & ? & [= <-])%bind_Some).
  - destruct (on_persister_ok k (SaveStateAndSnapshot st sn) st cfg cfg' Hok ltac:(done) Hx) as [? ?]. split_and!; try done.
    unfold on_persister in Hx. by apply bind_Some in Hx as (? & ? & (? & ? & [= <-])%bind_Some).
Qed.

Lemma run_refines ls cfg cfg' :
  cfg_ok cfg → run crand ls cfg = Some cfg' →
  cfg_ok cfg' ∧ n cfg' = n cfg ∧ abs cfg' = foldl tester_step (abs cfg) ls.
Proof.
  revert cfg. induction ls as [|l ls IH]; intros cfg Hok; simpl; [by intros [= <-]|].
  intros (cfg1 & Hx & Hr)%bind_Some. destruct (exec_refines l cfg cfg1 Hok Hx) as (Hok1 & Hn1 & <-).
  destruct (IH cfg1 Hok1 Hr) as (? & ? & ?). by rewrite <- Hn1.
Qed.

Lemma run_exec_app ls1 ls2 cfg : run crand (ls1 ++ ls2) cfg = run crand ls1 cfg ≫= run crand ls2.
Proof. revert cfg. induction ls1 as [|l ls1 IH]; intros cfg; simpl; [done|]. destruct (exec crand l cfg); simpl; auto. Qed.

Lemma for_each_run (f : nat → label) js cfg :
  for_each js (λ j, exec crand (f j)) cfg = run crand (f <$> js) cfg.
Proof. revert cfg. induction js as [|j js IH]; intros cfg; simpl; [done|]. destruct (exec crand (f j) cfg); simpl; auto. Qed.

Definition base (n : nat) (unreliable : bool) : config :=
  let cfg := setunreliable unreliable (empty_config n) in set_net (LongDelays true (net cfg)) cfg.

Lemma make_config_run n unreliable : make_config crand n unreliable = run crand (setup n) (base n unreliable).
Proof.
  unfold setup. rewrite run_exec_app, <- (for_each_run LStart). change (λ j, exec crand (LStart j)) with (start1 crand).
  unfold make_config. fold (base n unreliable). destruct (for_each _ _ _) as [cfg|]; [|done]. simpl.
  by rewrite <- (for_each_run LConnect).
Qed.

Lemma base_ok n unreliable : cfg_ok (base n unreliable).
Proof.
  assert (∀ a c, link (replicate n []) (a, c) = None) as Hlink.
  { intros a c. unfold link. simpl. destruct (replicate n [] !! a) as [row|] eqn:Hrow; [|done].
    apply lookup_replicate in Hrow as [-> _]. done. }
  split.
  - split; simpl; rewrite ?length_replicate; try done.
    + intros i row [-> _]%lookup_replicate. by left.
    + intros i [? _]%lookup_replicate. done.
    + split; try done; intros *; try (destruct p as [a c]); rewrite ?Hlink; done.
  - split; simpl; rewrite ?length_replicate; try done; intros *.
    + by intros [? _]%lookup_replicate.
    + by intros [? _]%lookup_replicate.
    + by intros [? _]%lookup_replicate.
  - intros i Hi. simpl in *. by rewrite lookup_replicate_2 by done.
  - intros i k x _. simpl. by intros [? _]%lookup_replicate.
Qed.

(** The rows of started servers. *)
Lemma exec_rows l cfg cfg' i :
  cfg_ok cfg → exec crand l cfg = Some cfg' → l = LStart i ∨ endnames cfg !! i ≠ Some [] → endnames cfg' !! i ≠ Some [].
Proof.
  intros Hok Hx Hi. destruct l as [j|j|j|j|u|b|k st|k st sn]; simpl in Hx; destruct Hi as [[=]|Hi].
  all: try (by injection Hx as <-).
  all: try (unfold on_persister in Hx; by apply bind_Some in Hx as (? & _ & (? & _ & [= <-])%bind_Some)).
  - destruct (connect_inv j cfg cfg' (ok_links _ Hok) Hx) as [Hj Hrow].
    destruct (connect_spec j cfg (ok_links _ Hok) Hj Hrow) as (rn & Hc & _). rewrite Hc in Hx. by injection Hx as <-.
  - pose proof (index_inv j cfg cfg' (ok_links _ Hok) Hx) as Hj.
    destruct (disconnect_spec j cfg (ok_links _ Hok) Hj) as (rn & Hc & _). rewrite Hc in Hx. by injection Hx as <-.
  - assert (j < n cfg)%nat as Hj.
    { unfold crash1 in Hx. apply bind_Some in Hx as (cfg2 & Hd & _). eapply index_inv; [by apply ok_links|done]. }
    destruct (crash1_ok j cfg Hok Hj) as (cfg1 & Hcr & Hcd). rewrite Hcr in Hx. injection Hx as <-. by rewrite (cr_endnames _ _ _ Hcd).
  - subst j. destruct (start1_inv i cfg cfg' Hok Hx) as [Hj Hsd]. rewrite (sd_endnames _ _ _ _ Hsd).
    rewrite list_lookup_insert_eq by (by rewrite (lk_endnames _ (ok_links _ Hok))). unfold new_names.
    destruct (n cfg); [lia|done].
  - destruct (start1_inv j cfg cfg' Hok Hx) as [Hj Hsd]. rewrite (sd_endnames _ _ _ _ Hsd), list_lookup_insert.
    case_decide; [|done]. unfold new_names. destruct (n cfg); [lia|done].
Qed.

Lemma run_rows ls cfg cfg' i :
  cfg_ok cfg → run crand ls cfg = Some cfg' → LStart i ∈ ls ∨ endnames cfg !! i ≠ Some [] → endnames cfg' !! i ≠ Some [].
Proof.
  revert cfg. induction ls as [|l ls IH]; intros cfg Hok; simpl.
  - intros [= <-] [?%elem_of_nil|?]; done.
  - intros (cfg1 & Hx & Hr)%bind_Some Hi. destruct (exec_refines l cfg cfg1 Hok Hx) as (Hok1 & _).
    apply (IH cfg1 Hok1 Hr). destruct Hi as [[<-|Hi]%elem_of_cons|Hi]; [|by left|].
    + right. eapply exec_rows; [exact Hok|exact Hx|by left].
    + right. eapply exec_rows; [exact Hok|exact Hx|by right].
Qed.

(** ** No panics *)

Definition names_ok cfg : Prop := ∀ y, y ∈ ends (net cfg) → ∃ m, (m < drawn cfg)%nat ∧ y = End (draw crand m).

(** Labels that make sense when the servers of [st] have been started and there
    are [m] instances. *)
Fixpoint legal (n : nat) (st : list nat) (m : nat) (ls : list label) : Prop :=
  match ls with
  | [] => True
  | LConnect i :: ls => (i < n)%nat ∧ i ∈ st ∧ legal n st m ls
  | LDisconnect i :: ls | LCrash i :: ls => (i < n)%nat ∧ legal n st m ls
  | LStart i :: ls => (i < n)%nat ∧ legal n (i :: st) (S m) ls
  | LUnreliable _ :: ls | LReordering _ :: ls => legal n st m ls
  | LSave k _ :: ls | LSnapshot k _ _ :: ls => (k < m)%nat ∧ legal n st m ls
  end.

Definition is_start (l : label) : bool := if l is LStart _ then true else false.
Definition starts (ls : list label) : nat := length (filter is_start ls).

Lemma start1_total i cfg :
  cfg_ok cfg → names_ok cfg → (i < n cfg)%nat → NoDup (draw crand <$> seq 0 (drawn cfg + n cfg)) →
  ∃ cfg', start1 crand i cfg = Some cfg' ∧ started crand i cfg cfg' ∧ names_ok cfg'.
Proof.
  intros Hok Hnm Hi Hnd. destruct (crash1_ok i cfg Hok Hi) as (cfg1 & Hcr & Hcd).
  rewrite seq_app, fmap_app in Hnd. apply NoDup_app in Hnd as (_ & Hdis & Hnd). fold (new_names crand cfg) in Hnd, Hdis.
  destruct (attach_total (new_names crand cfg) 0 (net cfg1)) as [rn Hat]; [done| |].
  { intros x Hx Hin. rewrite (cr_ends _ _ _ Hcd) in Hin. apply Hnm in Hin as (m & Hm & [= ->]).
    apply (Hdis (draw crand m)); [|done]. apply list_elem_of_fmap. exists m. split; [done|]. apply elem_of_seq. lia. }
  destruct (start1_ok crand i cfg cfg1 rn Hok Hi Hcr Hat) as (cfg' & Hst & Hsd). exists cfg'. split_and!; [done..|].
  intros y. rewrite (sd_ends _ _ _ _ Hsd), (sd_drawn _ _ _ _ Hsd). intros [Hy|(x & Hx & ->)].
  - apply Hnm in Hy as (m & ? & ->). exists m. split; [lia|done].
  - apply list_elem_of_fmap in Hx as (m & -> & ?%elem_of_seq). exists m. split; [lia|done].
Qed.

Lemma on_persister_total k f cfg : store_ok cfg → (k < length (insts cfg))%nat → is_Some (on_persister k f cfg).
Proof.
  intros Hs Hk. unfold on_persister. destruct (lookup_lt_is_Some_2 (insts cfg) k Hk) as [x Hx]. rewrite Hx. simpl.
  destruct (lookup_lt_is_Some_2 (persisters cfg) (i_persister x)) as [ps ->]; [by eapply st_inst|]. done.
Qed.

(** An operation other than a start makes no ends and no instances. *)
Lemma exec_keeps l cfg cfg' :
  cfg_ok cfg → is_start l = false → exec crand l cfg = Some cfg' →
  ends (net cfg') = ends (net cfg) ∧ drawn cfg' = drawn cfg ∧ length (insts cfg') = length (insts cfg).
Proof.
  intros Hok Hl Hx. assert (length (insts cfg') = length (insts cfg)) as Hlen.
  { destruct (exec_refines l cfg cfg' Hok Hx) as (_ & _ & Habs). apply (f_equal (length ∘ booted)) in Habs. revert Habs.
    destruct l; simpl; unfold boots, write; repeat case_match; simpl; unfold boots; by rewrite ?length_fmap. }
  destruct l as [i|i|i|i|u|b|k st|k st sn]; simpl in Hl, Hx; try done.
  - destruct (connect_inv i cfg cfg' (ok_links _ Hok) Hx) as [Hi Hrow].
    destruct (connect_spec i cfg (ok_links _ Hok) Hi Hrow) as (rn & Hc & Hre & Hl'). rewrite Hc in Hx. injection Hx as <-.
    split_and!; try done. apply Hre.
  - pose proof (index_inv i cfg cfg' (ok_links _ Hok) Hx) as Hi.
    destruct (disconnect_spec i cfg (ok_links _ Hok) Hi) as (rn & Hc & Hre & Hl'). rewrite Hc in Hx. injection Hx as <-.
    split_and!; try done. apply Hre.
  - assert (i < n cfg)%nat as Hi.
    { unfold crash1 in Hx. apply bind_Some in Hx as (cfg2 & Hd & _). eapply index_inv; [by apply ok_links|done]. }
    destruct (crash1_ok i cfg Hok Hi) as (cfg1 & Hcr & Hcd). rewrite Hcr in Hx. injection Hx as <-.
    split_and!; [apply Hcd..|done].
  - by injection Hx as <-.
  - by injection Hx as <-.
  - split_and!; [| |done]; unfold on_persister in Hx; by apply bind_Some in Hx as (? & _ & (? & _ & [= <-])%bind_Some).
  - split_and!; [| |done]; unfold on_persister in Hx; by apply bind_Some in Hx as (? & _ & (? & _ & [= <-])%bind_Some).
Qed.

Lemma exec_total l ls st cfg :
  cfg_ok cfg → names_ok cfg → legal (n cfg) st (length (insts cfg)) (l :: ls) →
  (∀ i, i ∈ st → endnames cfg !! i ≠ Some []) →
  NoDup (draw crand <$> seq 0 (drawn cfg + if is_start l then n cfg else 0)) →
  is_Some (exec crand l cfg).
Proof.
  intros Hok Hnm Hl Hst Hnd. destruct l as [i|i|i|i|u|b|k state|k state sn]; simpl in Hl |- *; try done.
  - destruct Hl as (Hi & Hin & _). destruct (connect_spec i cfg (ok_links _ Hok) Hi (Hst i Hin)) as (rn & -> & _). done.
  - destruct (disconnect_spec i cfg (ok_links _ Hok) (proj1 Hl)) as (rn & -> & _). done.
  - destruct (crash1_ok i cfg Hok (proj1 Hl)) as (cfg' & -> & _). done.
  - destruct (start1_total i cfg Hok Hnm (proj1 Hl) Hnd) as (cfg' & -> & _). done.
  - apply on_persister_total; [apply Hok|apply Hl].
  - apply on_persister_total; [apply Hok|apply Hl].
Qed.

Lemma run_total ls : ∀ st cfg,
  cfg_ok cfg → names_ok cfg → legal (n cfg) st (length (insts cfg)) ls → (∀ i, i ∈ st → endnames cfg !! i ≠ Some []) →
  NoDup (draw crand <$> seq 0 (drawn cfg + n cfg * starts ls)) → is_Some (run crand ls cfg).
Proof.
  induction ls as [|l ls IH]; intros st cfg Hok Hnm Hl Hst Hnd; simpl; [done|].
  assert (starts (l :: ls) = ((if is_start l then 1 else 0) + starts ls)%nat) as Hss.
  { unfold starts. rewrite filter_cons. by destruct (is_start l). }
  rewrite Hss in Hnd.
  destruct (exec_total l ls st cfg Hok Hnm Hl Hst) as [cfg' Hx].
  { replace (drawn cfg + n cfg * ((if is_start l then 1 else 0) + starts ls))%nat with
      ((drawn cfg + if is_start l then n cfg else 0) + n cfg * starts ls)%nat in Hnd by (destruct (is_start l); lia).
    rewrite seq_app, fmap_app in Hnd. by apply NoDup_app in Hnd as (? & _). }
  rewrite Hx. simpl. destruct (exec_refines l cfg cfg' Hok Hx) as (Hok' & Hn & Habs).
  destruct (is_start l) eqn:His.
  - destruct l as [|i|i|i| | | |]; try done; simpl in *. destruct Hl as [Hi Hl].
    destruct (start1_total i cfg Hok Hnm Hi) as (cfg2 & Hx2 & Hsd & Hnm').
    { replace (drawn cfg + n cfg * S (starts ls))%nat with ((drawn cfg + n cfg) + n cfg * starts ls)%nat in Hnd by lia.
      rewrite seq_app, fmap_app in Hnd. by apply NoDup_app in Hnd as (? & _). }
    rewrite Hx in Hx2. injection Hx2 as <-. apply (IH (i :: st)); try done; rewrite ?Hn.
    + assert (length (insts cfg') = S (length (insts cfg))) as ->; [|done].
      pose proof (f_equal length (sd_boots _ _ _ _ Hsd)) as Hb. unfold boots in Hb.
      rewrite length_app, !length_fmap in Hb. simpl in Hb. lia.
    + intros j Hj. eapply (exec_rows (LStart i)); [exact Hok|exact Hx|]. apply elem_of_cons in Hj as [->|Hj]; [by left|right; auto].
    + rewrite (sd_drawn _ _ _ _ Hsd). by replace (drawn cfg + n cfg + n cfg * starts ls)%nat with (drawn cfg + n cfg * S (starts ls))%nat by lia.
  - destruct (exec_keeps l cfg cfg' Hok His Hx) as (He & Hd & Hlen).
    apply (IH st); try done; rewrite ?Hn, ?Hlen, ?Hd.
    + intros y. rewrite He, Hd. apply Hnm.
    + destruct l; simpl in Hl; (done || apply Hl).
    + intros j Hj. eapply exec_rows; [exact Hok|exact Hx|]. right. auto.
    + exact Hnd.
Qed.

Lemma reach_ok n unreliable ls cfg0 cfg :
  make_config crand n unreliable = Some cfg0 → run crand ls cfg0 = Some cfg →
  cfg_ok cfg ∧ RaftConfig.n cfg = n ∧ abs cfg = foldl tester_step (no_tester n) (setup n ++ ls) ∧
  ∀ i, (i < n)%nat → endnames cfg !! i ≠ Some [].
Proof.
  rewrite make_config_run. intros Hm Hr. assert (run crand (setup n ++ ls) (base n unreliable) = Some cfg) as Hrun.
  { by rewrite run_exec_app, Hm. }
  destruct (run_refines _ _ _ (base_ok n unreliable) Hrun) as (Hok & Hn & Habs). split_and!; try done.
  - rewrite Habs. f_equal. unfold abs, no_tester. f_equal. unfold stored. simpl. by rewrite fmap_replicate.
  - intros i Hi. eapply run_rows; [apply base_ok|exact Hrun|]. left. unfold setup. rewrite !elem_of_app. do 2 left.
    apply list_elem_of_fmap. exists i. split; [done|]. apply elem_of_seq. lia.
Qed.

Lemma starts_app ls1 ls2 : starts (ls1 ++ ls2) = (starts ls1 + starts ls2)%nat.
Proof. unfold starts. by rewrite filter_app, length_app. Qed.

Lemma starts_setup n : starts (setup n) = n.
Proof.
  unfold setup. rewrite starts_app. unfold starts. rewrite !list_filter_fmap, !length_fmap.
  rewrite list_filter_all, list_filter_none, length_seq; simpl; (lia || by intros).
Qed.

Lemma legal_mono n st st' m ls : st ⊆ st' → legal n st m ls → legal n st' m ls.
Proof.
  revert st st' m. induction ls as [|l ls IH]; intros st st' m Hsub; [done|].
  destruct l; simpl; intuition eauto; (eapply IH; [|done]; set_solver).
Qed.

Lemma legal_setup n ls : legal n (seq 0 n) n ls → legal n [] 0 (setup n ++ ls).
Proof.
  intros Hl. unfold setup. rewrite <- app_assoc.
  assert (∀ js st m rest, (∀ j, j ∈ js → (j < n)%nat) → legal n (js ++ st) (length js + m) rest →
    legal n st m ((LStart <$> js) ++ rest)) as Hstart.
  { intros js. induction js as [|j js IH]; intros st m rest Hjs Hr; simpl; [done|]. split; [apply Hjs; left|].
    apply IH; [intros; apply Hjs; by right|]. replace (length js + S m)%nat with (length (j :: js) + m)%nat by (simpl; lia).
    eapply legal_mono; [|exact Hr]. set_solver. }
  apply Hstart; [by intros j [_ ?]%elem_of_seq|]. rewrite app_nil_r, length_seq, Nat.add_0_r.
  assert (∀ js, js ⊆ seq 0 n → legal n (seq 0 n) n ((LConnect <$> js) ++ ls)) as Hcon; [|by apply Hcon].
  intros js. induction js as [|j js IH]; intros Hjs; simpl; [done|]. assert (j ∈ seq 0 n) as Hj by (apply Hjs; left).
  split_and!; [by apply elem_of_seq in Hj as [_ ?]|done|]. apply IH. set_solver.
Qed.
End names.

(** ** The theorems *)

Definition some_test : list label :=
  [LDisconnect 0; LSave 1 "one"; LCrash 1; LSave 1 "late"; LStart 1; LConnect 1; LSave 3 "two"; LStart 1; LConnect 0].

Definition config_after (n : nat) (ls : list label) : config :=
  default (empty_config n) (make_config counter_bytes n false ≫= run counter_bytes ls).

Definition ran (n : nat) (ls : list label) : bool :=
  if make_config counter_bytes n false ≫= run counter_bytes ls is Some _ then true else false.

Lemma config_after_ran n ls :
  ran n [] = true → ran n ls = true →
  make_config counter_bytes n false = Some (config_after n []) ∧ run counter_bytes ls (config_after n []) = Some (config_after n ls).
Proof.
  unfold ran, config_after. destruct (make_config counter_bytes n false) as [cfg0|]; [|done]. simpl. intros _.
  by destruct (run counter_bytes ls cfg0).
Qed.

Lemma some_test_ran :
  make_config counter_bytes 3 false = Some (config_after 3 []) ∧
  run counter_bytes some_test (config_after 3 []) = Some (config_after 3 some_test).
Proof. by apply config_after_ran; vm_compute. Qed.

(** C21: The tester implements the abstract configuration: after [make_config] and
    any sequence of its operations, mixed with writes of old and new instances to
    their persisters, the connected servers, the running instances, the saved
    states and what each instance started from are those of the specification,
    in which only the running instance of a server writes to its disk. *)
Theorem tester_refines crand n unreliable ls cfg0 cfg :
  make_config crand n unreliable = Some cfg0 → run crand ls cfg0 = Some cfg →
  abs cfg = foldl tester_step (no_tester n) (setup n ++ ls).
Proof. intros Hm Hr. by destruct (reach_ok crand n unreliable ls cfg0 cfg Hm Hr) as (_ & _ & ? & _). Qed.

Lemma tester_refines_witness :
  abs (config_after 3 some_test) = foldl tester_step (no_tester 3) (setup 3 ++ some_test) ∧
  abs (config_after 3 some_test) =
    mkTester [true; false; true] [Some 0; Some 4; Some 2]%nat [""; "two"; ""] [(0, ""); (1, ""); (2, ""); (1, "one"); (1, "two")]%nat.
Proof.
  split; [|by vm_compute].
  apply (tester_refines counter_bytes 3 false some_test (config_after 3 [])); apply some_test_ran.
Defined.

(** C22: The ends follow the specification too: the current end from a server to
    another is enabled if and only if both are connected, and leads to the
    instance that now runs there; every other end, such as those of the earlier
    instances, is disabled. *)
Theorem topology crand n unreliable ls cfg0 cfg :
  make_config crand n unreliable = Some cfg0 → run crand ls cfg0 = Some cfg →
  (∀ i j, (i < n)%nat → (j < n)%nat → ∃ endname, link (endnames cfg) (i, j) = Some endname ∧
     readEndnameInfo (End endname) (net cfg) =
       mkInfo (is_connected cfg i && is_connected cfg j) (Some (Srv j)) (mjoin (rafts cfg !! j))
         (reliable (net cfg)) (longReordering (net cfg))) ∧
  (∀ endname, (∀ p, link (endnames cfg) p ≠ Some endname) → i_enabled (readEndnameInfo (End endname) (net cfg)) = false).
Proof.
  intros Hm Hr. destruct (reach_ok crand n unreliable ls cfg0 cfg Hm Hr) as ([Hl Hs Hsv _] & Hn & _ & Hrows).
  pose proof (lk_wired _ Hl) as Hw. split.
  - intros i j Hi Hj. destruct (link_is_Some cfg i j Hl) as [x Hx]; rewrite ?Hn; auto. exists x. split; [done|].
    pose proof (w_target _ _ _ _ Hw _ _ _ Hx) as Ht. unfold target in Ht. unfold readEndnameInfo. rewrite Ht. simpl.
    rewrite Hsv by by rewrite Hn. f_equal. apply (w_on _ _ _ _ Hw _ _ _ Hx).
  - intros x Hx. apply (w_off _ _ _ _ Hw x Hx). by intros [].
Qed.

Lemma topology_witness :
  (∀ i j, (i < 3)%nat → (j < 3)%nat → ∃ endname, link (endnames (config_after 3 some_test)) (i, j) = Some endname ∧
     readEndnameInfo (End endname) (net (config_after 3 some_test)) =
       mkInfo (is_connected (config_after 3 some_test) i && is_connected (config_after 3 some_test) j) (Some (Srv j))
         (mjoin (rafts (config_after 3 some_test) !! j))
         (reliable (net (config_after 3 some_test))) (longReordering (net (config_after 3 some_test)))) ∧
  (∀ endname, (∀ p, link (endnames (config_after 3 some_test)) p ≠ Some endname) →
     i_enabled (readEndnameInfo (End endname) (net (config_after 3 some_test))) = false).
Proof. apply (topology counter_bytes 3 false some_test (config_after 3 [])); apply some_test_ran. Defined.

(** C31: No operation by which the tester builds and changes its cluster panics:
    whatever sequence of [start1], [crash1], [connect], [disconnect],
    [setunreliable] and [setlongreordering] a test makes after [make_config], and
    whatever the instances write to their persisters in between, every one returns,
    provided its indexes are in range, servers are connected after they have been
    started, and the random names of the ends are distinct ([MakeEnd] stops the
    program otherwise).  The readers are not meant: [wait] does panic when it asks a
    crashed server. *)
Theorem tester_never_panics crand n unreliable ls :
  legal n (seq 0 n) n ls → NoDup (draw crand <$> seq 0 (n * (n + starts ls))) →
  is_Some (make_config crand n unreliable ≫= run crand ls).
Proof.
  intros Hl Hnd. rewrite make_config_run, <- run_exec_app. apply (run_total crand _ [] (base n unreliable)).
  - apply base_ok.
  - by intros y ?%elem_of_empty.
  - by apply legal_setup.
  - by intros i ?%elem_of_nil.
  - by rewrite starts_app, starts_setup.
Qed.

Lemma tester_never_panics_witness :
  is_Some (make_config counter_bytes 3 true ≫= run counter_bytes some_test).
Proof.
  apply tester_never_panics.
  - simpl. repeat first [done | lia | split | set_solver].
  - vm_compute. apply (bool_decide_unpack _). by vm_compute.
Defined.

(** The comment of [crash1] says that [Make] always gets the last persisted
    state; the snapshot is lost. *)
Lemma crash1_drops_snapshot i cfg cfg' ps :
  cfg_ok cfg → crash1 i cfg = Some cfg' → saved_persister i cfg' = Some (Some ps) → ReadSnapshot ps = "".
Proof.
  intros Hok Hcr. unfold crash1 in Hcr. apply bind_Some in Hcr as (cfg1 & _ & Hcr). apply bind_Some in Hcr as (cfg2 & _ & Hcr).
  apply bind_Some in Hcr as (cfg3 & _ & Hcr). unfold renew in Hcr. apply bind_Some in Hcr as ([ps'|] & Hps & [= <-]); [|by rewrite Hps].
  unfold saved_persister. simpl. destruct (decide (i < length (saved cfg3))%nat) as [Hi|Hi].
  - rewrite list_lookup_insert_eq by done. simpl. rewrite list_lookup_middle by done. by intros [= <-].
  - rewrite list_insert_ge, lookup_ge_None_2 by lia. done.
Qed.

Example snapshot_lost :
  let saved_after ls := saved_persister 0 (config_after 3 ls) in
  saved_after [LSnapshot 0 "log" "snapshot"] = Some (Some (mkPersister "log" "snapshot")) ∧
  saved_after [LSnapshot 0 "log" "snapshot"; LStart 0] = Some (Some (mkPersister "log" "")).
Proof. by vm_compute. Qed.
End RaftConfigSpec.
