(* ===== verification/RaftCheck.v ===== *)
(** Model of the checks of raft/config.go: the goroutine that reads what a server
    applies, and what a test asks about leaders, terms and agreement.

    The checks take the lock or call [GetState] once per server, so what they
    read for different servers comes from different moments: they get the list
    of what they read. *)

From S2P Require Import Prelude GoStd Raft.

#[local] Open Scope Z_scope.

Module RaftCheck.
Export Raft.

(** Why [t.Fatalf] or [log.Fatalf] is called. *)
Inductive report :=
| CommitDiffers (index : Z) (server other : nat)
| OutOfOrder (server : nat) (index : Z)
| ApplyError (server : nat)
| NoMatch (index : Z)
| TwoLeaders (term : Z)
| NoLeader
| TermsDiffer
| UnexpectedLeader (server : nat)
| TooFew (index : Z)
| NoAgreement.

(** A check passes with a result, or fails the test, or panics. *)
Inductive verdict (A : Type) :=
| Passed (a : A)
| Failed (r : report)
| Panicked.
Arguments Passed {A} _.
Arguments Failed {A} _.
Arguments Panicked {A}.

#[export] Instance verdict_ret : MRet verdict := λ _ a, Passed a.
#[export] Instance verdict_bind : MBind verdict :=
  λ _ _ f v, match v with Passed a => f a | Failed r => Failed r | Panicked => Panicked end.

Section check.
Context {C : Type} `{EqDecision C}.
Implicit Types (m : ApplyMsg C) (cmd : option C).

(** ** The readers of [applyCh] *)

(** The fields of [config] that they use; in [applyErr] an empty string is
    [None]. *)
Record checker := mkChecker {
  logs : list (gmap Z (option C));
  maxIndex : Z;
  applyErr : list (option report);
}.

Definition empty_checker (n : nat) : checker := mkChecker (replicate n ∅) 0 (replicate n None).

(** [for j := 0; j < len(cfg.logs); j++]: the last difference is reported. *)
Fixpoint differs (i : nat) m (j : nat) (ls : list (gmap Z (option C))) (err : option report) : option report :=
  match ls with
  | [] => err
  | log :: ls =>
      differs i m (S j) ls
        match log !! CommandIndex m with
        | Some old => if decide (old = Command m) then err else Some (CommitDiffers (CommandIndex m) i j)
        | None => err
        end
  end.

(** One message on the channel of server [i]; an error ends the program, so that
    [applyErr] is never assigned. *)
Definition read_msg (i : nat) m (cfg : checker) : verdict checker :=
  if CommandValid m then
    let err := differs i m 0 (logs cfg) None in
    match logs cfg !! i with
    | None => Panicked
    | Some log =>
        let prevok := bool_decide (is_Some (log !! (CommandIndex m - 1))) in
        let maxIndex := if CommandIndex m >? maxIndex cfg then CommandIndex m else maxIndex cfg in
        let cfg := mkChecker (<[i := <[CommandIndex m := Command m]> log]> (logs cfg)) maxIndex (applyErr cfg) in
        let err := if (CommandIndex m >? 1) && negb prevok then Some (OutOfOrder i (CommandIndex m)) else err in
        match err with Some r => Failed r | None => Passed cfg end
    end
  else Passed cfg.

Fixpoint read_all (ds : list (nat * ApplyMsg C)) (cfg : checker) : verdict checker :=
  match ds with [] => Passed cfg | (i, m) :: ds => cfg ← read_msg i m cfg; read_all ds cfg end.

(** ** [nCommitted] *)

(** What it reads for server [i]: [applyErr[i]] and [logs[i][index]]. *)
Definition look (index : Z) (i : nat) (cfg : checker) : option report * option (option C) :=
  (mjoin (applyErr cfg !! i), l ← logs cfg !! i; l !! index).

Fixpoint count_committed (index : Z) (i : nat) (reads : list (option report * option (option C))) (count : Z) cmd
    : verdict (Z * option C) :=
  match reads with
  | [] => Passed (count, cmd)
  | (Some _, _) :: _ => Failed (ApplyError i)
  | (None, Some cmd1) :: reads =>
      if (count >? 0) && negb (bool_decide (cmd = cmd1)) then Failed (NoMatch index)
      else count_committed index (S i) reads (count + 1) cmd1
  | (None, None) :: reads => count_committed index (S i) reads count cmd
  end.

Definition nCommitted (index : Z) (reads : list (option report * option (option C))) : verdict (Z * option C) :=
  count_committed index 0 reads 0 None.

(** ** Leaders and terms *)

(** What a check sees of a server: not connected, no instance (then [GetState]
    panics), or its answer. *)
Inductive seen := Disconnected | Nil | State (term : Z) (leader : bool).

Section leaders.
Context `{GoMapOrder}.

(** [leaders[term] = append(leaders[term], i)] *)
Fixpoint collect (i : nat) (reads : list seen) (leaders : gmap Z (list nat)) : verdict (gmap Z (list nat)) :=
  match reads with
  | [] => Passed leaders
  | Disconnected :: reads => collect (S i) reads leaders
  | Nil :: _ => Panicked
  | State term leader :: reads =>
      collect (S i) reads (if leader : bool then <[term := default [] (leaders !! term) ++ [i]]> leaders else leaders)
  end.

(** [for term, leaders := range leaders] *)
Fixpoint last_term (terms : list Z) (leaders : gmap Z (list nat)) (last : Z) : verdict Z :=
  match terms with
  | [] => Passed last
  | term :: terms =>
      if 1 <? zlen (default [] (leaders !! term)) then Failed (TwoLeaders term)
      else last_term terms leaders (if term >? last then term else last)
  end.

(** One turn of the loop. *)
Definition one_leader (reads : list seen) : verdict (option nat) :=
  leaders ← collect 0 reads ∅;
  lastTermWithLeader ← last_term (map_order (map_to_list leaders).*1) leaders (-1);
  if decide (leaders = ∅) then Passed None
  else match leaders !! lastTermWithLeader with
       | Some (i :: _) => Passed (Some i)
       | _ => Panicked
       end.

(** The turns that are left; there are ten. *)
Fixpoint checkOneLeader (turns : list (list seen)) : verdict nat :=
  match turns with
  | [] => Failed NoLeader
  | reads :: turns =>
      l ← one_leader reads;
      match l with Some i => Passed i | None => checkOneLeader turns end
  end.
End leaders.

Fixpoint same_term (reads : list seen) (term : Z) : verdict Z :=
  match reads with
  | [] => Passed term
  | Disconnected :: reads => same_term reads term
  | Nil :: _ => Panicked
  | State xterm _ :: reads =>
      if term =? -1 then same_term reads xterm
      else if term =? xterm then same_term reads term else Failed TermsDiffer
  end.

Definition checkTerms (reads : list seen) : verdict Z := same_term reads (-1).

Fixpoint no_leader (i : nat) (reads : list seen) : verdict unit :=
  match reads with
  | [] => Passed ()
  | Disconnected :: reads => no_leader (S i) reads
  | Nil :: _ => Panicked
  | State _ is_leader :: reads => if is_leader : bool then Failed (UnexpectedLeader i) else no_leader (S i) reads
  end.

Definition checkNoLeader (reads : list seen) : verdict unit := no_leader 0 reads.

(** ** Agreement *)

(** [wait] returns the command, or -1 when a server has moved on. *)
Inductive waited := MovedOn | Decided cmd.

(** [for _, r := range cfg.rafts]: a server is past [startTerm]. *)
Fixpoint moved_on (startTerm : Z) (states : list seen) : verdict bool :=
  match states with
  | [] => Passed false
  | State t _ :: states => if t >? startTerm then Passed true else moved_on startTerm states
  | _ => Panicked
  end.

(** The turns that are left, at most 30, and the reads of the last [nCommitted]. *)
Fixpoint wait (index : Z) (n startTerm : Z)
    (turns : list (list (option report * option (option C)) * list seen))
    (final : list (option report * option (option C))) : verdict waited :=
  let finish :=
    '(nd, cmd) ← nCommitted index final;
    if nd <? n then Failed (TooFew index) else Passed (Decided cmd) in
  match turns with
  | [] => finish
  | (reads, states) :: turns =>
      '(nd, _) ← nCommitted index reads;
      if nd >=? n then finish
      else
        moved ← (if startTerm >? -1 then moved_on startTerm states else Passed false);
        if moved : bool then Passed MovedOn else wait index n startTerm turns final
  end.

(** [one] asks the servers in turn; [ask i] is the index that [Start] returns if
    server [i] is connected, exists and says it is the leader. *)
Fixpoint submit (n : nat) (ask : nat → option Z) (si starts : nat) : nat * Z :=
  match si with
  | O => (starts, -1)
  | S si =>
      let starts := ((starts + 1) mod n)%nat in
      match ask starts with Some index1 => (starts, index1) | None => submit n ask si starts end
  end.

(** The polls of the two seconds after a submission: [reads index] is what
    [nCommitted] reads at that moment. *)
Fixpoint agreed (index : Z) cmd (expectedServers : Z) (polls : list (Z → list (option report * option (option C))))
    : verdict bool :=
  match polls with
  | [] => Passed false
  | reads :: polls =>
      '(nd, cmd1) ← nCommitted index (reads index);
      if (nd >? 0) && (nd >=? expectedServers) && bool_decide (cmd1 = cmd) then Passed true
      else agreed index cmd expectedServers polls
  end.

(** The turns of the outer loop within ten seconds. *)
Fixpoint one (n : nat) cmd (expectedServers : Z) (retry : bool)
    (turns : list ((nat → option Z) * list (Z → list (option report * option (option C))))) (starts : nat) : verdict Z :=
  match turns with
  | [] => Failed NoAgreement
  | (ask, polls) :: turns =>
      let '(starts, index) := submit n ask n starts in
      if index =? -1 then one n cmd expectedServers retry turns starts
      else
        ok ← agreed index cmd expectedServers polls;
        if ok : bool then Passed index
        else if retry then one n cmd expectedServers retry turns starts else Failed NoAgreement
  end.

End check.
Arguments checker : clear implicits.
Arguments waited : clear implicits.
End RaftCheck.
