(* ===== verification/RaftCheckSpec.v ===== *)
(** The checks of raft/config.go on what the cluster of RaftNet.v does: they
    never fail for the wrong reason, and what [one] and [checkOneLeader] return
    is true of the cluster. *)

From S2P Require Import Prelude GoStd Raft RaftProof RaftNet RaftSafety RaftLog RaftSpec RaftCommit RaftCommitStep RaftCommitSpec RaftCheck.

#[local] Open Scope Z_scope.
#[local] Open Scope go_scope.

Module RaftCheckSpec.
Export RaftCheck.
Import RaftSpec RaftCommitSpec.

Section check.
Context {C : Type} `{EqDecision C} (n : nat).
Implicit Types (m : ApplyMsg C) (ds : list (nat * ApplyMsg C)) (cfg : checker C) (i j k t : nat).

(** ** Reading what servers apply *)

(** Messages that arrive in order for each server and agree with each other. *)
Record consistent ds : Prop := mkConsistent {
  co_valid : ∀ i m, (i, m) ∈ ds → (i < n)%nat ∧ CommandValid m = true;
  co_agree : ∀ i j m1 m2, (i, m1) ∈ ds → (j, m2) ∈ ds → CommandIndex m1 = CommandIndex m2 → Command m1 = Command m2;
  co_order : ∀ i, ∃ k : Z, 0 <= k ∧ delivered_to i ds = seqZ 1 k;
}.

(** The logs hold exactly the messages read so far. *)
Record has_read ds cfg : Prop := mkHasRead {
  hr_logs : length (logs cfg) = n;
  hr_log : ∀ i log index v, logs cfg !! i = Some log →
    log !! index = Some v ↔ ∃ m, (i, m) ∈ ds ∧ CommandIndex m = index ∧ Command m = v;
  hr_err : applyErr cfg = replicate n None;
  hr_max : ∀ i m, (i, m) ∈ ds → CommandIndex m <= maxIndex cfg;
  hr_max_0 : maxIndex cfg = 0 ∨ ∃ i m, (i, m) ∈ ds ∧ CommandIndex m = maxIndex cfg;
}.

Lemma delivered_to_app i ds1 ds2 : delivered_to i (ds1 ++ ds2) = delivered_to i ds1 ++ delivered_to i ds2.
Proof. unfold delivered_to. by rewrite filter_app, fmap_app. Qed.

Lemma elem_delivered_to i m ds : (i, m) ∈ ds → CommandIndex m ∈ delivered_to i ds.
Proof. intros Hm. apply list_elem_of_fmap. exists (i, m). split; [done|]. by apply list_elem_of_filter. Qed.

Lemma delivered_to_elem i z ds : z ∈ delivered_to i ds → ∃ m, (i, m) ∈ ds ∧ CommandIndex m = z.
Proof. intros ([i' m] & -> & [Hi Hm]%list_elem_of_filter)%list_elem_of_fmap. simpl in Hi. subst. eauto. Qed.

(** A prefix of 1, 2, ..., k. *)
Lemma prefix_seqZ (l : list Z) (k : Z) : 0 <= k → l `prefix_of` seqZ 1 k → l = seqZ 1 (zlen l).
Proof.
  intros Hk [l2 Hl]. assert (zlen l <= k) as Hle.
  { apply (f_equal zlen) in Hl. rewrite zlen_app in Hl. unfold zlen at 1 in Hl. rewrite length_seqZ in Hl.
    pose proof (zlen_nonneg l2). lia. }
  pose proof (zlen_nonneg l). replace k with (zlen l + (k - zlen l)) in Hl by lia. rewrite seqZ_app in Hl by lia.
  apply app_inj_1 in Hl as [? _]; [done|]. rewrite length_seqZ. unfold zlen. lia.
Qed.

Lemma consistent_prefix ds ds' : consistent ds' → ds `prefix_of` ds' → consistent ds.
Proof.
  intros [Hv Ha Ho] [ds2 ->]. split.
  - intros i m Hm. apply (Hv i m), elem_of_app. by left.
  - intros i j m1 m2 H1 H2. apply (Ha i j); apply elem_of_app; by left.
  - intros i. destruct (Ho i) as (k & Hk & Heq). exists (zlen (delivered_to i ds)). split; [apply zlen_nonneg|].
    eapply prefix_seqZ; [exact Hk|]. exists (delivered_to i ds2). by rewrite <- Heq, delivered_to_app.
Qed.

Lemma differs_none i m j (ls : list (gmap Z (option C))) err :
  (∀ log v, log ∈ ls → log !! CommandIndex m = Some v → v = Command m) → differs i m j ls err = err.
Proof.
  revert j err. induction ls as [|log ls IH]; intros j err Hls; simpl; [done|].
  rewrite IH by (intros; eapply Hls; [by right|done]). destruct (log !! CommandIndex m) as [v|] eqn:Hv; [|done].
  rewrite decide_True; [done|]. eapply Hls; [left|done].
Qed.

Lemma read_all_app ds1 ds2 cfg : read_all (ds1 ++ ds2) cfg = (cfg ← read_all ds1 cfg; read_all ds2 cfg).
Proof. revert cfg. induction ds1 as [|[i m] ds1 IH]; intros cfg; simpl; [done|]. destruct (read_msg i m cfg); simpl; auto. Qed.

(** One more message. *)
Lemma read_msg_ok ds i m cfg :
  consistent (ds ++ [(i, m)]) → has_read ds cfg → ∃ cfg', read_msg i m cfg = Passed cfg' ∧ has_read (ds ++ [(i, m)]) cfg'.
Proof.
  intros Hco [Hl Hlog He Hmx Hm0]. assert ((i, m) ∈ ds ++ [(i, m)]) as Hin by (apply elem_of_app; right; left).
  destruct (co_valid _ Hco i m Hin) as [Hi Hv]. unfold read_msg. rewrite Hv.
  destruct (lookup_lt_is_Some_2 (logs cfg) i) as [log Hlg]; [lia|]. rewrite Hlg.
  rewrite differs_none.
  2: { intros log' v [j Hj]%list_elem_of_lookup Hlv. apply (Hlog j log' _ _ Hj) in Hlv as (m' & Hm' & Hidx & <-).
       eapply (co_agree _ Hco); [apply elem_of_app; left; exact Hm'|exact Hin|done]. }
  assert ((CommandIndex m >? 1) && negb (bool_decide (is_Some (log !! (CommandIndex m - 1)))) = false) as ->.
  { destruct (co_order _ Hco i) as (k & Hk & Hk'). rewrite delivered_to_app in Hk'.
    assert (delivered_to i [(i, m)] = [CommandIndex m]) as Hd by (unfold delivered_to; by rewrite filter_cons_True).
    rewrite Hd in Hk'. apply andb_false_iff. destruct (Z.le_gt_cases (CommandIndex m) 1) as [|Hgt].
    - left. rewrite Z.gtb_ltb. apply Z.ltb_ge. done.
    - right. apply negb_false_iff, bool_decide_eq_true.
      assert (delivered_to i ds = seqZ 1 (zlen (delivered_to i ds))) as Hpre by (eapply prefix_seqZ; [exact Hk|by eexists]).
      assert (CommandIndex m ∈ seqZ 1 k) as Hmk by (rewrite <- Hk'; apply elem_of_app; right; left).
      apply elem_of_seqZ in Hmk. assert (CommandIndex m - 1 ∈ delivered_to i ds) as Hd1.
      { assert (CommandIndex m - 1 ∈ seqZ 1 k) as Hk1 by (apply elem_of_seqZ; lia).
        rewrite <- Hk' in Hk1. apply elem_of_app in Hk1 as [|Hk1]; [done|]. apply list_elem_of_singleton in Hk1. lia. }
      apply delivered_to_elem in Hd1 as (m' & Hm' & Hidx). exists (Command m'). apply (Hlog i log _ _ Hlg). eauto. }
  eexists. split; [done|]. split; simpl.
  - by rewrite length_insert.
  - intros j log' index v Hj. setoid_rewrite elem_of_app. setoid_rewrite list_elem_of_singleton.
    apply list_lookup_insert_Some in Hj as [(<- & <- & _)|[Hne Hj]].
    + rewrite lookup_insert. case_decide as Hidx.
      * split; [intros [= <-]; exists m; eauto|]. intros (m' & Hm' & Hidx' & <-). f_equal.
        eapply (co_agree _ Hco); [exact Hin| |congruence]. apply elem_of_app. destruct Hm' as [?|[= <-]]; [by left|]. right. left.
      * rewrite (Hlog i log _ _ Hlg). split; [intros (m' & ? & ?); eauto|]. intros (m' & [?|[= ->]] & ? & ?); [eauto|done].
    + rewrite (Hlog j log' _ _ Hj). split; [intros (m' & ? & ?); eauto|]. intros (m' & [?|[= -> ->]] & ? & ?); [eauto|done].
  - done.
  - intros j m' [Hm'|Hm']%elem_of_app; [apply Hmx in Hm'|apply list_elem_of_singleton in Hm' as [= -> ->]];
      destruct (Z.gtb_spec (CommandIndex m) (maxIndex cfg)); lia.
  - destruct (Z.gtb_spec (CommandIndex m) (maxIndex cfg)); [right; eauto|].
    destruct Hm0 as [|(j & m' & ? & ?)]; [by left|right]. exists j, m'. split; [|done]. apply elem_of_app. by left.
Qed.

Lemma read_all_ok ds : consistent ds → ∃ cfg, read_all ds (empty_checker n) = Passed cfg ∧ has_read ds cfg.
Proof.
  induction ds as [|[i m] ds IH] using rev_ind; intros Hco.
  - exists (empty_checker n). split; [done|]. split; simpl; try done.
    + apply length_replicate.
    + intros i log index v [-> _]%lookup_replicate. rewrite lookup_empty. split; [done|]. by intros (m & ?%elem_of_nil & _).
    + by intros i m ?%elem_of_nil.
    + by left.
  - destruct IH as (cfg & Hr & Hok); [eapply consistent_prefix; [exact Hco|by eexists]|].
    destruct (read_msg_ok ds i m cfg Hco Hok) as (cfg' & Hm & Hok'). exists cfg'. split; [|done].
    rewrite read_all_app, Hr. cbn. by rewrite Hm.
Qed.

(** ** [nCommitted] *)

(** Each server's log is read at some moment of [ds]. *)
Definition observed ds (index : Z) (reads : list (option report * option (option C))) : Prop :=
  length reads = n ∧ ∀ i x, reads !! i = Some x →
    ∃ t cfg, read_all (take t ds) (empty_checker n) = Passed cfg ∧ x = look index i cfg.

Lemma observed_read ds index reads i x :
  consistent ds → observed ds index reads → reads !! i = Some x →
  x.1 = None ∧ ∀ v, x.2 = Some v → ∃ m, (i, m) ∈ ds ∧ CommandIndex m = index ∧ Command m = v.
Proof.
  intros Hco [_ Hobs] Hx. destruct (Hobs i x Hx) as (t & cfg & Hr & ->).
  destruct (read_all_ok (take t ds)) as (cfg' & Hr' & [_ Hlog He _ _]).
  { eapply consistent_prefix; [exact Hco|]. exists (drop t ds). by rewrite take_drop. }
  rewrite Hr in Hr'. injection Hr' as <-. unfold look. simpl. split.
  - rewrite He. destruct (replicate n None !! i) as [e|] eqn:Hei; [|done]. by apply lookup_replicate in Hei as [-> _].
  - intros v (log & Hl & Hv)%bind_Some. apply (Hlog i log _ _ Hl) in Hv as (m & Hm & ? & ?).
    exists m. split; [|done]. rewrite <- (take_drop t ds). apply elem_of_app. by left.
Qed.

Definition seen_commits (reads : list (option report * option (option C))) : Z := zlen (filter (λ x, is_Some x.2) reads).

Lemma count_committed_ok index w reads i count cmd :
  (∀ x, x ∈ reads → x.1 = None ∧ ∀ v, x.2 = Some v → v = w) → 0 <= count → (0 < count → cmd = w) →
  ∃ cmd', count_committed index i reads count cmd = Passed (count + seen_commits reads, cmd') ∧
    (0 < count + seen_commits reads → cmd' = w).
Proof.
  revert i count cmd. induction reads as [|[e v] reads IH]; intros i count cmd Hx Hc Hw; simpl.
  { exists cmd. unfold seen_commits, zlen. simpl. rewrite Z.add_0_r. done. }
  destruct (Hx (e, v)) as [He Hv]; [left|]. simpl in He, Hv. subst e. unfold seen_commits. rewrite filter_cons.
  destruct v as [v|]; simpl.
  - rewrite (Hv v eq_refl) in *. destruct (IH (S i) (count + 1) w) as (cmd' & Hcc & Hc'); [intros; apply Hx; by right|lia|done|].
    exists cmd'. rewrite zlen_cons.
    replace (count + (zlen (filter (λ x, is_Some x.2) reads) + 1)) with (count + 1 + seen_commits reads) by (unfold seen_commits; lia).
    split; [|done]. destruct (Z.gtb_spec count 0); simpl; [|done]. rewrite Hw by lia. by rewrite bool_decide_true.
  - apply IH; [intros; apply Hx; by right|done..].
Qed.

(** The servers whose message was seen. *)
Definition seers (reads : list (option report * option (option C))) : list nat :=
  filter (λ i, is_Some (reads !! i ≫= snd)) (seq 0 (length reads)).

Lemma length_seers reads : zlen (seers reads) = seen_commits reads.
Proof.
  unfold seers, seen_commits, zlen. f_equal.
  assert (∀ l (f : nat → option (option C)), (∀ i x, l !! i = Some x → f i = x.2) →
    length (filter (λ i, is_Some (f i)) (seq 0 (length l))) =
    length (filter (λ x : option report * option (option C), is_Some x.2) l)) as Hgen; [|apply Hgen; by intros i x ->].
  intros l. induction l as [|x l IH]; intros f Hf; [done|]. cbn [length seq]. rewrite !filter_cons.
  rewrite (Hf 0%nat x eq_refl), <- fmap_S_seq, list_filter_fmap.
  pose proof (IH (λ i, f (S i)) (λ i y Hy, Hf (S i) y Hy)) as IH'.
  case_decide; simpl; rewrite length_fmap; [f_equal|]; exact IH'.
Qed.

Lemma nCommitted_ok ds index reads :
  consistent ds → observed ds index reads →
  ∃ cmd, nCommitted index reads = Passed (seen_commits reads, cmd) ∧
    (0 < seen_commits reads → ∀ i m, (i, m) ∈ ds → CommandIndex m = index → Command m = cmd).
Proof.
  intros Hco Hobs.
  destruct (decide (Exists (λ x, is_Some x.2) reads)) as [Hex|Hno].
  - apply Exists_exists in Hex as ([e v'] & [i Hi]%list_elem_of_lookup & [v Hv]).
    destruct (observed_read ds index reads i _ Hco Hobs Hi) as [_ Hm]. destruct (Hm v Hv) as (m & Hm1 & Hidx & Hcmd).
    destruct (count_committed_ok index v reads 0 0 None) as (cmd & Hc & Hc'); [|done|lia|].
    { intros x [j Hj]%list_elem_of_lookup. destruct (observed_read ds index reads j x Hco Hobs Hj) as [? Hx].
      split; [done|]. intros w (m' & Hm' & Hidx' & <-)%Hx. rewrite <- Hcmd. eapply (co_agree _ Hco); [exact Hm'|exact Hm1|congruence]. }
    exists cmd. split; [done|]. intros Hpos j m' Hm' Hidx'. rewrite (Hc' Hpos), <- Hcmd.
    eapply (co_agree _ Hco); [exact Hm'|exact Hm1|congruence].
  - rewrite <- Forall_Exists_neg, Forall_forall in Hno.
    assert (seen_commits reads = 0) as Hz.
    { unfold seen_commits. rewrite list_filter_none; [done|]. exact Hno. }
    destruct (count_committed_ok index None reads 0 0 None) as (cmd & Hc & Hc'); [|done|lia|].
    { intros x Hx. split; [|intros v Hv; destruct (Hno x Hx); by eexists].
      apply list_elem_of_lookup in Hx as [j Hj]. by destruct (observed_read ds index reads j x Hco Hobs Hj). }
    exists cmd. split; [done|]. lia.
Qed.

Lemma seers_in ds index reads i :
  consistent ds → observed ds index reads → i ∈ seers reads → ∃ m, (i, m) ∈ ds ∧ CommandIndex m = index.
Proof.
  intros Hco Hobs [[v (x & Hx & Hv)%bind_Some] _]%list_elem_of_filter.
  destruct (observed_read ds index reads i x Hco Hobs Hx) as [_ Hm]. destruct (Hm v Hv) as (m & ? & ? & _). eauto.
Qed.

(** ** [one] *)

Definition decided ds (index : Z) (cmd : option C) (expectedServers : Z) : Prop :=
  (∃ servers, NoDup servers ∧ expectedServers <= zlen servers ∧ 0 < zlen servers ∧ ∀ i, i ∈ servers → ∃ m, (i, m) ∈ ds ∧ CommandIndex m = index) ∧
  ∀ i m, (i, m) ∈ ds → CommandIndex m = index → Command m = cmd.

Lemma agreed_ok ds index cmd expectedServers polls :
  consistent ds → (∀ reads, reads ∈ polls → observed ds index (reads index)) →
  ∃ b, agreed index cmd expectedServers polls = Passed b ∧ (b = true → decided ds index cmd expectedServers).
Proof.
  intros Hco. induction polls as [|reads polls IH]; intros Hobs; simpl; [by exists false|].
  assert (observed ds index (reads index)) as Ho by (apply Hobs; left).
  destruct (nCommitted_ok ds index (reads index) Hco Ho) as (cmd1 & -> & Hcmd). cbn.
  destruct (_ && _) eqn:Hb; [|apply IH; intros; apply Hobs; by right]. exists true. split; [done|]. intros _.
  apply andb_true_iff in Hb as [[Hpos Hexp]%andb_true_iff ->%bool_decide_eq_true]. zbool. split; [|exact (Hcmd Hpos)].
  exists (seers (reads index)). split_and!; [apply NoDup_filter, NoDup_seq|by rewrite length_seers..|].
  intros i. by apply seers_in.
Qed.

Lemma one_ok ds cmd expectedServers retry turns starts :
  consistent ds → (∀ ask polls reads index, (ask, polls) ∈ turns → reads ∈ polls → observed ds index (reads index)) →
  one n cmd expectedServers retry turns starts = Failed NoAgreement ∨
  ∃ index, one n cmd expectedServers retry turns starts = Passed index ∧ decided ds index cmd expectedServers.
Proof.
  intros Hco. revert starts. induction turns as [|[ask polls] turns IH]; intros starts Hobs; simpl; [by left|].
  destruct (submit n ask n starts) as [starts' index].
  assert (∀ starts, one n cmd expectedServers retry turns starts = Failed NoAgreement ∨
    ∃ index, one n cmd expectedServers retry turns starts = Passed index ∧ decided ds index cmd expectedServers) as IH'.
  { intros st. apply IH. intros ? ? ? ? Hin. apply Hobs with (ask := ask0). by right. }
  destruct (index =? -1); [done|].
  destruct (agreed_ok ds index cmd expectedServers polls Hco) as (b & -> & Hb); [intros; eapply Hobs; [left|done]|]. cbn.
  destruct b; [right; eauto|]. destruct retry; [done|by left].
Qed.
End check.

(** ** [checkOneLeader] *)

Section leaders.
Context `{GoMapOrder}.
Implicit Types (reads : list seen) (leaders : gmap Z (list nat)) (i j k : nat).

(** The servers, numbered from [i], that said they lead [term]. *)
Fixpoint leaders_in (i : nat) reads (term : Z) : list nat :=
  match reads with
  | [] => []
  | State t true :: reads => (if decide (t = term) then [i] else []) ++ leaders_in (S i) reads term
  | _ :: reads => leaders_in (S i) reads term
  end.

Lemma elem_leaders_in i reads term j :
  j ∈ leaders_in i reads term ↔ ∃ k, j = (i + k)%nat ∧ reads !! k = Some (State term true).
Proof.
  revert i. induction reads as [|x reads IH]; intros i; simpl.
  { split; [by intros ?%elem_of_nil|]. by intros (k & _ & ?). }
  assert ((∃ k, j = (i + k)%nat ∧ (x :: reads) !! k = Some (State term true)) ↔
    (j = i ∧ x = State term true) ∨ j ∈ leaders_in (S i) reads term) as ->.
  { rewrite IH. split.
    - intros ([|k] & -> & Hk); simpl in Hk; [left; split; [lia|congruence]|right; exists k; split; [lia|done]].
    - intros [[-> ->]|(k & -> & ?)]; [exists 0%nat; split; [lia|done]|exists (S k); split; [lia|done]]. }
  destruct x as [| |t []].
  1,2,4: split; [by right|by intros [[_ ?]|?]].
  rewrite elem_of_app. case_decide as Ht.
  - subst t. rewrite list_elem_of_singleton. naive_solver.
  - split; [|intros [[_ [= ?]]|?]; [done|by right]]. intros [?%elem_of_nil|?]; [done|by right].
Qed.

Lemma leaders_in_single i reads term :
  (∀ j k, reads !! j = Some (State term true) → reads !! k = Some (State term true) → j = k) →
  zlen (leaders_in i reads term) <= 1.
Proof.
  assert (NoDup (leaders_in i reads term)) as Hnd.
  { revert i. induction reads as [|x reads IH]; intros i; simpl; [constructor|].
    destruct x as [| |t []]; try apply IH. apply NoDup_app. split_and!; [case_decide; repeat constructor; set_solver| |apply IH].
    intros j Hj (k & -> & _)%elem_leaders_in. case_decide; [apply list_elem_of_singleton in Hj; lia|by apply elem_of_nil in Hj]. }
  intros Huniq. destruct (leaders_in i reads term) as [|a [|b l]] eqn:Hl; [done..|].
  assert (a ∈ leaders_in i reads term) as (ka & Ha & Hka)%elem_leaders_in by (rewrite Hl; left).
  assert (b ∈ leaders_in i reads term) as (kb & Hb & Hkb)%elem_leaders_in by (rewrite Hl; right; left).
  apply NoDup_cons in Hnd as [Hab _]. destruct Hab. rewrite Ha, Hb, (Huniq ka kb) by done. left.
Qed.

(** What [collect] adds to the map. *)
Definition adds (old : option (list nat)) (new : list nat) : option (list nat) :=
  match new with [] => old | _ => Some (default [] old ++ new) end.

Lemma collect_ok i reads leaders :
  Nil ∉ reads → ∃ leaders', collect i reads leaders = Passed leaders' ∧
    ∀ term, leaders' !! term = adds (leaders !! term) (leaders_in i reads term).
Proof.
  revert i leaders. induction reads as [|x reads IH]; intros i leaders Hnil; simpl; [eauto|].
  apply not_elem_of_cons in Hnil as [Hx Hnil]. destruct x as [| |t []]; [by apply IH|done| |by apply IH].
  destruct (IH (S i) (<[t := default [] (leaders !! t) ++ [i]]> leaders) Hnil) as (leaders' & -> & Hl).
  exists leaders'. split; [done|]. intros term. rewrite Hl, lookup_insert. case_decide as Ht; [|done]. subst t.
  destruct (leaders_in (S i) reads term); simpl; [done|]. by rewrite <- app_assoc.
Qed.

Lemma last_term_ok terms leaders last :
  (∀ term, zlen (default [] (leaders !! term)) <= 1) →
  ∃ r, last_term terms leaders last = Passed r ∧ last <= r ∧ (r = last ∨ r ∈ terms) ∧ ∀ term, term ∈ terms → term <= r.
Proof.
  intros Hone. revert last. induction terms as [|term terms IH]; intros last; simpl.
  { exists last. split_and!; [done..|by left|]. by intros ? ?%elem_of_nil. }
  destruct (Z.ltb_spec 1 (zlen (default [] (leaders !! term)))) as [Hlt|_]; [specialize (Hone term); lia|].
  destruct (IH (if term >? last then term else last)) as (r & -> & Hle & Hr & Hall). exists r.
  destruct (Z.gtb_spec term last); (split_and!; [done|lia| |]); set_solver by lia.
Qed.

(** One turn on answers with one leader per term at most. *)
Lemma one_leader_ok reads :
  Nil ∉ reads → (∀ i term, reads !! i = Some (State term true) → 0 <= term) →
  (∀ i j term, reads !! i = Some (State term true) → reads !! j = Some (State term true) → i = j) →
  (one_leader reads = Passed None ∧ ∀ term, State term true ∉ reads) ∨
  ∃ i term, one_leader reads = Passed (Some i) ∧ reads !! i = Some (State term true) ∧
    ∀ j term', reads !! j = Some (State term' true) → j = i ∨ term' < term.
Proof.
  intros Hnil Hpos Huniq. unfold one_leader. destruct (collect_ok 0 reads ∅ Hnil) as (leaders & -> & Hl). cbn -[last_term].
  assert (∀ term, leaders !! term = adds None (leaders_in 0 reads term)) as Hl' by (intros; by rewrite Hl, lookup_empty).
  destruct (last_term_ok (map_order (map_to_list leaders).*1) leaders (-1)) as (r & -> & Hle & Hr & Hall).
  { intros term. rewrite Hl'. pose proof (leaders_in_single 0 reads term (λ j k, Huniq j k term)) as Hs.
    by destruct (leaders_in 0 reads term). }
  assert (∀ term, term ∈ map_order (map_to_list leaders).*1 ↔ is_Some (leaders !! term)) as Hkeys.
  { intros term. rewrite map_order_perm, list_elem_of_fmap. split.
    - intros ([? l] & -> & ?%elem_of_map_to_list). by exists l.
    - intros [l ?]. exists (term, l). split; [done|]. by apply elem_of_map_to_list. }
  cbn. destruct (decide (leaders = ∅)) as [->|Hne].
  - left. split; [done|]. intros term [j Hj]%list_elem_of_lookup. specialize (Hl' term). rewrite lookup_empty in Hl'.
    assert (j ∈ leaders_in 0 reads term) as Hin by (apply elem_leaders_in; by exists j).
    destruct (leaders_in 0 reads term); [by apply elem_of_nil in Hin|done].
  - right. apply map_choose in Hne as (term & l & Hterm).
    assert (is_Some (leaders !! r)) as [lr Hlr].
    { destruct Hr as [->|Hr]; [|by apply Hkeys]. exfalso. assert (term <= -1) as Hneg by (apply Hall, Hkeys; by eexists).
      rewrite Hl' in Hterm. destruct (leaders_in 0 reads term) as [|i l'] eqn:Hli; [done|].
      assert (i ∈ leaders_in 0 reads term) as (k & _ & Hk%Hpos)%elem_leaders_in by (rewrite Hli; left). lia. }
    rewrite Hlr. rewrite Hl' in Hlr. destruct (leaders_in 0 reads r) as [|i l'] eqn:Hli; [done|]. injection Hlr as <-. simpl.
    assert (i ∈ leaders_in 0 reads r) as (k & -> & Hk)%elem_leaders_in by (rewrite Hli; left). simpl.
    exists k, r. split_and!; [done..|]. intros j term' Hj. destruct (decide (term' = r)) as [->|Hne]; [left; by eapply Huniq|].
    right. assert (term' <= r); [|lia]. apply Hall, Hkeys. rewrite Hl'.
    assert (j ∈ leaders_in 0 reads term') as Hin by (apply elem_leaders_in; by exists j).
    destruct (leaders_in 0 reads term'); [by apply elem_of_nil in Hin|by eexists].
Qed.
End leaders.

(** ** What the cluster does *)

Section cluster.
Context {C : Type} `{EqDecision C} (n : nat).
Implicit Types (ls : list (label C)) (s : net C) (ds : list (nat * ApplyMsg C)) (m : ApplyMsg C) (i j t : nat).

(** The tester reads a server's messages in the order in which they are sent, and
    those of different servers in any order. *)
Definition schedule ls ds : Prop :=
  ∀ i, filter (λ d, d.1 = i) ds `prefix_of` filter (λ d, d.1 = i) (deliveries ls (init_net n)).

Lemma schedule_elem ls ds i m : schedule ls ds → (i, m) ∈ ds → (i, m) ∈ deliveries ls (init_net n).
Proof.
  intros Hs Hm. assert ((i, m) ∈ filter (λ d, d.1 = i) ds) as Hf by by apply list_elem_of_filter.
  destruct (Hs i) as [l2 Hl]. apply (list_elem_of_filter (λ d, d.1 = i)). rewrite Hl. apply elem_of_app. by left.
Qed.

Lemma steady_no_restart ls s : steady_run ls s → run ls s ≠ None → forallb no_restart ls = true.
Proof.
  revert s. induction ls as [|lb ls IH]; intros s; simpl; [done|]. intros [[[Ht _] _] Hr] Hrun.
  apply andb_true_iff. split; [by destruct lb|]. destruct (exec lb s) as [s1|]; [|done]. by apply (IH s1).
Qed.

Lemma delivered_valid lb s i m : delivered lb s = Some (i, m) → CommandValid m = true ∧ is_Some (nodes s !! i).
Proof.
  destruct lb; try done. simpl. intros (rf & Hi & ((rf' & msg) & Ha & (msg' & -> & [= <- <-])%bind_Some)%bind_Some)%bind_Some.
  split; [|by eexists]. unfold applier_step in Ha. destruct (_ >? _); [|done]. by apply bind_Some in Ha as (e & _ & [= _ <-]).
Qed.

Lemma deliveries_valid ls s i m :
  (i, m) ∈ deliveries ls s → CommandValid m = true ∧ (i < length (nodes s))%nat.
Proof.
  revert s. induction ls as [|lb ls IH]; intros s; simpl; [by intros ?%elem_of_nil|].
  destruct (exec lb s) as [s1|] eqn:Hx; [|by intros ?%elem_of_nil]. intros [Hd|Hd]%elem_of_app.
  - destruct (delivered lb s) as [[i' m']|] eqn:Hdel; [|by apply elem_of_nil in Hd].
    apply list_elem_of_singleton in Hd as [= <- <-]. destruct (delivered_valid _ _ _ _ Hdel) as [? Hi].
    split; [done|]. by apply lookup_lt_is_Some_1.
  - rewrite <- (exec_length _ _ _ Hx). by apply IH.
Qed.

Lemma deliveries_agree ls s i j m1 m2 :
  steady_run ls (init_net n) → run ls (init_net n) = Some s →
  (i, m1) ∈ deliveries ls (init_net n) → (j, m2) ∈ deliveries ls (init_net n) →
  CommandIndex m1 = CommandIndex m2 → Command m1 = Command m2.
Proof.
  intros Hst Hr H1 H2. destruct (reach_cinv n ls s Hst Hr) as (g & G & E & _ & _ & Hc & Hj).
  eapply justified_agree; [exact Hc|by eapply Hj..].
Qed.

Lemma schedule_consistent ls s ds :
  steady_run ls (init_net n) → run ls (init_net n) = Some s → schedule ls ds → consistent n ds.
Proof.
  intros Hst Hr Hsch. assert (length (nodes (init_net (C := C) n)) = n) as Hlen by (simpl; by rewrite length_fmap, length_seq).
  split.
  - intros i m Hm. destruct (deliveries_valid ls (init_net n) i m) as [? ?]; [by apply (schedule_elem ls ds)|]. by rewrite <- Hlen.
  - intros i j m1 m2 H1 H2. eapply deliveries_agree; [done..|by eapply schedule_elem|by eapply schedule_elem].
  - intros i. destruct (decide (i < n)%nat) as [Hi|Hi].
    + destruct (lookup_lt_is_Some_2 (nodes (init_net (C := C) n)) i) as [rf0 Hrf0]; [by rewrite Hlen|].
      destruct (lookup_lt_is_Some_2 (nodes s) i) as [rf Hrf]; [by rewrite (run_length _ _ _ Hr), Hlen|].
      destruct (run_delivered ls (init_net n) s i rf0 rf) as [Hle Hd]; [|done..|].
      { eapply steady_no_restart; [exact Hst|]. by rewrite Hr. }
      assert (delivered_to i ds `prefix_of` delivered_to i (deliveries ls (init_net n))) as Hpre.
      { destruct (Hsch i) as [l2 Hl2]. exists (CommandIndex ∘ snd <$> l2). unfold delivered_to. by rewrite Hl2, fmap_app. }
      rewrite Hd in Hpre. apply init_node in Hrf0 as [_ ->]. simpl in Hpre, Hle.
      exists (zlen (delivered_to i ds)). split; [apply zlen_nonneg|]. eapply prefix_seqZ; [|exact Hpre]. lia.
    + exists 0. split; [done|]. unfold delivered_to. rewrite list_filter_none; [done|]. intros [i' m] Hm Heq. simpl in Heq. subst.
      apply Hi. destruct (deliveries_valid ls (init_net n) i m) as [? ?]; [by apply (schedule_elem ls ds)|]. by rewrite <- Hlen.
Qed.

(** The answers of [GetState] come from moments of the run. *)
Definition answers ls (reads : list seen) : Prop :=
  (Nil ∉ reads) ∧ ∀ i term leader, reads !! i = Some (State term leader) →
    ∃ t s rf, run (take t ls) (init_net n) = Some s ∧ nodes s !! i = Some rf ∧ GetState rf = (term, leader).

Lemma run_term ls s s' i rf rf' :
  forallb no_restart ls = true → run ls s = Some s' → nodes s !! i = Some rf → nodes s' !! i = Some rf' →
  currentTerm rf <= currentTerm rf'.
Proof.
  revert s rf. induction ls as [|lb ls IH]; intros s rf Hno Hr Hi Hi'; simpl in *.
  { injection Hr as <-. by simplify_eq. }
  apply andb_true_iff in Hno as [Hn Hno]. apply bind_Some in Hr as (s1 & Hx & Hr).
  destruct (lookup_lt_is_Some_2 (nodes s1) i) as [rf1 Hi1].
  { rewrite (exec_length _ _ _ Hx). by eapply lookup_lt_Some. }
  etrans; [|by eapply (IH s1 rf1)].
  destruct (exec_server _ _ _ _ _ _ Hx Hi Hi1) as [->|[Hs|[(_ & msg & Ha)|[-> _]]]]; try done.
  - by destruct (server_step_spec _ _ Hs).
  - by destruct (applier_effect _ _ _ Ha) as (-> & _).
Qed.

Lemma timely_no_restart ls s : timely_run ls s → run ls s ≠ None → forallb no_restart ls = true.
Proof.
  revert s. induction ls as [|lb ls IH]; intros s; simpl; [done|]. intros [Ht Hr] Hrun.
  apply andb_true_iff. split; [by destruct lb|]. destruct (exec lb s) as [s1|]; [|done]. by apply (IH s1).
Qed.

Lemma timely_take ls s t : timely_run ls s → timely_run (take t ls) s.
Proof.
  revert s t. induction ls as [|lb ls IH]; intros s [|t]; simpl; try done. intros [? Hr]. split; [done|].
  destruct (exec lb s); auto.
Qed.

Lemma timely_drop ls s s' t : timely_run ls s → run (take t ls) s = Some s' → timely_run (drop t ls) s'.
Proof.
  revert s t. induction ls as [|lb ls IH]; intros s [|t]; simpl; try done.
  - by intros ? [= <-].
  - intros [? Hr] (s1 & Hx & Hrun)%bind_Some. rewrite Hx in Hr. by eapply IH.
Qed.

Lemma run_take_drop ls s s1 s2 t1 t2 :
  (t1 <= t2)%nat → run (take t1 ls) s = Some s1 → run (take t2 ls) s = Some s2 → run (take (t2 - t1) (drop t1 ls)) s1 = Some s2.
Proof.
  revert s t1 t2. induction ls as [|lb ls IH]; intros s t1 t2 Hle.
  - rewrite drop_nil, !take_nil. simpl. congruence.
  - destruct t1 as [|t1], t2 as [|t2]; simpl; try lia; try congruence.
    intros (sa & Hx & H1)%bind_Some (sb & Hx' & H2)%bind_Some. rewrite Hx in Hx'. injection Hx' as <-.
    eapply IH; [lia|done..].
Qed.

(** At any two moments, two leaders of a term are the same server. *)
Lemma one_leader_per_term ls s1 s2 t1 t2 i j term :
  timely_run ls (init_net n) → run (take t1 ls) (init_net n) = Some s1 → run (take t2 ls) (init_net n) = Some s2 →
  leads s1 i term → leads s2 j term → i = j.
Proof.
  assert (∀ s1 s2 t1 t2 i j, (t1 <= t2)%nat → timely_run ls (init_net n) → run (take t1 ls) (init_net n) = Some s1 →
    run (take t2 ls) (init_net n) = Some s2 → leads s1 i term → leads s2 j term → i = j) as Hle.
  { clear. intros s1 s2 t1 t2 i j Hle Ht H1 H2 (rf & Hi & Hl & <-) (rf' & Hj & Hl' & Hterm).
    destruct (run_safe n _ _ _ _ _ (init_safe n) (timely_take _ _ t1 Ht) H1) as (G & E & Hs & _).
    destruct (run_safe n _ _ _ _ _ Hs (timely_take _ _ (t2 - t1) (timely_drop _ _ _ _ Ht H1)) (run_take_drop _ _ _ _ _ _ Hle H1 H2))
      as (G' & E' & Hs' & _ & HE).
    pose proof (co_leader _ _ _ _ (sf_core _ _ _ _ Hs) i rf Hi Hl) as He1.
    pose proof (co_leader _ _ _ _ (sf_core _ _ _ _ Hs') j rf' Hj Hl') as He2. rewrite Hterm in He2.
    eapply co_elected; [apply Hs'|by apply HE|done]. }
  intros Ht H1 H2 Hl1 Hl2. destruct (Nat.le_ge_cases t1 t2); [by eapply (Hle s1 s2)|symmetry; by eapply (Hle s2 s1)].
Qed.

Lemma answers_leader ls reads i term :
  answers ls reads → reads !! i = Some (State term true) →
  ∃ t s, run (take t ls) (init_net n) = Some s ∧ leads s i term.
Proof.
  intros [_ Ha] Hi. destruct (Ha i term true Hi) as (t & s & rf & Hr & Hrf & Hg). exists t, s. split; [done|].
  exists rf. unfold GetState in Hg. injection Hg as <- Hz. by apply Z.eqb_eq in Hz.
Qed.

Lemma leads_term ls s t i term :
  timely_run ls (init_net n) → run (take t ls) (init_net n) = Some s → leads s i term → 0 <= term.
Proof.
  intros Ht Hr (rf & Hi & _ & <-). destruct (lookup_lt_is_Some_2 (nodes (init_net (C := C) n)) i) as [rf0 Hi0].
  { rewrite <- (run_length _ _ _ Hr). by eapply lookup_lt_Some. }
  assert (currentTerm rf0 <= currentTerm rf) as Hle.
  { eapply run_term; [|exact Hr|done..]. eapply timely_no_restart; [by apply timely_take|by rewrite Hr]. }
  apply init_node in Hi0 as [_ ->]. done.
Qed.

Lemma checkOneLeader_ok `{GoMapOrder} ls turns :
  timely_run ls (init_net n) → (∀ reads, reads ∈ turns → answers ls reads) →
  checkOneLeader turns = Failed NoLeader ∧ (∀ reads term, reads ∈ turns → State term true ∉ reads) ∨
  ∃ i term reads, checkOneLeader turns = Passed i ∧ reads ∈ turns ∧ reads !! i = Some (State term true) ∧
    ∀ j term', reads !! j = Some (State term' true) → j = i ∨ term' < term.
Proof.
  intros Ht. induction turns as [|reads turns IH]; intros Ha; cbn [checkOneLeader].
  { left. split; [done|]. by intros ? ? ?%elem_of_nil. }
  assert (answers ls reads) as Har by (apply Ha; left).
  destruct (one_leader_ok reads) as [[-> Hno]|(i & term & -> & Hi & Hmax)]; [apply Har| | | |].
  - intros i term Hi. destruct (answers_leader ls reads i term Har Hi) as (t & s & Hr & Hl). by eapply leads_term.
  - intros i j term Hi Hj. destruct (answers_leader ls reads i term Har Hi) as (t & s & Hr & Hl).
    destruct (answers_leader ls reads j term Har Hj) as (t' & s' & Hr' & Hl'). by eapply (one_leader_per_term ls s s').
  - cbn. destruct IH as [[-> Hnone]|(i & term & reads' & -> & Hin & Hi & Hmax)]; [intros; apply Ha; by right| |].
    + left. split; [done|]. intros reads' term [->|?]%elem_of_cons; auto.
    + right. exists i, term, reads'. split_and!; [done|by right|done..].
  - right. cbn. exists i, term, reads. split_and!; [done|left|done..].
Qed.
End cluster.

(** ** The theorems *)

(** A schedule of the messages of [two_terms] (RaftCommitSpec.v). *)
Definition msg_a : ApplyMsg string := mkApplyMsg true (Some "a") 1.
Definition msg_b : ApplyMsg string := mkApplyMsg true (Some "b") 2.
Definition some_schedule : list (nat * ApplyMsg string) := [(2, msg_a); (1, msg_a); (2, msg_b)]%nat.

Lemma some_schedule_ok : schedule 3 two_terms some_schedule.
Proof.
  intros i. assert (deliveries two_terms (init_net 3) =
    [(0, msg_a); (1, msg_a); (1, msg_b); (2, msg_a); (2, msg_b)]%nat) as -> by by vm_compute.
  destruct i as [|[|[|i]]]; unfold some_schedule; simpl; by eexists.
Qed.

(** What a check reads at the moments [ts]. *)
Definition reads_at {C} `{EqDecision C} (ds : list (nat * ApplyMsg C)) (index : Z) (ts : list nat)
    : list (option report * option (option C)) :=
  imap (λ i t, match read_all (take t ds) (empty_checker (length ts)) with
               | Passed cfg => look index i cfg
               | _ => (Some NoLeader, None)
               end) ts.

Lemma reads_at_observed {C} `{EqDecision C} n (ds : list (nat * ApplyMsg C)) index ts :
  length ts = n → consistent n ds → observed n ds index (reads_at ds index ts).
Proof.
  intros <- Hco. unfold reads_at. split; [apply length_imap|]. intros i x Hx.
  rewrite list_lookup_imap in Hx. destruct (ts !! i) as [t|]; [|done]. injection Hx as <-.
  destruct (read_all_ok (length ts) (take t ds)) as (cfg & Hr & _).
  { eapply consistent_prefix; [exact Hco|]. exists (drop t ds). by rewrite take_drop. }
  exists t, cfg. rewrite Hr. done.
Qed.

Lemma some_observed index ts : length ts = 3%nat → observed 3 some_schedule index (reads_at some_schedule index ts).
Proof.
  intros Hts. apply reads_at_observed; [done|].
  eapply schedule_consistent; [exact two_terms_steady|exact two_terms_run|exact some_schedule_ok].
Qed.

(** C16: In a run as in [state_machine_safety], however the tester interleaves what
    it receives from the servers, its readers of [applyCh] never report an error
    and record exactly what was delivered; [nCommitted] never fails, whatever
    the moments at which it reads the logs of the servers, and returns how many
    of them it saw and their command. *)
Theorem checks_pass {C} `{EqDecision C} n (ls : list (label C)) s ds :
  steady_run ls (init_net n) → run ls (init_net n) = Some s → schedule n ls ds →
  ∃ cfg, read_all ds (empty_checker n) = Passed cfg ∧ has_read n ds cfg ∧
    ∀ index reads, observed n ds index reads →
      ∃ cmd, nCommitted index reads = Passed (seen_commits reads, cmd) ∧
        (0 < seen_commits reads → ∀ i m, (i, m) ∈ ds → CommandIndex m = index → Command m = cmd).
Proof.
  intros Hst Hr Hsch. pose proof (schedule_consistent n ls s ds Hst Hr Hsch) as Hco.
  destruct (read_all_ok n ds Hco) as (cfg & Hra & Hok). exists cfg. split_and!; [done..|].
  intros index reads. by apply nCommitted_ok.
Qed.

Lemma checks_pass_witness :
  (∃ cfg, read_all some_schedule (empty_checker 3) = Passed cfg ∧ has_read 3 some_schedule cfg ∧
    ∀ index reads, observed 3 some_schedule index reads →
      ∃ cmd, nCommitted index reads = Passed (seen_commits reads, cmd) ∧
        (0 < seen_commits reads → ∀ i m, (i, m) ∈ some_schedule → CommandIndex m = index → Command m = cmd)) ∧
  observed 3 some_schedule 1 (reads_at some_schedule 1 [0; 1; 2]%nat) ∧
  nCommitted 1 (reads_at some_schedule 1 [0; 3; 2]%nat) = Passed (2, Some "a").
Proof.
  split; [|split; [by apply some_observed|by vm_compute]].
  apply (checks_pass 3 two_terms (after two_terms)); [exact two_terms_steady|exact two_terms_run|exact some_schedule_ok].
Defined.

(** C25: In such a run [one] can only fail for lack of time; when it returns an
    index, at least [expectedServers] servers have delivered a message with that
    index, and every message with that index that any server ever delivers in
    the run carries the submitted command. *)
Theorem one_agreement {C} `{EqDecision C} n (ls : list (label C)) s ds cmd expectedServers retry turns starts :
  steady_run ls (init_net n) → run ls (init_net n) = Some s → schedule n ls ds →
  (∀ ask polls reads index, (ask, polls) ∈ turns → reads ∈ polls → observed n ds index (reads index)) →
  one n cmd expectedServers retry turns starts = Failed NoAgreement ∨
  ∃ index, one n cmd expectedServers retry turns starts = Passed index ∧
    (∃ servers, NoDup servers ∧ expectedServers <= zlen servers ∧ 0 < zlen servers ∧
       ∀ i, i ∈ servers → ∃ m, (i, m) ∈ ds ∧ CommandIndex m = index) ∧
    ∀ i m, (i, m) ∈ deliveries ls (init_net n) → CommandIndex m = index → Command m = cmd.
Proof.
  intros Hst Hr Hsch Hobs.
  destruct (one_ok n ds cmd expectedServers retry turns starts) as [|(index & Ho & Hsrv & Hcmd)]; [|done|by left|].
  { by eapply schedule_consistent. }
  right. exists index. split_and!; [done..|]. intros i m Hm Hidx.
  destruct Hsrv as (servers & _ & _ & Hpos & Hin). destruct servers as [|j servers]; [done|].
  destruct (Hin j) as (m' & Hm' & Hidx'); [left|]. rewrite <- (Hcmd j m' Hm' Hidx').
  eapply deliveries_agree; [done..|exact Hm|by eapply schedule_elem|congruence].
Qed.

Lemma one_agreement_witness :
  let turns := [(λ i, if decide (i = 1%nat) then Some 2 else None,
                 [λ index, reads_at some_schedule index [1; 1; 1]%nat; λ index, reads_at some_schedule index [3; 3; 3]%nat])] in
  one 3 (Some "b") 1 true turns 0 = Passed 2 ∧
  (one 3 (Some "b") 1 true turns 0 = Failed NoAgreement ∨
   ∃ index, one 3 (Some "b") 1 true turns 0 = Passed index ∧
    (∃ servers, NoDup servers ∧ 1 <= zlen servers ∧ 0 < zlen servers ∧
       ∀ i, i ∈ servers → ∃ m, (i, m) ∈ some_schedule ∧ CommandIndex m = index) ∧
    ∀ i m, (i, m) ∈ deliveries two_terms (init_net 3) → CommandIndex m = index → Command m = Some "b").
Proof.
  intros turns. split; [by vm_compute|].
  apply (one_agreement 3 two_terms (after two_terms) some_schedule);
    [exact two_terms_steady|exact two_terms_run|exact some_schedule_ok|].
  intros ask polls reads index Hin Hreads. apply list_elem_of_singleton in Hin as [= -> ->].
  apply elem_of_cons in Hreads as [->|Hreads]; [by apply some_observed|].
  apply list_elem_of_singleton in Hreads as ->. by apply some_observed.
Defined.

(** On a cluster in which heartbeat goroutines are timely and servers do not
    restart, [checkOneLeader] never sees two leaders of a term, although it asks
    the servers at different moments, and never indexes an empty slice: it
    returns the only leader of the highest term that some answer names, and
    fails only if no answer of any of its turns names a leader. *)
Lemma one_leader_found {C} `{GoMapOrder} n (ls : list (label C)) turns :
  timely_run ls (init_net n) → (∀ reads, reads ∈ turns → answers n ls reads) →
  checkOneLeader turns = Failed NoLeader ∧ (∀ reads term, reads ∈ turns → State term true ∉ reads) ∨
  ∃ i term reads, checkOneLeader turns = Passed i ∧ reads ∈ turns ∧ reads !! i = Some (State term true) ∧
    ∀ j term', reads !! j = Some (State term' true) → j = i ∨ term' < term.
Proof. apply checkOneLeader_ok. Qed.

(** The answers of the servers after [t1], [t2], ... steps. *)
Definition answers_at {C} n (ls : list (label C)) (ts : list nat) : list seen :=
  imap (λ i t, match run (take t ls) (init_net n) ≫= (λ s, nodes s !! i) with
               | Some rf => State (GetState rf).1 (GetState rf).2
               | None => Disconnected
               end) ts.

Lemma answers_at_ok {C} n (ls : list (label C)) ts : answers n ls (answers_at n ls ts).
Proof.
  unfold answers_at. split.
  - intros [i Hi]%list_elem_of_lookup. rewrite list_lookup_imap in Hi. destruct (ts !! i) as [t|]; [|done]. simpl in Hi.
    by destruct (run _ _ ≫= _).
  - intros i term leader Hi. rewrite list_lookup_imap in Hi. destruct (ts !! i) as [t|]; [|done]. simpl in Hi.
    destruct (run _ _) as [s|] eqn:Hr; [|done]. simpl in Hi. destruct (nodes s !! i) as [rf|] eqn:Hrf; [|done].
    injection Hi as <- <-. by exists t, s, rf.
Qed.

Lemma one_leader_found_witness :
  let turns := [answers_at 3 two_terms [0; 0; 1]%nat; answers_at 3 two_terms [20; 60; 60]%nat] in
  checkOneLeader turns = Passed 1%nat ∧
  (checkOneLeader turns = Failed NoLeader ∧ (∀ reads term, reads ∈ turns → State term true ∉ reads) ∨
   ∃ i term reads, checkOneLeader turns = Passed i ∧ reads ∈ turns ∧ reads !! i = Some (State term true) ∧
     ∀ j term', reads !! j = Some (State term' true) → j = i ∨ term' < term).
Proof.
  intros turns. split; [by vm_compute|]. apply (one_leader_found 3 two_terms).
  - by apply careful_timely, steady_careful, two_terms_steady.
  - intros reads [->|Hr]%elem_of_cons; [apply answers_at_ok|]. apply list_elem_of_singleton in Hr as ->. apply answers_at_ok.
Defined.
End RaftCheckSpec.
