(* ===== verification/KvConfig.v ===== *)
(** Model of the tester's configuration of kvraft/config.go; that of
    shardmaster/config.go has the same code.  Clerks are numbered in the order of
    their creation, the rest is as in RaftConfig.v. *)

From S2P Require Import Prelude GoStd Labrpc Harness.

#[local] Open Scope Z_scope.

Module KvConfig.
Export Harness.

(** ** Shuffling *)

(** [sa[i], sa[j] = sa[j], sa[i]] *)
Definition swap {A} (i j : nat) (sa : list A) : option (list A) :=
  x ← sa !! i; y ← sa !! j; Some (<[j := x]> (<[i := y]> sa)).

(** [rnd i] is what [rand.Intn(i + 1)] returns in turn [i]. *)
Definition random_handles {A} (rnd : nat → nat) (kvh : list A) : option (list A) :=
  for_each (seq 0 (length kvh)) (λ i sa, swap i (rnd i) sa) kvh.

(** ** The configuration *)

(** [type KVServer struct] of kvraft/server.go; its Raft instance is the persister
    it was given and what this held at the start. *)
Record inst := mkInst {
  i_me : nat;
  i_maxraftstate : Z;
  i_persister : nat;
  i_booted : Persister;
  i_dead : bool;
}.

(** On the persister at the address [p]. *)
Definition StartKVServer (me p : nat) (ps : Persister) (maxraftstate : Z) : inst := mkInst me maxraftstate p ps false.

Definition Kill (kv : inst) : inst := mkInst (i_me kv) (i_maxraftstate kv) (i_persister kv) (i_booted kv) true.
Definition killed (kv : inst) : bool := i_dead kv.

(** [c_servers] are the ends of a clerk, in the order in which it tries them. *)
Record clerk := mkClerk { c_servers : list string }.

(** [type config struct] without the statistics; a row [[]] of [endnames] is nil,
    [drawn] counts the calls of [randstring]. *)
Record config := mkConfig {
  net : network;
  n : nat;
  kvservers : list (option nat);
  saved : list (option nat);
  endnames : list (list string);
  clerks : gmap nat (list string);
  nextClientId : Z;
  maxraftstate : Z;
  persisters : list Persister;
  insts : list inst;
  clerk_objects : list clerk;
  drawn : nat;
}.

Definition set_net (rn : network) (cfg : config) : config :=
  mkConfig rn (n cfg) (kvservers cfg) (saved cfg) (endnames cfg) (clerks cfg) (nextClientId cfg) (maxraftstate cfg)
    (persisters cfg) (insts cfg) (clerk_objects cfg) (drawn cfg).
Definition set_kvservers (l : list (option nat)) (xs : list inst) (cfg : config) : config :=
  mkConfig (net cfg) (n cfg) l (saved cfg) (endnames cfg) (clerks cfg) (nextClientId cfg) (maxraftstate cfg)
    (persisters cfg) xs (clerk_objects cfg) (drawn cfg).
Definition set_endnames (l : list (list string)) (drawn : nat) (cfg : config) : config :=
  mkConfig (net cfg) (n cfg) (kvservers cfg) (saved cfg) l (clerks cfg) (nextClientId cfg) (maxraftstate cfg)
    (persisters cfg) (insts cfg) (clerk_objects cfg) drawn.
Definition set_clerks (cks : gmap nat (list string)) (next : Z) (os : list clerk) (drawn : nat) (cfg : config) : config :=
  mkConfig (net cfg) (n cfg) (kvservers cfg) (saved cfg) (endnames cfg) cks next (maxraftstate cfg)
    (persisters cfg) (insts cfg) os drawn.

(** [cfg.saved[i]] becomes the address of a new persister. *)
Definition save_fresh (i : nat) (ps : Persister) (cfg : config) : config :=
  mkConfig (net cfg) (n cfg) (kvservers cfg) (<[i := Some (length (persisters cfg))]> (saved cfg)) (endnames cfg)
    (clerks cfg) (nextClientId cfg) (maxraftstate cfg) (persisters cfg ++ [ps]) (insts cfg) (clerk_objects cfg) (drawn cfg).

Definition saved_persister (i : nat) (cfg : config) : option (option Persister) :=
  p ← saved cfg !! i;
  match p with Some p => ps ← persisters cfg !! p; Some (Some ps) | None => Some None end.

(** [LogSize] and [SnapshotSize]: a nil persister panics. *)
Definition max_size (size : Persister → Z) (cfg : config) : option Z :=
  for_each (seq 0 (n cfg))
    (λ i m, ps ← saved_persister i cfg; ps ← ps; Some (if size ps >? m then size ps else m)) 0.
Definition LogSize : config → option Z := max_size RaftStateSize.
Definition SnapshotSize : config → option Z := max_size Persister.SnapshotSize.

(** ** Connections *)

Definition always (j : nat) : option bool := Some true.

Definition connectUnlocked (i : nat) (to : list nat) (cfg : config) : option config :=
  rn ← for_each to (switch true always (λ t, Some (i, t)) (endnames cfg)) (net cfg);
  rn ← for_each to (switch true always (λ t, Some (t, i)) (endnames cfg)) rn;
  Some (set_net rn cfg).

(** [cfg.endnames[j] != nil] *)
Definition has_names (cfg : config) (j : nat) : option bool :=
  row ← endnames cfg !! j; Some (bool_decide (row ≠ [])).

(** The second loop looks at [endnames[j]] for the position [j] in [from], not
    for the server [from[j]]. *)
Definition disconnectUnlocked (i : nat) (from : list nat) (cfg : config) : option config :=
  let js := seq 0 (length from) in
  rn ← for_each js (switch false (λ _, has_names cfg i) (λ j, t ← from !! j; Some (i, t)) (endnames cfg)) (net cfg);
  rn ← for_each js (switch false (has_names cfg) (λ j, t ← from !! j; Some (t, i)) (endnames cfg)) rn;
  Some (set_net rn cfg).

Definition All (cfg : config) : list nat := seq 0 (n cfg).

Definition ConnectAll (cfg : config) : option config :=
  for_each (seq 0 (n cfg)) (λ i cfg, connectUnlocked i (All cfg) cfg) cfg.

Definition partition (p1 p2 : list nat) (cfg : config) : option config :=
  cfg ← for_each p1 (λ i cfg, cfg ← disconnectUnlocked i p2 cfg; connectUnlocked i p1 cfg) cfg;
  for_each p2 (λ i cfg, cfg ← disconnectUnlocked i p1 cfg; connectUnlocked i p2 cfg) cfg.

(** What the servers say in [GetState]; [None] is a server that was shut down. *)
Fixpoint first_leader (i : nat) (reads : list (option bool)) : option (bool * nat) :=
  match reads with
  | [] => Some (false, 0%nat)
  | None :: _ => None
  | Some is_leader :: reads => if is_leader : bool then Some (true, i) else first_leader (S i) reads
  end.
Definition Leader (reads : list (option bool)) : option (bool * nat) := first_leader 0 reads.

(** The loop of [make_partition] from the servers [js] on. *)
Fixpoint fill (l : nat) (js : list nat) (j : nat) (p1 p2 : list nat) : option (list nat * list nat) :=
  match js with
  | [] => Some (p1, p2)
  | i :: js =>
      if decide (i = l) then fill l js j p1 p2
      else if Nat.ltb j (length p1) then fill l js (S j) (<[j := i]> p1) p2
      else if Nat.ltb (j - length p1) (length p2) then fill l js (S j) p1 (<[(j - length p1)%nat := i]> p2)
      else None
  end.

Definition make_partition (reads : list (option bool)) (cfg : config) : option (list nat * list nat) :=
  '(_, l) ← Leader reads;
  '(p1, p2) ← fill l (seq 0 (n cfg)) 0 (replicate (n cfg / 2 + 1) 0%nat) (replicate (n cfg / 2) 0%nat);
  match p2 with [] => None | _ => Some (p1, <[(length p2 - 1)%nat := l]> p2) end.

(** ** Clerks *)

(** One end of a clerk. *)
Definition switch_end (b : bool) (names : list string) (t : nat) (rn : network) : option network :=
  s ← names !! t; Some (Enable (End s) b rn).

Definition ConnectClientUnlocked (ck : nat) (to : list nat) (cfg : config) : option config :=
  rn ← for_each to (switch_end true (default [] (clerks cfg !! ck))) (net cfg); Some (set_net rn cfg).

Definition DisconnectClientUnlocked (ck : nat) (from : list nat) (cfg : config) : option config :=
  rn ← for_each from (switch_end false (default [] (clerks cfg !! ck))) (net cfg); Some (set_net rn cfg).

(** The ends stay as they are on the network. *)
Definition deleteClient (ck : nat) (cfg : config) : config :=
  set_clerks (delete ck (clerks cfg)) (nextClientId cfg) (clerk_objects cfg) (drawn cfg) cfg.

(** [kv.Kill()] *)
Definition kill (k : nat) (cfg : config) : config :=
  set_kvservers (kvservers cfg) (alter Kill k (insts cfg)) cfg.

(** [cleanup] without the time limit of the test. *)
Definition cleanup (cfg : config) : config :=
  let cfg := foldl (λ cfg kv, if kv is Some k then kill k cfg else cfg) cfg (kvservers cfg) in
  set_net (Cleanup (net cfg)) cfg.

Section names.
(** The bytes of the successive reads of [crypto/rand]. *)
Context (crand : nat → list Z).

Definition draw (k : nat) : string := randstring 20 (crand k).

Definition makeClient (rnd : nat → nat) (to : list nat) (cfg : config) : option (nat * config) :=
  let endnames := draw <$> seq (drawn cfg) (n cfg) in
  rn ← attach endnames 0 (net cfg);
  servers ← random_handles rnd endnames;
  let ck := length (clerk_objects cfg) in
  let cfg := set_clerks (<[ck := endnames]> (clerks cfg)) (nextClientId cfg + 1) (clerk_objects cfg ++ [mkClerk servers])
    (drawn cfg + n cfg) (set_net rn cfg) in
  cfg ← ConnectClientUnlocked ck to cfg;
  Some (ck, cfg).

(** ** Servers *)

Definition ShutdownServer (i : nat) (cfg : config) : option config :=
  cfg ← disconnectUnlocked i (All cfg) cfg;
  let cfg := set_net (DeleteServer (Srv i) (net cfg)) cfg in
  ps ← saved_persister i cfg;
  let cfg := match ps with Some ps => save_fresh i (Copy ps) cfg | None => cfg end in
  kv ← kvservers cfg !! i;
  match kv with
  | Some k => let cfg := kill k cfg in Some (set_kvservers (<[i := None]> (kvservers cfg)) (insts cfg) cfg)
  | None => Some cfg
  end.

Definition StartServer (i : nat) (cfg : config) : option config :=
  _ ← endnames cfg !! i;
  let names := draw <$> seq (drawn cfg) (n cfg) in
  let cfg := set_endnames (<[i := names]> (endnames cfg)) (drawn cfg + n cfg) cfg in
  rn ← attach names 0 (net cfg);
  let cfg := set_net rn cfg in
  ps ← saved_persister i cfg;
  let p := length (persisters cfg) in
  let ps := match ps with Some ps => Copy ps | None => MakePersister end in
  let cfg := save_fresh i ps cfg in
  let k := length (insts cfg) in
  let cfg := set_kvservers (<[i := Some k]> (kvservers cfg)) (insts cfg ++ [StartKVServer i p ps (maxraftstate cfg)]) cfg in
  Some (set_net (AddServer (Srv i) k (net cfg)) cfg).

Definition empty_config (n : nat) (maxraftstate : Z) : config :=
  mkConfig MakeNetwork n (replicate n None) (replicate n None) (replicate n []) ∅ (Z.of_nat n + 1000) maxraftstate [] [] [] 0.

Definition make_config (n : nat) (unreliable : bool) (maxraftstate : Z) : option config :=
  cfg ← for_each (seq 0 n) StartServer (empty_config n maxraftstate);
  cfg ← ConnectAll cfg;
  Some (set_net (Reliable (negb unreliable) (net cfg)) cfg).

End names.

(** ** Statistics *)

(** [ops] is an int32 that [op] increments atomically. *)
Record stats := mkStats { rpcs0 : Z; ops : Z }.

Definition rpcTotal (cfg : config) : Z := GetTotalCount (net cfg).
Definition begin_test (cfg : config) : stats := mkStats (rpcTotal cfg) 0.
Definition op (st : stats) : stats := mkStats (rpcs0 st) ((ops st + 1 + 2 ^ 31) mod 2 ^ 32 - 2 ^ 31).

(** The numbers that [end] prints: peers, RPCs and operations. *)
Definition end_test (st : stats) (cfg : config) : Z * Z * Z := (Z.of_nat (n cfg), rpcTotal cfg - rpcs0 st, ops st).

End KvConfig.
