(* ===== verification/KvConfigSpec.v ===== *)
(** What the configuration of kvraft/config.go promises: shuffled handles are a
    permutation and can be any, partitions separate the servers, a clerk reaches
    the servers it was given, and the leader ends up in the minority. *)

From S2P Require Import Prelude GoStd Labrpc Harness KvConfig.

#[local] Open Scope Z_scope.

Module KvConfigSpec.
Export KvConfig.

(** ** [random_handles] *)

Section shuffle.
Context {A : Type}.
Implicit Types (sa l : list A) (rnd : nat → nat) (i j k : nat).

Lemma swap_perm i j sa sa' : swap i j sa = Some sa' → sa' ≡ₚ sa.
Proof.
  unfold swap. intros (x & Hx & (y & Hy & [= <-])%bind_Some)%bind_Some. symmetry.
  destruct (decide (i = j)) as [<-|Hne].
  - rewrite list_insert_insert_eq, list_insert_id by done. done.
  - apply Permutation_inj. rewrite !length_insert. split; [done|].
    exists (λ k, if decide (k = i) then j else if decide (k = j) then i else k). split.
    + intros k1 k2. repeat case_decide; congruence.
    + intros k. repeat case_decide; subst.
      * rewrite list_lookup_insert_eq by (rewrite length_insert; by eapply lookup_lt_Some). done.
      * rewrite list_lookup_insert_ne by done. rewrite list_lookup_insert_eq by (by eapply lookup_lt_Some). done.
      * by rewrite !list_lookup_insert_ne by done.
Qed.

Lemma swap_total i j sa : (i < length sa)%nat → (j < length sa)%nat → is_Some (swap i j sa).
Proof.
  intros Hi Hj. unfold swap. destruct (lookup_lt_is_Some_2 sa i Hi) as [x ->]. destruct (lookup_lt_is_Some_2 sa j Hj) as [y ->]. done.
Qed.

Lemma shuffle_perm rnd l :
  (∀ i, (rnd i <= i)%nat) → ∃ l', random_handles rnd l = Some l' ∧ l' ≡ₚ l.
Proof.
  intros Hrnd. unfold random_handles. apply (for_each_inv (λ _ sa, sa ≡ₚ l)); [done|].
  intros pre i sa Hi Hp. assert (i ∈ seq 0 (length l)) as [_ Hil]%elem_of_seq by set_solver. apply Permutation_length in Hp as Hlen.
  destruct (swap_total i (rnd i) sa) as [sa' Hs]; [lia|specialize (Hrnd i); lia|].
  exists sa'. split; [done|]. etrans; [by eapply swap_perm|done].
Qed.

Lemma for_each_ext {S} js (f g : nat → S → option S) s :
  (∀ j s, j ∈ js → f j s = g j s) → for_each js f s = for_each js g s.
Proof.
  revert s. induction js as [|j js IH]; intros s Hfg; simpl; [done|]. rewrite Hfg by left.
  destruct (g j s); simpl; [|done]. apply IH. intros. apply Hfg. by right.
Qed.

(** Turns below the length of a prefix do not see what follows it. *)
Lemma swaps_prefix rnd js sa sa' l :
  (∀ i, (rnd i <= i)%nat) → (∀ j, j ∈ js → (j < length sa)%nat) →
  for_each js (λ i sa, swap i (rnd i) sa) sa = Some sa' → for_each js (λ i sa, swap i (rnd i) sa) (sa ++ l) = Some (sa' ++ l).
Proof.
  intros Hrnd. revert sa. induction js as [|j js IH]; intros sa Hjs; simpl; [by intros [= <-]|].
  intros (sa1 & Hs & Hf)%bind_Some. assert (j < length sa)%nat as Hj by (apply Hjs; left). specialize (Hrnd j) as Hr.
  assert (length sa1 = length sa) as Hlen by by apply Permutation_length, (swap_perm j (rnd j)).
  assert (swap j (rnd j) (sa ++ l) = Some (sa1 ++ l)) as ->.
  { unfold swap in Hs |- *. rewrite !lookup_app_l by lia. destruct (sa !! j); [|done]. simpl in *.
    destruct (sa !! rnd j); [|done]. simpl in *. injection Hs as <-.
    rewrite insert_app_l by lia. by rewrite insert_app_l by (rewrite length_insert; lia). }
  simpl. apply IH; [|done]. intros k Hk. rewrite Hlen. apply Hjs. by right.
Qed.

Lemma insert_last l x y : <[length l := y]> (l ++ [x]) = l ++ [y].
Proof. by rewrite insert_app_r_alt, Nat.sub_diag. Qed.

(** The draws that leave [l'] of [l ++ [x]]: the last turn brings [x] to its
    position. *)
Lemma shuffle_any l l' : l' ≡ₚ l → ∃ rnd, (∀ i, (rnd i <= i)%nat) ∧ random_handles rnd l = Some l'.
Proof.
  revert l'. induction l as [|x l IH] using rev_ind; intros l' Hp.
  { apply Permutation_nil_r in Hp as ->. exists id. by split; [intros; unfold id|]. }
  assert (length l' = S (length l)) as Hlen by (rewrite Hp, length_app; simpl; lia).
  assert (x ∈ l') as [j Hj]%list_elem_of_lookup by (rewrite Hp; apply elem_of_app; right; left).
  assert (∃ y l1, l' = l1 ++ [y]) as (y & l1 & ->).
  { destruct l' as [|y l1 _] using rev_ind; [done|]. eauto. }
  assert (length l1 = length l) as Hl1 by (rewrite length_app in Hlen; simpl in Hlen; lia).
  assert ((if decide (j = length l) then l1 else <[j := y]> l1) ≡ₚ l) as Hsa.
  { apply (Permutation_app_inv_r [x]). rewrite <- Hp. case_decide as Hjl.
    - rewrite lookup_app_r in Hj by lia. replace (j - length l1)%nat with 0%nat in Hj by lia. by injection Hj as ->.
    - assert (j < length l1)%nat as Hlt by (apply lookup_lt_Some in Hj; rewrite length_app in Hj; simpl in Hj; lia).
      rewrite lookup_app_l in Hj by done. rewrite (Permutation_app_comm _ [x]), (Permutation_app_comm _ [y]). simpl.
      rewrite <- (take_drop_middle l1 j x Hj) at 2. rewrite insert_take_drop by done.
      rewrite <- !Permutation_middle. apply perm_swap. }
  destruct (IH _ Hsa) as (rnd & Hrnd & Hsh). exists (λ i, if decide (i = length l) then j else rnd i). split.
  { intros i. destruct (decide (i = length l)) as [->|]; [|apply Hrnd]. apply lookup_lt_Some in Hj. rewrite length_app in Hj. simpl in Hj. lia. }
  unfold random_handles. rewrite length_app, seq_app, for_each_app. simpl.
  rewrite (for_each_ext _ _ (λ i sa, swap i (rnd i) sa)).
  2: { intros i sa [_ Hi]%elem_of_seq. by rewrite decide_False by lia. }
  assert (∀ k, k ∈ seq 0 (length l) → (k < length l)%nat) as Hlt by by intros k [_ ?]%elem_of_seq.
  rewrite (swaps_prefix rnd _ l _ [x] Hrnd Hlt Hsh). simpl. clear Hlt.
  rewrite decide_True by done. unfold swap. destruct (decide (j = length l)) as [->|Hne].
  - rewrite <- Hl1 in Hj |- *. rewrite list_lookup_middle in Hj by done. injection Hj as ->.
    rewrite !list_lookup_middle by done. simpl. by rewrite !insert_last.
  - assert (j < length l1)%nat as Hlt by (apply lookup_lt_Some in Hj; rewrite length_app in Hj; simpl in Hj; lia).
    rewrite lookup_app_l in Hj by done. rewrite (list_lookup_middle (<[j := y]> l1) [] x (length l)) by (rewrite length_insert; lia). simpl.
    rewrite lookup_app_l by (rewrite length_insert; lia). rewrite list_lookup_insert_eq by done. simpl.
    assert (length (<[j := y]> l1) = length l) as Hli by (rewrite length_insert; lia).
    rewrite <- Hli, insert_last. simpl. rewrite insert_app_l by (rewrite length_insert; lia).
    by rewrite list_insert_insert_eq, list_insert_id.
Qed.
End shuffle.

(** ** Links *)

(** All servers have been started, and the links between them are [L]; the ends
    of [X] belong to clerks. *)
Record kv_links cfg (L : nat → nat → bool) (X : string → Prop) : Prop := mkKvLinks {
  kl_len : length (endnames cfg) = n cfg;
  kl_rows : ∀ i row, endnames cfg !! i = Some row → length row = n cfg;
  kl_wired : wired (endnames cfg) L X (net cfg);
}.

(** The end from [a] to [c] is enabled. *)
Definition reaches cfg (a c : nat) : bool :=
  match link (endnames cfg) (a, c) with
  | Some x => i_enabled (readEndnameInfo (End x) (net cfg))
  | None => false
  end.

Lemma kv_link cfg L X a c : kv_links cfg L X → (a < n cfg)%nat → (c < n cfg)%nat → is_Some (link (endnames cfg) (a, c)).
Proof.
  intros [Hl Hr _] Ha Hc. unfold link. simpl. destruct (lookup_lt_is_Some_2 (endnames cfg) a) as [row Hrow]; [lia|].
  rewrite Hrow. simpl. apply lookup_lt_is_Some. by rewrite (Hr a row).
Qed.

Lemma kv_reaches cfg L X a c :
  kv_links cfg L X → (a < n cfg)%nat → (c < n cfg)%nat → reaches cfg a c = L a c.
Proof.
  intros Hk Ha Hc. unfold reaches. destruct (kv_link cfg L X a c Hk Ha Hc) as [x Hx]. rewrite Hx.
  apply (w_on _ _ _ _ (kl_wired _ _ _ Hk) _ _ _ Hx).
Qed.

Lemma kv_ext cfg L L' X :
  kv_links cfg L X → (∀ a c, (a < n cfg)%nat → (c < n cfg)%nat → L a c = L' a c) → kv_links cfg L' X.
Proof.
  intros [Hl Hr Hw] HL. split; try done. eapply wired_ext; [exact Hw|]. intros a c [x Hx]. apply HL.
  - unfold link in Hx. simpl in Hx. destruct (endnames cfg !! a) eqn:Ha; [|done]. apply lookup_lt_Some in Ha. lia.
  - unfold link in Hx. simpl in Hx. destruct (endnames cfg !! a) as [row|] eqn:Ha; [|done]. simpl in Hx.
    apply lookup_lt_Some in Hx. by rewrite (Hr a row) in Hx.
Qed.

Definition both (i : nat) (l : list nat) (a c : nat) : Prop := (a = i ∧ c ∈ l) ∨ (c = i ∧ a ∈ l).

#[export] Instance both_dec i l a c : Decision (both i l a c).
Proof. unfold both. apply _. Defined.

(** [link]s from [i] to the servers of [to], or the other way round. *)
Lemma connect_ok i to cfg L X :
  kv_links cfg L X → (i < n cfg)%nat → (∀ t, t ∈ to → (t < n cfg)%nat) →
  ∃ rn, connectUnlocked i to cfg = Some (set_net rn cfg) ∧ rewired (net cfg) rn ∧
    kv_links (set_net rn cfg) (λ a c, if decide (both i to a c) then true else L a c) X.
Proof.
  intros Hk Hi Hto. unfold connectUnlocked.
  destruct (switch_links true always (λ t, Some (i, t)) (endnames cfg) L X to (net cfg) (kl_wired _ _ _ Hk))
    as (rn1 & -> & Hre1 & Hw1).
  { intros t Ht. exists true. split; [done|]. intros _. eapply kv_link; [exact Hk|done|by apply Hto]. }
  destruct (switch_links true always (λ t, Some (t, i)) (endnames cfg) _ X to rn1 Hw1) as (rn2 & Hrn2 & Hre2 & Hw2).
  { intros t Ht. exists true. split; [done|]. intros _. eapply kv_link; [exact Hk|by apply Hto|done]. }
  simpl. rewrite Hrn2. exists rn2. split; [done|]. split; [by etrans|]. destruct Hk. split; try done.
  eapply wired_ext; [exact Hw2|]. intros a c _. simpl.
  assert (∀ p : nat * nat, Exists (λ j, always j = Some true ∧ Some (j, i) = Some p) to ↔ p.2 = i ∧ p.1 ∈ to) as He1.
  { intros [a' c']. rewrite Exists_exists. simpl. split; [intros (j & ? & _ & [= <- <-]); done|intros [-> ?]; eauto]. }
  assert (∀ p : nat * nat, Exists (λ j, always j = Some true ∧ Some (i, j) = Some p) to ↔ p.1 = i ∧ p.2 ∈ to) as He2.
  { intros [a' c']. rewrite Exists_exists. simpl. split; [intros (j & ? & _ & [= <- <-]); done|intros [-> ?]; eauto]. }
  specialize (He1 (a, c)). specialize (He2 (a, c)). unfold both. simpl in *. repeat case_decide; (done || tauto).
Qed.

Lemma disconnect_ok i from cfg L X :
  kv_links cfg L X → (i < n cfg)%nat → (∀ t, t ∈ from → (t < n cfg)%nat) → (length from <= n cfg)%nat →
  ∃ rn, disconnectUnlocked i from cfg = Some (set_net rn cfg) ∧ rewired (net cfg) rn ∧
    kv_links (set_net rn cfg) (λ a c, if decide (both i from a c) then false else L a c) X.
Proof.
  intros Hk Hi Hfrom Hlen. unfold disconnectUnlocked.
  assert (∀ j, (j < n cfg)%nat → has_names cfg j = Some true) as Hhas.
  { intros j Hj. unfold has_names. destruct (lookup_lt_is_Some_2 (endnames cfg) j) as [row Hrow]; [by rewrite (kl_len _ _ _ Hk)|].
    rewrite Hrow. simpl. f_equal. apply bool_decide_eq_true. intros ->. apply (kl_rows _ _ _ Hk) in Hrow. simpl in Hrow. lia. }
  assert (∀ j, j ∈ seq 0 (length from) → ∃ t, from !! j = Some t ∧ (t < n cfg)%nat) as Hat.
  { intros j [_ Hj]%elem_of_seq. destruct (lookup_lt_is_Some_2 from j Hj) as [t Ht]. exists t. split; [done|].
    apply Hfrom. by eapply list_elem_of_lookup_2. }
  destruct (switch_links false (λ _, has_names cfg i) (λ j, t ← from !! j; Some (i, t)) (endnames cfg) L X
    (seq 0 (length from)) (net cfg) (kl_wired _ _ _ Hk)) as (rn1 & -> & Hre1 & Hw1).
  { intros j Hj. exists true. split; [by apply Hhas|]. intros _. destruct (Hat j Hj) as (t & -> & Ht). simpl. by eapply kv_link. }
  destruct (switch_links false (has_names cfg) (λ j, t ← from !! j; Some (t, i)) (endnames cfg) _ X
    (seq 0 (length from)) rn1 Hw1) as (rn2 & Hrn2 & Hre2 & Hw2).
  { intros j Hj. exists true. split; [apply Hhas; apply elem_of_seq in Hj; lia|]. intros _.
    destruct (Hat j Hj) as (t & -> & Ht). simpl. by eapply kv_link. }
  simpl. rewrite Hrn2. exists rn2. split; [done|]. split; [by etrans|]. destruct Hk. split; try done.
  eapply wired_ext; [exact Hw2|]. intros a c _. simpl.
  assert (∀ (f : nat → nat * nat) cond p, (∀ j, (j < n cfg)%nat → cond j = Some true) →
    Exists (λ j, cond j = Some true ∧ (t ← from !! j; Some (f t)) = Some p) (seq 0 (length from)) ↔ ∃ t, t ∈ from ∧ f t = p) as Hex.
  { intros f cond p Hcond. rewrite Exists_exists. split.
    - intros (j & _ & _ & (t & Ht & [= <-])%bind_Some). exists t. split; [by eapply list_elem_of_lookup_2|done].
    - intros (t & [j Hj]%list_elem_of_lookup & <-). exists j. apply lookup_lt_Some in Hj as Hlt.
      split_and!; [apply elem_of_seq; lia|apply Hcond; lia|by rewrite Hj]. }
  pose proof (Hex (λ t, (t, i)) (has_names cfg) (a, c) Hhas) as He1.
  pose proof (Hex (λ t, (i, t)) (λ _, has_names cfg i) (a, c) (λ j _, Hhas i Hi)) as He2.
  assert ((∃ t, t ∈ from ∧ (t, i) = (a, c)) ↔ c = i ∧ a ∈ from) as Hp1 by naive_solver.
  assert ((∃ t, t ∈ from ∧ (i, t) = (a, c)) ↔ a = i ∧ c ∈ from) as Hp2 by naive_solver.
  rewrite Hp1 in He1. rewrite Hp2 in He2. unfold both. repeat case_decide; (done || tauto).
Qed.

(** The links after the servers of [side] have been isolated from [other] and
    connected with each other. *)
Definition within (done side : list nat) (a c : nat) : Prop := (a ∈ done ∧ c ∈ side) ∨ (c ∈ done ∧ a ∈ side).

#[export] Instance within_dec done side a c : Decision (within done side a c).
Proof. unfold within. apply _. Defined.

Definition split_off (done side other : list nat) (L : nat → nat → bool) (a c : nat) : bool :=
  if decide (within done side a c) then true else if decide (within done other a c) then false else L a c.

Lemma split_off_step i pre side other L a c :
  pre ++ [i] ⊆ side → (∀ x, x ∈ side → x ∉ other) →
  (if decide (both i side a c) then true else if decide (both i other a c) then false else split_off pre side other L a c) =
  split_off (pre ++ [i]) side other L a c.
Proof.
  intros Hsub Hdis. unfold split_off.
  assert (∀ l, within (pre ++ [i]) l a c ↔ both i l a c ∨ within pre l a c) as Hw.
  { intros l. unfold within, both. rewrite !elem_of_app, !list_elem_of_singleton. tauto. }
  assert (both i other a c → ¬ within pre side a c) as Hno.
  { unfold both, within. intros [[-> ?]|[-> ?]] [[? ?]|[? ?]]; set_solver. }
  pose proof (Hw side). pose proof (Hw other). repeat case_decide; (done || tauto).
Qed.

Lemma side_ok side other cfg L X :
  kv_links cfg L X → (∀ t, t ∈ side ++ other → (t < n cfg)%nat) → (length other <= n cfg)%nat →
  (∀ x, x ∈ side → x ∉ other) →
  ∃ rn, for_each side (λ i cfg, cfg ← disconnectUnlocked i other cfg; connectUnlocked i side cfg) cfg = Some (set_net rn cfg) ∧
    rewired (net cfg) rn ∧ kv_links (set_net rn cfg) (split_off side side other L) X.
Proof.
  intros Hk Hlt Hlen Hdis. pose (P := λ (pre : list nat) cfg', ∃ rn, cfg' = set_net rn cfg ∧ rewired (net cfg) rn ∧
    kv_links cfg' (split_off pre side other L) X).
  destruct (for_each_inv P (λ i cfg, cfg ← disconnectUnlocked i other cfg; connectUnlocked i side cfg) side cfg)
    as (cfg' & Hf & HP).
  - exists (net cfg). split_and!; [by destruct cfg|done|]. eapply kv_ext; [exact Hk|].
    intros a c _ _. unfold split_off. rewrite !decide_False; [done|unfold within; set_solver..].
  - intros pre i cfg1 Hsub (rn & -> & Hre & Hk1).
    destruct (disconnect_ok i other (set_net rn cfg) _ X Hk1) as (rn2 & -> & Hre2 & Hk2);
      [apply Hlt; set_solver|intros; apply Hlt; set_solver|done|]. simpl.
    destruct (connect_ok i side _ _ X Hk2) as (rn3 & -> & Hre3 & Hk3);
      [apply Hlt; set_solver|intros; apply Hlt; set_solver|].
    eexists. split; [done|]. exists rn3. split_and!; [done|by do 2 (etrans; [done|])|].
    eapply kv_ext; [exact Hk3|]. intros a c _ _. by apply split_off_step.
  - destruct HP as (rn & -> & Hre & Hk'). by exists rn.
Qed.

(** ** Starting servers *)

Section names.
Context (crand : nat → list Z).

Definition new_names cfg : list string := draw crand <$> seq (drawn cfg) (n cfg).

Lemma StartServer_links i cfg cfg' L X :
  wired (endnames cfg) L X (net cfg) → (∀ c x, link (endnames cfg) (i, c) = Some x → on (net cfg) x = false) →
  StartServer crand i cfg = Some cfg' →
  n cfg' = n cfg ∧ endnames cfg' = <[i := new_names cfg]> (endnames cfg) ∧ (i < length (endnames cfg))%nat ∧
  wired (endnames cfg') (λ a c, if decide (a = i) then false else L a c) X (net cfg').
Proof.
  intros Hw Hoff Hst. unfold StartServer in Hst. apply bind_Some in Hst as (row & Hrow & Hst). apply lookup_lt_Some in Hrow.
  apply bind_Some in Hst as (rn & Hat & Hst). apply bind_Some in Hst as (ps & _ & [= <-]). simpl in Hat |- *.
  split_and!; try done. assert (wired (<[i := new_names cfg]> (endnames cfg)) (λ a c, if decide (a = i) then false else L a c) X rn)
    as [? ? ? ? ? ?]; [by eapply wired_row|]. by split.
Qed.

Lemma ConnectAll_ok cfg L X :
  kv_links cfg L X → ∃ rn, ConnectAll cfg = Some (set_net rn cfg) ∧ rewired (net cfg) rn ∧ kv_links (set_net rn cfg) (λ _ _, true) X.
Proof.
  intros Hk. pose (P := λ (pre : list nat) cfg', ∃ rn, cfg' = set_net rn cfg ∧ rewired (net cfg) rn ∧
    kv_links cfg' (λ a c, if decide (a ∈ pre ∨ c ∈ pre) then true else L a c) X).
  destruct (for_each_inv P (λ i cfg, connectUnlocked i (All cfg) cfg) (seq 0 (n cfg)) cfg) as (cfg' & Hf & rn & -> & Hre & Hk').
  - exists (net cfg). split_and!; [by destruct cfg|done|]. eapply kv_ext; [exact Hk|].
    intros a c _ _. by rewrite decide_False by (intros [?%elem_of_nil|?%elem_of_nil]; done).
  - intros pre i cfg1 Hsub (rn & -> & Hre & Hk1). assert (i ∈ seq 0 (n cfg)) as [_ Hi]%elem_of_seq by set_solver.
    destruct (connect_ok i (All (set_net rn cfg)) _ _ X Hk1) as (rn2 & -> & Hre2 & Hk2); [done|by intros t [_ ?]%elem_of_seq|].
    eexists. split; [done|]. exists rn2. split_and!; [done|by etrans|]. eapply kv_ext; [exact Hk2|].
    intros a c Ha Hc. simpl in Ha, Hc. cbn beta. unfold both, All. simpl.
    assert (a ∈ seq 0 (n cfg)) by (apply elem_of_seq; lia). assert (c ∈ seq 0 (n cfg)) by (apply elem_of_seq; lia).
    assert (∀ x, x ∈ pre ++ [i] ↔ x ∈ pre ∨ x = i) as Hpre by (intros; by rewrite elem_of_app, list_elem_of_singleton).
    pose proof (Hpre a). pose proof (Hpre c). repeat case_decide; (done || tauto).
  - exists rn. split_and!; [done..|]. eapply kv_ext; [exact Hk'|]. intros a c Ha _. simpl in Ha.
    cbn beta. rewrite decide_True; [done|]. left. apply elem_of_seq. lia.
Qed.

Lemma make_config_links n0 unreliable m cfg :
  make_config crand n0 unreliable m = Some cfg → n cfg = n0 ∧ kv_links cfg (λ _ _, true) (λ _, False).
Proof.
  unfold make_config. intros (cfg1 & Hf & (cfg2 & Hc & [= <-])%bind_Some)%bind_Some.
  pose (P := λ (pre : list nat) cfg, n cfg = n0 ∧ length (endnames cfg) = n0 ∧
    (∀ i row, endnames cfg !! i = Some row → row = [] ∧ i ∉ pre ∨ length row = n0) ∧
    wired (endnames cfg) (λ _ _, false) (λ _, False) (net cfg)).
  assert (P (seq 0 n0) cfg1) as (Hn & Hl & Hr & Hw).
  { eapply (for_each_spec P); [|clear Hf|exact Hf].
    - split_and!; [done|apply length_replicate| |].
      + intros i row [-> _]%lookup_replicate. left. split; [done|]. apply not_elem_of_nil.
      + assert (∀ p, link (replicate n0 []) p = None) as Hno.
        { intros [a c]. unfold link. simpl. destruct (replicate n0 [] !! a) as [row|] eqn:Ha; [|done].
          by apply lookup_replicate in Ha as [-> _]. }
        split; try done; intros *; simpl; rewrite ?Hno; done.
    - intros pre i s s' Hsub (Hn & Hl & Hr & Hw) Hst.
      destruct (StartServer_links i s s' _ _ Hw) as (Hn' & He & Hi & Hw'); [|exact Hst|].
      { intros c x. apply (w_on _ _ _ _ Hw). }
      split_and!; [by rewrite Hn'|by rewrite He, length_insert| |].
      + intros j row. rewrite He. intros [(<- & <- & _)|[Hne Hj]]%list_lookup_insert_Some.
        * right. unfold new_names. by rewrite length_fmap, length_seq.
        * destruct (Hr j row Hj) as [[-> Hnin]|?]; [left|by right]. split; [done|]. set_solver.
      + eapply wired_ext; [exact Hw'|]. intros a c _. cbn beta. by case_decide. }
  assert (kv_links cfg1 (λ _ _, false) (λ _, False)) as Hk.
  { split; [by rewrite Hn| |done]. intros i row Hrow. rewrite Hn. destruct (Hr i row Hrow) as [[_ Hnin]|]; [|done].
    destruct Hnin. apply elem_of_seq. apply lookup_lt_Some in Hrow. lia. }
  destruct (ConnectAll_ok cfg1 _ _ Hk) as (rn & Hc' & _ & [Hl2 Hr2 [? ? ? ? ? ?]]). rewrite Hc in Hc'. injection Hc' as ->.
  split; [done|]. by split; [..|split].
Qed.

(** ** Clerks *)

Lemma switch_end_ok b names to rn rn' :
  for_each to (switch_end b names) rn = Some rn' →
  rewired rn rn' ∧ (∀ x, on rn' x = if decide (Exists (λ t, names !! t = Some x) to) then b else on rn x) ∧
  ∀ endnames L (X : string → Prop), (∀ x, x ∈ names → X x) → wired endnames L X rn → wired endnames L X rn'.
Proof.
  pose (P := λ (pre : list nat) rn', rewired rn rn' ∧
    (∀ x, on rn' x = if decide (Exists (λ t, names !! t = Some x) pre) then b else on rn x) ∧
    ∀ endnames L (X : string → Prop), (∀ x, x ∈ names → X x) → wired endnames L X rn → wired endnames L X rn').
  apply (for_each_spec P).
  - split_and!; [done| |done]. intros x. rewrite decide_False; [done|]. by intros ?%Exists_nil.
  - intros pre t s s' _ (Hre & Hon & Hw) Hs. unfold switch_end in Hs. apply bind_Some in Hs as (y & Hy & [= <-]).
    split_and!; [by etrans; [|apply rewired_Enable]| |].
    + intros x. rewrite on_Enable, Hon. assert (Exists (λ t, names !! t = Some x) (pre ++ [t]) ↔
        Exists (λ t, names !! t = Some x) pre ∨ y = x) as Hex.
      { rewrite Exists_app, Exists_cons, Exists_nil, Hy. naive_solver. }
      rewrite (decide_ext _ _ _ _ Hex). repeat case_decide; (done || tauto).
    + intros en L X HX Hw0. apply wired_Enable_other; [by apply Hw|]. apply HX. by eapply list_elem_of_lookup_2.
Qed.

(** A new clerk reaches the servers of [to]. *)
Lemma makeClient_ok rnd to cfg L X ck cfg' :
  kv_links cfg L X → (∀ i, (rnd i <= i)%nat) → makeClient crand rnd to cfg = Some (ck, cfg') →
  ∃ names servers, clerks cfg' !! ck = Some names ∧ clerk_objects cfg' !! ck = Some (mkClerk servers) ∧ servers ≡ₚ names ∧
    length names = n cfg ∧ kv_links cfg' L (λ x, X x ∨ x ∈ names) ∧
    ∀ j x, names !! j = Some x → target (net cfg') x = Some (Srv j) ∧ on (net cfg') x = bool_decide (j ∈ to).
Proof.
  intros [Hl Hr Hw] Hrnd Hm. unfold makeClient in Hm. fold (new_names cfg) in Hm.
  apply bind_Some in Hm as (rn & Hat & Hm). apply bind_Some in Hm as (servers & Hsh & Hm).
  apply bind_Some in Hm as (cfg2 & Hcon & [= <- <-]). unfold ConnectClientUnlocked in Hcon. simpl in Hcon.
  rewrite lookup_insert_eq in Hcon. simpl in Hcon. apply bind_Some in Hcon as (rn2 & Hsw & [= <-]).
  destruct (switch_end_ok _ _ _ _ _ Hsw) as (Hre & Hon & Hkeep). pose proof (attach_spec _ _ _ _ Hat) as Hatt.
  destruct (shuffle_perm rnd (new_names cfg) Hrnd) as (sv & Hsv & Hp). rewrite Hsh in Hsv. injection Hsv as <-.
  exists (new_names cfg), servers. split_and!; simpl.
  - by rewrite lookup_insert_eq.
  - by rewrite list_lookup_middle.
  - done.
  - unfold new_names. by rewrite length_fmap, length_seq.
  - split; [done..|]. apply Hkeep; [by right|]. by eapply wired_others.
  - intros j x Hx. split.
    + rewrite (rewired_target rn rn2) by done. by apply (at_target _ _ _ _ Hatt) in Hx.
    + assert (x ∈ new_names cfg) as Hin by by eapply list_elem_of_lookup_2.
      rewrite Hon, (at_on _ _ _ _ Hatt). destruct (decide (x ∈ new_names cfg)) as [_|]; [|done].
      rewrite bool_decide_decide. apply decide_ext. rewrite Exists_exists. split.
      * intros (t & Ht & Hxt). by rewrite (NoDup_lookup _ j t x (at_nodup _ _ _ _ Hatt) Hx Hxt).
      * intros Hj. by exists j.
Qed.
End names.

(** ** [make_partition] *)

Definition others (l : nat) (js : list nat) : list nat := filter (λ i, i ≠ l) js.

(** [fill] writes the servers other than [l] one after the other into the two
    slices. *)
Lemma fill_ok l js j p1 p2 :
  (j + length (others l js) <= length p1 + length p2)%nat →
  ∃ p1' p2', fill l js j p1 p2 = Some (p1', p2') ∧ length p1' = length p1 ∧ length p2' = length p2 ∧
    p1' ++ p2' = take j (p1 ++ p2) ++ others l js ++ drop (j + length (others l js)) (p1 ++ p2).
Proof.
  revert j p1 p2. induction js as [|i js IH]; intros j p1 p2 Hle; unfold others in *; simpl.
  { exists p1, p2. split_and!; try done. simpl. by rewrite Nat.add_0_r, take_drop. }
  rewrite filter_cons in Hle |- *. destruct (decide (i = l)) as [->|Hil].
  - rewrite decide_False in Hle |- * by (by intros []). by apply IH.
  - rewrite decide_True in Hle |- * by done. simpl in Hle |- *.
    assert (∀ q, (j < length q)%nat → take (S j) (<[j := i]> q) = take j q ++ [i] ∧
      ∀ k, drop (S j + k) (<[j := i]> q) = drop (S j + k) q) as Hq.
    { intros q Hj. split; [|intros k; by rewrite drop_insert_lt by lia].
      rewrite (take_S_r _ j i) by (by apply list_lookup_insert_eq). by rewrite take_insert_ge by lia. }
    assert (∃ q1 q2, (if Nat.ltb j (length p1) then fill l js (S j) (<[j := i]> p1) p2
        else if Nat.ltb (j - length p1) (length p2) then fill l js (S j) p1 (<[(j - length p1)%nat := i]> p2) else None) =
        fill l js (S j) q1 q2 ∧ length q1 = length p1 ∧ length q2 = length p2 ∧ q1 ++ q2 = <[j := i]> (p1 ++ p2))
      as (q1 & q2 & -> & Hl1 & Hl2 & Hq12).
    { destruct (Nat.ltb_spec j (length p1)) as [Hj|Hj].
      - exists (<[j := i]> p1), p2. rewrite length_insert. split_and!; try done. by rewrite insert_app_l.
      - destruct (Nat.ltb_spec (j - length p1) (length p2)) as [Hj2|Hj2]; [|lia].
        exists p1, (<[(j - length p1)%nat := i]> p2). rewrite length_insert. split_and!; try done. by rewrite insert_app_r_alt. }
    destruct (IH (S j) q1 q2) as (p1' & p2' & -> & H1 & H2 & H3); [lia|]. exists p1', p2'.
    split_and!; [done|lia|lia|]. rewrite H3, Hq12. destruct (Hq (p1 ++ p2)) as [-> ->]; [rewrite length_app; lia|].
    rewrite <- app_assoc. simpl. do 3 f_equal. f_equal. lia.
Qed.

Lemma first_leader_lt reads i b l :
  first_leader i reads = Some (b, l) → (l < i + length reads)%nat ∨ (b, l) = (false, 0%nat).
Proof.
  revert i. induction reads as [|[[]|] reads IH]; intros i; simpl; try done.
  - intros [= <- <-]. by right.
  - intros [= <- <-]. left. lia.
  - intros [?|?]%IH; [left; lia|by right].
Qed.

Lemma length_others l n : (l < n)%nat → others l (seq 0 n) ++ [l] ≡ₚ seq 0 n.
Proof.
  intros Hl. assert (l ∈ seq 0 n) as (l1 & l2 & Hsp)%list_elem_of_split by (apply elem_of_seq; lia).
  assert (NoDup (seq 0 n)) as Hnd by apply NoDup_seq. rewrite Hsp in Hnd |- *.
  unfold others. rewrite filter_app, filter_cons_False by (by intros []).
  apply NoDup_app in Hnd as (_ & Hd1 & [Hd2 _]%NoDup_cons).
  rewrite !list_filter_all; [|by intros x Hx ->|intros x Hx ->; by apply (Hd1 l Hx); left].
  by rewrite <- app_assoc, (Permutation_app_comm l2).
Qed.

Lemma make_partition_ok h reads cfg b l :
  n cfg = (2 * h + 1)%nat → (1 <= h)%nat → length reads = n cfg → Leader reads = Some (b, l) →
  ∃ p1 p2, make_partition reads cfg = Some (p1, p2 ++ [l]) ∧ p1 ++ p2 = others l (seq 0 (n cfg)) ∧
    length p1 = S h ∧ length p2 = (h - 1)%nat ∧ (l < n cfg)%nat.
Proof.
  intros Hn Hh Hlen Hl. assert (l < n cfg)%nat as Hlt by (apply first_leader_lt in Hl as [?|[= -> ->]]; lia).
  pose proof (Permutation_length (length_others l (n cfg) Hlt)) as Ho. rewrite length_app, length_seq in Ho. simpl in Ho.
  unfold make_partition. rewrite Hl. cbn -[Nat.div fill].
  replace (n cfg / 2)%nat with h by (rewrite Hn; apply (Nat.div_unique _ _ _ 1); lia).
  destruct (fill_ok l (seq 0 (n cfg)) 0 (replicate (h + 1) 0%nat) (replicate h 0%nat)) as (p1 & p2 & -> & H1 & H2 & H3).
  { rewrite !length_replicate. lia. }
  simpl in *. rewrite length_replicate in H1, H2. rewrite <- replicate_add, drop_replicate in H3.
  replace (h + 1 + h - length (others l (seq 0 (n cfg))))%nat with 1%nat in H3 by lia.
  destruct p2 as [|y p2 _] using rev_ind; [simpl in H2; lia|]. rewrite app_assoc in H3. apply app_inj_tail in H3 as [H3 ->].
  exists p1, p2. rewrite length_app in H2. simpl in H2. split_and!; try done; try lia.
  assert (length (p2 ++ [0%nat]) - 1 = length p2)%nat as Hlast by (rewrite length_app; simpl; lia).
  destruct (p2 ++ [0%nat]) eqn:Hp2; [by destruct p2|]. rewrite <- Hp2 in Hlast |- *. rewrite Hlast. by rewrite insert_last.
Qed.

(** ** The theorems *)

Definition kv_ran (n : nat) : bool := if make_config counter_bytes n false (-1) is Some _ then true else false.
Definition kv_config (n : nat) : config := default (empty_config n (-1)) (make_config counter_bytes n false (-1)).

Lemma kv_config_links n0 : kv_ran n0 = true → n (kv_config n0) = n0 ∧ kv_links (kv_config n0) (λ _ _, true) (λ _, False).
Proof.
  unfold kv_ran, kv_config. intros Hr. apply (make_config_links counter_bytes n0 false (-1)).
  by destruct (make_config counter_bytes n0 false (-1)).
Qed.

(** After [partition], whatever the links were, the servers of each part
    reach each other, servers of different parts do not, and the other links are
    as before. *)
Lemma partition_separates p1 p2 cfg L X :
  kv_links cfg L X → (∀ i, i ∈ p1 ++ p2 → (i < n cfg)%nat) → (∀ i, i ∈ p1 → i ∉ p2) →
  (length p1 <= n cfg)%nat → (length p2 <= n cfg)%nat →
  ∃ cfg', partition p1 p2 cfg = Some cfg' ∧ n cfg' = n cfg ∧
    ∀ a c, (a < n cfg)%nat → (c < n cfg)%nat →
      reaches cfg' a c =
        if decide ((a ∈ p1 ∧ c ∈ p1) ∨ (a ∈ p2 ∧ c ∈ p2)) then true
        else if decide ((a ∈ p1 ∧ c ∈ p2) ∨ (a ∈ p2 ∧ c ∈ p1)) then false
        else reaches cfg a c.
Proof.
  intros Hk Hlt Hdis Hl1 Hl2. unfold partition.
  destruct (side_ok p1 p2 cfg L X Hk Hlt Hl2 Hdis) as (rn1 & -> & _ & Hk1). simpl.
  destruct (side_ok p2 p1 _ _ X Hk1) as (rn2 & -> & _ & Hk2); [|done| |].
  { intros t Ht. apply Hlt. rewrite elem_of_app in *. tauto. }
  { intros x H2 H1. by apply (Hdis x). }
  eexists. split; [done|]. split; [done|]. intros a c Ha Hc. rewrite (kv_reaches _ _ X a c Hk2 Ha Hc), (kv_reaches cfg L X a c Hk Ha Hc).
  unfold split_off, within. pose proof (Hdis a). pose proof (Hdis c). repeat case_decide; (done || tauto).
Qed.

Lemma partition_separates_witness :
  let p1 := [0; 3]%nat in let p2 := [2; 4]%nat in
  ∃ cfg', partition p1 p2 (kv_config 5) = Some cfg' ∧ n cfg' = n (kv_config 5) ∧
    ∀ a c, (a < n (kv_config 5))%nat → (c < n (kv_config 5))%nat →
      reaches cfg' a c =
        if decide ((a ∈ p1 ∧ c ∈ p1) ∨ (a ∈ p2 ∧ c ∈ p2)) then true
        else if decide ((a ∈ p1 ∧ c ∈ p2) ∨ (a ∈ p2 ∧ c ∈ p1)) then false
        else reaches (kv_config 5) a c.
Proof.
  intros p1 p2. destruct (kv_config_links 5) as [Hn Hk]; [by vm_compute|].
  revert Hn Hk. generalize (kv_config 5) as cfg. intros cfg Hn Hk.
  apply (partition_separates p1 p2 cfg _ _ Hk); rewrite ?Hn; [|set_solver|simpl; lia..].
  apply Forall_forall. repeat constructor.
Defined.

(** With an odd number of servers, at least three, and none of them shut
    down, [make_partition] splits the servers into two parts; partitioning them
    this way leaves the server that [Leader] names in a part of less than half
    of the servers, cut off from the majority, and connects each part. *)
Lemma leader_in_minority h reads b l cfg L X :
  kv_links cfg L X → n cfg = (2 * h + 1)%nat → (1 <= h)%nat → length reads = n cfg → Leader reads = Some (b, l) →
  ∃ p1 p2 cfg', make_partition reads cfg = Some (p1, p2) ∧ partition p1 p2 cfg = Some cfg' ∧
    p1 ++ p2 ≡ₚ All cfg ∧ l ∈ p2 ∧ (2 * length p2 < n cfg)%nat ∧
    ∀ a c, (a < n cfg)%nat → (c < n cfg)%nat → reaches cfg' a c = bool_decide (a ∈ p1 ↔ c ∈ p1).
Proof.
  intros Hk Hn Hh Hlen Hl. destruct (make_partition_ok h reads cfg b l Hn Hh Hlen Hl) as (p1 & p2 & Hm & Ho & H1 & H2 & Hlt).
  assert (p1 ++ p2 ++ [l] ≡ₚ All cfg) as Hp by (rewrite app_assoc, Ho; by apply length_others).
  assert (∀ a, (a < n cfg)%nat ↔ a ∈ p1 ∨ a ∈ p2 ++ [l]) as Hall.
  { intros a. rewrite <- elem_of_app, Hp. unfold All. rewrite elem_of_seq. lia. }
  assert (∀ a, a ∈ p1 → a ∉ p2 ++ [l]) as Hdis.
  { assert (NoDup (p1 ++ p2 ++ [l])) as (_ & Hd & _)%NoDup_app; [|done]. rewrite Hp. apply NoDup_seq. }
  destruct (side_ok p1 (p2 ++ [l]) cfg L X Hk) as (rn1 & Hr1 & _ & Hk1);
    [by intros a ?%elem_of_app%Hall|rewrite length_app; simpl; lia|done|].
  destruct (side_ok (p2 ++ [l]) p1 _ _ X Hk1) as (rn2 & Hr2 & _ & Hk2);
    [intros a Ha%elem_of_app; apply Hall; tauto|simpl; lia|intros a H3 H4; by apply (Hdis a)|].
  eexists p1, (p2 ++ [l]), _. split_and!; [done| |done|apply elem_of_app; right; left|rewrite length_app; simpl; lia|].
  { unfold partition. rewrite Hr1. simpl. rewrite Hr2. done. }
  intros a c Ha Hc. rewrite (kv_reaches _ _ X a c Hk2 Ha Hc). apply Hall in Ha, Hc. pose proof (Hdis a). pose proof (Hdis c).
  unfold split_off, within. rewrite bool_decide_decide. repeat case_decide; (done || tauto).
Qed.

Lemma leader_in_minority_witness :
  let reads := [Some false; Some true; Some false] in
  make_partition reads (kv_config 3) = Some ([0; 2], [1])%nat ∧
  ∃ p1 p2 cfg', make_partition reads (kv_config 3) = Some (p1, p2) ∧ partition p1 p2 (kv_config 3) = Some cfg' ∧
    p1 ++ p2 ≡ₚ All (kv_config 3) ∧ 1%nat ∈ p2 ∧ (2 * length p2 < n (kv_config 3))%nat ∧
    ∀ a c, (a < n (kv_config 3))%nat → (c < n (kv_config 3))%nat → reaches cfg' a c = bool_decide (a ∈ p1 ↔ c ∈ p1).
Proof.
  intros reads. destruct (kv_config_links 3) as [Hn Hk]; [by vm_compute|].
  split; [by vm_compute|]. revert Hn Hk. generalize (kv_config 3) as cfg. intros cfg Hn Hk.
  apply (leader_in_minority 1 reads true 1 cfg _ _ Hk); by rewrite ?Hn.
Defined.

(** With an even number of servers the second part also names server 0, which may
    be in the first part; with one server the function panics. *)
Example make_partition_even :
  make_partition [Some false; Some false; Some false; Some true] (kv_config 4) = Some ([0; 1; 2], [0; 3])%nat ∧
  make_partition [Some true] (kv_config 1) = None.
Proof. by vm_compute. Qed.

(** [disconnectUnlocked] is meant to pass over servers without ends, but looks at
    the wrong row: server 1 has not been started. *)
Example disconnect_wrong_row :
  let started := StartServer counter_bytes 0 (empty_config 2 (-1)) in
  (cfg ← started; has_names cfg 1) = Some false ∧ (cfg ← started; disconnectUnlocked 0 [1%nat] cfg) = None.
Proof. by vm_compute. Qed.

(** [random_handles] returns a permutation of the handles for all draws of
    [rand.Intn], and every permutation for some draws. *)
Lemma random_handles_any {A} (kvh : list A) :
  (∀ rnd, (∀ i, (rnd i <= i)%nat) → ∃ sa, random_handles rnd kvh = Some sa ∧ sa ≡ₚ kvh) ∧
  (∀ sa, sa ≡ₚ kvh → ∃ rnd, (∀ i, (rnd i <= i)%nat) ∧ random_handles rnd kvh = Some sa).
Proof. split; [intros rnd; apply shuffle_perm|apply shuffle_any]. Qed.

(** [makeClient] gives a clerk one fresh end per server, in any order; the
    end to a server is enabled if and only if the server is in [to], and the
    links between the servers are as before. *)
Lemma client_reaches crand rnd to cfg L X ck cfg' :
  kv_links cfg L X → (∀ i, (rnd i <= i)%nat) → makeClient crand rnd to cfg = Some (ck, cfg') →
  ∃ names servers, clerks cfg' !! ck = Some names ∧ clerk_objects cfg' !! ck = Some (mkClerk servers) ∧
    servers ≡ₚ names ∧ length names = n cfg ∧
    (∀ j x, names !! j = Some x → i_servername (readEndnameInfo (End x) (net cfg')) = Some (Srv j) ∧
       i_enabled (readEndnameInfo (End x) (net cfg')) = bool_decide (j ∈ to)) ∧
    ∀ a c, (a < n cfg)%nat → (c < n cfg)%nat → reaches cfg' a c = reaches cfg a c.
Proof.
  intros Hk Hrnd Hm. destruct (makeClient_ok crand rnd to cfg L X ck cfg' Hk Hrnd Hm)
    as (names & servers & Hc & Ho & Hp & Hlen & Hk' & Hx).
  assert (n cfg' = n cfg) as Hn.
  { unfold makeClient in Hm. apply bind_Some in Hm as (rn & _ & (sv & _ & (cfg2 & Hcon & [= _ <-])%bind_Some)%bind_Some).
    unfold ConnectClientUnlocked in Hcon. by apply bind_Some in Hcon as (rn2 & _ & [= <-]). }
  exists names, servers. split_and!; try done.
  intros a c Ha Hc'. rewrite (kv_reaches _ _ _ a c Hk) by done. by rewrite (kv_reaches _ _ _ a c Hk') by by rewrite Hn.
Qed.

Lemma client_reaches_witness :
  let fresh k := counter_bytes (9 + k) in
  ∃ ck cfg', makeClient fresh id [0; 2]%nat (kv_config 3) = Some (ck, cfg') ∧
  ∃ names servers, clerks cfg' !! ck = Some names ∧ clerk_objects cfg' !! ck = Some (mkClerk servers) ∧
    servers ≡ₚ names ∧ length names = n (kv_config 3) ∧
    (∀ j x, names !! j = Some x → i_servername (readEndnameInfo (End x) (net cfg')) = Some (Srv j) ∧
       i_enabled (readEndnameInfo (End x) (net cfg')) = bool_decide (j ∈ [0; 2]%nat)) ∧
    ∀ a c, (a < n (kv_config 3))%nat → (c < n (kv_config 3))%nat → reaches cfg' a c = reaches (kv_config 3) a c.
Proof.
  intros fresh. destruct (kv_config_links 3) as [Hn Hk]; [by vm_compute|].
  assert ((if makeClient fresh id [0; 2]%nat (kv_config 3) is Some _ then true else false) = true) as Hr by by vm_compute.
  destruct (makeClient fresh id [0; 2]%nat (kv_config 3)) as [[ck cfg']|] eqn:Hm; [|done].
  exists ck, cfg'. split; [done|]. by apply (client_reaches fresh id [0; 2]%nat (kv_config 3) _ _ ck cfg' Hk).
Defined.
End KvConfigSpec.
