(* ===== verification/Labgob.v ===== *)
(** Model of labgob/labgob.go: the checks that wrap Go's [gob].

    Types may be recursive, so a type is a name [T] and [kind_of] says what
    [reflect] tells about it; the printed messages are collected in a list. *)

From S2P Require Import Prelude GoStd.

#[local] Open Scope Z_scope.

Module Labgob.

(** What the checks need to know about a type; [Elem] stands for the kinds
    slice, array and pointer, [Other] for the rest. *)
Inductive kind (T : Type) :=
| Struct (fields : list (string * T))
| Elem (t : T)
| MapOf (key elem : T)
| Other.
Arguments Struct {T} _.
Arguments Elem {T} _.
Arguments MapOf {T} _ _.
Arguments Other {T}.

(** The variables of the package and what was printed. *)
Record state (T : Type) `{Countable T} := mkState {
  errorCount : Z;
  checked : gset T;
  printed : list string;
}.
Arguments mkState {T _ _} _ _ _.
Arguments errorCount {T _ _} _.
Arguments checked {T _ _} _.
Arguments printed {T _ _} _.

(** A value: [Basic] tells the name of its type and whether it is the zero value;
    slices, maps and the like are [Opaque]. *)
#[warnings="-register-all"]
Inductive value :=
| VStruct (fields : list (string * value))
| VPtr (v : option value)
| Basic (type_name : string) (zero : bool)
| Opaque.

Section labgob.
(** [is_upper] is [unicode.IsUpper] of the first rune of a field's name. *)
Context {T : Type} `{Countable T} (kind_of : T → kind T) (type_name : T → string) (is_upper : string → bool).

Definition set_checked (t : T) (s : state T) : state T := mkState (errorCount s) ({[t]} ∪ checked s) (printed s).

Definition complain (msg : string) (s : state T) : state T :=
  mkState (errorCount s + 1) (checked s) (printed s ++ [msg]).

Definition check_name (t : T) (field : string) (s : state T) : state T :=
  if is_upper field then s
  else complain ("labgob error: lower-case field " +:+ field +:+ " of " +:+ type_name t +:+
                 " in RPC or persist/snapshot will break your Raft") s.

(** [checkType]; the fuel bounds the depth of the recursion. *)
Fixpoint checkType (fuel : nat) (t : T) (s : state T) : option (state T) :=
  match fuel with
  | O => None
  | S fuel =>
      if decide (t ∈ checked s) then Some s
      else
        let s := set_checked t s in
        match kind_of t with
        | Struct fields =>
            (fix loop (fields : list (string * T)) (s : state T) : option (state T) :=
               match fields with
               | [] => Some s
               | (name, ft) :: fields => s ← checkType fuel ft (check_name t name s); loop fields s
               end) fields s
        | Elem e => checkType fuel e s
        | MapOf k e => s ← checkType fuel e s; checkType fuel k s
        | Other => Some s
        end
  end.

Definition checkValue (fuel : nat) (t : T) (s : state T) : option (state T) := checkType fuel t s.

(** [checkDefault1] *)
Definition sub_name (name field : string) : string := if String.eqb name "" then field else name +:+ "." +:+ field.

Fixpoint checkDefault1 (v : value) (depth : Z) (name : string) (s : state T) : state T :=
  if 3 <? depth then s
  else
    match v with
    | VStruct fields =>
        (fix loop (fields : list (string * value)) (s : state T) : state T :=
           match fields with
           | [] => s
           | (field, vv) :: fields => loop fields (checkDefault1 vv (depth + 1) (sub_name name field) s)
           end) fields s
    | VPtr None => s
    | VPtr (Some v) => checkDefault1 v (depth + 1) name s
    | Basic tn zero =>
        if zero then s
        else
          let what := if String.eqb name "" then tn else name in
          mkState (errorCount s + 1) (checked s)
            (if errorCount s <? 1
             then printed s ++ ["labgob warning: Decoding into a non-default variable/field " +:+ what +:+ " may not work"]
             else printed s)
    | Opaque => s
    end.

(** [checkDefault]; a nil interface is [None]. *)
Definition checkDefault (v : option value) (s : state T) : state T :=
  match v with None => s | Some v => checkDefault1 v 1 "" s end.

(** ** Encoding and decoding

    [gob] itself is not part of the repository. *)
Context {B : Type} (gob_encode : T → value → B) (gob_decode : B → option value).

Definition Encode (fuel : nat) (t : T) (v : value) (s : state T) : option (state T * B) :=
  s ← checkValue fuel t s; Some (s, gob_encode t v).

(** [Decode] into a variable of type [t] that holds [old]. *)
Definition Decode (fuel : nat) (t : T) (old : value) (b : B) (s : state T) : option (state T * option value) :=
  s ← checkValue fuel t s; Some (checkDefault (Some old) s, gob_decode b).

Definition Register (fuel : nat) (t : T) (s : state T) : option (state T) := checkValue fuel t s.
End labgob.

(** ** What the checks are about *)

Section spec.
Context {T : Type} `{Countable T} (kind_of : T → kind T) (type_name : T → string) (is_upper : string → bool).

Definition successors (t : T) : list T :=
  match kind_of t with Struct fields => fields.*2 | Elem e => [e] | MapOf k e => [e; k] | Other => [] end.

Definition occurs (t u : T) : Prop := u ∈ successors t.

(** The lower-case fields of one type. *)
Definition bad_fields (t : T) : Z :=
  match kind_of t with Struct fields => zlen (filter (λ f, is_upper f.1 = false) fields) | _ => 0 end.
End spec.

End Labgob.
