(* ===== verification/LabgobSpec.v ===== *)
(** What the checks of labgob/labgob.go guarantee: [checkType] terminates on
    recursive types and reports every lower-case field of every type it reaches,
    once. *)

From S2P Require Import Prelude GoStd Labgob.

#[local] Open Scope Z_scope.

Module LabgobSpec.
Export Labgob.

Section proof.
Context {T : Type} `{Countable T} (kind_of : T → kind T) (type_name : T → string) (is_upper : string → bool).
Implicit Types (s : state T) (t u : T) (ts : list T).

Abbreviation check := (checkType kind_of type_name is_upper).
Abbreviation bad := (bad_fields kind_of is_upper).
Abbreviation occ := (occurs kind_of).

(** The lower-case fields of a set of types. *)
Definition total (X : gset T) : Z := foldr Z.add 0 (bad <$> elements X).

Lemma foldr_add_perm (l l' : list Z) : l ≡ₚ l' → foldr Z.add 0 l = foldr Z.add 0 l'.
Proof. induction 1; simpl; lia. Qed.

Lemma foldr_add_app (l l' : list Z) : foldr Z.add 0 (l ++ l') = foldr Z.add 0 l + foldr Z.add 0 l'.
Proof. induction l; simpl; lia. Qed.

Lemma total_union (X Y : gset T) : X ## Y → total (X ∪ Y) = total X + total Y.
Proof.
  intros Hd. unfold total. rewrite <-foldr_add_app, <-fmap_app. apply foldr_add_perm, fmap_Permutation.
  by apply elements_disj_union.
Qed.

Lemma total_empty : total ∅ = 0.
Proof. unfold total. by rewrite elements_empty. Qed.

Lemma total_singleton t : total {[t]} = bad t.
Proof. unfold total. rewrite elements_singleton. simpl. lia. Qed.

(** What a traversal from [ts] does, with [k] complaints of its own. *)
Record visited ts (k : Z) s s' : Prop := {
  vi_mono : checked s ⊆ checked s';
  vi_roots : ∀ t, t ∈ ts → t ∈ checked s';
  vi_closed : ∀ x y, x ∈ checked s' → x ∉ checked s → occ x y → y ∈ checked s';
  vi_reach : ∀ x, x ∈ checked s' → x ∉ checked s → ∃ t, t ∈ ts ∧ rtc occ t x;
  vi_errors : errorCount s' = errorCount s + k + total (checked s' ∖ checked s);
}.

Lemma visited_refl s : visited [] 0 s s.
Proof.
  constructor; [done|by intros ? ?%not_elem_of_nil|done|done|]. by rewrite difference_diag_L, total_empty, !Z.add_0_r.
Qed.

Lemma visited_trans ts1 ts2 k1 k2 s s1 s2 :
  visited ts1 k1 s s1 → visited ts2 k2 s1 s2 → visited (ts1 ++ ts2) (k1 + k2) s s2.
Proof.
  intros [M1 R1 C1 S1 E1] [M2 R2 C2 S2 E2]. constructor.
  - set_solver.
  - intros t [?|?]%elem_of_app; [apply M2|]; auto.
  - intros x y Hx Hn Hy. destruct (decide (x ∈ checked s1)); [apply M2|]; eauto.
  - intros x Hx Hn. destruct (decide (x ∈ checked s1)) as [Hin|Hin].
    + destruct (S1 x Hin Hn) as (t & ? & ?). exists t. split; [apply elem_of_app; by left|done].
    + destruct (S2 x Hx Hin) as (t & ? & ?). exists t. split; [apply elem_of_app; by right|done].
  - rewrite E2, E1. assert (checked s2 ∖ checked s = (checked s1 ∖ checked s) ∪ (checked s2 ∖ checked s1)) as ->.
    { apply set_eq. intros x. rewrite !elem_of_union, !elem_of_difference.
      destruct (decide (x ∈ checked s1)); set_solver. }
    rewrite total_union by set_solver. lia.
Qed.

Lemma check_name_visited t name s :
  visited [] (if is_upper name then 0 else 1) s (check_name type_name is_upper t name s).
Proof.
  unfold check_name. destruct (is_upper name); [apply visited_refl|].
  destruct (visited_refl s) as [? ? ? ? He]. constructor; try done. simpl. lia.
Qed.

(** The loop over the fields of a structure. *)
Definition fields_loop (fuel : nat) t := fix loop (fields : list (string * T)) (s : state T) : option (state T) :=
  match fields with
  | [] => Some s
  | (name, ft) :: fields =>
      mbind (M := option) (λ s, loop fields s) (check fuel ft (check_name type_name is_upper t name s))
  end.

Lemma checkType_step fuel t s :
  check (S fuel) t s =
    if decide (t ∈ checked s) then Some s
    else match kind_of t with
         | Struct fields => fields_loop fuel t fields (set_checked t s)
         | Elem e => check fuel e (set_checked t s)
         | MapOf k e => mbind (M := option) (λ s, check fuel k s) (check fuel e (set_checked t s))
         | Other => Some (set_checked t s)
         end.
Proof. done. Qed.

Lemma fields_visited fuel t fields s s' :
  (∀ u s s', check fuel u s = Some s' → visited [u] 0 s s') →
  fields_loop fuel t fields s = Some s' →
  visited (fields.*2) (zlen (filter (λ f, is_upper f.1 = false) fields)) s s'.
Proof.
  intros IH. revert s. induction fields as [|[name ft] fields IHf]; intros s; simpl.
  { intros [= <-]. apply visited_refl. }
  intros (s1 & Hc & Hl)%bind_Some.
  pose proof (visited_trans _ _ _ _ _ _ _ (check_name_visited t name s)
               (visited_trans _ _ _ _ _ _ _ (IH _ _ _ Hc) (IHf _ Hl))) as Hv.
  destruct (is_upper name) eqn:E.
  - rewrite filter_cons_False by (simpl; congruence). done.
  - rewrite filter_cons_True, zlen_cons by done. by rewrite Z.add_comm.
Qed.

Lemma visited_new t ts k s s' :
  t ∉ checked s → k = bad t → (∀ u, u ∈ ts ↔ occ t u) → visited ts k (set_checked t s) s' → visited [t] 0 s s'.
Proof.
  intros Hn -> Hts [M R C S E]. simpl in *. constructor.
  - set_solver.
  - intros u ->%list_elem_of_singleton. set_solver.
  - intros x y Hx Hxs Hy. destruct (decide (x = t)) as [->|]; [by apply R, Hts|]. eapply C; [done|set_solver|done].
  - intros x Hx Hxs. exists t. split; [left|]. destruct (decide (x = t)) as [->|]; [done|].
    destruct (S x) as (u & Hu & Hr); [done|set_solver|]. apply rtc_l with u; [by apply Hts|done].
  - rewrite E. assert (checked s' ∖ checked s = {[t]} ∪ checked s' ∖ ({[t]} ∪ checked s)) as ->.
    { apply set_eq. intros x. rewrite elem_of_union, !elem_of_difference, elem_of_union, elem_of_singleton.
      destruct (decide (x = t)) as [->|]; set_solver. }
    rewrite total_union, total_singleton by set_solver. lia.
Qed.

Lemma checkType_visited fuel t s s' : check fuel t s = Some s' → visited [t] 0 s s'.
Proof.
  revert t s s'. induction fuel as [|fuel IH]; intros t s s'; [done|]. rewrite checkType_step.
  destruct (decide (t ∈ checked s)) as [Hin|Hn].
  { intros [= <-]. destruct (visited_refl s) as [? ? ? ? ?]. constructor; try done.
    - by intros u ->%list_elem_of_singleton. }
  destruct (kind_of t) as [fields|e|k e|] eqn:Hk; intros Hc.
  - eapply visited_new; [done| | |by eapply fields_visited].
    + unfold bad_fields. by rewrite Hk.
    + intros u. unfold occurs, successors. by rewrite Hk.
  - eapply visited_new; [done| | |by apply IH].
    + unfold bad_fields. by rewrite Hk.
    + intros u. unfold occurs, successors. by rewrite Hk.
  - apply bind_Some in Hc as (s1 & H1 & H2).
    eapply visited_new; [done| | |eapply visited_trans; [by apply IH|by apply IH]].
    + unfold bad_fields. by rewrite Hk.
    + intros u. unfold occurs, successors. by rewrite Hk.
  - injection Hc as <-. eapply visited_new; [done| | |apply visited_refl].
    + unfold bad_fields. by rewrite Hk.
    + intros u. unfold occurs, successors. by rewrite Hk.
Qed.

(** ** Termination *)

Lemma checkType_total (U : gset T) fuel t s :
  (∀ x y, x ∈ U → occ x y → y ∈ U) → t ∈ U → (size (U ∖ checked s) < fuel)%nat → is_Some (check fuel t s).
Proof.
  intros HU. revert t s. induction fuel as [|fuel IH]; intros t s Ht Hf; [lia|]. rewrite checkType_step.
  destruct (decide (t ∈ checked s)) as [|Hn]; [by eexists|].
  assert (∀ s1, {[t]} ∪ checked s ⊆ checked s1 → (size (U ∖ checked s1) < fuel)%nat) as Hsize.
  { intros s1 Hs1. assert (size (U ∖ checked s1) < size (U ∖ checked s))%nat; [|lia].
    apply subset_size. split; [set_solver|]. intros Hsub. assert (t ∈ U ∖ checked s1) as Hin by set_solver. set_solver. }
  assert (∀ u, u ∈ successors kind_of t → u ∈ U) as Hsucc by (intros u; by apply HU).
  unfold successors in Hsucc. destruct (kind_of t) as [fields|e|k e|] eqn:Hk.
  - assert (∀ s1, {[t]} ∪ checked s ⊆ checked s1 → is_Some (fields_loop fuel t fields s1)) as Hloop; [|by apply Hloop].
    clear Hk. induction fields as [|[name ft] fields IHf]; intros s1 Hs1; simpl; [by eexists|].
    pose proof (vi_mono _ _ _ _ (check_name_visited t name s1)) as Hm.
    destruct (IH ft (check_name type_name is_upper t name s1)) as [s2 Hs2].
    { apply Hsucc. left. } { apply Hsize. set_solver. }
    rewrite Hs2. simpl. pose proof (vi_mono _ _ _ _ (checkType_visited _ _ _ _ Hs2)) as Hm2.
    apply IHf; [intros u Hu; apply Hsucc; by right|set_solver].
  - apply IH; [apply Hsucc; left|by apply Hsize].
  - destruct (IH e (set_checked t s)) as [s1 Hs1]; [apply Hsucc; left|by apply Hsize|].
    rewrite Hs1. simpl. pose proof (vi_mono _ _ _ _ (checkType_visited _ _ _ _ Hs1)) as Hm.
    apply IH; [apply Hsucc; right; left|by apply Hsize].
  - by eexists.
Qed.
End proof.

(** C39: From a clean state [checkType] terminates on every family of types,
    recursive ones included, marks exactly the types that occur in the given one,
    directly or through others, and counts each of their lower-case fields once. *)
Theorem checkType_correct {T} `{Countable T} (kind_of : T → kind T) type_name is_upper (U : gset T) t printed0 :
  (∀ x y, x ∈ U → occurs kind_of x y → y ∈ U) → t ∈ U →
  ∃ s', checkType kind_of type_name is_upper (S (size U)) t (mkState 0 ∅ printed0) = Some s' ∧
    (∀ x, x ∈ checked s' ↔ rtc (occurs kind_of) t x) ∧
    errorCount s' = total kind_of is_upper (checked s').
Proof.
  intros HU Ht.
  destruct (checkType_total kind_of type_name is_upper U (S (size U)) t (mkState 0 ∅ printed0) HU Ht) as [s' Hs'].
  { simpl. rewrite difference_empty_L. lia. }
  exists s'. split; [done|]. destruct (checkType_visited _ _ _ _ _ _ _ Hs') as [M R C S E]. simpl in *. split.
  - intros x. split.
    + intros Hx. destruct (S x Hx) as (u & ->%list_elem_of_singleton & ?); [set_solver|done].
    + intros Hr. assert (t ∈ checked s') as Hin by (apply R; left). clear -Hin C Hr.
      induction Hr as [|y z w Hyz _ IH]; [done|]. apply IH. eapply C; [exact Hin|set_solver|done].
  - by rewrite E, difference_empty_L.
Qed.

(** A list node with a lower-case field, as an example: type 1 is the structure
    {Value, next}, type 2 the pointer to it, type 3 an integer. *)
Definition node_kind (t : positive) : kind positive :=
  match t with
  | 1%positive => Struct [("Value", 3%positive); ("next", 2%positive)]
  | 2%positive => Elem 1%positive
  | _ => Other
  end.
Definition node_types : gset positive := {[1%positive; 2%positive; 3%positive]}.
Definition ascii_upper (name : string) : bool := bool_decide (name ≠ "next").

Lemma checkType_correct_witness :
  ∃ s', checkType node_kind (λ _, "Node") ascii_upper (S (size node_types)) 2%positive (mkState 0 ∅ []) = Some s' ∧
    (∀ x, x ∈ checked s' ↔ rtc (occurs node_kind) 2%positive x) ∧
    errorCount s' = total node_kind ascii_upper (checked s').
Proof.
  apply (checkType_correct node_kind (λ _, "Node") ascii_upper node_types 2%positive []); [|set_solver].
  unfold node_types.
  intros x y Hx. unfold occurs, successors.
  rewrite !elem_of_union, !elem_of_singleton in Hx. destruct Hx as [[->| ->]| ->]; simpl; set_solver.
Defined.

End LabgobSpec.
