(* ===== verification/ShardClient.v ===== *)
(** Model of shardmaster/common.go, shardmaster/client.go and shardkv/client.go:
    the clerks and their retry loops.

    An RPC is a function on the state [W] of everything outside the clerk and
    answers [None] when [Call] returns false. *)

From Stdlib Require Import Ascii.
From S2P Require Import Prelude GoStd.

#[local] Open Scope Z_scope.
#[local] Open Scope go_scope.

Module ShardClient.

Definition NShards : Z := 10.

Record Config := mkConfig {
  Num : Z;
  Shards : list Z;              (* an array of NShards *)
  Groups : gmap Z (list string);
}.

Record JoinArgs := mkJoinArgs { Servers : gmap Z (list string) }.
Record LeaveArgs := mkLeaveArgs { GIDs : list Z }.
Record MoveArgs := mkMoveArgs { Shard : Z; GID : Z }.
Record QueryArgs := mkQueryArgs { q_Num : Z }.

(** The reply of Join, Leave and Move, and that of Query. *)
Record MasterReply := mkMasterReply { WrongLeader : bool; m_Err : string }.
Record QueryReply := mkQueryReply { q_WrongLeader : bool; q_Err : string; q_Config : Config }.

Definition OK : string := "OK".
Definition ErrNoKey : string := "ErrNoKey".
Definition ErrWrongGroup : string := "ErrWrongGroup".
Definition ErrWrongLeader : string := "ErrWrongLeader".

Record GetArgs := mkGetArgs { g_Key : string }.
Record GetReply := mkGetReply { g_Err : string; g_Value : string }.
Record PutAppendArgs := mkPutAppendArgs { p_Key : string; p_Value : string; p_Op : string }.
Record PutAppendReply := mkPutAppendReply { p_Err : string }.

(** [key2shard] *)
Definition key2shard (key : string) : Z :=
  let shard := match key with EmptyString => 0 | String a _ => Z.of_N (N_of_ascii a) end in
  Z.rem shard NShards.

(** ** Retry loops of the shardmaster's clerk *)

Section retry.
Context {W Args Reply : Type} (call : nat → Args → W → W * option Reply) (wrong_leader : Reply → bool).
Context (sleep : W → W).

(** [for _, srv := range ck.servers] *)
Fixpoint try_each (servers : list nat) (args : Args) (w : W) : W * option Reply :=
  match servers with
  | [] => (w, None)
  | srv :: servers =>
      let '(w, r) := call srv args w in
      match r with
      | Some reply => if wrong_leader reply then try_each servers args w else (w, Some reply)
      | None => try_each servers args w
      end
  end.

(** The outer [for], at most [fuel] times round. *)
Fixpoint retry (fuel : nat) (servers : list nat) (args : Args) (w : W) : option (W * Reply) :=
  match fuel with
  | O => None
  | S fuel =>
      match try_each servers args w with
      | (w, Some reply) => Some (w, reply)
      | (w, None) => retry fuel servers args (sleep w)
      end
  end.
End retry.

Section clerks.
Context {W : Type} (sleep : W → W).
Context (call_query : nat → QueryArgs → W → W * option QueryReply).
Context (call_join : nat → JoinArgs → W → W * option MasterReply).
Context (call_leave : nat → LeaveArgs → W → W * option MasterReply).
Context (call_move : nat → MoveArgs → W → W * option MasterReply).
Context (call_get : string → GetArgs → W → W * option GetReply).
Context (call_put : string → PutAppendArgs → W → W * option PutAppendReply).

Definition Query (fuel : nat) (servers : list nat) (num : Z) (w : W) : option (W * Config) :=
  '(w, reply) ← retry call_query q_WrongLeader sleep fuel servers (mkQueryArgs num) w; Some (w, q_Config reply).
Definition Join (fuel : nat) (servers : list nat) (groups : gmap Z (list string)) (w : W) : option W :=
  '(w, _) ← retry call_join WrongLeader sleep fuel servers (mkJoinArgs groups) w; Some w.
Definition Leave (fuel : nat) (servers : list nat) (gids : list Z) (w : W) : option W :=
  '(w, _) ← retry call_leave WrongLeader sleep fuel servers (mkLeaveArgs gids) w; Some w.
Definition Move (fuel : nat) (servers : list nat) (shard gid : Z) (w : W) : option W :=
  '(w, _) ← retry call_move WrongLeader sleep fuel servers (mkMoveArgs shard gid) w; Some w.

(** ** The key/value clerk *)

(** [masters] are the servers of [ck.sm]. *)
Record Clerk := mkClerk {
  masters : list nat;
  config : Config;
}.

Definition MakeClerk (ms : list nat) : Clerk := mkClerk ms (mkConfig 0 (replicate (Z.to_nat NShards) 0) ∅).

(** The loop over the servers of a group: an answer, or none when the group is
    the wrong one or nobody answers. *)
Fixpoint get_from (servers : list string) (args : GetArgs) (w : W) : W * option string :=
  match servers with
  | [] => (w, None)
  | srv :: servers =>
      let '(w, r) := call_get srv args w in
      match r with
      | Some reply =>
          if String.eqb (g_Err reply) OK || String.eqb (g_Err reply) ErrNoKey then (w, Some (g_Value reply))
          else if String.eqb (g_Err reply) ErrWrongGroup then (w, None)
          else get_from servers args w
      | None => get_from servers args w
      end
  end.

Fixpoint put_to (servers : list string) (args : PutAppendArgs) (w : W) : W * bool :=
  match servers with
  | [] => (w, false)
  | srv :: servers =>
      let '(w, r) := call_put srv args w in
      match r with
      | Some reply =>
          if String.eqb (p_Err reply) OK then (w, true)
          else if String.eqb (p_Err reply) ErrWrongGroup then (w, false)
          else put_to servers args w
      | None => put_to servers args w
      end
  end.

(** [time.Sleep] and [ck.config = ck.sm.Query(-1)] *)
Definition refresh (fuel : nat) (ck : Clerk) (w : W) : option (W * Clerk) :=
  '(w, c) ← Query fuel (masters ck) (-1) (sleep w); Some (w, mkClerk (masters ck) c).

(** [Get]: at most [fuel] rounds, each [Query] with [qfuel] rounds; [None] is
    out of fuel, or an index out of range. *)
Fixpoint Get (fuel qfuel : nat) (key : string) (ck : Clerk) (w : W) : option (W * Clerk * string) :=
  match fuel with
  | O => None
  | S fuel =>
      gid ← (Shards (config ck)).[key2shard key];
      let '(w, found) :=
        match Groups (config ck) !! gid with
        | Some servers => get_from servers (mkGetArgs key) w
        | None => (w, None)
        end in
      match found with
      | Some v => Some (w, ck, v)
      | None => '(w, ck) ← refresh qfuel ck w; Get fuel qfuel key ck w
      end
  end.

Fixpoint PutAppend (fuel qfuel : nat) (key value op : string) (ck : Clerk) (w : W) : option (W * Clerk) :=
  match fuel with
  | O => None
  | S fuel =>
      gid ← (Shards (config ck)).[key2shard key];
      let '(w, found) :=
        match Groups (config ck) !! gid with
        | Some servers => put_to servers (mkPutAppendArgs key value op) w
        | None => (w, false)
        end in
      if (found : bool) then Some (w, ck)
      else '(w, ck) ← refresh qfuel ck w; PutAppend fuel qfuel key value op ck w
  end.

Definition Put (fuel qfuel : nat) (key value : string) := PutAppend fuel qfuel key value "Put".
Definition Append (fuel qfuel : nat) (key value : string) := PutAppend fuel qfuel key value "Append".
End clerks.

End ShardClient.
