(* ===== verification/ShardSpec.v ===== *)
(** What the clerks guarantee: an answer comes from a server of the responsible
    group, and the loops end once the services answer. *)

From Stdlib Require Import Ascii.
From S2P Require Import Prelude GoStd ShardClient.

#[local] Open Scope Z_scope.
#[local] Open Scope go_scope.

Module ShardSpec.
Export ShardClient.

Lemma key2shard_range key : 0 <= key2shard key < NShards.
Proof.
  unfold key2shard, NShards. destruct key as [|a key]; [done|]. apply Z.rem_bound_pos; lia.
Qed.

(** ** The retry loop *)

Section retry.
Context {W Args Reply : Type} (call : nat → Args → W → W * option Reply) (wrong_leader : Reply → bool) (sleep : W → W).

Lemma try_each_sound servers args w w' reply :
  try_each call wrong_leader servers args w = (w', Some reply) →
  wrong_leader reply = false ∧ ∃ srv w0, srv ∈ servers ∧ call srv args w0 = (w', Some reply).
Proof.
  revert w. induction servers as [|srv servers IH]; intros w; simpl; [done|].
  assert (∀ w1, try_each call wrong_leader servers args w1 = (w', Some reply) →
    wrong_leader reply = false ∧ ∃ s w0, s ∈ srv :: servers ∧ call s args w0 = (w', Some reply)) as Hrest.
  { intros w1 Hr. destruct (IH w1 Hr) as (? & s & w0 & ? & ?). split; [done|]. exists s, w0. split; [by right|done]. }
  destruct (call srv args w) as [w1 [r|]] eqn:Hc; [|apply Hrest].
  destruct (wrong_leader r) eqn:Hw; [apply Hrest|]. intros [= -> ->]. split; [done|].
  exists srv, w. split; [left|done].
Qed.

Lemma retry_sound fuel servers args w w' reply :
  retry call wrong_leader sleep fuel servers args w = Some (w', reply) →
  wrong_leader reply = false ∧ ∃ srv w0, srv ∈ servers ∧ call srv args w0 = (w', Some reply).
Proof.
  revert w. induction fuel as [|fuel IH]; intros w; simpl; [done|].
  destruct (try_each _ _ _ _ _) as [w1 [r|]] eqn:Ht; [|apply IH]. intros [= -> ->]. by eapply try_each_sound.
Qed.

(** The loop ends in the first round in which some server answers as leader. *)
Lemma try_each_total servers args w :
  Exists (λ srv, ∀ w0, ∃ r, (call srv args w0).2 = Some r ∧ wrong_leader r = false) servers →
  ∃ w' reply, try_each call wrong_leader servers args w = (w', Some reply).
Proof.
  intros Hex. revert w. induction Hex as [srv servers Hs|srv servers _ IH]; intros w; simpl.
  - destruct (Hs w) as (r & Hr & Hw). destruct (call srv args w) as [w1 r1]. simpl in Hr. subst r1.
    rewrite Hw. eauto.
  - destruct (call srv args w) as [w1 [r|]]; [destruct (wrong_leader r); eauto|apply IH].
Qed.

Lemma retry_total fuel servers args w :
  Exists (λ srv, ∀ w0, ∃ r, (call srv args w0).2 = Some r ∧ wrong_leader r = false) servers →
  ∃ w' reply, retry call wrong_leader sleep (S fuel) servers args w = Some (w', reply).
Proof.
  intros Hex. simpl. destruct (try_each_total servers args w Hex) as (w' & r & ->). eauto.
Qed.
End retry.

Section clerk.
Context {W : Type} (sleep : W → W).
Context (call_query : nat → QueryArgs → W → W * option QueryReply).
Context (call_get : string → GetArgs → W → W * option GetReply).
Context (call_put : string → PutAppendArgs → W → W * option PutAppendReply).
Implicit Types (ck : Clerk) (w : W).

Abbreviation Get := (Get sleep call_query call_get).
Abbreviation PutAppend := (PutAppend sleep call_query call_put).

Lemma get_from_sound servers args w w' v :
  get_from call_get servers args w = (w', Some v) →
  ∃ srv w0 reply, srv ∈ servers ∧ call_get srv args w0 = (w', Some reply) ∧ g_Value reply = v ∧
    (g_Err reply = OK ∨ g_Err reply = ErrNoKey).
Proof.
  revert w. induction servers as [|srv servers IH]; intros w; simpl; [done|].
  assert (∀ w1, get_from call_get servers args w1 = (w', Some v) →
    ∃ s w0 reply, s ∈ srv :: servers ∧ call_get s args w0 = (w', Some reply) ∧ g_Value reply = v ∧
      (g_Err reply = OK ∨ g_Err reply = ErrNoKey)) as Hrest.
  { intros w1 Hr. destruct (IH w1 Hr) as (s & w0 & reply & ? & ?). exists s, w0, reply. split; [by right|done]. }
  destruct (call_get srv args w) as [w1 [r|]] eqn:Hc; [|apply Hrest].
  destruct (String.eqb_spec (g_Err r) OK) as [Ho|]; simpl;
    [|destruct (String.eqb_spec (g_Err r) ErrNoKey) as [Ho|]; simpl;
      [|destruct (String.eqb (g_Err r) ErrWrongGroup); [done|apply Hrest]]];
    intros [= -> <-]; exists srv, w, r; (split; [left|auto]).
Qed.

Lemma put_to_sound servers args w w' :
  put_to call_put servers args w = (w', true) →
  ∃ srv w0 reply, srv ∈ servers ∧ call_put srv args w0 = (w', Some reply) ∧ p_Err reply = OK.
Proof.
  revert w. induction servers as [|srv servers IH]; intros w; simpl; [done|].
  assert (∀ w1, put_to call_put servers args w1 = (w', true) →
    ∃ s w0 reply, s ∈ srv :: servers ∧ call_put s args w0 = (w', Some reply) ∧ p_Err reply = OK) as Hrest.
  { intros w1 Hr. destruct (IH w1 Hr) as (s & w0 & reply & ? & ?). exists s, w0, reply. split; [by right|done]. }
  destruct (call_put srv args w) as [w1 [r|]] eqn:Hc; [|apply Hrest].
  destruct (String.eqb_spec (p_Err r) OK) as [Ho|]; [|destruct (String.eqb (p_Err r) ErrWrongGroup); [done|apply Hrest]].
  intros [= ->]. exists srv, w, r. split; [left|auto].
Qed.

(** The servers that the clerk's configuration makes responsible for a key. *)
Definition responsible ck key srv : Prop :=
  ∃ gid servers, (Shards (config ck)).[key2shard key] = Some gid ∧ Groups (config ck) !! gid = Some servers ∧ srv ∈ servers.

Lemma Get_returns fuel qfuel key ck w w' ck' v :
  Get fuel qfuel key ck w = Some (w', ck', v) →
  ∃ srv w0 reply, responsible ck' key srv ∧ call_get srv (mkGetArgs key) w0 = (w', Some reply) ∧
    g_Value reply = v ∧ (g_Err reply = OK ∨ g_Err reply = ErrNoKey).
Proof.
  revert ck w. induction fuel as [|fuel IH]; intros ck w; simpl; [done|].
  intros (gid & Hgid & Hr)%bind_Some. destruct (Groups (config ck) !! gid) as [servers|] eqn:Hg.
  - destruct (get_from _ _ _ _) as [w1 [v1|]] eqn:Hf.
    + injection Hr as -> <- ->. apply get_from_sound in Hf as (srv & w0 & reply & Hin & Hrest).
      exists srv, w0, reply. split; [by exists gid, servers|done].
    + apply bind_Some in Hr as ([w2 ck2] & _ & Hr). by eapply IH.
  - apply bind_Some in Hr as ([w2 ck2] & _ & Hr). by eapply IH.
Qed.

Lemma PutAppend_returns fuel qfuel key value op ck w w' ck' :
  PutAppend fuel qfuel key value op ck w = Some (w', ck') →
  ∃ srv w0 reply, responsible ck' key srv ∧ call_put srv (mkPutAppendArgs key value op) w0 = (w', Some reply) ∧
    p_Err reply = OK.
Proof.
  revert ck w. induction fuel as [|fuel IH]; intros ck w; simpl; [done|].
  intros (gid & Hgid & Hr)%bind_Some. destruct (Groups (config ck) !! gid) as [servers|] eqn:Hg.
  - destruct (put_to _ _ _ _) as [w1 []] eqn:Hf.
    + injection Hr as -> <-. apply put_to_sound in Hf as (srv & w0 & reply & Hin & Hrest).
      exists srv, w0, reply. split; [by exists gid, servers|done].
    + apply bind_Some in Hr as ([w2 ck2] & _ & Hr). by eapply IH.
  - apply bind_Some in Hr as ([w2 ck2] & _ & Hr). by eapply IH.
Qed.

(** A group that answers: some server says OK, and those before it do not send
    the clerk away. *)
Definition serves (servers : list string) (args : GetArgs) : Prop :=
  ∃ pre srv post, servers = pre ++ srv :: post ∧
    (∀ w, ∃ w' r, call_get srv args w = (w', Some r) ∧ (g_Err r = OK ∨ g_Err r = ErrNoKey)) ∧
    ∀ s w w' r, s ∈ pre → call_get s args w = (w', Some r) → g_Err r ≠ ErrWrongGroup.

Lemma get_from_total servers args w : serves servers args → ∃ w' v, get_from call_get servers args w = (w', Some v).
Proof.
  intros (pre & srv & post & -> & Hsrv & Hpre). revert w. induction pre as [|s pre IH]; intros w; simpl.
  - destruct (Hsrv w) as (w' & r & -> & [->| ->]); simpl; eauto.
  - destruct (call_get s args w) as [w1 [r|]] eqn:Hc; [|apply IH; intros; eapply Hpre; [by right|done]].
    destruct (_ || _); [eauto|]. destruct (String.eqb_spec (g_Err r) ErrWrongGroup) as [He|].
    + exfalso. by eapply (Hpre s w w1 r); [left|..].
    + apply IH. intros. eapply Hpre; [by right|done].
Qed.

(** The masters know a configuration whose responsible group answers. *)
Definition available (ms : list nat) (c : Config) key : Prop :=
  Exists (λ m, ∀ w, ∃ r, (call_query m (mkQueryArgs (-1)) w).2 = Some r ∧ q_WrongLeader r = false) ms ∧
  (∀ m w w' r, m ∈ ms → call_query m (mkQueryArgs (-1)) w = (w', Some r) → q_WrongLeader r = false → q_Config r = c) ∧
  ∃ gid servers, (Shards c).[key2shard key] = Some gid ∧ Groups c !! gid = Some servers ∧ serves servers (mkGetArgs key).

Lemma refresh_total qfuel ck c key w :
  available (masters ck) c key →
  ∃ w', refresh sleep call_query (S qfuel) ck w = Some (w', mkClerk (masters ck) c).
Proof.
  intros (Hex & Hc & _). unfold refresh, Query.
  destruct (retry_total call_query q_WrongLeader sleep qfuel (masters ck) (mkQueryArgs (-1)) (sleep w) Hex) as (w' & r & Hr).
  rewrite Hr. simpl. destruct (retry_sound _ _ _ _ _ _ _ _ _ Hr) as (Hw & m & w0 & Hm & Hcall).
  exists w'. by rewrite (Hc m w0 w' r).
Qed.

Lemma Get_terminates fuel qfuel key ck c w :
  available (masters ck) c key → List.length (Shards (config ck)) = Z.to_nat NShards →
  is_Some (Get (S (S fuel)) (S qfuel) key ck w).
Proof.
  intros Hav Hlen. pose proof Hav as (_ & _ & gid & servers & Hgid & Hg & Hserves).
  assert (∀ w1, is_Some (Get (S fuel) (S qfuel) key (mkClerk (masters ck) c) w1)) as Hnext.
  { intros w1. cbn [ShardClient.Get config]. rewrite Hgid. cbn [mbind option_bind]. rewrite Hg.
    destruct (get_from_total servers (mkGetArgs key) w1 Hserves) as (w2 & v & ->). by eexists. }
  remember (S fuel) as fuel1. cbn [ShardClient.Get].
  destruct (proj2 (zlookup_is_Some (Shards (config ck)) (key2shard key))) as [g ->].
  { unfold zlen. rewrite Hlen. pose proof (key2shard_range key). unfold NShards in *. lia. }
  cbn [mbind option_bind].
  destruct (match Groups (config ck) !! g with Some s => get_from call_get s (mkGetArgs key) w | None => (w, None) end)
    as [w1 [v|]]; [by eexists|].
  destruct (refresh_total qfuel ck c key w1 Hav) as (w2 & ->). apply Hnext.
Qed.
End clerk.

(** ** A concrete service: group 7 has two servers, of which the second answers *)

Definition demo_config : Config := mkConfig 1 (replicate 10 7) {[7 := ["s0"; "s1"]]}.
Definition demo_query (m : nat) (args : QueryArgs) (w : nat) : nat * option QueryReply :=
  (S w, if decide (m = 0%nat) then Some (mkQueryReply true "" demo_config) else Some (mkQueryReply false OK demo_config)).
Definition demo_get (srv : string) (args : GetArgs) (w : nat) : nat * option GetReply :=
  (S w, if String.eqb srv "s1" then Some (mkGetReply OK "v") else None).
Definition demo_put (srv : string) (args : PutAppendArgs) (w : nat) : nat * option PutAppendReply :=
  (S w, if String.eqb srv "s1" then Some (mkPutAppendReply OK) else None).
Definition demo_clerk : Clerk := MakeClerk [0%nat; 1%nat].
Abbreviation demo_Get := (Get S demo_query demo_get).

(** The value [Get] returns was sent, as the last thing that happened, by a
    server of the group that the clerk's configuration makes responsible for the
    key; [PutAppend] returns only after such a server accepted the request. *)
Lemma clerk_sound {W} (sleep : W → W) call_query call_get call_put fuel qfuel key value op ck w w' ck' v w2 ck2 :
  Get sleep call_query call_get fuel qfuel key ck w = Some (w', ck', v) →
  PutAppend sleep call_query call_put fuel qfuel key value op ck' w' = Some (w2, ck2) →
  (∃ srv w0 reply, responsible ck' key srv ∧ call_get srv (mkGetArgs key) w0 = (w', Some reply) ∧
     g_Value reply = v ∧ (g_Err reply = OK ∨ g_Err reply = ErrNoKey)) ∧
  (∃ srv w0 reply, responsible ck2 key srv ∧ call_put srv (mkPutAppendArgs key value op) w0 = (w2, Some reply) ∧
     p_Err reply = OK).
Proof. intros Hg Hp. split; [by eapply Get_returns|by eapply PutAppend_returns]. Qed.

Lemma clerk_sound_witness :
  (∃ srv w0 reply, responsible (mkClerk [0%nat; 1%nat] demo_config) "k" srv ∧
     demo_get srv (mkGetArgs "k") w0 = (5%nat, Some reply) ∧ g_Value reply = "v" ∧ (g_Err reply = OK ∨ g_Err reply = ErrNoKey)) ∧
  (∃ srv w0 reply, responsible (mkClerk [0%nat; 1%nat] demo_config) "k" srv ∧
     demo_put srv (mkPutAppendArgs "k" "x" "Put") w0 = (7%nat, Some reply) ∧ p_Err reply = OK).
Proof.
  apply (clerk_sound S demo_query demo_get demo_put 2 1 "k" "x" "Put" demo_clerk 0%nat 5%nat
    (mkClerk [0%nat; 1%nat] demo_config) "v" 7%nat (mkClerk [0%nat; 1%nat] demo_config)); by vm_compute.
Defined.

(** C40: [Get] ends: when the masters answer with a configuration whose
    responsible group answers, two rounds are enough from any configuration the
    clerk starts with; an index out of range never happens. *)
Theorem clerk_terminates {W} (sleep : W → W) call_query call_get fuel qfuel key ck c w :
  available call_query call_get (masters ck) c key → List.length (Shards (config ck)) = Z.to_nat NShards →
  is_Some (Get sleep call_query call_get (S (S fuel)) (S qfuel) key ck w).
Proof. apply Get_terminates. Qed.

Lemma clerk_terminates_witness : is_Some (demo_Get 2 1 "k" demo_clerk 0%nat).
Proof.
  apply (clerk_terminates S demo_query demo_get 0 0 "k" demo_clerk demo_config 0%nat); [|done].
  split_and!.
  - right. left. intros w. by eexists.
  - intros m w w' r _. unfold demo_query. destruct (decide _); intros [= _ <-]; done.
  - exists 7, ["s0"; "s1"]. split; [by vm_compute|]. split; [by vm_compute|].
    exists ["s0"], "s1", []. split; [done|]. split; [intros w; eexists _, _; split; [done|by left]|].
    intros s w w' r ->%list_elem_of_singleton. done.
Defined.

End ShardSpec.
