(* ===== verification/SmConfig.v ===== *)
(** Model of the tester's configuration of shardmaster/config.go and of the
    shardmaster that it starts, shardmaster/server.go.  The code is that of
    kvraft/config.go without snapshots and statistics; the functions on handles
    and parts, which are the same text, are those of KvConfig.v. *)

From S2P Require Import Prelude GoStd Labrpc Harness KvConfig ShardClient.

#[local] Open Scope Z_scope.

Module SmConfig.
Export Harness.

(** ** The shardmaster *)

(** [type ShardMaster struct]: [rf] stands for the Raft instance, its persister,
    what it read from it and whether it has been killed. *)
Record ShardMaster := mkShardMaster {
  me : nat;
  configs : list ShardClient.Config;
  rf_persister : nat;
  rf_booted : Persister;
  rf_dead : bool;
}.

(** [StartServer] of server.go, on the persister at the address [p]. *)
Definition start_shardmaster (me p : nat) (ps : Persister) : ShardMaster :=
  mkShardMaster me [ShardClient.mkConfig 0 (replicate (Z.to_nat ShardClient.NShards) 0) ∅] p ps false.

Definition Kill (sm : ShardMaster) : ShardMaster :=
  mkShardMaster (me sm) (configs sm) (rf_persister sm) (rf_booted sm) true.

(** ** The configuration *)

(** [type Clerk struct] and [MakeClerk] of client.go. *)
Record Clerk := MakeClerk { ck_servers : list string }.

(** [type config struct]: the pointers are addresses into [persisters],
    [masters] and [clerk_objects]; a row [[]] of [endnames] is nil, [drawn]
    counts the calls of [randstring]. *)
Record config := mkConfig {
  net : network;
  n : nat;
  servers : list (option nat);
  saved : list (option nat);
  endnames : list (list string);
  clerks : gmap nat (list string);
  nextClientId : Z;
  persisters : list Persister;
  masters : list ShardMaster;
  clerk_objects : list Clerk;
  drawn : nat;
}.

Definition set_net (rn : network) (cfg : config) : config :=
  mkConfig rn (n cfg) (servers cfg) (saved cfg) (endnames cfg) (clerks cfg) (nextClientId cfg) (persisters cfg)
    (masters cfg) (clerk_objects cfg) (drawn cfg).
Definition set_servers (l : list (option nat)) (sms : list ShardMaster) (cfg : config) : config :=
  mkConfig (net cfg) (n cfg) l (saved cfg) (endnames cfg) (clerks cfg) (nextClientId cfg) (persisters cfg) sms
    (clerk_objects cfg) (drawn cfg).
Definition set_endnames (l : list (list string)) (drawn : nat) (cfg : config) : config :=
  mkConfig (net cfg) (n cfg) (servers cfg) (saved cfg) l (clerks cfg) (nextClientId cfg) (persisters cfg) (masters cfg)
    (clerk_objects cfg) drawn.
Definition set_clerks (cks : gmap nat (list string)) (next : Z) (os : list Clerk) (drawn : nat) (cfg : config) : config :=
  mkConfig (net cfg) (n cfg) (servers cfg) (saved cfg) (endnames cfg) cks next (persisters cfg) (masters cfg) os drawn.
Definition save_fresh (i : nat) (ps : Persister) (cfg : config) : config :=
  mkConfig (net cfg) (n cfg) (servers cfg) (<[i := Some (length (persisters cfg))]> (saved cfg)) (endnames cfg)
    (clerks cfg) (nextClientId cfg) (persisters cfg ++ [ps]) (masters cfg) (clerk_objects cfg) (drawn cfg).

Definition saved_persister (i : nat) (cfg : config) : option (option Persister) :=
  p ← saved cfg !! i;
  match p with Some p => ps ← persisters cfg !! p; Some (Some ps) | None => Some None end.

(** A nil persister panics. *)
Definition LogSize (cfg : config) : option Z :=
  for_each (seq 0 (n cfg))
    (λ i logsize, ps ← saved_persister i cfg; ps ← ps;
       Some (if RaftStateSize ps >? logsize then RaftStateSize ps else logsize)) 0.

(** ** Connections *)

Definition connectUnlocked (i : nat) (to : list nat) (cfg : config) : option config :=
  rn ← for_each to (switch true KvConfig.always (λ t, Some (i, t)) (endnames cfg)) (net cfg);
  rn ← for_each to (switch true KvConfig.always (λ t, Some (t, i)) (endnames cfg)) rn;
  Some (set_net rn cfg).

Definition has_names (cfg : config) (j : nat) : option bool :=
  row ← endnames cfg !! j; Some (bool_decide (row ≠ [])).

(** Again the second loop looks at [endnames[j]], not at [endnames[from[j]]]. *)
Definition disconnectUnlocked (i : nat) (from : list nat) (cfg : config) : option config :=
  let js := seq 0 (length from) in
  rn ← for_each js (switch false (λ _, has_names cfg i) (λ j, t ← from !! j; Some (i, t)) (endnames cfg)) (net cfg);
  rn ← for_each js (switch false (has_names cfg) (λ j, t ← from !! j; Some (t, i)) (endnames cfg)) rn;
  Some (set_net rn cfg).

Definition All (cfg : config) : list nat := seq 0 (n cfg).

Definition ConnectAll (cfg : config) : option config :=
  for_each (seq 0 (n cfg)) (λ i cfg, connectUnlocked i (All cfg) cfg) cfg.

Definition partition (p1 p2 : list nat) (cfg : config) : option config :=
  cfg ← for_each p1 (λ i cfg, cfg ← disconnectUnlocked i p2 cfg; connectUnlocked i p1 cfg) cfg;
  for_each p2 (λ i cfg, cfg ← disconnectUnlocked i p1 cfg; connectUnlocked i p2 cfg) cfg.

(** [reads] is what [GetState] says of each server, [None] for a nil server. *)
Definition Leader (reads : list (option bool)) : option (bool * nat) := KvConfig.first_leader 0 reads.

Definition make_partition (reads : list (option bool)) (cfg : config) : option (list nat * list nat) :=
  '(_, l) ← Leader reads;
  '(p1, p2) ← KvConfig.fill l (seq 0 (n cfg)) 0 (replicate (n cfg / 2 + 1) 0%nat) (replicate (n cfg / 2) 0%nat);
  match p2 with [] => None | _ => Some (p1, <[(length p2 - 1)%nat := l]> p2) end.

(** ** Clerks *)

Definition ConnectClientUnlocked (ck : nat) (to : list nat) (cfg : config) : option config :=
  rn ← for_each to (KvConfig.switch_end true (default [] (clerks cfg !! ck))) (net cfg); Some (set_net rn cfg).

Definition DisconnectClientUnlocked (ck : nat) (from : list nat) (cfg : config) : option config :=
  rn ← for_each from (KvConfig.switch_end false (default [] (clerks cfg !! ck))) (net cfg); Some (set_net rn cfg).

Definition deleteClient (ck : nat) (cfg : config) : config :=
  set_clerks (delete ck (clerks cfg)) (nextClientId cfg) (clerk_objects cfg) (drawn cfg) cfg.

(** [Kill] on the shardmaster at the address [k]. *)
Definition kill (k : nat) (cfg : config) : config := set_servers (servers cfg) (alter Kill k (masters cfg)) cfg.

(** [cleanup] without the time limit of the test. *)
Definition cleanup (cfg : config) : config :=
  let cfg := foldl (λ cfg s, if s is Some k then kill k cfg else cfg) cfg (servers cfg) in
  set_net (Cleanup (net cfg)) cfg.

Section names.
(** The bytes of the successive reads of [crypto/rand]. *)
Context (crand : nat → list Z).

Definition makeClient (rnd : nat → nat) (to : list nat) (cfg : config) : option (nat * config) :=
  let endnames := KvConfig.draw crand <$> seq (drawn cfg) (n cfg) in
  rn ← attach endnames 0 (net cfg);
  ends ← KvConfig.random_handles rnd endnames;
  let ck := length (clerk_objects cfg) in
  let cfg := set_clerks (<[ck := endnames]> (clerks cfg)) (nextClientId cfg + 1) (clerk_objects cfg ++ [MakeClerk ends])
    (drawn cfg + n cfg) (set_net rn cfg) in
  cfg ← ConnectClientUnlocked ck to cfg;
  Some (ck, cfg).

(** ** Servers *)

Definition ShutdownServer (i : nat) (cfg : config) : option config :=
  cfg ← disconnectUnlocked i (All cfg) cfg;
  let cfg := set_net (DeleteServer (Srv i) (net cfg)) cfg in
  ps ← saved_persister i cfg;
  let cfg := match ps with Some ps => save_fresh i (Copy ps) cfg | None => cfg end in
  kv ← servers cfg !! i;
  match kv with
  | Some k => let cfg := kill k cfg in Some (set_servers (<[i := None]> (servers cfg)) (masters cfg) cfg)
  | None => Some cfg
  end.

Definition StartServer (i : nat) (cfg : config) : option config :=
  _ ← endnames cfg !! i;
  let names := KvConfig.draw crand <$> seq (drawn cfg) (n cfg) in
  let cfg := set_endnames (<[i := names]> (endnames cfg)) (drawn cfg + n cfg) cfg in
  rn ← attach names 0 (net cfg);
  let cfg := set_net rn cfg in
  ps ← saved_persister i cfg;
  let p := length (persisters cfg) in
  let ps := match ps with Some ps => Copy ps | None => MakePersister end in
  let cfg := save_fresh i ps cfg in
  let k := length (masters cfg) in
  let cfg := set_servers (<[i := Some k]> (servers cfg)) (masters cfg ++ [start_shardmaster i p ps]) cfg in
  Some (set_net (AddServer (Srv i) k (net cfg)) cfg).

Definition empty_config (n : nat) : config :=
  mkConfig MakeNetwork n (replicate n None) (replicate n None) (replicate n []) ∅ (Z.of_nat n + 1000) [] [] [] 0.

Definition make_config (n : nat) (unreliable : bool) : option config :=
  cfg ← for_each (seq 0 n) StartServer (empty_config n);
  cfg ← ConnectAll cfg;
  Some (set_net (Reliable (negb unreliable) (net cfg)) cfg).

End names.
End SmConfig.
