(* ===== verification/SmConfigSpec.v ===== *)
(** The tester's configurations of kvraft/config.go and shardmaster/config.go:
    the operations as an interface, the two implementations, and that they do the
    same to the network, the persisters and the clerks; the links between the
    servers in all runs of a tester. *)

From S2P Require Import Prelude GoStd Labrpc Harness KvConfig KvConfigSpec SmConfig.

#[local] Open Scope Z_scope.

Module SmConfigSpec.
Export Harness.

(** ** The operations of a tester *)

(** What the tests call; [None] is a panic. *)
Class Tester (C : Type) := {
  size : C → nat;
  reach : C → nat → nat → bool;
  connect : nat → list nat → C → option C;
  disconnect : nat → list nat → C → option C;
  connect_all : C → option C;
  split_in : list nat → list nat → C → option C;
  new_client : (nat → nat) → list nat → C → option (nat * C);
  connect_client : nat → list nat → C → option C;
  disconnect_client : nat → list nat → C → option C;
  delete_client : nat → C → C;
  shutdown : nat → C → option C;
  start : nat → C → option C;
}.

Inductive command :=
| Connect (i : nat) (to : list nat)
| Disconnect (i : nat) (from : list nat)
| Everyone
| Split (p1 p2 : list nat)
| NewClient (rnd : nat → nat) (to : list nat)
| ClientOn (ck : nat) (to : list nat)
| ClientOff (ck : nat) (from : list nat)
| ClientGone (ck : nat)
| Shutdown (i : nat)
| Start (i : nat).

Section runs.
Context {C : Type} {T : Tester C}.
Implicit Types (cfg : C) (c : command).

Definition perform c cfg : option C :=
  match c with
  | Connect i to => connect i to cfg
  | Disconnect i from => disconnect i from cfg
  | Everyone => connect_all cfg
  | Split p1 p2 => split_in p1 p2 cfg
  | NewClient rnd to => '(_, cfg) ← new_client rnd to cfg; Some cfg
  | ClientOn ck to => connect_client ck to cfg
  | ClientOff ck from => disconnect_client ck from cfg
  | ClientGone ck => Some (delete_client ck cfg)
  | Shutdown i => shutdown i cfg
  | Start i => start i cfg
  end.

Fixpoint perform_all (cs : list command) cfg : option C :=
  match cs with [] => Some cfg | c :: cs => cfg ← perform c cfg; perform_all cs cfg end.

(** What the callers keep to: servers that exist, parts without a common server,
    draws of [rand.Intn] in their range, and a server is started again only
    after it has been shut down, which leaves none of its ends on. *)
Definition proper c cfg : Prop :=
  match c with
  | Connect i l | Disconnect i l => (i < size cfg)%nat ∧ (∀ t, t ∈ l → (t < size cfg)%nat) ∧ (length l <= size cfg)%nat
  | Split p1 p2 =>
      (∀ i, i ∈ p1 ++ p2 → (i < size cfg)%nat) ∧ (∀ i, i ∈ p1 → i ∉ p2) ∧ (length p1 <= size cfg)%nat ∧
      (length p2 <= size cfg)%nat
  | NewClient rnd _ => ∀ i, (rnd i <= i)%nat
  | Start i => ∀ a, (a < size cfg)%nat → reach cfg i a = false
  | Shutdown i => (i < size cfg)%nat
  | Everyone | ClientOn _ _ | ClientOff _ _ | ClientGone _ => True
  end.

(** The configurations that proper commands lead to. *)
Inductive reachable cfg : C → Prop :=
| reach_refl : reachable cfg cfg
| reach_step cfg1 cfg2 c : reachable cfg cfg1 → proper c cfg1 → perform c cfg1 = Some cfg2 → reachable cfg cfg2.

End runs.

(** ** The two testers *)

Definition sm_reaches (cfg : SmConfig.config) (a c : nat) : bool :=
  match link (SmConfig.endnames cfg) (a, c) with
  | Some x => i_enabled (readEndnameInfo (End x) (SmConfig.net cfg))
  | None => false
  end.

Section testers.
Context (crand : nat → list Z).

#[export] Instance kv_tester : Tester KvConfig.config := {|
  size := KvConfig.n;
  reach := KvConfigSpec.reaches;
  connect := KvConfig.connectUnlocked;
  disconnect := KvConfig.disconnectUnlocked;
  connect_all := KvConfig.ConnectAll;
  split_in := KvConfig.partition;
  new_client := KvConfig.makeClient crand;
  connect_client := KvConfig.ConnectClientUnlocked;
  disconnect_client := KvConfig.DisconnectClientUnlocked;
  delete_client := KvConfig.deleteClient;
  shutdown := KvConfig.ShutdownServer;
  start := KvConfig.StartServer crand;
|}.

#[export] Instance sm_tester : Tester SmConfig.config := {|
  size := SmConfig.n;
  reach := sm_reaches;
  connect := SmConfig.connectUnlocked;
  disconnect := SmConfig.disconnectUnlocked;
  connect_all := SmConfig.ConnectAll;
  split_in := SmConfig.partition;
  new_client := SmConfig.makeClient crand;
  connect_client := SmConfig.ConnectClientUnlocked;
  disconnect_client := SmConfig.DisconnectClientUnlocked;
  delete_client := SmConfig.deleteClient;
  shutdown := SmConfig.ShutdownServer;
  start := SmConfig.StartServer crand;
|}.

End testers.

(** ** What the two have in common *)

(** A shardmaster in the place of a key/value server, and no limit on the state. *)
Definition forget_server (x : KvConfig.inst) : SmConfig.ShardMaster :=
  let sm := SmConfig.start_shardmaster (KvConfig.i_me x) (KvConfig.i_persister x) (KvConfig.i_booted x) in
  if KvConfig.i_dead x then SmConfig.Kill sm else sm.

Definition forget (cfg : KvConfig.config) : SmConfig.config :=
  SmConfig.mkConfig (KvConfig.net cfg) (KvConfig.n cfg) (KvConfig.kvservers cfg) (KvConfig.saved cfg)
    (KvConfig.endnames cfg) (KvConfig.clerks cfg) (KvConfig.nextClientId cfg) (KvConfig.persisters cfg)
    (forget_server <$> KvConfig.insts cfg)
    ((λ ck, SmConfig.MakeClerk (KvConfig.c_servers ck)) <$> KvConfig.clerk_objects cfg) (KvConfig.drawn cfg).

Lemma for_each_hom {S T} (h : S → T) f g js s :
  (∀ j s, h <$> f j s = g j (h s)) → h <$> for_each js f s = for_each js g (h s).
Proof.
  intros Hfg. revert s. induction js as [|j js IH]; intros s; simpl; [done|]. rewrite <- Hfg.
  destruct (f j s); simpl; [apply IH|done].
Qed.

(** The first computation of both sides of an equation. *)
Ltac both_run :=
  repeat first
    [ progress simpl
    | match goal with |- context [?m ≫= _] => destruct m eqn:?; [|done] end ].

Lemma forget_connect i to cfg :
  forget <$> KvConfig.connectUnlocked i to cfg = SmConfig.connectUnlocked i to (forget cfg).
Proof. unfold KvConfig.connectUnlocked, SmConfig.connectUnlocked. by both_run. Qed.

Lemma forget_disconnect i from cfg :
  forget <$> KvConfig.disconnectUnlocked i from cfg = SmConfig.disconnectUnlocked i from (forget cfg).
Proof.
  unfold KvConfig.disconnectUnlocked, SmConfig.disconnectUnlocked.
  change (SmConfig.has_names (forget cfg)) with (KvConfig.has_names cfg). by both_run.
Qed.

Lemma forget_connect_all cfg : forget <$> KvConfig.ConnectAll cfg = SmConfig.ConnectAll (forget cfg).
Proof. apply for_each_hom. intros. apply forget_connect. Qed.

Lemma forget_turn i other side cfg :
  forget <$> (cfg ← KvConfig.disconnectUnlocked i other cfg; KvConfig.connectUnlocked i side cfg) =
  (cfg ← SmConfig.disconnectUnlocked i other (forget cfg); SmConfig.connectUnlocked i side cfg).
Proof. rewrite <- forget_disconnect. destruct (KvConfig.disconnectUnlocked i other cfg); [apply forget_connect|done]. Qed.

Lemma forget_partition p1 p2 cfg : forget <$> KvConfig.partition p1 p2 cfg = SmConfig.partition p1 p2 (forget cfg).
Proof.
  unfold KvConfig.partition, SmConfig.partition.
  rewrite <- (for_each_hom forget _ _ p1) by (intros; apply forget_turn).
  destruct (for_each p1 _ cfg); [|done]. apply for_each_hom. intros. apply forget_turn.
Qed.

Lemma forget_kill k cfg : forget (KvConfig.kill k cfg) = SmConfig.kill k (forget cfg).
Proof.
  unfold KvConfig.kill, SmConfig.kill, forget, SmConfig.set_servers. simpl. f_equal.
  apply list_fmap_alter. apply Forall_true. by intros [? ? ? ? []].
Qed.

Lemma forget_ends b names to cfg :
  forget <$> (rn ← for_each to (KvConfig.switch_end b names) (KvConfig.net cfg); Some (KvConfig.set_net rn cfg)) =
  (rn ← for_each to (KvConfig.switch_end b names) (SmConfig.net (forget cfg)); Some (SmConfig.set_net rn (forget cfg))).
Proof. by both_run. Qed.

Lemma forget_client crand rnd to cfg :
  prod_map id forget <$> KvConfig.makeClient crand rnd to cfg = SmConfig.makeClient crand rnd to (forget cfg).
Proof.
  unfold KvConfig.makeClient, SmConfig.makeClient. simpl. destruct (attach _ _ _) as [rn|]; [|done]. simpl.
  destruct (KvConfig.random_handles _ _) as [ends|]; [|done]. simpl. rewrite length_fmap.
  unfold KvConfig.ConnectClientUnlocked, SmConfig.ConnectClientUnlocked. simpl.
  destruct (for_each to _ _) as [rn2|]; [|done]. simpl. unfold forget, SmConfig.set_net. simpl. by rewrite fmap_app.
Qed.

Lemma forget_saved i cfg : SmConfig.saved_persister i (forget cfg) = KvConfig.saved_persister i cfg.
Proof. done. Qed.

(** The end of [ShutdownServer]. *)
Lemma forget_stop i cfg :
  forget <$> (kv ← KvConfig.kvservers cfg !! i;
    match kv with
    | Some k =>
        let cfg := KvConfig.kill k cfg in
        Some (KvConfig.set_kvservers (<[i := None]> (KvConfig.kvservers cfg)) (KvConfig.insts cfg) cfg)
    | None => Some cfg
    end) =
  (kv ← SmConfig.servers (forget cfg) !! i;
    match kv with
    | Some k =>
        let cfg := SmConfig.kill k (forget cfg) in
        Some (SmConfig.set_servers (<[i := None]> (SmConfig.servers cfg)) (SmConfig.masters cfg) cfg)
    | None => Some (forget cfg)
    end).
Proof.
  simpl. destruct (KvConfig.kvservers cfg !! i) as [[k|]|]; [|done..].
  apply (f_equal (λ x, Some (SmConfig.set_servers (<[i := None]> (SmConfig.servers x)) (SmConfig.masters x) x)) (forget_kill k cfg)).
Qed.

Lemma forget_shutdown i cfg : forget <$> KvConfig.ShutdownServer i cfg = SmConfig.ShutdownServer i (forget cfg).
Proof.
  unfold KvConfig.ShutdownServer, SmConfig.ShutdownServer. change (SmConfig.All (forget cfg)) with (KvConfig.All cfg).
  rewrite <- forget_disconnect. destruct (KvConfig.disconnectUnlocked i _ cfg) as [cfg1|]; [|done]. simpl.
  change (SmConfig.saved_persister i _) with (KvConfig.saved_persister i (KvConfig.set_net (DeleteServer (Srv i) (KvConfig.net cfg1)) cfg1)).
  destruct (KvConfig.saved_persister _ _) as [ps|]; [|done]. simpl.
  pose (cut_off := KvConfig.set_net (DeleteServer (Srv i) (KvConfig.net cfg1)) cfg1).
  destruct ps as [ps|]; [exact (forget_stop i (KvConfig.save_fresh i (Copy ps) cut_off))|exact (forget_stop i cut_off)].
Qed.

Lemma forget_start crand i cfg : forget <$> KvConfig.StartServer crand i cfg = SmConfig.StartServer crand i (forget cfg).
Proof.
  unfold KvConfig.StartServer, SmConfig.StartServer. simpl. destruct (KvConfig.endnames cfg !! i); [|done]. simpl.
  destruct (attach _ _ _) as [rn|]; [|done]. simpl. unfold SmConfig.saved_persister, KvConfig.saved_persister. simpl.
  destruct (KvConfig.saved cfg !! i) as [[p|]|]; [|simpl|done].
  - simpl. destruct (KvConfig.persisters cfg !! p); [|done]. simpl. unfold forget. simpl. rewrite fmap_app, length_fmap. done.
  - unfold forget. simpl. rewrite fmap_app, length_fmap. done.
Qed.

Lemma forget_perform crand c cfg :
  forget <$> perform (T := kv_tester crand) c cfg = perform (T := sm_tester crand) c (forget cfg).
Proof.
  destruct c; simpl.
  - apply forget_connect.
  - apply forget_disconnect.
  - apply forget_connect_all.
  - apply forget_partition.
  - rewrite <- forget_client. by destruct (KvConfig.makeClient crand rnd to cfg) as [[]|].
  - apply forget_ends.
  - apply forget_ends.
  - done.
  - apply forget_shutdown.
  - apply forget_start.
Qed.

Lemma forget_performs crand cs cfg :
  forget <$> perform_all (T := kv_tester crand) cs cfg = perform_all (T := sm_tester crand) cs (forget cfg).
Proof.
  revert cfg. induction cs as [|c cs IH]; intros cfg; [done|]. cbn [perform_all]. rewrite <- forget_perform.
  destruct (perform c cfg) as [cfg'|]; [apply IH|done].
Qed.

Lemma forget_make_config crand n0 unreliable m :
  forget <$> KvConfig.make_config crand n0 unreliable m = SmConfig.make_config crand n0 unreliable.
Proof.
  unfold KvConfig.make_config, SmConfig.make_config.
  change (SmConfig.empty_config n0) with (forget (KvConfig.empty_config n0 m)).
  rewrite <- (for_each_hom forget (KvConfig.StartServer crand)) by (intros; apply forget_start).
  destruct (for_each _ _ (KvConfig.empty_config n0 m)) as [cfg|]; [|done]. simpl. rewrite <- forget_connect_all.
  by destruct (KvConfig.ConnectAll cfg).
Qed.

Lemma forget_cleanup cfg : forget (KvConfig.cleanup cfg) = SmConfig.cleanup (forget cfg).
Proof.
  unfold KvConfig.cleanup, SmConfig.cleanup. change (SmConfig.servers (forget cfg)) with (KvConfig.kvservers cfg).
  generalize (KvConfig.kvservers cfg). intros l. revert cfg. induction l as [|[k|] l IH]; intros cfg; simpl; [done|..].
  - rewrite <- forget_kill. apply IH.
  - apply IH.
Qed.

(** ** Links in the runs of a tester *)

Import KvConfigSpec.

(** Servers are linked as [kv_links] says, and all ends of clerks are apart. *)
Definition kv_inv (n0 : nat) (cfg : KvConfig.config) : Prop :=
  n cfg = n0 ∧ ∃ L X, kv_links cfg L X ∧ ∀ ck names x, clerks cfg !! ck = Some names → x ∈ names → X x.

Lemma switch_client_inv b ck to cfg cfg' n0 :
  kv_inv n0 cfg →
  (rn ← for_each to (switch_end b (default [] (clerks cfg !! ck))) (net cfg); Some (set_net rn cfg)) = Some cfg' → kv_inv n0 cfg'.
Proof.
  intros (Hn & L & X & [Hl Hr Hw] & Hx) (rn & Hsw & [= <-])%bind_Some. split; [done|]. exists L, X. split; [|done].
  destruct (switch_end_ok counter_bytes _ _ _ _ _ Hsw) as (_ & _ & Hkeep). split; [done..|]. apply Hkeep; [|done].
  intros x Hin. destruct (clerks cfg !! ck) as [names|] eqn:Hck; [|by apply elem_of_nil in Hin]. by eapply Hx.
Qed.

Lemma wired_DeleteServer ends L X s rn : wired ends L X rn → wired ends L X (DeleteServer s rn).
Proof. intros [? ? ? ? ? ?]. by split. Qed.

Lemma shutdown_inv i cfg cfg' n0 : kv_inv n0 cfg → (i < n0)%nat → ShutdownServer i cfg = Some cfg' → kv_inv n0 cfg'.
Proof.
  intros (Hn & L & X & Hk & Hx) Hi. unfold ShutdownServer.
  destruct (disconnect_ok i (All cfg) cfg L X Hk) as (rn & -> & _ & Hk'); [lia| |unfold All; by rewrite length_seq|].
  { intros t [_ ?]%elem_of_seq. done. }
  simpl. intros (ps & _ & (kv & _ & Hst)%bind_Some)%bind_Some.
  assert (n cfg' = n0 ∧ endnames cfg' = endnames cfg ∧ clerks cfg' = clerks cfg ∧ net cfg' = DeleteServer (Srv i) rn)
    as (Hn' & He & Hc & Hnet) by (destruct ps, kv; injection Hst as <-; split_and!; (exact Hn || reflexivity)).
  split; [done|]. eexists _, X. split; [|by rewrite Hc]. destruct Hk' as [Hl Hr Hw]. simpl in *.
  split; rewrite ?He, ?Hn', <- ?Hn; [done..|]. rewrite Hnet. apply wired_DeleteServer, Hw.
Qed.

Lemma start_inv crand i cfg cfg' n0 :
  kv_inv n0 cfg → (∀ a, (a < n0)%nat → reaches cfg i a = false) → StartServer crand i cfg = Some cfg' → kv_inv n0 cfg'.
Proof.
  intros (Hn & L & X & [Hl Hr Hw] & Hx) Hoff Hst.
  assert (clerks cfg' = clerks cfg) as Hc.
  { revert Hst. unfold StartServer. by intros (? & _ & (? & _ & (? & _ & [= <-])%bind_Some)%bind_Some)%bind_Some. }
  destruct (StartServer_links crand i cfg cfg' L X Hw) as (Hn' & He & Hi & Hw'); [|done|].
  { intros a x Ha. assert (a < n0)%nat as Hlt.
    { unfold link in Ha. simpl in Ha. destruct (endnames cfg !! i) as [row|] eqn:Hrow; [|done]. simpl in Ha.
      apply lookup_lt_Some in Ha. by rewrite (Hr i row), Hn in Ha. }
    specialize (Hoff a Hlt). unfold reaches in Hoff. rewrite Ha in Hoff. exact Hoff. }
  split; [by rewrite Hn'|]. eexists _, X. split; [|by rewrite Hc]. split; [by rewrite He, length_insert, Hn'| |exact Hw'].
  intros j row. rewrite He, Hn'. intros [(<- & <- & _)|[_ Hj]]%list_lookup_insert_Some; [|by eapply Hr].
  unfold new_names. by rewrite length_fmap, length_seq.
Qed.

Lemma client_inv crand rnd to cfg ck cfg' n0 :
  kv_inv n0 cfg → (∀ i, (rnd i <= i)%nat) → makeClient crand rnd to cfg = Some (ck, cfg') → kv_inv n0 cfg'.
Proof.
  intros (Hn & L & X & Hk & Hx) Hrnd Hm.
  destruct (makeClient_ok crand rnd to cfg L X ck cfg' Hk Hrnd Hm) as (names & sv & Hck & _ & _ & _ & Hk' & _).
  assert (n cfg' = n cfg ∧ clerks cfg' = <[ck := names]> (clerks cfg)) as [Hn' Hc].
  { unfold makeClient in Hm. apply bind_Some in Hm as (rn & _ & (ends & _ & (cfg2 & Hcon & [= <- <-])%bind_Some)%bind_Some).
    unfold ConnectClientUnlocked in Hcon. apply bind_Some in Hcon as (rn2 & _ & [= <-]). simpl in *.
    rewrite lookup_insert_eq in Hck. by injection Hck as <-. }
  split; [by rewrite Hn'|]. exists L, (λ x, X x ∨ x ∈ names). split; [done|]. rewrite Hc.
  intros ck' names' x [[<- <-]|[_ Hl]]%lookup_insert_Some Hin; [by right|left]. by eapply Hx.
Qed.

(** Proper commands keep the links in order. *)
Lemma perform_inv crand c cfg cfg' n0 :
  kv_inv n0 cfg → proper (T := kv_tester crand) c cfg → perform (T := kv_tester crand) c cfg = Some cfg' → kv_inv n0 cfg'.
Proof.
  intros Hinv Hp Hex. pose proof Hinv as (Hn & L & X & Hk & Hx).
  destruct c as [i to|i from| |p1 p2|rnd to|ck to|ck from|ck|i|i]; simpl in Hp, Hex.
  - destruct Hp as (Hi & Ht & _). destruct (connect_ok i to cfg L X Hk Hi Ht) as (rn & Hc & _ & Hk').
    rewrite Hex in Hc. injection Hc as ->. split; [done|]. by eexists _, X.
  - destruct Hp as (Hi & Ht & Hl). destruct (disconnect_ok i from cfg L X Hk Hi Ht Hl) as (rn & Hc & _ & Hk').
    rewrite Hex in Hc. injection Hc as ->. split; [done|]. by eexists _, X.
  - destruct (ConnectAll_ok crand cfg L X Hk) as (rn & Hc & _ & Hk'). rewrite Hex in Hc. injection Hc as ->. split; [done|]. by eexists _, X.
  - destruct Hp as (Hlt & Hdis & Hl1 & Hl2). unfold partition in Hex.
    destruct (side_ok p1 p2 cfg L X Hk Hlt Hl2 Hdis) as (rn1 & Hs1 & _ & Hk1). rewrite Hs1 in Hex. simpl in Hex.
    destruct (side_ok p2 p1 _ _ X Hk1) as (rn2 & Hs2 & _ & Hk2); [|done| |].
    { intros t Ht. apply Hlt. rewrite elem_of_app in *. tauto. }
    { intros x H2 H1. by apply (Hdis x). }
    rewrite Hs2 in Hex. injection Hex as <-. split; [done|]. by eexists _, X.
  - apply bind_Some in Hex as ([ck cfg1] & Hm & [= <-]). exact (client_inv crand rnd to cfg ck cfg1 n0 Hinv Hp Hm).
  - exact (switch_client_inv true ck to cfg cfg' n0 Hinv Hex).
  - exact (switch_client_inv false ck from cfg cfg' n0 Hinv Hex).
  - injection Hex as <-. split; [done|]. exists L, X. split; [by destruct Hk|]. intros ck' names x Hck Hin.
    simpl in Hck. apply lookup_delete_Some in Hck as [_ Hck]. by eapply Hx.
  - eapply shutdown_inv; [done| |done]. by rewrite <- Hn.
  - eapply start_inv; [done| |done]. by rewrite <- Hn.
Qed.

Lemma reachable_inv crand cfg cfg' n0 :
  kv_inv n0 cfg → reachable (T := kv_tester crand) cfg cfg' → kv_inv n0 cfg'.
Proof. intros Hinv Hr. induction Hr as [|cfg1 cfg2 c _ IH Hp Hex]; [done|]. by eapply perform_inv. Qed.

Lemma make_config_inv crand n0 unreliable m cfg : make_config crand n0 unreliable m = Some cfg → kv_inv n0 cfg.
Proof.
  intros Hm. destruct (make_config_links crand n0 unreliable m cfg Hm) as [Hn Hk]. split; [done|].
  exists (λ _ _, true), (λ _, False). split; [done|]. intros ck names x Hck. exfalso. revert Hck.
  assert (clerks cfg = ∅) as ->; [|by rewrite lookup_empty].
  unfold make_config in Hm. apply bind_Some in Hm as (cfg1 & Hf & (cfg2 & Hc & [= <-])%bind_Some). simpl.
  assert (clerks cfg1 = ∅) as H1.
  { eapply (for_each_spec (λ _ cfg, clerks cfg = ∅)); [|clear Hf|exact Hf]; [done|].
    intros _ i s s' _ Hs Hst. unfold StartServer in Hst.
    by apply bind_Some in Hst as (? & _ & (? & _ & (? & _ & [= <-])%bind_Some)%bind_Some). }
  revert Hc. apply (for_each_spec (λ _ cfg, clerks cfg = ∅)); [done|].
  intros _ i s s' _ Hs (? & _ & (? & _ & [= <-])%bind_Some)%bind_Some. done.
Qed.

(** What one tester reaches, the other does. *)
Lemma reachable_forget crand cfg sm :
  reachable (T := sm_tester crand) (forget cfg) sm →
  ∃ cfg', sm = forget cfg' ∧ reachable (T := kv_tester crand) cfg cfg'.
Proof.
  intros Hr. induction Hr as [|sm1 sm2 c _ (cfg1 & -> & Hr1) Hp Hex]; [by exists cfg; split; [|constructor]|].
  rewrite <- forget_perform in Hex. apply fmap_Some in Hex as (cfg2 & Hex & ->). exists cfg2. split; [done|].
  by eapply (reach_step (T := kv_tester crand)).
Qed.

(** ** The theorems *)

(** C24: The testers of kvraft and of the shardmaster do the same: the same
    commands, with the same random bytes, fail in both or lead to the same
    network, persisters, names and clerks, whatever the limit on the state of a
    key/value server is. *)
Theorem testers_agree crand n unreliable m cs :
  (cfg ← SmConfig.make_config crand n unreliable; perform_all (T := sm_tester crand) cs cfg) =
  forget <$> (cfg ← KvConfig.make_config crand n unreliable m; perform_all (T := kv_tester crand) cs cfg).
Proof.
  rewrite <- (forget_make_config crand n unreliable m). destruct (make_config crand n unreliable m) as [cfg|]; [|done].
  symmetry. apply forget_performs.
Qed.

(** In every configuration that the shardmaster's tester reaches from
    [make_config] by proper commands (partitions, clerks, servers shut down and
    started again) with an odd number of servers, at least three, partitioning
    the servers as [make_partition] says leaves the server that [Leader] names in
    a part of less than half of the servers, cut off from the majority, and
    connects each part. *)
Lemma sm_leader_in_minority crand h unreliable cfg0 cfg reads b l :
  (1 <= h)%nat → SmConfig.make_config crand (2 * h + 1) unreliable = Some cfg0 →
  reachable (T := sm_tester crand) cfg0 cfg → length reads = (2 * h + 1)%nat → SmConfig.Leader reads = Some (b, l) →
  ∃ p1 p2 cfg', SmConfig.make_partition reads cfg = Some (p1, p2) ∧ SmConfig.partition p1 p2 cfg = Some cfg' ∧
    p1 ++ p2 ≡ₚ seq 0 (2 * h + 1) ∧ l ∈ p2 ∧ (2 * length p2 < 2 * h + 1)%nat ∧
    ∀ a c, (a < 2 * h + 1)%nat → (c < 2 * h + 1)%nat → sm_reaches cfg' a c = bool_decide (a ∈ p1 ↔ c ∈ p1).
Proof.
  intros Hh Hm Hr Hlen Hl. rewrite <- (forget_make_config crand _ unreliable (-1)) in Hm.
  apply fmap_Some in Hm as (kv0 & Hm & ->). apply reachable_forget in Hr as (kv & -> & Hr).
  destruct (reachable_inv crand kv0 kv (2 * h + 1) (make_config_inv _ _ _ _ _ Hm) Hr) as (Hn & L & X & Hk & _).
  destruct (leader_in_minority h reads b l kv L X Hk Hn Hh) as (p1 & p2 & kv' & Hmp & Hpart & Hp & Hin & Hlt & Hreach); [by rewrite Hn|done|].
  rewrite Hn in *. exists p1, p2, (forget kv'). rewrite <- forget_partition, Hpart. unfold All in Hp. rewrite Hn in Hp. done.
Qed.

(** Three shardmasters, of which the second is shut down and started again. *)
Definition restarted : option (SmConfig.config * SmConfig.config * SmConfig.config) :=
  cfg0 ← SmConfig.make_config counter_bytes 3 false;
  cfg1 ← SmConfig.ShutdownServer 1 cfg0;
  cfg2 ← SmConfig.StartServer counter_bytes 1 cfg1;
  Some (cfg0, cfg1, cfg2).

Lemma restarted_reachable :
  ∃ cfg0 cfg2, SmConfig.make_config counter_bytes 3 false = Some cfg0 ∧
    reachable (T := sm_tester counter_bytes) cfg0 cfg2 ∧ sm_reaches cfg2 1 0 = false.
Proof.
  assert ((if restarted is Some (cfg0, cfg1, cfg2)
    then bool_decide (SmConfig.n cfg0 = 3%nat ∧ SmConfig.n cfg1 = 3%nat) &&
         forallb (λ a, negb (sm_reaches cfg1 1 a)) (seq 0 3) && negb (sm_reaches cfg2 1 0) else false) = true) as Hb
    by by vm_compute.
  unfold restarted in Hb. destruct (SmConfig.make_config counter_bytes 3 false) as [cfg0|]; [|done]. simpl in Hb.
  destruct (SmConfig.ShutdownServer 1 cfg0) as [cfg1|] eqn:H1; [|done]. simpl in Hb.
  destruct (SmConfig.StartServer counter_bytes 1 cfg1) as [cfg2|] eqn:H2; [|done]. simpl in Hb.
  apply andb_true_iff in Hb as [[[Hn0 Hn1]%bool_decide_eq_true Hoff]%andb_true_iff Hlast%negb_true_iff].
  exists cfg0, cfg2. split_and!; [done| |done].
  eapply (reach_step (T := sm_tester counter_bytes) _ cfg1 _ (Start 1)); [|simpl|done].
  - eapply (reach_step (T := sm_tester counter_bytes) _ cfg0 _ (Shutdown 1)); [constructor| |done]. simpl. lia.
  - rewrite Hn1. intros a Ha. assert (a = 0 ∨ a = 1 ∨ a = 2)%nat as [-> | [-> | ->]] by lia;
      revert Hoff; clear; repeat destruct (sm_reaches cfg1 1 _); done.
Qed.

Lemma sm_leader_in_minority_witness :
  let reads := [Some false; Some true; Some false] in
  ∃ cfg, sm_reaches cfg 1 0 = false ∧
  ∃ p1 p2 cfg', SmConfig.make_partition reads cfg = Some (p1, p2) ∧ SmConfig.partition p1 p2 cfg = Some cfg' ∧
    p1 ++ p2 ≡ₚ seq 0 3 ∧ 1%nat ∈ p2 ∧ (2 * length p2 < 3)%nat ∧
    ∀ a c, (a < 3)%nat → (c < 3)%nat → sm_reaches cfg' a c = bool_decide (a ∈ p1 ↔ c ∈ p1).
Proof.
  intros reads. destruct restarted_reachable as (cfg0 & cfg & Hm & Hr & Hoff). exists cfg. split; [done|].
  apply (sm_leader_in_minority counter_bytes 1 false cfg0 cfg reads true 1); [lia|exact Hm|exact Hr|done|done].
Defined.

(** [cleanup] and [LogSize] agree as well. *)
Lemma testers_end_agree cfg :
  SmConfig.cleanup (forget cfg) = forget (KvConfig.cleanup cfg) ∧ SmConfig.LogSize (forget cfg) = KvConfig.LogSize cfg.
Proof. split; [by rewrite forget_cleanup|done]. Qed.
End SmConfigSpec.
