(* ===== verification/ShardConfig.v ===== *)
(** Model of the tester's configuration of shardkv/config.go: three shardmaster
    servers and three groups of key/value servers on one network, with the
    constructors of shardkv/server.go and shardmaster/server.go that it calls.

    A server, of either kind, is an index into the list of instances made so far,
    as in RaftConfig.v.  The names of ends and of servers are strings here. *)

From S2P Require Import Prelude GoStd Labrpc Harness ShardClient.

#[local] Open Scope Z_scope.

Module ShardConfig.
Export Harness.

(** ** Names *)

Definition mastername (i : nat) : string := "master" +:+ Itoa (Z.of_nat i).
Definition servername (gid : Z) (i : nat) : string := "server-" +:+ Itoa gid +:+ "-" +:+ Itoa (Z.of_nat i).

(** ** Servers *)

(** A [*ShardMaster] or a [*ShardKV] with its [*Raft]: the group of the latter,
    its number, the ends to its replicas and to the masters, its persister and
    what it held at the start, and whether [rf.Kill] has been called. *)
Record inst := mkInst {
  i_gid : option Z;
  i_me : nat;
  i_ends : list string;
  i_masters : list string;
  i_maxraftstate : Z;
  i_persister : nat;
  i_booted : Persister;
  i_dead : bool;
}.

(** [shardmaster.StartServer] and [shardkv.StartServer]; [persister] is an
    address, [ps] what is there.  Left out are what no code uses yet: the masters'
    list of configurations, and the function [make_end], the same for everybody. *)
Definition StartServer_master (servers : list string) (me : nat) (persister : nat) (ps : Persister) : inst :=
  mkInst None me servers [] 0 persister ps false.
Definition StartServer_kv (servers : list string) (me : nat) (persister : nat) (ps : Persister) (maxraftstate gid : Z)
    (masters : list string) : inst :=
  mkInst (Some gid) me servers masters maxraftstate persister ps false.

(** [kv.Kill()] *)
Definition Kill (x : inst) : inst :=
  mkInst (i_gid x) (i_me x) (i_ends x) (i_masters x) (i_maxraftstate x) (i_persister x) (i_booted x) true.

(** ** The configuration *)

(** [type group struct]; a row [[]] of [endnames] or [mendnames] is nil. *)
Record group := mkGroup {
  gid : Z;
  servers : list (option nat);
  saved : list (option nat);
  endnames : list (list string);
  mendnames : list (list string);
}.

(** [type config struct]: a clerk is a number, [mck] is the list of the ends of
    the shardmaster's clerk, [clerk_objects] lists those of each client,
    [drawn] counts the calls of [randstring]. *)
Record config := mkConfig {
  net : network;
  nmasters : nat;
  masterservers : list (option nat);
  mck : list string;
  ngroups : nat;
  n : nat;
  groups : list (option group);
  clerks : gmap nat (list string);
  nextClientId : Z;
  maxraftstate : Z;
  persisters : list Persister;
  insts : list inst;
  clerk_objects : list (list string);
  drawn : nat;
}.

Definition set_net (rn : network) (cfg : config) : config :=
  mkConfig rn (nmasters cfg) (masterservers cfg) (mck cfg) (ngroups cfg) (n cfg) (groups cfg) (clerks cfg) (nextClientId cfg)
    (maxraftstate cfg) (persisters cfg) (insts cfg) (clerk_objects cfg) (drawn cfg).
Definition set_ends (rn : network) (drawn : nat) (cfg : config) : config :=
  mkConfig rn (nmasters cfg) (masterservers cfg) (mck cfg) (ngroups cfg) (n cfg) (groups cfg) (clerks cfg) (nextClientId cfg)
    (maxraftstate cfg) (persisters cfg) (insts cfg) (clerk_objects cfg) drawn.
Definition set_masterservers (l : list (option nat)) (cfg : config) : config :=
  mkConfig (net cfg) (nmasters cfg) l (mck cfg) (ngroups cfg) (n cfg) (groups cfg) (clerks cfg) (nextClientId cfg)
    (maxraftstate cfg) (persisters cfg) (insts cfg) (clerk_objects cfg) (drawn cfg).
Definition set_mck (l : list string) (cfg : config) : config :=
  mkConfig (net cfg) (nmasters cfg) (masterservers cfg) l (ngroups cfg) (n cfg) (groups cfg) (clerks cfg) (nextClientId cfg)
    (maxraftstate cfg) (persisters cfg) (insts cfg) (clerk_objects cfg) (drawn cfg).
Definition set_group (gi : nat) (gg : group) (cfg : config) : config :=
  mkConfig (net cfg) (nmasters cfg) (masterservers cfg) (mck cfg) (ngroups cfg) (n cfg) (<[gi := Some gg]> (groups cfg))
    (clerks cfg) (nextClientId cfg) (maxraftstate cfg) (persisters cfg) (insts cfg) (clerk_objects cfg) (drawn cfg).
Definition set_clerks (cks : gmap nat (list string)) (next : Z) (os : list (list string)) (cfg : config) : config :=
  mkConfig (net cfg) (nmasters cfg) (masterservers cfg) (mck cfg) (ngroups cfg) (n cfg) (groups cfg) cks next
    (maxraftstate cfg) (persisters cfg) (insts cfg) os (drawn cfg).
Definition set_store (pss : list Persister) (xs : list inst) (cfg : config) : config :=
  mkConfig (net cfg) (nmasters cfg) (masterservers cfg) (mck cfg) (ngroups cfg) (n cfg) (groups cfg) (clerks cfg)
    (nextClientId cfg) (maxraftstate cfg) pss xs (clerk_objects cfg) (drawn cfg).

Definition set_servers (l : list (option nat)) (gg : group) : group :=
  mkGroup (gid gg) l (saved gg) (endnames gg) (mendnames gg).
Definition set_saved (l : list (option nat)) (gg : group) : group :=
  mkGroup (gid gg) (servers gg) l (endnames gg) (mendnames gg).
Definition set_names (l ml : list (list string)) (gg : group) : group :=
  mkGroup (gid gg) (servers gg) (saved gg) l ml.

(** [cfg.groups[gi]]; [None] is an index out of range or a nil pointer. *)
Definition group_at (gi : nat) (cfg : config) : option group := mjoin (groups cfg !! gi).

(** The persister that [gg.saved[i]] points to, if it is not nil. *)
Definition saved_persister (i : nat) (gg : group) (cfg : config) : option (option Persister) :=
  p ← saved gg !! i;
  match p with Some p => ps ← persisters cfg !! p; Some (Some ps) | None => Some None end.

(** ** Ends *)

Section names.
(** The bytes of the successive reads of [crypto/rand]. *)
Context (crand : nat → list Z).

Definition draw (k : nat) : string := randstring 20 (crand k).

(** [MakeEnd], [Connect] and [Enable] for each server of [to]: an end with the
    [k]th random name, then the next. *)
Fixpoint dial_from (k : nat) (to : list string) (rn : network) : option (list string * network) :=
  match to with
  | [] => Some ([], rn)
  | servername :: to =>
      let endname := draw k in
      rn ← MakeEnd (End endname) rn;
      let rn := Enable (End endname) true (Connect (End endname) (Some (End servername)) rn) in
      '(names, rn) ← dial_from (S k) to rn;
      Some (endname :: names, rn)
  end.

Definition dial (to : list string) (cfg : config) : option (list string * config) :=
  '(names, rn) ← dial_from (drawn cfg) to (net cfg);
  Some (names, set_ends rn (drawn cfg + length to) cfg).

Definition masternames (cfg : config) : list string := mastername <$> seq 0 (nmasters cfg).
Definition groupnames (gid : Z) (cfg : config) : list string := servername gid <$> seq 0 (n cfg).

(** The function that clerks and servers get to make ends of their own. *)
Definition make_end (servername : string) (cfg : config) : option (string * config) :=
  '(names, cfg) ← dial [servername] cfg;
  match names with [name] => Some (name, cfg) | _ => None end.

(** ** Clerks *)

(** [endnames[j] = x] for the names [xs] in turn, from [j] on. *)
Fixpoint fill (j : nat) (xs l : list string) : option (list string) :=
  match xs with
  | [] => Some l
  | x :: xs => if Nat.ltb j (length l) then fill (S j) xs (<[j := x]> l) else None
  end.

Definition makeClient (cfg : config) : option (nat * config) :=
  '(ends, cfg) ← dial (masternames cfg) cfg;
  endnames ← fill 0 ends (replicate (n cfg) "");
  let ck := length (clerk_objects cfg) in
  Some (ck, set_clerks (<[ck := endnames]> (clerks cfg)) (nextClientId cfg + 1) (clerk_objects cfg ++ [ends]) cfg).

(** The calls of [os.Remove] have no effect: the names are not names of files. *)
Definition deleteClient (ck : nat) (cfg : config) : config :=
  set_clerks (delete ck (clerks cfg)) (nextClientId cfg) (clerk_objects cfg) cfg.

Definition shardclerk (cfg : config) : option (list string * config) := dial (masternames cfg) cfg.

(** ** Starting servers *)

(** A new instance, its [labrpc.Server], and the address of its persister. *)
Definition add_server (x : inst) (servername : string) (cfg : config) : config :=
  let cfg := set_store (persisters cfg) (insts cfg ++ [x]) cfg in
  set_net (AddServer (End servername) (length (insts cfg) - 1) (net cfg)) cfg.

Definition new_persister (ps : Persister) (cfg : config) : config := set_store (persisters cfg ++ [ps]) (insts cfg) cfg.

Definition StartMasterServer (i : nat) (cfg : config) : option config :=
  '(ends, cfg) ← dial (masternames cfg) cfg;
  let p := length (persisters cfg) in
  let cfg := new_persister MakePersister cfg in
  _ ← masterservers cfg !! i;
  let cfg := set_masterservers (<[i := Some (length (insts cfg))]> (masterservers cfg)) cfg in
  Some (add_server (StartServer_master ends i p MakePersister) (mastername i) cfg).

Definition StartServer (gi i : nat) (cfg : config) : option config :=
  gg ← group_at gi cfg;
  _ ← endnames gg !! i;
  '(ends, cfg) ← dial (groupnames (gid gg) cfg) cfg;
  _ ← mendnames gg !! i;
  '(mends, cfg) ← dial (masternames cfg) cfg;
  let gg := set_names (<[i := ends]> (endnames gg)) (<[i := mends]> (mendnames gg)) gg in
  ps ← saved_persister i gg cfg;
  let ps := match ps with Some ps => Copy ps | None => MakePersister end in
  let p := length (persisters cfg) in
  let cfg := new_persister ps cfg in
  let gg := set_saved (<[i := Some p]> (saved gg)) gg in
  _ ← servers gg !! i;
  let gg := set_servers (<[i := Some (length (insts cfg))]> (servers gg)) gg in
  let cfg := set_group gi gg cfg in
  Some (add_server (StartServer_kv ends i p ps (maxraftstate cfg) (gid gg) mends) (servername (gid gg) i) cfg).

Definition StartGroup (gi : nat) (cfg : config) : option config := for_each (seq 0 (n cfg)) (StartServer gi) cfg.

(** ** Shutting servers down *)

(** [cfg.net.Enable(row[j], false)] *)
Definition disable (row : list string) (j : nat) (rn : network) : option network :=
  name ← row !! j; Some (Enable (End name) false rn).

Definition ShutdownServer (gi i : nat) (cfg : config) : option config :=
  gg ← group_at gi cfg;
  rn ← for_each (seq 0 (length (servers gg))) (λ j rn, row ← endnames gg !! i; disable row j rn) (net cfg);
  mrow ← mendnames gg !! i;
  rn ← for_each (seq 0 (length mrow)) (disable mrow) rn;
  let cfg := set_net (DeleteServer (End (servername (gid gg) i)) rn) cfg in
  ps ← saved_persister i gg cfg;
  let '(gg, cfg) :=
    match ps with
    | Some ps => (set_saved (<[i := Some (length (persisters cfg))]> (saved gg)) gg, new_persister (Copy ps) cfg)
    | None => (gg, cfg)
    end in
  kv ← servers gg !! i;
  match kv with
  | Some k =>
      let cfg := set_store (persisters cfg) (alter Kill k (insts cfg)) cfg in
      Some (set_group gi (set_servers (<[i := None]> (servers gg)) gg) cfg)
  | None => Some (set_group gi gg cfg)
  end.

Definition ShutdownGroup (gi : nat) (cfg : config) : option config := for_each (seq 0 (n cfg)) (ShutdownServer gi) cfg.

(** [cleanup] without the time limit of the test. *)
Definition cleanup (cfg : config) : option config :=
  cfg ← for_each (seq 0 (ngroups cfg)) ShutdownGroup cfg; Some (set_net (Cleanup (net cfg)) cfg).

(** ** [make_config] *)

Definition empty_config (n : nat) (maxraftstate : Z) : config :=
  mkConfig MakeNetwork 3 (replicate 3 None) [] 3 n (replicate 3 None) ∅ (Z.of_nat n + 1000) maxraftstate [] [] [] 0.

(** [&group{}] with its fields. *)
Definition new_group (gi : nat) (cfg : config) : group :=
  mkGroup (100 + Z.of_nat gi) (replicate (n cfg) None) (replicate (n cfg) None) (replicate (n cfg) [])
    (replicate (nmasters cfg) []).

Definition make_config (n : nat) (unreliable : bool) (maxraftstate : Z) : option config :=
  cfg ← for_each (seq 0 3) StartMasterServer (empty_config n maxraftstate);
  '(ends, cfg) ← shardclerk cfg;
  let cfg := set_mck ends cfg in
  cfg ← for_each (seq 0 (ngroups cfg)) (λ gi cfg, StartGroup gi (set_group gi (new_group gi cfg) cfg)) cfg;
  Some (set_net (Reliable (negb unreliable) (net cfg)) cfg).

End names.

(** ** The size of the logs *)

Inductive failure :=
| LogTooBig (size max : Z)
| SnapshotNotEmpty.

(** One server; a nil persister panics. *)
Definition checklog (gi i : nat) (cfg : config) : option (option failure) :=
  gg ← group_at gi cfg;
  ps ← saved_persister i gg cfg;
  ps ← ps;
  Some
    (if (maxraftstate cfg >=? 0) && (RaftStateSize ps >? 8 * maxraftstate cfg) then Some (LogTooBig (RaftStateSize ps) (maxraftstate cfg))
     else if (maxraftstate cfg <? 0) && (Persister.SnapshotSize ps >? 0) then Some SnapshotNotEmpty
     else None).

(** The first [t.Fatalf] ends the test. *)
Definition checklogs (cfg : config) : option (option failure) :=
  for_each (seq 0 (ngroups cfg)) (λ gi,
    for_each (seq 0 (n cfg)) (λ i failed,
      match failed with Some f => Some (Some f) | None => checklog gi i cfg end)) None.

(** ** Groups that join and leave *)

(** The argument of [Join] and that of [Leave]. *)
Definition join_groups (gis : list nat) (cfg : config) : option (gmap Z (list string)) :=
  for_each gis (λ g m, gg ← group_at g cfg; Some (<[gid gg := groupnames (gid gg) cfg]> m)) ∅.
Definition leave_groups (gis : list nat) (cfg : config) : option (list Z) :=
  for_each gis (λ g gids, gg ← group_at g cfg; Some (gids ++ [gid gg])) [].

Section clerk.
(** RPCs to the shardmaster, as in ShardClient.v; [cfg.mck] numbers its ends. *)
Context {W : Type} (sleep : W → W).
Context (call_join : nat → ShardClient.JoinArgs → W → W * option ShardClient.MasterReply).
Context (call_leave : nat → ShardClient.LeaveArgs → W → W * option ShardClient.MasterReply).

Definition joinm (fuel : nat) (gis : list nat) (cfg : config) (w : W) : option W :=
  m ← join_groups gis cfg; ShardClient.Join sleep call_join fuel (seq 0 (length (mck cfg))) m w.
Definition join (fuel : nat) (gi : nat) : config → W → option W := joinm fuel [gi].
Definition leavem (fuel : nat) (gis : list nat) (cfg : config) (w : W) : option W :=
  gids ← leave_groups gis cfg; ShardClient.Leave sleep call_leave fuel (seq 0 (length (mck cfg))) gids w.
Definition leave (fuel : nat) (gi : nat) : config → W → option W := leavem fuel [gi].
End clerk.

(** ** Runs of a test *)

(** [LEnd]: a clerk or a server makes an end of its own; [LSave k ps]: instance [k],
    alive or not, leaves [ps] in its persister. *)
Inductive label :=
| LStart (gi i : nat)
| LShutdown (gi i : nat)
| LClient
| LDelete (ck : nat)
| LEnd (servername : string)
| LSave (k : nat) (ps : Persister).

Section run.
Context (crand : nat → list Z).

Definition exec (l : label) (cfg : config) : option config :=
  match l with
  | LStart gi i => StartServer crand gi i cfg
  | LShutdown gi i => ShutdownServer gi i cfg
  | LClient => snd <$> makeClient crand cfg
  | LDelete ck => Some (deleteClient ck cfg)
  | LEnd servername => snd <$> make_end crand servername cfg
  | LSave k ps => x ← insts cfg !! k; Some (set_store (<[i_persister x := ps]> (persisters cfg)) (insts cfg) cfg)
  end.

Fixpoint run (ls : list label) (cfg : config) : option config :=
  match ls with
  | [] => Some cfg
  | l :: ls => cfg ← exec l cfg; run ls cfg
  end.
End run.

End ShardConfig.
