(* ===== verification/ShardConfigProof.v ===== *)
(** The invariants behind the tester's configuration of shardkv/config.go: the
    persisters of a slot and the ends of an instance, on tables that are indexed
    by the names of the servers. *)

From Stdlib Require Import Ascii.
From stdpp Require Import pretty.
From S2P Require Import Prelude GoStd Labrpc Harness ShardConfig.

#[local] Open Scope Z_scope.

Module ShardConfigProof.
Export ShardConfig.

(** ** Names of servers *)

#[local] Arguments String.append : simpl nomatch.

Lemma servername_inj g i g' i' : 0 <= g → 0 <= g' → servername g i = servername g' i' → g = g' ∧ i = i'.
Proof.
  intros Hg Hg' He%(f_equal (λ s, chars s)). unfold servername, Itoa in He. rewrite !chars_app in He. simpl in He.
  injection He as He. apply app_last_inj in He as [H1 H2]; [|by apply dash_not_digit, pretty_digits; lia..].
  apply chars_inj, (inj pretty) in H1, H2. split; [done|lia].
Qed.

Lemma mastername_inj i j : mastername i = mastername j → i = j.
Proof.
  intros He%(f_equal (λ s, chars s)). unfold mastername, Itoa in He. rewrite !chars_app in He. simpl in He.
  injection He as He. apply chars_inj, (inj pretty) in He. lia.
Qed.

Lemma server_not_master g i j : servername g i ≠ mastername j.
Proof. intros He%(f_equal (λ s, chars s)). unfold servername, mastername in He. rewrite !chars_app in He. simpl in He. done. Qed.

(** The name under which an instance serves. *)
Definition name_of (x : inst) : string :=
  match i_gid x with None => mastername (i_me x) | Some g => servername g (i_me x) end.

(** Its ends, and the servers they lead to. *)
Definition all_ends (x : inst) : list string := i_ends x ++ i_masters x.
Definition peers (nm N : nat) (x : inst) : list string :=
  match i_gid x with
  | None => mastername <$> seq 0 nm
  | Some g => (servername g <$> seq 0 N) ++ (mastername <$> seq 0 nm)
  end.

(** ** Fresh ends *)

(** What the ends [xs] to the servers [to] add to a network. *)
Record dialled (to xs : list string) (rn rn' : network) : Prop := mkDialled {
  di_length : length xs = length to;
  di_fresh : ∀ x, x ∈ xs → End x ∉ ends rn;
  di_ends : ∀ y, y ∈ ends rn' ↔ y ∈ ends rn ∨ ∃ x, x ∈ xs ∧ y = End x;
  di_on : ∀ x, on rn' x = if decide (x ∈ xs) then true else on rn x;
  di_target : ∀ j x, xs !! j = Some x → target rn' x = End <$> to !! j;
  di_other : ∀ x, x ∉ xs → target rn' x = target rn x;
  di_servers : Labrpc.servers rn' = Labrpc.servers rn;
}.

Lemma dialled_nil rn : dialled [] [] rn rn.
Proof.
  split; try done; [by intros x ?%elem_of_nil|].
  intros y. split; [by left|]. by intros [?|(x & ?%elem_of_nil & _)].
Qed.

Lemma dialled_cons s to x xs rn rn1 rn' :
  MakeEnd (End x) rn = Some rn1 →
  dialled to xs (Enable (End x) true (Connect (End x) (Some (End s)) rn1)) rn' → dialled (s :: to) (x :: xs) rn rn'.
Proof.
  unfold MakeEnd. case_decide as Hx; [done|]. intros [= <-] [Hl Hfr He Ho Ht Hk Hs]. simpl in *.
  setoid_rewrite elem_of_union in Hfr. setoid_rewrite elem_of_singleton in Hfr.
  setoid_rewrite elem_of_union in He. setoid_rewrite elem_of_singleton in He.
  assert (x ∉ xs) as Hnin by (intros Hin; apply (Hfr x Hin); by left).
  split; simpl.
  - by rewrite Hl.
  - intros y [->|Hy]%elem_of_cons; [done|]. intros ?. apply (Hfr y Hy). by right.
  - intros y. rewrite He. setoid_rewrite elem_of_cons. naive_solver.
  - intros y. rewrite Ho. unfold on at 1. simpl. rewrite lookup_insert.
    destruct (decide (y ∈ xs)) as [Hy|Hy]; [by rewrite decide_True by (by right)|].
    destruct (decide (x = y)) as [->|Hne].
    + rewrite decide_True by done. by rewrite decide_True by left.
    + rewrite (decide_False (P := End x = End y)) by congruence. rewrite lookup_insert_ne by congruence.
      rewrite decide_False; [done|]. by intros [->|?]%elem_of_cons.
  - intros [|j] y Hy; simpl in Hy.
    + injection Hy as <-. rewrite Hk by done. unfold target. simpl. by rewrite lookup_insert_eq.
    + by apply Ht.
  - intros y [Hne Hy]%not_elem_of_cons. rewrite Hk by done. unfold target. simpl.
    by rewrite !lookup_insert_ne by congruence.
  - done.
Qed.

Lemma dialled_app to1 to2 xs1 xs2 rn rn1 rn2 :
  dialled to1 xs1 rn rn1 → dialled to2 xs2 rn1 rn2 → dialled (to1 ++ to2) (xs1 ++ xs2) rn rn2.
Proof.
  intros [Hl1 Hf1 He1 Ho1 Ht1 Hk1 Hs1] [Hl2 Hf2 He2 Ho2 Ht2 Hk2 Hs2].
  assert (∀ x, x ∈ xs2 → x ∉ xs1) as Hdis.
  { intros x H2 H1. apply (Hf2 x H2), He1. right. by exists x. }
  split.
  - rewrite !length_app. congruence.
  - intros x [Hx|Hx]%elem_of_app; [by apply Hf1|]. intros Hin. apply (Hf2 x Hx), He1. by left.
  - intros y. rewrite He2, He1. setoid_rewrite elem_of_app. naive_solver.
  - intros x. rewrite Ho2, Ho1. apply decide_app.
  - intros j x [Hj|[Hj Hx]]%lookup_app_Some.
    + rewrite Hk2 by (intros ?; eapply Hdis; [done|by eapply list_elem_of_lookup_2]).
      rewrite (Ht1 _ _ Hj), lookup_app_l; [done|]. rewrite <- Hl1. by eapply lookup_lt_Some.
    + rewrite (Ht2 _ _ Hx), Hl1, lookup_app_r by lia. done.
  - intros x Hx. rewrite Hk2, Hk1; [done|set_solver..].
  - congruence.
Qed.

(** ** Persisters *)

(** What a test makes of the configuration, seen from outside: the instance that
    runs under each name, what each name's disk holds, and what every instance
    found there when it started. *)
Record service := mkService {
  running : gmap string nat;
  disks : gmap string Persister;
  started : list (string * Persister);
}.

Definition boot (s : string) (t : service) : service :=
  let ps := default MakePersister (disks t !! s) in
  mkService (<[s := length (started t)]> (running t)) (<[s := ps]> (disks t)) (started t ++ [(s, ps)]).
Definition halt (s : string) (t : service) : service := mkService (delete s (running t)) (disks t) (started t).

(** A write reaches the disk if and only if it comes from the running instance. *)
Definition write (k : nat) (ps : Persister) (t : service) : service :=
  match started t !! k with
  | Some (s, _) => if decide (running t !! s = Some k) then mkService (running t) (<[s := ps]> (disks t)) (started t) else t
  | None => t
  end.

(** [saved s v]: the slot of server [s] holds the persister address [v]. *)
Record store_ok (saved : string → option nat → Prop) (pss : list Persister) (xs : list inst) (t : service) : Prop := mkStoreOk {
  s_boots : (λ x, (name_of x, i_booted x)) <$> xs = started t;
  s_disk : ∀ s v, saved s v → v ≫= (pss !!.) = disks t !! s;
  s_valid : ∀ s p, saved s (Some p) → (p < length pss)%nat;
  s_inst : ∀ k x, xs !! k = Some x → (i_persister x < length pss)%nat;
  s_running : ∀ s k, running t !! s = Some k →
    ∃ x, xs !! k = Some x ∧ name_of x = s ∧ i_dead x = false ∧ pss !! i_persister x = disks t !! s;
  s_addr : ∀ k1 k2 x1 x2, xs !! k1 = Some x1 → xs !! k2 = Some x2 → i_persister x1 = i_persister x2 → k1 = k2;
  s_owner : ∀ s k x, saved s (Some (i_persister x)) → xs !! k = Some x → running t !! s = Some k;
  s_saved : ∀ s v k x, saved s v → running t !! s = Some k → xs !! k = Some x → v = Some (i_persister x);
  s_distinct : ∀ s s' p, saved s (Some p) → saved s' (Some p) → s = s';
}.

(** Only [Kill] has been called on some of the instances. *)
Definition same_inst (xs xs' : list inst) : Prop := ∀ k, Kill <$> xs' !! k = Kill <$> xs !! k.

Lemma same_inst_lookup xs xs' k x' :
  same_inst xs xs' → xs' !! k = Some x' → ∃ x, xs !! k = Some x ∧ Kill x' = Kill x.
Proof. intros Hs Hx. specialize (Hs k). rewrite Hx in Hs. simpl in Hs. symmetry in Hs. apply fmap_Some in Hs as (x & ? & ?). eauto. Qed.

Lemma Kill_inv x x' :
  Kill x' = Kill x → name_of x' = name_of x ∧ i_booted x' = i_booted x ∧ i_persister x' = i_persister x ∧
  all_ends x' = all_ends x ∧ i_ends x' = i_ends x ∧ ∀ nm N, peers nm N x' = peers nm N x.
Proof. destruct x, x'. unfold Kill, name_of, all_ends, peers. simpl. intros [= -> -> -> -> -> -> ->]. done. Qed.

Lemma same_inst_alter k xs : same_inst xs (alter Kill k xs).
Proof.
  intros j. destruct (decide (k = j)) as [->|Hne].
  - rewrite list_lookup_alter_eq. by destruct (xs !! j) as [[]|].
  - by rewrite list_lookup_alter_ne.
Qed.

Lemma same_inst_refl xs : same_inst xs xs.
Proof. done. Qed.

(** A new instance with a fresh persister. *)
Lemma store_boot s saved saved' pss xs x t :
  store_ok saved pss xs t → name_of x = s → i_booted x = default MakePersister (disks t !! s) →
  i_persister x = length pss → i_dead x = false →
  (∀ s' v, saved' s' v → (s' = s ∧ v = Some (length pss)) ∨ (s' ≠ s ∧ saved s' v)) →
  store_ok saved' (pss ++ [i_booted x]) (xs ++ [x]) (boot s t).
Proof.
  intros [Hb Hdk Hv Hi Hr Ha Ho Hs Hd] Hn Hbt Hp Hdead Hsv.
  assert (length (started t) = length xs) as Hlen by by rewrite <- Hb, length_fmap.
  assert (∀ k y, (xs ++ [x]) !! k = Some y → xs !! k = Some y ∧ (i_persister y < length pss)%nat ∨ k = length xs ∧ y = x) as Hlk.
  { intros k y [Hy|[Hk Hy]]%lookup_app_Some; [left; eauto|right]. apply list_lookup_singleton_Some in Hy as [? ?]. split; [lia|done]. }
  assert (∀ q, (q < length pss)%nat → (pss ++ [i_booted x]) !! q = pss !! q) as Hold by (intros; by rewrite lookup_app_l).
  split; simpl; rewrite ?Hlen.
  - rewrite fmap_app, Hb. simpl. by rewrite Hn, Hbt.
  - intros s' v [[-> ->]|[Hne Hv']]%Hsv.
    + rewrite lookup_insert_eq. simpl. rewrite list_lookup_middle by done. by rewrite Hbt.
    + rewrite lookup_insert_ne by done. rewrite <- (Hdk s' v Hv'). destruct v as [p|]; [|done]. simpl. apply Hold. by eapply Hv.
  - intros s' p [[-> [= ->]]|[Hne Hv']]%Hsv; rewrite length_app; simpl; [lia|]. specialize (Hv _ _ Hv'). lia.
  - intros k y [[_ ?]|[-> ->]]%Hlk; rewrite length_app; simpl; lia.
  - intros s' k. rewrite lookup_insert_Some. intros [[<- <-]|[Hne Hk]].
    + exists x. rewrite list_lookup_middle by done. split_and!; try done. rewrite Hp, list_lookup_middle by done.
      by rewrite lookup_insert_eq, Hbt.
    + destruct (Hr _ _ Hk) as (y & Hy & ? & ? & Hpy). exists y. rewrite (lookup_app_l_Some _ _ _ _ Hy).
      split_and!; try done. rewrite lookup_insert_ne by done. rewrite <- Hpy. apply Hold. by eapply Hi.
  - intros k1 k2 y1 y2 [[H1 ?]|[-> ->]]%Hlk [[H2 ?]|[-> ->]]%Hlk He; [by eapply Ha|lia..|done].
  - intros s' k y Hy Hk. apply Hlk in Hk as [[Hk Hlt]|[-> ->]]; apply Hsv in Hy as [[-> [= Hy]]|[Hne Hy]].
    + lia.
    + rewrite lookup_insert_ne by done. by eapply Ho.
    + apply lookup_insert_eq.
    + apply Hv in Hy. lia.
  - intros s' v k y Hy. rewrite lookup_insert_Some. intros [[<- <-]|[Hne Hk]] Hky.
    + rewrite list_lookup_middle in Hky by done. injection Hky as <-. apply Hsv in Hy as [[_ ->]|[? _]]; [by rewrite Hp|done].
    + apply Hsv in Hy as [[-> _]|[_ Hy]]; [done|]. destruct (Hr _ _ Hk) as (z & Hz & _).
      rewrite (lookup_app_l_Some _ _ _ _ Hz) in Hky. injection Hky as <-. by eapply Hs.
  - intros s1 s2 p [[-> [= ->]]|[Hne1 H1]]%Hsv [[-> H2]|[Hne2 H2]]%Hsv; [done| | |by eapply Hd].
    + apply Hv in H2. lia.
    + injection H2 as ->. apply Hv in H1. lia.
Qed.

(** The slot of a halted server gets a copy of its persister. *)
Lemma store_halt s p ps saved saved' pss xs xs' t :
  store_ok saved pss xs t → saved s (Some p) → pss !! p = Some ps → same_inst xs xs' →
  (∀ k, running t !! s ≠ Some k → xs' !! k = xs !! k) →
  (∀ s' v, saved' s' v → (s' = s ∧ v = Some (length pss)) ∨ (s' ≠ s ∧ saved s' v)) →
  store_ok saved' (pss ++ [ps]) xs' (halt s t).
Proof.
  intros [Hb Hdk Hv Hi Hr Ha Ho Hs Hd] Hp Hps Hsame Hdead Hsv.
  assert (∀ k x', xs' !! k = Some x' → ∃ x, xs !! k = Some x ∧ name_of x' = name_of x ∧ i_persister x' = i_persister x ∧
    (i_persister x < length pss)%nat) as Hlk.
  { intros k x' Hx'. destruct (same_inst_lookup _ _ _ _ Hsame Hx') as (x & Hx & (? & _ & ? & _)%Kill_inv). eauto 6. }
  assert (∀ q, (q < length pss)%nat → (pss ++ [ps]) !! q = pss !! q) as Hold by (intros; by rewrite lookup_app_l).
  assert (∀ k, running t !! s ≠ Some k → ∀ s', running t !! s' = Some k → xs' !! k = xs !! k) as Hother by auto.
  split; simpl.
  - rewrite <- Hb. apply list_eq. intros k. rewrite !list_lookup_fmap. specialize (Hsame k).
    destruct (xs' !! k) as [x'|], (xs !! k) as [x|]; simpl in Hsame |- *; try done.
    apply (inj Some), Kill_inv in Hsame as (? & ? & _). congruence.
  - intros s' v [[-> ->]|[Hne Hv']]%Hsv.
    + simpl. rewrite list_lookup_middle by done. rewrite <- (Hdk _ _ Hp). simpl. by rewrite Hps.
    + rewrite <- (Hdk s' v Hv'). destruct v as [q|]; [|done]. simpl. apply Hold. by eapply Hv.
  - intros s' q [[-> [= ->]]|[Hne Hv']]%Hsv; rewrite length_app; simpl; [lia|]. specialize (Hv _ _ Hv'). lia.
  - intros k y (x & _ & _ & -> & ?)%Hlk. rewrite length_app. simpl. lia.
  - intros s' k. rewrite lookup_delete_Some. intros [Hne Hk]. destruct (Hr _ _ Hk) as (y & Hy & Hny & ? & Hpy).
    exists y. rewrite Hdead.
    + split_and!; try done. rewrite <- Hpy. apply Hold. by eapply Hi.
    + intros Hsk. destruct (Hr _ _ Hsk) as (z & Hz & Hnz & _). congruence.
  - intros k1 k2 y1 y2 (x1 & H1 & _ & -> & _)%Hlk (x2 & H2 & _ & -> & _)%Hlk. by eapply Ha.
  - intros s' k y Hy (x & Hx & Hnx & Hpx & Hlt)%Hlk. rewrite Hpx in Hy. apply Hsv in Hy as [[-> [= Hy]]|[Hne Hy]]; [lia|].
    rewrite lookup_delete_ne by done. by eapply Ho.
  - intros s' v k y Hy. rewrite lookup_delete_Some. intros [Hne Hk] (x & Hx & Hnx & -> & _)%Hlk.
    apply Hsv in Hy as [[-> _]|[_ Hy]]; [done|]. by eapply Hs.
  - intros s1 s2 q [[-> [= ->]]|[Hne1 H1]]%Hsv [[-> H2]|[Hne2 H2]]%Hsv; [done| | |by eapply Hd].
    + apply Hv in H2. lia.
    + injection H2 as ->. apply Hv in H1. lia.
Qed.

(** A slot without a persister has never been started. *)
Lemma store_halt_nil s saved pss xs t :
  store_ok saved pss xs t → saved s None → running t !! s = None ∧ halt s t = t.
Proof.
  intros [_ _ _ _ Hr _ _ Hs _] Hn. assert (running t !! s = None) as Hnone.
  { destruct (running t !! s) as [k|] eqn:Hk; [|done]. destruct (Hr _ _ Hk) as (x & Hx & _). by specialize (Hs _ _ _ _ Hn Hk Hx). }
  split; [done|]. unfold halt. rewrite delete_id by done. by destruct t.
Qed.

Lemma store_write k x ps saved pss xs t :
  store_ok saved pss xs t → xs !! k = Some x → store_ok saved (<[i_persister x := ps]> pss) xs (write k ps t).
Proof.
  intros [Hb Hdk Hv Hi Hr Ha Ho Hs Hd] Hx.
  assert (write k ps t =
    if decide (running t !! name_of x = Some k) then mkService (running t) (<[name_of x := ps]> (disks t)) (started t) else t) as ->.
  { unfold write. by rewrite <- Hb, list_lookup_fmap, Hx. }
  assert ((<[i_persister x := ps]> pss) !! i_persister x = Some ps) as Hnew by (apply list_lookup_insert_eq; by eapply Hi).
  assert (∀ s p, saved s (Some p) → p ≠ i_persister x ∨ p = i_persister x ∧ s = name_of x ∧ running t !! name_of x = Some k) as Hsx.
  { intros s p Hp. destruct (decide (p = i_persister x)) as [->|]; [right|by left]. pose proof (Ho _ _ _ Hp Hx) as Hk.
    destruct (Hr _ _ Hk) as (z & Hz & <- & _). rewrite Hx in Hz. by injection Hz as <-. }
  case_decide as Hlive; split; simpl; rewrite ?length_insert; try done.
  - intros s v Hsv. destruct (decide (s = name_of x)) as [->|Hne].
    + rewrite lookup_insert_eq. rewrite (Hs _ _ _ _ Hsv Hlive Hx). done.
    + rewrite lookup_insert_ne by done. rewrite <- (Hdk _ _ Hsv). destruct v as [p|]; [|done]. simpl.
      apply list_lookup_insert_ne. destruct (Hsx _ _ Hsv) as [?|(_ & ? & _)]; done.
  - intros s j Hj. destruct (Hr _ _ Hj) as (y & Hy & Hny & Hdy & Hpy). exists y. split_and!; try done.
    destruct (decide (s = name_of x)) as [->|Hne].
    + rewrite Hlive in Hj. injection Hj as <-. rewrite Hx in Hy. injection Hy as <-. by rewrite lookup_insert_eq.
    + rewrite lookup_insert_ne by done. rewrite <- Hpy. apply list_lookup_insert_ne. intros He.
      pose proof (Ha _ _ _ _ Hx Hy He) as ->. congruence.
  - intros s v Hsv. rewrite <- (Hdk _ _ Hsv). destruct v as [p|]; [|done]. simpl.
    apply list_lookup_insert_ne. destruct (Hsx _ _ Hsv) as [?|(_ & _ & ?)]; done.
  - intros s j Hj. destruct (Hr _ _ Hj) as (y & Hy & Hny & Hdy & Hpy). exists y. split_and!; try done.
    rewrite <- Hpy. apply list_lookup_insert_ne. intros He. pose proof (Ha _ _ _ _ Hx Hy He) as ->. congruence.
Qed.

Lemma store_ext saved saved' pss xs t :
  store_ok saved pss xs t → (∀ s v, saved' s v → saved s v) → store_ok saved' pss xs t.
Proof. intros [? ? ? ? ? ? ? ? ?] Hs. split; eauto. Qed.

(** ** Ends of instances *)

(** [row s r]: the tables of server [s] hold the ends [r]. *)
Record ends_ok (row : string → list string → Prop) (nm N : nat) (rn : network) (xs : list inst) (run : gmap string nat)
    : Prop := mkEndsOk {
  e_made : ∀ k x e, xs !! k = Some x → e ∈ all_ends x → End e ∈ ends rn;
  e_own : ∀ k1 k2 x1 x2 e, xs !! k1 = Some x1 → xs !! k2 = Some x2 → e ∈ all_ends x1 → e ∈ all_ends x2 → k1 = k2;
  e_target : ∀ k x j e, xs !! k = Some x → all_ends x !! j = Some e → target rn e = End <$> peers nm N x !! j;
  e_on : ∀ k x e, xs !! k = Some x → run !! name_of x = Some k → e ∈ all_ends x → on rn e = true;
  e_rowmade : ∀ s r e, row s r → e ∈ r → End e ∈ ends rn;
  e_rows : ∀ s r e k x, row s r → e ∈ r → xs !! k = Some x → e ∈ all_ends x → name_of x = s;
  e_row : ∀ s r k x, row s r → run !! s = Some k → xs !! k = Some x → r = all_ends x;
  e_length : ∀ k x, xs !! k = Some x → length (all_ends x) = length (peers nm N x);
}.

(** The ends of an instance that does not run any more are disabled. *)
Definition quiet (rn : network) (xs : list inst) (run : gmap string nat) : Prop :=
  ∀ k x e, xs !! k = Some x → run !! name_of x ≠ Some k → e ∈ all_ends x → on rn e = false.

Section ends.
Context (row : string → list string → Prop) (nm N : nat) (rn : network) (xs : list inst) (run : gmap string nat).
Hypothesis Hok : ends_ok row nm N rn xs run.

(** Ends of others. *)
Lemma ends_dial to ys rn' : dialled to ys rn rn' → ends_ok row nm N rn' xs run.
Proof.
  intros [_ Hf He Ho _ Hk _]. destruct Hok as [Hm Hw Ht Hon Hrm Hrs Hr Hln].
  assert (∀ k x e, xs !! k = Some x → e ∈ all_ends x → e ∉ ys) as Hnew.
  { intros k x e Hx Hin Hy. by apply (Hf e Hy), (Hm k x). }
  split; try done.
  - intros k x e Hx Hin. apply He. left. eauto.
  - intros k x j e Hx Hj. rewrite Hk; [by eapply Ht|]. eapply Hnew; [done|]. by eapply list_elem_of_lookup_2.
  - intros k x e Hx Hrun Hin. rewrite Ho, decide_False by eauto. eauto.
  - intros s r e Hsr Hin. apply He. left. eauto.
Qed.

Lemma quiet_dial to ys rn' : dialled to ys rn rn' → quiet rn xs run → quiet rn' xs run.
Proof.
  intros [_ Hf _ Ho _ _ _] Hq k x e Hx Hrun Hin. rewrite Ho, decide_False; [by eapply Hq|].
  intros Hy. by apply (Hf e Hy), (e_made _ _ _ _ _ _ Hok k x).
Qed.

(** A new instance with the ends that have just been made. *)
Lemma ends_boot s x rn' row' :
  dialled (peers nm N x) (all_ends x) rn rn' → name_of x = s → (∀ s k, run !! s = Some k → (k < length xs)%nat) →
  (∀ s' r, row' s' r → (s' = s ∧ r = all_ends x) ∨ (s' ≠ s ∧ row s' r)) →
  ends_ok row' nm N rn' (xs ++ [x]) (<[s := length xs]> run).
Proof.
  intros [Hl Hf He Ho Htg Hk _] Hn Hlt Hrow. destruct Hok as [Hm Hw Ht Hon Hrm Hrs Hr Hln].
  assert (∀ k y, (xs ++ [x]) !! k = Some y → xs !! k = Some y ∧ (k < length xs)%nat ∨ k = length xs ∧ y = x) as Hlk.
  { intros k y [Hy|[Hge Hy]]%lookup_app_Some; [left; split; [done|by eapply lookup_lt_Some]|right].
    apply list_lookup_singleton_Some in Hy as [? ?]. split; [lia|done]. }
  assert (∀ k y e, xs !! k = Some y → e ∈ all_ends y → e ∉ all_ends x) as Hnew.
  { intros k y e Hy Hin Hx. by apply (Hf e Hx), (Hm k y). }
  split.
  - intros k y e [[Hy _]|[-> ->]]%Hlk Hin; apply He; [left; eauto|right; by exists e].
  - intros k1 k2 y1 y2 e [[H1 _]|[-> ->]]%Hlk [[H2 _]|[-> ->]]%Hlk Hin1 Hin2; [by eapply Hw|exfalso..|done]; by eapply Hnew.
  - intros k y j e [[Hy _]|[-> ->]]%Hlk Hj; [|by apply Htg].
    rewrite Hk; [by eapply Ht|]. eapply Hnew; [done|]. by eapply list_elem_of_lookup_2.
  - intros k y e [[Hy Hlt']|[-> ->]]%Hlk; rewrite lookup_insert_Some; intros Hrun Hin; rewrite Ho; [|by rewrite decide_True].
    destruct Hrun as [[_ ?]|[_ Hrun]]; [lia|]. rewrite decide_False by by eapply Hnew. by eapply Hon.
  - intros s' r e [[-> ->]|[_ Hr']]%Hrow Hin; apply He; [right; by exists e|left; eauto].
  - intros s' r e k y [[-> ->]|[_ Hr']]%Hrow Hin [[Hy _]|[-> ->]]%Hlk Hin'; [|done|by eapply Hrs|].
    + exfalso. by eapply Hnew.
    + exfalso. apply (Hf e Hin'). by eapply Hrm.
  - intros s' r k y Hr'. rewrite lookup_insert_Some. intros [[<- <-]|[Hne Hrun]] Hy.
    + apply Hrow in Hr' as [[_ ->]|[? _]]; [|done]. apply Hlk in Hy as [[_ ?]|[_ ->]]; [lia|done].
    + apply Hrow in Hr' as [[-> _]|[_ Hr']]; [done|]. apply Hlk in Hy as [[Hy _]|[-> _]]; [by eapply Hr|].
      apply Hlt in Hrun. lia.
  - intros k y [[Hy _]|[-> ->]]%Hlk; [by eapply Hln|done].
Qed.

Lemma quiet_boot s x rn' :
  dialled (peers nm N x) (all_ends x) rn rn' → name_of x = s → run !! s = None → quiet rn xs run →
  quiet rn' (xs ++ [x]) (<[s := length xs]> run).
Proof.
  intros [_ Hf _ Ho _ _ _] Hn Hs Hq k y e [Hy|[Hge Hy]]%lookup_app_Some Hrun Hin.
  - rewrite Ho, decide_False.
    + eapply Hq; [done| |done]. destruct (decide (name_of y = s)) as [->|Hne]; [by rewrite Hs|].
      by rewrite lookup_insert_ne in Hrun.
    + intros Hx. by apply (Hf e Hx), (e_made _ _ _ _ _ _ Hok k y).
  - apply list_lookup_singleton_Some in Hy as [Hk <-]. destruct Hrun. rewrite Hn, lookup_insert_eq. f_equal. lia.
Qed.

(** The ends in the tables of [s] are switched off. *)
Lemma ends_halt s r rn' xs' :
  row s r → rewired rn rn' → (∀ e, on rn' e = if decide (e ∈ r) then false else on rn e) → same_inst xs xs' →
  ends_ok row nm N rn' xs' (delete s run).
Proof.
  intros Hsr Hre Ho Hsame. destruct Hok as [Hm Hw Ht Hon Hrm Hrs Hr Hln]. pose proof Hre as (He & _).
  assert (∀ k x', xs' !! k = Some x' → ∃ x, xs !! k = Some x ∧ name_of x' = name_of x ∧ all_ends x' = all_ends x ∧
    peers nm N x' = peers nm N x) as Hlk.
  { intros k x' Hx'. destruct (same_inst_lookup _ _ _ _ Hsame Hx') as (x & Hx & (? & _ & _ & ? & _ & ?)%Kill_inv). eauto 6. }
  split; rewrite ?He.
  - intros k y e (x & Hx & _ & -> & _)%Hlk. eauto.
  - intros k1 k2 y1 y2 e (x1 & H1 & _ & -> & _)%Hlk (x2 & H2 & _ & -> & _)%Hlk. eauto.
  - intros k y j e (x & Hx & _ & -> & ->)%Hlk Hj. rewrite (rewired_target _ _ _ Hre). eauto.
  - intros k y e (x & Hx & -> & -> & _)%Hlk. rewrite lookup_delete_Some. intros [Hne Hrun] Hin. rewrite Ho.
    rewrite decide_False; [by eapply Hon|]. intros Her. by pose proof (Hrs _ _ _ _ _ Hsr Her Hx Hin).
  - eauto.
  - intros s' r' e k y Hr' Hin (x & Hx & -> & -> & _)%Hlk. eauto.
  - intros s' r' k y Hr'. rewrite lookup_delete_Some. intros [_ Hrun] (x & Hx & _ & -> & _)%Hlk. eauto.
  - intros k y (x & Hx & _ & -> & ->)%Hlk. eauto.
Qed.

Lemma quiet_halt s r rn' xs' :
  row s r → (∀ e, on rn' e = if decide (e ∈ r) then false else on rn e) → same_inst xs xs' →
  quiet rn xs run → quiet rn' xs' (delete s run).
Proof.
  intros Hsr Ho Hsame Hq k x' e Hx'. destruct (same_inst_lookup _ _ _ _ Hsame Hx') as (x & Hx & (-> & _ & _ & -> & _)%Kill_inv).
  intros Hrun Hin. rewrite Ho. case_decide as Her; [done|]. eapply Hq; [done| |done]. intros Hk. apply Hrun.
  rewrite lookup_delete_Some. split; [|done]. intros ->. apply Her. by rewrite (e_row _ _ _ _ _ _ Hok _ _ _ _ Hsr Hk Hx).
Qed.

Lemma ends_ext row' rn' :
  (∀ s r, row' s r → row s r) → ends rn' = ends rn → (∀ x, target rn' x = target rn x) → (∀ x, on rn' x = on rn x) →
  ends_ok row' nm N rn' xs run.
Proof.
  intros Hrow He Ht Ho. destruct Hok as [? ? ? ? ? ? ? ?]. split; intros *; rewrite ?He, ?Ht, ?Ho; eauto.
Qed.
End ends.

(** ** Slots of the groups *)

(** [f] is a table of the groups: entry [v] of server [s]. *)
Definition slot {A} (f : group → list A) (gs : list (option group)) (s : string) (v : A) : Prop :=
  ∃ gi gg i, mjoin (gs !! gi) = Some gg ∧ s = servername (gid gg) i ∧ f gg !! i = Some v.

Definition groups_ok (N : nat) (gs : list (option group)) : Prop :=
  ∀ gi gg, mjoin (gs !! gi) = Some gg →
    gid gg = 100 + Z.of_nat gi ∧ length (servers gg) = N ∧ ∀ i row, endnames gg !! i = Some row → row = [] ∨ length row = N.

Lemma group_lookup (gs : list (option group)) gi gg gi' gg' :
  mjoin (<[gi := Some gg]> gs !! gi') = Some gg' → (gi' = gi ∧ gg' = gg) ∨ (gi' ≠ gi ∧ mjoin (gs !! gi') = Some gg').
Proof.
  rewrite list_lookup_insert. case_decide as Hi; [destruct Hi as [-> _]|].
  - intros [= ->]. by left.
  - intros Hj. destruct (decide (gi' = gi)) as [->|Hne]; [|by right].
    assert (¬ (gi < length gs)%nat) as Hge by naive_solver. by rewrite lookup_ge_None_2 in Hj by lia.
Qed.

Lemma slot_insert {A} (f : group → list A) N gs gi gg gg' i v0 s v :
  groups_ok N gs → mjoin (gs !! gi) = Some gg → gid gg' = gid gg → f gg' = <[i := v0]> (f gg) →
  slot f (<[gi := Some gg']> gs) s v →
  (s = servername (gid gg) i ∧ v = v0) ∨ (s ≠ servername (gid gg) i ∧ slot f gs s v).
Proof.
  intros Hgs Hgg Hid Hf (gi2 & gg2 & i2 & Hgg2 & -> & Hv). destruct (Hgs _ _ Hgg) as (Hg & _).
  destruct (group_lookup _ _ _ _ _ Hgg2) as [[-> ->]|[Hne Hold]].
  - rewrite Hf in Hv. rewrite Hid. destruct (decide (i2 = i)) as [->|Hi].
    + left. split; [done|]. rewrite list_lookup_insert in Hv. case_decide as Hlt; [by injection Hv|].
      apply lookup_lt_Some in Hv as ?. naive_solver.
    + right. split; [|exists gi, gg, i2; by rewrite list_lookup_insert_ne in Hv].
      intros [_ ?]%servername_inj; (done || lia).
  - right. destruct (Hgs _ _ Hold) as (Hg2 & _). split; [|by exists gi2, gg2, i2].
    intros [? _]%servername_inj; lia.
Qed.

Lemma slot_same {A} (f : group → list A) gs gi gg gg' s v :
  mjoin (gs !! gi) = Some gg → gid gg' = gid gg → f gg' = f gg → slot f (<[gi := Some gg']> gs) s v → slot f gs s v.
Proof.
  intros Hgg Hid Hf (gi2 & gg2 & i2 & [[-> ->]|[Hne Hold]]%group_lookup & -> & Hv).
  - exists gi, gg, i2. by rewrite Hid, <- Hf.
  - by exists gi2, gg2, i2.
Qed.

(** The ends in the tables of a server. *)
Definition rows (gs : list (option group)) (s : string) (r : list string) : Prop :=
  ∃ gi gg i er mr, mjoin (gs !! gi) = Some gg ∧ s = servername (gid gg) i ∧ endnames gg !! i = Some er ∧
    mendnames gg !! i = Some mr ∧ r = er ++ mr.

Lemma rows_same gs gi gg gg' s r :
  mjoin (gs !! gi) = Some gg → gid gg' = gid gg → endnames gg' = endnames gg → mendnames gg' = mendnames gg →
  rows (<[gi := Some gg']> gs) s r → rows gs s r.
Proof.
  intros Hgg Hid He Hm (gi2 & gg2 & i2 & er & mr & [[-> ->]|[Hne Hold]]%group_lookup & -> & H1 & H2 & ->).
  - exists gi, gg, i2, er, mr. by rewrite Hid, <- He, <- Hm.
  - by exists gi2, gg2, i2, er, mr.
Qed.

Lemma rows_insert N gs gi gg gg' i er mr s r :
  groups_ok N gs → mjoin (gs !! gi) = Some gg → gid gg' = gid gg →
  endnames gg' = <[i := er]> (endnames gg) → mendnames gg' = <[i := mr]> (mendnames gg) →
  rows (<[gi := Some gg']> gs) s r →
  (s = servername (gid gg) i ∧ r = er ++ mr) ∨ (s ≠ servername (gid gg) i ∧ rows gs s r).
Proof.
  intros Hgs Hgg Hid He Hm (gi2 & gg2 & i2 & er2 & mr2 & Hgg2 & Hs & H1 & H2 & ->).
  destruct (slot_insert endnames N gs gi gg gg' i er s er2 Hgs Hgg Hid He) as [[-> ->]|[Hne _]]; [by exists gi2, gg2, i2|..].
  - left. split; [done|]. f_equal.
    destruct (slot_insert mendnames N gs gi gg gg' i mr (servername (gid gg) i) mr2 Hgs Hgg Hid Hm) as [[_ ->]|[? _]]; try done.
    by exists gi2, gg2, i2.
  - right. split; [done|]. destruct (group_lookup _ _ _ _ _ Hgg2) as [[-> ->]|[Hgi Hold]]; [|by exists gi2, gg2, i2, er2, mr2].
    assert (i2 ≠ i) by (intros ->; by rewrite Hid in Hs). exists gi, gg, i2, er2, mr2.
    rewrite He, list_lookup_insert_ne in H1 by done. rewrite Hm, list_lookup_insert_ne in H2 by done. by rewrite <- Hid.
Qed.

(** The instance that the configuration holds for a server. *)
Definition held (cfg : config) (s : string) (v : option nat) : Prop :=
  slot servers (groups cfg) s v ∨ ∃ i, s = mastername i ∧ masterservers cfg !! i = Some v.

(** ** The whole configuration *)

Record cfg_ok (cfg : config) (t : service) : Prop := mkCfgOk {
  c_groups : groups_ok (n cfg) (groups cfg);
  c_net : ∀ s, server_of (net cfg) (End s) = running t !! s;
  c_held : ∀ s v, held cfg s v → v = running t !! s;
  c_store : store_ok (slot saved (groups cfg)) (persisters cfg) (insts cfg) t;
  c_ends : ends_ok (rows (groups cfg)) (nmasters cfg) (n cfg) (net cfg) (insts cfg) (running t);
}.

Definition calm (cfg : config) (t : service) : Prop := quiet (net cfg) (insts cfg) (running t).

(** What no operation changes. *)
Definition same_shape (cfg cfg' : config) : Prop :=
  n cfg' = n cfg ∧ nmasters cfg' = nmasters cfg ∧ ngroups cfg' = ngroups cfg ∧ maxraftstate cfg' = maxraftstate cfg.

#[global] Instance same_shape_preorder : PreOrder same_shape.
Proof. split; [by intros cfg|]. intros c1 c2 c3 (? & ? & ? & ?) (? & ? & ? & ?). split_and!; by etrans. Qed.

Lemma running_lt cfg t s k : cfg_ok cfg t → running t !! s = Some k → (k < length (insts cfg))%nat.
Proof. intros Hok Hk. destruct (s_running _ _ _ _ (c_store _ _ Hok) _ _ Hk) as (x & Hx & _). by eapply lookup_lt_Some. Qed.

Lemma server_of_add s s' k (rn : network) : server_of (AddServer (End s) k rn) (End s') = if decide (s = s') then Some k else server_of rn (End s').
Proof.
  unfold server_of. simpl. rewrite lookup_insert. destruct (decide (s = s')) as [->|Hne]; [by rewrite decide_True|].
  by rewrite decide_False by congruence.
Qed.

Lemma server_of_delete s s' (rn : network) : server_of (DeleteServer (End s) rn) (End s') = if decide (s = s') then None else server_of rn (End s').
Proof.
  unfold server_of. simpl. rewrite lookup_insert. destruct (decide (s = s')) as [->|Hne]; [by rewrite decide_True|].
  by rewrite decide_False by congruence.
Qed.

Lemma server_of_same (rn rn' : network) x : Labrpc.servers rn' = Labrpc.servers rn → server_of rn' x = server_of rn x.
Proof. unfold server_of. by intros ->. Qed.

Lemma boots_length cfg t : cfg_ok cfg t → length (started t) = length (insts cfg).
Proof. intros Hok. by rewrite <- (s_boots _ _ _ _ (c_store _ _ Hok)), length_fmap. Qed.

(** ** Operations *)

Lemma ends_AddServer row nm N rn xs run s k :
  ends_ok row nm N rn xs run → ends_ok row nm N (AddServer (End s) k rn) xs run.
Proof. intros Hok. by eapply ends_ext. Qed.

(** A new instance, whatever its kind. *)
Lemma cfg_boot cfg cfg' t x rn :
  cfg_ok cfg t → dialled (peers (nmasters cfg) (n cfg) x) (all_ends x) (net cfg) rn →
  i_booted x = default MakePersister (disks t !! name_of x) → i_persister x = length (persisters cfg) → i_dead x = false →
  same_shape cfg cfg' → net cfg' = AddServer (End (name_of x)) (length (insts cfg)) rn →
  insts cfg' = insts cfg ++ [x] → persisters cfg' = persisters cfg ++ [i_booted x] → groups_ok (n cfg) (groups cfg') →
  (∀ s v, slot saved (groups cfg') s v → (s = name_of x ∧ v = Some (length (persisters cfg))) ∨ (s ≠ name_of x ∧ slot saved (groups cfg) s v)) →
  (∀ s r, rows (groups cfg') s r → (s = name_of x ∧ r = all_ends x) ∨ (s ≠ name_of x ∧ rows (groups cfg) s r)) →
  (∀ s v, held cfg' s v → (s = name_of x ∧ v = Some (length (insts cfg))) ∨ (s ≠ name_of x ∧ held cfg s v)) →
  cfg_ok cfg' (boot (name_of x) t) ∧ (running t !! name_of x = None → calm cfg t → calm cfg' (boot (name_of x) t)).
Proof.
  intros Hok Hdi Hbt Hp Hd (Hn & Hnm & _) Hnet Hxs Hps Hgs Hsv Hrow Hheld.
  pose proof (boots_length _ _ Hok) as Hlen. assert (∀ s k, running t !! s = Some k → (k < length (insts cfg))%nat) as Hlt by (intros *; by apply running_lt).
  destruct Hok as [Hg Hnt Hh Hst He]. split.
  - split; rewrite ?Hn, ?Hnm, ?Hxs, ?Hps, ?Hnet; simpl; rewrite ?Hlen; try done.
    + intros s. rewrite server_of_add, lookup_insert, (server_of_same (net cfg)) by by destruct Hdi.
      by rewrite Hnt.
    + intros s v [[-> ->]|[Hne Hv]]%Hheld; [by rewrite lookup_insert_eq|]. rewrite lookup_insert_ne by done. by apply Hh.
    + eapply store_boot; done.
    + apply ends_AddServer. eapply ends_boot; [done..| |done]. by apply Hlt.
  - intros Hnone Hcalm. unfold calm. rewrite Hnet, Hxs. simpl. rewrite Hlen.
    change (quiet rn (insts cfg ++ [x]) (<[name_of x := length (insts cfg)]> (running t))). by eapply quiet_boot.
Qed.

Section names.
Context (crand : nat → list Z).

Lemma dial_from_spec k to rn xs rn' : dial_from crand k to rn = Some (xs, rn') → dialled to xs rn rn'.
Proof.
  revert k rn xs. induction to as [|s to IH]; intros k rn xs; simpl.
  - intros [= <- <-]. apply dialled_nil.
  - intros (rn1 & H1 & ([ys rn2] & H2 & [= <- <-])%bind_Some)%bind_Some. eapply dialled_cons; [exact H1|]. by eapply IH.
Qed.

Lemma dial_spec to cfg xs cfg' :
  dial crand to cfg = Some (xs, cfg') →
  ∃ rn, cfg' = set_ends rn (drawn cfg + length to) cfg ∧ dialled to xs (net cfg) rn.
Proof.
  unfold dial. intros ([ys rn] & H1 & [= <- <-])%bind_Some. exists rn. split; [done|]. by eapply dial_from_spec.
Qed.

Lemma cfg_dial to ys rn d cfg t :
  dialled to ys (net cfg) rn → cfg_ok cfg t → cfg_ok (set_ends rn d cfg) t ∧ (calm cfg t → calm (set_ends rn d cfg) t).
Proof.
  intros Hdi [Hg Hnt Hh Hst He]. split; [|intros Hc; by eapply quiet_dial]. split; try done; simpl.
  - intros s. rewrite (server_of_same (net cfg)) by by destruct Hdi. apply Hnt.
  - by eapply ends_dial.
Qed.

Lemma saved_persister_spec gi gg i cfg t v :
  cfg_ok cfg t → group_at gi cfg = Some gg → saved_persister i gg cfg = Some v →
  ∃ p, saved gg !! i = Some p ∧ v = disks t !! servername (gid gg) i ∧ v = p ≫= (persisters cfg !!.) ∧ (v = None → p = None).
Proof.
  intros Hok Hgg. unfold saved_persister. intros (p & Hp & Hv)%bind_Some. exists p.
  pose proof (s_disk _ _ _ _ (c_store _ _ Hok) (servername (gid gg) i) p ltac:(by exists gi, gg, i)) as Hdk.
  split; [done|]. destruct p as [p|]; [|by injection Hv as <-].
  apply bind_Some in Hv as (ps & Hps & [= <-]). simpl in *. rewrite <- Hdk, Hps. done.
Qed.

Lemma Copy_id ps : Copy ps = ps.
Proof. by destruct ps. Qed.

Lemma StartServer_ok gi i cfg cfg' t :
  cfg_ok cfg t → StartServer crand gi i cfg = Some cfg' →
  let s := servername (100 + Z.of_nat gi) i in
  cfg_ok cfg' (boot s t) ∧ (running t !! s = None → calm cfg t → calm cfg' (boot s t)) ∧ same_shape cfg cfg' ∧
  (∃ gg, groups cfg' = <[gi := Some gg]> (groups cfg)) ∧ mck cfg' = mck cfg.
Proof.
  intros Hok Hst. unfold StartServer in Hst. apply bind_Some in Hst as (gg & Hgg & Hst).
  apply bind_Some in Hst as (row & Hrow & Hst). apply bind_Some in Hst as ([es cfg1] & (rn1 & -> & Hd1)%dial_spec & Hst).
  apply bind_Some in Hst as (mrow & Hmrow & Hst). apply bind_Some in Hst as ([ms cfg2] & (rn2 & -> & Hd2)%dial_spec & Hst).
  apply bind_Some in Hst as (ps & Hps & Hst). apply bind_Some in Hst as (sv & Hsv & [= <-]). simpl in *.
  destruct (saved_persister_spec gi gg i cfg t ps Hok Hgg Hps) as (p & Hp & -> & _).
  destruct (c_groups _ _ Hok _ _ Hgg) as (Hgid & Hlen & Hrows). rewrite <- Hgid.
  set (x := StartServer_kv _ _ _ _ _ _ _). set (gg' := set_servers _ _).
  assert (i_booted x = default MakePersister (disks t !! name_of x)) as Hbt.
  { unfold name_of. simpl. destruct (disks t !! _); simpl; [by rewrite Copy_id|done]. }
  assert (dialled (peers (nmasters cfg) (n cfg) x) (all_ends x) (net cfg) rn2) as Hdi by by eapply dialled_app.
  change (servername (gid gg) i) with (name_of x).
  assert (groups_ok (n cfg) (<[gi := Some gg']> (groups cfg))) as Hgs.
  { intros gi2 gg2 [[-> ->]|[Hne Hold]]%group_lookup; [|by apply (c_groups _ _ Hok)]. simpl. split_and!; [done|by rewrite length_insert|].
    intros i2 row2. rewrite list_lookup_insert_Some. intros [(_ & <- & _)|[_ Hr2]]; [right|by eapply Hrows].
    rewrite (di_length _ _ _ _ Hd1). unfold groupnames. by rewrite length_fmap, length_seq. }
  match goal with |- cfg_ok ?c _ ∧ _ => set (cfg' := c) end.
  destruct (cfg_boot cfg cfg' t x rn2 Hok Hdi Hbt) as [H1 H2]; try done.
  - simpl. by rewrite length_app, Nat.add_sub.
  - intros s v. by apply (slot_insert saved (n cfg) (groups cfg) gi gg gg' i (Some (length (persisters cfg))) s v (c_groups _ _ Hok) Hgg).
  - intros s r. by apply (rows_insert (n cfg) (groups cfg) gi gg gg' i es ms s r (c_groups _ _ Hok) Hgg).
  - intros s v [Hsl|(j & -> & Hj)].
    + destruct (slot_insert servers (n cfg) (groups cfg) gi gg gg' i (Some (length (insts cfg))) s v (c_groups _ _ Hok) Hgg)
        as [[-> ->]|[? ?]]; [done..|by left|]. right. split; [done|by left].
    + right. split; [by intros ?%eq_sym%server_not_master|]. right. by exists j.
  - split_and!; try done. by exists gg'.
Qed.

Lemma StartMasterServer_ok i cfg cfg' t :
  cfg_ok cfg t → StartMasterServer crand i cfg = Some cfg' → disks t !! mastername i = None →
  cfg_ok cfg' (boot (mastername i) t) ∧ (running t !! mastername i = None → calm cfg t → calm cfg' (boot (mastername i) t)) ∧
  same_shape cfg cfg' ∧ groups cfg' = groups cfg.
Proof.
  intros Hok Hst Hnone. unfold StartMasterServer in Hst. apply bind_Some in Hst as ([es cfg1] & (rn1 & -> & Hd1)%dial_spec & Hst).
  apply bind_Some in Hst as (m & Hm & [= <-]). simpl in *.
  set (x := StartServer_master _ _ _ _). change (mastername i) with (name_of x).
  assert (all_ends x = es) as Hall by apply app_nil_r.
  assert (∀ s gi gg j, mjoin (groups cfg !! gi) = Some gg → s = servername (gid gg) j → s ≠ name_of x) as Hne.
  { intros s gi gg j _ ->. apply server_not_master. }
  match goal with |- cfg_ok ?c _ ∧ _ => set (cfg' := c) end.
  destruct (cfg_boot cfg cfg' t x rn1 Hok) as [H1 H2]; try done.
  - by rewrite Hall.
  - unfold name_of. simpl. by rewrite Hnone.
  - simpl. by rewrite length_app, Nat.add_sub.
  - apply Hok.
  - intros s v Hsl. right. split; [|done]. destruct Hsl as (gi & gg & j & ? & ? & _). by eapply Hne.
  - intros s r Hr. right. split; [|done]. destruct Hr as (gi & gg & j & ? & ? & ? & ? & _). by eapply Hne.
  - intros s v [Hsl|(j & -> & Hj)].
    + right. split; [|by left]. destruct Hsl as (gi & gg & j & ? & ? & _). by eapply Hne.
    + simpl in Hj. apply list_lookup_insert_Some in Hj as [(<- & <- & _)|[Hij Hj]]; [by left|right].
      split; [|by right; exists j]. by intros ?%mastername_inj.
Qed.
End names.

(** ** Shutting down *)

Lemma disable_loop row m rn rn' :
  for_each (seq 0 m) (disable row) rn = Some rn' →
  rewired rn rn' ∧ ∀ e, on rn' e = if decide (e ∈ take m row) then false else on rn e.
Proof.
  revert rn'. induction m as [|m IH]; intros rn' Hf.
  { injection Hf as <-. split; [done|]. intros e. rewrite take_0. rewrite decide_False; [done|]. apply not_elem_of_nil. }
  revert Hf. rewrite seq_S, for_each_app. simpl for_each.
  intros (rn1 & [Hre Ho]%IH & (rn2 & Hd & [= <-])%bind_Some)%bind_Some. unfold disable in Hd.
  apply bind_Some in Hd as (x & Hx & [= <-]). split; [by etrans; [|apply rewired_Enable]|]. intros e.
  rewrite on_Enable, Ho, (take_S_r _ _ _ Hx).
  rewrite <- decide_app. apply decide_ext. rewrite list_elem_of_singleton. done.
Qed.

(** What the two loops of [ShutdownServer] do. *)
Lemma disable_tables gg i (rn rn1 rn2 : network) mrow sv :
  servers gg !! i = Some sv → (∀ i row, endnames gg !! i = Some row → row = [] ∨ length row = length (servers gg)) →
  for_each (seq 0 (length (servers gg))) (λ j rn, row ← endnames gg !! i; disable row j rn) rn = Some rn1 →
  mendnames gg !! i = Some mrow → for_each (seq 0 (length mrow)) (disable mrow) rn1 = Some rn2 →
  ∃ row, endnames gg !! i = Some row ∧ rewired rn rn2 ∧
    ∀ e, on rn2 e = if decide (e ∈ row ++ mrow) then false else on rn e.
Proof.
  intros Hsv Hrows H1 Hmrow H2. apply lookup_lt_Some in Hsv as Hlt.
  destruct (endnames gg !! i) as [row|] eqn:Hrow; simpl in H1.
  2: { destruct (length (servers gg)); [lia|]. done. }
  exists row. split; [done|]. destruct (disable_loop _ _ _ _ H1) as [Hre1 Ho1]. destruct (disable_loop _ _ _ _ H2) as [Hre2 Ho2].
  split; [by etrans|]. intros e. rewrite Ho2, Ho1, firstn_all.
  rewrite take_ge by (destruct (Hrows _ _ Hrow) as [->| ->]; simpl; lia).
  apply decide_app.
Qed.

Lemma cfg_halt cfg t s r rn :
  cfg_ok cfg t → rows (groups cfg) s r → rewired (net cfg) rn →
  (∀ e, on rn e = if decide (e ∈ r) then false else on (net cfg) e) →
  ∀ cfg', same_shape cfg cfg' → net cfg' = DeleteServer (End s) rn → same_inst (insts cfg) (insts cfg') →
  groups_ok (n cfg) (groups cfg') → (∀ s' r, rows (groups cfg') s' r → rows (groups cfg) s' r) →
  (∀ s' v, held cfg' s' v → (s' = s ∧ v = None) ∨ (s' ≠ s ∧ held cfg s' v)) →
  store_ok (slot saved (groups cfg')) (persisters cfg') (insts cfg') (halt s t) →
  cfg_ok cfg' (halt s t) ∧ (calm cfg t → calm cfg' (halt s t)).
Proof.
  intros [Hg Hnt Hh Hst He] Hr Hre Ho cfg' (Hn & Hnm & _) Hnet Hsame Hgs Hrows Hheld Hst'. split.
  - split; rewrite ?Hn, ?Hnm, ?Hnet; try done.
    + intros s'. rewrite server_of_delete. simpl. rewrite lookup_delete. case_decide; [done|].
      rewrite (server_of_same (net cfg)) by apply Hre. apply Hnt.
    + intros s' v [[-> ->]|[Hne Hv]]%Hheld; simpl; [by rewrite lookup_delete_eq|]. rewrite lookup_delete_ne by done. by apply Hh.
    + pose proof (ends_halt _ _ _ _ _ _ He s r rn (insts cfg') Hr Hre Ho Hsame) as He'.
      by eapply ends_ext; [exact He'|exact Hrows|..].
  - intros Hc. unfold calm. rewrite Hnet. pose proof (quiet_halt _ _ _ _ _ _ He s r rn (insts cfg') Hr Ho Hsame Hc) as Hq. exact Hq.
Qed.

(** What becomes of the slot, its persister and its instance. *)
Definition halted_group (i : nat) (p : option nat) (gg : group) : group :=
  mkGroup (gid gg) (<[i := None]> (servers gg)) (<[i := p]> (saved gg)) (endnames gg) (mendnames gg).
Definition halted_insts (sv : option nat) (xs : list inst) : list inst := if sv is Some k then alter Kill k xs else xs.

Lemma ShutdownServer_inv gi i cfg cfg' :
  ShutdownServer gi i cfg = Some cfg' →
  ∃ gg rn1 rn2 mrow sv p p' extra,
    group_at gi cfg = Some gg ∧
    for_each (seq 0 (length (servers gg))) (λ j rn, row ← endnames gg !! i; disable row j rn) (net cfg) = Some rn1 ∧
    mendnames gg !! i = Some mrow ∧ for_each (seq 0 (length mrow)) (disable mrow) rn1 = Some rn2 ∧
    servers gg !! i = Some sv ∧ saved gg !! i = Some p ∧
    match p with
    | Some q => ∃ ps, persisters cfg !! q = Some ps ∧ p' = Some (length (persisters cfg)) ∧ extra = [ps]
    | None => p' = None ∧ extra = []
    end ∧
    cfg' = set_group gi (halted_group i p' gg) (set_store (persisters cfg ++ extra) (halted_insts sv (insts cfg))
      (set_net (DeleteServer (End (servername (gid gg) i)) rn2) cfg)).
Proof.
  unfold ShutdownServer, saved_persister. intros (gg & Hgg & (rn1 & H1 & (mrow & Hm & (rn2 & H2 & (ps & Hps & Hst)%bind_Some)%bind_Some)%bind_Some)%bind_Some)%bind_Some.
  apply bind_Some in Hps as (p & Hp & Hps). simpl in Hps.
  assert (∃ sv, servers gg !! i = Some sv ∧
    cfg' = set_group gi (mkGroup (gid gg) (<[i := None]> (servers gg)) (if ps is Some _ then <[i := Some (length (persisters cfg))]> (saved gg) else saved gg)
      (endnames gg) (mendnames gg))
      (set_store (persisters cfg ++ (if ps is Some ps then [ps] else [])) (halted_insts sv (insts cfg))
        (set_net (DeleteServer (End (servername (gid gg) i)) rn2) cfg))) as (sv & Hsv & ->).
  { destruct ps as [ps|]; apply bind_Some in Hst as (sv & Hsv & Hst); exists sv; (split; [done|]); simpl in Hsv;
      destruct sv as [k|]; injection Hst as <-; rewrite ?Copy_id, ?app_nil_r; try done;
      rewrite (list_insert_id _ _ _ Hsv); by destruct cfg, gg. }
  exists gg, rn1, rn2, mrow, sv, p. destruct p as [q|].
  - apply bind_Some in Hps as (ps' & Hq & [= <-]). exists (Some (length (persisters cfg))), [ps']. split_and!; eauto.
  - injection Hps as <-. exists None, []. split_and!; try done. unfold halted_group. by rewrite (list_insert_id _ _ _ Hp).
Qed.

Lemma halted_same sv xs : same_inst xs (halted_insts sv xs).
Proof. destruct sv as [k|]; [apply same_inst_alter|done]. Qed.

Lemma halted_store s p p' extra sv saved saved' pss xs t :
  store_ok saved pss xs t → saved s p → sv = running t !! s →
  match p with
  | Some q => ∃ ps, pss !! q = Some ps ∧ p' = Some (length pss) ∧ extra = [ps]
  | None => p' = None ∧ extra = []
  end →
  (∀ s' v, saved' s' v → (s' = s ∧ v = p') ∨ (s' ≠ s ∧ saved s' v)) →
  store_ok saved' (pss ++ extra) (halted_insts sv xs) (halt s t).
Proof.
  intros Hs Hsl -> Hp Hsv. destruct p as [q|].
  - destruct Hp as (ps & Hps & -> & ->). eapply store_halt; [exact Hs|exact Hsl|exact Hps|apply halted_same| |exact Hsv].
    intros k Hk. destruct (running t !! s) as [k'|]; simpl; [|done]. apply list_lookup_alter_ne. congruence.
  - destruct Hp as [-> ->]. destruct (store_halt_nil _ _ _ _ _ Hs Hsl) as [-> ->]. rewrite app_nil_r. simpl.
    eapply store_ext; [exact Hs|]. intros s' v [[-> ->]|[_ ?]]%Hsv; done.
Qed.

Lemma ShutdownServer_ok gi i cfg cfg' t :
  cfg_ok cfg t → ShutdownServer gi i cfg = Some cfg' →
  let s := servername (100 + Z.of_nat gi) i in
  cfg_ok cfg' (halt s t) ∧ (calm cfg t → calm cfg' (halt s t)) ∧ same_shape cfg cfg' ∧ mck cfg' = mck cfg.
Proof.
  intros Hok (gg & rn1 & rn2 & mrow & sv & p & p' & extra & Hgg & H1 & Hm & H2 & Hsv & Hp & Hpp & ->)%ShutdownServer_inv.
  pose proof (c_groups _ _ Hok) as Hgs. destruct (Hgs _ _ Hgg) as (Hgid & Hlen & Hrows). rewrite <- Hgid. set (s := servername (gid gg) i).
  destruct (disable_tables gg i (net cfg) rn1 rn2 mrow sv) as (row & Hrow & Hre & Ho); try done; [by rewrite Hlen|].
  assert (rows (groups cfg) s (row ++ mrow)) as Hr by (by exists gi, gg, i, row, mrow).
  assert (sv = running t !! s) as Hrun by (apply (c_held _ _ Hok); left; by exists gi, gg, i).
  set (gg' := halted_group i p' gg).
  destruct (cfg_halt cfg t s (row ++ mrow) rn2 Hok Hr Hre Ho (set_group gi gg' (set_store (persisters cfg ++ extra)
    (halted_insts sv (insts cfg)) (set_net (DeleteServer (End s) rn2) cfg)))) as [Hok' Hcalm]; try done; simpl.
  - apply halted_same.
  - intros gi2 gg2 [[-> ->]|[Hne Hold]]%group_lookup; [|by apply Hgs]. simpl. by rewrite length_insert.
  - intros s' r. by apply (rows_same (groups cfg) gi gg gg' s' r Hgg).
  - intros s' v [Hsl|(j & -> & Hj)].
    + destruct (slot_insert servers (n cfg) (groups cfg) gi gg gg' i None s' v Hgs Hgg) as [?|[? ?]]; [done..|by left|].
      right. split; [done|by left].
    + right. split; [by intros ?%eq_sym%server_not_master|]. right. by exists j.
  - eapply halted_store; [apply Hok| |exact Hrun|exact Hpp|].
    + by exists gi, gg, i.
    + intros s' v. by apply (slot_insert saved (n cfg) (groups cfg) gi gg gg' i p' s' v Hgs Hgg).
Qed.

End ShardConfigProof.
