(* ===== verification/ShardConfigSpec.v ===== *)
(** What the configuration of shardkv/config.go promises: restarts keep what was
    saved last, an instance that was shut down cannot use its ends, and the names
    that join the shardmaster lead to the servers of the groups. *)

From S2P Require Import Prelude GoStd Labrpc Harness ShardClient ShardConfig ShardConfigProof.

#[local] Open Scope Z_scope.

Module ShardConfigSpec.
Export ShardConfigProof.

(** ** The abstract service *)

Definition kv_name (gi i : nat) : string := servername (100 + Z.of_nat gi) i.

Definition service_step (t : service) (l : label) : service :=
  match l with
  | LStart gi i => boot (kv_name gi i) t
  | LShutdown gi i => halt (kv_name gi i) t
  | LSave k ps => write k ps t
  | LClient | LDelete _ | LEnd _ => t
  end.

(** Servers are started only while they are down. *)
Definition is_down (t : service) (s : string) : bool := if running t !! s is Some _ then false else true.
Fixpoint orderly (t : service) (ls : list label) : bool :=
  match ls with
  | [] => true
  | l :: ls => (if l is LStart gi i then is_down t (kv_name gi i) else true) && orderly (service_step t l) ls
  end.

(** What [make_config] starts. *)
Definition first_names (n : nat) : list string :=
  (mastername <$> seq 0 3) ++ flat_map (λ gi, kv_name gi <$> seq 0 n) (seq 0 3).
Definition boot_all (t : service) (names : list string) : service := foldl (λ t s, boot s t) t names.
Definition no_service : service := mkService ∅ ∅ [].
Definition new_service (n : nat) : service := boot_all no_service (first_names n).

(** The configuration and its network are in the state [t]. *)
Definition implements (cfg : config) (t : service) : Prop :=
  (∀ s, server_of (net cfg) (End s) = running t !! s) ∧
  (∀ i v, masterservers cfg !! i = Some v → v = running t !! mastername i) ∧
  (∀ gi gg i v, group_at gi cfg = Some gg → servers gg !! i = Some v → v = running t !! kv_name gi i) ∧
  (∀ gi gg i v, group_at gi cfg = Some gg → saved_persister i gg cfg = Some v → v = disks t !! kv_name gi i) ∧
  (∀ k s ps, started t !! k = Some (s, ps) ↔ ∃ x, insts cfg !! k = Some x ∧ name_of x = s ∧ i_booted x = ps).

Lemma cfg_ok_implements cfg t : cfg_ok cfg t → implements cfg t.
Proof.
  intros Hok. split_and!.
  - apply Hok.
  - intros i v Hi. apply (c_held _ _ Hok). right. by exists i.
  - intros gi gg i v Hgg Hv. unfold kv_name. destruct (c_groups _ _ Hok _ _ Hgg) as [<- _].
    apply (c_held _ _ Hok). left. by exists gi, gg, i.
  - intros gi gg i v Hgg Hv. unfold kv_name. destruct (c_groups _ _ Hok _ _ Hgg) as [<- _].
    by destruct (saved_persister_spec gi gg i cfg t v Hok Hgg Hv) as (_ & _ & ? & _).
  - intros k s ps. rewrite <- (s_boots _ _ _ _ (c_store _ _ Hok)), list_lookup_fmap, fmap_Some.
    split; intros (x & Hx & Heq); exists x; [by injection Heq as -> ->|]. by destruct Heq as [-> ->].
Qed.

Lemma boot_all_lookup names t s :
  s ∉ names → running (boot_all t names) !! s = running t !! s ∧ disks (boot_all t names) !! s = disks t !! s.
Proof.
  revert t. induction names as [|s' names IH]; intros t; [done|]. intros [Hne Hs]%not_elem_of_cons. simpl.
  destruct (IH (boot s' t) Hs) as [-> ->]. simpl. by rewrite !lookup_insert_ne by done.
Qed.

Lemma boot_all_app t l1 l2 : boot_all t (l1 ++ l2) = boot_all (boot_all t l1) l2.
Proof. apply foldl_app. Qed.

Section names.
Context (crand : nat → list Z).

(** ** Runs *)

Lemma test_step_ok l cfg cfg' t :
  cfg_ok cfg t → exec crand l cfg = Some cfg' →
  cfg_ok cfg' (service_step t l) ∧ same_shape cfg cfg' ∧
  ((if l is LStart gi i then is_down t (kv_name gi i) else true) = true → calm cfg t → calm cfg' (service_step t l)).
Proof.
  intros Hok Hx. destruct l as [gi i|gi i| |ck|s|k ps]; simpl in Hx |- *.
  - destruct (StartServer_ok crand gi i cfg cfg' t Hok Hx) as (? & Hc & ? & _). split_and!; [done..|].
    unfold is_down. destruct (running t !! kv_name gi i) eqn:Hd; [done|]. by intros _ ?; apply Hc.
  - destruct (ShutdownServer_ok gi i cfg cfg' t Hok Hx) as (? & ? & ? & _). split_and!; auto.
  - apply fmap_Some in Hx as ([ck cfg1] & Hx & ->). unfold makeClient in Hx.
    apply bind_Some in Hx as ([es cfg2] & (rn & -> & Hd)%dial_spec & (names & _ & [= <- <-])%bind_Some).
    destruct (cfg_dial _ _ rn (drawn cfg + length (masternames cfg)) cfg t Hd Hok) as [[? ? ? ? ?] Hc]. split_and!; [|done|auto]. by split.
  - injection Hx as <-. split_and!; [|done..]. by destruct Hok.
  - apply fmap_Some in Hx as ([name cfg1] & Hx & ->). unfold make_end in Hx.
    apply bind_Some in Hx as ([es cfg2] & (rn & -> & Hd)%dial_spec & Hx). destruct es as [|e [|]]; try done. injection Hx as <- <-.
    destruct (cfg_dial _ _ rn (drawn cfg + length [s]) cfg t Hd Hok) as [? ?]. by split_and!.
  - apply bind_Some in Hx as (x & Hx & [= <-]). destruct Hok as [Hg Hn Hh Hs He].
    assert (running (write k ps t) = running t) as Hrun.
    { unfold write. destruct (started t !! k) as [[s ?]|]; [|done]. by case_decide. }
    split_and!; [|done|].
    + split; simpl; rewrite ?Hrun; try done. by apply store_write.
    + intros _. unfold calm. simpl. by rewrite Hrun.
Qed.

Lemma test_run_ok ls cfg cfg' t :
  cfg_ok cfg t → run crand ls cfg = Some cfg' →
  cfg_ok cfg' (foldl service_step t ls) ∧ same_shape cfg cfg' ∧
  (orderly t ls = true → calm cfg t → calm cfg' (foldl service_step t ls)).
Proof.
  revert cfg t. induction ls as [|l ls IH]; intros cfg t Hok; simpl; [by intros [= <-]|].
  intros (cfg1 & Hx & Hr)%bind_Some. destruct (test_step_ok l cfg cfg1 t Hok Hx) as (Hok1 & Hsh1 & Hc1).
  destruct (IH cfg1 (service_step t l) Hok1 Hr) as (? & ? & Hc2). split_and!; [done|by etrans|]. intros [? ?]%andb_true_iff ?. auto.
Qed.

(** ** [make_config] *)

(** After the servers [names], in a configuration of the shape of [cfg0]. *)
Definition booted_to (cfg0 : config) (names : list string) (cfg : config) : Prop :=
  cfg_ok cfg (boot_all no_service names) ∧ same_shape cfg0 cfg ∧ (NoDup names → calm cfg (boot_all no_service names)).

Lemma booted_snoc cfg0 names s cfg cfg' :
  booted_to cfg0 names cfg → same_shape cfg cfg' →
  let t := boot_all no_service names in
  cfg_ok cfg' (boot s t) → (running t !! s = None → calm cfg t → calm cfg' (boot s t)) → booted_to cfg0 (names ++ [s]) cfg'.
Proof.
  intros (Hok & Hsh & Hc) Hsh' t Hok' Hc'. unfold booted_to. rewrite boot_all_app. split_and!; [done|by etrans|].
  intros (Hnd & Hs & _)%NoDup_app. apply Hc'; [|by apply Hc]. destruct (boot_all_lookup names no_service s) as [Hr _].
  { intros Hin. apply (Hs s Hin). left. }
  unfold t. by rewrite Hr.
Qed.

Lemma empty_ok N m : booted_to (empty_config N m) [] (empty_config N m).
Proof.
  assert (∀ gi, mjoin (replicate 3 (@None group) !! gi) = None) as Hno.
  { intros gi. destruct (replicate 3 None !! gi) eqn:He; [|done]. by apply lookup_replicate in He as [-> _]. }
  split_and!; [|done|].
  - split; simpl.
    + intros gi gg. by rewrite Hno.
    + done.
    + intros s v [(gi & gg & i & Hgg & _)|(i & -> & [-> _]%lookup_replicate)]; [by rewrite Hno in Hgg|done].
    + split; simpl; try done; intros s v; intros; destruct_and?; try done;
        match goal with H : slot _ _ _ _ |- _ => destruct H as (gi & gg & i & Hgg & _); by rewrite Hno in Hgg end.
    + split; try done; intros s r; intros;
        match goal with H : rows _ _ _ |- _ => destruct H as (gi & gg & i & ? & ? & Hgg & _); by rewrite Hno in Hgg end.
  - done.
Qed.

Lemma slot_new {A} (f : group → list A) gs gi gg s v :
  gid gg = 100 + Z.of_nat gi → slot f (<[gi := Some gg]> gs) s v → (∃ i, s = kv_name gi i ∧ f gg !! i = Some v) ∨ slot f gs s v.
Proof.
  intros Hid (gi2 & gg2 & i2 & [[-> ->]|[Hne Hold]]%group_lookup & -> & Hv); [left|right; by exists gi2, gg2, i2].
  exists i2. by rewrite Hid.
Qed.

Lemma rows_new gs gi cfg s r :
  rows (<[gi := Some (new_group gi cfg)]> gs) s r → (∃ i, s = kv_name gi i ∧ r = []) ∨ rows gs s r.
Proof.
  intros (gi2 & gg2 & i2 & er & mr & [[-> ->]|[Hne Hold]]%group_lookup & -> & H1 & H2 & ->); [left|right; by exists gi2, gg2, i2, er, mr].
  exists i2. split; [done|]. simpl in H1, H2. apply lookup_replicate in H1 as [-> _]. by apply lookup_replicate in H2 as [-> _].
Qed.

Lemma new_group_ok gi cfg t :
  cfg_ok cfg t → (∀ i, running t !! kv_name gi i = None ∧ disks t !! kv_name gi i = None) →
  cfg_ok (set_group gi (new_group gi cfg) cfg) t.
Proof.
  intros [Hg Hn Hh Hs He] Hno. set (gg := new_group gi cfg).
  assert (∀ s v, slot saved (<[gi := Some gg]> (groups cfg)) s v → (∃ i, s = kv_name gi i ∧ v = None) ∨ slot saved (groups cfg) s v) as Hsv.
  { intros s v [(i & -> & [-> _]%lookup_replicate)|?]%slot_new; [left; by exists i|by right|done]. }
  split; simpl.
  - intros gi2 gg2 [[-> ->]|[Hne Hold]]%group_lookup; [|by apply Hg]. simpl. split_and!; [done|by rewrite length_replicate|].
    intros i row [-> _]%lookup_replicate. by left.
  - done.
  - intros s v [Hsl|Hm]; [|by apply Hh; right]. simpl in Hsl.
    apply slot_new in Hsl as [(i & -> & [-> _]%lookup_replicate)|?]; [|by apply Hh; left|done]. by destruct (Hno i).
  - destruct Hs as [Hb Hdk Hv Hi Hr Ha Ho Hs Hd]. split; try done.
    + intros s v [(i & -> & ->)|?]%Hsv; [|by apply Hdk]. by destruct (Hno i).
    + intros s p [(i & _ & ?)|?]%Hsv; [done|by eapply Hv].
    + intros s k x [(i & _ & ?)|?]%Hsv; [done|by eapply Ho].
    + intros s v k x [(i & -> & ->)|?]%Hsv; [|by eapply Hs]. destruct (Hno i) as [Hr' _]. by rewrite Hr'.
    + intros s s' p [(i & _ & ?)|?]%Hsv [(i' & _ & ?)|?]%Hsv; try done. by eapply Hd.
  - destruct He as [Hm Hw Ht Hon Hrm Hrs Hr Hln]. split; try done.
    + intros s r e [(i & _ & ->)|?]%rows_new; [by intros ?%elem_of_nil|by eapply Hrm].
    + intros s r e k x [(i & _ & ->)|?]%rows_new; [by intros ?%elem_of_nil|by eapply Hrs].
    + intros s r k x [(i & -> & _)|?]%rows_new; [|by eapply Hr]. destruct (Hno i) as [Hr' _]. by rewrite Hr'.
Qed.

Lemma kv_name_in gi i js N : kv_name gi i ∈ (mastername <$> seq 0 3) ++ flat_map (λ gi, kv_name gi <$> seq 0 N) js → gi ∈ js.
Proof.
  rewrite elem_of_app. intros [(j & He & _)%list_elem_of_fmap|Hin]; [by apply server_not_master in He|].
  apply list_elem_of_In, in_flat_map in Hin as (gj & Hgj & Hi%list_elem_of_In). apply list_elem_of_fmap in Hi as (j & He & _).
  apply servername_inj in He as [? _]; [|lia..]. assert (gi = gj) as -> by lia. by apply list_elem_of_In.
Qed.

Lemma start_groups N cfg0 cfg cfg' js gi :
  n cfg0 = N → gi ∉ js → booted_to cfg0 ((mastername <$> seq 0 3) ++ flat_map (λ gi, kv_name gi <$> seq 0 N) js) cfg →
  StartGroup crand gi (set_group gi (new_group gi cfg) cfg) = Some cfg' →
  booted_to cfg0 ((mastername <$> seq 0 3) ++ flat_map (λ gi, kv_name gi <$> seq 0 N) (js ++ [gi])) cfg'.
Proof.
  intros Hn Hgi (Hok & Hsh & Hc). pose proof Hsh as (HN & _). unfold StartGroup.
  change (n (set_group gi (new_group gi cfg) cfg)) with (n cfg). rewrite HN, Hn, flat_map_app. cbn [flat_map].
  rewrite app_nil_r, app_assoc. set (names := _ ++ flat_map _ js) in *.
  intros Hf. eapply (for_each_seq (λ j cfg, booted_to cfg0 (names ++ (kv_name gi <$> seq 0 j)) cfg)); [..|exact Hf].
  - rewrite app_nil_r. split_and!; [|done|done]. apply new_group_ok; [done|]. intros i.
    destruct (boot_all_lookup names no_service (kv_name gi i)) as [-> ->]; [|done]. by intros ?%kv_name_in.
  - intros j s s' Hj Hb Hst. pose proof Hb as (Hok' & _). destruct (StartServer_ok crand gi j s s' _ Hok' Hst) as (? & ? & ? & _).
    rewrite seq_app, fmap_app, app_assoc. by eapply booted_snoc.
Qed.

Lemma first_names_NoDup N : NoDup (first_names N).
Proof.
  assert (∀ gi, NoDup (kv_name gi <$> seq 0 N)) as Hg.
  { intros gi. apply NoDup_fmap_2; [|apply NoDup_seq]. intros i j [_ ?]%servername_inj; (done || lia). }
  assert (∀ gi gj s, gi ≠ gj → s ∈ kv_name gi <$> seq 0 N → s ∉ kv_name gj <$> seq 0 N) as Hne.
  { intros gi gj s Hgi (i & -> & _)%list_elem_of_fmap (j & He & _)%list_elem_of_fmap.
    apply servername_inj in He as [? _]; lia. }
  unfold first_names. apply NoDup_app. split_and!.
  - apply NoDup_fmap_2; [|apply NoDup_seq]. intros i j. apply mastername_inj.
  - intros s (j & -> & _)%list_elem_of_fmap Hin. apply list_elem_of_In, in_flat_map in Hin as (gi & _ & Hi%list_elem_of_In).
    by apply list_elem_of_fmap in Hi as (i & He%eq_sym%server_not_master & _).
  - cbn [flat_map seq]. rewrite app_nil_r. apply NoDup_app. split_and!; [done| |apply NoDup_app; split_and!; [done| |done]].
    + intros s H0 [H1|H1]%elem_of_app; revert H1; by apply (Hne 0%nat).
    + intros s H1. by apply (Hne 1%nat).
Qed.

Lemma make_config_ok N unreliable m cfg :
  make_config crand N unreliable m = Some cfg →
  cfg_ok cfg (new_service N) ∧ calm cfg (new_service N) ∧ same_shape (empty_config N m) cfg.
Proof.
  unfold make_config. set (cfg0 := empty_config N m).
  intros Hmk. apply bind_Some in Hmk as (cfg1 & H1 & Hmk). apply bind_Some in Hmk as ([es cfg2] & H2 & Hmk).
  unfold shardclerk in H2. apply dial_spec in H2 as (rn & -> & Hd). apply bind_Some in Hmk as (cfg3 & H3 & Hmk).
  injection Hmk as <-.
  assert (booted_to cfg0 (mastername <$> seq 0 3) cfg1) as Hb1.
  { eapply (for_each_seq (λ j cfg, booted_to cfg0 (mastername <$> seq 0 j) cfg)); [apply empty_ok| |exact H1].
    intros j s s' Hj Hb Hst. rewrite seq_app, fmap_app. pose proof Hb as (Hok & _).
    destruct (StartMasterServer_ok crand j s s' _ Hok Hst) as (? & ? & ? & _); [|by eapply booted_snoc].
    destruct (boot_all_lookup (mastername <$> seq 0 j) no_service (mastername j)) as [_ ->]; [|done].
    intros (j' & <-%mastername_inj & ?%elem_of_seq)%list_elem_of_fmap. lia. }
  assert (booted_to cfg0 (mastername <$> seq 0 3) (set_mck es (set_ends rn (drawn cfg1 + length (masternames cfg1)) cfg1))) as Hb2.
  { destruct Hb1 as (Hok & Hsh & Hc). destruct (cfg_dial _ _ rn (drawn cfg1 + length (masternames cfg1)) _ _ Hd Hok) as [[? ? ? ? ?] ?].
    split_and!; [by split|done|auto]. }
  revert H3 Hb2. set (cfg2 := set_mck _ _). intros H3 Hb2. pose proof Hb2 as (_ & (_ & _ & Hng & _) & _). rewrite Hng in H3. simpl in H3.
  apply bind_Some in H3 as (c1 & Hc1 & H3). apply bind_Some in H3 as (c2 & Hc2 & H3). apply bind_Some in H3 as (c3 & Hc3 & [= <-]).
  pose proof (start_groups N cfg0 cfg2 c1 [] 0 eq_refl ltac:(set_solver) Hb2 Hc1) as G1.
  pose proof (start_groups N cfg0 c1 c2 [0%nat] 1 eq_refl ltac:(set_solver) G1 Hc2) as G2.
  assert (booted_to cfg0 (first_names N) c3) as (Hok & Hsh & Hc).
  { exact (start_groups N cfg0 c2 c3 [0%nat; 1%nat] 2 eq_refl ltac:(set_solver) G2 Hc3). }
  destruct Hok as [? ? ? ? ?]. split_and!; [split; (done || by eapply ends_ext)|exact (Hc (first_names_NoDup N))|done].
Qed.

Lemma reached N unreliable m ls cfg0 cfg :
  make_config crand N unreliable m = Some cfg0 → run crand ls cfg0 = Some cfg →
  let t := foldl service_step (new_service N) ls in
  cfg_ok cfg t ∧ n cfg = N ∧ nmasters cfg = 3%nat ∧ (orderly (new_service N) ls = true → calm cfg t).
Proof.
  intros (Hok & Hc & Hsh)%make_config_ok Hr. destruct (test_run_ok ls cfg0 cfg _ Hok Hr) as (Hok' & Hsh' & Hc').
  assert (same_shape (empty_config N m) cfg) as (? & ? & _) by by etrans. split_and!; auto.
Qed.

Lemma test_group l cfg cfg' gi : exec crand l cfg = Some cfg' → is_Some (group_at gi cfg) → is_Some (group_at gi cfg').
Proof.
  assert (∀ gj gg, is_Some (group_at gi cfg) → is_Some (mjoin (<[gj := Some gg]> (groups cfg) !! gi))) as Hset.
  { intros gj gg. unfold group_at. rewrite list_lookup_insert. case_decide; [done|]. done. }
  intros Hx Hg. destruct l as [gj i|gj i| |ck|s|k ps]; simpl in Hx.
  - unfold StartServer in Hx. apply bind_Some in Hx as (gg & _ & Hx). apply bind_Some in Hx as (row & _ & Hx).
    apply bind_Some in Hx as ([es c1] & (rn1 & -> & _)%dial_spec & Hx). apply bind_Some in Hx as (mrow & _ & Hx).
    apply bind_Some in Hx as ([ms c2] & (rn2 & -> & _)%dial_spec & Hx). apply bind_Some in Hx as (ps & _ & Hx).
    apply bind_Some in Hx as (sv & _ & [= <-]). by apply Hset.
  - apply ShutdownServer_inv in Hx as (gg & rn1 & rn2 & mrow & sv & p & p' & extra & _ & _ & _ & _ & _ & _ & _ & ->). by apply Hset.
  - apply fmap_Some in Hx as ([ck c1] & Hx & ->). unfold makeClient in Hx.
    by apply bind_Some in Hx as ([es c2] & (rn & -> & Hd)%dial_spec & (names & _ & [= <- <-])%bind_Some).
  - by injection Hx as <-.
  - apply fmap_Some in Hx as ([name c1] & Hx & ->). unfold make_end in Hx.
    apply bind_Some in Hx as ([es c2] & (rn & -> & Hd)%dial_spec & Hx). destruct es as [|e [|]]; try done. by injection Hx as <- <-.
  - by apply bind_Some in Hx as (x & Hx & [= <-]).
Qed.

Lemma test_run_group ls cfg cfg' gi : run crand ls cfg = Some cfg' → is_Some (group_at gi cfg) → is_Some (group_at gi cfg').
Proof.
  revert cfg. induction ls as [|l ls IH]; intros cfg; simpl; [by intros [= <-]|].
  intros (cfg1 & Hx & Hr)%bind_Some Hg. by eapply IH, test_group.
Qed.

Lemma join_groups_spec gis cfg gs g names :
  join_groups gis cfg = Some gs → gs !! g = Some names →
  ∃ gi gg, gi ∈ gis ∧ group_at gi cfg = Some gg ∧ gid gg = g ∧ names = groupnames g cfg.
Proof.
  intros Hj. revert g names.
  eapply (for_each_spec (λ done gs, ∀ g names, gs !! g = Some names →
    ∃ gi gg, gi ∈ done ∧ group_at gi cfg = Some gg ∧ gid gg = g ∧ names = groupnames g cfg)); [| |exact Hj].
  - intros g names. by rewrite lookup_empty.
  - intros done gi m m' _ IH (gg & Hgg & [= <-])%bind_Some g names. rewrite lookup_insert_Some.
    intros [[Hg <-]|[_ Hm]].
    + exists gi, gg. rewrite Hg. split_and!; try done. apply elem_of_app. right. left.
    + destruct (IH _ _ Hm) as (gi' & gg' & ? & ?). exists gi', gg'. split; [|done]. apply elem_of_app. by left.
Qed.
End names.

(** ** The theorems *)

(** A server of group 0 writes, is shut down and started again; its old instance
    keeps writing. *)
Definition some_test : list label :=
  [LClient; LSave 3 (mkPersister "log" "snap"); LShutdown 0 0; LSave 3 (mkPersister "late" ""); LStart 0 0;
   LShutdown 1 2; LEnd (servername 100 0)].

Definition config_after (N : nat) (ls : list label) : config :=
  default (empty_config N 1000) (make_config counter_bytes N false 1000 ≫= run counter_bytes ls).

Definition ran (N : nat) (ls : list label) : bool :=
  if make_config counter_bytes N false 1000 ≫= run counter_bytes ls is Some _ then true else false.

Lemma groups_after_ran N ls :
  ran N [] = true → ran N ls = true →
  make_config counter_bytes N false 1000 = Some (config_after N []) ∧
  run counter_bytes ls (config_after N []) = Some (config_after N ls).
Proof.
  unfold ran, config_after. destruct (make_config counter_bytes N false 1000) as [cfg0|]; [|done]. simpl. intros _.
  by destruct (run counter_bytes ls cfg0).
Qed.

Lemma group_test_ran :
  make_config counter_bytes 3 false 1000 = Some (config_after 3 []) ∧
  run counter_bytes some_test (config_after 3 []) = Some (config_after 3 some_test).
Proof. by apply groups_after_ran; vm_compute. Qed.

(** C23: The tester implements the abstract service: after [make_config] and any
    sequence of starts, shutdowns, new clerks and ends, mixed with writes of old
    and new instances to their persisters, the network's servers, the instances
    the configuration holds, what the persisters it holds contain, and what every
    instance found when it started are those of the specification, in which a
    write reaches the disk only if it comes from the running instance. *)
Theorem groups_refine crand N unreliable m ls cfg0 cfg :
  make_config crand N unreliable m = Some cfg0 → run crand ls cfg0 = Some cfg →
  implements cfg (foldl service_step (new_service N) ls).
Proof. intros Hm Hr. by apply cfg_ok_implements, (reached crand N unreliable m ls cfg0 cfg). Qed.

Lemma groups_refine_witness :
  let t := foldl service_step (new_service 3) some_test in
  implements (config_after 3 some_test) t ∧
  running t !! kv_name 0 0 = Some 12%nat ∧ running t !! kv_name 1 2 = None ∧
  started t !! 12%nat = Some (kv_name 0 0, mkPersister "log" "snap").
Proof.
  split; [|by vm_compute]. apply (groups_refine counter_bytes 3 false 1000 some_test (config_after 3 [])); [exact (proj1 group_test_ran)|exact (proj2 group_test_ran)].
Defined.

(** The ends that an instance was given lead to its replicas and to the
    shardmasters, that is to the instances that run there now, and work if and
    only if the instance is the one that runs under its name: once it has been shut
    down they are disabled for good, provided servers are started only while they
    are down. *)
Lemma shutdown_isolates crand N unreliable m ls cfg0 cfg k x j e :
  make_config crand N unreliable m = Some cfg0 → run crand ls cfg0 = Some cfg → orderly (new_service N) ls = true →
  insts cfg !! k = Some x → all_ends x !! j = Some e →
  let up := running (foldl service_step (new_service N) ls) in
  ∃ s, peers 3 N x !! j = Some s ∧
    readEndnameInfo (End e) (net cfg) =
      mkInfo (bool_decide (up !! name_of x = Some k)) (Some (End s)) (up !! s) (reliable (net cfg)) (longReordering (net cfg)).
Proof.
  intros Hm Hr Hord Hx Hj. destruct (reached crand N unreliable m ls cfg0 cfg Hm Hr) as (Hok & Hn & Hnm & Hcalm).
  intros up. pose proof (c_ends _ _ Hok) as He. rewrite Hn, Hnm in He.
  destruct (lookup_lt_is_Some_2 (peers 3 N x) j) as [s Hs].
  { rewrite <- (e_length _ _ _ _ _ _ He k x Hx). by eapply lookup_lt_Some. }
  exists s. split; [done|]. apply list_elem_of_lookup_2 in Hj as Hin.
  pose proof (e_target _ _ _ _ _ _ He k x j e Hx Hj) as Ht. rewrite Hs in Ht. simpl in Ht. unfold target in Ht.
  unfold readEndnameInfo. rewrite Ht. simpl. rewrite (c_net _ _ Hok). f_equal. case_bool_decide as Hup.
  - by apply (e_on _ _ _ _ _ _ He k x).
  - by apply (Hcalm Hord k x).
Qed.

(** The first end of instance [k]. *)
Definition first_end (cfg : config) (k : nat) (name : string) : option (inst * string) :=
  x ← insts cfg !! k; e ← all_ends x !! 0%nat; if decide (name_of x = name) then Some (x, e) else None.

Lemma first_end_Some cfg k name x e :
  first_end cfg k name = Some (x, e) → insts cfg !! k = Some x ∧ all_ends x !! 0%nat = Some e ∧ name_of x = name.
Proof. unfold first_end. intros (y & Hy & (e' & He & Hd)%bind_Some)%bind_Some. case_decide; [|done]. by injection Hd as <- <-. Qed.

Lemma shutdown_isolates_witness :
  ∃ x e, insts (config_after 3 some_test) !! 3%nat = Some x ∧ all_ends x !! 0%nat = Some e ∧
    i_enabled (readEndnameInfo (End e) (net (config_after 3 some_test))) = false.
Proof.
  assert (is_Some (first_end (config_after 3 some_test) 3 (kv_name 0 0))) as [[x e] (Hx & Hj & Hn)%first_end_Some].
  { apply (bool_decide_eq_true_1 _). by vm_compute. }
  exists x, e. split; [exact Hx|]. split; [exact Hj|].
  assert (orderly (new_service 3) some_test = true) as Hord by by vm_compute.
  destruct (shutdown_isolates counter_bytes 3 false 1000 some_test (config_after 3 []) (config_after 3 some_test) 3 x 0 e
    (proj1 group_test_ran) (proj2 group_test_ran) Hord Hx Hj) as (s & _ & ->).
  rewrite Hn. by vm_compute.
Defined.

(** The names that [joinm] hands to the shardmaster lead to the servers of the
    groups: whenever a clerk or a server makes an end for the [i]th name of a group,
    the end reaches the instance that is then the [i]th server of that group, and
    nobody if that server is down. *)
Lemma joined_names_lead crand N unreliable m ls1 ls2 cfg0 cfg1 cfg cfg' gis gs g names i name e :
  make_config crand N unreliable m = Some cfg0 → run crand ls1 cfg0 = Some cfg1 →
  join_groups gis cfg1 = Some gs → gs !! g = Some names → names !! i = Some name →
  run crand ls2 cfg1 = Some cfg → make_end crand name cfg = Some (e, cfg') →
  ∃ gi gg, gi ∈ gis ∧ g = 100 + Z.of_nat gi ∧ length names = N ∧ group_at gi cfg = Some gg ∧
    readEndnameInfo (End e) (net cfg') =
      mkInfo true (Some (End name)) (mjoin (servers gg !! i)) (reliable (net cfg')) (longReordering (net cfg')).
Proof.
  intros Hm Hr1 Hj Hg Hi Hr2 He. destruct (reached crand N unreliable m ls1 cfg0 cfg1 Hm Hr1) as (Hok1 & Hn1 & _).
  destruct (join_groups_spec _ _ _ _ _ Hj Hg) as (gi & gg1 & Hgi & Hgg1 & Hid & ->).
  destruct (c_groups _ _ Hok1 _ _ Hgg1) as [Hid1 _]. destruct (test_run_ok crand ls2 cfg1 cfg _ Hok1 Hr2) as (Hok & (Hn & _) & _).
  destruct (test_run_group crand ls2 cfg1 cfg gi Hr2) as [gg Hgg]; [by eexists|]. exists gi, gg.
  unfold groupnames in *. rewrite length_fmap, length_seq. split_and!; [done|congruence|done|done|].
  rewrite list_lookup_fmap in Hi. apply fmap_Some in Hi as (j & Hj' & ->). apply lookup_seq in Hj' as [-> Hlt]. simpl in *.
  unfold make_end in He. apply bind_Some in He as ([es c2] & (rn & -> & Hd)%dial_spec & He). destruct es as [|e' [|]]; try done.
  injection He as -> <-. simpl. unfold readEndnameInfo. pose proof (di_target _ _ _ _ Hd 0%nat e eq_refl) as Ht. simpl in Ht. unfold target in Ht.
  rewrite Ht. simpl. rewrite (server_of_same (net cfg)) by by destruct Hd. rewrite (c_net _ _ Hok).
  destruct (c_groups _ _ Hok _ _ Hgg) as (Hid2 & Hlen & _).
  destruct (lookup_lt_is_Some_2 (servers gg) i) as [v Hv]; [lia|]. rewrite Hv. simpl.
  assert (v = running (foldl service_step (foldl service_step (new_service N) ls1) ls2) !! servername g i) as <-.
  { apply (c_held _ _ Hok). left. exists gi, gg, i. split_and!; [done|congruence|done]. }
  f_equal. pose proof (di_on _ _ _ _ Hd e) as Ho. rewrite decide_True in Ho by left. exact Ho.
Qed.

Lemma joined_names_lead_witness :
  ∃ gs e cfg', join_groups [0%nat; 1%nat] (config_after 3 []) = Some gs ∧
    make_end counter_bytes (kv_name 0 0) (config_after 3 some_test) = Some (e, cfg') ∧
    i_server (readEndnameInfo (End e) (net cfg')) = Some 12%nat.
Proof.
  assert (is_Some (gs ← join_groups [0%nat; 1%nat] (config_after 3 []);
    names ← gs !! 100; if decide (names !! 0%nat = Some (kv_name 0 0)) then Some (gs, names) else None)) as [[gs names] Hj].
  { apply (bool_decide_eq_true_1 _). by vm_compute. }
  apply bind_Some in Hj as (gs' & Hj & Hnames). apply bind_Some in Hnames as (names' & Hg & Hi). case_decide as Hn; [|done].
  injection Hi as -> ->.
  assert (is_Some (make_end counter_bytes (kv_name 0 0) (config_after 3 some_test))) as [[e cfg'] He].
  { apply (bool_decide_eq_true_1 _). by vm_compute. }
  exists gs, e, cfg'. split; [exact Hj|]. split; [exact He|].
  destruct (joined_names_lead counter_bytes 3 false 1000 [] some_test (config_after 3 []) (config_after 3 []) (config_after 3 some_test)
    cfg' [0%nat; 1%nat] gs 100 names 0 (kv_name 0 0) e (proj1 group_test_ran) eq_refl Hj Hg Hn (proj2 group_test_ran) He)
    as (gi & gg & Hgi & Hgid & _ & Hgg & ->).
  assert (gi = 0%nat) as -> by lia. simpl.
  assert ((gg ← group_at 0 (config_after 3 some_test); mjoin (servers gg !! 0%nat)) = Some 12%nat) as Hsv by by vm_compute.
  by rewrite Hgg in Hsv.
Defined.

(** ** Limits *)

Lemma leave_groups_spec gis cfg gids gs :
  leave_groups gis cfg = Some gids → join_groups gis cfg = Some gs → dom gs = list_to_set gids.
Proof.
  revert gids gs. induction gis as [|gi gis IH] using rev_ind; intros gids gs; unfold leave_groups, join_groups.
  { by intros [= <-] [= <-]. }
  rewrite !for_each_app. simpl. intros (l & Hl & (l1 & (gg & Hgg & [= <-])%bind_Some & [= <-])%bind_Some)%bind_Some.
  intros (m & Hm & (m1 & (gg' & Hgg' & [= <-])%bind_Some & [= <-])%bind_Some)%bind_Some.
  rewrite Hgg in Hgg'. injection Hgg' as <-. rewrite dom_insert_L, (IH _ _ Hl Hm), list_to_set_app_L. set_solver.
Qed.

(** [mendnames] has a row for each master, but a row for each server is needed. *)
Lemma StartGroup_limit crand gi cfg cfg' :
  (∀ gg, group_at gi cfg = Some gg → length (mendnames gg) = nmasters cfg) →
  StartGroup crand gi cfg = Some cfg' → (n cfg <= nmasters cfg)%nat.
Proof.
  intros Hm Hf. unfold StartGroup in Hf.
  destruct (for_each_seq (λ j c, (j <= nmasters cfg)%nat ∧ ∀ gg, group_at gi c = Some gg → length (mendnames gg) = nmasters cfg)
    (StartServer crand gi) (n cfg) cfg cfg') as [? _]; [split; [lia|done]| |done|done].
  intros j s s' _ [_ Hg] Hx. unfold StartServer in Hx. apply bind_Some in Hx as (gg & Hgg & Hx). apply bind_Some in Hx as (row & _ & Hx).
  apply bind_Some in Hx as ([es c1] & (rn1 & -> & _)%dial_spec & Hx). apply bind_Some in Hx as (mrow & Hmrow & Hx).
  apply bind_Some in Hx as ([ms c2] & (rn2 & -> & _)%dial_spec & Hx). apply bind_Some in Hx as (ps & _ & Hx).
  apply bind_Some in Hx as (sv & _ & [= <-]). apply lookup_lt_Some in Hmrow. specialize (Hg _ Hgg). split; [lia|].
  intros gg' [[_ ->]|[? _]]%group_lookup; [|done]. simpl. by rewrite length_insert.
Qed.

Lemma fill_length j xs l l' : fill j xs l = Some l' → (j <= length l)%nat → (j + length xs <= length l)%nat.
Proof.
  revert j l. induction xs as [|x xs IH]; intros j l; simpl; [lia|].
  destruct (Nat.ltb_spec j (length l)) as [Hlt|]; [|done]. intros Hf _. apply IH in Hf; rewrite length_insert in *; lia.
Qed.

Lemma make_config_limit crand N unreliable m cfg : make_config crand N unreliable m = Some cfg → (N <= 3)%nat.
Proof.
  unfold make_config. intros Hmk. apply bind_Some in Hmk as (cfg1 & H1 & Hmk). apply bind_Some in Hmk as ([es cfg2] & H2 & Hmk).
  apply bind_Some in Hmk as (cfg3 & H3 & _). unfold shardclerk in H2. apply dial_spec in H2 as (rn & -> & _).
  assert (same_shape (empty_config N m) cfg1) as (Hn & Hnm & Hng & _).
  { eapply (for_each_spec (λ _ c, same_shape (empty_config N m) c)); [done| |exact H1]. intros pre j s s' _ Hs Hx.
    etrans; [exact Hs|]. unfold StartMasterServer in Hx. apply bind_Some in Hx as ([es' c1] & (rn1 & -> & Hd1)%dial_spec & Hx).
    by apply bind_Some in Hx as (? & _ & [= <-]). }
  revert H3. change (ngroups (set_mck _ _)) with (ngroups cfg1). rewrite Hng. simpl. intros (c1 & Hc1 & _)%bind_Some.
  apply StartGroup_limit in Hc1; [change (n cfg1 <= nmasters cfg1)%nat in Hc1; by rewrite Hn, Hnm in Hc1|].
  intros gg [[_ ->]|[? _]]%group_lookup; [|done]. simpl. apply length_replicate.
Qed.

(** Only tests with three servers per group can have clients. *)
Lemma three_servers crand N unreliable m ls cfg0 cfg :
  make_config crand N unreliable m = Some cfg0 → run crand ls cfg0 = Some cfg → is_Some (makeClient crand cfg) → N = 3%nat.
Proof.
  intros Hm Hr [[ck cfg'] Hcl]. destruct (reached crand N unreliable m ls cfg0 cfg Hm Hr) as (_ & Hn & Hnm & _).
  apply make_config_limit in Hm. unfold makeClient in Hcl. apply bind_Some in Hcl as ([es c2] & (rn & -> & Hd)%dial_spec & Hcl).
  apply bind_Some in Hcl as (names & Hf & _). apply fill_length in Hf; [|lia]. rewrite length_replicate in Hf. simpl in Hf.
  rewrite (di_length _ _ _ _ Hd) in Hf. unfold masternames in Hf. rewrite length_fmap, length_seq in Hf. lia.
Qed.

(** [ShutdownServer] says that it isolates the server; an end that the server has
    made with [make_end] keeps working. *)
Example make_end_survives :
  (cfg ← make_config counter_bytes 3 false 1000;
   '(e, cfg) ← make_end counter_bytes (kv_name 1 0) cfg;
   cfg ← ShutdownServer 0 0 cfg;
   Some (i_enabled (readEndnameInfo (End e) (net cfg)), i_server (readEndnameInfo (End e) (net cfg)))) = Some (true, Some 6%nat).
Proof. by vm_compute. Qed.

Example four_servers : make_config counter_bytes 4 false 1000 = None.
Proof. by vm_compute. Qed.

Example two_servers : (cfg ← make_config counter_bytes 2 false 1000; makeClient counter_bytes cfg) = None.
Proof. by vm_compute. Qed.

(** The sizes that [checklogs] reports. *)
Example log_too_big :
  (cfg ← make_config counter_bytes 3 false 1; cfg ← run counter_bytes [LSave 5 (mkPersister "123456789" "")] cfg; checklogs cfg) =
  Some (Some (LogTooBig 9 1)).
Proof. by vm_compute. Qed.
End ShardConfigSpec.
